(* ===== verification/_CoqProject ===== *)
-Q . S2P
Prelude.v
InternalMutex.v
Arena.v
WakerBatch.v
WakerSet.v
WaitQueue.v
WaitList.v
Semaphore.v
SemaphoreSys.v
SemaphorePermits.v
PermitPool.v
PublicSemaphore.v
UnitSemaphore.v
Mutex.v
Places.v
MutexGuards.v
RwLock.v
RwLockGuards.v
RwLockUpgradable.v
EventAuto.v
EventManual.v
Condvar.v
CondvarMutex.v
Mpmc.v
Spmc.v
MpscUnbounded.v
MpscBounded.v
Countdown.v
Barrier.v
WaitGroup.v
Shutdown.v
Completion.v
Phaser.v
Oneshot.v
Watch.v
Backlog.v
Broadcast.v
BroadcastBounded.v
Once.v
PoolState.v
Pool.v
PoolUnbounded.v
OnceCell.v
LazyCell.v
EntryTable.v
OnceMap.v
Singleflight.v
Parker.v
Xtask.v
