(* ===== verification/Prelude.v ===== *)
(** * Asyncband: a verification library

    Asyncband ([asyncband/src/] of the repository) is a set of asynchronous synchronisation primitives
    for Rust.  This library models the primitives as executable definitions and proves what makes
    them correct under every interleaving of tasks and every cancellation of a future.

    ** How the program is put together

    The primitives rest on a few internal parts: a slot arena ([internal/arena.rs]) stores the
    waiters; the wait list ([internal/waitlist.rs]) threads a queue through an arena; the waker set
    ([internal/wakerset.rs]) keeps the registrations of broadcast-like events in one; the waker
    batch ([internal/waker_batch.rs]) collects the wakers to be woken after a lock is released; the
    internal semaphore ([internal/semaphore.rs]) counts permits with an atomic and a queue; the
    countdown ([internal/countdown.rs]) counts to a terminal zero.  Locks, pools and bounded channels
    take permits of a semaphore, events and channels own a queue or a set, [Once] combines a
    countdown with a semaphore and the cells and maps are built on it, and the oneshot channel is a
    lock-free protocol of its own.

    ** Conventions

    - A computation that may panic is a [M S A]; [wp m s Q] says that it returns and that [Q] holds
      of the result, so every specification includes the absence of panics.
    - A primitive with the futures and handles that use it is a labelled system: [enabled] gives
      the rules of ownership and borrowing that the language enforces, [exec] runs one critical
      section or one atomic access, and [run] executes a schedule.  Theorems quantify over all
      schedules; a future may be dropped between any two steps.  Where a client needs only the
      contract of a part, the part is a type class ([WaitQueue], [PermitPool]) and the client a
      step relation or a system over the class.
    - Each critical section of a lock is one step; atomics that are read or written without the
      lock are steps of their own, in the order of the source.  Memory is sequentially consistent.
    - Integers are [Z]; [usize] has 64 bits.  A plain [+] or [-] panics on overflow, and wrapping,
      saturating and checked operations are written out.  A handle owns a reference-counted
      allocation, so the number of handles stays below [isize::MAX]; an arena has room for one more
      slot when an operation may allocate; 64-bit phases, versions and generations do not run out.
      These environment assumptions are conditions of [enabled].
    - A waker is the identity of the task it wakes.  Operations return the tasks they wake in
      order; what the executor does with a wake-up is outside the model.
    - Loops have fuel where the recursion is not structural ([while_some]); the specifications show
      that the fuel is not used up, since exhaustion is a panic.

    ** The files

    - Prelude: integers, wakers, the panic monad and its rules, labelled systems, sums over maps.
      InternalMutex: the lock of [internal/mutex.rs], whose sections are the steps of the other files.
    - Arena ([internal/arena.rs]), WakerBatch ([internal/waker_batch.rs]), WakerSet
      ([internal/wakerset.rs], with the theory of tokens its clients share), WaitQueue (the
      interface of a queue of waiters), WaitList ([internal/waitlist.rs], its instance).
    - Semaphore ([internal/semaphore.rs], the program as threads with program points) and
      SemaphoreSys (its invariant and theorems); SemaphorePermits and PublicSemaphore
      ([semaphore/mod.rs]); PermitPool (the interface of a pool of permits, with a counter and the
      semaphore as instances); UnitSemaphore (what the semaphore is for requests of one permit: the
      specification BroadcastBounded uses, and the proof that the semaphore refines it).
    - Mutex ([mutex/mod.rs]), RwLock ([rwlock/]), RwLockUpgradable ([rwlock/upgradable.rs]): exclusion
      over the pool interface.  Places, MutexGuards and RwLockGuards: the same locks at the level of
      ownership, with handles, reference counts, raw pointers into the protected value, and callbacks
      that may unwind.
    - EventAuto and EventManual ([event/]), Condvar ([condvar/mod.rs]) and CondvarMutex (waiting with a
      mutex) over the queue and the pool interface.
    - Mpmc ([mpmc/]) over the queue interface; Spmc ([spmc/]), MpscUnbounded and MpscBounded ([mpsc/]);
      Backlog and Broadcast ([broadcast/mpmc/common.rs] and the channels on it), BroadcastBounded (the
      producers that wait for capacity in [broadcast/mpmc/bounded/mod.rs]); Oneshot ([oneshot/], with
      its heap allocation and its slots); Watch ([watch/mod.rs]).
    - Countdown ([internal/countdown.rs], [latch/mod.rs]), Barrier ([barrier/mod.rs]), WaitGroup
      ([waitgroup/mod.rs]), Shutdown ([shutdown/mod.rs]), Completion ([completion/mod.rs]), Phaser
      ([phaser/mod.rs]) over the waker set.
    - Once ([once/once/mod.rs]) over Countdown and the pool interface; OnceCell and LazyCell over Once;
      EntryTable (the table that OnceMap and single flight share), OnceMap ([once/once_map/]),
      Singleflight ([singleflight/mod.rs]).
    - PoolState (the idle objects), Pool ([pool/bounded.rs]) and PoolUnbounded ([pool/unbounded.rs]).
    - Parker ([blocking/]): [block_on] and [wait_timeout] of the executor, with the thread that parks
      and its notifiers as program points.
    - Xtask ([xtask/src/main.rs]): the build tasks, over a machine that is a parameter.

    ** What the theorems show

    - Data structures refine their abstract models: the arena a finite map, the wait list a queue
      with detached waiters, the waker batch the list of wakers pushed, the broadcast backlog a log
      with cursors, the semaphore of single permits a count with a queue and a set of grants.
    - Conservation: permits of the semaphore, slots of the mpmc and mpsc queues, signals of the
      auto-reset event and of the condition variable, the message of a oneshot channel, the arrivals of
      latch, barrier and phaser, the permits of guards that are mapped, downgraded or dropped.
    - Exclusion: mutex and reader-writer locks over any permit pool; one run of a [Once], of a lazy
      cell and of a single flight; a pool never exceeds its size.
    - No lost wake-up: a future that polled pending with a waker and has not been polled since is
      woken through it once it can complete, or something in flight is about to wake it (latch, barrier,
      wait group, completion, phaser, watch, oneshot, condition variable, receivers and producers of the
      channels, the parked thread).
    - Order: first in, first out of the queues, every broadcast receiver reads what was sent since it
      subscribed, in order; permits and signals go to the oldest waiter; no barging past the queue of
      the semaphore.
    - Safety of unsafe code: the oneshot channel accesses no freed memory and no uninitialised
      slot, leaks nothing and frees once; the batch reads no uninitialised cell; no sequence of safe
      calls on guards of the locks reads a freed lock or follows a pointer that leads nowhere.
    - Errors and bounds: steps that panic on overflow leave the semaphore and the phaser intact, counters
      neither underflow nor overflow, segments and backlogs stay within their budgets.
    - Termination: the fuel of every loop suffices; the drop of a receiving oneshot future takes a
      bounded number of steps, and so does the way of a notified thread back to its poll.
    - Absence of panics: in every reachable state of a labelled system every operation that is enabled
      returns ([no_panic], or the existence of its result), so no theorem about runs holds for want of runs.
    - Build tasks: a release passes its check exactly when nothing was published before, or it comes after the
      published one and is compatible, or major with its breaking changes acknowledged; tasks stop at the first
      command that fails.

    ** Not modelled

    Weak memory orderings: every atomic access is sequentially consistent, so the theorems say nothing
    about the choice of [Relaxed], [Acquire] and [Release].  Formatting ([Debug], [Display]) and error
    texts.  Panicking wakers, whose recovery is outside the contract of the library.  Auto traits and
    variance, which the compiler checks.  Benchmarks, examples and tests, which hold no logic of the
    library. *)
From stdpp Require Export base gmap list strings.
From Stdlib Require Export ZArith Lia.

Declare Scope band_scope.
Delimit Scope band_scope with band.
Open Scope Z_scope.

(** ** Machine integers

    Rust's fixed-width integers are [Z] kept in range by the operations below.  A plain [+] or
    [-] of the source panics on overflow (the language's checked arithmetic), so the model makes
    every such operation a computation that may panic and the theorems show that it does not. *)

Definition usize_max : Z := 2 ^ 64 - 1.
Definition isize_max : Z := 2 ^ 63 - 1.
Definition u64_max : Z := 2 ^ 64 - 1.
Definition u32_max : Z := 2 ^ 32 - 1.

(** [a.checked_add(b)], [a.checked_sub(b)], [a.saturating_sub(b)], [a.wrapping_add(b)]. *)
Definition checked_add (mx a b : Z) : option Z :=
  if decide (a + b <= mx) then Some (a + b) else None.
Definition checked_sub (a b : Z) : option Z :=
  if decide (b <= a) then Some (a - b) else None.
Definition checked_mul (mx a b : Z) : option Z :=
  if decide (a * b <= mx) then Some (a * b) else None.
Definition saturating_sub (a b : Z) : Z := Z.max 0 (a - b).
Definition wrapping_add (mx a b : Z) : Z := (a + b) mod (mx + 1).

(** ** Tasks

    A [Waker] is the identity of the task it wakes; [will_wake] compares tasks. *)

Definition Waker : Type := nat.
Definition will_wake (a b : Waker) : bool := bool_decide (a = b).

(** [internal::register_waker]: the slot afterwards and the replaced registration. *)
Definition register_waker (slot : option Waker) (waker : Waker) : option Waker * option Waker :=
  match slot with
  | Some current => if will_wake current waker then (slot, None) else (Some waker, slot)
  | None => (Some waker, None)
  end.

Lemma register_waker_some (slot : option Waker) (waker : Waker) :
  (register_waker slot waker).1 = Some waker.
Proof.
  unfold register_waker, will_wake. destruct slot; [|done]. by case_bool_decide; subst.
Qed.

(** The result of polling a future. *)
Inductive Poll (A : Type) : Type :=
| Ready (a : A)
| Pending.
Arguments Ready {A} a.
Arguments Pending {A}.

(** ** Computations that may panic

    [M S A] runs on a state [S] and returns a value or panics with a message.  A panic keeps the
    state it was raised in: unwinding leaves the mutations made so far. *)

Inductive outcome (S A : Type) : Type :=
| Ret (a : A) (s : S)
| Panic (msg : string) (s : S).
Arguments Ret {S A} a s.
Arguments Panic {S A} msg s.

Definition M (S A : Type) : Type := S → outcome S A.

Global Instance M_ret (S : Type) : MRet (M S) := λ A a s, Ret a s.
Global Instance M_bind (S : Type) : MBind (M S) := λ A B k m s,
  match m s with
  | Ret a s' => k a s'
  | Panic e s' => Panic e s'
  end.

Definition panic {S A : Type} (msg : string) : M S A := λ s, Panic msg s.
Definition get {S : Type} : M S S := λ s, Ret s s.
Definition put {S : Type} (s : S) : M S unit := λ _, Ret tt s.
Definition modify {S : Type} (f : S → S) : M S unit := λ s, Ret tt (f s).
Definition gets {S A : Type} (f : S → A) : M S A := λ s, Ret (f s) s.

(** [Option::expect] and [assert!]. *)
Definition expect {S A : Type} (o : option A) (msg : string) : M S A :=
  match o with
  | Some a => mret a
  | None => panic msg
  end.
Definition assert_true {S : Type} (b : bool) (msg : string) : M S unit :=
  if b then mret tt else panic msg.

(** [a + b], [a - b] and [a * b] on an integer type with maximum [mx]. *)
Definition add_int {S : Type} (mx a b : Z) : M S Z :=
  expect (checked_add mx a b) "attempt to add with overflow".
Definition sub_int {S : Type} (a b : Z) : M S Z :=
  expect (checked_sub a b) "attempt to subtract with overflow".
Definition mul_int {S : Type} (mx a b : Z) : M S Z :=
  expect (checked_mul mx a b) "attempt to multiply with overflow".

(** Runs a computation on a field of a larger state. *)
Definition zoom {S T A : Type} (proj : S → T) (upd : T → S → S) (m : M T A) : M S A := λ s,
  match m (proj s) with
  | Ret a t => Ret a (upd t s)
  | Panic e t => Panic e (upd t s)
  end.

(** ** Total-correctness specifications

    [wp m s Q]: run from [s], [m] returns (it does not panic) and [Q] holds of the value and the
    state it returns. *)

Definition wp {S A : Type} (m : M S A) (s : S) (Q : A → S → Prop) : Prop :=
  match m s with
  | Ret a s' => Q a s'
  | Panic _ _ => False
  end.

(** [returns m s a s']: the run of [m] from [s] ends with value [a] in state [s']. *)
Definition returns {S A : Type} (m : M S A) (s : S) (a : A) (s' : S) : Prop := m s = Ret a s'.

Section wp_rules.
Context {S : Type}.

Lemma wp_mono {A : Type} (m : M S A) (s : S) (Q Q' : A → S → Prop) :
  wp m s Q → (∀ a s', Q a s' → Q' a s') → wp m s Q'.
Proof. unfold wp. destruct (m s); auto. Qed.

Lemma wp_and {A : Type} (m : M S A) (s : S) (Q Q' : A → S → Prop) :
  wp m s Q → wp m s Q' → wp m s (λ a s', Q a s' ∧ Q' a s').
Proof. unfold wp. destruct (m s); auto. Qed.

Lemma wp_impl {A : Type} (m : M S A) (s : S) (R : Prop) (Q Q' : A → S → Prop) :
  wp m s Q → (R → wp m s Q') → wp m s (λ a s', Q a s' ∧ (R → Q' a s')).
Proof. unfold wp. destruct (m s); auto. Qed.

Lemma wp_ret {A : Type} (a : A) (s : S) (Q : A → S → Prop) : Q a s → wp (mret a) s Q.
Proof. done. Qed.

Lemma wp_bind {A B : Type} (m : M S A) (k : A → M S B) (s : S) (Q : B → S → Prop) :
  wp m s (λ a s', wp (k a) s' Q) → wp (m ≫= k) s Q.
Proof. unfold wp, mbind, M_bind. by destruct (m s). Qed.

Lemma wp_get (s : S) (Q : S → S → Prop) : Q s s → wp get s Q.
Proof. done. Qed.
Lemma wp_put (s s' : S) (Q : unit → S → Prop) : Q tt s' → wp (put s') s Q.
Proof. done. Qed.
Lemma wp_modify (f : S → S) (s : S) (Q : unit → S → Prop) : Q tt (f s) → wp (modify f) s Q.
Proof. done. Qed.
Lemma wp_gets {A : Type} (f : S → A) (s : S) (Q : A → S → Prop) : Q (f s) s → wp (gets f) s Q.
Proof. done. Qed.

Lemma wp_expect {A : Type} (o : option A) (a : A) (msg : string) (s : S) (Q : A → S → Prop) :
  o = Some a → Q a s → wp (expect o msg) s Q.
Proof. by intros ->. Qed.
Lemma wp_assert (b : bool) (msg : string) (s : S) (Q : unit → S → Prop) :
  b = true → Q tt s → wp (assert_true b msg) s Q.
Proof. by intros ->. Qed.

Lemma wp_add_int (mx a b : Z) (s : S) (Q : Z → S → Prop) :
  a + b <= mx → Q (a + b) s → wp (add_int mx a b) s Q.
Proof. intros H HQ. unfold add_int, checked_add. by rewrite decide_True by done. Qed.
Lemma wp_sub_int (a b : Z) (s : S) (Q : Z → S → Prop) :
  b <= a → Q (a - b) s → wp (sub_int a b) s Q.
Proof. intros H HQ. unfold sub_int, checked_sub. by rewrite decide_True by done. Qed.
Lemma wp_mul_int (mx a b : Z) (s : S) (Q : Z → S → Prop) :
  a * b <= mx → Q (a * b) s → wp (mul_int mx a b) s Q.
Proof. intros H HQ. unfold mul_int, checked_mul. by rewrite decide_True by done. Qed.

Lemma wp_zoom {T A : Type} (proj : S → T) (upd : T → S → S) (m : M T A) (s : S)
    (Q : A → S → Prop) :
  wp m (proj s) (λ a t, Q a (upd t s)) → wp (zoom proj upd m) s Q.
Proof. unfold wp, zoom. by destruct (m (proj s)). Qed.

Lemma wp_returns {A : Type} (m : M S A) (s : S) (Q : A → S → Prop) :
  wp m s Q ↔ ∃ a s', returns m s a s' ∧ Q a s'.
Proof.
  unfold wp, returns. destruct (m s) as [a s'|e s']; [|naive_solver].
  split; [eauto|]. by intros (? & ? & [= <- <-] & ?).
Qed.

Lemma wp_elim {A : Type} (m : M S A) (s : S) (Q : A → S → Prop) (E : string → S → Prop) :
  wp m s Q → match m s with Ret a s' => Q a s' | Panic e s' => E e s' end.
Proof. unfold wp. by destruct (m s). Qed.

Lemma wp_returns_elim {A : Type} (m : M S A) (s s' : S) (a : A) (Q : A → S → Prop) :
  wp m s Q → returns m s a s' → Q a s'.
Proof. unfold wp, returns. by intros H E; rewrite E in H. Qed.
End wp_rules.

(** Abbreviations of [zoom] that [wp_step] may unfold. *)
Create HintDb band_zoom.

(** One structural step of a [wp] goal; [wp_auto] repeats it. *)
Ltac wp_step :=
  lazymatch goal with
  | |- wp (mbind _ _) _ _ => apply wp_bind
  | |- wp (mret _) _ _ => apply wp_ret
  | |- wp get _ _ => apply wp_get
  | |- wp (put _) _ _ => apply wp_put
  | |- wp (modify _) _ _ => apply wp_modify
  | |- wp (gets _) _ _ => apply wp_gets
  | |- wp (zoom _ _ _) _ _ => apply wp_zoom
  | |- wp _ _ _ => progress autounfold with band_zoom
  end.
Ltac wp_auto := repeat (wp_step; cbv beta).

(** Applies a specification [H : wp m s Q] to the computation at the head of the goal. *)
Tactic Notation "wp_apply" uconstr(H) := (eapply wp_mono; [eapply H|cbv beta]).

(** ** Generic lemmas *)

Lemma map_size_pos `{Countable K} {A : Type} (m : gmap K A) (k : K) (x : A) :
  m !! k = Some x → (0 < size m)%nat.
Proof. intros Hk. destruct (size m) eqn:E; [|lia]. by apply map_size_empty_inv in E as ->. Qed.

Lemma size_pos_elem (g : gset nat) (h : nat) : h ∈ g → (0 < size g)%nat.
Proof. intros Hh. destruct (size g) eqn:E; [|lia]. apply size_empty_inv in E. set_solver. Qed.

Lemma enabled_and (P Q : Prop) `{!Decision P, !Decision Q} :
  bool_decide P && bool_decide Q = true → P ∧ Q.
Proof. by intros [?%bool_decide_eq_true ?%bool_decide_eq_true]%andb_true_iff. Qed.

Lemma omap_id_somes {A : Type} (os : list (option A)) :
  (∀ o, o ∈ os → is_Some o) → Some <$> omap id os = os.
Proof.
  induction os as [|o os IH]; [done|]. intros H. destruct (H o) as [a ->]; [set_solver|].
  csimpl. f_equal. apply IH. intros o Ho. apply H. set_solver.
Qed.

Section lists.
Context {A : Type}.
Implicit Types (l a b q : list A).

Lemma NoDup_middle a x b :
  NoDup (a ++ x :: b) →
  (x ∉ a) ∧ (x ∉ b) ∧ NoDup a ∧ NoDup b ∧ (∀ z, z ∈ a → z ∉ b).
Proof. rewrite NoDup_app, NoDup_cons. set_solver. Qed.

(** An element of a concatenation lies in its left or in its right part. *)
Lemma app_cons_inv a b q1 x q2 :
  a ++ b = q1 ++ x :: q2 →
  (∃ k, a = q1 ++ x :: k ∧ q2 = k ++ b) ∨ (∃ k, q1 = a ++ k ∧ b = k ++ x :: q2).
Proof.
  intros [(k & -> & Hk)|(k & -> & ->)]%app_eq_inv; [|right; by eauto].
  destruct k as [|y k]; simpl in Hk; [right; exists []; by rewrite !app_nil_r|].
  injection Hk as -> ->. left. by eauto.
Qed.

Lemma filter_neq_id `{!EqDecision A} x l : x ∉ l → filter (λ y, y ≠ x) l = l.
Proof.
  induction l as [|y l IH]; [done|]. intros [Hy Hx]%not_elem_of_cons.
  by rewrite filter_cons_True, IH by done.
Qed.

Lemma filter_neq_middle `{!EqDecision A} a x b :
  x ∉ a → x ∉ b → filter (λ y, y ≠ x) (a ++ x :: b) = a ++ b.
Proof.
  intros Ha Hb. rewrite filter_app, filter_cons_False by naive_solver.
  by rewrite !filter_neq_id.
Qed.
End lists.

(** Sums over finite maps. *)
Section map_sums.
Context `{Countable K} {A : Type} (f : A → Z).
Implicit Types (m : gmap K A).

Definition map_sum m : Z := map_fold (λ _ a acc, f a + acc) 0 m.

Lemma map_sum_empty : map_sum ∅ = 0.
Proof. done. Qed.
Lemma map_sum_insert m k a : m !! k = None → map_sum (<[k:=a]> m) = f a + map_sum m.
Proof. intros Hk. unfold map_sum. rewrite map_fold_insert_L; [done|intros; lia|done]. Qed.
Lemma map_sum_delete m k a : m !! k = Some a → map_sum (delete k m) = map_sum m - f a.
Proof.
  intros Hk. unfold map_sum. rewrite (map_fold_delete_L _ _ k a m); [lia|intros; lia|done].
Qed.
Lemma map_sum_update m k a b : m !! k = Some a → map_sum (<[k:=b]> m) = map_sum m - f a + f b.
Proof.
  intros Hk. rewrite <-insert_delete_eq, map_sum_insert by apply lookup_delete_eq.
  rewrite (map_sum_delete m k a) by done. lia.
Qed.
(** The same whatever the entry was. *)
Lemma map_sum_put m k a : map_sum (<[k:=a]> m) = map_sum m - from_option f 0 (m !! k) + f a.
Proof.
  destruct (m !! k) as [b|] eqn:Hk; simpl; [by rewrite (map_sum_update m k b)|]. rewrite map_sum_insert by done. lia.
Qed.
Lemma map_sum_del m k : map_sum (delete k m) = map_sum m - from_option f 0 (m !! k).
Proof.
  destruct (m !! k) as [b|] eqn:Hk; simpl; [by apply map_sum_delete|]. rewrite delete_id by done. lia.
Qed.
Lemma map_sum_nonneg m : (∀ k a, m !! k = Some a → 0 <= f a) → 0 <= map_sum m.
Proof.
  induction m as [|k a m Hk IH] using map_ind; intros Hf; [done|].
  rewrite map_sum_insert by done. pose proof (Hf k a (lookup_insert_eq _ _ _)).
  assert (0 <= map_sum m); [|lia]. apply IH. intros j b Hj. apply (Hf j). rewrite lookup_insert_ne; [done|].
  congruence.
Qed.

(** One entry is at most the sum of entries that are not negative. *)
Lemma map_sum_elem m k a :
  (∀ j b, m !! j = Some b → 0 <= f b) → m !! k = Some a → f a <= map_sum m.
Proof.
  intros Hf Hk. pose proof (map_sum_delete m k a Hk) as Hd.
  assert (0 <= map_sum (delete k m)); [|lia]. apply map_sum_nonneg.
  intros j b [_ Hj]%lookup_delete_Some. by eapply Hf.
Qed.

(** Two entries. *)
Lemma map_sum_two m j k a b :
  (∀ i c, m !! i = Some c → 0 <= f c) → m !! j = Some a → m !! k = Some b → j ≠ k → f a + f b <= map_sum m.
Proof.
  intros Hf Hj Hk Hne. pose proof (map_sum_delete m j a Hj) as Hd.
  assert (f b <= map_sum (delete j m)); [|lia]. apply (map_sum_elem _ k); [|by rewrite lookup_delete_ne].
  intros i c [_ Hi]%lookup_delete_Some. by eapply Hf.
Qed.
End map_sums.

(** Entries that weigh at most as much; the difference at one of them. *)
Lemma map_sum_le_at `{Countable K} {A : Type} (f g : A → Z) (m : gmap K A) k :
  (∀ j a, m !! j = Some a → f a <= g a) →
  map_sum f m + (from_option g 0 (m !! k) - from_option f 0 (m !! k)) <= map_sum g m.
Proof.
  intros Hfg. assert (∀ m' : gmap K A, (∀ j a, m' !! j = Some a → f a <= g a) → map_sum f m' <= map_sum g m') as Hle.
  { clear. intros m'. induction m' as [|j a m' Hj IH] using map_ind; intros Hfg; [done|]. rewrite !map_sum_insert by done.
    pose proof (Hfg j a (lookup_insert_eq _ _ _)). assert (map_sum f m' <= map_sum g m'); [|lia]. apply IH.
    intros i b Hi. apply (Hfg i). rewrite lookup_insert_ne; [done|]. congruence. }
  pose proof (Hle (delete k m)) as Hd. rewrite !map_sum_del in Hd. assert (map_sum f m - from_option f 0 (m !! k) <=
    map_sum g m - from_option g 0 (m !! k)); [|lia]. apply Hd. intros j a [_ Hj]%lookup_delete_Some. by eapply Hfg.
Qed.

Lemma map_sum_ext `{Countable K} {A : Type} (f g : A → Z) (m : gmap K A) :
  (∀ k a, m !! k = Some a → f a = g a) → map_sum f m = map_sum g m.
Proof.
  induction m as [|k a m Hk IH] using map_ind; intros Hfg; [done|].
  rewrite !map_sum_insert by done. rewrite (Hfg k a) by apply lookup_insert_eq. f_equal. apply IH.
  intros j b Hj. apply (Hfg j). rewrite lookup_insert_ne; [done|]. congruence.
Qed.

(** ** Results, loops, local runs *)

Inductive result (A E : Type) : Type :=
| Ok (a : A)
| Err (e : E).
Arguments Ok {A E} a.
Arguments Err {A E} e.

(** [while let Some(a) = step { .. }], collecting the values.  The fuel bounds the iterations; the
    specifications show that it is never exhausted. *)
Fixpoint while_some {S A : Type} (fuel : nat) (step : M S (option A)) : M S (list A) :=
  match fuel with
  | O => panic "loop did not terminate"
  | S fuel' =>
      r ← step;
      match r with
      | None => mret []
      | Some a => rest ← while_some fuel' step; mret (a :: rest)
      end
  end.

(** Runs a computation on a local value. *)
Definition run_local {S T A : Type} (t : T) (m : M T A) : M S A := λ s,
  match m t with
  | Ret a _ => Ret a s
  | Panic e _ => Panic e s
  end.

Lemma wp_run_local {S T A : Type} (t : T) (m : M T A) (s : S) (Q : A → S → Prop) :
  wp m t (λ a _, Q a s) → wp (run_local t m) s Q.
Proof. unfold wp, run_local. by destruct (m t). Qed.

(** ** Computations that have returned *)
Lemma returns_bind {S A B : Type} (m : M S A) (k : A → M S B) s b s' :
  returns (m ≫= k) s b s' → ∃ a s1, returns m s a s1 ∧ returns (k a) s1 b s'.
Proof. unfold returns, mbind, M_bind. destruct (m s); [by eauto|done]. Qed.

Lemma returns_zoom {S U A : Type} (proj : S → U) (upd : U → S → S) (a : M U A) s r s' :
  returns (zoom proj upd a) s r s' → ∃ u, returns a (proj s) r u ∧ s' = upd u s.
Proof. unfold returns, zoom. destruct (a (proj s)) as [r' u|]; [|done]. intros [= -> <-]. by exists u. Qed.

Lemma returns_expect {S A : Type} (v : option A) (msg : string) (s : S) a s' :
  returns (expect v msg) s a s' → v = Some a ∧ s' = s.
Proof. destruct v; [|done]. by intros [= -> ->]. Qed.

(** Splits the return of a computation into the returns of its parts. *)
Ltac split_return H :=
  repeat match type of H with
  | returns (_ ≫= _) _ _ _ => let a := fresh "a" in let s := fresh "s" in let H' := fresh "R" in
      apply returns_bind in H as (a & s & H' & H)
  end.

(** ** Labelled systems

    A primitive together with the futures and handles that use it is a system: a label names an
    operation, [enabled] says when the ownership rules of the language allow it, [exec] runs the
    critical section of the operation.  [run] executes a schedule of labels, so that every
    interleaving of operations is a run. *)
Section systems.
Context {St L O : Type} (enabled : L → St → bool) (exec : L → M St O).

Fixpoint run (ls : list L) : M St (list (L * O)) :=
  match ls with
  | [] => mret []
  | l :: ls =>
      s ← get;
      assert_true (enabled l s) "operation not enabled";;
      o ← exec l;
      tr ← run ls;
      mret ((l, o) :: tr)
  end.

(** In the state [s] no operation panics. *)
Definition no_panic (s : St) : Prop := ∀ l, enabled l s = true → ∃ o s', returns (exec l) s o s'.

Lemma no_panic_wp s (Q : L → O → St → Prop) : (∀ l, enabled l s = true → wp (exec l) s (Q l)) → no_panic s.
Proof. intros H l He. destruct (proj1 (wp_returns _ _ _) (H l He)) as (o & s' & Hr & _). by exists o, s'. Qed.

Lemma run_cons_inv l ls s tr s' :
  returns (run (l :: ls)) s tr s' →
  enabled l s = true ∧ ∃ o s1 tr', returns (exec l) s o s1 ∧ returns (run ls) s1 tr' s' ∧ tr = (l, o) :: tr'.
Proof.
  simpl. intros Hr. apply returns_bind in Hr as (? & ? & [= <- <-] & Hr).
  apply returns_bind in Hr as (? & ? & Ha & Hr). unfold assert_true in Ha.
  destruct (enabled l s); [|done]. injection Ha as <- <-.
  apply returns_bind in Hr as (o & s1 & He & Hr). apply returns_bind in Hr as (tr' & s2 & Ht & Hr).
  injection Hr as <- <-. split; [done|]. by exists o, s1, tr'.
Qed.

Lemma wp_run_nil s (Q : list (L * O) → St → Prop) : Q [] s → wp (run []) s Q.
Proof. done. Qed.
Lemma wp_run_cons l ls s (Q : list (L * O) → St → Prop) :
  enabled l s = true →
  wp (exec l) s (λ o s1, wp (run ls) s1 (λ tr s2, Q ((l, o) :: tr) s2)) →
  wp (run (l :: ls)) s Q.
Proof.
  intros He Hx. simpl. wp_auto. apply wp_assert; [done|]. wp_auto. eapply wp_mono; [exact Hx|].
  intros o s1 H1. wp_auto. eapply wp_mono; [exact H1|]. intros tr s2 H2. by wp_auto.
Qed.

(** An assertion that holds initially and is kept by every enabled operation, which therefore
    does not panic, holds after every run. *)
Lemma run_invariant (I : St → Prop) ls s tr s' :
  (∀ s l, I s → enabled l s = true → wp (exec l) s (λ _ s', I s')) →
  I s → returns (run ls) s tr s' → I s'.
Proof.
  intros Hstep. revert s tr. induction ls as [|l ls IH]; intros s tr Hs Hr.
  - by injection Hr as <- <-.
  - apply run_cons_inv in Hr as (He & o & s1 & tr' & Hx & Hr & _).
    eapply IH; [|done]. by apply (wp_returns_elim _ _ _ _ _ (Hstep s l Hs He) Hx).
Qed.

(** The same for an assertion relating the state to the trace of operations and results. *)
Lemma run_trace_invariant (I : list (L * O) → St → Prop) ls s tr s' :
  (∀ tr s l, I tr s → enabled l s = true → wp (exec l) s (λ o s', I (tr ++ [(l, o)]) s')) →
  ∀ tr0, I tr0 s → returns (run ls) s tr s' → I (tr0 ++ tr) s'.
Proof.
  intros Hstep. revert s tr. induction ls as [|l ls IH]; intros s tr tr0 Hs Hr.
  - injection Hr as <- <-. by rewrite app_nil_r.
  - apply run_cons_inv in Hr as (He & o & s1 & tr' & Hx & Hr & ->).
    rewrite (app_assoc tr0 [_] tr' : tr0 ++ (l, o) :: tr' = _).
    eapply IH; [|done]. by apply (wp_returns_elim _ _ _ _ _ (Hstep tr0 s l Hs He) Hx).
Qed.
End systems.

(** A run whose labels all satisfy [p] is a run of the system restricted to such labels. *)
Lemma run_restrict {St L O : Type} (enabled : L → St → bool) (exec : L → M St O) (p : L → bool) ls s tr s' :
  Forall (λ l, p l = true) ls → returns (run enabled exec ls) s tr s' →
  returns (run (λ l s, p l && enabled l s) exec ls) s tr s'.
Proof.
  revert s tr. induction ls as [|l ls IH]; intros s tr Hp Hr; [done|].
  apply Forall_cons in Hp as [Hl Hp]. apply run_cons_inv in Hr as (He & o & s1 & tr' & Hx & Hr & ->).
  apply (IH _ _ Hp) in Hr. unfold returns in *. simpl. unfold mbind, M_bind, get, mret, M_ret, assert_true.
  rewrite Hl, He. simpl. unfold mret, M_ret. by rewrite Hx, Hr.
Qed.

(** A promise on which every step works: the assertion [R] is kept until a step meets the goal
    [W] of its observation. *)
Lemma run_promise {St L O : Type} (enabled : L → St → bool) (exec : L → M St O) (I R : St → Prop)
    (W : O → Prop) (p : L → bool) ls s tr s' :
  (∀ s l, I s → enabled l s = true → p l = true → wp (exec l) s (λ o s', I s' ∧ (R s → R s' ∨ W o))) →
  I s → R s → Forall (λ l, p l = true) ls → returns (run enabled exec ls) s tr s' →
  R s' ∨ Exists (λ e, W e.2) tr.
Proof.
  intros Hstep. revert s tr. induction ls as [|l ls IH]; intros s tr Hs HR Hp Hr.
  - injection Hr as <- <-. by left.
  - apply Forall_cons in Hp as [Hl Hp]. apply run_cons_inv in Hr as (He & o & s1 & tr' & Hx & Hr & ->).
    apply (wp_returns_elim _ _ _ _ _ (Hstep s l Hs He Hl)) in Hx as [Hs1 [HR1|HW]%(λ H, H HR)].
    + destruct (IH s1 tr' Hs1 HR1 Hp Hr); [by left|right]. by apply Exists_cons_tl.
    + right. by apply Exists_cons_hd.
Qed.

(** The trace of a run shows its labels. *)
Lemma run_labels {St L O : Type} (enabled : L → St → bool) (exec : L → M St O) ls s tr s' :
  returns (run enabled exec ls) s tr s' → tr.*1 = ls.
Proof.
  revert s tr. induction ls as [|l ls IH]; intros s tr Hr; [by injection Hr as <- <-|].
  apply run_cons_inv in Hr as (_ & o & s1 & tr' & _ & Hr & ->). csimpl. f_equal. by eapply IH.
Qed.
