(* ===== verification/InternalMutex.v ===== *)
(** * The internal lock

    [asyncband/src/internal/mutex.rs]: the standard lock without poisoning.  A panic inside a critical section
    of the standard lock poisons it, and from then on [lock] and [get_mut] answer with an error that still
    carries the guard; the wrapper takes the guard out of the error.  The theorem says that critical sections
    run through the wrapper, some of which may panic, are the sections run on the protected value itself,
    which is why the other files model a locked section as a computation on the value it protects. *)
From S2P Require Import Prelude.

(** ** The standard lock *)
Record StdMutex (T : Type) : Type := mkStd { data : T; poisoned : bool }.
Arguments mkStd {T}.
Arguments data {T}.
Arguments poisoned {T}.

(** [PoisonError]: the guard (or the reference) it carries. *)
Record PoisonError (G : Type) : Type := mkPoison { guard : G }.
Arguments mkPoison {G}.
Arguments guard {G}.
Definition into_inner {G : Type} (e : PoisonError G) : G := guard e.

Section lock.
Context {T A : Type}.
Implicit Types (s : StdMutex T) (t : T) (sec : M T A).

(** A guard gives access to the value; its drop poisons the lock when the section panicked. *)
Definition std_new t : StdMutex T := mkStd t false.
Definition std_lock s : result T (PoisonError T) := if poisoned s then Err (mkPoison (data s)) else Ok (data s).
Definition std_unlock (panicking : bool) t s : StdMutex T := mkStd t (poisoned s || panicking).
Definition std_get_mut s : result T (PoisonError T) := std_lock s.

(** [unwrap_or_else]. *)
Definition unwrap_or_else {B E : Type} (r : result B E) (f : E → B) : B :=
  match r with Ok b => b | Err e => f e end.

(** ** The wrapper *)
Definition mutex_new t : StdMutex T := std_new t.
Definition mutex_lock s : T := unwrap_or_else (std_lock s) into_inner.
Definition mutex_get_mut s : T := unwrap_or_else (std_get_mut s) into_inner.

(** A section entered with [lock]: the guard is dropped at its end, in a panic too. *)
Definition with_lock sec : M (StdMutex T) A := λ s,
  match sec (mutex_lock s) with
  | Ret a t => Ret a (std_unlock false t s)
  | Panic e t => Panic e (std_unlock true t s)
  end.

(** An exclusive reference: no guard is made, and a panic does not poison. *)
Definition with_get_mut sec : M (StdMutex T) A := λ s,
  match sec (mutex_get_mut s) with
  | Ret a t => Ret a (mkStd t (poisoned s))
  | Panic e t => Panic e (mkStd t (poisoned s))
  end.

(** Sections one after the other, each with [lock] or [get_mut]; a panic ends its section only. *)
Inductive Entry : Type := ByLock | ByMut.
Definition enter (e : Entry) : M T A → M (StdMutex T) A := match e with ByLock => with_lock | ByMut => with_get_mut end.

Definition answer {S : Type} (r : outcome S A) : result A string := match r with Ret a _ => Ok a | Panic e _ => Err e end.
Definition after {S : Type} (r : outcome S A) : S := match r with Ret _ s | Panic _ s => s end.

Fixpoint sections (l : list (Entry * M T A)) s : list (result A string) * StdMutex T :=
  match l with
  | [] => ([], s)
  | (e, sec) :: l =>
      let r := enter e sec s in
      let (rs, s) := sections l (after r) in (answer r :: rs, s)
  end.

(** The same sections on the value alone. *)
Fixpoint bare_sections (l : list (Entry * M T A)) t : list (result A string) * T :=
  match l with
  | [] => ([], t)
  | (_, sec) :: l =>
      let r := sec t in
      let (rs, t) := bare_sections l (after r) in (answer r :: rs, t)
  end.

Lemma lock_data s : mutex_lock s = data s ∧ mutex_get_mut s = data s.
Proof. unfold mutex_lock, mutex_get_mut, std_get_mut, std_lock. by destruct (poisoned s). Qed.

Lemma enter_bare e sec s : answer (enter e sec s) = answer (sec (data s)) ∧ data (after (enter e sec s)) = after (sec (data s)).
Proof. destruct (lock_data s) as [Hl Hm]. destruct e; simpl; unfold with_lock, with_get_mut; rewrite ?Hl, ?Hm; by destruct (sec (data s)). Qed.

(** The internal lock is transparent: critical sections entered through it, in any number and with panics in any
    of them, answer what they answer when they are run on the protected value itself, one after the other, and leave
    the value they leave there.  A lock that was poisoned still lets everybody in. *)
Theorem internal_lock_transparent (l : list (Entry * M T A)) s :
  (sections l s).1 = (bare_sections l (data s)).1 ∧ data (sections l s).2 = (bare_sections l (data s)).2.
Proof.
  revert s. induction l as [|[e sec] l IH]; intros s; simpl; [done|]. destruct (enter_bare e sec s) as [Ha Hd].
  destruct (IH (after (enter e sec s))) as [IH1 IH2]. rewrite Hd in IH1, IH2.
  destruct (sections l _) as [rs s'], (bare_sections l _) as [rs' t']. simpl in *. by rewrite Ha, IH1.
Qed.
End lock.

(** A panic poisons the standard lock; the next section is entered all the same and sees what was written. *)
Example entered_after_panic :
  sections [(ByLock, put 1 ;; panic "oops"); (ByLock, get)] (mutex_new 0) = ([Err "oops"; Ok 1], mkStd 1 true).
Proof. reflexivity. Qed.
