(* ===== verification/Arena.v ===== *)
(** * The slot arena

    [asyncband/src/internal/arena.rs]: a vector of slots with an intrusive list of the vacant
    ones.  Every wait list and waker set of the crate stores its entries here.  The file models
    the arena, relates it to a finite map from slot identifiers to values and shows that the
    free list is always sound, that no slot is ever lost and that storage only grows when every
    slot is occupied. *)
From S2P Require Import Prelude.

(** A [NonZeroUsize] holding the slot's index plus one. *)
Abbreviation SlotId := positive (only parsing).

Definition from_index {S : Type} (index : nat) : M S SlotId :=
  encoded ← expect (checked_add usize_max (Z.of_nat index) 1)
              "arena index must fit in a non-zero usize";
  expect (match encoded with Zpos p => Some p | _ => None end)
    "encoded arena index must be non-zero".

Definition index (id : SlotId) : nat := Nat.pred (Pos.to_nat id).

Inductive Slot (T : Type) : Type :=
| Occupied (value : T)
| Vacant (next : option SlotId).
Arguments Occupied {T} value.
Arguments Vacant {T} next.

Record Arena (T : Type) : Type := mkArena {
  slots : list (Slot T);
  vacant_head : option SlotId;
  len : Z;
}.
Arguments mkArena {T}.
Arguments slots {T}.
Arguments vacant_head {T}.
Arguments len {T}.

Section operations.
Context {T : Type}.

Definition arena_new : Arena T := mkArena [] None 0.

(** [Arena::insert]: reuse the head of the vacant list, or push a new slot. *)
Definition insert_slot (value : T) : M (Arena T) SlotId :=
  a ← get;
  id ← match vacant_head a with
       | Some id =>
           slot ← expect (slots a !! index id) "arena free list must point to a slot";
           next ← match slot with
                  | Vacant next => mret next
                  | Occupied _ => panic "arena free list must point to a vacant slot"
                  end;
           put (mkArena (<[index id := Occupied value]> (slots a)) next (len a));;
           mret id
       | None =>
           id ← from_index (length (slots a));
           put (mkArena (slots a ++ [Occupied value]) (vacant_head a) (len a));;
           mret id
       end;
  a ← get;
  n ← add_int usize_max (len a) 1;
  put (mkArena (slots a) (vacant_head a) n);;
  mret id.

(** [Arena::get]; the shared borrow of the source is a read. *)
Definition get_slot (a : Arena T) (id : SlotId) : option T :=
  match slots a !! index id with
  | Some (Occupied value) => Some value
  | Some (Vacant _) | None => None
  end.

(** [Arena::get_mut]: the mutable borrow is a read of the value together with the write
    [write_slot] that stores through it. *)
Definition write_slot (id : SlotId) (value : T) (a : Arena T) : Arena T :=
  mkArena (<[index id := Occupied value]> (slots a)) (vacant_head a) (len a).

Definition is_empty (a : Arena T) : bool := bool_decide (len a = 0).

(** [Arena::remove]: the slot is replaced by a vacant one before it is inspected, and put back
    when it was vacant already. *)
Definition remove_slot (id : SlotId) : M (Arena T) T :=
  a ← get;
  slot ← expect (slots a !! index id) "arena slot ID must be in bounds";
  put (mkArena (<[index id := Vacant (vacant_head a)]> (slots a)) (vacant_head a) (len a));;
  value ← match slot with
          | Occupied value => mret value
          | Vacant _ =>
              put (mkArena (<[index id := slot]> (slots a)) (vacant_head a) (len a));;
              panic "arena slot ID must be occupied"
          end;
  a ← get;
  n ← sub_int (len a) 1;
  put (mkArena (slots a) (Some id) n);;
  mret value.

Definition occupied_value (slot : Slot T) : option T :=
  match slot with
  | Occupied value => Some value
  | Vacant _ => None
  end.

(** [Arena::take_all]: drains the slots in order; the allocation is kept. *)
Definition take_all : M (Arena T) (list T) :=
  a ← get;
  put (mkArena [] None 0);;
  mret (omap occupied_value (slots a)).

(** [Arena::into_iter]. *)
Definition into_iter (a : Arena T) : list T := omap occupied_value (slots a).
End operations.

(** ** Invariant and abstraction

    [free_chain sl h fl]: following the vacant list from [h] through [sl] visits exactly [fl]. *)
Section abstraction.
Context {T : Type}.
Implicit Types (a : Arena T) (m : gmap SlotId T) (sl : list (Slot T)) (fl : list SlotId).

Fixpoint free_chain (sl : list (Slot T)) (h : option SlotId) (fl : list SlotId) : Prop :=
  match fl with
  | [] => h = None
  | id :: fl' =>
      h = Some id ∧ ∃ next, sl !! index id = Some (Vacant next) ∧ free_chain sl next fl'
  end.

(** The arena stores the finite map [m]: slots agree with [m], the vacant list has no cycle and,
    together with the occupied slots, accounts for every slot of the vector. *)
Record arena_rep (a : Arena T) (m : gmap SlotId T) : Prop := {
  rep_lookup : ∀ id, m !! id = get_slot a id;
  rep_len : len a = Z.of_nat (size m);
  rep_free : ∃ fl, free_chain (slots a) (vacant_head a) fl ∧ NoDup fl ∧
               length (slots a) = (size m + length fl)%nat;
}.

(** The vector can still grow by one slot ([Vec] lengths are [usize]). *)
Definition arena_room (a : Arena T) : Prop := Z.of_nat (length (slots a)) < usize_max.
#[global] Instance arena_room_dec (a : Arena T) : Decision (arena_room a) := Z_lt_dec _ _.

Lemma index_inj (i j : SlotId) : index i = index j → i = j.
Proof. unfold index. pose proof (Pos2Nat.is_pos i). pose proof (Pos2Nat.is_pos j). lia. Qed.

Lemma index_of_succ (n : nat) : index (Pos.of_succ_nat n) = n.
Proof. unfold index. lia. Qed.

Lemma wp_from_index {S : Type} (n : nat) (s : S) (Q : SlotId → S → Prop) :
  Z.of_nat n < usize_max → Q (Pos.of_succ_nat n) s → wp (from_index n) s Q.
Proof.
  intros Hn HQ. unfold from_index. apply wp_bind.
  eapply wp_expect; [unfold checked_add; rewrite decide_True by lia; done|].
  eapply (wp_expect _ (Pos.of_succ_nat n)); [|done].
  replace (Z.of_nat n + 1) with (Z.pos (Pos.of_succ_nat n)) by lia. done.
Qed.

Lemma free_chain_vacant sl h fl id :
  free_chain sl h fl → id ∈ fl → ∃ next, sl !! index id = Some (Vacant next).
Proof.
  revert h. induction fl as [|x fl IH]; intros h; [by intros _ ?%not_elem_of_nil|].
  intros (_ & next & Hx & Hfl) [->|Hin]%elem_of_cons; [by eauto|by eapply IH].
Qed.

Lemma free_chain_insert sl h fl id s :
  free_chain sl h fl → id ∉ fl → free_chain (<[index id := s]> sl) h fl.
Proof.
  revert h. induction fl as [|x fl IH]; intros h; [done|].
  intros (-> & next & Hx & Hfl) [Hne Hni]%not_elem_of_cons. split; [done|].
  exists next. rewrite list_lookup_insert_ne.
  - split; [done|]. by apply IH.
  - intros ?%index_inj. naive_solver.
Qed.

Lemma free_chain_app sl sl' h fl : free_chain sl h fl → free_chain (sl ++ sl') h fl.
Proof.
  revert h. induction fl as [|x fl IH]; intros h; [done|].
  intros (-> & next & Hx & Hfl). split; [done|]. exists next. split; [|by apply IH].
  by apply lookup_app_l_Some.
Qed.

Lemma get_slot_insert sl h n id j s :
  (index id < length sl)%nat →
  get_slot (mkArena (<[index id := s]> sl) h n) j =
    if decide (j = id) then occupied_value s else get_slot (mkArena sl h n) j.
Proof.
  intros Hlt. unfold get_slot; simpl. case_decide as Hj; subst.
  - rewrite list_lookup_insert_eq by done. by destruct s.
  - by rewrite list_lookup_insert_ne by (intros ?%index_inj; congruence).
Qed.

Lemma get_slot_fields sl h h' n n' j : get_slot (mkArena (T:=T) sl h n) j = get_slot (mkArena sl h' n') j.
Proof. done. Qed.

Lemma get_slot_lt a id v : get_slot a id = Some v → (index id < length (slots a))%nat.
Proof.
  unfold get_slot. destruct (slots a !! index id) eqn:E; [|done].
  intros _. by eapply lookup_lt_Some.
Qed.

Lemma arena_new_rep : arena_rep (arena_new (T:=T)) ∅.
Proof. split; [done|done|]. exists []. split_and!; [done|constructor|done]. Qed.

Lemma insert_reuse_rep a m id next fl v :
  (∀ i, m !! i = get_slot a i) → length (slots a) = (size m + S (length fl))%nat →
  slots a !! index id = Some (Vacant next) → free_chain (slots a) next fl →
  NoDup fl → id ∉ fl →
  m !! id = None ∧
  arena_rep (mkArena (<[index id := Occupied v]> (slots a)) next (Z.of_nat (size m) + 1)) (<[id:=v]> m).
Proof.
  intros Hm Hl Hs Hc Hnd Hni.
  assert (m !! id = None) as Hn by (rewrite Hm; unfold get_slot; by rewrite Hs).
  assert (index id < length (slots a))%nat by by eapply lookup_lt_Some.
  split; [done|]. split.
  - intros i. rewrite get_slot_insert by done. rewrite lookup_insert.
    by repeat case_decide; subst.
  - simpl. rewrite map_size_insert_None by done. lia.
  - exists fl. simpl. split_and!; [by apply free_chain_insert|done|].
    rewrite length_insert, map_size_insert_None by done. lia.
Qed.

Lemma insert_push_rep a m v :
  (∀ i, m !! i = get_slot a i) → length (slots a) = size m →
  let id := Pos.of_succ_nat (length (slots a)) in
  m !! id = None ∧
  arena_rep (mkArena (slots a ++ [Occupied v]) None (Z.of_nat (size m) + 1)) (<[id:=v]> m).
Proof.
  intros Hm Hl id.
  assert (index id = length (slots a)) as Hid by (subst id; by rewrite index_of_succ).
  assert (m !! id = None) as Hn.
  { rewrite Hm. unfold get_slot. by rewrite Hid, lookup_ge_None_2 by lia. }
  split; [done|]. split.
  - intros i. rewrite lookup_insert. unfold get_slot; simpl. case_decide as Hi; subst.
    + rewrite lookup_app_r by lia. by rewrite Hid, Nat.sub_diag.
    + rewrite Hm. unfold get_slot.
      destruct (slots a !! index i) eqn:E; [by erewrite lookup_app_l_Some|].
      rewrite lookup_app_r by by apply lookup_ge_None_1.
      apply lookup_ge_None_1 in E.
      destruct (index i - length (slots a))%nat eqn:E'; [|by destruct n].
      exfalso. apply Hi, index_inj. lia.
  - simpl. rewrite map_size_insert_None by done. lia.
  - exists []. simpl. split_and!; [done|constructor|].
    rewrite length_app, map_size_insert_None by done. simpl. lia.
Qed.

(** [Arena::insert] stores the value under an identifier that was free, and grows the vector
    only when every slot is occupied. *)
Lemma insert_slot_spec a m v :
  arena_rep a m → arena_room a →
  wp (insert_slot v) a (λ id a',
    m !! id = None ∧ arena_rep a' (<[id:=v]> m) ∧
    length (slots a') = (length (slots a) `max` S (size m))%nat).
Proof.
  intros [Hm Hlen (fl & Hc & Hnd & Hl)] Hroom. unfold arena_room in Hroom.
  unfold insert_slot. wp_auto.
  destruct fl as [|x fl]; simpl in Hc.
  - rewrite Hc. wp_auto. rewrite Nat.add_0_r in Hl.
    apply wp_from_index; [done|]. wp_auto. apply wp_add_int; [simpl; lia|]. wp_auto.
    destruct (insert_push_rep a m v Hm Hl) as [Hn Hrep].
    split_and!; [done|by rewrite Hlen|simpl; rewrite length_app; simpl; lia].
  - destruct Hc as (Hh & next & Hx & Hc). rewrite Hh. simpl in Hl. wp_auto.
    eapply wp_expect; [done|]. wp_auto. apply wp_add_int; [simpl; lia|]. wp_auto.
    apply NoDup_cons in Hnd as [Hni Hnd].
    destruct (insert_reuse_rep a m x next fl v) as [Hn Hrep]; [done..|].
    split_and!; [done|by rewrite Hlen|simpl; rewrite length_insert; lia].
Qed.

(** Writing through the reference of [Arena::get_mut]. *)
Lemma write_slot_rep a m id v :
  arena_rep a m → is_Some (m !! id) → arena_rep (write_slot id v a) (<[id:=v]> m).
Proof.
  intros [Hm Hlen (fl & Hc & Hnd & Hl)] [w Hw].
  pose proof Hw as Hg. rewrite Hm in Hg.
  assert (index id < length (slots a))%nat by by eapply get_slot_lt.
  split.
  - intros i. unfold write_slot. rewrite get_slot_insert by done. rewrite lookup_insert.
    by repeat case_decide; subst.
  - simpl. rewrite map_size_insert_Some by eauto. done.
  - exists fl. simpl. rewrite length_insert, map_size_insert_Some by eauto.
    split_and!; [|done|done]. apply free_chain_insert; [done|]. intros Hin.
    destruct (free_chain_vacant _ _ _ _ Hc Hin) as [next E].
    unfold get_slot in Hg. by rewrite E in Hg.
Qed.

(** [Arena::remove] returns the stored value and puts the slot at the head of the vacant list. *)
Lemma remove_slot_spec a m id v :
  arena_rep a m → m !! id = Some v →
  wp (remove_slot id) a (λ v' a',
    v' = v ∧ arena_rep a' (delete id m) ∧ vacant_head a' = Some id ∧
    length (slots a') = length (slots a)).
Proof.
  intros [Hm Hlen (fl & Hc & Hnd & Hl)] Hid.
  pose proof Hid as Hg. rewrite Hm in Hg.
  assert (index id < length (slots a))%nat as Hlt by by eapply get_slot_lt.
  pose proof (map_size_pos m id v Hid) as Hpos.
  unfold get_slot in Hg. destruct (slots a !! index id) as [[w|]|] eqn:Hs; simplify_eq.
  unfold remove_slot. wp_auto. eapply wp_expect; [done|]. wp_auto.
  apply wp_sub_int; [simpl; lia|]. wp_auto. simpl.
  split_and!; [done| |done|by rewrite length_insert].
  split.
  - intros i. rewrite get_slot_insert by done. rewrite lookup_delete.
    by repeat case_decide; subst.
  - simpl. rewrite map_size_delete_Some by eauto. lia.
  - assert (id ∉ fl) as Hni.
    { intros Hin. destruct (free_chain_vacant _ _ _ _ Hc Hin) as [next E]. congruence. }
    exists (id :: fl). simpl. split_and!.
    + done.
    + eexists. rewrite list_lookup_insert_eq by done. split; [done|]. by apply free_chain_insert.
    + by constructor.
    + rewrite length_insert, map_size_delete_Some by eauto. lia.
Qed.

(** The values of the slots in slot order are the values of the map. *)
Lemma omap_occupied_map (sl : list (Slot T)) m :
  (∀ id, m !! id = sl !! index id ≫= occupied_value) →
  omap occupied_value sl ≡ₚ (map_to_list m).*2.
Proof.
  revert m. induction sl as [|s sl IH] using rev_ind; intros m Hm.
  - assert (m = ∅) as -> by (apply map_empty; intros i; by rewrite Hm).
    by rewrite map_to_list_empty.
  - set (id := Pos.of_succ_nat (length sl)).
    assert (index id = length sl) as Hid by apply index_of_succ.
    assert (∀ i, delete id m !! i = sl !! index i ≫= occupied_value) as Hd.
    { intros i. rewrite lookup_delete. case_decide as Hi.
      - subst. by rewrite Hid, lookup_ge_None_2 by lia.
      - rewrite Hm. destruct (decide (index i < length sl)%nat).
        + by rewrite lookup_app_l by done.
        + rewrite (lookup_ge_None_2 sl) by lia. rewrite lookup_ge_None_2; [done|].
          rewrite length_app; simpl.
          assert (index i ≠ length sl) by (rewrite <-Hid; intros ?%index_inj; congruence). lia. }
    assert (m !! id = occupied_value s) as Hs.
    { rewrite Hm, lookup_app_r, Hid, Nat.sub_diag by lia. done. }
    rewrite omap_app, (IH _ Hd). destruct s as [v|]; simpl in *.
    + assert (m = <[id := v]> (delete id m)) as Hmeq by (rewrite insert_delete_eq; by rewrite insert_id).
      rewrite Hmeq at 2. rewrite map_to_list_insert by apply lookup_delete_eq. simpl.
      by rewrite Permutation_app_comm.
    + by rewrite app_nil_r, delete_id.
Qed.

(** [Arena::take_all] empties the arena and returns every stored value once, in slot order. *)
Lemma take_all_spec a m :
  arena_rep a m →
  wp take_all a (λ vs a',
    vs = into_iter a ∧ vs ≡ₚ (map_to_list m).*2 ∧ a' = arena_new ∧ arena_rep a' ∅).
Proof.
  intros [Hm _ _]. unfold take_all. wp_auto. split_and!; [done| |done|apply arena_new_rep].
  apply omap_occupied_map. intros id. rewrite Hm. unfold get_slot.
  by destruct (slots a !! index id) as [[]|].
Qed.

Lemma is_empty_spec a m : arena_rep a m → is_empty a = true ↔ m = ∅.
Proof.
  intros [_ Hlen _]. unfold is_empty. rewrite bool_decide_eq_true, Hlen.
  rewrite <-map_size_empty_iff. lia.
Qed.

Lemma arena_rep_fun a m m' : arena_rep a m → arena_rep a m' → m = m'.
Proof. intros H H'. apply map_eq. intros i. by rewrite (rep_lookup _ _ H), (rep_lookup _ _ H'). Qed.

Lemma rep_size a m : arena_rep a m → (size m ≤ length (slots a))%nat.
Proof. intros [_ _ (fl & _ & _ & ->)]. lia. Qed.

(** Removing an identifier that is not stored panics and leaves the arena unchanged. *)
Lemma remove_slot_panics a m id :
  arena_rep a m → m !! id = None → ∃ msg, remove_slot id a = Panic msg a.
Proof.
  intros [Hm _ _] Hid. rewrite Hm in Hid. unfold get_slot in Hid.
  unfold remove_slot, mbind, M_bind, expect, get, put, panic; simpl.
  destruct (slots a !! index id) as [[v|next]|] eqn:Hs; [done| |by eexists].
  eexists. simpl. f_equal. rewrite list_insert_id by done. by destruct a.
Qed.

(** The slot of the value removed last is the one the next insertion reuses, and the vector does
    not grow. *)
Lemma remove_insert_reuses a m id v w :
  arena_rep a m → m !! id = Some v → Z.of_nat (length (slots a)) <= usize_max →
  wp (remove_slot id;; insert_slot w) a (λ id' a',
    id' = id ∧ arena_rep a' (<[id:=w]> m) ∧ length (slots a') = length (slots a)).
Proof.
  intros Hrep Hid Hmax. wp_auto. wp_apply remove_slot_spec; [done..|].
  intros v' a' (-> & [Hm Hlen (fl & Hc & Hnd & Hl)] & Hh & Hsl).
  pose proof (map_size_pos m id v Hid).
  rewrite map_size_delete_Some in Hl, Hlen by eauto.
  destruct fl as [|x fl]; simpl in Hc; [congruence|]. destruct Hc as (Hx & next & Hs & Hc).
  assert (x = id) as -> by congruence. apply NoDup_cons in Hnd as [Hni Hnd].
  destruct (insert_reuse_rep a' (delete id m) id next fl w) as [_ Hrep'];
    [done|rewrite map_size_delete_Some by eauto; simpl in Hl; lia|done..|].
  unfold insert_slot. wp_auto. rewrite Hh. wp_auto. eapply wp_expect; [done|]. wp_auto.
  apply wp_add_int; [simpl in *; lia|]. wp_auto. simpl. split_and!; [done| |by rewrite length_insert].
  rewrite insert_delete_eq, map_size_delete_Some in Hrep' by eauto. by rewrite Hlen.
Qed.
End abstraction.

(** ** The arena as a finite map

    Commands, the map operations they stand for, and the simulation between the two. *)
Section refinement.
Context {T : Type}.

Inductive arena_cmd : Type :=
| CInsert (v : T)
| CRemove (id : SlotId)
| CWrite (id : SlotId) (v : T)
| CTakeAll.

(** What a command returns. *)
Inductive arena_res : Type :=
| RId (id : SlotId)
| RValue (v : T)
| RWritten (b : bool)
| RValues (vs : list T).

(** [CWrite] is [if let Some(x) = arena.get_mut(id) { *x = v }]. *)
Definition run_arena_cmd (c : arena_cmd) : M (Arena T) arena_res :=
  match c with
  | CInsert v => id ← insert_slot v; mret (RId id)
  | CRemove id => v ← remove_slot id; mret (RValue v)
  | CWrite id v =>
      a ← get;
      match get_slot a id with
      | Some _ => put (write_slot id v a);; mret (RWritten true)
      | None => mret (RWritten false)
      end
  | CTakeAll => vs ← take_all; mret (RValues vs)
  end.

Fixpoint run_arena (cs : list arena_cmd) : M (Arena T) (list arena_res) :=
  match cs with
  | [] => mret []
  | c :: cs => r ← run_arena_cmd c; rs ← run_arena cs; mret (r :: rs)
  end.

(** The map operation a command stands for. *)
Inductive map_step (m : gmap SlotId T) : arena_cmd → arena_res → gmap SlotId T → Prop :=
| MInsert v id : m !! id = None → map_step m (CInsert v) (RId id) (<[id:=v]> m)
| MRemove id v : m !! id = Some v → map_step m (CRemove id) (RValue v) (delete id m)
| MWrite id v w : m !! id = Some w → map_step m (CWrite id v) (RWritten true) (<[id:=v]> m)
| MNoWrite id v : m !! id = None → map_step m (CWrite id v) (RWritten false) m
| MTakeAll vs : vs ≡ₚ (map_to_list m).*2 → map_step m CTakeAll (RValues vs) ∅.

Inductive map_trace : gmap SlotId T → list arena_cmd → list arena_res → gmap SlotId T → Prop :=
| TNil m : map_trace m [] [] m
| TCons m c r m' cs rs m'' :
    map_step m c r m' → map_trace m' cs rs m'' → map_trace m (c :: cs) (r :: rs) m''.

(** A command either returns what the map operation returns, or is a removal of an identifier
    that is not stored, which panics and changes nothing. *)
Lemma run_arena_cmd_spec a m c :
  arena_rep a m → arena_room a →
  match run_arena_cmd c a with
  | Ret r a' => ∃ m', map_step m c r m' ∧ arena_rep a' m' ∧
                  (length (slots a') ≤ S (length (slots a)))%nat
  | Panic _ a' => a' = a ∧ ∃ id, c = CRemove id ∧ m !! id = None
  end.
Proof.
  intros Hrep Hroom. pose proof (rep_size _ _ Hrep).
  destruct c as [v|id|id v|]; [apply wp_elim| |apply wp_elim|apply wp_elim]; simpl; wp_auto.
  - wp_apply insert_slot_spec; [done..|]. intros id a' (Hn & Hrep' & Hl). wp_auto.
    eexists. split_and!; [by constructor|done|lia].
  - destruct (m !! id) as [v|] eqn:Hid.
    + apply wp_elim. simpl. wp_auto. wp_apply remove_slot_spec; [done..|].
      intros v' a' (-> & Hrep' & _ & Hl). wp_auto. eexists. split_and!; [by constructor|done|lia].
    + destruct (remove_slot_panics _ _ _ Hrep Hid) as [msg Hr]. simpl.
      unfold mbind, M_bind. rewrite Hr. eauto.
  - rewrite <-(rep_lookup _ _ Hrep). destruct (m !! id) eqn:Hid; wp_auto; eexists.
    + split_and!; [by econstructor|apply write_slot_rep; by eauto|simpl; rewrite length_insert; lia].
    + split_and!; [by constructor|done|lia].
  - wp_apply take_all_spec; [done|]. intros vs a' (_ & Hp & -> & Hrep'). wp_auto.
    eexists. split_and!; [by constructor|done|simpl; lia].
Qed.

(** A trace either returns the results of a trace of the map, or stops at the first removal of an
    identifier that is not stored; either way the arena still represents the map reached. *)
Lemma run_arena_spec cs a m :
  arena_rep a m → Z.of_nat (length (slots a) + length cs) <= usize_max →
  match run_arena cs a with
  | Ret rs a' => ∃ m', map_trace m cs rs m' ∧ arena_rep a' m'
  | Panic _ a' => ∃ pre id post rs m', cs = pre ++ CRemove id :: post ∧
                    map_trace m pre rs m' ∧ m' !! id = None ∧ arena_rep a' m'
  end.
Proof.
  revert a m. induction cs as [|c cs IH]; intros a m Hrep Hlen; simpl in *.
  { exists m. split; [constructor|done]. }
  pose proof (run_arena_cmd_spec a m c Hrep ltac:(unfold arena_room; lia)) as H1.
  unfold mbind, M_bind. destruct (run_arena_cmd c a) as [r a1|e a1].
  - destruct H1 as (m1 & Hs & Hrep1 & Hl1). specialize (IH a1 m1 Hrep1 ltac:(lia)).
    destruct (run_arena cs a1) as [rs a2|e a2]; simpl.
    + destruct IH as (m2 & Ht & Hrep2). exists m2. split; [by econstructor|done].
    + destruct IH as (pre & id & post & rs & m2 & -> & Ht & Hn & Hrep2).
      exists (c :: pre), id, post, (r :: rs), m2. split_and!; [done|by econstructor|done|done].
  - destruct H1 as (-> & id & -> & Hn). exists [], id, cs, [], m.
    split_and!; [done|constructor|done|done].
Qed.
End refinement.
Arguments arena_cmd : clear implicits.
Arguments arena_res : clear implicits.

(** ** Properties *)

(** C38: the arena refines a finite map.  Any sequence of insertions, removals, writes through
    [get_mut] and [take_all] on a fresh arena returns exactly what the same operations return on
    a map with fresh identifiers, and the arena then represents the map; the only panic is the
    removal of an identifier that is not stored, and it leaves the arena representing the map
    reached before it. *)
Theorem arena_refines_map {T : Type} (cs : list (arena_cmd T)) :
  Z.of_nat (length cs) <= usize_max →
  match run_arena cs arena_new with
  | Ret rs a => ∃ m, map_trace ∅ cs rs m ∧ arena_rep a m
  | Panic _ a => ∃ pre id post rs m, cs = pre ++ CRemove id :: post ∧
                   map_trace ∅ pre rs m ∧ m !! id = None ∧ arena_rep a m
  end.
Proof. intros Hlen. apply run_arena_spec; [apply arena_new_rep|done]. Qed.

Lemma arena_refines_map_witness :
  let cs := [CInsert 10%nat; CInsert 20%nat; CRemove 1; CInsert 30%nat; CTakeAll] in
  run_arena cs arena_new =
    Ret [RId 1; RId 2; RValue 10%nat; RId 1; RValues [30; 20]%nat] (mkArena [] None 0) ∧
  ∃ m, map_trace ∅ cs [RId 1; RId 2; RValue 10%nat; RId 1; RValues [30; 20]%nat] m ∧
       arena_rep (mkArena [] None 0) m.
Proof.
  split; [vm_compute; reflexivity|].
  apply (arena_refines_map [CInsert 10%nat; CInsert 20%nat; CRemove 1; CInsert 30%nat; CTakeAll]).
  vm_compute; discriminate.
Defined.
