(* ===== verification/WakerBatch.v ===== *)
(** * The waker batch

    [asyncband/src/internal/waker_batch.rs]: an ordered batch of wakers collected under a lock
    and woken after it is released.  The first [STACK_SIZE] entries live in an inline array of
    possibly uninitialised cells, the rest in a vector.  The file shows that exactly the prefix
    [0..inline_len] of the array is initialised, so that no read of [wake_all] or [Drop] touches
    an uninitialised cell, and that wakers are woken exactly once, in push order. *)
From S2P Require Import Prelude.

Definition STACK_SIZE : nat := 32.

(** A cell of the inline array: [None] is [MaybeUninit::uninit] (or a cell moved out of). *)
Record WakerBatch : Type := mkBatch {
  inline : list (option Waker);
  inline_len : nat;
  spilled : list Waker;
}.

Definition batch_new : WakerBatch := mkBatch (replicate STACK_SIZE None) 0 [].

Definition will_spill (b : WakerBatch) : bool := bool_decide (inline_len b = STACK_SIZE).

(** [WakerBatch::push]; indexing the array checks bounds. *)
Definition push (waker : Waker) : M WakerBatch unit :=
  b ← get;
  if will_spill b
  then put (mkBatch (inline b) (inline_len b) (spilled b ++ [waker]))
  else
    _ ← expect (inline b !! inline_len b) "index out of bounds";
    put (mkBatch (<[inline_len b := Some waker]> (inline b)) (S (inline_len b)) (spilled b)).

(** Reads the cells [i..i+n] and moves their wakers out, in order.  Reading an uninitialised cell
    is undefined behaviour, which the model makes a panic. *)
Fixpoint read_cells (n i : nat) : M WakerBatch (list Waker) :=
  match n with
  | O => mret []
  | S n' =>
      b ← get;
      cell ← expect (inline b !! i) "index out of bounds";
      w ← expect cell "read of an uninitialised waker";
      put (mkBatch (<[i := None]> (inline b)) (inline_len b) (spilled b));;
      ws ← read_cells n' (S i);
      mret (w :: ws)
  end.

(** [WakerBatch::wake_all]: the result lists the wakers woken, in order. *)
Definition wake_all : M WakerBatch (list Waker) :=
  b ← get;
  put (mkBatch (inline b) 0 (spilled b));;
  ws ← read_cells (inline_len b) 0;
  b ← get;
  put (mkBatch (inline b) (inline_len b) []);;
  mret (ws ++ spilled b).

(** [FromIterator::from_iter]. *)
Fixpoint push_iter (ws : list Waker) : M WakerBatch unit :=
  match ws with
  | [] => mret tt
  | w :: ws => push w;; push_iter ws
  end.

Definition from_iter {S : Type} (ws : list Waker) : M S WakerBatch := λ s,
  match push_iter ws batch_new with
  | Ret _ b => Ret b s
  | Panic e _ => Panic e s
  end.

(** [Drop::drop]: drops the initialised prefix, then the vector's entries. *)
Definition drop_batch : M WakerBatch (list Waker) :=
  b ← get;
  ws ← read_cells (inline_len b) 0;
  mret (ws ++ spilled b).

(** ** Invariant *)

(** [batch_rep b ws]: [b] holds the wakers [ws] in push order; the array's initialised cells are
    exactly its first [inline_len] ones and the vector is used only once they are all full. *)
Record batch_rep (b : WakerBatch) (ws : list Waker) : Prop := {
  rep_inline : inline b = (Some <$> take (inline_len b) ws) ++ replicate (STACK_SIZE - inline_len b) None;
  rep_inline_len : inline_len b = (length ws `min` STACK_SIZE)%nat;
  rep_spilled : spilled b = drop STACK_SIZE ws;
}.

Lemma batch_new_rep : batch_rep batch_new [].
Proof. by split. Qed.

Lemma rep_length b ws : batch_rep b ws → length (inline b) = STACK_SIZE.
Proof.
  intros [Hi Hl _]. rewrite Hi, length_app, length_fmap, length_take, length_replicate.
  rewrite Hl. lia.
Qed.

Lemma push_spec b ws w : batch_rep b ws → wp (push w) b (λ _ b', batch_rep b' (ws ++ [w])).
Proof.
  intros Hrep. pose proof (rep_length _ _ Hrep) as Hlen. destruct Hrep as [Hi Hl Hs].
  unfold push. wp_auto. unfold will_spill. case_bool_decide as Hsp; wp_auto.
  - split; simpl.
    + rewrite Hi at 1. by rewrite take_app_le by lia.
    + rewrite length_app. simpl. lia.
    + rewrite Hs. by rewrite drop_app_le by lia.
  - assert (inline_len b < STACK_SIZE)%nat as Hlt by lia.
    destruct (lookup_lt_is_Some_2 (inline b) (inline_len b)) as [c Hc]; [lia|].
    eapply wp_expect; [done|]. wp_auto.
    assert (inline_len b = length ws) as Hw by lia. split; simpl.
    + rewrite Hi, Hw. rewrite (take_ge (ws ++ [w])) by (rewrite length_app; simpl; lia).
      rewrite fmap_app, take_ge by lia.
      rewrite insert_app_r_alt by (rewrite length_fmap; lia).
      rewrite length_fmap, Nat.sub_diag, <-app_assoc. f_equal.
      replace (STACK_SIZE - length ws)%nat with (S (STACK_SIZE - S (length ws))) by lia. done.
    + rewrite length_app. simpl. lia.
    + rewrite Hs. rewrite !drop_ge; [done|rewrite length_app; simpl; lia|lia].
Qed.

(** Reading the next [n] initialised cells yields their wakers and leaves them uninitialised. *)
Lemma read_cells_spec pre us suf k sp :
  wp (read_cells (length us) (length pre)) (mkBatch (pre ++ (Some <$> us) ++ suf) k sp) (λ ws b',
    ws = us ∧ b' = mkBatch (pre ++ replicate (length us) None ++ suf) k sp).
Proof.
  revert pre. induction us as [|u us IH]; intros pre; simpl; wp_auto; [done|].
  simpl. eapply wp_expect; [by rewrite lookup_app_r, Nat.sub_diag by lia|].
  wp_auto. eapply wp_expect; [done|]. wp_auto.
  rewrite insert_app_r_alt, Nat.sub_diag by lia. simpl.
  specialize (IH (pre ++ [None])). rewrite length_app, <-!app_assoc in IH. simpl in IH.
  rewrite Nat.add_1_r in IH. wp_apply IH. intros ws b' [-> ->]. by wp_auto.
Qed.

Lemma rep_read_cells b ws k :
  batch_rep b ws →
  wp (read_cells (inline_len b) 0) (mkBatch (inline b) k (spilled b)) (λ us b',
    us = take STACK_SIZE ws ∧ b' = mkBatch (replicate STACK_SIZE None) k (drop STACK_SIZE ws)).
Proof.
  intros [Hi Hl Hs]. rewrite Hi, Hs.
  assert (inline_len b = length (take (inline_len b) ws)) as Hn by (rewrite length_take; lia).
  pose proof (read_cells_spec [] (take (inline_len b) ws)
    (replicate (STACK_SIZE - inline_len b) None) k (drop STACK_SIZE ws)) as H.
  simpl in H. rewrite <-Hn in H. wp_apply H. intros us b' [-> ->]. split.
  - destruct (decide (length ws ≤ STACK_SIZE)%nat); [by rewrite !take_ge by lia|].
    by rewrite Hl, Nat.min_r by lia.
  - f_equal. rewrite <-replicate_add. f_equal. lia.
Qed.

(** [wake_all] never reads an uninitialised cell, wakes every entry once in push order, and leaves
    the batch empty and ready for reuse. *)
Lemma wake_all_spec b ws : batch_rep b ws → wp wake_all b (λ us b', us = ws ∧ batch_rep b' []).
Proof.
  intros Hrep. unfold wake_all. wp_auto. wp_apply rep_read_cells; [done|].
  intros us b' [-> ->]. wp_auto. simpl. by rewrite take_drop.
Qed.

Lemma push_iter_spec b ws us : batch_rep b ws → wp (push_iter us) b (λ _ b', batch_rep b' (ws ++ us)).
Proof.
  revert b ws. induction us as [|u us IH]; intros b ws Hrep; simpl; wp_auto.
  - by rewrite app_nil_r.
  - wp_apply push_spec; [done|]. intros _ b' Hb'. wp_apply IH; [done|].
    intros _ b'' Hb''. by rewrite <-app_assoc in Hb''.
Qed.

Lemma from_iter_spec {S : Type} (s : S) ws : wp (from_iter ws) s (λ b s', s' = s ∧ batch_rep b ws).
Proof.
  pose proof (push_iter_spec batch_new [] ws batch_new_rep) as H.
  unfold wp, from_iter in *. by destruct (push_iter ws batch_new).
Qed.

(** Dropping a batch drops every entry that was not woken exactly once. *)
Lemma drop_batch_spec b ws : batch_rep b ws → wp drop_batch b (λ us _, us = ws).
Proof.
  intros Hrep. unfold drop_batch. wp_auto.
  pose proof (rep_read_cells b ws (inline_len b) Hrep) as H. destruct b as [i n sp].
  wp_apply H. intros us b' [-> ->]. wp_auto. simpl.
  destruct Hrep as [_ _ Hs]; simpl in Hs. by rewrite Hs, take_drop.
Qed.

Lemma will_spill_spec b ws : batch_rep b ws → will_spill b = true ↔ (STACK_SIZE ≤ length ws)%nat.
Proof. intros [_ Hl _]. unfold will_spill. rewrite bool_decide_eq_true. lia. Qed.

(** Pushing to, and waking, a batch held by an operation in progress. *)
Definition batch_push {S : Type} (waker : Waker) (b : WakerBatch) : M S WakerBatch := λ s,
  match push waker b with
  | Ret _ b' => Ret b' s
  | Panic e _ => Panic e s
  end.
Definition batch_wake {S : Type} (b : WakerBatch) : M S (list Waker) := run_local b wake_all.

Lemma batch_push_spec {S : Type} (s : S) b ws w :
  batch_rep b ws → wp (batch_push w b) s (λ b' s', s' = s ∧ batch_rep b' (ws ++ [w])).
Proof.
  intros Hb. pose proof (push_spec b ws w Hb) as H. unfold wp, batch_push in *. by destruct (push w b).
Qed.
Lemma batch_wake_spec {S : Type} (s : S) b ws :
  batch_rep b ws → wp (batch_wake b) s (λ us s', us = ws ∧ s' = s).
Proof. intros Hb. apply wp_run_local. wp_apply wake_all_spec; [done|]. by intros us b' [-> _]. Qed.

(** ** Properties *)

(** The batch after pushing [ws] onto a new batch, waking it and pushing [us]. *)
Definition push_wake_push (ws us : list Waker) : M WakerBatch (list Waker) :=
  push_iter ws;; woken ← wake_all; push_iter us;; mret woken.

(** A waker batch wakes every waker pushed exactly once and in push order, across the spill
    to the heap; it can then be reused, and dropping it drops exactly the entries that were not
    woken.  No uninitialised cell of the inline array is ever read. *)
Theorem batch_wakes_in_push_order (ws us : list Waker) :
  wp (push_wake_push ws us) batch_new (λ woken b,
    woken = ws ∧ wp drop_batch b (λ dropped _, dropped = us) ∧
    (will_spill b = true ↔ (STACK_SIZE ≤ length us)%nat)).
Proof.
  unfold push_wake_push. wp_auto. wp_apply push_iter_spec; [apply batch_new_rep|]. simpl.
  intros _ b1 H1. wp_auto. wp_apply wake_all_spec; [done|]. intros woken b2 [-> H2]. wp_auto.
  wp_apply push_iter_spec; [done|]. simpl. intros _ b3 H3. wp_auto.
  split_and!; [done|by apply drop_batch_spec|by apply will_spill_spec].
Qed.
