(* ===== verification/WakerSet.v ===== *)
(** * The waker set

    [asyncband/src/internal/wakerset.rs]: registrations of tasks waiting for a broadcast event.
    A future holds a token naming its registration.  The specifications relate the set to the
    finite map from tokens to wakers. *)
From S2P Require Import Prelude Arena WakerBatch.

Abbreviation WakerToken := positive (only parsing).

Record WakerSet : Type := mkWakerSet { wakers : Arena Waker }.

Definition wakerset_new : WakerSet := mkWakerSet arena_new.

Abbreviation in_wakers := (zoom wakers (λ a _, mkWakerSet a)).

(** [WakerSet::take_all]: the registered wakers as a batch; the set is left empty. *)
Definition set_take_all : M WakerSet WakerBatch :=
  s ← get;
  if is_empty (wakers s) then mret batch_new
  else
    ws ← in_wakers take_all;
    from_iter ws.

(** [WakerSet::wake_all] consumes the set; the result lists the wakers woken, in slot order. *)
Definition set_wake_all (s : WakerSet) : list Waker := into_iter (wakers s).

(** [WakerSet::register]: returns the token the caller holds afterwards and the waker that was
    replaced, if any. *)
Definition register (token : option WakerToken) (waker : Waker)
    : M WakerSet (option WakerToken * option Waker) :=
  match token with
  | Some t =>
      s ← get;
      current ← expect (get_slot (wakers s) t) "waker token must refer to an occupied slot";
      if will_wake current waker then mret (token, None)
      else
        in_wakers (modify (write_slot t waker));;
        mret (token, Some current)
  | None =>
      t ← in_wakers (insert_slot waker);
      mret (Some t, None)
  end.

(** [WakerSet::unregister]: the cleared token and the removed waker. *)
Definition unregister (token : option WakerToken) : M WakerSet (option WakerToken * option Waker) :=
  match token with
  | Some t =>
      w ← in_wakers (remove_slot t);
      mret (None, Some w)
  | None => mret (None, None)
  end.

(** ** Specifications *)

(** The set holds the registrations [m]. *)
Definition set_rep (s : WakerSet) (m : gmap WakerToken Waker) : Prop := arena_rep (wakers s) m.

Definition set_room (s : WakerSet) : Prop := arena_room (wakers s).
Global Instance set_room_dec s : Decision (set_room s).
Proof. unfold set_room, arena_room. apply _. Defined.

(** A token is valid when the registration it names is live. *)
Definition token_ok (m : gmap WakerToken Waker) (token : option WakerToken) : Prop :=
  match token with Some t => is_Some (m !! t) | None => True end.

(** The registrations are determined by the set. *)
Lemma set_rep_inj s m m' : set_rep s m → set_rep s m' → m = m'.
Proof.
  intros H H'. apply map_eq. intros t. by rewrite (rep_lookup _ _ H t), (rep_lookup _ _ H' t).
Qed.

Lemma wakerset_new_rep : set_rep wakerset_new ∅.
Proof. apply arena_new_rep. Qed.

(** After [register] the token names a registration of the given waker; no other registration is
    touched. *)
Lemma register_spec s m token w :
  set_rep s m → set_room s → token_ok m token →
  wp (register token w) s (λ r s', ∃ t,
    r.1 = Some t ∧ set_rep s' (<[t:=w]> m) ∧
    match token with Some t' => t = t' | None => m !! t = None end).
Proof.
  intros Hrep Hroom Hok. unfold register. destruct token as [t|].
  - destruct Hok as [c Hc]. wp_auto. eapply wp_expect; [by rewrite <-(rep_lookup _ _ Hrep)|].
    unfold will_wake. case_bool_decide as Hw; wp_auto.
    + exists t. split_and!; [done| |done]. subst. by rewrite insert_id.
    + exists t. split_and!; [done| |done]. apply write_slot_rep; [done|by eauto].
  - wp_auto. wp_apply insert_slot_spec; [done..|]. intros t a (Hn & Hrep' & _). wp_auto.
    exists t. by split_and!.
Qed.

Lemma unregister_spec s m token :
  set_rep s m → token_ok m token →
  wp (unregister token) s (λ r s',
    r.1 = None ∧ set_rep s' (match token with Some t => delete t m | None => m end)).
Proof.
  intros Hrep Hok. unfold unregister. destruct token as [t|]; wp_auto; [|done].
  destruct Hok as [c Hc]. wp_apply remove_slot_spec; [done..|].
  intros v a (-> & Hrep' & _). by wp_auto.
Qed.

(** Every registered waker is taken exactly once and no registration remains. *)
Lemma set_take_all_spec s m :
  set_rep s m →
  wp set_take_all s (λ b s',
    ∃ ws, batch_rep b ws ∧ ws ≡ₚ (map_to_list m).*2 ∧ set_rep s' ∅).
Proof.
  intros Hrep. unfold set_take_all. wp_auto. destruct (is_empty (wakers s)) eqn:He; wp_auto.
  - apply (is_empty_spec _ m Hrep) in He as ->. exists [].
    rewrite map_to_list_empty. split_and!; [apply batch_new_rep|done|done].
  - wp_apply take_all_spec; [done|]. intros ws a (_ & Hp & _ & Hrep').
    wp_apply from_iter_spec. intros b s' [-> Hb]. by exists ws.
Qed.

Lemma set_wake_all_spec s m : set_rep s m → set_wake_all s ≡ₚ (map_to_list m).*2.
Proof.
  intros Hrep. pose proof (take_all_spec _ _ Hrep) as H.
  apply wp_returns in H as (vs & a' & _ & -> & Hp & _). exact Hp.
Qed.

(** ** Futures and their registrations

    Each future of a primitive holds an optional token.  The registrations of the set are exactly
    the ones named by the tokens, and no two futures share one. *)
Abbreviation tokens := (gmap nat (option WakerToken)).

Section registrations.
Implicit Types (tks : tokens) (m : gmap WakerToken Waker) (f g : nat) (t : WakerToken).

Record owned tks m : Prop := {
  ow_live : ∀ f t, tks !! f = Some (Some t) → is_Some (m !! t);
  ow_inj : ∀ f g t, tks !! f = Some (Some t) → tks !! g = Some (Some t) → f = g;
  ow_all : ∀ t, is_Some (m !! t) → ∃ f, tks !! f = Some (Some t);
}.

(** Future [f] is registered to be woken through [w]. *)
Definition registered tks m f (w : Waker) : Prop :=
  ∃ t, tks !! f = Some (Some t) ∧ m !! t = Some w.

Lemma owned_none tks : (∀ f o, tks !! f = Some o → o = None) → owned tks ∅.
Proof.
  intros H. split.
  - intros f t Hf. by apply H in Hf.
  - intros f g t Hf. by apply H in Hf.
  - by intros t [? Ht].
Qed.

Lemma owned_token tks m f token : owned tks m → tks !! f = Some token → token_ok m token.
Proof. intros Hok Hf. destruct token; [by eapply ow_live|done]. Qed.

(** The effect of [register] by future [f]. *)
Lemma owned_register tks m f token t w :
  owned tks m → tks !! f = Some token →
  match token with Some t' => t = t' | None => m !! t = None end →
  owned (<[f:=Some t]> tks) (<[t:=w]> m).
Proof.
  intros [Hl Hi Ha] Hf Ht.
  assert (∀ g, g ≠ f → tks !! g ≠ Some (Some t)) as Hfresh.
  { intros g Hne Hg. destruct token as [t'|]; [subst t'; by apply Hne, (Hi g f t)|].
    destruct (Hl g t Hg). congruence. }
  split.
  - intros g u. rewrite !lookup_insert. repeat case_decide; naive_solver.
  - intros g h u. rewrite !lookup_insert. repeat case_decide; naive_solver.
  - intros u. rewrite lookup_insert. case_decide as Hu.
    + subst u. intros _. exists f. by rewrite lookup_insert_eq.
    + intros [g Hg]%Ha. exists g. rewrite lookup_insert_ne; [done|]. intros ->.
      destruct token; simplify_eq.
Qed.

(** The effect of [unregister]. *)
Lemma owned_unregister tks m f token :
  owned tks m → tks !! f = Some token →
  owned (<[f:=None]> tks) (match token with Some t => delete t m | None => m end).
Proof.
  intros [Hl Hi Ha] Hf. split.
  - intros g u. rewrite lookup_insert. case_decide; [done|]. intros Hg. destruct token as [t|]; [|by eauto].
    rewrite lookup_delete_ne; [by eauto|]. intros ->. by eauto.
  - intros g h u. rewrite !lookup_insert. repeat case_decide; naive_solver.
  - intros u Hu. assert (is_Some (m !! u) ∧ token ≠ Some u) as [Hm Hne].
    { destruct token as [t|]; [|done]. destruct Hu as [w [? ?]%lookup_delete_Some].
      split; [by eauto|congruence]. }
    destruct (Ha u Hm) as [g Hg]. exists g. rewrite lookup_insert_ne; [done|]. congruence.
Qed.

Lemma owned_new tks m f : owned tks m → tks !! f = None → owned (<[f:=None]> tks) m.
Proof.
  intros [Hl Hi Ha] Hf. split.
  - intros g u. rewrite lookup_insert. case_decide; naive_solver.
  - intros g h u. rewrite !lookup_insert. repeat case_decide; naive_solver.
  - intros u [g Hg]%Ha. exists g. rewrite lookup_insert_ne; [done|]. congruence.
Qed.

Lemma owned_drop tks m f : owned tks m → tks !! f = Some None → owned (delete f tks) m.
Proof.
  intros [Hl Hi Ha] Hf. split.
  - intros g u [_ Hg]%lookup_delete_Some. by eauto.
  - intros g h u [_ Hg]%lookup_delete_Some [_ Hh]%lookup_delete_Some. by eauto.
  - intros u [g Hg]%Ha. exists g. rewrite lookup_delete_ne; [done|]. congruence.
Qed.

(** A registration is kept by the operations of the other futures. *)
Lemma registered_register tks m f w g token t v :
  owned tks m → tks !! g = Some token →
  match token with Some t' => t = t' | None => m !! t = None end → f ≠ g →
  registered tks m f w → registered (<[g:=Some t]> tks) (<[t:=v]> m) f w.
Proof.
  intros Hok Hg Ht Hne (u & Hf & Hu). exists u. rewrite lookup_insert_ne by done. split; [done|].
  rewrite lookup_insert_ne; [done|]. intros E. apply Hne.
  destruct token; subst; [|congruence]. by eapply ow_inj.
Qed.

Lemma registered_unregister tks m f w g token :
  owned tks m → tks !! g = Some token → f ≠ g → registered tks m f w →
  registered (<[g:=None]> tks) (match token with Some t => delete t m | None => m end) f w.
Proof.
  intros Hok Hg Hne (u & Hf & Hu). exists u. rewrite lookup_insert_ne by done. split; [done|].
  destruct token as [t|]; [|done]. rewrite lookup_delete_ne; [done|]. intros ->.
  apply Hne. by eapply ow_inj.
Qed.

Lemma registered_other tks tks' m f w :
  tks' !! f = tks !! f → registered tks m f w → registered tks' m f w.
Proof. intros E (t & Hf & Ht). exists t. by rewrite E. Qed.

(** A registered waker is among the ones taken from the set. *)
Lemma registered_taken tks m f w ws :
  registered tks m f w → ws ≡ₚ (map_to_list m).*2 → w ∈ ws.
Proof.
  intros (t & _ & Ht) ->. apply list_elem_of_fmap. exists (t, w). split; [done|].
  by apply elem_of_map_to_list.
Qed.

(** The registrations of the futures other than [f] are kept. *)
Definition keeps_others f tks m tks' m' : Prop :=
  ∀ g w, g ≠ f → registered tks m g w → registered tks' m' g w.

Lemma keeps_others_insert f tks m o : keeps_others f tks m (<[f:=o]> tks) m.
Proof. intros g w Hne. apply registered_other. by rewrite lookup_insert_ne. Qed.
Lemma keeps_others_delete f tks m tks' m' o :
  keeps_others f tks m (<[f:=o]> tks') m' → keeps_others f tks m (delete f tks') m'.
Proof.
  intros H g w Hne Hg. apply (H g w Hne) in Hg. eapply registered_other; [|done].
  by rewrite lookup_insert_ne, lookup_delete_ne.
Qed.

(** [register] by future [f], which is then registered with its current waker. *)
Lemma register_owned s m tks f token w :
  set_rep s m → owned tks m → set_room s → tks !! f = Some token →
  wp (register token w) s (λ r s', ∃ t m', r.1 = Some t ∧ set_rep s' m' ∧
    let tks' := <[f:=Some t]> tks in
    owned tks' m' ∧ registered tks' m' f w ∧ keeps_others f tks m tks' m').
Proof.
  intros Hrep Hok Hroom Hf. wp_apply register_spec; [done..|by eapply owned_token|].
  intros r s' (t & Hr & Hrep' & Ht). exists t, (<[t:=w]> m). cbv zeta. split_and!; [done|done| | |].
  - by eapply owned_register.
  - exists t. by rewrite !lookup_insert_eq.
  - intros g v Hne. by eapply registered_register.
Qed.

(** [unregister] by future [f]. *)
Lemma unregister_owned s m tks f token :
  set_rep s m → owned tks m → tks !! f = Some token →
  wp (unregister token) s (λ r s', ∃ m', r.1 = None ∧ set_rep s' m' ∧
    owned (<[f:=None]> tks) m' ∧ keeps_others f tks m (<[f:=None]> tks) m').
Proof.
  intros Hrep Hok Hf. wp_apply unregister_spec; [done|by eapply owned_token|].
  intros r s' [Hr Hrep']. eexists. split_and!; [done|done|by eapply owned_unregister|].
  intros g v Hne. by eapply registered_unregister.
Qed.
End registrations.

(** ** Terminal sets

    A primitive that ends once uses the set until the end is published ([closed]); afterwards the
    tokens are void, and registrations are left only while somebody has yet to wake them
    ([notifying]). *)
Section terminal.
Implicit Types (s : WakerSet) (tks : tokens) (f g : nat) (w : Waker) (notifying : Prop).

Definition terminal_ok (closed : bool) s tks notifying : Prop :=
  ∃ m, set_rep s m ∧ (closed = false → owned tks m) ∧ (closed = true → m = ∅ ∨ notifying).

(** Future [f] is registered with [w]. *)
Definition set_parked s tks f w : Prop := ∃ m, set_rep s m ∧ registered tks m f w.

Definition parked_kept f s tks s' tks' : Prop :=
  ∀ g w, g ≠ f → set_parked s tks g w → set_parked s' tks' g w.

Lemma parked_kept_same f s tks tks' :
  (∀ g, g ≠ f → tks' !! g = tks !! g) → parked_kept f s tks s tks'.
Proof.
  intros H g w Hne (m & Hm & Hr). exists m. split; [done|]. eapply registered_other; [|done]. by apply H.
Qed.

Lemma parked_fresh s tks f w g o : tks !! g = None → set_parked s tks f w → set_parked s (<[g:=o]> tks) f w.
Proof.
  intros Hg (m & Hm & t & Hf & Ht). exists m. split; [done|]. exists t. split; [|done].
  rewrite lookup_insert_ne; [done|]. intros ->. congruence.
Qed.

Lemma terminal_new notifying : terminal_ok false wakerset_new ∅ notifying.
Proof. exists ∅. split_and!; [apply wakerset_new_rep| |done]. intros _. by apply owned_none. Qed.

Lemma terminal_fresh closed s tks notifying f :
  terminal_ok closed s tks notifying → tks !! f = None → terminal_ok closed s (<[f:=None]> tks) notifying.
Proof.
  intros (m & Hm & Ho & Hc) Hf. exists m. split_and!; [done| |done]. intros E. by apply owned_new; [apply Ho|].
Qed.

Lemma terminal_register s tks notifying f token w :
  terminal_ok false s tks notifying → set_room s → tks !! f = Some token →
  wp (register token w) s (λ r s', terminal_ok false s' (<[f:=r.1]> tks) notifying ∧
    set_parked s' (<[f:=r.1]> tks) f w ∧ parked_kept f s tks s' (<[f:=r.1]> tks)).
Proof.
  intros (m & Hm & Ho & _) Hroom Hf. wp_apply register_owned; [done|by apply Ho|done..|].
  intros r s' (t & m' & -> & Hm' & Hown & Hreg & Hk). split_and!; [by exists m'|by exists m'|].
  intros g v Hne (m0 & Hm0 & Hr). rewrite (set_rep_inj _ _ _ Hm0 Hm) in Hr. exists m'. by eauto.
Qed.

Lemma terminal_unregister s tks notifying f token :
  terminal_ok false s tks notifying → tks !! f = Some token →
  wp (unregister token) s (λ r s', terminal_ok false s' (delete f tks) notifying ∧
    parked_kept f s tks s' (delete f tks)).
Proof.
  intros (m & Hm & Ho & _) Hf. wp_apply unregister_owned; [done|by apply Ho|done|].
  intros r s' (m' & _ & Hm' & Hown & Hk). split.
  - exists m'. split_and!; [done| |done]. intros _. rewrite <-(delete_insert_eq tks f None).
    apply owned_drop; [done|apply lookup_insert_eq].
  - intros g v Hne (m0 & Hm0 & Hr). rewrite (set_rep_inj _ _ _ Hm0 Hm) in Hr. exists m'. split; [done|].
    by eapply keeps_others_delete.
Qed.

(** A future without a token leaves the set alone. *)
Lemma terminal_drop closed s tks notifying f :
  terminal_ok closed s tks notifying → tks !! f = Some None → terminal_ok closed s (delete f tks) notifying.
Proof.
  intros (m & Hm & Ho & Hc) Hf. exists m. split_and!; [done| |done]. intros E. by apply owned_drop; [apply Ho|].
Qed.

(** After the end the tokens do not matter. *)
Lemma terminal_void s tks tks' notifying : terminal_ok true s tks notifying → terminal_ok true s tks' notifying.
Proof. intros (m & Hm & _ & Hc). exists m. by split_and!. Qed.

Lemma terminal_notifying (closed : bool) s tks (P Q : Prop) :
  terminal_ok closed s tks P → (closed = true → P → Q) → terminal_ok closed s tks Q.
Proof. intros (m & Hm & Ho & Hc) HPQ. exists m. split_and!; [done..|]. intros E. destruct (Hc E); auto. Qed.

Lemma terminal_close s tks (P Q : Prop) : terminal_ok false s tks P → Q → terminal_ok true s tks Q.
Proof. intros (m & Hm & Ho & Hc) HQ. exists m. split_and!; [done..|by right]. Qed.

(** Waking everybody: a parked future is woken. *)
Lemma terminal_notified tks notifying : terminal_ok true wakerset_new tks notifying.
Proof. exists ∅. split_and!; [apply wakerset_new_rep|done|by left]. Qed.
Lemma parked_woken s tks f w : set_parked s tks f w → w ∈ set_wake_all s.
Proof. intros (m & Hm & Hr). eapply registered_taken; [done|]. by apply set_wake_all_spec. Qed.

(** When nobody is left to wake them, no future is parked after the end. *)
Lemma terminal_none_parked s tks notifying f w :
  terminal_ok true s tks notifying → ¬ notifying → ¬ set_parked s tks f w.
Proof.
  intros (m & Hm & _ & Hc) Hn (m' & Hm' & t & _ & Ht). pose proof (set_rep_inj _ _ _ Hm Hm') as <-.
  by destruct (Hc eq_refl) as [->|].
Qed.
End terminal.
