(* ===== verification/WaitQueue.v ===== *)
(** * The interface of wait queues

    What [asyncband/src/internal/waitlist.rs] promises to the primitives built on it: an ordered
    queue of linked waiters over a store of values.  A waiter leaves the queue when it is
    unlinked and leaves the store when it is removed; in between its future still owns the node.
    The primitives are written and verified against this class; the doubly linked list of the
    source is its instance. *)
From S2P Require Import Prelude Arena.

Abbreviation WaiterId := positive (only parsing).

(** The queue without one identifier. *)
Abbreviation without id q := (filter (λ x : WaiterId, x ≠ id) q).

Class WaitQueue (W : Type → Type) : Type := {
  wq_new {T} : W T;
  wq_push_front {T} : T → M (W T) WaiterId;
  wq_push_back {T} : T → M (W T) WaiterId;
  wq_unlink {T E} : WaiterId → (E → T → bool * T * E) → E → M (W T) (option T * E);
  wq_unlink_first {T E} : (E → T → bool * T * E) → E → M (W T) (option (WaiterId * T) * E);
  wq_is_empty {T} : W T → bool;
  wq_waiter {T} : WaiterId → M (W T) T;
  wq_set_waiter {T} : WaiterId → T → M (W T) unit;
  wq_remove {T} : WaiterId → M (W T) T;
  (** The number of stored waiters. *)
  wq_len {T} : W T → nat;

  (** [wq_rep w q m]: [w] links the waiters [q], in order, and stores the values [m]. *)
  wq_rep {T} : W T → list WaiterId → gmap WaiterId T → Prop;
  (** Storage for one more waiter is available. *)
  wq_room {T} : W T → Prop;
  wq_room_dec {T} (w : W T) :: Decision (wq_room w);

  wq_new_rep {T} : wq_rep (wq_new (T:=T)) [] ∅;
  wq_len_spec {T} (w : W T) q m : wq_rep w q m → wq_len w = size m;
  wq_rep_nodup {T} (w : W T) q m : wq_rep w q m → NoDup q;
  wq_rep_linked {T} (w : W T) q m id : wq_rep w q m → id ∈ q → is_Some (m !! id);

  wq_push_front_spec {T} (w : W T) q m v :
    wq_rep w q m → wq_room w →
    wp (wq_push_front v) w (λ id w', m !! id = None ∧ wq_rep w' (id :: q) (<[id:=v]> m));
  wq_push_back_spec {T} (w : W T) q m v :
    wq_rep w q m → wq_room w →
    wp (wq_push_back v) w (λ id w', m !! id = None ∧ wq_rep w' (q ++ [id]) (<[id:=v]> m));
  wq_unlink_spec {T E} (w : W T) q m id v (f : E → T → bool * T * E) env b v' env' :
    wq_rep w q m → m !! id = Some v → f env v = (b, v', env') →
    wp (wq_unlink id f env) w (λ r w',
      r = (if b then Some v' else None, env') ∧
      wq_rep w' (if b then without id q else q) (<[id:=v']> m) ∧ (wq_room w → wq_room w'));
  wq_unlink_first_nil {T E} (w : W T) m (f : E → T → bool * T * E) env :
    wq_rep w [] m → wp (wq_unlink_first f env) w (λ r w', r = (None, env) ∧ w' = w);
  wq_unlink_first_cons {T E} (w : W T) id q m v (f : E → T → bool * T * E) env b v' env' :
    wq_rep w (id :: q) m → m !! id = Some v → f env v = (b, v', env') →
    wp (wq_unlink_first f env) w (λ r w',
      r = (if b then Some (id, v') else None, env') ∧
      wq_rep w' (if b then q else id :: q) (<[id:=v']> m) ∧ (wq_room w → wq_room w'));
  wq_is_empty_spec {T} (w : W T) q m : wq_rep w q m → wq_is_empty w = bool_decide (q = []);
  wq_waiter_spec {T} (w : W T) q m id v :
    wq_rep w q m → m !! id = Some v → wp (wq_waiter id) w (λ v' w', v' = v ∧ w' = w);
  wq_set_waiter_spec {T} (w : W T) q m id v :
    wq_rep w q m → is_Some (m !! id) →
    wp (wq_set_waiter id v) w (λ _ w', wq_rep w' q (<[id:=v]> m) ∧ (wq_room w → wq_room w'));
  wq_remove_spec {T} (w : W T) q m id v :
    wq_rep w q m → m !! id = Some v → id ∉ q →
    wp (wq_remove id) w (λ v' w',
      v' = v ∧ wq_rep w' q (delete id m) ∧ (wq_room w → wq_room w'));
}.

(** The closure [|_| true] of the source. *)
Definition always {T : Type} : unit → T → bool * T * unit := λ _ v, (true, v, tt).

(** ** Futures and their waiters

    The primitives share one discipline.  A future owns at most one waiter; a linked waiter still
    holds its waker; a notified waiter has been detached and its waker taken, and stays in the
    store until its future collects or drops it.  [waker_of] reads the waker a waiter holds. *)

(** Futures by name, each with the waiter it owns. *)
Abbreviation futures := (gmap nat (option WaiterId)).

Section waiters.
Context {X : Type} (waker_of : X → option Waker).
Implicit Types (futs : futures) (q : list WaiterId) (m : gmap WaiterId X).

Record waiters_ok futs q m : Prop := {
  wo_owned : ∀ id, is_Some (m !! id) ↔ ∃ f, futs !! f = Some (Some id);
  wo_inj : ∀ f f' id, futs !! f = Some (Some id) → futs !! f' = Some (Some id) → f = f';
  wo_waiting : ∀ id v, m !! id = Some v → (id ∈ q ↔ is_Some (waker_of v));
}.

(** The number of detached waiters: notified, not yet collected. *)
Definition detached_count q m : Z := Z.of_nat (size m) - Z.of_nat (length q).

Lemma waiters_ok_empty : waiters_ok ∅ [] ∅.
Proof. split; [|done|done]. intros id. split; by intros [??]. Qed.

Lemma waiters_ok_owner futs q m f id :
  waiters_ok futs q m → futs !! f = Some (Some id) → is_Some (m !! id).
Proof. intros [Ho _ _] Hf. apply Ho. by exists f. Qed.

Lemma waiters_ok_new futs q m f :
  waiters_ok futs q m → futs !! f = None → waiters_ok (<[f:=None]> futs) q m.
Proof.
  intros [Ho Hi Hw] Hf. split; [| |done].
  - intros id. rewrite Ho. split; intros [g Hg]; exists g; rewrite lookup_insert in *;
      case_decide; simplify_eq; done.
  - intros g g' id. rewrite !lookup_insert. repeat case_decide; try done. apply Hi.
Qed.

Lemma waiters_ok_drop futs q m f :
  waiters_ok futs q m → futs !! f = Some None → waiters_ok (delete f futs) q m.
Proof.
  intros [Ho Hi Hw] Hf. split; [| |done].
  - intros id. rewrite Ho. split; intros [g Hg]; exists g; rewrite lookup_delete in *;
      case_decide; simplify_eq; done.
  - intros g g' id. rewrite !lookup_delete. repeat case_decide; try done. apply Hi.
Qed.

Lemma waiters_ok_register futs q m f id v :
  waiters_ok futs q m → futs !! f = Some None → m !! id = None → id ∉ q → is_Some (waker_of v) →
  waiters_ok (<[f:=Some id]> futs) (q ++ [id]) (<[id:=v]> m).
Proof.
  intros [Ho Hi Hw] Hf Hn Hni Hv. assert (∀ g, futs !! g ≠ Some (Some id)) as Hno.
  { intros g Hg. destruct (proj2 (Ho id)) as [? Hs]; [by exists g|congruence]. }
  split.
  - intros i. rewrite lookup_insert. case_decide; subst.
    + split; [|by eauto]. intros _. exists f. by rewrite lookup_insert_eq.
    + rewrite Ho. split; intros [g Hg]; exists g; rewrite lookup_insert in *; case_decide; congruence.
  - intros g g' i. rewrite !lookup_insert. repeat case_decide; intros; simplify_eq; try done.
    + by destruct (Hno g').
    + by destruct (Hno g).
    + by eapply Hi.
  - intros i w. rewrite lookup_insert. case_decide; intros; simplify_eq; [set_solver|].
    rewrite <-(Hw i w) by done. set_solver.
Qed.

(** The first waiter is notified: it is detached and loses its waker. *)
Lemma waiters_ok_notify futs id q m v :
  waiters_ok futs (id :: q) m → NoDup (id :: q) → is_Some (m !! id) → waker_of v = None →
  waiters_ok futs q (<[id:=v]> m).
Proof.
  intros [Ho Hi Hw] [Hni _]%NoDup_cons Hs Hv. split; [|done|].
  - intros i. rewrite <-Ho, lookup_insert. case_decide; subst; [|done]. split; by eauto.
  - intros i w. rewrite lookup_insert. case_decide as Hid; intros; simplify_eq.
    + rewrite Hv. split; [done|by intros [??]].
    + rewrite <-(Hw i w) by done. set_solver.
Qed.

Lemma waiters_ok_refresh futs q m id v :
  waiters_ok futs q m → id ∈ q → is_Some (m !! id) → is_Some (waker_of v) →
  waiters_ok futs q (<[id:=v]> m).
Proof.
  intros [Ho Hi Hw] Hin Hs Hv. split; [|done|].
  - intros i. rewrite <-Ho, lookup_insert. case_decide; subst; [|done]. split; by eauto.
  - intros i w. rewrite lookup_insert. case_decide; intros; simplify_eq; [done|by apply Hw].
Qed.

(** The owner collects or drops its waiter. *)
Lemma waiters_ok_remove futs q m f id :
  waiters_ok futs q m → futs !! f = Some (Some id) →
  waiters_ok (<[f:=None]> futs) (without id q) (delete id m).
Proof.
  intros [Ho Hi Hw] Hf. split.
  - intros i. rewrite lookup_delete. case_decide as Hid; subst.
    + split; [by intros [??]|]. intros [g Hg]. rewrite lookup_insert in Hg. case_decide; [done|].
      by destruct (Hi f g i).
    + rewrite Ho. split; intros [g Hg]; exists g; rewrite lookup_insert in *; case_decide; congruence.
  - intros g g' i. rewrite !lookup_insert. repeat case_decide; try done. apply Hi.
  - intros i w. rewrite lookup_delete. case_decide; [done|]. intros Hm.
    rewrite <-(Hw i w) by done. rewrite list_elem_of_filter. naive_solver.
Qed.

Lemma detached_register q m id v :
  m !! id = None → detached_count (q ++ [id]) (<[id:=v]> m) = detached_count q m.
Proof.
  intros Hn. unfold detached_count. rewrite map_size_insert_None, length_app by done. simpl. lia.
Qed.
Lemma detached_notify id q m v :
  is_Some (m !! id) → detached_count q (<[id:=v]> m) = detached_count (id :: q) m + 1.
Proof. intros Hs. unfold detached_count. rewrite map_size_insert_Some by done. simpl. lia. Qed.
Lemma detached_update q m id v :
  is_Some (m !! id) → detached_count q (<[id:=v]> m) = detached_count q m.
Proof. intros Hs. unfold detached_count. by rewrite map_size_insert_Some. Qed.

Lemma length_without id q : NoDup q → id ∈ q → length q = S (length (without id q)).
Proof.
  intros Hnd (a & b & ->)%list_elem_of_split. apply NoDup_middle in Hnd as (Ha & Hb & _).
  rewrite filter_neq_middle, !length_app by done. simpl. lia.
Qed.

Lemma detached_remove q m id v :
  NoDup q → m !! id = Some v →
  detached_count (without id q) (delete id m) =
    detached_count q m - (if decide (id ∈ q) then 0 else 1).
Proof.
  intros Hnd Hs. unfold detached_count. pose proof (map_size_pos _ _ _ Hs).
  rewrite map_size_delete_Some by eauto. case_decide as Hin.
  - rewrite (length_without id q) by done. lia.
  - rewrite filter_neq_id by done. lia.
Qed.
End waiters.

(** ** Shared steps of the primitives *)
Section store_steps.
Context {W : Type → Type} `{!WaitQueue W} {X : Type}.
Implicit Types (w : W X) (q : list WaiterId) (m : gmap WaiterId X).

(** Unlinking is idempotent, so detached waiters are removed the same way as linked ones. *)
Definition remove_waiter (id : WaiterId) : M (W X) X :=
  wq_unlink id always tt;; wq_remove id.

Lemma rep_length_le w q m : wq_rep w q m → (length q ≤ size m)%nat.
Proof.
  intros Hrep. pose proof (wq_rep_nodup w q m Hrep) as Hnd.
  rewrite <-(size_list_to_set (C:=gset WaiterId)) by done.
  rewrite <-size_dom. apply subseteq_size. intros id Hid%elem_of_list_to_set.
  apply elem_of_dom. by eapply wq_rep_linked.
Qed.

Lemma detached_nonneg w q m : wq_rep w q m → 0 <= detached_count q m.
Proof. intros Hrep%rep_length_le. unfold detached_count. lia. Qed.

Lemma rep_empty_queue w q : wq_rep w q ∅ → q = [].
Proof.
  intros Hrep. destruct q as [|id q]; [done|].
  destruct (wq_rep_linked w (id :: q) ∅ id Hrep) as [v Hv]; [set_solver|done].
Qed.

Lemma remove_waiter_spec w q m id v :
  wq_rep w q m → m !! id = Some v →
  wp (remove_waiter id) w (λ v' w',
    v' = v ∧ wq_rep w' (without id q) (delete id m) ∧ (wq_room w → wq_room w')).
Proof.
  intros Hrep Hv. unfold remove_waiter. wp_auto. wp_apply wq_unlink_spec; [done..|].
  intros r w' (_ & Hrep' & Hroom). wp_auto. rewrite insert_id in Hrep' by done.
  wp_apply wq_remove_spec; [done..|rewrite list_elem_of_filter; naive_solver|].
  intros v' w'' (-> & Hrep'' & Hroom'). eauto.
Qed.

End store_steps.

Section steps.
Context {W : Type → Type} `{!WaitQueue W} {X : Type} (waker_of : X → option Waker).
Implicit Types (w : W X) (q : list WaiterId) (m : gmap WaiterId X).

(** Detaches the first waiter, stores [mark] in its node and returns the waker it held. *)
Definition notify_first (mark : X) (unreachable_msg : string) : M (W X) (option Waker) :=
  '(r, _) ← wq_unlink_first always tt;
  match r with
  | None => mret None
  | Some (id, waiter) =>
      wq_set_waiter id mark;;
      match waker_of waiter with
      | Some waker => mret (Some waker)
      | None => panic unreachable_msg
      end
  end.

(** The waker a store holds for an identifier. *)
Definition waker_at m id : option Waker := m !! id ≫= waker_of.

Lemma notify_first_spec w futs q m mark msg :
  wq_rep w q m → waiters_ok waker_of futs q m → waker_of mark = None →
  wp (notify_first mark msg) w (λ r w',
    match q with
    | [] => r = None ∧ w' = w
    | id :: q' =>
        is_Some (m !! id) ∧ r = waker_at m id ∧ is_Some r ∧ wq_rep w' q' (<[id:=mark]> m) ∧
        waiters_ok waker_of futs q' (<[id:=mark]> m) ∧ (wq_room w → wq_room w')
    end).
Proof.
  intros Hrep Hok Hmark. unfold notify_first. wp_auto. destruct q as [|id q].
  - wp_apply wq_unlink_first_nil; [done|]. intros r w' [-> ->]. by wp_auto.
  - destruct (wq_rep_linked w (id :: q) m id Hrep) as [v Hv]; [set_solver|].
    wp_apply wq_unlink_first_cons; [done..|]. intros r w' (-> & Hrep' & Hroom). wp_auto.
    rewrite insert_id in Hrep' by done.
    wp_apply wq_set_waiter_spec; [done|by eauto|]. intros _ w'' [Hrep'' Hroom'].
    assert (is_Some (waker_of v)) as [wk Hwk] by (eapply wo_waiting; [done..|set_solver]).
    rewrite Hwk. wp_auto. unfold waker_at. rewrite Hv. simpl. split_and!; eauto.
    eapply waiters_ok_notify; eauto using wq_rep_nodup.
Qed.

(** Notifying every waiter of a moved-out list returns the wakers of the whole queue, in order. *)
Lemma drain_spec w futs q m mark msg fuel :
  wq_rep w q m → waiters_ok waker_of futs q m → waker_of mark = None → (length q < fuel)%nat →
  wp (while_some fuel (notify_first mark msg)) w (λ ws _, Some <$> ws = waker_at m <$> q).
Proof.
  revert w q m. induction fuel as [|fuel IH]; intros w q m Hrep Hok Hmark Hlt; [lia|].
  simpl. wp_auto. wp_apply notify_first_spec; [done..|]. intros r w' Hr. destruct q as [|id q].
  - destruct Hr as [-> ->]. by wp_auto.
  - destruct Hr as ((v & Hv) & -> & [wk Hwk] & Hrep' & Hok' & _). rewrite Hwk. wp_auto.
    wp_apply (IH w' q); [done..|simpl in Hlt; lia|]. intros ws w'' Hws. wp_auto.
    rewrite !fmap_cons, Hws. f_equal; [done|]. apply list_fmap_ext. intros i j Hj.
    unfold waker_at. rewrite lookup_insert_ne; [done|]. intros ->.
    apply wq_rep_nodup, NoDup_cons in Hrep as [Hni _]. apply Hni. by eapply list_elem_of_lookup_2.
Qed.
End steps.
