(* ===== verification/WaitList.v ===== *)
(** * The wait list

    [asyncband/src/internal/waitlist.rs]: a queue of waiters kept as a doubly linked list whose
    nodes live in an arena.  A waiter is first detached from the queue (its node stays readable
    by the future that owns it) and later removed.  The file models the list, gives it an abstract
    view (the queue of linked identifiers and the map of stored values) and discharges the
    interface [WaitQueue] against which the primitives of the crate are verified. *)
From S2P Require Import Prelude Arena WaitQueue.

Record Links : Type := mkLinks { prev : option WaiterId; next : option WaiterId }.

(** [links = None] marks a node that has been detached but not yet removed. *)
Record Node (T : Type) : Type := mkNode { links : option Links; value : T }.
Arguments mkNode {T}.
Arguments links {T}.
Arguments value {T}.

Record WaitList (T : Type) : Type := mkWaitList {
  head : option WaiterId;
  tail : option WaiterId;
  nodes : Arena (Node T);
}.
Arguments mkWaitList {T}.
Arguments head {T}.
Arguments tail {T}.
Arguments nodes {T}.

Abbreviation in_nodes := (zoom nodes (λ a wl, mkWaitList (head wl) (tail wl) a)).

Section operations.
Context {T : Type}.

Definition waitlist_new : WaitList T := mkWaitList None None arena_new.

Definition set_head (h : option WaiterId) : M (WaitList T) unit :=
  modify (λ wl, mkWaitList h (tail wl) (nodes wl)).
Definition set_tail (t : option WaiterId) : M (WaitList T) unit :=
  modify (λ wl, mkWaitList (head wl) t (nodes wl)).

(** [WaitList::node] and [node_mut]. *)
Definition node (id : WaiterId) : M (WaitList T) (Node T) :=
  wl ← get;
  expect (get_slot (nodes wl) id) "waiter id must refer to an occupied node".
Definition write_node (id : WaiterId) (n : Node T) : M (WaitList T) unit :=
  in_nodes (modify (write_slot id n)).

(** Updates the links behind [WaitList::linked_node_mut]. *)
Definition update_links (id : WaiterId) (f : Links → Links) : M (WaitList T) unit :=
  n ← node id;
  l ← expect (links n) "linked waiter must have links";
  write_node id (mkNode (Some (f l)) (value n)).
Definition set_prev (p : option WaiterId) (l : Links) : Links := mkLinks p (next l).
Definition set_next (n : option WaiterId) (l : Links) : Links := mkLinks (prev l) n.

Definition push_front (v : T) : M (WaitList T) WaiterId :=
  nxt ← gets head;
  id ← in_nodes (insert_slot (mkNode (Some (mkLinks None nxt)) v));
  match nxt with
  | Some n => update_links n (set_prev (Some id))
  | None => set_tail (Some id)
  end;;
  set_head (Some id);;
  mret id.

Definition push_back (v : T) : M (WaitList T) WaiterId :=
  prv ← gets tail;
  id ← in_nodes (insert_slot (mkNode (Some (mkLinks prv None)) v));
  match prv with
  | Some p => update_links p (set_next (Some id))
  | None => set_head (Some id)
  end;;
  set_tail (Some id);;
  mret id.

(** [WaitList::unlink_waiter].  The predicate of the source is a closure that may mutate the
    stored value and its captured variables: [f env v] gives the verdict, the new value and the
    new environment.  The mutable reference of a successful call is the value returned; stores
    through it are [set_waiter]. *)
Definition unlink_waiter {E : Type} (id : WaiterId) (f : E → T → bool * T * E) (env : E)
    : M (WaitList T) (option T * E) :=
  n ← node id;
  let '(should_unlink, v, env') := f env (value n) in
  if negb should_unlink
  then write_node id (mkNode (links n) v);; mret (None, env')
  else
    write_node id (mkNode None v);;
    match links n with
    | Some (mkLinks prv nxt) =>
        match prv with
        | Some p => update_links p (set_next nxt)
        | None => set_head nxt
        end;;
        match nxt with
        | Some x => update_links x (set_prev prv)
        | None => set_tail prv
        end
    | None => mret tt
    end;;
    n ← node id;
    mret (Some (value n), env').

Definition unlink_first_waiter {E : Type} (f : E → T → bool * T * E) (env : E)
    : M (WaitList T) (option (WaiterId * T) * E) :=
  h ← gets head;
  match h with
  | None => mret (None, env)
  | Some first =>
      '(r, env') ← unlink_waiter first f env;
      mret ((λ waiter, (first, waiter)) <$> r, env')
  end.

Definition waitlist_is_empty (wl : WaitList T) : bool := bool_decide (head wl = None).

(** [WaitList::waiter_mut]: read, and write through the reference. *)
Definition waiter (id : WaiterId) : M (WaitList T) T :=
  n ← node id; mret (value n).
Definition set_waiter (id : WaiterId) (v : T) : M (WaitList T) unit :=
  n ← node id; write_node id (mkNode (links n) v).

Definition remove_unlinked_waiter (id : WaiterId) : M (WaitList T) T :=
  n ← node id;
  assert_true (bool_decide (links n = None)) "waiter must be unlinked before removal";;
  n ← in_nodes (remove_slot id);
  mret (value n).

(** [WaitList::occupied_len]. *)
Definition occupied_len (wl : WaitList T) : nat := Z.to_nat (len (nodes wl)).
End operations.

(** ** Linked queues *)
Section linked.
Context {T : Type}.
Implicit Types (nm : gmap WaiterId (Node T)) (q : list WaiterId).

(** Every element of the queue stores its neighbours as links. *)
Definition linked nm q : Prop :=
  ∀ q1 x q2, q = q1 ++ x :: q2 →
    ∃ v, nm !! x = Some (mkNode (Some (mkLinks (last q1) (hd_error q2))) v).

(** What [update_links] does to the stored nodes. *)
Definition relink (f : Links → Links) (n : Node T) : Node T := mkNode (f <$> links n) (value n).

Lemma linked_lookup nm q x : linked nm q → x ∈ q → ∃ l v, nm !! x = Some (mkNode (Some l) v).
Proof.
  intros Hl (q1 & q2 & ->)%list_elem_of_split. destruct (Hl q1 x q2 eq_refl) as [v Hv]. eauto.
Qed.

Lemma linked_push_back nm q id v :
  linked nm q → NoDup q → id ∉ q →
  let nm' := <[id := mkNode (Some (mkLinks (last q) None)) v]> nm in
  linked (match last q with Some p => alter (relink (set_next (Some id))) p nm' | None => nm' end)
    (q ++ [id]).
Proof.
  intros Hl Hnd Hni nm' q1 x q2 Hq.
  destruct q2 as [|y q2 _] using rev_ind.
  - apply app_inj_tail in Hq as [-> ->]. exists v. subst nm'.
    destruct (last q1) as [p|] eqn:Hp; [|by rewrite lookup_insert_eq].
    rewrite lookup_alter_ne; [by rewrite lookup_insert_eq|].
    intros ->. by apply Hni, last_Some_elem_of.
  - rewrite app_comm_cons, app_assoc in Hq. apply app_inj_tail in Hq as [-> <-].
    destruct (Hl q1 x q2 eq_refl) as [w Hw]. exists w.
    assert (id ≠ x) by (intros ->; apply Hni; set_solver).
    rewrite last_app_cons in *. subst nm'.
    destruct q2 as [|z q2 _] using rev_ind; simpl.
    + rewrite lookup_alter_eq, lookup_insert_ne, Hw by done. done.
    + rewrite app_comm_cons, last_snoc.
      assert (z ≠ x) by (intros ->; rewrite NoDup_app, NoDup_cons in Hnd; set_solver).
      rewrite lookup_alter_ne, lookup_insert_ne, Hw by done. by destruct q2.
Qed.

Lemma linked_push_front nm q id v :
  linked nm q → NoDup q → id ∉ q →
  let nm' := <[id := mkNode (Some (mkLinks None (hd_error q))) v]> nm in
  linked (match hd_error q with Some n => alter (relink (set_prev (Some id))) n nm' | None => nm' end)
    (id :: q).
Proof.
  intros Hl Hnd Hni nm' q1 x q2 Hq.
  destruct q1 as [|y q1]; simpl in Hq; injection Hq as -> Hq; subst nm'.
  - subst q. exists v. destruct q2 as [|n q2]; simpl; [by rewrite lookup_insert_eq|].
    rewrite lookup_alter_ne by set_solver. by rewrite lookup_insert_eq.
  - subst q. destruct (Hl q1 x q2 eq_refl) as [w Hw]. exists w.
    destruct q1 as [|n q1]; simpl.
    + rewrite lookup_alter_eq, lookup_insert_ne, Hw by set_solver. done.
    + assert (n ≠ x) by (simpl in Hnd; rewrite NoDup_cons in Hnd; set_solver).
      rewrite lookup_alter_ne, lookup_insert_ne, Hw by set_solver. by destruct q1.
Qed.

(** Detaching [x]: its neighbours are linked to each other. *)
Definition bridge (a b : list WaiterId) nm : gmap WaiterId (Node T) :=
  let nm := match last a with
            | Some p => alter (relink (set_next (hd_error b))) p nm
            | None => nm
            end in
  match hd_error b with
  | Some n => alter (relink (set_prev (last a))) n nm
  | None => nm
  end.

Lemma bridge_lookup_ne a b nm y :
  last a ≠ Some y → hd_error b ≠ Some y → bridge a b nm !! y = nm !! y.
Proof.
  intros Ha Hb. unfold bridge. destruct (last a), (hd_error b);
    rewrite ?lookup_alter_ne by congruence; done.
Qed.

(** An element of a detached queue keeps its neighbours, except across the gap. *)
Lemma bridge_left nm q1 y k x b n :
  linked nm ((q1 ++ y :: k) ++ x :: b) → NoDup ((q1 ++ y :: k) ++ x :: b) →
  ∃ v, bridge (q1 ++ y :: k) b (<[x := n]> nm) !! y =
         Some (mkNode (Some (mkLinks (last q1) (hd_error (k ++ b)))) v).
Proof.
  intros Hl (Hxa & Hxb & Hna & Hnb & Hab)%NoDup_middle.
  destruct (Hl q1 y (k ++ x :: b)) as [v Hv]; [by rewrite <-app_assoc|]. exists v.
  assert (hd_error b ≠ Some y) as Hby.
  { intros Hz%head_Some_elem_of. apply (Hab y); [set_solver|done]. }
  assert (x ≠ y) by set_solver.
  destruct k as [|w k]; simpl in *.
  - unfold bridge. rewrite last_snoc.
    destruct (hd_error b) as [n'|] eqn:Hb; rewrite ?(lookup_alter_ne _ _ n') by congruence;
      by rewrite lookup_alter_eq, lookup_insert_ne, Hv.
  - rewrite bridge_lookup_ne; [by rewrite lookup_insert_ne| |done].
    rewrite last_app_cons, last_cons_cons. intros Hz%last_Some_elem_of.
    apply NoDup_middle in Hna as (_ & ? & _). done.
Qed.

Lemma bridge_right nm a x k y q2 n :
  linked nm (a ++ x :: k ++ y :: q2) → NoDup (a ++ x :: k ++ y :: q2) →
  ∃ v, bridge a (k ++ y :: q2) (<[x := n]> nm) !! y =
         Some (mkNode (Some (mkLinks (last (a ++ k)) (hd_error q2))) v).
Proof.
  intros Hl (Hxa & Hxb & Hna & Hnb & Hab)%NoDup_middle.
  destruct (Hl (a ++ x :: k) y q2) as [v Hv]; [by rewrite <-app_assoc|]. exists v.
  assert (last a ≠ Some y) as Hay.
  { intros Hz%last_Some_elem_of. apply (Hab y); set_solver. }
  assert (x ≠ y) by set_solver.
  destruct k as [|w k]; simpl in *.
  - rewrite app_nil_r. unfold bridge; simpl. rewrite lookup_alter_eq. rewrite last_snoc in Hv.
    destruct (last a) as [p|] eqn:Hp; rewrite ?lookup_alter_ne by congruence;
      by rewrite lookup_insert_ne, Hv.
  - rewrite bridge_lookup_ne; [rewrite lookup_insert_ne by done|done|].
    + by rewrite Hv, !last_app_cons, last_cons_cons.
    + simpl. intros [= ->]. apply NoDup_cons in Hnb. set_solver.
Qed.

Lemma linked_unlink nm a x b n :
  linked nm (a ++ x :: b) → NoDup (a ++ x :: b) → linked (bridge a b (<[x := n]> nm)) (a ++ b).
Proof.
  intros Hl Hnd q1 y q2 [(k & -> & ->)|(k & -> & ->)]%app_cons_inv.
  - by apply bridge_left.
  - by apply bridge_right.
Qed.
End linked.

(** ** Representation and specifications *)
Section specs.
Context {T : Type}.
Implicit Types (wl : WaitList T) (nm : gmap WaiterId (Node T)) (m : gmap WaiterId T)
  (q : list WaiterId).

(** The stored nodes outside of [q] are detached. *)
Definition detached nm q : Prop := ∀ id n, nm !! id = Some n → id ∉ q → links n = None.

(** The arena stores [nm]; the queue [q] is linked from [head] to [tail], and every other stored
    node is detached. *)
Record list_rep wl q nm : Prop := {
  lr_arena : arena_rep (nodes wl) nm;
  lr_head : head wl = hd_error q;
  lr_tail : tail wl = last q;
  lr_linked : linked nm q;
  lr_nodup : NoDup q;
  lr_detached : detached nm q;
}.

Definition wl_rep wl q m : Prop := ∃ nm, list_rep wl q nm ∧ m = value <$> nm.

Definition wl_room wl : Prop := arena_room (nodes wl).

Lemma fmap_alter_relink nm f id : value <$> alter (relink f) id nm = value <$> nm.
Proof.
  apply map_eq. intros i. rewrite !lookup_fmap, lookup_alter. case_decide; subst; [|done].
  by destruct (nm !! i).
Qed.

Lemma fmap_bridge a b nm : value <$> bridge a b nm = value <$> nm.
Proof. unfold bridge. destruct (last a), (hd_error b); by rewrite ?fmap_alter_relink. Qed.

Lemma detached_relink f x nm q : detached nm q → detached (alter (relink f) x nm) q.
Proof.
  intros Hd id n. rewrite lookup_alter. case_decide; subst; [|by apply Hd].
  intros (n' & Hn' & ->)%fmap_Some Hni. unfold relink. by rewrite (Hd _ _ Hn' Hni).
Qed.

Lemma detached_bridge a b nm q : detached nm q → detached (bridge a b nm) q.
Proof. intros Hd. unfold bridge. destruct (hd_error b), (last a); by repeat apply detached_relink. Qed.

Lemma detached_insert nm q q' id n :
  detached nm q → (∀ x, x ∈ q → x = id ∨ x ∈ q') → id ∈ q' ∨ links n = None →
  detached (<[id := n]> nm) q'.
Proof.
  intros Hd Hq Hid i n'. rewrite lookup_insert. case_decide; subst; [naive_solver|].
  intros Hi Hni. apply (Hd i); naive_solver.
Qed.

Lemma wp_node wl nm id n (Q : Node T → WaitList T → Prop) :
  arena_rep (nodes wl) nm → nm !! id = Some n → Q n wl → wp (node id) wl Q.
Proof.
  intros Hrep Hid HQ. unfold node. wp_auto.
  eapply wp_expect; [by rewrite <-(rep_lookup _ _ Hrep)|done].
Qed.

Lemma wp_update_links wl nm id f l v (Q : unit → WaitList T → Prop) :
  arena_rep (nodes wl) nm → nm !! id = Some (mkNode (Some l) v) →
  (∀ a, arena_rep a (alter (relink f) id nm) → length (slots a) = length (slots (nodes wl)) →
    Q tt (mkWaitList (head wl) (tail wl) a)) →
  wp (update_links id f) wl Q.
Proof.
  intros Hrep Hid HQ. unfold update_links. wp_auto.
  eapply wp_node; [done..|]. wp_auto. eapply wp_expect; [done|]. unfold write_node. wp_auto.
  apply HQ; [|simpl; by rewrite length_insert].
  assert (alter (relink f) id nm = <[id := mkNode (Some (f l)) v]> nm) as ->.
  { apply map_eq. intros i. rewrite lookup_alter, lookup_insert. case_decide; [|done].
    subst. by rewrite Hid. }
  apply write_slot_rep; eauto.
Qed.

(** A freshly inserted node [id], linked in front of or behind [q]. *)
Lemma fresh_unlinked nm q id : linked nm q → nm !! id = None → id ∉ q.
Proof. intros Hl Hn Hin. destruct (linked_lookup _ _ _ Hl Hin) as (? & ? & ?). congruence. Qed.

Lemma push_back_spec wl q m v :
  wl_rep wl q m → wl_room wl →
  wp (push_back v) wl (λ id wl', m !! id = None ∧ wl_rep wl' (q ++ [id]) (<[id:=v]> m)).
Proof.
  intros (nm & [Ha Hh Ht Hl Hnd Hd] & ->) Hroom. unfold push_back. wp_auto.
  wp_apply insert_slot_spec; [done..|]. intros id a (Hn & Ha' & _). wp_auto.
  pose proof (fresh_unlinked _ _ _ Hl Hn) as Hni. rewrite Ht in *.
  pose proof (linked_push_back nm q id v Hl Hnd Hni) as Hl'. simpl in Hl'.
  assert (NoDup (q ++ [id])) as Hnd'.
  { apply NoDup_app. split_and!; [done|set_solver|apply NoDup_singleton]. }
  set (n := mkNode (Some (mkLinks (last q) None)) v) in *.
  assert (detached (<[id := n]> nm) (q ++ [id])) as Hd'.
  { eapply detached_insert; [done|set_solver|left; set_solver]. }
  destruct (last q) as [p|] eqn:Hp.
  - destruct (linked_lookup nm q p Hl) as (l & w & Hw); [by apply last_Some_elem_of|].
    assert (p ≠ id) by (intros ->; congruence).
    eapply wp_update_links; [done|by rewrite lookup_insert_ne by done|]. intros a' Ha'' _.
    unfold set_tail. wp_auto. split; [by rewrite lookup_fmap, Hn|]. eexists. split.
    + split; simpl; [done| |by rewrite last_snoc|done..|by apply detached_relink].
      rewrite Hh. by destruct q.
    + by rewrite fmap_alter_relink, fmap_insert.
  - apply last_None in Hp as ->. unfold set_head, set_tail. wp_auto.
    split; [by rewrite lookup_fmap, Hn|]. exists (<[id := n]> nm). split; [|by rewrite fmap_insert].
    by split.
Qed.

Lemma push_front_spec wl q m v :
  wl_rep wl q m → wl_room wl →
  wp (push_front v) wl (λ id wl', m !! id = None ∧ wl_rep wl' (id :: q) (<[id:=v]> m)).
Proof.
  intros (nm & [Ha Hh Ht Hl Hnd Hd] & ->) Hroom. unfold push_front. wp_auto.
  wp_apply insert_slot_spec; [done..|]. intros id a (Hn & Ha' & _). wp_auto.
  pose proof (fresh_unlinked _ _ _ Hl Hn) as Hni. rewrite Hh in *.
  pose proof (linked_push_front nm q id v Hl Hnd Hni) as Hl'. simpl in Hl'.
  assert (NoDup (id :: q)) as Hnd' by by constructor.
  set (n := mkNode (Some (mkLinks None (hd_error q))) v) in *.
  assert (detached (<[id := n]> nm) (id :: q)) as Hd'.
  { eapply detached_insert; [done|set_solver|left; set_solver]. }
  destruct q as [|p q]; simpl in *.
  - unfold set_head, set_tail. wp_auto.
    split; [by rewrite lookup_fmap, Hn|]. exists (<[id := n]> nm). split; [|by rewrite fmap_insert].
    by split.
  - destruct (linked_lookup nm (p :: q) p Hl) as (l & w & Hw); [set_solver|].
    assert (p ≠ id) by (intros ->; congruence).
    eapply wp_update_links; [done|by rewrite lookup_insert_ne by done|]. intros a' Ha'' _.
    unfold set_head. wp_auto. split; [by rewrite lookup_fmap, Hn|]. eexists. split.
    + split; simpl; [done..|by apply detached_relink].
    + by rewrite fmap_alter_relink, fmap_insert.
Qed.

(** Storing a new value in a node changes neither the queue nor the storage. *)
Lemma linked_write nm q id n v :
  linked nm q → nm !! id = Some n → linked (<[id := mkNode (links n) v]> nm) q.
Proof.
  intros Hl Hn q1 x q2 Hq. destruct (Hl q1 x q2 Hq) as [w Hw].
  rewrite lookup_insert. case_decide; subst; [|by eauto].
  exists v. rewrite Hn in Hw. by injection Hw as ->.
Qed.

Lemma wp_write_value wl q nm id n v (Q : unit → WaitList T → Prop) :
  list_rep wl q nm → nm !! id = Some n →
  (∀ wl', list_rep wl' q (<[id := mkNode (links n) v]> nm) → (wl_room wl → wl_room wl') → Q tt wl') →
  wp (write_node id (mkNode (links n) v)) wl Q.
Proof.
  intros [Ha Hh Ht Hl Hnd Hd] Hn HQ. unfold write_node. wp_auto. apply HQ.
  - split; simpl; [by apply write_slot_rep; eauto|done|done|by apply linked_write|done|].
    eapply detached_insert; [done|auto|].
    destruct (decide (id ∈ q)) as [|Hni]; [by left|right; exact (Hd _ _ Hn Hni)].
  - unfold wl_room, arena_room. simpl. by rewrite length_insert.
Qed.

Lemma room_same wl wl' :
  length (slots (nodes wl')) = length (slots (nodes wl)) → wl_room wl → wl_room wl'.
Proof. unfold wl_room, arena_room. by intros ->. Qed.

(** The two halves of detaching a node: the predecessor is linked to the successor, and back. *)
Lemma wp_link_prev wl nm (a b : list WaiterId) (Q : unit → WaitList T → Prop) :
  arena_rep (nodes wl) nm →
  (∀ p, last a = Some p → ∃ l v, nm !! p = Some (mkNode (Some l) v)) →
  (∀ ar, arena_rep ar (match last a with
                       | Some p => alter (relink (set_next (hd_error b))) p nm
                       | None => nm end) →
    length (slots ar) = length (slots (nodes wl)) →
    Q tt (mkWaitList (if last a is Some _ then head wl else hd_error b) (tail wl) ar)) →
  wp (match last a with
      | Some p => update_links p (set_next (hd_error b))
      | None => set_head (hd_error b)
      end) wl Q.
Proof.
  intros Ha Hp HQ. destruct (last a) as [p|].
  - destruct (Hp p eq_refl) as (l & v & Hl). by eapply wp_update_links.
  - unfold set_head. wp_auto. by apply HQ.
Qed.

Lemma wp_link_next wl nm (a b : list WaiterId) (Q : unit → WaitList T → Prop) :
  arena_rep (nodes wl) nm →
  (∀ n, hd_error b = Some n → ∃ l v, nm !! n = Some (mkNode (Some l) v)) →
  (∀ ar, arena_rep ar (match hd_error b with
                       | Some n => alter (relink (set_prev (last a))) n nm
                       | None => nm end) →
    length (slots ar) = length (slots (nodes wl)) →
    Q tt (mkWaitList (head wl) (if hd_error b is Some _ then tail wl else last a) ar)) →
  wp (match hd_error b with
      | Some n => update_links n (set_prev (last a))
      | None => set_tail (last a)
      end) wl Q.
Proof.
  intros Ha Hp HQ. destruct (hd_error b) as [p|].
  - destruct (Hp p eq_refl) as (l & v & Hl). by eapply wp_update_links.
  - unfold set_tail. wp_auto. by apply HQ.
Qed.

(** Detaching a linked node. *)
Lemma wp_unlink_links wl a x b nm v (Q : unit → WaitList T → Prop) :
  list_rep wl (a ++ x :: b) nm → is_Some (nm !! x) →
  (∀ wl', list_rep wl' (a ++ b) (bridge a b (<[x := mkNode None v]> nm)) →
    (wl_room wl → wl_room wl') → Q tt wl') →
  wp (write_node x (mkNode None v)) wl (λ _ wl1,
    wp (match last a with
        | Some p => update_links p (set_next (hd_error b))
        | None => set_head (hd_error b)
        end;;
        match hd_error b with
        | Some n => update_links n (set_prev (last a))
        | None => set_tail (last a)
        end) wl1 Q).
Proof.
  intros [Ha Hh Ht Hl Hnd Hd] Hx HQ.
  pose proof (linked_unlink _ _ _ _ (mkNode None v) Hl Hnd) as Hl'.
  assert (detached (bridge a b (<[x := mkNode None v]> nm)) (a ++ b)) as Hd'.
  { apply detached_bridge. eapply detached_insert; [done|set_solver|by right]. }
  apply NoDup_middle in Hnd as (Hxa & Hxb & Hna & Hnb & Hab).
  assert (∀ y, y ∈ a ++ b → ∃ l w, <[x := mkNode None v]> nm !! y = Some (mkNode (Some l) w)) as Hlk.
  { intros y Hy. rewrite lookup_insert_ne by set_solver.
    apply (linked_lookup _ _ _ Hl). set_solver. }
  unfold write_node. wp_auto.
  eapply wp_link_prev; [by apply write_slot_rep|intros p Hp%last_Some_elem_of; apply Hlk; set_solver|].
  intros a1 Ha1 Hs1. eapply wp_link_next; [done| |].
  { intros n Hn%head_Some_elem_of. destruct (Hlk n) as (l & w & Hnw); [set_solver|].
    destruct (last a) as [p|] eqn:Hp; [|by eauto].
    apply last_Some_elem_of in Hp. rewrite lookup_alter_ne by set_solver. by eauto. }
  intros a2 Ha2 Hs2. apply HQ.
  - split; simpl; [done| | |done|apply NoDup_app; set_solver|done].
    + rewrite Hh. by destruct a as [|y a]; [|destruct (last (y :: a)) eqn:E; [|apply last_None in E]].
    + rewrite Ht, last_app_cons. destruct b as [|y b]; simpl; [by rewrite app_nil_r|].
      by rewrite last_app_cons.
  - apply room_same. simpl. rewrite Hs2. simpl. rewrite Hs1. simpl. by rewrite length_insert.
Qed.

(** A node that stores links is in the queue, between the neighbours they name. *)
Lemma list_rep_split wl q nm id prv nxt v :
  list_rep wl q nm → nm !! id = Some (mkNode (Some (mkLinks prv nxt)) v) →
  ∃ qa qb, q = qa ++ id :: qb ∧ prv = last qa ∧ nxt = hd_error qb ∧ without id q = qa ++ qb.
Proof.
  intros Hrep Hn. destruct (decide (id ∈ q)) as [Hin|Hni].
  - apply list_elem_of_split in Hin as (qa & qb & ->). exists qa, qb.
    destruct (lr_linked _ _ _ Hrep qa id qb eq_refl) as [w Hw].
    pose proof (NoDup_middle _ _ _ (lr_nodup _ _ _ Hrep)) as (Hia & Hib & _).
    rewrite Hw in Hn. simplify_eq/=. by rewrite filter_neq_middle.
  - by pose proof (lr_detached _ _ _ Hrep _ _ Hn Hni).
Qed.

Lemma fmap_value_insert nm id l v : value <$> <[id := mkNode l v]> nm = <[id := v]> (value <$> nm).
Proof. by rewrite fmap_insert. Qed.

(** [WaitList::unlink_waiter]. *)
Lemma unlink_waiter_spec {E : Type} wl q m id v (f : E → T → bool * T * E) env b v' env' :
  wl_rep wl q m → m !! id = Some v → f env v = (b, v', env') →
  wp (unlink_waiter id f env) wl (λ r wl',
    r = (if b then Some v' else None, env') ∧
    wl_rep wl' (if b then without id q else q) (<[id:=v']> m) ∧ (wl_room wl → wl_room wl')).
Proof.
  intros (nm & Hrep & ->) Hm Hf. rewrite lookup_fmap in Hm.
  apply fmap_Some in Hm as (n & Hn & ->). unfold unlink_waiter. wp_auto.
  eapply wp_node; [apply Hrep|done|]. rewrite Hf.
  destruct b; simpl; [destruct n as [[[prv nxt]|] v]; simpl|].
  - destruct (list_rep_split _ _ _ _ _ _ _ Hrep Hn) as (qa & qb & -> & -> & -> & ->).
    wp_auto. wp_apply wp_unlink_links; [done|by eauto| |].
    { intros wl' Hrep' Hroom. instantiate (1 := λ _ wl', list_rep wl' (qa ++ qb)
        (bridge qa qb (<[id := mkNode None v']> nm)) ∧ (wl_room wl → wl_room wl')). done. }
    intros _ wl1 Hwp. apply wp_bind. wp_apply Hwp. intros _ wl2 [Hrep2 Hroom]. wp_auto.
    assert ((value <$> bridge qa qb (<[id := mkNode None v']> nm)) !! id = Some v') as Hid.
    { by rewrite fmap_bridge, fmap_value_insert, lookup_insert_eq. }
    rewrite lookup_fmap in Hid. apply fmap_Some in Hid as (n2 & Hn2 & ->).
    eapply wp_node; [apply Hrep2|done|]. wp_auto. split_and!; [done| |done].
    eexists. split; [done|]. by rewrite fmap_bridge, fmap_value_insert.
  - wp_auto. assert (id ∉ q) as Hni.
    { intros Hin. destruct (linked_lookup _ _ _ (lr_linked _ _ _ Hrep) Hin) as (l & w & Hw).
      by simplify_eq. }
    eapply (wp_write_value _ _ _ _ (mkNode None v)); [done..|]. intros wl' Hrep' Hroom. wp_auto.
    eapply wp_node; [apply Hrep'|apply lookup_insert_eq|]. wp_auto.
    split_and!; [done| |done]. rewrite filter_neq_id by done.
    eexists. split; [done|]. by rewrite fmap_value_insert.
  - wp_auto. eapply wp_write_value; [done..|]. intros wl' Hrep' Hroom. wp_auto.
    split_and!; [done| |done]. eexists. split; [done|]. by rewrite fmap_value_insert.
Qed.

Lemma unlink_first_nil {E : Type} wl m (f : E → T → bool * T * E) env :
  wl_rep wl [] m → wp (unlink_first_waiter f env) wl (λ r wl', r = (None, env) ∧ wl' = wl).
Proof.
  intros (nm & Hrep & ->). unfold unlink_first_waiter. wp_auto.
  rewrite (lr_head _ _ _ Hrep). by wp_auto.
Qed.

Lemma unlink_first_cons {E : Type} wl id q m v (f : E → T → bool * T * E) env b v' env' :
  wl_rep wl (id :: q) m → m !! id = Some v → f env v = (b, v', env') →
  wp (unlink_first_waiter f env) wl (λ r wl',
    r = (if b then Some (id, v') else None, env') ∧
    wl_rep wl' (if b then q else id :: q) (<[id:=v']> m) ∧ (wl_room wl → wl_room wl')).
Proof.
  intros Hrep Hm Hf. unfold unlink_first_waiter. wp_auto.
  destruct Hrep as (nm & Hrep & Hnm). rewrite (lr_head _ _ _ Hrep). simpl. wp_auto.
  wp_apply unlink_waiter_spec; [by exists nm|done..|].
  intros r wl' (-> & Hrep' & Hroom). wp_auto. split_and!; [by destruct b| |done].
  destruct b; [|done]. pose proof (lr_nodup _ _ _ Hrep) as [Hni _]%NoDup_cons.
  by rewrite filter_cons_False, filter_neq_id in Hrep' by naive_solver.
Qed.

Lemma waitlist_is_empty_spec wl q m : wl_rep wl q m → waitlist_is_empty wl = bool_decide (q = []).
Proof.
  intros (nm & Hrep & _). unfold waitlist_is_empty. rewrite (lr_head _ _ _ Hrep).
  apply bool_decide_ext. by destruct q.
Qed.

Lemma waiter_spec wl q m id v :
  wl_rep wl q m → m !! id = Some v → wp (waiter id) wl (λ v' wl', v' = v ∧ wl' = wl).
Proof.
  intros (nm & Hrep & ->) Hm. rewrite lookup_fmap in Hm.
  apply fmap_Some in Hm as (n & Hn & ->). unfold waiter. wp_auto.
  eapply wp_node; [apply Hrep|done|]. by wp_auto.
Qed.

Lemma set_waiter_spec wl q m id v :
  wl_rep wl q m → is_Some (m !! id) →
  wp (set_waiter id v) wl (λ _ wl', wl_rep wl' q (<[id:=v]> m) ∧ (wl_room wl → wl_room wl')).
Proof.
  intros (nm & Hrep & ->) [w Hm]. rewrite lookup_fmap in Hm.
  apply fmap_Some in Hm as (n & Hn & ->). unfold set_waiter. wp_auto.
  eapply wp_node; [apply Hrep|done|]. wp_auto. eapply wp_write_value; [done..|].
  intros wl' Hrep' Hroom. split; [|done]. eexists. split; [done|]. by rewrite fmap_value_insert.
Qed.

Lemma remove_unlinked_spec wl q m id v :
  wl_rep wl q m → m !! id = Some v → id ∉ q →
  wp (remove_unlinked_waiter id) wl (λ v' wl',
    v' = v ∧ wl_rep wl' q (delete id m) ∧ (wl_room wl → wl_room wl')).
Proof.
  intros (nm & [Ha Hh Ht Hl Hnd Hd] & ->) Hm Hni. rewrite lookup_fmap in Hm.
  apply fmap_Some in Hm as (n & Hn & ->). unfold remove_unlinked_waiter. wp_auto.
  eapply wp_node; [done..|]. wp_auto. pose proof (Hd _ _ Hn Hni) as Hln.
  apply wp_assert; [by rewrite bool_decide_eq_true|]. wp_auto.
  wp_apply remove_slot_spec; [done..|]. intros n' a (-> & Ha' & _ & Hs). wp_auto.
  split_and!; [done| |by apply room_same]. exists (delete id nm).
  split; [|by rewrite fmap_delete]. split; simpl; try done.
  - intros q1 x q2 Hq. destruct (Hl q1 x q2 Hq) as [w Hw]. exists w.
    by rewrite lookup_delete_ne by set_solver.
  - intros i n'. rewrite lookup_delete. case_decide; [done|]. by apply Hd.
Qed.

Lemma waitlist_new_rep : wl_rep (waitlist_new (T:=T)) [] ∅.
Proof.
  exists ∅. split; [|by rewrite fmap_empty]. split; simpl; [apply arena_new_rep|done..| | |].
  - by intros [] x q2.
  - constructor.
  - by intros id n.
Qed.

Lemma occupied_len_spec wl q m : wl_rep wl q m → occupied_len wl = size m.
Proof.
  intros (nm & Hrep & ->). unfold occupied_len. rewrite (rep_len _ _ (lr_arena _ _ _ Hrep)).
  rewrite map_size_fmap. lia.
Qed.

Lemma wl_rep_nodup wl q m : wl_rep wl q m → NoDup q.
Proof. intros (nm & Hrep & _). apply Hrep. Qed.

Lemma wl_rep_linked wl q m id : wl_rep wl q m → id ∈ q → is_Some (m !! id).
Proof.
  intros (nm & Hrep & ->) Hin.
  destruct (linked_lookup _ _ _ (lr_linked _ _ _ Hrep) Hin) as (l & v & Hv).
  rewrite lookup_fmap, Hv. by eexists.
Qed.

(** A linked waiter cannot be removed: the assertion of [remove_unlinked_waiter] stops it and the
    list is left as it was. *)
Lemma remove_linked_panics wl q m id :
  wl_rep wl q m → id ∈ q →
  remove_unlinked_waiter id wl = Panic "waiter must be unlinked before removal" wl.
Proof.
  intros (nm & Hrep & ->) Hin.
  destruct (linked_lookup _ _ _ (lr_linked _ _ _ Hrep) Hin) as (l & v & Hv).
  unfold remove_unlinked_waiter, node, mbind, M_bind, get, expect.
  by rewrite <-(rep_lookup _ _ (lr_arena _ _ _ Hrep)), Hv.
Qed.
End specs.

(** The doubly linked list implements the interface. *)
Global Instance waitlist_queue : WaitQueue WaitList := {|
  wq_new T := waitlist_new;
  wq_push_front T := push_front;
  wq_push_back T := push_back;
  wq_unlink T E := unlink_waiter;
  wq_unlink_first T E := unlink_first_waiter;
  wq_is_empty T := waitlist_is_empty;
  wq_waiter T := waiter;
  wq_set_waiter T := set_waiter;
  wq_remove T := remove_unlinked_waiter;
  wq_len T := occupied_len;
  wq_rep T := wl_rep;
  wq_room T := wl_room;
  wq_room_dec T wl := Z_lt_dec _ _;
  wq_new_rep T := waitlist_new_rep;
  wq_len_spec T := occupied_len_spec;
  wq_rep_nodup T := wl_rep_nodup;
  wq_rep_linked T := wl_rep_linked;
  wq_push_front_spec T := push_front_spec;
  wq_push_back_spec T := push_back_spec;
  wq_unlink_spec T E := unlink_waiter_spec;
  wq_unlink_first_nil T E := unlink_first_nil;
  wq_unlink_first_cons T E := unlink_first_cons;
  wq_is_empty_spec T := waitlist_is_empty_spec;
  wq_waiter_spec T := waiter_spec;
  wq_set_waiter_spec T := set_waiter_spec;
  wq_remove_spec T := remove_unlinked_spec;
|}.

(** ** The wait list as a queue over a store *)
Section refinement.
Context {T : Type}.

Inductive wl_cmd : Type :=
| PushFront (v : T)
| PushBack (v : T)
| Unlink (id : WaiterId) (f : T → bool * T)
| UnlinkFirst (f : T → bool * T)
| Remove (id : WaiterId).

Inductive wl_res : Type :=
| RPushed (id : WaiterId)
| RUnlinked (r : option (WaiterId * T))
| RRemoved (v : T).

Definition as_closure (f : T → bool * T) : unit → T → bool * T * unit :=
  λ _ v, let '(b, v') := f v in (b, v', tt).

Definition run_wl_cmd (c : wl_cmd) : M (WaitList T) wl_res :=
  match c with
  | PushFront v => id ← push_front v; mret (RPushed id)
  | PushBack v => id ← push_back v; mret (RPushed id)
  | Unlink id f =>
      '(r, _) ← unlink_waiter id (as_closure f) tt; mret (RUnlinked ((λ v, (id, v)) <$> r))
  | UnlinkFirst f => '(r, _) ← unlink_first_waiter (as_closure f) tt; mret (RUnlinked r)
  | Remove id => v ← remove_unlinked_waiter id; mret (RRemoved v)
  end.

(** Identifiers passed to the list are stored; only unlinked waiters are removed. *)
Definition wl_cmd_ok (q : list WaiterId) (m : gmap WaiterId T) (c : wl_cmd) : Prop :=
  match c with
  | Unlink id _ => is_Some (m !! id)
  | Remove id => is_Some (m !! id) ∧ id ∉ q
  | _ => True
  end.

(** The abstract queue: push at either end, unlink (which keeps the value), remove. *)
Inductive queue_step (q : list WaiterId) (m : gmap WaiterId T)
    : wl_cmd → wl_res → list WaiterId → gmap WaiterId T → Prop :=
| QPushFront v id :
    m !! id = None → queue_step q m (PushFront v) (RPushed id) (id :: q) (<[id:=v]> m)
| QPushBack v id :
    m !! id = None → queue_step q m (PushBack v) (RPushed id) (q ++ [id]) (<[id:=v]> m)
| QUnlink id f v v' :
    m !! id = Some v → f v = (true, v') →
    queue_step q m (Unlink id f) (RUnlinked (Some (id, v'))) (without id q) (<[id:=v']> m)
| QKeep id f v v' :
    m !! id = Some v → f v = (false, v') →
    queue_step q m (Unlink id f) (RUnlinked None) q (<[id:=v']> m)
| QFirstEmpty f : q = [] → queue_step q m (UnlinkFirst f) (RUnlinked None) q m
| QFirst f id q' v v' :
    q = id :: q' → m !! id = Some v → f v = (true, v') →
    queue_step q m (UnlinkFirst f) (RUnlinked (Some (id, v'))) q' (<[id:=v']> m)
| QFirstKeep f id q' v v' :
    q = id :: q' → m !! id = Some v → f v = (false, v') →
    queue_step q m (UnlinkFirst f) (RUnlinked None) q (<[id:=v']> m)
| QRemove id v :
    m !! id = Some v → id ∉ q → queue_step q m (Remove id) (RRemoved v) q (delete id m).
Hint Constructors queue_step : core.

(** C11: the doubly linked wait list refines a queue of identifiers over a store of values: every
    operation returns (no [expect] or assertion fails), gives the result of the abstract
    operation, and leaves a well-formed list, whatever sequence of operations built it. *)
Theorem waitlist_refines_queue (wl : WaitList T) (q : list WaiterId) (m : gmap WaiterId T)
    (c : wl_cmd) :
  wl_rep wl q m → wl_room wl → wl_cmd_ok q m c →
  wp (run_wl_cmd c) wl (λ r wl', ∃ q' m', queue_step q m c r q' m' ∧ wl_rep wl' q' m').
Proof.
  intros Hrep Hroom Hok. destruct c as [v|v|id f|f|id]; simpl in *; wp_auto.
  - wp_apply push_front_spec; [done..|]. intros id wl' [Hn Hrep']. wp_auto. eauto.
  - wp_apply push_back_spec; [done..|]. intros id wl' [Hn Hrep']. wp_auto. eauto.
  - destruct Hok as [v Hv]. destruct (f v) as [b v'] eqn:Hf.
    wp_apply unlink_waiter_spec; [done|done|unfold as_closure; by rewrite Hf|].
    intros r wl' (-> & Hrep' & _). destruct b; wp_auto; simpl; eauto.
  - destruct q as [|id q].
    + wp_apply unlink_first_nil; [done|]. intros r wl' [-> ->]. wp_auto. eauto.
    + destruct (wl_rep_linked _ _ _ id Hrep) as [v Hv]; [set_solver|].
      destruct (f v) as [b v'] eqn:Hf.
      wp_apply unlink_first_cons; [done|done|unfold as_closure; by rewrite Hf|].
      intros r wl' (-> & Hrep' & _). destruct b; wp_auto; simpl; eauto.
  - destruct Hok as [[v Hv] Hni]. wp_apply remove_unlinked_spec; [done..|].
    intros v' wl' (-> & Hrep' & _). wp_auto. eauto.
Qed.

(** The state a computation leaves behind. *)
Definition state_after {A : Type} (m : M (WaitList T) A) (wl : WaitList T) : WaitList T :=
  match m wl with Ret _ wl' | Panic _ wl' => wl' end.

Lemma push_back_after wl q m v id :
  wl_rep wl q m → wl_room wl → returns (push_back v) wl id (state_after (push_back v) wl) →
  wl_rep (state_after (push_back v) wl) (q ++ [id]) (<[id:=v]> m).
Proof. intros Hrep Hroom Hr. by apply (wp_returns_elim _ _ _ _ _ (push_back_spec wl q m v Hrep Hroom) Hr). Qed.
End refinement.
Arguments wl_cmd : clear implicits.
Arguments wl_res : clear implicits.

(** The queue of two waiters, built through the operations themselves. *)
Definition sample1 : WaitList nat := state_after (push_back 1%nat) waitlist_new.
Definition sample2 : WaitList nat := state_after (push_back 2%nat) sample1.

Lemma sample2_rep : wl_rep sample2 [1%positive; 2%positive] (<[2%positive := 2%nat]> (<[1%positive := 1%nat]> ∅)).
Proof.
  apply (push_back_after sample1 ([] ++ [1%positive])); [|vm_compute; done|vm_compute; done].
  apply (push_back_after waitlist_new []); [apply waitlist_new_rep|vm_compute; done|vm_compute; done].
Qed.

Lemma waitlist_refines_queue_witness :
  run_wl_cmd (Unlink 1%positive (λ v, (true, v + 10)%nat)) sample2 =
    Ret (RUnlinked (Some (1%positive, 11%nat)))
      (state_after (run_wl_cmd (Unlink 1%positive (λ v, (true, v + 10)%nat))) sample2) ∧
  wp (run_wl_cmd (Unlink 1%positive (λ v, (true, v + 10)%nat))) sample2 (λ r wl', ∃ q' m',
    queue_step [1%positive; 2%positive] (<[2%positive := 2%nat]> (<[1%positive := 1%nat]> ∅))
      (Unlink 1%positive (λ v, (true, v + 10)%nat)) r q' m' ∧ wl_rep wl' q' m').
Proof.
  split; [vm_compute; reflexivity|].
  apply waitlist_refines_queue; [apply sample2_rep|vm_compute; reflexivity|by eexists].
Defined.

(** A list of two waiters with given values, built through the operations. *)
Definition two_waiters {X : Type} (u v : X) : WaitList X :=
  state_after (push_back v) (state_after (push_back u) waitlist_new).

Lemma two_waiters_rep {X : Type} (u v : X) :
  wq_rep (two_waiters u v) [1%positive; 2%positive] (<[2%positive := v]> {[1%positive := u]}) ∧
  wq_room (two_waiters u v).
Proof.
  split; [|vm_compute; done].
  apply (push_back_after _ ([] ++ [1%positive])); [|vm_compute; done|vm_compute; done].
  apply (push_back_after waitlist_new [] ∅); [apply waitlist_new_rep|vm_compute; done|vm_compute; done].
Qed.

Lemma two_waiters_ok {X : Type} (waker_of : X → option Waker) (u v : X) :
  is_Some (waker_of u) → is_Some (waker_of v) →
  waiters_ok waker_of {[0%nat := Some 1%positive; 1%nat := Some 2%positive]} [1%positive; 2%positive]
    (<[2%positive := v]> {[1%positive := u]}).
Proof.
  intros Hu Hv. pose proof (waiters_ok_new _ _ _ _ 0 (waiters_ok_empty waker_of) (lookup_empty _)) as H.
  apply (waiters_ok_register _ _ _ _ 0 1 u) in H; [|apply lookup_insert_eq|done|set_solver|done].
  apply (waiters_ok_new _ _ _ _ 1) in H; [|done].
  apply (waiters_ok_register _ _ _ _ 1 2 v) in H; [|apply lookup_insert_eq|done|set_solver|done].
  rewrite !insert_insert_eq in H. rewrite insert_insert_ne in H by done. exact H.
Qed.
