(* ===== verification/Semaphore.v ===== *)
(** * The internal semaphore

    [asyncband/src/internal/semaphore.rs].  The permit count is an atomic that threads change with
    and without the queue lock, so the model is a system of threads: a [Pc] is the point an
    operation in flight has reached, and a step performs the next atomic access (a load, a
    compare-exchange, a locked section that touches only the queue).  The scheduler interleaves
    the steps of all threads.  This file holds the program; its invariant and the theorems are
    in SemaphoreSys. *)
From S2P Require Import Prelude Arena WakerBatch WaitQueue.

Record WaitNode : Type := mkNode {
  needed_permits : Z;
  waker : option Waker;
}.

(** An acquisition that is not being polled. *)
Record Acquire : Type := mkAcquire {
  requested_permits : Z;
  index : option WaiterId;
}.

(** The future (and the waker of its task) that asks for permits; [None] is a reduction. *)
Abbreviation owner := (option (nat * Waker)).

(** Program points.  [available] is the count the thread observed last. *)
Inductive Pc : Type :=
| TryAcquire (n available : Z)
| DrainPermits (up_to available : Z)
| Enqueue (o : owner) (enqueue_last : bool) (requested available : Z) (locked : bool)
| EnqueueCas (o : owner) (enqueue_last : bool) (requested available : Z) (locked : bool)
| EnqueuePush (o : owner) (enqueue_last : bool) (requested needed : Z)
| ReleaseHint (n available : Z)
| ReleaseCas (n available : Z)
| LockQueue (n : Z)
| Assign (remaining : Z) (batch : WakerBatch)
| Surplus (remaining : Z) (batch : WakerBatch)
| FetchAdd (remaining : Z) (batch : WakerBatch)
| UpdatePermits (remaining available : Z) (batch : WakerBatch)
| Unlock (remaining : Z) (batch : WakerBatch).

Record Sys (W : Type → Type) : Type := mkSys {
  available_permits : Z;
  contention_detected : bool;
  waiters : W WaitNode;
  (** The thread that holds the queue lock. *)
  lock : option nat;
  acquires : gmap nat Acquire;
  threads : gmap nat Pc;
}.
Arguments mkSys {W}.
Arguments available_permits {W}.
Arguments contention_detected {W}.
Arguments waiters {W}.
Arguments lock {W}.
Arguments acquires {W}.
Arguments threads {W}.

(** What a step shows: permits brought in by a release, handed out to an acquirer, removed by a
    reduction, lost to an overflow panic, and the tasks woken. *)
Record Obs : Type := mkObs {
  gained : Z;
  taken : Z;
  reduced : Z;
  lost : Z;
  woken : list Waker;
}.
Definition silent : Obs := mkObs 0 0 0 0 [].

Section semaphore.
Context {W : Type → Type} `{!WaitQueue W}.
Implicit Types (x : Sys W) (o : owner).

Definition set_available (a : Z) x : Sys W :=
  mkSys a (contention_detected x) (waiters x) (lock x) (acquires x) (threads x).
Definition set_contention (b : bool) x : Sys W :=
  mkSys (available_permits x) b (waiters x) (lock x) (acquires x) (threads x).
Definition set_waiters (w : W WaitNode) x : Sys W :=
  mkSys (available_permits x) (contention_detected x) w (lock x) (acquires x) (threads x).
Definition set_lock (l : option nat) x : Sys W :=
  mkSys (available_permits x) (contention_detected x) (waiters x) l (acquires x) (threads x).
Definition set_acquires (g : gmap nat Acquire) x : Sys W :=
  mkSys (available_permits x) (contention_detected x) (waiters x) (lock x) g (threads x).
Definition set_threads (g : gmap nat Pc) x : Sys W :=
  mkSys (available_permits x) (contention_detected x) (waiters x) (lock x) (acquires x) g.

Definition in_waiters {A : Type} (m : M (W WaitNode) A) : M (Sys W) A := zoom waiters set_waiters m.

Definition new (permits : Z) : Sys W := mkSys permits false wq_new None ∅ ∅.

(** The outcome of a step: the next program point, [None] when the operation has returned. *)
Abbreviation step := (M (Sys W) (option Pc * Obs)).

Definition goto (pc : Pc) : step := mret (Some pc, silent).
Definition finish (o : Obs) : step := mret (None, o).

Definition compare_exchange (expected next : Z) : M (Sys W) (result Z Z) :=
  a ← gets available_permits;
  if bool_decide (a = expected) then modify (set_available next);; mret (Ok a) else mret (Err a).

(** [try_acquire]: one turn of the loop. *)
Definition try_acquire (n available : Z) : step :=
  if bool_decide (available < n) then finish silent
  else
    r ← compare_exchange available (available - n);
    match r with
    | Ok _ => finish (mkObs 0 n 0 0 [])
    | Err actual => goto (TryAcquire n actual)
    end.

(** [drain_permits]: one turn of the loop; a weak exchange may fail spuriously. *)
Definition drain_permits (spurious : bool) (up_to available : Z) : step :=
  if spurious then a ← gets available_permits; goto (DrainPermits up_to a)
  else
    r ← compare_exchange available (saturating_sub available up_to);
    match r with
    | Ok _ => finish (mkObs 0 (Z.min up_to available) 0 0 [])
    | Err actual => goto (DrainPermits up_to actual)
    end.

(** [acquired_or_enqueue]: the permits still needed and the next count. *)
Definition needed_next (requested available : Z) : Z * Z :=
  if bool_decide (requested <= available) then (0, available - requested)
  else (requested - available, 0).

(** The top of its loop takes the lock when permits are missing, *)
Definition enqueue_top (t : nat) o (enqueue_last : bool) (requested available : Z) (locked : bool) : step :=
  let (needed, _) := needed_next requested available in
  if bool_decide (0 < needed) && negb locked
  then modify (set_lock (Some t));; goto (EnqueueCas o enqueue_last requested available true)
  else goto (EnqueueCas o enqueue_last requested available locked).

(** the exchange takes what is there, *)
Definition enqueue_cas o (enqueue_last : bool) (requested available : Z) (locked : bool) : step :=
  let (needed, next) := needed_next requested available in
  r ← compare_exchange available next;
  match r with
  | Err actual => goto (Enqueue o enqueue_last requested actual locked)
  | Ok _ =>
      let reduction := match o with None => requested | Some _ => 0 end in
      if bool_decide (needed = 0) then
        (if locked then modify (set_lock None) else mret tt);;
        match o with
        | Some (f, _) =>
            modify (λ x, set_acquires (<[f:=mkAcquire requested None]> (acquires x)) x);;
            finish (mkObs 0 requested 0 0 [])
        | None => finish (mkObs 0 0 requested 0 [])
        end
      else
        assert_true locked "lock must be acquired when needed > 0";;
        mret (Some (EnqueuePush o enqueue_last requested needed), mkObs 0 0 reduction 0 [])
  end.

(** and the rest is queued. *)
Definition enqueue_push o (enqueue_last : bool) (requested needed : Z) : step :=
  let node := mkNode needed (snd <$> o) in
  id ← in_waiters (if enqueue_last then wq_push_back node else wq_push_front node);
  modify (set_lock None);;
  match o with
  | Some (f, _) =>
      modify (λ x, set_acquires (<[f:=mkAcquire requested (Some id)]> (acquires x)) x);;
      finish silent
  | None => finish silent
  end.

(** [try_update_permits]; [None] is the overflow panic. *)
Definition try_update_permits (expected released : Z) : M (Sys W) (option (result unit Z)) :=
  match checked_add usize_max expected released with
  | None => mret None
  | Some next =>
      r ← compare_exchange expected next;
      mret (Some (match r with Ok _ => Ok tt | Err actual => Err actual end))
  end.

(** [release] reads the hint, *)
Definition release_hint (n available : Z) : step :=
  c ← gets contention_detected;
  if (c : bool) then goto (LockQueue n) else goto (ReleaseCas n available).

(** then tries the lock-free update once. *)
Definition release_cas (n available : Z) : step :=
  r ← try_update_permits available n;
  match r with
  | None => finish (mkObs 0 0 0 n [])
  | Some (Ok _) => finish silent
  | Some (Err _) => goto (LockQueue n)
  end.

(** [distribute_permits] starts with the queue locked, *)
Definition lock_queue (t : nat) (n : Z) : step :=
  modify (set_lock (Some t));; goto (Assign n batch_new).

(** assigns permits to the head of the queue, *)
Definition assign_closure (remaining : Z) (node : WaitNode) : bool * WaitNode * Z :=
  let assigned := Z.min (needed_permits node) remaining in
  (bool_decide (needed_permits node - assigned = 0),
   mkNode (needed_permits node - assigned) (waker node), remaining - assigned).

Definition assign (remaining : Z) (batch : WakerBatch) : step :=
  if bool_decide (0 < remaining) && negb (will_spill batch) then
    '(r, remaining) ← in_waiters (wq_unlink_first assign_closure remaining);
    match r with
    | None => goto (Surplus remaining batch)
    | Some (id, node) =>
        match waker node with
        | Some wk =>
            in_waiters (wq_set_waiter id (mkNode (needed_permits node) None));;
            batch ← batch_push wk batch;
            goto (Assign remaining batch)
        | None => in_waiters (wq_remove id);; goto (Assign remaining batch)
        end
    end
  else goto (Surplus remaining batch).

(** makes a surplus available once the queue is empty, *)
Definition surplus (remaining : Z) (batch : WakerBatch) : step :=
  x ← get;
  if bool_decide (0 < remaining) && wq_is_empty (waiters x) then
    if bool_decide (available_permits x = 0) then goto (FetchAdd remaining batch)
    else goto (UpdatePermits remaining (available_permits x) batch)
  else goto (Unlock remaining batch).

Definition fetch_add (remaining : Z) (batch : WakerBatch) : step :=
  modify (λ x, set_available (wrapping_add usize_max (available_permits x) remaining) x);;
  goto (Unlock 0 batch).

Definition update_permits (remaining available : Z) (batch : WakerBatch) : step :=
  r ← try_update_permits available remaining;
  match r with
  | None => modify (set_lock None);; finish (mkObs 0 0 0 remaining [])
  | Some (Ok _) => modify (set_contention false);; goto (Unlock 0 batch)
  | Some (Err actual) => modify (set_contention true);; goto (UpdatePermits remaining actual batch)
  end.

(** and wakes the batch without the lock. *)
Definition unlock (remaining : Z) (batch : WakerBatch) : step :=
  modify (set_lock None);;
  ws ← batch_wake batch;
  mret (if bool_decide (remaining = 0) then None else Some (LockQueue remaining), mkObs 0 0 0 0 ws).

(** [notify_all]: the permits created and the wakers collected, per waiter. *)
Definition notify_first_waiter : M (W WaitNode) (option (Z * option Waker)) :=
  '(r, created) ← wq_unlink_first
    (λ (_ : Z) node, (true, mkNode 0 (waker node), needed_permits node)) 0;
  match r with
  | None => mret None
  | Some (id, node) =>
      match waker node with
      | Some wk => wq_set_waiter id (mkNode (needed_permits node) None);; mret (Some (created, Some wk))
      | None => wq_remove id;; mret (Some (created, None))
      end
  end.

Definition notify_all : step :=
  x ← get;
  rs ← in_waiters (while_some (S (wq_len (waiters x))) notify_first_waiter);
  ws ← run_local batch_new (push_iter (omap snd rs);; wake_all);
  finish (mkObs (foldr Z.add 0 (fst <$> rs)) 0 0 0 ws).

Definition release_if_waiters (t : nat) (n : Z) : step :=
  x ← get;
  if wq_is_empty (waiters x) then finish silent
  else modify (set_lock (Some t));; mret (Some (Assign n batch_new), mkObs n 0 0 0 []).

(** [Acquire::poll_once] of a queued acquisition: one locked section. *)
Definition poll_queued (f : nat) (requested : Z) (id : WaiterId) (cx : Waker) : step :=
  node ← in_waiters (wq_waiter id);
  if bool_decide (0 < needed_permits node) then
    let (slot, _) := register_waker (waker node) cx in
    in_waiters (wq_set_waiter id (mkNode (needed_permits node) slot));;
    finish silent
  else
    in_waiters (wq_remove id);;
    modify (λ x, set_acquires (<[f:=mkAcquire requested None]> (acquires x)) x);;
    finish (mkObs 0 requested 0 0 []).

(** [Acquire::drop] of a queued acquisition: its permits are distributed again. *)
Definition drop_queued (t f : nat) (requested : Z) (id : WaiterId) : step :=
  '(_, acquired) ← in_waiters (wq_unlink id
    (λ (_ : Z) node, (true, mkNode 0 (waker node), requested - needed_permits node)) 0);
  in_waiters (wq_remove id);;
  modify (λ x, set_acquires (delete f (acquires x)) x);;
  if bool_decide (0 < acquired)
  then modify (set_lock (Some t));; goto (Assign acquired batch_new)
  else finish silent.

(** ** The operations *)
Inductive Op : Type :=
| OTryAcquire (n : Z)
| ODrain (up_to : Z)
| OReduce (n : Z)
| ORelease (n : Z)
| OReleaseWithLock (n : Z)
| OReleaseIfWaiters (n : Z)
| ONotifyAll
| OPoll (f : nat) (cx : Waker)
| ODrop (f : nat).

(** The first step of an operation, up to and including its first load. *)
Definition start (t : nat) (op : Op) : step :=
  x ← get;
  let available := available_permits x in
  match op with
  | OTryAcquire n => goto (TryAcquire n available)
  | ODrain up_to => if bool_decide (up_to = 0) then finish silent else goto (DrainPermits up_to available)
  | OReduce n => goto (Enqueue None false n available false)
  | ORelease n =>
      if bool_decide (n = 0) then finish silent
      else mret (Some (if bool_decide (available ≠ 0) then ReleaseHint n available else LockQueue n),
                 mkObs n 0 0 0 [])
  | OReleaseWithLock n =>
      if bool_decide (n = 0) then finish silent else mret (Some (LockQueue n), mkObs n 0 0 0 [])
  | OReleaseIfWaiters n => release_if_waiters t n
  | ONotifyAll => notify_all
  | OPoll f cx =>
      a ← expect (acquires x !! f) "no such future";
      match index a with
      | Some id => poll_queued f (requested_permits a) id cx
      | None =>
          modify (set_acquires (delete f (acquires x)));;
          goto (Enqueue (Some (f, cx)) true (requested_permits a) available false)
      end
  | ODrop f =>
      a ← expect (acquires x !! f) "no such future";
      match index a with
      | Some id => drop_queued t f (requested_permits a) id
      | None => modify (set_acquires (delete f (acquires x)));; finish silent
      end
  end.

(** The next step of an operation. *)
Definition next_step (t : nat) (spurious : bool) (pc : Pc) : step :=
  match pc with
  | TryAcquire n available => try_acquire n available
  | DrainPermits up_to available => drain_permits spurious up_to available
  | Enqueue o last requested available locked => enqueue_top t o last requested available locked
  | EnqueueCas o last requested available locked => enqueue_cas o last requested available locked
  | EnqueuePush o last requested needed => enqueue_push o last requested needed
  | ReleaseHint n available => release_hint n available
  | ReleaseCas n available => release_cas n available
  | LockQueue n => lock_queue t n
  | Assign remaining batch => assign remaining batch
  | Surplus remaining batch => surplus remaining batch
  | FetchAdd remaining batch => fetch_add remaining batch
  | UpdatePermits remaining available batch => update_permits remaining available batch
  | Unlock remaining batch => unlock remaining batch
  end.

(** ** The system *)
Inductive Label : Type :=
| AcquireNew (f : nat) (n : Z)
| Start (t : nat) (op : Op)
| Step (t : nat) (spurious : bool).

(** The step takes the queue lock. *)
Definition wants_lock (pc : Pc) : bool :=
  match pc with
  | LockQueue _ => true
  | Enqueue _ _ requested available false => bool_decide (available < requested)
  | _ => false
  end.

Definition lock_free x : bool := bool_decide (lock x = None).

Definition count_ok (n : Z) : bool := bool_decide (0 <= n <= usize_max).

Definition op_enabled (op : Op) x : bool :=
  match op with
  | OTryAcquire n | ODrain n | OReduce n | ORelease n | OReleaseWithLock n => count_ok n
  | OReleaseIfWaiters n => count_ok n && lock_free x
  | ONotifyAll => lock_free x
  | OPoll f _ | ODrop f =>
      match acquires x !! f with
      | Some a => match index a with Some _ => lock_free x | None => true end
      | None => false
      end
  end.

(** The future a thread is polling. *)
Definition polled (pc : Pc) : option nat :=
  match pc with
  | Enqueue o _ _ _ _ | EnqueueCas o _ _ _ _ | EnqueuePush o _ _ _ => fst <$> o
  | _ => None
  end.

(** Futures and threads have names of their own; a thread waits for the lock; storage for one
    more waiter is available when one is pushed. *)
Definition fresh_future (f : nat) x : bool :=
  bool_decide (acquires x !! f = None) &&
  bool_decide (map_Forall (λ _ pc, polled pc ≠ Some f) (threads x)).

Definition enabled (l : Label) x : bool :=
  match l with
  | AcquireNew f n => count_ok n && fresh_future f x
  | Start t op => bool_decide (threads x !! t = None) && op_enabled op x
  | Step t _ =>
      match threads x !! t with
      | Some pc =>
          implb (wants_lock pc) (lock_free x) &&
          match pc with EnqueuePush _ _ _ _ => bool_decide (wq_room (waiters x)) | _ => true end
      | None => false
      end
  end.

(** Records the program point a thread has reached. *)
Definition move (t : nat) (pc : option Pc) : M (Sys W) unit :=
  modify (λ x, set_threads (match pc with Some pc => <[t:=pc]> (threads x) | None => delete t (threads x) end) x).

Definition exec (l : Label) : M (Sys W) Obs :=
  x ← get;
  match l with
  | AcquireNew f n => put (set_acquires (<[f:=mkAcquire n None]> (acquires x)) x);; mret silent
  | Start t op => '(pc, o) ← start t op; move t pc;; mret o
  | Step t spurious =>
      pc ← expect (threads x !! t) "no such thread";
      '(pc, o) ← next_step t spurious pc;
      move t pc;;
      mret o
  end.
End semaphore.

#[export] Hint Unfold in_waiters : band_zoom.
