(* ===== verification/SemaphoreSys.v ===== *)
(** * Correctness of the internal semaphore

    The invariant of the thread system of Semaphore and its preservation by every step of every
    interleaving: permits are conserved, available permits and queued waiters never coexist, the
    unchecked [fetch_add] of a release cannot overflow, and an overflow panic changes nothing. *)
From S2P Require Import Prelude Arena WakerBatch WaitQueue WaitList Semaphore.

(** Whether reductions are used: without them every queued node belongs to an acquisition. *)
Class DebtPolicy : Type := debts : bool.
Definition with_debts : DebtPolicy := true.
Definition without_debts : DebtPolicy := false.

(** ** The wait queue and its owners *)

(** Permits reserved for a queued acquisition: requested in full, minus what its node needs. *)
Definition registered (a : Acquire) : Z :=
  match index a with Some _ => requested_permits a | None => 0 end.

Section store.
Context {DP : DebtPolicy}.
Implicit Types (acqs : gmap nat Acquire) (q : list WaiterId) (m : gmap WaiterId WaitNode).

(** The permits assigned to queued acquisitions, less the debt of reductions. *)
Definition credit acqs m : Z := map_sum registered acqs - map_sum needed_permits m.

(** A linked node needs permits.  It belongs to one acquisition, whose waker it holds, or is a
    debt of the queue itself; a detached node belongs to an acquisition and needs nothing. *)
Record store_ok acqs q m : Prop := {
  so_linked : ∀ id n, m !! id = Some n → id ∈ q → 0 < needed_permits n;
  so_detached : ∀ id n, m !! id = Some n → id ∉ q → n = mkNode 0 None;
  so_owner : ∀ f r id, acqs !! f = Some (mkAcquire r (Some id)) →
    ∃ n, m !! id = Some n ∧ needed_permits n <= r ∧ (id ∈ q → is_Some (waker n));
  so_inj : ∀ f g r s id, acqs !! f = Some (mkAcquire r (Some id)) →
    acqs !! g = Some (mkAcquire s (Some id)) → f = g;
  so_owned : ∀ id n, m !! id = Some n → (id ∈ q ∧ waker n = None ∧ debts = true) ∨
    ∃ f r, acqs !! f = Some (mkAcquire r (Some id));
  so_counts : ∀ f a, acqs !! f = Some a → 0 <= requested_permits a <= usize_max;
}.

Lemma store_empty : store_ok ∅ [] ∅.
Proof. split; intros; simplify_map_eq. Qed.

(** Futures without a node come and go. *)
Lemma store_unregistered acqs q m f a :
  store_ok acqs q m → (∀ b, acqs !! f = Some b → index b = None) → index a = None →
  0 <= requested_permits a <= usize_max →
  store_ok (<[f:=a]> acqs) q m ∧ credit (<[f:=a]> acqs) m = credit acqs m.
Proof.
  intros [Hl Hd Ho Hi Hw Hc] Hf Ha Hr. split; [split; try done|].
  - intros g r id. rewrite lookup_insert. case_decide; [|by apply Ho]. intros [= ->]. done.
  - intros g h r s id. rewrite !lookup_insert. repeat case_decide; intros; simplify_eq/=; eauto.
  - intros id n Hn. destruct (Hw id n Hn) as [|(g & r & Hg)]; [by left|]. right. exists g, r.
    rewrite lookup_insert_ne; [done|]. intros <-. by apply Hf in Hg.
  - intros g b. rewrite lookup_insert. case_decide; intros; simplify_eq; eauto.
  - unfold credit. destruct (acqs !! f) as [b|] eqn:Hb.
    + rewrite (map_sum_update _ _ _ b) by done. unfold registered. rewrite Ha, (Hf b) by done. lia.
    + rewrite map_sum_insert by done. unfold registered at 1. rewrite Ha. lia.
Qed.

Lemma store_forget acqs q m f a :
  store_ok acqs q m → acqs !! f = Some a → index a = None →
  store_ok (delete f acqs) q m ∧ credit (delete f acqs) m = credit acqs m.
Proof.
  intros [Hl Hd Ho Hi Hw Hc] Hf Ha. split; [split; try done|].
  - intros g r id [_ Hg]%lookup_delete_Some. by apply (Ho g).
  - intros g h r s id [_ Hg]%lookup_delete_Some [_ Hh]%lookup_delete_Some. eauto.
  - intros id n Hn. destruct (Hw id n Hn) as [|(g & r & Hg)]; [by left|]. right. exists g, r.
    rewrite lookup_delete_ne; [done|]. intros <-. rewrite Hf in Hg. by simplify_eq/=.
  - intros g b [_ Hg]%lookup_delete_Some. eauto.
  - unfold credit. rewrite (map_sum_delete _ _ _ a) by done. unfold registered at 2. rewrite Ha. lia.
Qed.

(** An acquisition queues for the [n] of its [r] permits that are missing. *)
Lemma store_register acqs q q' m f r id n cx :
  store_ok acqs q m → acqs !! f = None → m !! id = None → 0 < n <= r → r <= usize_max →
  (∀ i, i ∈ q' ↔ i = id ∨ i ∈ q) →
  store_ok (<[f:=mkAcquire r (Some id)]> acqs) q' (<[id:=mkNode n (Some cx)]> m) ∧
  credit (<[f:=mkAcquire r (Some id)]> acqs) (<[id:=mkNode n (Some cx)]> m) = credit acqs m + r - n.
Proof.
  intros [Hl Hd Ho Hi Hw Hc] Hf Hid Hn Hr Hq.
  assert (∀ g s, acqs !! g ≠ Some (mkAcquire s (Some id))) as Hno.
  { intros g s (? & ? & _)%Ho. congruence. }
  split; [split|].
  - intros i k. rewrite lookup_insert, Hq. case_decide; intros; simplify_eq/=; [lia|naive_solver].
  - intros i k. rewrite lookup_insert, Hq. case_decide; intros; simplify_eq/=; [naive_solver|].
    apply Hd with i; naive_solver.
  - intros g s i. rewrite lookup_insert. case_decide; intros Hg; simplify_eq.
    + exists (mkNode n (Some cx)). rewrite lookup_insert_eq. simpl. split_and!; eauto; lia.
    + destruct (Ho g s i Hg) as (k & Hk & Hs & Hwk). exists k.
      rewrite lookup_insert_ne, Hq by congruence. split_and!; try done. intros [->|]; [congruence|auto].
  - intros g h s u i. rewrite !lookup_insert. repeat case_decide; intros; simplify_eq; eauto;
      exfalso; by eapply Hno.
  - intros i k. rewrite lookup_insert, Hq. case_decide; intros Hk; simplify_eq.
    + right. exists f, r. apply lookup_insert_eq.
    + destruct (Hw i k Hk) as [(? & ? & ?)|(g & s & Hg)]; [by auto|]. right. exists g, s.
      rewrite lookup_insert_ne; [done|]. congruence.
  - intros g a. rewrite lookup_insert. case_decide; intros; simplify_eq/=; [lia|eauto].
  - unfold credit. rewrite !map_sum_insert by done. unfold registered at 1. simpl. lia.
Qed.

(** A reduction leaves a debt of [n] permits. *)
Lemma store_debt acqs q q' m id n :
  store_ok acqs q m → m !! id = None → 0 < n → debts = true → (∀ i, i ∈ q' ↔ i = id ∨ i ∈ q) →
  store_ok acqs q' (<[id:=mkNode n None]> m) ∧
  credit acqs (<[id:=mkNode n None]> m) = credit acqs m - n.
Proof.
  intros [Hl Hd Ho Hi Hw Hc] Hid Hn Hdbt Hq. split; [split; try done|].
  - intros i k. rewrite lookup_insert, Hq. case_decide; intros; simplify_eq/=; [lia|naive_solver].
  - intros i k. rewrite lookup_insert, Hq. case_decide; intros; simplify_eq/=; [naive_solver|].
    apply Hd with i; naive_solver.
  - intros g s i Hg. destruct (Ho g s i Hg) as (k & Hk & Hs & Hwk). exists k.
    rewrite lookup_insert_ne, Hq by congruence. split_and!; try done. intros [->|]; [congruence|auto].
  - intros i k. rewrite lookup_insert, Hq. case_decide; intros Hk; simplify_eq/=; [by auto|].
    destruct (Hw i k Hk) as [(? & ? & ?)|]; auto.
  - unfold credit. rewrite map_sum_insert by done. simpl. lia.
Qed.

(** Permits are assigned to a linked node that needs more, or its waker is refreshed. *)
Lemma store_update acqs q m id n n' :
  store_ok acqs q m → m !! id = Some n → id ∈ q → 0 < needed_permits n' <= needed_permits n →
  (is_Some (waker n') ↔ is_Some (waker n)) →
  store_ok acqs q (<[id:=n']> m) ∧
  credit acqs (<[id:=n']> m) = credit acqs m + (needed_permits n - needed_permits n').
Proof.
  intros [Hl Hd Ho Hi Hw Hc] Hid Hin Hn Hwk. split; [split; try done|].
  - intros i k. rewrite lookup_insert. case_decide; intros; simplify_eq/=; [lia|eauto].
  - intros i k. rewrite lookup_insert. case_decide; intros; simplify_eq/=; [done|eauto].
  - intros g s i Hg. destruct (Ho g s i Hg) as (k & Hk & Hs & Hwk'). rewrite lookup_insert.
    case_decide; simplify_eq; [|by eauto]. exists n'. split_and!; [done|lia|]. intros. by apply Hwk, Hwk'.
  - intros i k. rewrite lookup_insert. case_decide; intros Hk; simplify_eq; [|by eauto].
    destruct (Hw i n Hid) as [(_ & Hn0 & ?)|]; [left|by right]. split_and!; try done.
    destruct (waker k) eqn:E; [|done]. destruct (proj1 Hwk) as [? Hx]; [by eauto|congruence].
  - unfold credit. rewrite (map_sum_update _ _ _ n) by done. lia.
Qed.

(** A satisfied acquisition is detached and stays with its future. *)
Lemma store_detach acqs id q m n :
  store_ok acqs (id :: q) m → NoDup (id :: q) → m !! id = Some n → is_Some (waker n) →
  store_ok acqs q (<[id:=mkNode 0 None]> m) ∧
  credit acqs (<[id:=mkNode 0 None]> m) = credit acqs m + needed_permits n.
Proof.
  intros [Hl Hd Ho Hi Hw Hc] [Hni _]%NoDup_cons Hid Hwk. split; [split; try done|].
  - intros i k. rewrite lookup_insert. case_decide; intros; simplify_eq/=; [done|].
    apply (Hl i); [done|set_solver].
  - intros i k. rewrite lookup_insert. case_decide; intros; simplify_eq/=; [done|].
    apply Hd with i; set_solver.
  - intros g s i Hg. destruct (Ho g s i Hg) as (k & Hk & Hs & Hwk'). rewrite lookup_insert.
    case_decide; simplify_eq.
    + exists (mkNode 0 None). split_and!; [done| |done].
      destruct (acqs !! g) eqn:E; [|done]. simplify_eq. specialize (Hc _ _ E). simpl in *. lia.
    + exists k. split_and!; try done. intros. apply Hwk'. set_solver.
  - intros i k. rewrite lookup_insert. case_decide; intros Hk; simplify_eq.
    + destruct (Hw i n Hid) as [(_ & Hn & _)|]; [|by right]. rewrite Hn in Hwk. by destruct Hwk.
    + destruct (Hw i k Hk) as [(Hin & Hn & ?)|]; [|by right]. left. split_and!; [set_solver|done|done].
  - unfold credit. rewrite (map_sum_update _ _ _ n) by done. simpl. lia.
Qed.

(** A paid debt disappears. *)
Lemma store_paid acqs id q m n :
  store_ok acqs (id :: q) m → NoDup (id :: q) → m !! id = Some n → waker n = None →
  store_ok acqs q (delete id m) ∧ credit acqs (delete id m) = credit acqs m + needed_permits n.
Proof.
  intros [Hl Hd Ho Hi Hw Hc] [Hni _]%NoDup_cons Hid Hwk.
  assert (∀ g s, acqs !! g ≠ Some (mkAcquire s (Some id))) as Hno.
  { intros g s (k & Hk & _ & Hx)%Ho. simplify_eq. rewrite Hwk in Hx. destruct Hx; [set_solver|done]. }
  split; [split; try done|].
  - intros i k [Hne Hk]%lookup_delete_Some Hin. apply (Hl i); [done|set_solver].
  - intros i k [Hne Hk]%lookup_delete_Some Hin. apply Hd with i; [done|set_solver].
  - intros g s i Hg. destruct (Ho g s i Hg) as (k & Hk & Hs & Hwk'). exists k.
    rewrite lookup_delete_ne by (intros ->; by eapply Hno). split_and!; try done.
    intros. apply Hwk'. set_solver.
  - intros i k [Hne Hk]%lookup_delete_Some. destruct (Hw i k Hk) as [(Hin & Hn & ?)|]; [|by right].
    left. split_and!; [set_solver|done|done].
  - unfold credit. rewrite (map_sum_delete _ _ _ n) by done. lia.
Qed.

(** The owner takes its node away: [f] keeps no node. *)
Lemma store_remove acqs acqs' q m f r id n :
  store_ok acqs q m → acqs !! f = Some (mkAcquire r (Some id)) → m !! id = Some n →
  acqs' = delete f acqs ∨ acqs' = <[f:=mkAcquire r None]> acqs →
  store_ok acqs' (without id q) (delete id m) ∧
  credit acqs' (delete id m) = credit acqs m - (r - needed_permits n).
Proof.
  intros [Hl Hd Ho Hi Hw Hc] Hf Hid Hacqs.
  assert (∀ g s i, acqs' !! g = Some (mkAcquire s (Some i)) ↔
    g ≠ f ∧ acqs !! g = Some (mkAcquire s (Some i))) as Hg'.
  { intros g s i. destruct Hacqs as [->| ->]; [rewrite lookup_delete_Some; naive_solver|].
    rewrite lookup_insert. case_decide; naive_solver. }
  assert (∀ i, i ∈ without id q ↔ i ≠ id ∧ i ∈ q) as Hq by (intros i; by rewrite list_elem_of_filter).
  split; [split|].
  - intros i k [Hne Hk]%lookup_delete_Some [_ Hin]%Hq. by apply (Hl i).
  - intros i k [Hne Hk]%lookup_delete_Some Hin. apply Hd with i; [done|]. rewrite Hq in Hin. naive_solver.
  - intros g s i [Hne Hg]%Hg'. destruct (Ho g s i Hg) as (k & Hk & Hs & Hwk). exists k.
    rewrite lookup_delete_ne, Hq by (intros ->; apply Hne; exact (Hi _ _ _ _ _ Hg Hf)). naive_solver.
  - intros g h s u i [_ Hg]%Hg' [_ Hh]%Hg'. eauto.
  - intros i k [Hne Hk]%lookup_delete_Some. rewrite Hq.
    destruct (Hw i k Hk) as [(? & ? & ?)|(g & s & Hg)]; [left; done|]. right. exists g, s. apply Hg'.
    split; [|done]. intros ->. simplify_eq.
  - intros g a Ha. destruct Hacqs as [->| ->]; [apply lookup_delete_Some in Ha as [_ ?]; eauto|].
    rewrite lookup_insert in Ha. case_decide; [|by eauto]. simplify_eq/=. apply (Hc _ _ Hf).
  - unfold credit. rewrite (map_sum_delete _ _ _ n) by done.
    assert (map_sum registered acqs' = map_sum registered acqs - r) as ->; [|lia].
    destruct Hacqs as [->| ->]; [by rewrite (map_sum_delete _ _ _ _ Hf)|].
    rewrite (map_sum_update _ _ _ _ _ Hf). unfold registered at 2 3. simpl. lia.
Qed.

(** Without debts no acquisition is assigned more than it requested, nor less than nothing. *)
Lemma credit_nonneg acqs q m : debts = false → store_ok acqs q m → 0 <= credit acqs m.
Proof.
  intros Hdbt. revert acqs q. induction (size m) as [|k IH] eqn:Hk in m |- *; intros acqs q Hst.
  - apply map_size_empty_inv in Hk as ->. unfold credit. rewrite map_sum_empty, Z.sub_0_r.
    apply map_sum_nonneg. intros f [r i] Hf. pose proof (so_counts _ _ _ Hst f _ Hf) as Hr.
    unfold registered. simpl in *. destruct i; lia.
  - destruct (map_choose m) as (id & n & Hid); [by intros ->|].
    destruct (so_owned _ _ _ Hst id n Hid) as [(_ & _ & ?)|(f & r & Hf)]; [congruence|].
    destruct (so_owner _ _ _ Hst f r id Hf) as (n' & Hid' & Hn & _).
    assert (n' = n) as -> by congruence.
    destruct (store_remove acqs (delete f acqs) q m f r id n Hst Hf Hid) as [Hst' Hcr]; [by left|].
    apply IH in Hst'; [lia|]. rewrite map_size_delete_Some by eauto. lia.
Qed.
End store.

(** ** The invariant of the threads *)

(** The operation holds the queue lock. *)
Definition holds (pc : Pc) : bool :=
  match pc with
  | Enqueue _ _ _ _ locked | EnqueueCas _ _ _ _ locked => locked
  | EnqueuePush _ _ _ _ | Assign _ _ | Surplus _ _ | FetchAdd _ _ | UpdatePermits _ _ _ | Unlock _ _ => true
  | _ => false
  end.

(** The permits an operation carries; a reduction that is about to queue carries a debt. *)
Definition in_flight (pc : Pc) : Z :=
  match pc with
  | ReleaseHint n _ | ReleaseCas n _ | LockQueue n => n
  | Assign r _ | Surplus r _ | FetchAdd r _ | UpdatePermits r _ _ | Unlock r _ => r
  | EnqueuePush o _ requested needed => match o with Some _ => requested - needed | None => - needed end
  | _ => 0
  end.

(** What an operation knows of the count [a] and the queue [q] at each program point. *)
Definition in_range (n : Z) : Prop := 0 <= n <= usize_max.

Definition owner_ok {DP : DebtPolicy} (o : owner) : Prop := o = None → debts = true.

Definition pc_ok {DP : DebtPolicy} (a : Z) (q : list WaiterId) (pc : Pc) : Prop :=
  match pc with
  | TryAcquire n av | DrainPermits n av => in_range n ∧ in_range av
  | Enqueue o _ n av _ => in_range n ∧ in_range av ∧ owner_ok o
  | EnqueueCas o _ n av locked => in_range n ∧ in_range av ∧ (av < n → locked = true) ∧ owner_ok o
  | EnqueuePush o _ requested needed => in_range requested ∧ 0 < needed <= requested ∧ a = 0 ∧ owner_ok o
  | ReleaseHint n av | ReleaseCas n av => in_range n ∧ 0 < n ∧ in_range av ∧ 0 < av
  | LockQueue n => in_range n ∧ 0 < n
  | Assign r b | Surplus r b => in_range r ∧ ∃ ws, batch_rep b ws ∧ (ws ≠ [] → a = 0)
  | FetchAdd r b => in_range r ∧ 0 < r ∧ q = [] ∧ a = 0 ∧ ∃ ws, batch_rep b ws
  | UpdatePermits r av b => in_range r ∧ 0 < r ∧ q = [] ∧ in_range av ∧ batch_rep b []
  | Unlock r b => in_range r ∧ ∃ ws, batch_rep b ws
  end.

(** Only the lock holder depends on the queue, and on a count of zero staying zero. *)
Lemma pc_ok_stable {DP : DebtPolicy} a q a' q' pc :
  pc_ok a q pc → (holds pc = true → q' = q ∧ (a = 0 → a' = 0)) → pc_ok a' q' pc.
Proof. destruct pc; simpl; naive_solver. Qed.

Section invariant.
Context {W : Type → Type} `{!WaitQueue W} {DP : DebtPolicy}.
Implicit Types (x : Sys W) (B : Z).

Definition held (pc : option Pc) : bool := from_option holds false pc.
Definition flight (pc : option Pc) : Z := from_option in_flight 0 pc.
Definition borrowed (pc : option Pc) : option nat := pc ≫= polled.

(** The future a thread has borrowed is in nobody else's hands. *)
Definition polled_ok x : Prop :=
  ∀ t pc f, threads x !! t = Some pc → polled pc = Some f →
    acquires x !! f = None ∧ ∀ t' pc', threads x !! t' = Some pc' → polled pc' = Some f → t' = t.

(** [B] is the balance of permits: brought in, minus handed out, reduced or lost. *)
Record inv B x q m : Prop := {
  in_rep : wq_rep (waiters x) q m;
  in_store : store_ok (acquires x) q m;
  in_avail : in_range (available_permits x);
  in_empty : q ≠ [] → available_permits x = 0;
  in_lock : ∀ t, lock x = Some t ↔ held (threads x !! t) = true;
  in_pcs : ∀ t pc, threads x !! t = Some pc → pc_ok (available_permits x) q pc;
  in_polled : polled_ok x;
  in_sum : available_permits x + map_sum in_flight (threads x) + credit (acquires x) m = B;
}.

Definition sys_ok B x : Prop := ∃ q m, inv B x q m.

(** The thread table after a step of [t]. *)
Definition moved (t : nat) (pc : option Pc) (g : gmap nat Pc) : gmap nat Pc :=
  match pc with Some pc => <[t:=pc]> g | None => delete t g end.

Definition net (o : Obs) : Z := gained o - taken o - reduced o - lost o.

(** What a step of thread [t] promises. *)
Definition step_post t B x (r : option Pc * Obs) x' : Prop :=
  threads x' = threads x ∧ sys_ok (B + net r.2) (set_threads (moved t r.1 (threads x)) x').

Lemma lookup_moved t pc (g : gmap nat Pc) t' :
  moved t pc g !! t' = if decide (t = t') then pc else g !! t'.
Proof.
  destruct pc; simpl; [apply lookup_insert|]. rewrite lookup_delete. done.
Qed.

Lemma sum_moved t pc (g : gmap nat Pc) :
  map_sum in_flight (moved t pc g) = map_sum in_flight g - flight (g !! t) + flight pc.
Proof.
  destruct (g !! t) as [p|] eqn:Hg, pc as [p'|]; simpl.
  - by apply map_sum_update.
  - rewrite (map_sum_delete _ _ _ p) by done. lia.
  - rewrite map_sum_insert by done. lia.
  - rewrite delete_id by done. lia.
Qed.

(** Lock ownership after a step: [t] holds the lock as its new program point says, and lets go of
    it or takes it only in turn. *)
Definition lock_moves t (pc pc' : option Pc) (l l' : option nat) : Prop :=
  (l' = if held pc' then Some t else if held pc then None else l) ∧
  (held pc' = true → held pc = true ∨ l = None).

Lemma lock_moves_ok t pc' x x' :
  (∀ t, lock x = Some t ↔ held (threads x !! t) = true) →
  lock_moves t (threads x !! t) pc' (lock x) (lock x') →
  ∀ u, lock x' = Some u ↔ held (moved t pc' (threads x) !! u) = true.
Proof.
  intros Hl [Hlk Htake] u. rewrite lookup_moved. case_decide as Hu; subst.
  - destruct (held pc') eqn:Hp; [by rewrite Hlk|]. rewrite Hlk.
    destruct (held (threads x !! u)) eqn:Hh; [done|]. rewrite Hl, Hh. done.
  - rewrite <-Hl. destruct (held pc') eqn:Hp; rewrite Hlk.
    + destruct (Htake eq_refl) as [Hh%Hl| ->]; [rewrite Hh|]; split; congruence.
    + destruct (held (threads x !! t)) eqn:Hh; [|done]. apply Hl in Hh. rewrite Hh. split; congruence.
Qed.

Lemma polled_moved t pc' x x' :
  polled_ok x → threads x' = threads x →
  (∀ f, borrowed pc' = Some f → acquires x' !! f = None ∧
    (borrowed (threads x !! t) = Some f ∨ is_Some (acquires x !! f))) →
  (∀ f, is_Some (acquires x' !! f) → is_Some (acquires x !! f) ∨ borrowed (threads x !! t) = Some f) →
  polled_ok (set_threads (moved t pc' (threads x)) x').
Proof.
  intros Hp _ Hnew Hold u pc f. simpl. rewrite lookup_moved. case_decide as Hu; subst.
  - intros -> Hf. destruct (Hnew f Hf) as [Hn Hwho]. split; [done|]. intros u' p'.
    rewrite lookup_moved. case_decide as Hu'; [done|]. intros Hp' Hf'. exfalso.
    destruct (Hp u' p' f Hp' Hf') as [Hn' Huniq]. destruct Hwho as [Hb|[? Hs]]; [|congruence].
    destruct (threads x !! u) as [p|] eqn:E; [|done]. simpl in Hb. by apply Hu', (Huniq u p).
  - intros Hpu Hf. destruct (Hp u pc f Hpu Hf) as [Hn Huniq]. split.
    + destruct (acquires x' !! f) eqn:E; [|done]. exfalso.
      destruct (Hold f) as [[? Hs]|Hb]; [by eauto|congruence|].
      destruct (threads x !! t) as [p|] eqn:E'; [|done]. simpl in Hb. by apply Hu, (Huniq t p).
    + intros u' p'. rewrite lookup_moved. case_decide as Hu'; subst; [|by apply Huniq].
      intros -> Hf'. exfalso. destruct (Hnew f Hf') as [_ [Hb|[? Hs]]]; [|congruence].
      destruct (threads x !! u') as [p|] eqn:E'; [|done]. simpl in Hb. by apply Hu, (Huniq u' p).
Qed.

(** Re-establishes the invariant after a step of [t] to [pc']. *)
Lemma close_step t pc' x x' B q m q' m' d :
  inv B x q m → threads x' = threads x →
  wq_rep (waiters x') q' m' → store_ok (acquires x') q' m' → in_range (available_permits x') →
  (q' ≠ [] → available_permits x' = 0) →
  lock_moves t (threads x !! t) pc' (lock x) (lock x') →
  (lock x ≠ Some t → lock x ≠ None → q' = q ∧ (available_permits x = 0 → available_permits x' = 0)) →
  from_option (pc_ok (available_permits x') q') True pc' →
  (∀ f, borrowed pc' = Some f → acquires x' !! f = None ∧
    (borrowed (threads x !! t) = Some f ∨ is_Some (acquires x !! f))) →
  (∀ f, is_Some (acquires x' !! f) → is_Some (acquires x !! f) ∨ borrowed (threads x !! t) = Some f) →
  available_permits x' + flight pc' + credit (acquires x') m' =
    available_permits x + flight (threads x !! t) + credit (acquires x) m + d →
  sys_ok (B + d) (set_threads (moved t pc' (threads x)) x').
Proof.
  intros [Hrep Hst Hav Hem Hl Hpc Hpo Hsum] Hth Hrep' Hst' Hav' Hem' Hlm Hoth Hpc' Hnew Hold Hsum'.
  exists q', m'. split; simpl; try done.
  - by apply lock_moves_ok.
  - intros u pc. rewrite lookup_moved. case_decide as Hu; subst.
    + intros ->. done.
    + intros Hu'. eapply pc_ok_stable; [by eapply Hpc|]. intros Hh.
      assert (lock x = Some u) as Hlu by (apply Hl; by rewrite Hu'). apply Hoth; congruence.
  - by apply (polled_moved t pc' x x').
  - rewrite sum_moved. lia.
Qed.
End invariant.

(** ** Steps outside the queue *)
Section steps.
Context {W : Type → Type} `{!WaitQueue W} {DP : DebtPolicy}.
Implicit Types (x : Sys W) (B : Z) (q : list WaiterId) (m : gmap WaiterId WaitNode).

(** A thread that does not hold the lock. *)
Lemma lock_moves_free t (pc pc' : option Pc) l :
  held pc = false → held pc' = false → lock_moves t pc pc' l l.
Proof. intros H H'. unfold lock_moves. by rewrite H, H'. Qed.

(** The lock stays with [t]. *)
Lemma lock_moves_keep t pc pc' B x q m :
  inv B x q m → threads x !! t = pc → held pc = true → held pc' = true →
  lock_moves t pc pc' (lock x) (lock x).
Proof.
  intros Hx Hpc H H'. unfold lock_moves. rewrite H'. split; [|by left].
  apply (in_lock _ _ _ _ Hx). by rewrite Hpc.
Qed.

(** Only the thread moves. *)
Lemma goto_ok t pc pc' B x q m :
  inv B x q m → threads x !! t = Some pc → holds pc' = holds pc → in_flight pc' = in_flight pc →
  polled pc' = polled pc → pc_ok (available_permits x) q pc' →
  wp (goto pc') x (step_post t B x).
Proof.
  intros Hx Hpc Hh Hf Hp Hok. pose proof Hx as [Hrep Hst Hav Hem Hl Hpcs Hpo Hsum].
  unfold goto. wp_auto. split; [done|].
  apply (close_step t (Some pc') x x B q m q m); try done; simpl; rewrite ?Hpc; simpl.
  - destruct (holds pc) eqn:E; [|by apply lock_moves_free].
    apply (lock_moves_keep t (Some pc) (Some pc') B x q m); simpl; by rewrite ?Hh.
  - intros f. rewrite Hp. intros Hf'. destruct (Hpo t pc f Hpc Hf') as [Hn _]. auto.
  - intros f Hs. by left.
  - unfold net. simpl. lia.
Qed.

Lemma finish_ok t pc B x q m :
  inv B x q m → threads x !! t = Some pc → holds pc = false → in_flight pc = 0 →
  wp (finish silent) x (step_post t B x).
Proof.
  intros Hx Hpc Hh Hf. pose proof Hx as [Hrep Hst Hav Hem Hl Hpcs Hpo Hsum].
  unfold finish. wp_auto. split; [done|].
  apply (close_step t None x x B q m q m); try done; simpl; rewrite ?Hpc; simpl; try done.
  - by apply lock_moves_free.
  - intros f Hs. by left.
  - unfold net. simpl. lia.
Qed.

Lemma compare_exchange_spec expected next x :
  wp (compare_exchange expected next) x (λ r x',
    (available_permits x = expected ∧ r = Ok expected ∧ x' = set_available next x) ∨
    (available_permits x ≠ expected ∧ r = Err (available_permits x) ∧ x' = x)).
Proof. unfold compare_exchange. wp_auto. case_bool_decide; wp_auto; subst; eauto. Qed.

(** A thread without the lock takes permits from the count. *)
Lemma take_ok t pc B x q m k :
  inv B x q m → threads x !! t = Some pc → holds pc = false → in_flight pc = 0 → polled pc = None →
  0 <= k <= available_permits x →
  sys_ok (B - k) (set_threads (moved t None (threads x)) (set_available (available_permits x - k) x)).
Proof.
  intros Hx Hpc Hh Hf Hp Hk. pose proof Hx as [Hrep Hst Hav Hem Hl Hpcs Hpo Hsum].
  unfold in_range in *.
  apply (close_step t None x (set_available (available_permits x - k) x) B q m q m (- k));
    try done; simpl; rewrite ?Hpc; simpl; try done; unfold in_range; try lia.
  - intros Hq. specialize (Hem Hq). lia.
  - by apply lock_moves_free.
  - intros _ _. split; [done|lia].
  - by left.
Qed.

Lemma try_acquire_step t n av B x q m :
  inv B x q m → threads x !! t = Some (TryAcquire n av) →
  wp (try_acquire n av) x (step_post t B x).
Proof.
  intros Hx Hpc. destruct (in_pcs _ _ _ _ Hx _ _ Hpc) as [Hn Hav]. unfold try_acquire, in_range in *.
  case_bool_decide; [by eapply finish_ok|]. wp_auto. wp_apply compare_exchange_spec.
  intros r x' [(Ha & -> & ->)|(Ha & -> & ->)].
  - unfold finish. wp_auto. split; [done|]. subst av. simpl.
    replace (B + _) with (B - n) by (unfold net; simpl; lia). eapply take_ok; [done..|lia].
  - eapply goto_ok; try done. simpl. pose proof (in_avail _ _ _ _ Hx). done.
Qed.

Lemma drain_permits_step t sp n av B x q m :
  inv B x q m → threads x !! t = Some (DrainPermits n av) →
  wp (drain_permits sp n av) x (step_post t B x).
Proof.
  intros Hx Hpc. destruct (in_pcs _ _ _ _ Hx _ _ Hpc) as [Hn Hav]. unfold drain_permits, in_range in *.
  assert (wp (goto (DrainPermits n (available_permits x))) x (step_post t B x)) as Hretry.
  { eapply goto_ok; try done. pose proof (in_avail _ _ _ _ Hx). done. }
  destruct sp; wp_auto; [done|]. wp_apply compare_exchange_spec.
  intros r x' [(Ha & -> & ->)|(Ha & -> & ->)]; [|done].
  unfold finish. wp_auto. split; [done|]. subst av. simpl. unfold saturating_sub, net. simpl.
  replace (Z.max _ _) with (available_permits x - Z.min n (available_permits x)) by lia.
  replace (B + _) with (B - Z.min n (available_permits x)) by lia.
  eapply take_ok; [done..|lia].
Qed.

Lemma enqueue_top_step t o last n av lk B x q m :
  inv B x q m → threads x !! t = Some (Enqueue o last n av lk) →
  (wants_lock (Enqueue o last n av lk) = true → lock x = None) →
  wp (enqueue_top t o last n av lk) x (step_post t B x).
Proof.
  intros Hx Hpc Hlock. destruct (in_pcs _ _ _ _ Hx _ _ Hpc) as (Hn & Hav & Hown). unfold in_range in *.
  unfold enqueue_top, needed_next. case_bool_decide as Hle.
  { simpl. eapply goto_ok; try done. simpl. unfold in_range. split_and!; try done; lia. }
  rewrite bool_decide_true by lia. destruct lk; simpl.
  { eapply goto_ok; try done. }
  unfold goto. wp_auto. split; [done|]. simpl in Hlock. rewrite bool_decide_true in Hlock by lia.
  specialize (Hlock eq_refl). pose proof Hx as [Hrep Hst Ha Hem Hl Hpcs Hpo Hsum].
  apply (close_step t (Some (EnqueueCas o last n av true)) x (set_lock (Some t) x) B q m q m);
    try done; simpl; rewrite ?Hpc; simpl.
  - split; [done|by right].
  - intros f Hf. destruct (Hpo t _ f Hpc Hf) as [Hno _]. auto.
  - by left.
  - unfold net. simpl. lia.
Qed.

(** The exchange of [acquired_or_enqueue] that takes [n] permits, or all of them. *)
Lemma enqueue_cas_step t o last n av lk B x q m :
  inv B x q m → threads x !! t = Some (EnqueueCas o last n av lk) →
  wp (enqueue_cas o last n av lk) x (step_post t B x).
Proof.
  intros Hx Hpc. pose proof (in_pcs _ _ _ _ Hx _ _ Hpc) as (Hn & Hav & Hlk & Hown).
  pose proof Hx as [Hrep Hst Ha Hem Hl Hpcs Hpo Hsum]. unfold enqueue_cas, needed_next.
  assert (held (threads x !! t) = lk) as Hheld by (by rewrite Hpc).
  destruct (decide (n <= av)) as [Hle|Hle]; [rewrite bool_decide_true by done|rewrite bool_decide_false by done];
    wp_auto; wp_apply compare_exchange_spec; intros r x' [(<- & -> & ->)|(Hne & -> & ->)];
    try (by eapply goto_ok).
  - rewrite bool_decide_true by done. unfold in_range in *.
    assert (∀ x' acqs, x' = set_acquires acqs (set_lock (if lk then None else lock x)
      (set_available (available_permits x - n) x)) → store_ok acqs q m → credit acqs m = credit (acquires x) m →
      (∀ f, is_Some (acqs !! f) → is_Some (acquires x !! f) ∨ borrowed (threads x !! t) = Some f) →
      sys_ok (B - n) (set_threads (moved t None (threads x)) x')) as Hdone.
    { intros x' acqs -> Hst' Hcr Hold.
      apply (close_step t None x (set_acquires acqs _) B q m q m (- n)); try done; simpl; unfold in_range;
        try lia.
      - intros Hq. specialize (Hem Hq). lia.
      - split; [|done]. simpl. by rewrite Hheld.
      - intros _ _. split; [done|lia].
      - rewrite Hpc. simpl. lia. }
    destruct lk, o as [[f cx]|]; wp_auto; unfold finish; wp_auto; (split; [done|]); simpl; unfold net; simpl;
      replace (B + _) with (B - n) by lia; eapply Hdone; try done; try (by left);
      try (destruct (store_unregistered (acquires x) q m f (mkAcquire n None)) as [Hs Hc]; try done;
           intros b Hb; by destruct (Hpo t _ f Hpc eq_refl) as [Hno _]; simplify_eq);
      try (intros g; rewrite lookup_insert; case_decide; subst; [rewrite Hpc; by right|by left]).
  - rewrite bool_decide_false by lia. apply wp_bind, wp_assert; [by apply Hlk; lia|]. wp_auto.
    split; [done|]. simpl. unfold in_range in *.
    apply (close_step t (Some (EnqueuePush o last n (n - available_permits x))) x (set_available 0 x) B q m q m);
      try done; simpl; rewrite ?Hpc; simpl; unfold in_range; try done; try lia.
    + apply (lock_moves_keep t _ _ B x q m); try done. simpl. apply Hlk. lia.
    + split_and!; try done; lia.
    + intros f Hf. destruct (Hpo t _ f Hpc Hf) as [Hno _]. auto.
    + by left.
    + unfold net. simpl. destruct o; simpl; lia.
Qed.
End steps.

(** ** Steps of a release *)
Section release.
Context {W : Type → Type} `{!WaitQueue W} {DP : DebtPolicy}.
Implicit Types (x : Sys W) (B : Z) (q : list WaiterId) (m : gmap WaiterId WaitNode).

Lemma enqueue_push_step t o last r n B x q m :
  inv B x q m → threads x !! t = Some (EnqueuePush o last r n) → wq_room (waiters x) →
  wp (enqueue_push o last r n) x (step_post t B x).
Proof.
  intros Hx Hpc Hroom. pose proof (in_pcs _ _ _ _ Hx _ _ Hpc) as (Hr & Hn & Ha & Hown).
  pose proof Hx as [Hrep Hst Hav Hem Hl Hpcs Hpo Hsum]. unfold enqueue_push. wp_auto.
  apply (wp_mono _ _ (λ id w, m !! id = None ∧ ∃ q', wq_rep w q' (<[id:=mkNode n (snd <$> o)]> m) ∧
    ∀ i, i ∈ q' ↔ i = id ∨ i ∈ q)).
  { destruct last; [wp_apply wq_push_back_spec|wp_apply wq_push_front_spec]; try done;
      intros id w [Hid Hrep']; (split; [done|]); eexists; (split; [done|]); set_solver. }
  intros id w (Hid & q' & Hrep' & Hq'). wp_auto. unfold in_range in Hr.
  assert (∀ acqs m', m' = <[id:=mkNode n (snd <$> o)]> m → store_ok acqs q' m' →
    credit acqs m' = credit (acquires x) m + (match o with Some _ => r - n | None => - n end) →
    (∀ f, is_Some (acqs !! f) → is_Some (acquires x !! f) ∨ borrowed (threads x !! t) = Some f) →
    sys_ok (B + net silent) (set_threads (moved t None (threads x))
      (set_acquires acqs (set_lock None (set_waiters w x))))) as Hdone.
  { intros acqs m' -> Hst' Hcr Hold.
    apply (close_step t None x _ B q m q' (<[id:=mkNode n (snd <$> o)]> m)); try done; simpl; try lia.
    - split; [|done]. simpl. by rewrite Hpc.
    - intros Hne _. exfalso. apply Hne, Hl. by rewrite Hpc.
    - rewrite Hpc. unfold net. simpl. destruct o; lia. }
  destruct o as [[f cx]|]; wp_auto; unfold finish; wp_auto; (split; [done|]); simpl.
  - destruct (store_register (acquires x) q q' m f r id n cx) as [Hst' Hcr]; try done; try lia.
    { by destruct (Hpo t _ f Hpc eq_refl). }
    eapply Hdone; [done|exact Hst'|simpl; lia|]. intros g. rewrite lookup_insert.
    case_decide; subst; [rewrite Hpc; by right|by left].
  - destruct (store_debt (acquires x) q q' m id n) as [Hst' Hcr]; try done; try lia; [by apply Hown|].
    destruct x; eapply Hdone; [done|exact Hst'|simpl in *; lia|by left].
Qed.

Lemma release_hint_step t n av B x q m :
  inv B x q m → threads x !! t = Some (ReleaseHint n av) → wp (release_hint n av) x (step_post t B x).
Proof.
  intros Hx Hpc. pose proof (in_pcs _ _ _ _ Hx _ _ Hpc) as (Hn & Hn0 & Hav & Hav0).
  unfold release_hint. wp_auto. destruct (contention_detected x); by eapply goto_ok.
Qed.

(** The count after a successful update, or the panic. *)
Lemma try_update_permits_spec expected released x :
  in_range (available_permits x) → 0 <= released →
  wp (try_update_permits expected released) x (λ r x',
    (r = None ∧ x' = x ∧ usize_max < expected + released) ∨
    (r = Some (Ok tt) ∧ available_permits x = expected ∧ in_range (expected + released) ∧
      x' = set_available (expected + released) x) ∨
    (r = Some (Err (available_permits x)) ∧ x' = x)).
Proof.
  intros Ha Hr. unfold try_update_permits, checked_add, in_range in *. case_decide.
  - wp_auto. wp_apply compare_exchange_spec.
    intros r x' [(He & -> & ->)|(He & -> & ->)]; wp_auto; [right; left; split_and!; (done || lia)|by auto].
  - wp_auto. left. split_and!; try done. lia.
Qed.

(** Permits are added to a count that is not zero, without the lock. *)
Lemma release_cas_step t n av B x q m :
  inv B x q m → threads x !! t = Some (ReleaseCas n av) → wp (release_cas n av) x (step_post t B x).
Proof.
  intros Hx Hpc. pose proof (in_pcs _ _ _ _ Hx _ _ Hpc) as (Hn & Hn0 & Hav & Hav0).
  pose proof Hx as [Hrep Hst Ha Hem Hl Hpcs Hpo Hsum].
  unfold release_cas. wp_auto. wp_apply try_update_permits_spec; [done|lia|].
  intros r x' [(-> & -> & Hov)|[(-> & He & Hin & ->)|(-> & ->)]]; unfold finish; wp_auto.
  - split; [done|]. apply (close_step t None x x B q m q m); try done; simpl.
    + rewrite Hpc. by apply lock_moves_free.
    + by left.
    + rewrite Hpc. unfold net. simpl. lia.
  - split; [done|]. apply (close_step t None x _ B q m q m); try done; simpl.
    + intros Hq. specialize (Hem Hq). lia.
    + rewrite Hpc. by apply lock_moves_free.
    + intros _ _. split; [done|lia].
    + by left.
    + rewrite Hpc. unfold net. simpl. lia.
  - by eapply goto_ok.
Qed.

Lemma lock_queue_step t n B x q m :
  inv B x q m → threads x !! t = Some (LockQueue n) → lock x = None →
  wp (lock_queue t n) x (step_post t B x).
Proof.
  intros Hx Hpc Hlock. pose proof (in_pcs _ _ _ _ Hx _ _ Hpc) as (Hn & Hn0).
  pose proof Hx as [Hrep Hst Ha Hem Hl Hpcs Hpo Hsum].
  unfold lock_queue, goto. wp_auto. split; [done|].
  apply (close_step t (Some (Assign n batch_new)) x (set_lock (Some t) x) B q m q m); try done; simpl.
  - split; [done|by right].
  - split; [done|]. exists []. split; [apply batch_new_rep|done].
  - by left.
  - rewrite Hpc. unfold net. simpl. lia.
Qed.

(** The lock holder changes the queue without touching the count. *)
Lemma holder_step t pc pc' B x q m q' m' acqs w d :
  inv B x q m → threads x !! t = Some pc → holds pc = true → holds pc' = true →
  polled pc = None → polled pc' = None →
  wq_rep w q' m' → store_ok acqs q' m' → (q' ≠ [] → q ≠ []) →
  (∀ f, is_Some (acqs !! f) → is_Some (acquires x !! f)) →
  pc_ok (available_permits x) q' pc' →
  in_flight pc' + credit acqs m' = in_flight pc + credit (acquires x) m + d →
  sys_ok (B + d) (set_threads (moved t (Some pc') (threads x)) (set_acquires acqs (set_waiters w x))).
Proof.
  intros Hx Hpc Hh Hh' Hp Hp' Hrep' Hst' Hq Hold Hok Hsum'.
  pose proof Hx as [Hrep Hst Ha Hem Hl Hpcs Hpo Hsum].
  apply (close_step t (Some pc') x _ B q m q' m'); try done; simpl.
  - intros Hne. auto.
  - apply (lock_moves_keep t _ _ B x q m); try done. by rewrite Hpc.
  - intros Hne _. exfalso. apply Hne, Hl. by rewrite Hpc.
  - intros f. by rewrite Hp'.
  - intros f Hf. left. by apply Hold.
  - rewrite Hpc. simpl. lia.
Qed.

Lemma assign_step t r b B x q m :
  inv B x q m → threads x !! t = Some (Assign r b) → wp (assign r b) x (step_post t B x).
Proof.
  intros Hx Hpc. pose proof (in_pcs _ _ _ _ Hx _ _ Hpc) as (Hr & ws & Hb & Hws).
  pose proof Hx as [Hrep Hst Ha Hem Hl Hpcs Hpo Hsum]. unfold assign.
  destruct (bool_decide (0 < r) && negb (will_spill b)) eqn:Hg; [|by eapply (goto_ok t (Assign r b)); simpl; eauto].
  apply andb_true_iff in Hg as [Hr0%bool_decide_eq_true _]. wp_auto. destruct q as [|id q].
  { wp_apply wq_unlink_first_nil; [done|]. intros r' w [-> ->]. wp_auto.
    replace (set_waiters (waiters x) x) with x by (by destruct x).
    by eapply (goto_ok t (Assign r b)); simpl; eauto. }
  specialize (Hem ltac:(done)). destruct (wq_rep_linked _ _ _ id Hrep) as [n Hid]; [set_solver|].
  pose proof (so_linked _ _ _ Hst id n Hid ltac:(set_solver)) as Hn0. unfold in_range in Hr.
  pose proof (wq_rep_nodup _ _ _ Hrep) as Hnd.
  wp_apply (wq_unlink_first_cons _ _ _ _ n assign_closure r); [done..|].
  intros r' w (-> & Hrep' & _). case_bool_decide as Hfull.
  - assert (needed_permits n <= r) as Hle by lia. rewrite Z.min_l in * by lia. rewrite Z.sub_diag in *.
    wp_auto. simpl. destruct (waker n) as [wk|] eqn:Hwk.
    + wp_auto. wp_apply wq_set_waiter_spec; [done|rewrite lookup_insert_eq; by eauto|].
      intros _ w' [Hrep'' _]. rewrite insert_insert_eq in Hrep''. wp_auto.
      wp_apply batch_push_spec; [done|]. intros b' x' [-> Hb']. unfold goto. wp_auto. split; [done|].
      destruct (store_detach (acquires x) id q m n Hst Hnd Hid) as [Hst' Hcr]; [rewrite Hwk; by eauto|].
      eapply (holder_step t _ (Assign (r - needed_permits n) b') B x (id :: q) m q _ (acquires x) w');
        [exact Hx|exact Hpc|done|done|done|done|exact Hrep''|exact Hst'|done|done| |simpl; unfold net; simpl; lia].
      split; [unfold in_range; lia|]. exists (ws ++ [wk]). done.
    + wp_auto. wp_apply wq_remove_spec; [done|apply lookup_insert_eq|by apply NoDup_cons in Hnd as [? _]|].
      intros v w' (_ & Hrep'' & _). rewrite delete_insert_eq in Hrep''. unfold goto. wp_auto. split; [done|].
      destruct (store_paid (acquires x) id q m n Hst Hnd Hid Hwk) as [Hst' Hcr].
      eapply (holder_step t _ (Assign (r - needed_permits n) b) B x (id :: q) m q _ (acquires x) w');
        [exact Hx|exact Hpc|done|done|done|done|exact Hrep''|exact Hst'|done|done| |simpl; unfold net; simpl; lia].
      split; [unfold in_range; lia|]. by exists ws.
  - assert (r < needed_permits n) as Hlt by lia. rewrite Z.min_r in * by lia. rewrite Z.sub_diag.
    wp_auto. unfold goto. wp_auto. split; [done|].
    destruct (store_update (acquires x) (id :: q) m id n (mkNode (needed_permits n - r) (waker n)) Hst Hid) as [Hst' Hcr];
      [set_solver|simpl; lia|done|].
    eapply (holder_step t _ (Surplus 0 b) B x (id :: q) m (id :: q) _ (acquires x) w);
      [exact Hx|exact Hpc|done|done|done|done|exact Hrep'|exact Hst'|done|done| |simpl in *; unfold net; simpl; lia].
    split; [unfold in_range; lia|]. by exists ws.
Qed.
End release.

Section surplus.
Context {W : Type → Type} `{!WaitQueue W} {DP : DebtPolicy}.
Implicit Types (x : Sys W) (B : Z) (q : list WaiterId) (m : gmap WaiterId WaitNode).

Lemma surplus_step t r b B x q m :
  inv B x q m → threads x !! t = Some (Surplus r b) → wp (surplus r b) x (step_post t B x).
Proof.
  intros Hx Hpc. pose proof (in_pcs _ _ _ _ Hx _ _ Hpc) as (Hr & ws & Hb & Hws).
  unfold surplus. wp_auto. rewrite (wq_is_empty_spec _ _ _ (in_rep _ _ _ _ Hx)).
  destruct (bool_decide (0 < r) && bool_decide (q = [])) eqn:Hg.
  - apply enabled_and in Hg as [Hr0 ->]. pose proof (in_avail _ _ _ _ Hx) as Ha.
    case_bool_decide as Hz.
    + eapply goto_ok; try done. simpl. split_and!; eauto.
    + eapply goto_ok; try done. simpl. destruct ws; [|naive_solver]. by split_and!.
  - eapply goto_ok; try done. simpl. eauto.
Qed.

(** The holder adds to the count: the queue is empty. *)
Lemma holder_adds t pc b B x m k c :
  inv B x [] m → threads x !! t = Some pc → holds pc = true → in_flight pc = k → 0 <= k →
  in_range (available_permits x + k) → (∃ ws, batch_rep b ws) →
  sys_ok (B + net silent) (set_threads (moved t (Some (Unlock 0 b)) (threads x))
    (set_contention c (set_available (available_permits x + k) x))).
Proof.
  intros Hx Hpc Hh Hf Hk Hin Hb. pose proof Hx as [Hrep Hst Ha Hem Hl Hpcs Hpo Hsum].
  apply (close_step t (Some (Unlock 0 b)) x _ B [] m [] m); try done; simpl.
  - apply (lock_moves_keep t _ _ B x [] m); try done. by rewrite Hpc.
  - intros Hne _. exfalso. apply Hne, Hl. by rewrite Hpc.
  - by left.
  - rewrite Hpc. unfold net. simpl. lia.
Qed.

Lemma fetch_add_step t r b B x q m :
  inv B x q m → threads x !! t = Some (FetchAdd r b) → wp (fetch_add r b) x (step_post t B x).
Proof.
  intros Hx Hpc. pose proof (in_pcs _ _ _ _ Hx _ _ Hpc) as (Hr & Hr0 & -> & Hz & Hb).
  unfold in_range in Hr. unfold fetch_add, goto. wp_auto. split; [done|]. simpl. unfold wrapping_add.
  rewrite Z.mod_small by lia.
  apply (holder_adds t _ b B x m r (contention_detected x) Hx Hpc); try done; unfold in_range; lia.
Qed.

Lemma update_permits_step t r av b B x q m :
  inv B x q m → threads x !! t = Some (UpdatePermits r av b) →
  wp (update_permits r av b) x (step_post t B x).
Proof.
  intros Hx Hpc. pose proof (in_pcs _ _ _ _ Hx _ _ Hpc) as (Hr & Hr0 & -> & Hav & Hb).
  pose proof Hx as [Hrep Hst Ha Hem Hl Hpcs Hpo Hsum]. unfold update_permits. wp_auto.
  wp_apply try_update_permits_spec; [done|lia|].
  intros o x' [(-> & -> & Hov)|[(-> & He & Hin & ->)|(-> & ->)]]; wp_auto.
  - unfold finish. wp_auto. split; [done|].
    apply (close_step t None x (set_lock None x) B [] m [] m); try done; simpl.
    + rewrite Hpc. by split.
    + by left.
    + rewrite Hpc. unfold net. simpl. lia.
  - unfold goto. wp_auto. split; [done|]. subst av.
    apply (holder_adds t _ b B x m r false Hx Hpc); try done; [lia|by eauto].
  - unfold goto. wp_auto. split; [done|].
    apply (close_step t (Some (UpdatePermits r (available_permits x) b)) x (set_contention true x) B [] m [] m);
      try done; simpl.
    + apply (lock_moves_keep t _ _ B x [] m); try done. by rewrite Hpc.
    + by left.
    + rewrite Hpc. unfold net. simpl. lia.
Qed.

Lemma unlock_step t r b B x q m :
  inv B x q m → threads x !! t = Some (Unlock r b) → wp (unlock r b) x (step_post t B x).
Proof.
  intros Hx Hpc. pose proof (in_pcs _ _ _ _ Hx _ _ Hpc) as (Hr & ws & Hb).
  pose proof Hx as [Hrep Hst Ha Hem Hl Hpcs Hpo Hsum]. unfold unlock. wp_auto.
  wp_apply batch_wake_spec; [done|]. intros us x' [-> ->]. wp_auto. split; [done|]. simpl.
  eapply (close_step t _ x (set_lock None x) B q m q m); try done; simpl.
  - rewrite Hpc. split; [|by case_bool_decide]. by case_bool_decide.
  - unfold in_range in *. case_bool_decide; simpl; [done|]. unfold in_range. lia.
  - by case_bool_decide.
  - by left.
  - rewrite Hpc. unfold net, in_range in *. simpl. case_bool_decide; simpl; lia.
Qed.

(** An operation starts: its first step may bring permits in. *)
Lemma start_ok t pc o x B q m :
  inv B x q m → threads x !! t = None → holds pc = false → polled pc = None →
  pc_ok (available_permits x) q pc → net o = in_flight pc →
  step_post t B x (Some pc, o) x.
Proof.
  intros Hx Hpc Hh Hp Hok Hnet. pose proof Hx as [Hrep Hst Ha Hem Hl Hpcs Hpo Hsum].
  split; [done|]. apply (close_step t (Some pc) x x B q m q m); try done; simpl; rewrite ?Hpc; simpl.
  - by apply lock_moves_free.
  - intros f. by rewrite Hp.
  - by left.
  - rewrite Hnet. lia.
Qed.

Lemma start_finish t x B q m :
  inv B x q m → threads x !! t = None → step_post t B x (None, silent) x.
Proof.
  intros Hx Hpc. pose proof Hx as [Hrep Hst Ha Hem Hl Hpcs Hpo Hsum].
  split; [done|]. apply (close_step t None x x B q m q m); try done; simpl; rewrite ?Hpc; simpl.
  - by apply lock_moves_free.
  - by left.
  - unfold net. simpl. lia.
Qed.

(** An operation of one locked section that changes the queue and the futures. *)
Lemma start_section t x B q m q' m' acqs w o (pc : option Pc) :
  inv B x q m → threads x !! t = None → lock x = None →
  wq_rep w q' m' → store_ok acqs q' m' → (q' ≠ [] → q ≠ []) →
  (∀ f, is_Some (acqs !! f) → is_Some (acquires x !! f)) →
  match pc with
  | None => True
  | Some pc => ∃ n, pc = Assign n batch_new ∧ in_range n
  end →
  flight pc + credit acqs m' = credit (acquires x) m + net o →
  sys_ok (B + net o) (set_threads (moved t pc (threads x))
    (set_acquires acqs (set_lock (match pc with Some _ => Some t | None => None end) (set_waiters w x)))).
Proof.
  intros Hx Hpc Hlock Hrep' Hst' Hq Hold Hnew Hsum'.
  pose proof Hx as [Hrep Hst Ha Hem Hl Hpcs Hpo Hsum].
  apply (close_step t pc x _ B q m q' m'); try done; simpl; rewrite ?Hpc; simpl.
  - auto.
  - rewrite Hlock. destruct pc as [p|]; [|by split]. destruct Hnew as (n & -> & _). split; [done|by right].
  - destruct pc as [p|]; [|done]. destruct Hnew as (n & -> & Hn). split; [done|].
    exists []. split; [apply batch_new_rep|done].
  - intros f. destruct pc as [p|]; [|done]. by destruct Hnew as (n & -> & Hn).
  - intros f Hf. left. by apply Hold.
  - lia.
Qed.
End surplus.

(** ** Operations on the queue as a whole, and the futures *)
Section starts.
Context {W : Type → Type} `{!WaitQueue W} {DP : DebtPolicy}.
Implicit Types (x : Sys W) (B : Z) (q : list WaiterId) (m : gmap WaiterId WaitNode).

Lemma notify_drain (w : W WaitNode) acqs q m fuel :
  wq_rep w q m → store_ok acqs q m → (length q < fuel)%nat →
  wp (while_some fuel notify_first_waiter) w (λ rs w', ∃ m',
    wq_rep w' [] m' ∧ store_ok acqs [] m' ∧ credit acqs m' = credit acqs m + foldr Z.add 0 (fst <$> rs)).
Proof.
  revert w q m. induction fuel as [|fuel IH]; intros w q m Hrep Hst Hlt; [lia|].
  simpl. wp_auto. unfold notify_first_waiter. wp_auto. destruct q as [|id q].
  { wp_apply wq_unlink_first_nil; [done|]. intros r w' [-> ->]. wp_auto. exists m. simpl. split_and!; try done. lia. }
  destruct (wq_rep_linked _ _ _ id Hrep) as [n Hid]; [set_solver|].
  pose proof (wq_rep_nodup _ _ _ Hrep) as Hnd. simpl in Hlt.
  wp_apply wq_unlink_first_cons; [done..|]. intros r w' (-> & Hrep' & _). wp_auto. simpl.
  destruct (waker n) as [wk|] eqn:Hwk; wp_auto.
  - wp_apply wq_set_waiter_spec; [done|rewrite lookup_insert_eq; by eauto|].
    intros _ w'' [Hrep'' _]. rewrite insert_insert_eq in Hrep''. wp_auto.
    destruct (store_detach acqs id q m n Hst Hnd Hid) as [Hst' Hcr]; [rewrite Hwk; by eauto|].
    wp_apply (IH w'' q); [done..|lia|]. intros rs w3 (m' & Hrep3 & Hst3 & Hcr3). wp_auto.
    exists m'. split_and!; try done. csimpl. lia.
  - wp_apply wq_remove_spec; [done|apply lookup_insert_eq|by apply NoDup_cons in Hnd as [? _]|].
    intros v w'' (_ & Hrep'' & _). rewrite delete_insert_eq in Hrep''. wp_auto.
    destruct (store_paid acqs id q m n Hst Hnd Hid Hwk) as [Hst' Hcr].
    wp_apply (IH w'' q); [done..|lia|]. intros rs w3 (m' & Hrep3 & Hst3 & Hcr3). wp_auto.
    exists m'. split_and!; try done. csimpl. lia.
Qed.

(** Rewrites the state of a section that leaves the lock free. *)
Lemma section_state x w acqs :
  lock x = None → set_acquires acqs (set_lock None (set_waiters w x)) = set_acquires acqs (set_waiters w x).
Proof. destruct x; simpl. by intros ->. Qed.

Lemma notify_all_step t B x q m :
  inv B x q m → threads x !! t = None → lock x = None → wp notify_all x (step_post t B x).
Proof.
  intros Hx Hpc Hlock. pose proof (in_rep _ _ _ _ Hx) as Hrep. unfold notify_all. wp_auto.
  wp_apply notify_drain; [done|by apply Hx| |].
  { rewrite (wq_len_spec _ _ _ Hrep). pose proof (rep_length_le _ _ _ Hrep). lia. }
  intros rs w (m' & Hrep' & Hst' & Hcr). wp_auto. apply wp_run_local. wp_auto.
  wp_apply push_iter_spec; [apply batch_new_rep|]. simpl. intros _ b Hb.
  wp_apply wake_all_spec; [done|]. intros us b' [-> _]. unfold finish. wp_auto. split; [done|]. simpl.
  pose proof (start_section t x B q m [] m' (acquires x) w (mkObs (foldr Z.add 0 (fst <$> rs)) 0 0 0 []) None
    Hx Hpc Hlock Hrep' Hst') as H. rewrite section_state in H by done.
  apply H; try done. unfold net. simpl. lia.
Qed.

Lemma release_if_waiters_step t n B x q m :
  inv B x q m → threads x !! t = None → lock x = None → in_range n →
  wp (release_if_waiters t n) x (step_post t B x).
Proof.
  intros Hx Hpc Hlock Hn. pose proof (in_rep _ _ _ _ Hx) as Hrep. unfold release_if_waiters. wp_auto.
  rewrite (wq_is_empty_spec _ _ _ Hrep). case_bool_decide as Hq.
  { unfold finish. wp_auto. by eapply start_finish. }
  wp_auto. split; [done|]. simpl.
  apply (start_section t x B q m q m (acquires x) (waiters x) (mkObs n 0 0 0 []) (Some (Assign n batch_new)));
    try done; [by apply Hx|by eauto|]. unfold net. simpl. lia.
Qed.

Lemma poll_queued_step t f r id cx B x q m :
  inv B x q m → threads x !! t = None → lock x = None → acquires x !! f = Some (mkAcquire r (Some id)) →
  wp (poll_queued f r id cx) x (step_post t B x).
Proof.
  intros Hx Hpc Hlock Hf. pose proof (in_rep _ _ _ _ Hx) as Hrep. pose proof (in_store _ _ _ _ Hx) as Hst.
  destruct (so_owner _ _ _ Hst f r id Hf) as (n & Hid & Hnr & Hwk). unfold poll_queued. wp_auto.
  wp_apply wq_waiter_spec; [done..|]. intros n' w [-> ->]. case_bool_decide as Hn.
  - assert (id ∈ q) as Hin. { destruct (decide (id ∈ q)); [done|]. rewrite (so_detached _ _ _ Hst id n) in Hn by done. done. }
    pose proof (register_waker_some (waker n) cx) as Hsl.
    destruct (register_waker (waker n) cx) as [slot old]. simpl in Hsl. subst slot. wp_auto.
    wp_apply wq_set_waiter_spec; [done|by eauto|]. intros _ w [Hrep' _]. unfold finish. wp_auto.
    split; [done|]. destruct (store_update (acquires x) q m id n (mkNode (needed_permits n) (Some cx)) Hst Hid Hin)
      as [Hst' Hcr]; [simpl; lia| |].
    { specialize (Hwk Hin). split; [done|by eauto]. }
    pose proof (start_section t x B q m q _ (acquires x) w silent None Hx Hpc Hlock Hrep' Hst') as H.
    rewrite section_state in H by done. apply H; try done. unfold net. simpl in *. lia.
  - assert (id ∉ q) as Hni. { intros Hin. by pose proof (so_linked _ _ _ Hst id n Hid Hin). }
    assert (needed_permits n = 0) as Hz by (by rewrite (so_detached _ _ _ Hst id n)).
    wp_auto. wp_apply wq_remove_spec; [done..|]. intros v w (-> & Hrep' & _). unfold finish. wp_auto.
    split; [done|]. destruct (store_remove (acquires x) (<[f:=mkAcquire r None]> (acquires x)) q m f r id n
      Hst Hf Hid) as [Hst' Hcr]; [by right|]. rewrite filter_neq_id in Hst' by done.
    pose proof (start_section t x B q m q _ (<[f:=mkAcquire r None]> (acquires x)) w (mkObs 0 r 0 0 []) None
      Hx Hpc Hlock Hrep' Hst') as H. rewrite section_state in H by done. apply H; try done.
    + intros g. rewrite lookup_insert. case_decide; subst; by eauto.
    + unfold net. simpl in *. lia.
Qed.

Lemma drop_queued_step t f r id B x q m :
  inv B x q m → threads x !! t = None → lock x = None → acquires x !! f = Some (mkAcquire r (Some id)) →
  wp (drop_queued t f r id) x (step_post t B x).
Proof.
  intros Hx Hpc Hlock Hf. pose proof (in_rep _ _ _ _ Hx) as Hrep. pose proof (in_store _ _ _ _ Hx) as Hst.
  destruct (so_owner _ _ _ Hst f r id Hf) as (n & Hid & Hnr & Hwk). unfold drop_queued. wp_auto.
  wp_apply wq_unlink_spec; [done..|]. intros res w (-> & Hrep' & _). wp_auto.
  wp_apply wq_remove_spec; [done|apply lookup_insert_eq|rewrite list_elem_of_filter; naive_solver|].
  intros v w' (-> & Hrep'' & _). rewrite delete_insert_eq in Hrep''. wp_auto.
  destruct (store_remove (acquires x) (delete f (acquires x)) q m f r id n Hst Hf Hid) as [Hst' Hcr]; [by left|].
  assert (∀ g, is_Some (delete f (acquires x) !! g) → is_Some (acquires x !! g)) as Hold.
  { intros g [a [_ Ha]%lookup_delete_Some]. by eauto. }
  assert (without id q ≠ [] → q ≠ []) as Hne by (intros Hne ->; done).
  pose proof (λ o p, start_section t x B q m (without id q) (delete id m) (delete f (acquires x)) w' o p
    Hx Hpc Hlock Hrep'' Hst' Hne Hold) as H.
  assert (0 <= needed_permits n) as Hn0.
  { destruct (decide (id ∈ q)); [by apply Z.lt_le_incl, (so_linked _ _ _ Hst id n)|].
    by rewrite (so_detached _ _ _ Hst id n). }
  pose proof (so_counts _ _ _ Hst f _ Hf) as Hr. simpl in Hr. case_bool_decide as Hacq; wp_auto.
  - unfold goto. wp_auto. split; [done|].
    apply (H silent (Some (Assign (r - needed_permits n) batch_new))).
    + eexists. split; [done|]. unfold in_range. lia.
    + unfold net. simpl. lia.
  - unfold finish. wp_auto. split; [done|]. specialize (H silent None).
    rewrite section_state in H by done. apply H; [done|]. unfold net. simpl. lia.
Qed.
End starts.

(** ** Every step keeps the invariant *)
Section preservation.
Context {W : Type → Type} `{!WaitQueue W} {DP : DebtPolicy}.
Implicit Types (x : Sys W) (B : Z) (q : list WaiterId) (m : gmap WaiterId WaitNode).

Lemma start_unqueued t f a B x q m :
  inv B x q m → threads x !! t = None → acquires x !! f = Some a → index a = None →
  step_post t B x (None, silent) (set_acquires (delete f (acquires x)) x) ∧
  ∀ cx, step_post t B x
    (Some (Enqueue (Some (f, cx)) true (requested_permits a) (available_permits x) false), silent)
    (set_acquires (delete f (acquires x)) x).
Proof.
  intros Hx Hpc Hf Ha. pose proof Hx as [Hrep Hst Hav Hem Hl Hpcs Hpo Hsum].
  destruct (store_forget _ _ _ _ _ Hst Hf Ha) as [Hst' Hcr].
  pose proof (so_counts _ _ _ Hst f a Hf) as Hr.
  assert (∀ g, is_Some (delete f (acquires x) !! g) →
    is_Some (acquires x !! g) ∨ borrowed (threads x !! t) = Some g) as Hold.
  { intros g [b [_ Hb]%lookup_delete_Some]. left. by eauto. }
  split; [|intros cx]; (split; [done|]).
  - apply (close_step t None x _ B q m q m); try done; simpl; rewrite Hpc; simpl.
    + by apply lock_moves_free.
    + unfold net. simpl. lia.
  - eapply (close_step t _ x _ B q m q m); try done; simpl; rewrite ?Hpc; simpl.
    + by apply lock_moves_free.
    + intros g [= <-]. rewrite lookup_delete_eq. by eauto.
    + unfold net. simpl. lia.
Qed.

(** Reductions only where debts are allowed. *)
Definition policy_op (op : Op) : bool := match op with OReduce _ => debts | _ => true end.
Definition policy (l : Label) : bool := match l with Start _ op => policy_op op | _ => true end.

Lemma start_step t op B x :
  sys_ok B x → threads x !! t = None → op_enabled op x = true → policy_op op = true →
  wp (start t op) x (step_post t B x).
Proof.
  intros (q & m & Hx) Hpc He Hpol. pose proof (in_avail _ _ _ _ Hx) as Ha.
  unfold start. wp_auto. destruct op as [n|n|n|n|n|n| |f cx|f]; simpl in He.
  - apply bool_decide_eq_true in He. unfold goto. wp_auto. by eapply start_ok.
  - apply bool_decide_eq_true in He. case_bool_decide; unfold finish, goto; wp_auto.
    + by eapply start_finish.
    + by eapply start_ok.
  - apply bool_decide_eq_true in He. unfold goto. wp_auto. eapply start_ok; try done. simpl. split_and!; [done|done|by intros _].
  - apply bool_decide_eq_true in He. case_bool_decide; unfold finish; wp_auto; [by eapply start_finish|].
    case_bool_decide; eapply start_ok; try done; simpl; unfold in_range, net in *; simpl; lia.
  - apply bool_decide_eq_true in He. case_bool_decide; unfold finish; wp_auto; [by eapply start_finish|].
    eapply start_ok; try done; simpl; unfold in_range, net in *; simpl; lia.
  - apply enabled_and in He as [Hn Hl]. by eapply release_if_waiters_step.
  - apply bool_decide_eq_true in He. by eapply notify_all_step.
  - destruct (acquires x !! f) as [[r i]|] eqn:Hf; [|done]. wp_auto. simpl in *. destruct i as [id|].
    + apply bool_decide_eq_true in He. by eapply poll_queued_step.
    + unfold goto. wp_auto. by apply (start_unqueued t f (mkAcquire r None) B x q m).
  - destruct (acquires x !! f) as [[r i]|] eqn:Hf; [|done]. wp_auto. simpl in *. destruct i as [id|].
    + apply bool_decide_eq_true in He. by eapply drop_queued_step.
    + unfold finish. wp_auto. by apply (start_unqueued t f (mkAcquire r None) B x q m).
Qed.

Lemma next_step_ok t sp pc B x :
  sys_ok B x → threads x !! t = Some pc → enabled (Step t sp) x = true →
  wp (next_step t sp pc) x (step_post t B x).
Proof.
  intros (q & m & Hx) Hpc He. simpl in He. rewrite Hpc in He. apply andb_true_iff in He as [Hlk Hroom].
  assert (wants_lock pc = true → lock x = None) as Hlock.
  { intros Hw. rewrite Hw in Hlk. simpl in Hlk. by apply bool_decide_eq_true in Hlk. }
  destruct pc; simpl.
  - by eapply try_acquire_step.
  - by eapply drain_permits_step.
  - by eapply enqueue_top_step.
  - by eapply enqueue_cas_step.
  - apply bool_decide_eq_true in Hroom. by eapply enqueue_push_step.
  - by eapply release_hint_step.
  - by eapply release_cas_step.
  - eapply lock_queue_step; eauto.
  - by eapply assign_step.
  - by eapply surplus_step.
  - by eapply fetch_add_step.
  - by eapply update_permits_step.
  - by eapply unlock_step.
Qed.

Lemma acquire_new_step f n B x :
  sys_ok B x → in_range n → fresh_future f x = true →
  sys_ok B (set_acquires (<[f:=mkAcquire n None]> (acquires x)) x).
Proof.
  intros (q & m & Hx) Hn [Hf Hfr]%enabled_and. pose proof Hx as [Hrep Hst Hav Hem Hl Hpcs Hpo Hsum].
  destruct (store_unregistered (acquires x) q m f (mkAcquire n None)) as [Hst' Hcr]; try done; [congruence|].
  exists q, m. split; try done; simpl; [|lia]. intros t pc g Hpc Hg.
  destruct (Hpo t pc g Hpc Hg) as [Hno Hu]. split; [|done]. simpl.
  rewrite lookup_insert_ne; [done|]. intros ->. by apply (Hfr t pc Hpc).
Qed.

Lemma semaphore_exec_ok l B x :
  sys_ok B x → enabled l x = true → policy l = true → wp (exec l) x (λ o x', sys_ok (B + net o) x').
Proof.
  intros Hx He Hpol. unfold exec. wp_auto. destruct l as [f n|t op|t sp]; simpl in He.
  - apply andb_true_iff in He as [Hn%bool_decide_eq_true Hf]. wp_auto. unfold net. simpl.
    rewrite Z.add_0_r. by apply acquire_new_step.
  - apply andb_true_iff in He as [Ht%bool_decide_eq_true Hop]. wp_auto. wp_apply start_step; [done..|].
    intros [pc o] x' [Hth Hok]. unfold move. wp_auto. simpl in *. by rewrite Hth.
  - destruct (threads x !! t) as [pc|] eqn:Hpc; [|done]. wp_auto. eapply wp_expect; [done|]. wp_auto.
    wp_apply (next_step_ok t sp pc B x); [done..|simpl; by rewrite Hpc|].
    intros [pc' o] x' [Hth Hok]. unfold move. wp_auto. simpl in *. by rewrite Hth.
Qed.

Lemma semaphore_init_ok n : in_range n → sys_ok n (new (W:=W) n).
Proof.
  intros Hn. exists [], ∅. split; simpl; try done.
  - apply wq_new_rep.
  - unfold credit. rewrite !map_sum_empty. lia.
Qed.

(** The balance of permits after a run. *)
Definition balance (n : Z) (tr : list (Label * Obs)) : Z := n + foldr Z.add 0 (net <$> tr.*2).

Lemma balance_app n tr l o : balance n (tr ++ [(l, o)]) = balance n tr + net o.
Proof.
  unfold balance. rewrite !fmap_app. simpl. induction (net <$> tr.*2) as [|z zs IH]; simpl in *; lia.
Qed.

Lemma semaphore_run_policy n ls tr x :
  in_range n → Forall (λ l, policy l = true) ls →
  returns (run enabled exec ls) (new n) tr x → sys_ok (balance n tr) x.
Proof.
  intros Hn Hpol Hr. apply (run_restrict _ _ policy) in Hr; [|done]. change tr with ([] ++ tr).
  eapply (run_trace_invariant _ exec (λ tr x, sys_ok (balance n tr) x)); [| |done].
  - intros tr' s l Hs [Hp He]%andb_true_iff. wp_apply semaphore_exec_ok; [done..|]. intros o s' Hs'. by rewrite balance_app.
  - unfold balance. simpl. rewrite Z.add_0_r. by apply semaphore_init_ok.
Qed.
End preservation.

Lemma sys_ok_available {W : Type → Type} `{!WaitQueue W} {DP : DebtPolicy} B (x : Sys W) :
  debts = false → sys_ok B x → 0 <= available_permits x <= B.
Proof.
  intros Hdbt (q & m & [Hrep Hst Ha _ _ Hpcs _ Hsum]). pose proof (credit_nonneg _ _ _ Hdbt Hst).
  assert (0 <= map_sum in_flight (threads x)); [|unfold in_range in Ha; lia].
  apply map_sum_nonneg. intros t pc Hpc. apply Hpcs in Hpc.
  destruct pc as [| | | |[]| | | | | | | |]; simpl in *; unfold owner_ok, in_range in *; destruct_and?; try lia.
  match goal with H : None = None → _ |- _ => specialize (H eq_refl); congruence end.
Qed.

(** ** Properties *)
Section properties.
Context {W : Type → Type} `{!WaitQueue W}.
Implicit Types (x : Sys W) (B : Z) (q : list WaiterId) (m : gmap WaiterId WaitNode).

#[local] Existing Instance with_debts.

Lemma policy_any (l : Label) : policy l = true.
Proof. by destruct l as [|? []|]. Qed.

Lemma semaphore_run_ok n ls tr x :
  in_range n → returns (run enabled exec ls) (new n) tr x → sys_ok (balance n tr) x.
Proof.
  intros Hn. apply semaphore_run_policy; [done|]. apply Forall_forall. intros l _. apply policy_any.
Qed.

(** C1: permits of the semaphore are conserved over every interleaving of threads: the available
    count, the permits carried by operations in flight and those assigned to queued acquisitions,
    less the debt of reductions, are the initial permits plus those released, minus those handed
    out, reduced or lost to an overflow panic.  The count stays in range, and permits are available
    only while nobody is queued.  No operation panics other than by the overflow of a release. *)
Theorem semaphore_permits_conserved n ls tr x :
  in_range n → returns (run enabled exec ls) (new n) tr x →
  no_panic enabled exec x ∧ in_range (available_permits x) ∧
  ∃ q m, wq_rep (waiters x) q m ∧ store_ok (acquires x) q m ∧ (q ≠ [] → available_permits x = 0) ∧
    available_permits x + map_sum in_flight (threads x) + credit (acquires x) m = balance n tr.
Proof.
  intros Hn Hr. pose proof (semaphore_run_ok n ls tr x Hn Hr) as Hx. split; [apply (no_panic_wp _ _ _ _ (λ l He, semaphore_exec_ok l _ x Hx He (policy_any l)))|].
  destruct Hx as (q & m & [Hrep Hst Ha Hem _ _ _ Hsum]). split; [done|]. by exists q, m.
Qed.

(** Without reductions the semaphore never hands out permits it does not have: over every
    interleaving, the initial permits and those released cover the permits handed out (and those
    lost to overflow), so a mutex or a reader-writer lock built on it excludes as promised. *)
Theorem semaphore_never_overcommits n ls tr x :
  in_range n → Forall (λ l, policy (DP:=without_debts) l = true) ls →
  returns (run enabled exec ls) (new n) tr x → 0 <= balance n tr.
Proof.
  intros Hn Hpol Hr. cut (0 <= available_permits x <= balance n tr); [lia|].
  apply (sys_ok_available (DP:=without_debts)); [done|].
  by eapply (semaphore_run_policy (DP:=without_debts)).
Qed.

(** The unchecked [fetch_add] of [distribute_permits] cannot overflow: the thread about to
    run it holds the lock, the queue is empty and the count is still the zero it read, although
    other threads change the count without the lock. *)
Theorem semaphore_fetch_add_exact n ls tr x t r b :
  in_range n → returns (run enabled exec ls) (new n) tr x → threads x !! t = Some (FetchAdd r b) →
  lock x = Some t ∧ wq_is_empty (waiters x) = true ∧ available_permits x = 0 ∧
  ∃ o x', returns (exec (Step t false)) x o x' ∧ available_permits x' = r ∧ r <= usize_max.
Proof.
  intros Hn Hr Ht. destruct (semaphore_run_ok n ls tr x Hn Hr) as (q & m & Hx).
  pose proof Hx as [Hrep _ _ _ Hl Hpcs _ _]. destruct (Hpcs t _ Ht) as (Hin & Hr0 & -> & Ha & _).
  split_and!; [by apply Hl; rewrite Ht|by rewrite (wq_is_empty_spec _ _ _ Hrep)|done|].
  apply wp_returns. unfold exec. wp_auto. eapply wp_expect; [done|]. simpl.
  unfold fetch_add, goto, move. wp_auto. simpl. unfold in_range in Hin. rewrite Ha. unfold wrapping_add.
  rewrite Z.mod_small; lia.
Qed.

(** The program points whose next step may panic on overflow. *)
Definition may_overflow (pc : Pc) : bool :=
  match pc with ReleaseCas _ _ | UpdatePermits _ _ _ => true | _ => false end.

Ltac invert_returns :=
  repeat match goal with
  | H : returns (mbind _ _) _ _ _ |- _ => apply returns_bind in H as (? & ? & ? & H)
  | H : returns (goto _) _ _ _ |- _ => injection H as <- <-
  | H : returns (finish _) _ _ _ |- _ => injection H as <- <-
  | H : returns (mret _) _ _ (_, _) _ |- _ => injection H as <- <-
  | H : returns (mret (_, _)) _ _ _ |- _ => injection H as <- <-
  | H : returns (match ?e with _ => _ end) _ _ _ |- _ => destruct e
  end.

(** The count such a step checks the sum with, which it loaded before. *)
Definition observed (pc : Pc) : Z := match pc with ReleaseCas _ av | UpdatePermits _ av _ => av | _ => 0 end.

Lemma next_step_quiet t sp pc x r x' :
  may_overflow pc = false → returns (next_step t sp pc) x r x' → lost r.2 = 0.
Proof.
  intros Hpc Hr. destruct pc; try done; simpl in Hr;
    unfold try_acquire, drain_permits, enqueue_top, enqueue_cas, enqueue_push, release_hint, lock_queue,
      assign, surplus, fetch_add, unlock, needed_next in Hr; invert_returns; done.
Qed.

Lemma overflow_step_quiet t sp pc B x q m :
  inv B x q m → threads x !! t = Some pc → may_overflow pc = true →
  wp (next_step t sp pc) x (λ r x1, r.2 = silent ∨ r.1 = None ∧
    lost r.2 = in_flight pc ∧ woken r.2 = [] ∧ usize_max < observed pc + lost r.2 ∧ available_permits x1 = available_permits x ∧
    waiters x1 = waiters x ∧ acquires x1 = acquires x ∧ lock x1 ≠ Some t ∧ threads x1 = threads x).
Proof.
  intros Hx Hpc Hmay. pose proof Hx as [_ _ Ha _ Hl Hpcs _ _]. pose proof (Hpcs t pc Hpc) as Hok.
  assert (lock x = Some t ↔ holds pc = true) as Hlt by (by rewrite Hl, Hpc).
  destruct pc; try done; simpl in *.
  - unfold release_cas. wp_auto. wp_apply try_update_permits_spec; [done|lia|].
    intros r' x2 [(-> & -> & Hov)|[(-> & _ & _ & ->)|(-> & ->)]]; unfold finish, goto; wp_auto; [|by left..].
    right. simpl. split_and!; try done. intros Hl'. by apply Hlt in Hl'.
  - unfold update_permits. wp_auto. wp_apply try_update_permits_spec; [done|lia|].
    intros r' x2 [(-> & -> & Hov)|[(-> & _ & _ & ->)|(-> & ->)]]; unfold finish, goto; wp_auto; [|by left..].
    right. simpl. by split_and!.
Qed.

(** C30: the step at which a release panics because the count would overflow is harmless to the others.  It
    happens only if the count the thread loaded and the permits it still carries exceed the maximum, and
    these permits are exactly what is lost; the step changes neither the count nor the queue nor the
    futures and wakes nobody, the lock is not left held by the thread, and no waker of a waiter that got its
    permits is dropped with the batch.  So what the same release handed out in earlier turns of its loop,
    each of which ends with its own wake-ups, stays with the waiters. *)
Theorem semaphore_overflow_harmless n ls tr x t sp o x' :
  in_range n → returns (run enabled exec ls) (new n) tr x → enabled (Step t sp) x = true →
  returns (exec (Step t sp)) x o x' → lost o ≠ 0 →
  (∃ pc, threads x !! t = Some pc ∧ lost o = in_flight pc ∧ woken o = [] ∧ usize_max < observed pc + in_flight pc) ∧
  available_permits x' = available_permits x ∧ waiters x' = waiters x ∧ acquires x' = acquires x ∧
  lock x' ≠ Some t ∧ threads x' !! t = None ∧
  ∀ r av b, threads x !! t = Some (UpdatePermits r av b) → wp drop_batch b (λ ws _, ws = []).
Proof.
  intros Hn Hr He Hx' Hlost. destruct (semaphore_run_ok n ls tr x Hn Hr) as (q & m & Hx).
  pose proof Hx as [Hrep _ Ha _ Hl Hpcs _ _]. simpl in He.
  destruct (threads x !! t) as [pc|] eqn:Hpc; [|done].
  assert (∀ r av b, Some pc = Some (UpdatePermits r av b) → wp drop_batch b (λ ws _, ws = [])) as Hdrop.
  { intros r av b [= ->]. destruct (Hpcs t _ Hpc) as (_ & _ & _ & _ & Hb). by apply drop_batch_spec. }
  unfold exec in Hx'. apply returns_bind in Hx' as (? & ? & [= <- <-] & Hx').
  apply returns_bind in Hx' as (pc' & ? & Hp & Hx'). rewrite Hpc in Hp. injection Hp as <- <-.
  apply returns_bind in Hx' as ([pc' o'] & x1 & Hs & Hx'). unfold move in Hx'.
  apply returns_bind in Hx' as (? & ? & [= <- <-] & [= <- <-]).
  destruct (may_overflow pc) eqn:Hmay; [|by apply next_step_quiet in Hs].
  apply (wp_returns_elim _ _ _ _ _ (overflow_step_quiet t sp pc _ x q m Hx Hpc Hmay)) in Hs.
  simpl in Hs. destruct Hs as [->|(-> & El & Ew & Ho & ? & ? & ? & ? & Hth)]; [done|].
  simpl. rewrite Hth, lookup_delete_eq. rewrite El in Ho. split_and!; try done. by exists pc.
Qed.

(** No barging: while an acquisition or a debt is queued, a lock-free acquisition of at least
    one permit does not get it, whatever count it had observed. *)
Theorem semaphore_no_barging n ls tr x t sp k av :
  in_range n → returns (run enabled exec ls) (new n) tr x →
  threads x !! t = Some (TryAcquire k av) → 0 < k → wq_is_empty (waiters x) = false →
  ∃ o x', returns (exec (Step t sp)) x o x' ∧ taken o = 0 ∧ available_permits x' = 0.
Proof.
  intros Hn Hr Ht Hk He. destruct (semaphore_run_ok n ls tr x Hn Hr) as (q & m & Hx).
  pose proof Hx as [Hrep _ _ Hem _ Hpcs _ _]. rewrite (wq_is_empty_spec _ _ _ Hrep) in He.
  apply bool_decide_eq_false in He. specialize (Hem He).
  apply wp_returns. unfold exec. wp_auto. eapply wp_expect; [done|]. simpl. unfold try_acquire. wp_auto.
  case_bool_decide; unfold finish, goto, move; wp_auto; [done|]. wp_apply compare_exchange_spec.
  intros r x1 [(Ha & -> & ->)|(Ha & -> & ->)]; [lia|]. by wp_auto.
Qed.

(** The thread that holds the queue lock can always run: it never waits for the lock again
    (storage for a waiter given), and no step of any thread panics other than on overflow. *)
Theorem semaphore_lock_holder_runs n ls tr x t sp :
  in_range n → returns (run enabled exec ls) (new n) tr x → lock x = Some t → wq_room (waiters x) →
  enabled (Step t sp) x = true ∧ ∃ o x', returns (exec (Step t sp)) x o x'.
Proof.
  intros Hn Hr Hl Hroom. pose proof (semaphore_run_ok n ls tr x Hn Hr) as Hok.
  destruct Hok as (q & m & Hx). apply (in_lock _ _ _ _ Hx) in Hl.
  assert (enabled (Step t sp) x = true) as He.
  { simpl. destruct (threads x !! t) as [pc|]; [|done]. simpl in Hl.
    rewrite (bool_decide_true (wq_room (waiters x))) by done.
    destruct pc as [| |? ? ? ? []| | | | | | | | | |]; try done. }
  split; [done|]. destruct (proj1 (wp_returns _ _ _) (semaphore_exec_ok (Step t sp) _ x (ex_intro _ q (ex_intro _ m Hx)) He eq_refl))
    as (o & x' & Hx' & _). eauto.
Qed.

(** Released permits serve the queue strictly in order: an assignment gives the head what it
    needs, up to the permits at hand, and touches no other waiter; the head leaves the queue
    exactly when its need is met. *)
Theorem semaphore_assigns_in_order n ls tr x t sp r b id q m k :
  in_range n → returns (run enabled exec ls) (new n) tr x → threads x !! t = Some (Assign r b) →
  0 < r → will_spill b = false → wq_rep (waiters x) (id :: q) m → m !! id = Some k → id ∉ q →
  ∃ o x', returns (exec (Step t sp)) x o x' ∧
    if decide (needed_permits k <= r)
    then ∃ b', threads x' !! t = Some (Assign (r - needed_permits k) b') ∧
      wq_rep (waiters x') q (match waker k with Some _ => <[id:=mkNode 0 None]> m | None => delete id m end)
    else threads x' !! t = Some (Surplus 0 b) ∧
      wq_rep (waiters x') (id :: q) (<[id:=mkNode (needed_permits k - r) (waker k)]> m).
Proof.
  intros Hn Hr Ht Hr0 Hsp Hrep Hid Hni. destruct (semaphore_run_ok n ls tr x Hn Hr) as (q' & m' & Hx).
  destruct (in_pcs _ _ _ _ Hx t _ Ht) as (_ & ws & Hb & _).
  apply wp_returns. unfold exec. wp_auto. eapply wp_expect; [done|]. simpl. unfold assign.
  rewrite bool_decide_true, Hsp by done. wp_auto. cbn [andb negb]. wp_auto.
  wp_apply (wq_unlink_first_cons _ _ _ _ k assign_closure r); [done..|]. intros r' w (-> & Hrep' & _).
  destruct (decide (needed_permits k <= r)) as [Hle|Hle].
  - assert (needed_permits k `min` r = needed_permits k) as Hmin by lia. rewrite !Hmin in Hrep'. rewrite !Hmin.
    rewrite !Z.sub_diag in Hrep' |- *. simpl in Hrep'. simpl.
    destruct (waker k) as [wk|]; wp_auto.
    + wp_apply wq_set_waiter_spec; [done|rewrite lookup_insert_eq; by eauto|].
      intros _ w' [Hrep'' _]. rewrite insert_insert_eq in Hrep''. wp_auto.
      wp_apply batch_push_spec; [done|]. intros b' x' [-> Hb']. unfold goto, move. wp_auto. simpl.
      exists b'. by rewrite lookup_insert_eq.
    + wp_apply wq_remove_spec; [done|apply lookup_insert_eq|done|].
      intros v w' (_ & Hrep'' & _). rewrite delete_insert_eq in Hrep''. unfold goto, move. wp_auto. simpl.
      exists b. by rewrite lookup_insert_eq.
  - assert (needed_permits k `min` r = r) as Hmin by lia. rewrite !Hmin in Hrep'. rewrite !Hmin.
    rewrite Z.sub_diag. rewrite bool_decide_false in Hrep' by lia.
    rewrite bool_decide_false by lia. wp_auto. unfold goto, move. wp_auto. simpl. by rewrite lookup_insert_eq.
Qed.
End properties.

(** ** Witnesses *)

#[local] Existing Instance with_debts.

(** The system after a run. *)
Definition sem_after (ls : list Label) (n : Z) : Sys WaitList :=
  match run enabled exec ls (new n) with Ret _ x | Panic _ x => x end.

(** One permit; an acquisition of two queues for the missing one while thread 2 has already read
    the count; then a release of three. *)
Definition queue_up : list Label :=
  [AcquireNew 0 2; Start 2 (OTryAcquire 1); Start 0 (OPoll 0 100%nat); Step 0 false; Step 0 false; Step 0 false].
Definition releasing : list Label := queue_up ++ [Start 1 (ORelease 3); Step 1 false].
Definition adding : list Label := releasing ++ [Step 1 false; Step 1 false; Step 1 false].
Definition settled : list Label := adding ++ [Step 1 false; Step 1 false; Start 0 (OPoll 0 100%nat); Step 2 false; Step 2 false].
Definition overflowing : list Label :=
  [Start 0 (OReleaseWithLock 1); Step 0 false; Step 0 false; Step 0 false].

Lemma semaphore_permits_conserved_witness :
  ∃ tr, returns (run enabled exec settled) (new 1) tr (sem_after settled 1) ∧
    no_panic enabled exec (sem_after settled 1) ∧ in_range (available_permits (sem_after settled 1)) ∧
    ∃ q m, wq_rep (waiters (sem_after settled 1)) q m ∧ store_ok (acquires (sem_after settled 1)) q m ∧
      (q ≠ [] → available_permits (sem_after settled 1) = 0) ∧
      available_permits (sem_after settled 1) + map_sum in_flight (threads (sem_after settled 1)) +
        credit (acquires (sem_after settled 1)) m = balance 1 tr.
Proof.
  eexists. split; [vm_compute; reflexivity|].
  eapply (semaphore_permits_conserved 1 settled); [done|vm_compute; reflexivity].
Defined.

Lemma semaphore_never_overcommits_witness :
  ∃ tr, returns (run enabled exec settled) (new 1) tr (sem_after settled 1) ∧ balance 1 tr = 1 ∧ 0 <= balance 1 tr.
Proof.
  eexists. split; [vm_compute; reflexivity|]. split; [reflexivity|].
  eapply (semaphore_never_overcommits 1 settled); [done| |vm_compute; reflexivity].
  repeat constructor.
Defined.

Lemma semaphore_fetch_add_exact_witness :
  ∃ b, threads (sem_after adding 1) !! 1%nat = Some (FetchAdd 2 b) ∧
    lock (sem_after adding 1) = Some 1%nat ∧ wq_is_empty (waiters (sem_after adding 1)) = true ∧
    available_permits (sem_after adding 1) = 0 ∧
    ∃ o x', returns (exec (Step 1 false)) (sem_after adding 1) o x' ∧ available_permits x' = 2 ∧ 2 <= usize_max.
Proof.
  eexists. split; [vm_compute; reflexivity|].
  eapply (semaphore_fetch_add_exact 1 adding); [done|vm_compute; reflexivity|vm_compute; reflexivity].
Defined.

Lemma semaphore_overflow_harmless_witness :
  ∃ o x', returns (exec (Step 0 false)) (sem_after overflowing usize_max) o x' ∧ lost o = 1 ∧
    (∃ pc, threads (sem_after overflowing usize_max) !! 0%nat = Some pc ∧ lost o = in_flight pc ∧ woken o = [] ∧ usize_max < observed pc + in_flight pc) ∧
    available_permits x' = available_permits (sem_after overflowing usize_max) ∧
    waiters x' = waiters (sem_after overflowing usize_max) ∧
    acquires x' = acquires (sem_after overflowing usize_max) ∧
    lock x' ≠ Some 0%nat ∧ threads x' !! 0%nat = None ∧
    ∀ r av b, threads (sem_after overflowing usize_max) !! 0%nat = Some (UpdatePermits r av b) →
      wp drop_batch b (λ ws _, ws = []).
Proof.
  eexists _, _. split; [vm_compute; reflexivity|]. split; [reflexivity|].
  eapply (semaphore_overflow_harmless usize_max overflowing _ _ 0 false);
    [done|vm_compute; reflexivity|vm_compute; reflexivity|vm_compute; reflexivity|done].
Defined.

Lemma semaphore_no_barging_witness :
  ∃ o x', returns (exec (Step 2 false)) (sem_after queue_up 1) o x' ∧ taken o = 0 ∧ available_permits x' = 0.
Proof.
  eapply (semaphore_no_barging 1 queue_up);
    [done|vm_compute; reflexivity|vm_compute; reflexivity|done|vm_compute; reflexivity].
Defined.

Lemma semaphore_lock_holder_runs_witness :
  enabled (Step 1 false) (sem_after adding 1) = true ∧
  ∃ o x', returns (exec (Step 1 false)) (sem_after adding 1) o x'.
Proof.
  eapply (semaphore_lock_holder_runs 1 adding); [done|vm_compute; reflexivity|vm_compute; reflexivity|].
  vm_compute. done.
Defined.

Definition queued_node : WaitNode := mkNode 1 (Some 100%nat).

Lemma semaphore_assigns_in_order_witness :
  ∃ o x', returns (exec (Step 1 false)) (sem_after releasing 1) o x' ∧
    if decide (needed_permits queued_node <= 3)
    then ∃ b', threads x' !! 1%nat = Some (Assign (3 - needed_permits queued_node) b') ∧
      wq_rep (waiters x') [] (match waker queued_node with
        | Some _ => <[1%positive:=mkNode 0 None]> {[1%positive:=queued_node]}
        | None => delete 1%positive {[1%positive:=queued_node]} end)
    else threads x' !! 1%nat = Some (Surplus 0 batch_new) ∧
      wq_rep (waiters x') [1%positive]
        (<[1%positive:=mkNode (needed_permits queued_node - 3) (waker queued_node)]> {[1%positive:=queued_node]}).
Proof.
  eapply (semaphore_assigns_in_order 1 releasing).
  - done.
  - vm_compute; reflexivity.
  - vm_compute; reflexivity.
  - done.
  - vm_compute; reflexivity.
  - apply (push_back_after waitlist_new [] ∅ queued_node 1%positive);
      [apply waitlist_new_rep|vm_compute; done|vm_compute; reflexivity].
  - apply lookup_singleton_eq.
  - set_solver.
Defined.
