(* ===== verification/SemaphorePermits.v ===== *)
(** * Permits of the public semaphore

    [asyncband/src/semaphore/mod.rs]: [SemaphorePermit] and [OwnedSemaphorePermit] own a number of
    permits of one semaphore; they are split, merged and forgotten, and release what they hold
    when dropped.  The system is a set of live permits; its theorem is a ledger per semaphore. *)
From S2P Require Import Prelude.

(** [sem] is the identity of the semaphore. *)
Record SemaphorePermit : Type := mkPermit {
  sem : nat;
  permits : Z;
}.

(** [forget]: the permit drops with nothing to release. *)
Definition forget (p : SemaphorePermit) : SemaphorePermit := mkPermit (sem p) 0.

(** [merge(&mut self, other)], on the pair of permits. *)
Definition merge : M (SemaphorePermit * SemaphorePermit) unit :=
  '(self, other) ← get;
  assert_true (bool_decide (sem self = sem other)) "merging permits from different semaphore instances";;
  n ← expect (checked_add usize_max (permits self) (permits other))
    "merged permit count would overflow usize::MAX";
  put (mkPermit (sem self) n, mkPermit (sem other) 0).

(** [split(&mut self, n)]: the permit left and the one split off. *)
Definition split (n : Z) : M SemaphorePermit (option SemaphorePermit) :=
  p ← get;
  if bool_decide (permits p < n) then mret None
  else
    left ← sub_int (permits p) n;
    put (mkPermit (sem p) left);;
    mret (Some (mkPermit (sem p) n)).

(** [Drop]: the release it performs. *)
Definition drop_permit (p : SemaphorePermit) : nat * Z := (sem p, permits p).

(** [OwnedSemaphorePermit] has the same operations on an [Arc] of the semaphore. *)
Definition owned_forget : SemaphorePermit → SemaphorePermit := forget.
Definition owned_merge : M (SemaphorePermit * SemaphorePermit) unit := merge.
Definition owned_split : Z → M SemaphorePermit (option SemaphorePermit) := split.
Definition owned_drop : SemaphorePermit → nat * Z := drop_permit.

(** ** The system of live permits *)

Abbreviation Live := (gmap nat SemaphorePermit).

Inductive Label : Type :=
| Merge (a b : nat)
| Split (a : nat) (n : Z) (new : nat)
| Forget (a : nat)
| Drop_ (a : nat).

(** The releases performed, the permits forgotten (by semaphore), and whether the call panicked. *)
Record Obs : Type := mkObs {
  released : list (nat * Z);
  forgotten : list (nat * Z);
  panicked : bool;
}.

Definition enabled (l : Label) (x : Live) : bool :=
  match l with
  | Merge a b => bool_decide (a ≠ b) && bool_decide (is_Some (x !! a)) && bool_decide (is_Some (x !! b))
  | Split a n new => bool_decide (is_Some (x !! a)) && bool_decide (x !! new = None) && bool_decide (0 <= n <= usize_max)
  | Forget a | Drop_ a => bool_decide (is_Some (x !! a))
  end.

(** A merge consumes [other]; when it panics, unwinding drops [other] as it is. *)
Definition exec (l : Label) : M Live Obs :=
  x ← get;
  match l with
  | Merge a b =>
      pa ← expect (x !! a) "no such permit";
      pb ← expect (x !! b) "no such permit";
      match merge (pa, pb) with
      | Ret _ (pa, pb) => put (<[a:=pa]> (delete b x));; mret (mkObs [drop_permit pb] [] false)
      | Panic _ (pa, pb) => put (<[a:=pa]> (delete b x));; mret (mkObs [drop_permit pb] [] true)
      end
  | Split a n new =>
      pa ← expect (x !! a) "no such permit";
      '(r, pa) ← run_local pa (r ← split n; pa ← get; mret (r, pa));
      match r with
      | Some p => put (<[new:=p]> (<[a:=pa]> x));; mret (mkObs [] [] false)
      | None => put (<[a:=pa]> x);; mret (mkObs [] [] false)
      end
  | Forget a =>
      pa ← expect (x !! a) "no such permit";
      put (delete a x);;
      mret (mkObs [drop_permit (forget pa)] [(sem pa, permits pa)] false)
  | Drop_ a =>
      pa ← expect (x !! a) "no such permit";
      put (delete a x);;
      mret (mkObs [drop_permit pa] [] false)
  end.

(** Permits of semaphore [k] that are live, or in a list of amounts. *)
Definition of_sem (k : nat) (p : SemaphorePermit) : Z := if decide (sem p = k) then permits p else 0.
Definition live (k : nat) (x : Live) : Z := map_sum (of_sem k) x.
Definition amount (k : nat) (l : list (nat * Z)) : Z :=
  foldr Z.add 0 ((λ r : nat * Z, if decide (r.1 = k) then r.2 else 0) <$> l).

Definition live_ok (x : Live) : Prop := ∀ a p, x !! a = Some p → 0 <= permits p <= usize_max.

(** A merge moves the permits of [other], or changes nothing. *)
Lemma merge_result pa pb :
  0 <= permits pa <= usize_max → 0 <= permits pb <= usize_max →
  (∃ e, merge (pa, pb) = Panic e (pa, pb) ∧ (sem pa ≠ sem pb ∨ usize_max < permits pa + permits pb)) ∨
  (merge (pa, pb) = Ret tt (mkPermit (sem pa) (permits pa + permits pb), mkPermit (sem pb) 0) ∧
    sem pa = sem pb ∧ permits pa + permits pb <= usize_max).
Proof.
  intros Ha Hb. unfold merge, mbind, M_bind, get, assert_true. case_bool_decide as Hs; [|left; by eauto].
  unfold expect, checked_add, mret, M_ret. case_decide as Hle; [by right|].
  left. eexists. split; [done|]. right. lia.
Qed.

Definition ledger_post (x : Live) (o : Obs) (x' : Live) : Prop :=
  live_ok x' ∧ ∀ k, live k x' + amount k (released o) + amount k (forgotten o) = live k x.

(** Replacing one live permit and removing another. *)
Lemma live_merge k (x : Live) a b pa pb qa :
  a ≠ b → x !! a = Some pa → x !! b = Some pb →
  live k (<[a:=qa]> (delete b x)) = live k x - of_sem k pa - of_sem k pb + of_sem k qa.
Proof.
  intros Hne Ha Hb. unfold live.
  rewrite (map_sum_update _ _ _ pa) by (by rewrite lookup_delete_ne). rewrite (map_sum_delete _ _ _ pb) by done. lia.
Qed.

Lemma exec_ledger l x :
  live_ok x → enabled l x = true → wp (exec l) x (ledger_post x).
Proof.
  intros Hx He. unfold exec. wp_auto. destruct l as [a b|a n new|a|a]; simpl in He.
  - apply andb_true_iff in He as [[Hne [pa Ha]]%enabled_and [pb Hb]%bool_decide_eq_true].
    wp_auto. eapply wp_expect; [done|]. wp_auto. eapply wp_expect; [done|].
    assert (∀ q, 0 <= permits q <= usize_max → live_ok (<[a:=q]> (delete b x))) as Hok.
    { intros q Hq c p. rewrite lookup_insert. case_decide; intros; simplify_eq; [done|].
      eapply Hx. by eapply lookup_delete_Some. }
    destruct (merge_result pa pb (Hx _ _ Ha) (Hx _ _ Hb)) as [(e & -> & _)|(-> & Hs & Hle)]; wp_auto.
    + split; [by apply Hok, (Hx _ _ Ha)|]. intros k. rewrite (live_merge k x a b pa pb pa) by done.
      unfold amount, of_sem. simpl. lia.
    + pose proof (Hx _ _ Ha). pose proof (Hx _ _ Hb). split; [apply Hok; simpl; lia|]. intros k.
      rewrite (live_merge k x a b pa pb _) by done. unfold amount, of_sem. simpl. rewrite Hs.
      repeat case_decide; lia.
  - apply andb_true_iff in He as [[[pa Ha] Hnew]%enabled_and Hn%bool_decide_eq_true].
    wp_auto. eapply wp_expect; [done|]. wp_auto. apply wp_run_local. unfold split. wp_auto.
    pose proof (Hx _ _ Ha) as Hpa. case_bool_decide as Hlt; wp_auto.
    + rewrite insert_id by done. split; [done|]. intros k. unfold amount. simpl. lia.
    + apply wp_sub_int; [lia|]. wp_auto. assert (a ≠ new) as Hne by congruence. split.
      * intros c p. rewrite !lookup_insert. repeat case_decide; intros; simplify_eq/=; try lia. by eapply Hx.
      * intros k. unfold live. rewrite map_sum_insert by (by rewrite lookup_insert_ne).
        rewrite (map_sum_update _ _ _ pa) by done. unfold amount, of_sem. simpl. repeat case_decide; lia.
  - apply bool_decide_eq_true in He as [pa Ha]. wp_auto. eapply wp_expect; [done|]. wp_auto. split.
    + intros c p [_ Hp]%lookup_delete_Some. by eapply Hx.
    + intros k. unfold live. rewrite (map_sum_delete _ _ _ pa) by done. unfold amount, of_sem. simpl.
      repeat case_decide; lia.
  - apply bool_decide_eq_true in He as [pa Ha]. wp_auto. eapply wp_expect; [done|]. wp_auto. split.
    + intros c p [_ Hp]%lookup_delete_Some. by eapply Hx.
    + intros k. unfold live. rewrite (map_sum_delete _ _ _ pa) by done. unfold amount, of_sem. simpl.
      repeat case_decide; lia.
Qed.

Definition total (k : nat) (f : Obs → list (nat * Z)) (tr : list (Label * Obs)) : Z :=
  amount k (concat (f <$> tr.*2)).

Lemma amount_app k l1 l2 : amount k (l1 ++ l2) = amount k l1 + amount k l2.
Proof. unfold amount. rewrite fmap_app. induction (_ <$> l1) as [|z zs IH]; simpl; lia. Qed.

(** Permits are never duplicated or lost by splitting, merging, forgetting and dropping: over
    every sequence of these operations, panicking merges included, the live permits of each
    semaphore, those released to it and those deliberately forgotten add up to what was live at the
    start; counts stay in range, so a permit never releases more than it holds. *)
Theorem permit_ledger ls x tr x' k :
  live_ok x → returns (run enabled exec ls) x tr x' →
  live_ok x' ∧ live k x' + total k released tr + total k forgotten tr = live k x.
Proof.
  intros Hx Hr. change tr with ([] ++ tr).
  eapply (run_trace_invariant enabled exec (λ tr y, live_ok y ∧
    live k y + total k released tr + total k forgotten tr = live k x)); [| |done].
  - intros tr' s l [Hs Hsum] He. wp_apply exec_ledger; [done..|]. intros o s' [Hs' Hk]. split; [done|].
    specialize (Hk k). unfold total in *. rewrite !fmap_app, !concat_app, !amount_app. simpl.
    rewrite !app_nil_r. lia.
  - split; [done|]. unfold total, amount. simpl. lia.
Qed.

Definition sample_live : Live := {[0%nat := mkPermit 0 5; 1%nat := mkPermit 0 (usize_max - 2); 2%nat := mkPermit 1 1]}.
Definition sample_ops : list Label := [Split 0 2 3; Merge 1 0; Merge 3 2; Forget 3; Drop_ 1].

Lemma permit_ledger_witness :
  ∃ tr x', returns (run enabled exec sample_ops) sample_live tr x' ∧ live_ok x' ∧
    live 0 x' + total 0 released tr + total 0 forgotten tr = live 0 sample_live.
Proof.
  eexists _, _. split; [vm_compute; reflexivity|].
  apply (permit_ledger sample_ops); [|vm_compute; reflexivity].
  intros a p. unfold sample_live. rewrite !lookup_insert, lookup_singleton.
  repeat case_decide; intros; simplify_eq; simpl; unfold usize_max; lia.
Defined.
