(* ===== verification/PermitPool.v ===== *)
(** * The interface of a permit pool

    What the internal semaphore promises to the primitives that use it as a counter of permits
    (the mutex, the reader-writer locks, the pools): permits are taken and given back, and no
    more are out than were put in.  The locks are verified against this class; the semaphore's
    thread system is an instance, and a plain counter is the reference model. *)
From S2P Require Import Prelude Arena WakerBatch WaitQueue WaitList Semaphore SemaphoreSys.

Class PermitPool (P : Type) : Type := {
  (** Well-formed pools, the permits not handed out, and the count an observer reads, which leaves out
      permits on their way. *)
  pp_ok : P → Prop;
  pp_free : P → Z;
  pp_available : P → Z;
  (** [pp_take n]: an acquisition of [n] permits succeeds; [pp_give n]: [n] permits are released;
      [pp_internal]: any other step, such as queueing or a failed attempt. *)
  pp_take : Z → P → P → Prop;
  pp_give : Z → P → P → Prop;
  pp_internal : P → P → Prop;

  pp_take_spec n p p' : pp_ok p → pp_take n p p' → pp_ok p' ∧ pp_free p' = pp_free p - n;
  pp_give_spec n p p' : pp_ok p → pp_give n p p' → pp_ok p' ∧ pp_free p' = pp_free p + n;
  pp_internal_spec p p' : pp_ok p → pp_internal p p' → pp_ok p' ∧ pp_free p' <= pp_free p;
  pp_available_spec p : pp_ok p → 0 <= pp_available p <= pp_free p;
}.

Lemma pp_nonneg {P : Type} `{!PermitPool P} (p : P) : pp_ok p → 0 <= pp_free p.
Proof. intros Hp. pose proof (pp_available_spec p Hp). lia. Qed.

(** ** The reference model: a counter *)
Section counter.

Definition counter_take (n p p' : Z) : Prop := 0 <= n <= p ∧ p' = p - n.
Definition counter_give (n p p' : Z) : Prop := 0 <= n ∧ p' = p + n.

Lemma counter_take_spec n p p' : 0 <= p → counter_take n p p' → 0 <= p' ∧ p' = p - n.
Proof. unfold counter_take. lia. Qed.
Lemma counter_give_spec n p p' : 0 <= p → counter_give n p p' → 0 <= p' ∧ p' = p + n.
Proof. unfold counter_give. lia. Qed.
Lemma counter_available_spec (p : Z) : 0 <= p → 0 <= p <= p.
Proof. lia. Qed.
Lemma counter_internal_spec (p p' : Z) : 0 <= p → p = p' → 0 <= p' ∧ p' <= p.
Proof. lia. Qed.

#[global] Instance counter_pool : PermitPool Z := {
  pp_ok p := 0 <= p;
  pp_free p := p;
  pp_available p := p;
  pp_take := counter_take;
  pp_give := counter_give;
  pp_internal := eq;
  pp_take_spec := counter_take_spec;
  pp_give_spec := counter_give_spec;
  pp_internal_spec := counter_internal_spec;
  pp_available_spec := counter_available_spec;
}.
End counter.

(** ** The semaphore is a permit pool

    The pool is the thread system paired with its balance of permits; a step of the system takes
    or gives the permits its observation shows. *)
Section semaphore_pool.
Context {W : Type → Type} `{!WaitQueue W}.

(** One step of the thread system, without reductions. *)
Definition sem_step (p p' : Sys W * Z) (o : Obs) : Prop :=
  ∃ l, policy (DP:=without_debts) l = true ∧ enabled l p.1 = true ∧
    returns (exec l) p.1 o p'.1 ∧ p'.2 = p.2 + net o.

Definition sem_ok (p : Sys W * Z) : Prop := sys_ok (DP:=without_debts) p.2 p.1.
Definition sem_take (n : Z) (p p' : Sys W * Z) : Prop := ∃ o, sem_step p p' o ∧ net o = - n ∧ taken o = n.
Definition sem_give (n : Z) (p p' : Sys W * Z) : Prop := ∃ o, sem_step p p' o ∧ net o = n ∧ gained o = n.
Definition sem_internal (p p' : Sys W * Z) : Prop := ∃ o, sem_step p p' o ∧ net o <= 0 ∧ taken o = 0.

Lemma sem_step_ok p p' o : sem_ok p → sem_step p p' o → sem_ok p' ∧ p'.2 = p.2 + net o.
Proof.
  intros Hp (l & Hpol & He & Hx & Hb). split; [|done]. unfold sem_ok in *. rewrite Hb.
  by apply (wp_returns_elim _ _ _ _ _ (semaphore_exec_ok (DP:=without_debts) l _ _ Hp He Hpol) Hx).
Qed.

Lemma sem_take_spec n p p' : sem_ok p → sem_take n p p' → sem_ok p' ∧ p'.2 = p.2 - n.
Proof. intros Hp (o & Ho & Hn & _). destruct (sem_step_ok _ _ _ Hp Ho) as [Hok Hb]. split; [done|lia]. Qed.
Lemma sem_give_spec n p p' : sem_ok p → sem_give n p p' → sem_ok p' ∧ p'.2 = p.2 + n.
Proof. intros Hp (o & Ho & Hn & _). destruct (sem_step_ok _ _ _ Hp Ho) as [Hok Hb]. split; [done|lia]. Qed.
Lemma sem_internal_spec p p' : sem_ok p → sem_internal p p' → sem_ok p' ∧ p'.2 <= p.2.
Proof. intros Hp (o & Ho & Hn & _). destruct (sem_step_ok _ _ _ Hp Ho) as [Hok Hb]. split; [done|lia]. Qed.
Lemma sem_available_spec p : sem_ok p → 0 <= available_permits p.1 <= p.2.
Proof. intros Hp. by apply (sys_ok_available (DP:=without_debts)). Qed.

#[global] Instance semaphore_pool : PermitPool (Sys W * Z) := {
  pp_ok := sem_ok;
  pp_free := snd;
  pp_available p := available_permits p.1;
  pp_take := sem_take;
  pp_give := sem_give;
  pp_internal := sem_internal;
  pp_take_spec := sem_take_spec;
  pp_give_spec := sem_give_spec;
  pp_internal_spec := sem_internal_spec;
  pp_available_spec := sem_available_spec;
}.

Lemma sem_pool_new n : in_range n → pp_ok (P:=Sys W * Z) (new n, n) ∧ pp_free (P:=Sys W * Z) (new n, n) = n.
Proof. intros Hn. split; [|done]. by apply (semaphore_init_ok (DP:=without_debts)). Qed.
End semaphore_pool.
