(* ===== verification/PublicSemaphore.v ===== *)
(** * The public semaphore

    [asyncband/src/semaphore/mod.rs]: any number of semaphores, each a permit pool, and the permits taken
    from them.  The operations on permits are those of SemaphorePermits; what they release goes back to
    the pool it came from.  [reduce_permits], which may leave a debt, is an operation of the thread
    system of Semaphore only. *)
From S2P Require Import Prelude PermitPool SemaphorePermits.

Section public.
Context {P : Type} `{!PermitPool P}.

Record Sys : Type := mkSys {
  pools : gmap nat P;
  held : gmap nat SemaphorePermit;
}.
Implicit Types (x y : Sys) (k a : nat) (n : Z) (ps : gmap nat P).

(** A pool is given [n] permits; releasing none leaves it alone. *)
Definition give k n ps ps' : Prop :=
  if decide (n = 0) then ps' = ps else ∃ p p', ps !! k = Some p ∧ pp_give n p p' ∧ ps' = <[k:=p']> ps.
Definition take k n ps ps' : Prop := ∃ p p', ps !! k = Some p ∧ pp_take n p p' ∧ ps' = <[k:=p']> ps.

(** Several releases in a row. *)
Inductive gives : list (nat * Z) → gmap nat P → gmap nat P → Prop :=
| gives_nil ps : gives [] ps ps
| gives_cons k n rs ps ps1 ps' : give k n ps ps1 → gives rs ps1 ps' → gives ((k, n) :: rs) ps ps'.

(** [acquire().await]. *)
Definition acquire k n a x x' : Prop :=
  0 <= n <= usize_max ∧ held x !! a = None ∧ ∃ ps', take k n (pools x) ps' ∧ x' = mkSys ps' (<[a:=mkPermit k n]> (held x)).
(** [try_acquire]: a permit, or nothing. *)
Definition try_acquire k n a (r : option nat) x x' : Prop :=
  match r with Some _ => acquire k n a x x' | None => x' = x end.
(** The same through an [Arc]. *)
Definition acquire_owned k n a x x' : Prop := acquire k n a x x'.
Definition try_acquire_owned k n a (r : option nat) x x' : Prop := try_acquire k n a r x x'.

(** [release(permits)]. *)
Definition release k n x x' : Prop := ∃ ps', 0 <= n ∧ give k n (pools x) ps' ∧ x' = mkSys ps' (held x).
(** [drain_permits(up_to)] returns how many it took. *)
Definition drain_permits k up_to n x x' : Prop :=
  0 <= n <= up_to ∧ if decide (n = 0) then x' = x else ∃ ps', take k n (pools x) ps' ∧ x' = mkSys ps' (held x).
Definition available_permits k x : option Z := pp_available <$> pools x !! k.

(** The permits that enter and leave the system, by semaphore. *)
Inductive steps x : list (nat * Z) → Sys → Prop :=
| steps_nil : steps x [] x
| steps_acquire fl y y' k n a : steps x fl y → acquire k n a y y' → steps x fl y'
| steps_try fl y y' k n a r : steps x fl y → try_acquire k n a r y y' → steps x fl y'
| steps_acquire_owned fl y y' k n a : steps x fl y → acquire_owned k n a y y' → steps x fl y'
| steps_try_owned fl y y' k n a r : steps x fl y → try_acquire_owned k n a r y y' → steps x fl y'
| steps_release fl y y' k n : steps x fl y → release k n y y' → steps x (fl ++ [(k, n)]) y'
| steps_drain fl y y' k m n : steps x fl y → drain_permits k m n y y' → steps x (fl ++ [(k, - n)]) y'
| steps_permit fl y l o h' ps' :
    steps x fl y → enabled l (held y) = true → returns (exec l) (held y) o h' → gives (released o) (pools y) ps' →
    steps x (fl ++ ((λ e, (e.1, - e.2)) <$> forgotten o)) (mkSys ps' h')
| steps_pool fl y k p p' : steps x fl y → pools y !! k = Some p → pp_internal p p' → steps x fl (mkSys (<[k:=p']> (pools y)) (held y)).

(** The permits of a semaphore that are free. *)
Definition free k ps : Z := from_option pp_free 0 (ps !! k).
Definition sys_ok x : Prop := (∀ k p, pools x !! k = Some p → pp_ok p) ∧ live_ok (held x).

Lemma give_ok k n ps ps' : (∀ k p, ps !! k = Some p → pp_ok p) → give k n ps ps' →
  (∀ k p, ps' !! k = Some p → pp_ok p) ∧ ∀ j, free j ps' = free j ps + (if decide (k = j) then n else 0).
Proof.
  intros Hps. unfold give. case_decide as E; [intros ->; split; [done|]; intros j; case_decide; lia|]. intros (p & p' & Hk & Hg & ->).
  destruct (pp_give_spec _ _ _ (Hps _ _ Hk) Hg) as [Hp' Hf]. split.
  - intros j q. rewrite lookup_insert. case_decide; intros; simplify_eq; eauto.
  - intros j. unfold free. rewrite lookup_insert. case_decide; subst; [by rewrite Hk|lia].
Qed.

Lemma take_ok_pools k n ps ps' : (∀ k p, ps !! k = Some p → pp_ok p) → take k n ps ps' →
  (∀ k p, ps' !! k = Some p → pp_ok p) ∧ ∀ j, free j ps' = free j ps - (if decide (k = j) then n else 0).
Proof.
  intros Hps (p & p' & Hk & Hg & ->). destruct (pp_take_spec _ _ _ (Hps _ _ Hk) Hg) as [Hp' Hf]. split.
  - intros j q. rewrite lookup_insert. case_decide; intros; simplify_eq; eauto.
  - intros j. unfold free. rewrite lookup_insert. case_decide; subst; [by rewrite Hk|lia].
Qed.

Lemma gives_ok rs ps ps' : (∀ k p, ps !! k = Some p → pp_ok p) → gives rs ps ps' →
  (∀ k p, ps' !! k = Some p → pp_ok p) ∧ ∀ j, free j ps' = free j ps + amount j rs.
Proof.
  intros Hps Hg. induction Hg as [ps|k n rs ps ps1 ps' H1 _ IH]; [split; [done|]; intros j; by rewrite Z.add_0_r|].
  destruct (give_ok _ _ _ _ Hps H1) as [Hok Hf]. destruct (IH Hok) as [Hok' Hf']. split; [done|]. intros j. rewrite Hf', Hf.
  assert (amount j ((k, n) :: rs) = (if decide (k = j) then n else 0) + amount j rs) as -> by done. lia.
Qed.

Definition ledger x fl y : Prop := sys_ok y ∧ ∀ k, free k (pools y) + live k (held y) <= free k (pools x) + live k (held x) + amount k fl.

Lemma acquire_ok x k n a x' : sys_ok x → acquire k n a x x' → sys_ok x' ∧ ∀ j, free j (pools x') + live j (held x') = free j (pools x) + live j (held x).
Proof.
  intros [Hp Hl] (Hn & Ha & ps' & Ht & ->). destruct (take_ok_pools _ _ _ _ Hp Ht) as [Hp' Hf]. split; [split; [done|]|].
  - intros j q. simpl. rewrite lookup_insert. case_decide; intros; simplify_eq; [done|by eapply Hl].
  - intros j. simpl. rewrite Hf. unfold live. rewrite map_sum_insert by done.
    assert (of_sem j (mkPermit k n) = if decide (k = j) then n else 0) as -> by done. lia.
Qed.

Lemma amount_negated k (rs : list (nat * Z)) : amount k ((λ e, (e.1, - e.2)) <$> rs) = - amount k rs.
Proof. unfold amount. induction rs as [|[j n] rs IH]; [done|]. csimpl. rewrite IH. case_decide; lia. Qed.

(** Permits of the public semaphore are not made up: over any sequence of acquisitions, releases, drains and
    operations on permits of any number of semaphores, the free permits of each and those its live
    permits hold are at most what it began with and what was released to it, less what was drained and
    forgotten. *)
Theorem public_semaphore_ledger x fl y k :
  sys_ok x → steps x fl y → free k (pools y) + live k (held y) <= free k (pools x) + live k (held x) + amount k fl.
Proof.
  intros Hx Hs. cut (ledger x fl y); [by intros [_ H]|]. assert (amount k [] = 0) as A0 by done.
  assert (∀ fl y j n d, ledger x fl y → sys_ok d → (∀ i, free i (pools d) + live i (held d) = free i (pools y) + live i (held y) + (if decide (j = i) then n else 0)) →
    ledger x (fl ++ [(j, n)]) d) as Hflow.
  { intros fl' z j n d [_ Hz] Hd He. split; [done|]. intros i. rewrite amount_app. specialize (Hz i). specialize (He i). unfold amount at 2. simpl. lia. }
  induction Hs as [|fl y y' j n a _ IH Ha|fl y y' j n a r _ IH Ha|fl y y' j n a _ IH Ha|fl y y' j n a r _ IH Ha|fl y y' j n _ IH Ha|fl y y' j m n _ IH Ha
    |fl y l o h' ps' _ IH He Hr Hg|fl y j p p' _ IH Hj Hi].
  - split; [done|]. intros i. unfold amount. simpl. lia.
  - destruct IH as [Hy Hle]. destruct (acquire_ok _ _ _ _ _ Hy Ha) as [Hy' Heq]. split; [done|]. intros i. rewrite Heq. apply Hle.
  - destruct r as [?|]; [|by rewrite Ha]. destruct IH as [Hy Hle]. destruct (acquire_ok _ _ _ _ _ Hy Ha) as [Hy' Heq]. split; [done|]. intros i. rewrite Heq. apply Hle.
  - destruct IH as [Hy Hle]. destruct (acquire_ok _ _ _ _ _ Hy Ha) as [Hy' Heq]. split; [done|]. intros i. rewrite Heq. apply Hle.
  - destruct r as [?|]; [|by rewrite Ha]. destruct IH as [Hy Hle]. destruct (acquire_ok _ _ _ _ _ Hy Ha) as [Hy' Heq]. split; [done|]. intros i. rewrite Heq. apply Hle.
  - destruct Ha as (ps' & Hn & Hg & ->). pose proof IH as [[Hp Hl] _]. destruct (give_ok _ _ _ _ Hp Hg) as [Hp' Hf].
    apply (Hflow _ _ _ _ _ IH); [by split|]. intros i. simpl. rewrite Hf. lia.
  - destruct Ha as (Hn & Ha). pose proof IH as [[Hp Hl] _]. case_decide as E.
    + subst. apply (Hflow _ _ _ _ _ IH); [by split|]. intros i. case_decide; lia.
    + destruct Ha as (ps' & Ht & ->). destruct (take_ok_pools _ _ _ _ Hp Ht) as [Hp' Hf]. apply (Hflow _ _ _ _ _ IH); [by split|].
      intros i. simpl. rewrite Hf. case_decide; lia.
  - destruct IH as [[Hp Hl] Hle]. destruct (wp_returns_elim _ _ _ _ _ (exec_ledger l _ Hl He) Hr) as [Hl' Hk]. destruct (gives_ok _ _ _ Hp Hg) as [Hp' Hf].
    split; [by split|]. intros i. simpl. rewrite Hf, amount_app, amount_negated. specialize (Hk i). specialize (Hle i). lia.
  - destruct IH as [[Hp Hl] Hle]. destruct (pp_internal_spec _ _ (Hp _ _ Hj) Hi) as [Hp' Hf]. split; [split; [|done]|].
    + intros i q. simpl. rewrite lookup_insert. case_decide; intros; simplify_eq; eauto.
    + intros i. simpl. specialize (Hle i). unfold free in *. rewrite lookup_insert. case_decide as E; [|done]. subst i. rewrite Hj in Hle. simpl in *. lia.
Qed.
End public.
Arguments Sys : clear implicits.

(** A semaphore of four permits: two are acquired, one of them is split off and forgotten. *)
Lemma public_semaphore_ledger_witness :
  ∃ y : Sys Z, steps (mkSys {[7%nat := 4]} ∅) [(7%nat, -1)] y ∧
    free 7 (pools y) + live 7 (held y) <= 4 + 0 + amount 7 [(7%nat, -1)].
Proof.
  eexists (mkSys {[7%nat := 2]} {[0%nat := mkPermit 7 1]}).
  assert (steps (P := Z) (mkSys {[7%nat := 4]} ∅) [(7%nat, -1)] (mkSys {[7%nat := 2]} {[0%nat := mkPermit 7 1]})) as Hs.
  { refine (steps_permit _ [] (mkSys {[7%nat := 2]} {[0%nat := mkPermit 7 1; 1%nat := mkPermit 7 1]}) (Forget 1) (mkObs [(7%nat, 0)] [(7%nat, 1)] false) _ _ _ eq_refl eq_refl _).
    - refine (steps_permit _ [] (mkSys {[7%nat := 2]} {[0%nat := mkPermit 7 2]}) (Split 0 1 1) (mkObs [] [] false) _ _ _ eq_refl eq_refl (gives_nil _)).
      refine (steps_acquire _ [] (mkSys {[7%nat := 4]} ∅) _ 7 2 0 (steps_nil _) _). split; [by vm_compute|]. split; [done|].
      eexists. split; [|reflexivity]. exists 4, 2. split_and!; [done|change (counter_take 2 4 2); unfold counter_take; lia|done].
    - refine (gives_cons 7 0 [] _ _ _ _ (gives_nil _)). reflexivity. }
  split; [exact Hs|]. refine (public_semaphore_ledger (P := Z) (mkSys {[7%nat := 4]} ∅) [(7%nat, -1)] _ 7 _ Hs).
  split; simpl; [|intros a p; by rewrite lookup_empty]. intros k p [_ <-]%lookup_singleton_Some. by vm_compute.
Defined.
