(* ===== verification/UnitSemaphore.v ===== *)
(** * The internal semaphore for requests of one permit

    Producers of the bounded broadcast channel use the internal semaphore for one permit at a time, and
    release to it only under its lock.  For such a client the semaphore of
    [asyncband/src/internal/semaphore.rs] is a count, a queue of futures with their wakers and a set of
    futures that have been granted a permit they have not collected yet.  The operations of this
    specification are the locked sections of Semaphore: the theorem below says that a thread that
    runs a section on its own has the effect and the result of the operation. *)
From S2P Require Import Prelude Arena WakerBatch WaitQueue WaitList Semaphore.

(** ** The specification *)
Record TxPermits : Type := mkTx {
  permits : Z;
  queue : list (nat * Waker);
  granted : gset nat;
}.

Definition tx_new : TxPermits := mkTx 0 [] ∅.

(** [distribute_permits] hands [n] permits to the oldest waiters; the tasks woken. *)
Fixpoint grant (n : nat) (s : TxPermits) : TxPermits * list Waker :=
  match n, queue s with
  | S n, (f, wk) :: q =>
      let (s, ws) := grant n (mkTx (permits s) q ({[f]} ∪ granted s)) in (s, wk :: ws)
  | _, _ => (s, [])
  end.

(** One turn of its loop, under the lock: as many as the batch of wakers holds; what is left over
    once the queue is empty becomes available.  The rest is returned. *)
Definition distribute (n : Z) (s : TxPermits) : TxPermits * list Waker * Z :=
  let k := Nat.min (Z.to_nat n) STACK_SIZE in
  let (s', ws) := grant k s in
  let rest := n - Z.of_nat (length ws) in
  if bool_decide (queue s' = []) then (mkTx (permits s' + rest) [] (granted s'), ws, 0)
  else (s', ws, rest).

(** [notify_all]. *)
Definition notify_all (s : TxPermits) : TxPermits * list Waker :=
  (mkTx (permits s) [] (list_to_set (queue s).*1 ∪ granted s), (queue s).*2).

(** [Acquire::poll] by the producer [f]: whether it is ready. *)
Definition acquire_poll (f : nat) (cx : Waker) (s : TxPermits) : TxPermits * bool :=
  if bool_decide (f ∈ granted s) then (mkTx (permits s) (queue s) (granted s ∖ {[f]}), true)
  else if bool_decide (f ∈ (queue s).*1) then
    (mkTx (permits s) ((λ e, if bool_decide (e.1 = f) then (f, cx) else e) <$> queue s) (granted s), false)
  else if bool_decide (0 < permits s) then (mkTx (permits s - 1) (queue s) (granted s), true)
  else (mkTx (permits s) (queue s ++ [(f, cx)]) (granted s), false).

(** [Acquire::drop]: a permit that was granted goes to the next. *)
Definition acquire_drop (f : nat) (s : TxPermits) : TxPermits * list Waker :=
  if bool_decide (f ∈ granted s) then
    let '(s, ws, _) := distribute 1 (mkTx (permits s) (queue s) (granted s ∖ {[f]})) in (s, ws)
  else (mkTx (permits s) (filter (λ e, e.1 ≠ f) (queue s)) (granted s), []).

(** The operations with their results: the permits left to distribute, the permits acquired, the tasks
    woken. *)
Inductive UnitOp : Type :=
| UNew (f : nat)
| UPoll (f : nat) (cx : Waker)
| UDrop (f : nat)
| UReleaseIfWaiters (n : Z)
| UDistribute (n : Z)
| UNotifyAll.

Definition unit_exec (op : UnitOp) (s : TxPermits) : TxPermits * (Z * Z * list Waker) :=
  match op with
  | UNew _ => (s, (0, 0, []))
  | UPoll f cx => let (s, ready) := acquire_poll f cx s in (s, (0, if (ready : bool) then 1 else 0, []))
  | UDrop f => let (s, ws) := acquire_drop f s in (s, (0, 0, ws))
  | UReleaseIfWaiters n =>
      if bool_decide (queue s = []) then (s, (0, 0, []))
      else let '(s, ws, rest) := distribute n s in (s, (rest, 0, ws))
  | UDistribute n => let '(s, ws, rest) := distribute n s in (s, (rest, 0, ws))
  | UNotifyAll => let (s, ws) := notify_all s in (s, (0, 0, ws))
  end.

Fixpoint unit_execs (ops : list UnitOp) (s : TxPermits) : TxPermits * list (Z * Z * list Waker) :=
  match ops with
  | [] => (s, [])
  | op :: ops =>
      let (s, r) := unit_exec op s in
      let (s, rs) := unit_execs ops s in
      (s, r :: rs)
  end.

(** ** The sections of the program *)
Section sections.
Context {W : Type → Type} `{!WaitQueue W}.
Implicit Types (x : Sys W) (s : TxPermits) (q : list WaiterId) (m : gmap WaiterId WaitNode) (f t : nat) (b : WakerBatch) (ws : list Waker).

(** A thread goes on alone until it is done or has to take the lock again. *)
Fixpoint proceed (fuel : nat) (t : nat) (r : option Pc * Obs) : M (Sys W) (Z * Z * list Waker) :=
  match r.1 with
  | None => mret (0, taken r.2, woken r.2)
  | Some (LockQueue n) => mret (n, taken r.2, woken r.2)
  | Some pc =>
      match fuel with
      | O => panic "the section has not ended"
      | S fuel =>
          r' ← next_step t false pc;
          '(n, k, ws) ← proceed fuel t r';
          mret (n, taken r.2 + k, woken r.2 ++ ws)
      end
  end.

#[local] Arguments proceed : simpl never.

(** The batch of wakers bounds a section; the rest is the bookkeeping around its loop. *)
Definition section_fuel : nat := STACK_SIZE + 8.

Definition unit_section (t : nat) (op : UnitOp) : M (Sys W) (Z * Z * list Waker) :=
  r ← match op with
      | UNew f => exec (AcquireNew f 1);; finish silent
      | UPoll f cx => start t (OPoll f cx)
      | UDrop f => start t (ODrop f)
      | UReleaseIfWaiters n => start t (OReleaseIfWaiters n)
      | UDistribute n => next_step t false (LockQueue n)
      | UNotifyAll => start t ONotifyAll
      end;
  proceed section_fuel t r.

(** The futures exist and ask for one permit, the count does not overflow, a waiter can be stored. *)
Definition unit_enabled (op : UnitOp) x s : Prop :=
  match op with
  | UNew f => acquires x !! f = None
  | UPoll f _ => is_Some (acquires x !! f) ∧ wq_room (waiters x)
  | UDrop f => is_Some (acquires x !! f) ∧ permits s < usize_max
  | UReleaseIfWaiters n | UDistribute n => 0 < n ∧ permits s + n <= usize_max
  | UNotifyAll => True
  end.

#[export] Instance unit_enabled_dec op x s : Decision (unit_enabled op x s).
Proof. destruct op; apply _. Defined.

(** *** Sequences of sections *)
Fixpoint unit_sections (t : nat) (ops : list UnitOp) : M (Sys W) (list (Z * Z * list Waker)) :=
  match ops with
  | [] => mret []
  | op :: ops => r ← unit_section t op; rs ← unit_sections t ops; mret (r :: rs)
  end.

Fixpoint unit_enableds (t : nat) (ops : list UnitOp) x s : bool :=
  match ops with
  | [] => true
  | op :: ops =>
      bool_decide (unit_enabled op x s) &&
      match unit_section t op x with
      | Ret _ x => unit_enableds t ops x (unit_exec op s).1
      | Panic _ _ => true
      end
  end.

(** *** The state as the specification sees it *)
Record unit_store x s q m : Prop := {
  us_rep : wq_rep (waiters x) q m;
  us_available : available_permits x = permits s ∧ 0 <= permits s;
  us_units : ∀ f a, acquires x !! f = Some a → requested_permits a = 1;
  us_owner : ∀ f f' a a' id, acquires x !! f = Some a → acquires x !! f' = Some a' → index a = Some id → index a' = Some id → f = f';
  us_queue : Forall2 (λ id e, m !! id = Some (mkNode 1 (Some e.2)) ∧ acquires x !! e.1 = Some (mkAcquire 1 (Some id))) q (queue s);
  us_granted : ∀ f, f ∈ granted s ↔ ∃ id, acquires x !! f = Some (mkAcquire 1 (Some id)) ∧ id ∉ q;
  us_detached : ∀ f id, acquires x !! f = Some (mkAcquire 1 (Some id)) → id ∉ q → m !! id = Some (mkNode 0 None);
}.
Definition unit_rep x s : Prop := ∃ q m, unit_store x s q m.

Lemma unit_new : unit_rep (new 0) tx_new.
Proof.
  exists [], ∅. split; simpl; [apply wq_new_rep|done|done|done|constructor| |done]. intros f. split; [set_solver|]. intros (id & H & _). by rewrite lookup_empty in H.
Qed.

(** The future that owns the first waiter is granted a permit. *)
Lemma store_grant x s id q m f wk l w' :
  unit_store x s (id :: q) m → queue s = (f, wk) :: l → wq_rep w' q (<[id:=mkNode 0 None]> m) →
  unit_store (set_waiters w' x) (mkTx (permits s) l ({[f]} ∪ granted s)) q (<[id:=mkNode 0 None]> m).
Proof.
  intros [H1 H2 H3 H4 H5 H6 H7] Eq Hw. rewrite Eq in H5. apply Forall2_cons in H5 as [[Hm Hf] H5]. simpl in *.
  pose proof (wq_rep_nodup _ _ _ H1) as Hnd. apply NoDup_cons in Hnd as [Hid Hnd]. split; simpl; try done.
  - apply Forall2_lookup. intros i. destruct (q !! i) as [id'|] eqn:Hi.
    + assert (id' ≠ id) by (intros ->; apply Hid; by eapply list_elem_of_lookup_2). rewrite Forall2_lookup in H5. specialize (H5 i). rewrite Hi in H5.
      inversion H5 as [? e He E1 E2|]; subst. constructor. by rewrite lookup_insert_ne.
    + rewrite Forall2_lookup in H5. specialize (H5 i). rewrite Hi in H5. inversion H5. constructor.
  - intros j. rewrite elem_of_union, elem_of_singleton, H6. split.
    + intros [-> |(i & Hi & Hni)]; [by exists id|]. exists i. split; [done|set_solver].
    + intros (i & Hi & Hni). destruct (decide (i = id)) as [-> |Hne]; [left; by eapply (H4 _ _ _ _ id)|right]. exists i. split; [done|set_solver].
  - intros j i Hj Hni. rewrite lookup_insert. case_decide as E; [done|]. apply (H7 j); [done|set_solver].
Qed.

(** *** The loop *)
Lemma proceed_done F t o : proceed F t (None, o) = mret (0, taken o, woken o).
Proof. by destruct F. Qed.
Lemma proceed_relock F t n o : proceed F t (Some (LockQueue n), o) = mret (n, taken o, woken o).
Proof. by destruct F. Qed.

Lemma proceed_step F t pc x Q :
  match pc with LockQueue _ => False | _ => True end →
  wp (next_step t false pc) x (λ r x', wp (proceed F t r) x' Q) → wp (proceed (S F) t (Some pc, silent)) x Q.
Proof.
  intros Hpc H. assert (proceed (S F) t (Some pc, silent) = (r' ← next_step t false pc; '(n, k, ws) ← proceed F t r'; mret (n, taken silent + k, woken silent ++ ws))) as ->
    by (by destruct pc).
  wp_auto. eapply wp_mono; [exact H|]. intros r x' Hr. wp_auto. eapply wp_mono; [exact Hr|]. intros [[n k] ws] x'' HQ. by wp_auto.
Qed.

(** The permits a release brings in are not part of the result. *)
Lemma proceed_gain F t pc n : proceed F t (Some pc, mkObs n 0 0 0 []) = proceed F t (Some pc, silent).
Proof. by destruct F, pc. Qed.

Lemma unit_rep_frame x s x' : unit_rep x s → waiters x' = waiters x → available_permits x' = available_permits x → acquires x' = acquires x → unit_rep x' s.
Proof. intros (q & m & [H1 H2 H3 H4 H5 H6 H7]) E1 E2 E3. exists q, m. split; rewrite ?E1, ?E2, ?E3; done. Qed.

Lemma queue_empty x s : unit_rep x s → wq_is_empty (waiters x) = bool_decide (queue s = []).
Proof.
  intros (q & m & Hx). rewrite (wq_is_empty_spec _ _ _ (us_rep _ _ _ _ Hx)). apply bool_decide_ext. pose proof (us_queue _ _ _ _ Hx) as Hq.
  split; intros E; rewrite E in Hq; by inversion Hq.
Qed.

Lemma assign_loop n F t r b ws0 x s Q :
  unit_rep x s → batch_rep b ws0 → 0 <= r → n = Nat.min (Z.to_nat r) (STACK_SIZE - length ws0) → (n < F)%nat →
  (let (s', ws) := grant n s in ∀ F' x' b', (F <= F' + n + 1)%nat → unit_rep x' s' → batch_rep b' (ws0 ++ ws) →
    wp (proceed F' t (Some (Surplus (r - Z.of_nat (length ws)) b'), silent)) x' Q) →
  wp (proceed F t (Some (Assign r b), silent)) x Q.
Proof.
  revert F r b ws0 x s. induction n as [|n IH]; intros F r b ws0 x s Hx Hb Hr Hn HF HQ; (destruct F as [|F]; [lia|]); apply proceed_step; [done| |done|]; simpl; unfold assign.
  - simpl in HQ. rewrite Z.sub_0_r, app_nil_r in HQ. destruct (bool_decide (0 < r) && negb (will_spill b)) eqn:Hg; [exfalso|unfold goto; wp_auto; apply HQ; [lia|done|done]].
    apply andb_true_iff in Hg as [Hr0%bool_decide_eq_true Hsp%negb_true_iff]. pose proof (will_spill_spec _ _ Hb) as Hw. rewrite Hsp in Hw.
    assert (¬ (STACK_SIZE ≤ length ws0)%nat) as Hlt by (intros H; by apply Hw in H). lia.
  - assert (bool_decide (0 < r) && negb (will_spill b) = true) as ->.
    { apply andb_true_iff. split; [apply bool_decide_eq_true; lia|]. apply negb_true_iff. destruct (will_spill b) eqn:E; [|done]. apply (will_spill_spec _ _ Hb) in E. lia. }
    destruct Hx as (q & m & Hx). pose proof (us_queue _ _ _ _ Hx) as Hq. wp_auto. destruct q as [|id q].
    + apply Forall2_nil_inv_l in Hq. simpl in HQ. rewrite Hq in HQ. simpl in HQ. rewrite Z.sub_0_r, app_nil_r in HQ.
      wp_apply wq_unlink_first_nil; [apply Hx|]. intros r' w [-> ->]. unfold goto. wp_auto. apply HQ; [lia| |done]. eapply unit_rep_frame; [by exists [], m|done..].
    + apply Forall2_cons_inv_l in Hq as ([f wk] & l & [Hid Hf] & Hq & El). pose proof (us_rep _ _ _ _ Hx) as Hrep.
      assert (assign_closure r (mkNode 1 (Some wk)) = (true, mkNode 0 (Some wk), r - 1)) as Hac by (unfold assign_closure; simpl; by rewrite Z.min_l by lia).
      wp_apply (wq_unlink_first_cons _ _ _ _ _ _ _ _ _ _ Hrep Hid Hac). intros r' w (-> & Hrep' & _). wp_auto. simpl. wp_auto. wp_apply wq_set_waiter_spec; [done|rewrite lookup_insert_eq; by eauto|]. intros _ w' [Hrep'' _]. rewrite insert_insert_eq in Hrep''. wp_auto.
      wp_apply batch_push_spec; [done|]. intros b' x' [-> Hb']. unfold goto. wp_auto. simpl in HQ. rewrite El in HQ.
      eapply (IH F (r - 1) b' (ws0 ++ [wk]) _ (mkTx (permits s) l ({[f]} ∪ granted s))); [|done|lia|rewrite length_app; simpl; lia|lia|].
      { exists q, (<[id:=mkNode 0 None]> m). exact (store_grant x s id q m f wk l w' Hx El Hrep''). }
      destruct (grant n _) as [s' ws]. intros F' x' b'' HF' Hx' Hb''. rewrite <-(assoc_L (++)) in Hb''.
      replace (r - 1 - Z.of_nat (length ws)) with (r - Z.of_nat (length (wk :: ws))) by (simpl; lia). apply HQ; [lia|done|done].
Qed.

(** The permits left over and the wakers. *)
Lemma unlock_ok F t r b ws x s :
  unit_rep x s → batch_rep b ws →
  wp (proceed (S F) t (Some (Unlock r b), silent)) x (λ res x', res = (r, 0, ws) ∧ unit_rep x' s).
Proof.
  intros Hx Hb. apply proceed_step; [done|]. simpl. unfold unlock. wp_auto. wp_apply batch_wake_spec; [done|]. intros us x' [-> ->]. wp_auto.
  assert (unit_rep (set_lock None x) s) as Hx' by (by eapply unit_rep_frame). case_bool_decide as E; [subst r; rewrite proceed_done|rewrite proceed_relock]; wp_auto; by split.
Qed.

Lemma surplus_ok F t r b ws x s :
  unit_rep x s → batch_rep b ws → 0 <= r → permits s + r <= usize_max →
  wp (proceed (S (S (S F))) t (Some (Surplus r b), silent)) x (λ res x',
    res = (if bool_decide (queue s = []) then 0 else r, 0, ws) ∧
    unit_rep x' (if bool_decide (queue s = []) then mkTx (permits s + r) [] (granted s) else s)).
Proof.
  intros Hx Hb Hr Hmax. apply proceed_step; [done|]. simpl. unfold surplus. wp_auto. rewrite (queue_empty x s Hx).
  pose proof Hx as (q & m & [H1 [H2 H2'] H3 H4 H5 H6 H7]).
  destruct (bool_decide_reflect (queue s = [])) as [Eq|Eq]; [|rewrite andb_false_r; unfold goto; wp_auto; by apply (unlock_ok _ _ _ _ _ _ _ Hx Hb)]. rewrite andb_true_r.
  assert (∀ z, available_permits z = permits s + r → waiters z = waiters x → acquires z = acquires x → unit_rep z (mkTx (permits s + r) [] (granted s))) as Hz.
  { intros z Ez Ew Ea. exists q, m. split; simpl; rewrite ?Ez, ?Ew, ?Ea; try done; [split; [done|lia]|by rewrite <-Eq]. }
  case_bool_decide as Hr0; unfold goto; wp_auto.
  - case_bool_decide as Ha; wp_auto; (apply proceed_step; [done|]); simpl.
    + unfold fetch_add, goto. wp_auto. refine (unlock_ok _ _ _ _ _ _ _ _ Hb). apply Hz; [|done|done]. simpl. unfold wrapping_add. rewrite Z.mod_small; lia.
    + unfold update_permits, try_update_permits, goto. unfold checked_add. rewrite decide_True by lia. wp_auto. unfold compare_exchange. wp_auto.
      rewrite bool_decide_eq_true_2 by done. wp_auto. refine (unlock_ok _ _ _ _ _ _ _ _ Hb). apply Hz; [|done|done]. simpl. lia.
  - assert (r = 0) as -> by lia. refine (unlock_ok _ _ _ _ _ _ _ _ Hb). apply Hz; [lia|done|done].
Qed.

Lemma grant_length j s : let (s', ws) := grant j s in permits s' = permits s ∧ (length ws <= j)%nat ∧ (length ws = j ∨ queue s' = []).
Proof.
  revert s. induction j as [|j IH]; intros s; simpl; [auto|]. destruct (queue s) as [|[f wk] l] eqn:E; simpl; [split_and!; [done|lia|by right]|].
  specialize (IH (mkTx (permits s) l ({[f]} ∪ granted s))). destruct (grant j _) as [s' ws]. simpl in *. destruct IH as (? & ? & IH). split_and!; [done|lia|]. destruct IH as [?|?]; [left; lia|by right].
Qed.

Lemma distribute_one s : (distribute 1 s).2 = 0.
Proof.
  unfold distribute. change (Nat.min _ _) with 1%nat. pose proof (grant_length 1 s) as H. destruct (grant 1 s) as [s' ws]. case_bool_decide; [done|].
  destruct H as (_ & _ & [E|]); [|done]. rewrite E. done.
Qed.

Lemma distribute_section t n x s :
  unit_rep x s → 0 <= n → permits s + n <= usize_max →
  wp (proceed (section_fuel) t (Some (Assign n batch_new), silent)) x (λ res x',
    let '(s', ws, rest) := distribute n s in res = (rest, 0, ws) ∧ unit_rep x' s').
Proof.
  intros Hx Hn Hmax. unfold distribute. set (k := Nat.min (Z.to_nat n) STACK_SIZE).
  eapply (assign_loop k _ t n batch_new [] x s); [done|apply batch_new_rep|done|done|unfold section_fuel; lia|]. pose proof (grant_length k s) as Hg. destruct (grant k s) as [s' ws].
  destruct Hg as (Ep & El & _). intros F' x' b' HF Hx' Hb'. unfold section_fuel in HF. destruct F' as [|[|[|F']]]; try lia.
  eapply wp_mono; [apply surplus_ok; [exact Hx'|exact Hb'|lia|lia]|]. intros res z [-> Hz]. by case_bool_decide.
Qed.

(** *** Futures *)
Lemma queued_iff x s q m f : unit_store x s q m → f ∈ (queue s).*1 ↔ ∃ id, acquires x !! f = Some (mkAcquire 1 (Some id)) ∧ id ∈ q.
Proof.
  intros [H1 H2 H3 H4 H5 H6 H7]. split.
  - intros ([j w] & -> & He)%list_elem_of_fmap. apply list_elem_of_lookup in He as [i He]. destruct (Forall2_lookup_r _ _ _ _ _ H5 He) as (id & Hid & _ & Ha).
    exists id. split; [done|by eapply list_elem_of_lookup_2].
  - intros (id & Ha & [i Hid]%list_elem_of_lookup). destruct (Forall2_lookup_l _ _ _ _ _ H5 Hid) as ([j w] & He & _ & Hj).
    assert (f = j) as -> by (by eapply (H4 _ _ _ _ id)). apply list_elem_of_fmap. exists (j, w). split; [done|by eapply list_elem_of_lookup_2].
Qed.

(** A future that is not queued is as the specification says. *)
Lemma fresh_future_unit x s q m f a : unit_store x s q m → acquires x !! f = Some a → index a = None → f ∉ (queue s).*1 ∧ f ∉ granted s.
Proof.
  intros Hx Ha Hi. split.
  - intros (id & Hf & _)%(queued_iff _ _ _ _ _ Hx). rewrite Ha in Hf. injection Hf as ->. done.
  - intros (id & Hf & _)%(us_granted _ _ _ _ Hx). rewrite Ha in Hf. injection Hf as ->. done.
Qed.

(** Futures that own no waiter come and go. *)
Lemma unit_forget x s q m f (o : option Acquire) s' :
  unit_store x s q m → f ∉ (queue s).*1 → (∀ a, o = Some a → a = mkAcquire 1 None) → queue s' = queue s → permits s' = permits s → granted s' = granted s ∖ {[f]} →
  unit_store (set_acquires (match o with Some a => <[f:=a]> (acquires x) | None => delete f (acquires x) end) x) s' q m.
Proof.
  intros Hx Hf Ho Eq Ep Eg. pose proof Hx as [H1 H2 H3 H4 H5 H6 H7].
  assert (∀ j a, (match o with Some a => <[f:=a]> (acquires x) | None => delete f (acquires x) end) !! j = Some a → (j ≠ f ∧ acquires x !! j = Some a) ∨ a = mkAcquire 1 None) as Hin.
  { intros j a Hj. destruct o as [a'|]; [apply lookup_insert_Some in Hj as [[<- <-]|[? ?]]; [right; by apply Ho|by left]|]. apply lookup_delete_Some in Hj as [? ?]. by left. }
  assert (∀ j, j ≠ f → (match o with Some a => <[f:=a]> (acquires x) | None => delete f (acquires x) end) !! j = acquires x !! j) as Hne.
  { intros j Hj. destruct o; [by rewrite lookup_insert_ne|by rewrite lookup_delete_ne]. }
  split; simpl; [done|by rewrite Ep| | | | |].
  - intros j a Hj. destruct (Hin _ _ Hj) as [[_ ?]| ->]; [by eapply H3|done].
  - intros j j' a a' id Hj Hj' Hi Hi'. destruct (Hin _ _ Hj) as [[_ ?]| ->]; [|done]. destruct (Hin _ _ Hj') as [[_ ?]| ->]; [|done]. by eapply H4.
  - rewrite Eq. apply Forall2_lookup. intros i. rewrite Forall2_lookup in H5. specialize (H5 i). inversion H5 as [id e [Hm Ha] E1 E2|E1 E2]; constructor. split; [done|].
    rewrite Hne; [done|]. intros Ej. apply Hf. apply list_elem_of_fmap. exists e. split; [done|]. by eapply list_elem_of_lookup_2.
  - intros j. rewrite Eg, elem_of_difference, elem_of_singleton, H6. split.
    + intros [(id & Hj & Hni) Hjf]. exists id. by rewrite Hne.
    + intros (id & Hj & Hni). destruct (Hin _ _ Hj) as [[Hjf Hj']|]; [|done]. split; [by exists id|done].
  - intros j id Hj Hni. destruct (Hin _ _ Hj) as [[_ ?]|]; [|done]. by eapply H7.
Qed.

(** A waiter nobody owns is removed. *)
Lemma unit_remove x s q m id w' :
  unit_store x s q m → id ∉ q → (∀ f a, acquires x !! f = Some a → index a ≠ Some id) → wq_rep w' q (delete id m) →
  unit_store (set_waiters w' x) s q (delete id m).
Proof.
  intros [H1 H2 H3 H4 H5 H6 H7] Hid Hno Hw. split; simpl; try done.
  - eapply Forall2_impl; [exact H5|]. intros i e [Hm Ha]. split; [|done]. rewrite lookup_delete_ne; [done|]. intros ->. by apply (Hno _ _ Ha).
  - intros f i Hf Hni. rewrite lookup_delete_ne; [by eapply H7|]. intros ->. by apply (Hno _ _ Hf).
Qed.

(** A queued future leaves a new waker. *)
Lemma store_waker x s q m f cx id w' :
  unit_store x s q m → acquires x !! f = Some (mkAcquire 1 (Some id)) → id ∈ q → wq_rep w' q (<[id:=mkNode 1 (Some cx)]> m) →
  unit_store (set_waiters w' x) (mkTx (permits s) ((λ e, if bool_decide (e.1 = f) then (f, cx) else e) <$> queue s) (granted s)) q (<[id:=mkNode 1 (Some cx)]> m).
Proof.
  intros [H1 H2 H3 H4 H5 H6 H7] Hf Hid Hw. split; simpl; try done.
  - apply Forall2_fmap_r. eapply Forall2_impl; [exact H5|]. intros i [j w] [Hm Ha]. simpl in *. case_bool_decide as E; simpl.
    + subst j. rewrite Hf in Ha. injection Ha as <-. by rewrite lookup_insert_eq.
    + rewrite lookup_insert_ne; [done|]. intros ->. apply E. by eapply (H4 _ _ _ _ i).
  - intros j i Hj Hni. rewrite lookup_insert_ne; [by eapply H7|]. by intros ->.
Qed.

(** A future is queued. *)
Lemma store_enqueue x s q m f cx id w' :
  unit_store x s q m → acquires x !! f = None → m !! id = None → wq_rep w' (q ++ [id]) (<[id:=mkNode 1 (Some cx)]> m) →
  unit_store (set_acquires (<[f:=mkAcquire 1 (Some id)]> (acquires x)) (set_waiters w' x)) (mkTx (permits s) (queue s ++ [(f, cx)]) (granted s))
    (q ++ [id]) (<[id:=mkNode 1 (Some cx)]> m).
Proof.
  intros Hx Hf Hid Hw. pose proof Hx as [H1 H2 H3 H4 H5 H6 H7].
  assert (∀ j a i, acquires x !! j = Some a → index a = Some i → i ≠ id) as Hne.
  { intros j a i Hj Hi ->. pose proof (H3 _ _ Hj). assert (a = mkAcquire 1 (Some id)) as -> by (destruct a; simpl in *; congruence).
    destruct (decide (id ∈ q)) as [Hq|Hq]; [destruct (wq_rep_linked _ _ _ id H1 Hq); congruence|rewrite (H7 j id Hj Hq) in Hid; done]. }
  split; simpl; try done.
  - intros j a [[<- <-]|[_ Hj]]%lookup_insert_Some; [done|by eapply H3].
  - intros j j' a a' i [[<- <-]|[? Hj]]%lookup_insert_Some [[<- <-]|[? Hj']]%lookup_insert_Some Hi Hi'; simpl in *; simplify_eq; try done.
    + by destruct (Hne _ _ _ Hj' Hi').
    + by destruct (Hne _ _ _ Hj Hi).
    + by eapply H4.
  - apply Forall2_app; [|constructor; [by rewrite !lookup_insert_eq|constructor]]. eapply Forall2_impl; [exact H5|]. intros i e [Hm Ha]. by rewrite !lookup_insert_ne by congruence.
  - intros j. rewrite H6. split.
    + intros (i & Hj & Hni). exists i. rewrite lookup_insert_ne by congruence. split; [done|]. intros [?|Hi]%elem_of_app; [done|].
      apply list_elem_of_singleton in Hi. by apply (Hne _ _ _ Hj eq_refl).
    + intros (i & [[<- E]|[? Hj]]%lookup_insert_Some & Hni); [injection E as <-; set_solver|]. exists i. split; [done|set_solver].
  - intros j i [[<- E]|[? Hj]]%lookup_insert_Some Hni; [injection E as <-; set_solver|]. rewrite lookup_insert_ne; [apply (H7 j); [done|set_solver]|].
    intros <-. by apply (Hne _ _ _ Hj eq_refl).
Qed.

Lemma enqueue_section t f cx x s :
  unit_rep x s → acquires x !! f = None → f ∉ (queue s).*1 → f ∉ granted s → wq_room (waiters x) →
  wp (proceed section_fuel t (Some (Enqueue (Some (f, cx)) true 1 (available_permits x) false), silent)) x
    (λ res x', let (s', ready) := acquire_poll f cx s in res = (0, if (ready : bool) then 1 else 0, []) ∧ unit_rep x' s').
Proof.
  intros (q & m & Hx) Hf Hq Hg Hroom. pose proof (us_available _ _ _ _ Hx) as [Ea H0]. unfold acquire_poll. rewrite !bool_decide_eq_false_2 by done. rewrite <-Ea.
  apply proceed_step; [done|]. simpl. unfold enqueue_top, needed_next. case_bool_decide as Hp.
  - simpl. unfold goto. wp_auto. apply proceed_step; [done|]. simpl. unfold enqueue_cas, needed_next. rewrite bool_decide_eq_true_2 by done. wp_auto. unfold compare_exchange. wp_auto.
    rewrite bool_decide_eq_true_2 by done. wp_auto. simpl. unfold finish. wp_auto. rewrite proceed_done. wp_auto. rewrite bool_decide_eq_true_2 by lia.
    split; [done|]. exists q, m. destruct Hx as [H1 H2 H3 H4 H5 H6 H7].
    refine (unit_forget (set_available (available_permits x - 1) x) (mkTx (available_permits x - 1) (queue s) (granted s)) q m f (Some (mkAcquire 1 None)) _ _ Hq _ eq_refl _ _);
      [split; simpl; try done; split; [lia|lia]|by intros ? [= <-]|simpl; lia|simpl; set_solver].
  - rewrite bool_decide_eq_true_2 by lia. simpl. unfold goto. wp_auto. apply proceed_step; [done|]. simpl. unfold enqueue_cas, needed_next. rewrite bool_decide_eq_false_2 by done.
    wp_auto. unfold compare_exchange. wp_auto. rewrite bool_decide_eq_true_2 by done. wp_auto. rewrite bool_decide_eq_false_2 by lia. wp_auto. apply wp_assert; [done|]. wp_auto.
    apply proceed_step; [done|]. simpl. unfold enqueue_push. wp_auto. assert (available_permits x = 0) as E0 by lia. rewrite E0.
    wp_apply wq_push_back_spec; [apply Hx|done|]. intros id w' [Hid Hw]. wp_auto. unfold finish. wp_auto. rewrite proceed_done. wp_auto.
    rewrite bool_decide_eq_false_2 by lia. split; [done|]. exists (q ++ [id]), (<[id:=mkNode 1 (Some cx)]> m).
    assert (unit_store (set_available 0 x) s q m) as Hx0 by (destruct Hx as [H1 H2 H3 H4 H5 H6 H7]; split; simpl; try done; lia).
    destruct (store_enqueue _ s q m f cx id w' Hx0 Hf Hid Hw) as [H1 H2 H3 H4 H5 H6 H7]. split; simpl in *; done.
Qed.

Lemma poll_section t f cx x s :
  unit_rep x s → unit_enabled (UPoll f cx) x s →
  wp (unit_section t (UPoll f cx)) x (λ res x', unit_rep x' (unit_exec (UPoll f cx) s).1 ∧ res = (unit_exec (UPoll f cx) s).2).
Proof.
  intros (q & m & Hx) [[[r i] Ha] Hroom]. pose proof (us_units _ _ _ _ Hx _ _ Ha) as Hr. simpl in Hr. subst r. unfold unit_section, start. wp_auto. eapply wp_expect; [done|]. simpl.
  destruct i as [id|].
  - unfold poll_queued. wp_auto. unfold unit_exec, acquire_poll. destruct (decide (id ∈ q)) as [Hid|Hid].
    + assert (f ∈ (queue s).*1) as Hq by (apply (queued_iff _ _ _ _ _ Hx); eauto).
      assert (f ∉ granted s) as Hg by (intros (id' & Ha' & Hn)%(us_granted _ _ _ _ Hx); rewrite Ha in Ha'; by injection Ha' as <-).
      rewrite bool_decide_eq_false_2, bool_decide_eq_true_2 by done.
      assert (∃ w, m !! id = Some (mkNode 1 (Some w))) as [w Hm].
      { apply list_elem_of_lookup in Hid as [k Hk]. destruct (Forall2_lookup_l _ _ _ _ _ (us_queue _ _ _ _ Hx) Hk) as (e & _ & Hm & _). by eexists. }
      wp_apply wq_waiter_spec; [apply Hx|exact Hm|]. intros v w' [-> ->]. wp_auto. cbn [needed_permits waker]. rewrite bool_decide_eq_true_2 by lia.
      pose proof (register_waker_some (Some w) cx) as Hreg. destruct (register_waker (Some w) cx) as [slot old]. simpl in Hreg. subst slot. wp_auto.
      wp_apply wq_set_waiter_spec; [apply Hx|by eexists|]. intros _ w' [Hw _]. unfold finish. wp_auto. rewrite proceed_done. wp_auto. split; [|done].
      exists q, (<[id:=mkNode 1 (Some cx)]> m). exact (store_waker x s q m f cx id w' Hx Ha Hid Hw).
    + assert (f ∈ granted s) as Hg by (apply (us_granted _ _ _ _ Hx); by exists id). rewrite bool_decide_eq_true_2 by done.
      pose proof (us_detached _ _ _ _ Hx f id Ha Hid) as Hm. wp_apply wq_waiter_spec; [apply Hx|exact Hm|]. intros v w' [-> ->]. wp_auto. simpl. wp_auto.
      wp_apply wq_remove_spec; [apply Hx|exact Hm|done|]. intros v w' (-> & Hw & _). unfold finish. wp_auto. rewrite proceed_done. wp_auto. split; [|done].
      exists q, (delete id m). assert (f ∉ (queue s).*1) as Hq.
      { intros (id' & Ha' & Hin)%(queued_iff _ _ _ _ _ Hx). rewrite Ha in Ha'. by injection Ha' as <-. }
      refine (unit_remove _ _ q m id w' (unit_forget x s q m f (Some (mkAcquire 1 None)) (mkTx (permits s) (queue s) (granted s ∖ {[f]})) Hx Hq _ eq_refl eq_refl eq_refl) Hid _ Hw).
      { by intros ? [= <-]. }
      simpl. intros j a [[<- <-]|[Hne Hj]]%lookup_insert_Some; [done|]. intros Hi. apply Hne. by eapply (us_owner _ _ _ _ Hx _ _ _ _ id).
  - wp_auto. unfold goto. wp_auto. destruct (fresh_future_unit _ _ _ _ _ _ Hx Ha eq_refl) as [Hq Hg].
    eapply wp_mono; [refine (enqueue_section t f cx (set_acquires (delete f (acquires x)) x) s _ _ Hq Hg Hroom)|].
    + exists q, m. refine (unit_forget x s q m f None s Hx Hq _ eq_refl eq_refl _); [done|set_solver].
    + simpl. apply lookup_delete_eq.
    + simpl. intros res x'. destruct (acquire_poll f cx s) as [s' ready]. by intros [-> Hx'].
Qed.

(** A future leaves with its waiter. *)
Lemma store_leave x s q m f id w' :
  unit_store x s q m → acquires x !! f = Some (mkAcquire 1 (Some id)) → wq_rep w' (without id q) (delete id m) →
  unit_store (set_acquires (delete f (acquires x)) (set_waiters w' x)) (mkTx (permits s) (filter (λ e, e.1 ≠ f) (queue s)) (granted s ∖ {[f]}))
    (without id q) (delete id m).
Proof.
  intros [H1 H2 H3 H4 H5 H6 H7] Hf Hw.
  assert (∀ j i, acquires x !! j = Some (mkAcquire 1 (Some i)) → j = f ↔ i = id) as Hiff.
  { intros j i Hj. split; [intros ->; rewrite Hf in Hj; by injection Hj as <-|intros ->; by eapply (H4 _ _ _ _ id)]. }
  split; simpl; try done.
  - intros j a [_ Hj]%lookup_delete_Some. by eapply H3.
  - intros j j' a a' i [_ Hj]%lookup_delete_Some [_ Hj']%lookup_delete_Some. by apply H4.
  - clear -H5 Hiff. induction H5 as [|i e q l [Hm Ha] _ IH]; [constructor|]. pose proof (Hiff _ _ Ha) as Hie. destruct (decide (i = id)) as [Ei|Ei].
    + rewrite (filter_cons_False (λ i, i ≠ id)), (filter_cons_False (λ e : nat * Waker, e.1 ≠ f)); [done|naive_solver|naive_solver].
    + rewrite (filter_cons_True (λ i, i ≠ id)), (filter_cons_True (λ e : nat * Waker, e.1 ≠ f)); [|naive_solver|done]. constructor; [|done].
      rewrite !lookup_delete_ne; [done|naive_solver|done].
  - intros j. rewrite elem_of_difference, elem_of_singleton, H6. split.
    + intros [(i & Hj & Hi) Hne]. exists i. rewrite lookup_delete_ne by done. split; [done|]. intros [_ ?]%list_elem_of_filter. done.
    + intros (i & [Hne Hj]%lookup_delete_Some & Hi). split; [|done]. exists i. split; [done|]. intros Hin. apply Hi, list_elem_of_filter. split; [|done]. by rewrite <-(Hiff j i Hj).
  - intros j i [Hne Hj]%lookup_delete_Some Hi. assert (i ≠ id) by (by rewrite <-(Hiff j i Hj)). rewrite lookup_delete_ne by done. apply (H7 j); [done|].
    intros Hin. apply Hi, list_elem_of_filter. done.
Qed.

Lemma unqueued_filter s f : f ∉ (queue s).*1 → filter (λ e, e.1 ≠ f) (queue s) = queue s.
Proof.
  induction (queue s) as [|e l IH]; [done|]. intros Hf. rewrite filter_cons_True; [by rewrite IH by set_solver|]. set_solver.
Qed.

(** The permit of a future that is dropped goes to the next in the queue. *)
Lemma drop_section t f x s :
  unit_rep x s → unit_enabled (UDrop f) x s →
  wp (unit_section t (UDrop f)) x (λ res x', unit_rep x' (unit_exec (UDrop f) s).1 ∧ res = (unit_exec (UDrop f) s).2).
Proof.
  intros (q & m & Hx) [[[r i] Ha] Hmax]. pose proof (us_units _ _ _ _ Hx _ _ Ha) as Hr. simpl in Hr. subst r. unfold unit_section, start. wp_auto. eapply wp_expect; [done|]. simpl.
  unfold unit_exec, acquire_drop. destruct i as [id|].
  - assert (∃ n, m !! id = Some n ∧ needed_permits n = (if decide (id ∈ q) then 1 else 0)) as ([need wk] & Hm & Hn).
    { case_decide as Hid; [|eexists; split; [by eapply (us_detached _ _ _ _ Hx)|done]]. apply list_elem_of_lookup in Hid as [k Hk].
      destruct (Forall2_lookup_l _ _ _ _ _ (us_queue _ _ _ _ Hx) Hk) as (e & _ & Hm & _). by eexists. }
    simpl in Hn. unfold drop_queued. wp_auto. wp_apply wq_unlink_spec; [apply Hx|exact Hm|done|]. intros res w (-> & Hw & _). wp_auto. simpl in *.
    wp_apply wq_remove_spec; [exact Hw|apply lookup_insert_eq|by intros [? _]%list_elem_of_filter|]. intros v w' (-> & Hw' & _). rewrite delete_insert_eq in Hw'. wp_auto.
    pose proof (store_leave x s q m f id w' Hx Ha Hw') as Hleave. destruct (decide (id ∈ q)) as [Hid|Hid]; subst need.
    + assert (f ∉ granted s) as Hg by (intros (id' & Ha' & Hn)%(us_granted _ _ _ _ Hx); rewrite Ha in Ha'; by injection Ha' as <-).
      rewrite !bool_decide_eq_false_2 by (done || lia). unfold finish. wp_auto. rewrite proceed_done. wp_auto. split; [|done].
      rewrite difference_disjoint_L in Hleave by set_solver. by eexists _, _.
    + assert (f ∈ granted s) as Hg by (apply (us_granted _ _ _ _ Hx); by exists id). rewrite !bool_decide_eq_true_2 by (done || lia). unfold goto. wp_auto.
      assert (f ∉ (queue s).*1) as Hq by (intros (id' & Ha' & Hin)%(queued_iff _ _ _ _ _ Hx); rewrite Ha in Ha'; by injection Ha' as <-).
      rewrite (unqueued_filter s f Hq) in Hleave. eapply wp_mono; [refine (distribute_section t (1 - 0) _ (mkTx (permits s) (queue s) (granted s ∖ {[f]})) _ _ _); [|done|simpl; lia]|].
      { eapply unit_rep_frame; [by eexists _, _|done..]. }
      intros res x'. pose proof (distribute_one (mkTx (permits s) (queue s) (granted s ∖ {[f]}))) as H1. change (1 - 0) with 1. destruct (distribute 1 _) as [[s' ws] rest]. simpl in H1.
      subst rest. by intros [-> Hx'].
  - destruct (fresh_future_unit _ _ _ _ _ _ Hx Ha eq_refl) as [Hq Hg]. rewrite bool_decide_eq_false_2 by done. wp_auto. unfold finish. wp_auto. rewrite proceed_done. wp_auto.
    split; [|done]. exists q, m. rewrite (unqueued_filter s f Hq).
    refine (unit_forget x s q m f None (mkTx (permits s) (queue s) (granted s)) Hx Hq _ eq_refl eq_refl _); [done|simpl; set_solver].
Qed.

(** Every future in the queue is granted a permit. *)
Lemma notify_loop x s q m fuel Q :
  unit_store x s q m → (length q < fuel)%nat →
  (∀ rs w, omap snd rs = (queue s).*2 → unit_rep (set_waiters w x) (notify_all s).1 → Q rs w) →
  wp (while_some fuel notify_first_waiter) (waiters x) Q.
Proof.
  revert x s q m Q. induction fuel as [|fuel IH]; intros x s q m Q Hx Hlt HQ; [lia|]. pose proof (us_rep _ _ _ _ Hx) as Hrep.
  simpl. wp_auto. unfold notify_first_waiter. wp_auto. destruct q as [|id q].
  - wp_apply wq_unlink_first_nil; [done|]. intros r w' [-> ->]. wp_auto. pose proof (us_queue _ _ _ _ Hx) as Hq. apply Forall2_nil_inv_l in Hq. apply HQ; [by rewrite Hq|].
    exists [], m. destruct Hx as [H1 H2 H3 H4 H5 H6 H7]. unfold notify_all. rewrite Hq in *. split; simpl; try done. intros f. rewrite <-H6. set_solver.
  - pose proof (us_queue _ _ _ _ Hx) as Hq. apply Forall2_cons_inv_l in Hq as ([f wk] & l & [Hid Hf] & Hq & El).
    wp_apply wq_unlink_first_cons; [done..|]. intros r w' (-> & Hrep' & _). wp_auto. simpl. wp_auto.
    wp_apply wq_set_waiter_spec; [done|rewrite lookup_insert_eq; by eauto|]. intros _ w'' [Hrep'' _]. rewrite insert_insert_eq in Hrep''. wp_auto.
    eapply (IH (set_waiters w'' x) _ q _ _ (store_grant x s id q m f wk l w'' Hx El Hrep'')); [simpl in Hlt; lia|]. intros rs w3 Hrs Hx3. wp_auto. apply HQ.
    + csimpl. rewrite Hrs. simpl. by rewrite El.
    + unfold notify_all in *. simpl in *. rewrite El. csimpl.
      assert ({[f]} ∪ list_to_set l.*1 ∪ granted s = list_to_set l.*1 ∪ ({[f]} ∪ granted s)) as -> by set_solver. done.
Qed.

Lemma notify_section t x s :
  unit_rep x s →
  wp (unit_section t UNotifyAll) x (λ res x', unit_rep x' (unit_exec UNotifyAll s).1 ∧ res = (unit_exec UNotifyAll s).2).
Proof.
  intros (q & m & Hx). pose proof (us_rep _ _ _ _ Hx) as Hrep. unfold unit_section, start. wp_auto. unfold Semaphore.notify_all. wp_auto.
  eapply (notify_loop x s q m); [done| |].
  { rewrite (wq_len_spec _ _ _ Hrep). pose proof (rep_length_le _ _ _ Hrep). lia. }
  intros rs w Hrs Hx'. wp_auto. apply wp_run_local. wp_auto. wp_apply push_iter_spec; [apply batch_new_rep|]. simpl. intros _ b Hb.
  wp_apply wake_all_spec; [done|]. intros us b' [-> _]. unfold finish. wp_auto. rewrite proceed_done. wp_auto. split; [exact Hx'|]. simpl. by rewrite Hrs.
Qed.

Lemma release_section t op n x s :
  op = UReleaseIfWaiters n ∨ op = UDistribute n → unit_rep x s → 0 < n → permits s + n <= usize_max →
  wp (unit_section t op) x (λ res x', unit_rep x' (unit_exec op s).1 ∧ res = (unit_exec op s).2).
Proof.
  intros Hop Hx Hn Hmax.
  assert (wp (proceed section_fuel t (Some (Assign n batch_new), silent)) (set_lock (Some t) x)
    (λ res x', unit_rep x' (unit_exec (UDistribute n) s).1 ∧ res = (unit_exec (UDistribute n) s).2)) as Hd.
  { eapply wp_mono; [refine (distribute_section t n _ s _ _ Hmax); [by eapply unit_rep_frame|lia]|]. simpl. intros res x'. destruct (distribute n s) as [[s' ws] rest]. by intros [-> ?]. }
  destruct Hop as [-> | ->]; unfold unit_section, start; simpl; wp_auto; [|unfold lock_queue, goto; wp_auto; exact Hd].
  unfold release_if_waiters. wp_auto. rewrite (queue_empty x s Hx). case_bool_decide; [unfold finish; wp_auto; rewrite proceed_done; by wp_auto|].
  wp_auto. rewrite proceed_gain. exact Hd.
Qed.

Lemma new_section t f x s :
  unit_rep x s → unit_enabled (UNew f) x s →
  wp (unit_section t (UNew f)) x (λ res x', unit_rep x' (unit_exec (UNew f) s).1 ∧ res = (unit_exec (UNew f) s).2).
Proof.
  intros (q & m & Hx) Hf. unfold unit_section, exec, finish. wp_auto. rewrite proceed_done. wp_auto. split; [|done]. exists q, m. simpl in *.
  refine (unit_forget x s q m f (Some (mkAcquire 1 None)) s Hx _ _ eq_refl eq_refl _).
  - intros (id & Ha & _)%(queued_iff _ _ _ _ _ Hx). by rewrite Hf in Ha.
  - by intros ? [= <-].
  - assert (f ∉ granted s); [|set_solver]. intros (id & Ha & _)%(us_granted _ _ _ _ Hx). by rewrite Hf in Ha.
Qed.

Lemma section_refines t op x s :
  unit_rep x s → unit_enabled op x s →
  ∃ x', returns (unit_section t op) x (unit_exec op s).2 x' ∧ unit_rep x' (unit_exec op s).1.
Proof.
  intros Hx Hen. enough (wp (unit_section t op) x (λ res x', unit_rep x' (unit_exec op s).1 ∧ res = (unit_exec op s).2)) as Hwp.
  { apply wp_returns in Hwp as (r & x' & Hr & Hx' & ->). by exists x'. }
  destruct op as [f|f cx|f|n|n|]; [by apply new_section|by apply poll_section|by apply drop_section|eapply release_section; [by left|done|apply Hen..]|eapply release_section; [by right|done|apply Hen..]|].
  by apply notify_section.
Qed.
End sections.

(** ** The refinement *)
(** C18: the internal semaphore refines the specification the bounded broadcast channel is verified against (a
    count, a queue of futures with their wakers and the set of futures that hold a permit they have not
    collected).  From a state that represents one of the specification, any sequence of sections that create, poll
    or drop acquisitions of one permit, release or distribute permits under the lock or notify every waiter runs
    without a panic and gives the results of the specification: the same permits left to distribute, the same
    permits acquired, the same tasks woken in the same order; and it ends in a state that represents the
    specification's. *)
Theorem unit_semaphore_refines {W : Type → Type} `{!WaitQueue W} (t : nat) (ops : list UnitOp) (x : Sys W) (s : TxPermits) :
  unit_rep x s → unit_enableds t ops x s = true →
  ∃ x', returns (unit_sections t ops) x (unit_execs ops s).2 x' ∧ unit_rep x' (unit_execs ops s).1.
Proof.
  revert x s. induction ops as [|op ops IH]; intros x s Hx Hen; [by exists x|]. simpl in *. apply andb_true_iff in Hen as [Hop%bool_decide_eq_true Hen].
  destruct (section_refines t op x s Hx Hop) as (x1 & Hr & Hx1). unfold returns in *. rewrite Hr in Hen. destruct (unit_exec op s) as [s1 r].
  destruct (IH x1 s1 Hx1 Hen) as (x' & Hrs & Hx'). exists x'. simpl in *. destruct (unit_execs ops s1) as [s2 rs]. split; [|done].
  unfold mbind, M_bind. rewrite Hr. by rewrite Hrs.
Qed.

(** Two producers wait; one permit is given to the first, which leaves: the second is woken with it and collects it. *)
Definition two_waiters : list UnitOp :=
  [UNew 1; UNew 2; UPoll 1 10%nat; UPoll 2 20%nat; UReleaseIfWaiters 1; UDrop 1; UPoll 2 21%nat; UDistribute 3; UNew 3; UPoll 3 30%nat; UNotifyAll].

Lemma unit_semaphore_refines_witness :
  ∃ x', returns (unit_sections 7 two_waiters) (new 0 : Sys WaitList)
    [(0, 0, []); (0, 0, []); (0, 0, []); (0, 0, []); (0, 0, [10%nat]); (0, 0, [20%nat]); (0, 1, []); (0, 0, []); (0, 0, []); (0, 1, []); (0, 0, [])] x' ∧
    unit_rep x' (mkTx 2 [] ∅).
Proof. apply (unit_semaphore_refines 7 two_waiters (new 0) tx_new); [apply unit_new|vm_compute; reflexivity]. Defined.
