(* ===== verification/Mutex.v ===== *)
(** * The mutex

    [asyncband/src/mutex/mod.rs]: a pool of one permit and a cell.  Every kind of guard (borrowed,
    owned, mapped) holds the permit and gives it back when dropped; mapping a guard moves the
    permit to the new guard without releasing it.  The system below lets any number of tasks
    lock, access the cell through their guards, map and drop them. *)
From S2P Require Import Prelude PermitPool.

(** A guard and the part of the protected value it gives access to. *)
Record MutexGuard (T : Type) : Type := mkGuard {
  target : Type;
  focus : T → target;
  update : target → T → T;
}.
Arguments mkGuard {T}.
Arguments target {T}.
Arguments focus {T}.
Arguments update {T}.

Record Mutex (P T : Type) : Type := mkMutex {
  s : P;
  c : T;
  guards : gmap nat (MutexGuard T);
}.
Arguments mkMutex {P T}.
Arguments s {P T}.
Arguments c {P T}.
Arguments guards {P T}.

Section mutex.
Context {P : Type} `{!PermitPool P} {T : Type}.
Implicit Types (x : Mutex P T) (g : nat).

(** The guard [lock] and [try_lock] return. *)
Definition whole : MutexGuard T := mkGuard T id (λ v _, v).

(** [Mutex::new] over a pool of one permit. *)
Definition new (p : P) (t : T) : Mutex P T := mkMutex p t ∅.

(** [lock().await] and [try_lock] that succeed. *)
Definition lock g x x' : Prop :=
  guards x !! g = None ∧ ∃ p', pp_take 1 (s x) p' ∧ x' = mkMutex p' (c x) (<[g:=whole]> (guards x)).

(** [lock_owned().await] and [try_lock_owned]: the same, through an [Arc]. *)
Definition lock_owned g x x' : Prop := lock g x x'.

(** [deref]: what a guard reads. *)
Definition deref (d : MutexGuard T) x : target d := focus d (c x).

(** [deref_mut]: a store through a guard. *)
Definition deref_mut g x x' : Prop :=
  ∃ d v, guards x !! g = Some d ∧ x' = mkMutex (s x) (update d v (c x)) (guards x).

(** [MutexGuard::map] and its relatives: the new guard takes over the permit. *)
Definition map g x x' : Prop :=
  ∃ d U (f : target d → U) (h : U → target d → target d), guards x !! g = Some d ∧
    x' = mkMutex (s x) (c x)
      (<[g:=mkGuard U (λ t, f (focus d t)) (λ u t, update d (h u (focus d t)) t)]> (guards x)).

(** [filter_map]: the mapped guard, or the original one back. *)
Definition filter_map g x x' : Prop := map g x x' ∨ (is_Some (guards x !! g) ∧ x' = x).

(** [Drop]: [release_with_lock(1)]. *)
Definition drop g x x' : Prop :=
  is_Some (guards x !! g) ∧ ∃ p', pp_give 1 (s x) p' ∧ x' = mkMutex p' (c x) (delete g (guards x)).

Inductive step : Mutex P T → Mutex P T → Prop :=
| step_lock g x x' : lock g x x' → step x x'
| step_lock_owned g x x' : lock_owned g x x' → step x x'
| step_write g x x' : deref_mut g x x' → step x x'
| step_map g x x' : map g x x' → step x x'
| step_filter_map g x x' : filter_map g x x' → step x x'
| step_drop g x x' : drop g x x' → step x x'
| step_pool x p' : pp_internal (s x) p' → step x (mkMutex p' (c x) (guards x)).

(** The permit is in the pool or with the guard. *)
Definition mutex_ok x : Prop :=
  pp_ok (s x) ∧ pp_free (s x) + Z.of_nat (size (guards x)) <= 1.

(** The ways a step changes the mutex. *)
Lemma step_cases x x' :
  step x x' → x' = x ∨ ∃ g, lock g x x' ∨ deref_mut g x x' ∨ map g x x' ∨ drop g x x' ∨
    ∃ p', pp_internal (s x) p' ∧ x' = mkMutex p' (c x) (guards x).
Proof.
  destruct 1 as [g x x' H|g x x' H|g x x' H|g x x' H|g x x' [H|[_ ->]]|g x x' H|x p' H];
    [eauto 10|eauto 10|eauto 10|eauto 10|eauto 10|by left|eauto 10|right; exists 0%nat; eauto 10].
Qed.

Lemma mutex_step_ok x x' : mutex_ok x → step x x' → mutex_ok x'.
Proof.
  intros [Hp Hn] [->|(g & [(Hg & p' & Ht & ->)|[(d & v & Hg & ->)
    |[(d & U & f & h & Hg & ->)|[(Hg & p' & Ht & ->)|(p' & Hi & ->)]]]])]%step_cases; unfold mutex_ok; simpl.
  - done.
  - destruct (pp_take_spec _ _ _ Hp Ht) as [Hp' Hf]. split; [done|]. rewrite map_size_insert_None by done. lia.
  - done.
  - split; [done|]. rewrite map_size_insert_Some by eauto. done.
  - destruct (pp_give_spec _ _ _ Hp Ht) as [Hp' Hf]. split; [done|]. destruct Hg as [d Hg].
    pose proof (map_size_pos _ _ _ Hg). rewrite map_size_delete_Some by eauto. lia.
  - destruct (pp_internal_spec _ _ Hp Hi) as [Hp' Hf]. split; [done|lia].
Qed.

Lemma mutex_reachable_ok p t x :
  pp_ok p → pp_free p = 1 → rtc step (new p t) x → mutex_ok x.
Proof.
  intros Hp Hf. apply (rtc_ind_r mutex_ok).
  - split; [done|]. simpl. rewrite map_size_empty. lia.
  - intros y z _ Hyz Hy. by eapply mutex_step_ok.
Qed.

(** Mutual exclusion: whatever the tasks do, at most one guard of a mutex is alive, and none
    while a lock attempt could still succeed. *)
Theorem mutex_exclusion p t x g h :
  pp_ok p → pp_free p = 1 → rtc step (new p t) x →
  is_Some (guards x !! g) → is_Some (guards x !! h) → g = h ∧ pp_free (s x) = 0.
Proof.
  intros Hp Hf Hr Hg Hh. destruct (mutex_reachable_ok p t x Hp Hf Hr) as [Hp' Hn].
  pose proof (pp_nonneg _ Hp') as H0. destruct Hg as [d Hg], Hh as [e Hh].
  pose proof (map_size_pos _ _ _ Hg) as Hs. split; [|lia].
  destruct (decide (g = h)) as [|Hne]; [done|]. exfalso.
  assert (delete g (guards x) !! h = Some e) as Hd by (by rewrite lookup_delete_ne).
  pose proof (map_size_pos _ _ _ Hd) as Hs'. rewrite map_size_delete_Some in Hs' by eauto. lia.
Qed.

(** While a guard is alive, only stores through that guard change the protected value: any
    other step of any task leaves what the guard reads unchanged. *)
Theorem mutex_guard_stable p t x x' g d :
  pp_ok p → pp_free p = 1 → rtc step (new p t) x → guards x !! g = Some d →
  step x x' → ¬ deref_mut g x x' → deref d x' = deref d x.
Proof.
  intros Hp Hf Hr Hg Hx Hno. pose proof (mutex_reachable_ok p t x Hp Hf Hr) as [Hp' Hn].
  apply step_cases in Hx as [->|(h & [(_ & p' & _ & ->)|[(e & v & Hh & ->)
    |[(e & U & f & k & _ & ->)|[(_ & p' & _ & ->)|(p' & _ & ->)]]]])]; try done.
  exfalso. apply Hno. destruct (decide (h = g)) as [->|Hne]; [by exists e, v|]. exfalso.
  assert (delete g (guards x) !! h = Some e) as Hd by (by rewrite lookup_delete_ne).
  pose proof (map_size_pos _ _ _ Hd) as Hs'. rewrite map_size_delete_Some in Hs' by eauto.
  pose proof (pp_nonneg _ Hp'). lia.
Qed.
End mutex.

(** A counter pool and a pair behind the mutex, locked once. *)
Definition locked : Mutex Z (nat * nat) := mkMutex 0 (1, 2)%nat {[0%nat := whole]}.
Definition dropped : Mutex Z (nat * nat) := mkMutex 1 (1, 2)%nat ∅.

Lemma locked_reachable : rtc step (new 1 (1, 2)%nat) locked.
Proof. apply rtc_once, (step_lock 0). split; [done|]. exists 0. split; [|done]. by split. Qed.

Lemma mutex_exclusion_witness :
  is_Some (guards locked !! 0%nat) ∧ 0%nat = 0%nat ∧ pp_free (s locked) = 0.
Proof.
  split; [by eexists|].
  apply (mutex_exclusion 1 (1, 2)%nat); [done|done|apply locked_reachable|by eexists|by eexists].
Defined.

Lemma mutex_guard_stable_witness : deref whole dropped = deref whole locked.
Proof.
  apply (mutex_guard_stable 1 (1, 2)%nat locked dropped 0); [done|done|apply locked_reachable|done| |].
  - apply (step_drop 0). split; [by eexists|]. exists 1. split; [done|]. done.
  - intros (d & v & _ & Hm). apply (f_equal (λ x, size (guards x))) in Hm. discriminate Hm.
Defined.
