(* ===== verification/Places.v ===== *)
(** * Values, places and callbacks

    The memory behind the guards of the locks: a protected value is a tree, a raw pointer into it is a
    path, and a callback that maps a guard changes what it was given and returns a path into it, returns
    nothing, or unwinds.  References to elsewhere, which a callback could also return, are not tracked. *)
From S2P Require Import Prelude.

Inductive Val : Type :=
| Leaf (z : Z)
| Node (fields : list Val).

Definition Place : Type := list nat.

Fixpoint read_at (d : Place) (v : Val) : option Val :=
  match d with
  | [] => Some v
  | i :: d => match v with Node vs => vs !! i ≫= read_at d | Leaf _ => None end
  end.

Fixpoint write_at (d : Place) (w v : Val) : Val :=
  match d with
  | [] => w
  | i :: d => match v with Node vs => Node (alter (write_at d w) i vs) | Leaf z => Leaf z end
  end.

(** The value left behind, and the place returned; no result when the callback unwinds. *)
Definition MapFn : Type := Val → Val * option Place.
Definition FilterFn : Type := Val → Val * option (option Place).

(** Callbacks on shared references change nothing. *)
Definition ReadFn : Type := Val → option Place.
Definition ReadFilterFn : Type := Val → option (option Place).

Lemma read_at_app d e v : read_at (d ++ e) v = read_at d v ≫= read_at e.
Proof.
  revert v. induction d as [|i d IH]; intros v; [done|]. destruct v as [z|vs]; [done|]. simpl. destruct (vs !! i); [apply IH|done].
Qed.

Lemma read_write_at d w v : is_Some (read_at d v) → read_at d (write_at d w v) = Some w.
Proof.
  revert v. induction d as [|i d IH]; intros v Hv; [done|]. destruct v as [z|vs]; [by destruct Hv|]. simpl in *.
  rewrite list_lookup_alter, decide_True by done. destruct (vs !! i) as [u|]; [|by destruct Hv]. simpl in *. by apply IH.
Qed.

(** A store at [d] leaves what lies below [d] in the value stored. *)
Lemma read_write_below d e w v : is_Some (read_at d v) → read_at (d ++ e) (write_at d w v) = read_at e w.
Proof. intros Hv. by rewrite read_at_app, read_write_at. Qed.

(** Storing what is there changes nothing. *)
Lemma write_read_at d w v : read_at d v = Some w → write_at d w v = v.
Proof.
  revert v. induction d as [|i d IH]; intros v Hv; simpl in *; [congruence|]. destruct v as [z|vs]; [done|]. f_equal.
  destruct (vs !! i) as [u|] eqn:Hi; [|done]. simpl in Hv. apply list_eq. intros j. rewrite list_lookup_alter. case_decide as E; [subst j|done].
  rewrite Hi. simpl. by rewrite IH.
Qed.
