(* ===== verification/MutexGuards.v ===== *)
(** * The guards of the mutex

    [asyncband/src/mutex/mod.rs] at the level of ownership: borrowed and owned guards, their mapped
    forms with the raw pointer they keep, and the handles and the count of the [Arc].  Reading a
    freed mutex or through a pointer that leads nowhere is an error of the model; the theorems show that
    no sequence of safe calls reaches it.  A guard owns the permit of the semaphore, which is any permit
    pool: every step says whether it takes the permit or gives it back. *)
From S2P Require Import Prelude PermitPool Places.

(** ** Guards and memory *)

(** A borrowed guard borrows a handle of the mutex.  [Unlocked]: an owned guard whose [drop] has given
    the permit back and whose [Arc] is yet to be dropped. *)
Inductive Guard : Type :=
| MutexGuard (lock : nat)
| OwnedMutexGuard
| MappedMutexGuard (lock : nat) (d : Place)
| OwnedMappedMutexGuard (d : Place)
| Unlocked.

#[export] Instance Guard_eq_dec : EqDecision Guard.
Proof. solve_decision. Defined.

(** [cell] is gone once the mutex is freed; [strong] is the count of the [Arc]. *)
Record Mem : Type := mkMem {
  cell : option Val;
  strong : Z;
  handles : gset nat;
  guards : gmap nat Guard;
}.

Definition set_cell v (m : Mem) : Mem := mkMem v (strong m) (handles m) (guards m).
Definition set_guards g (m : Mem) : Mem := mkMem (cell m) (strong m) (handles m) g.

Inductive PoolOp : Type := Keep | Take | Give.

(** The permit taken or given back, the value read, and whether a callback has unwound. *)
Record Obs : Type := mkObs {
  pool_op : PoolOp;
  seen : option Val;
  unwound : bool;
}.
Definition quiet : Obs := mkObs Keep None false.

(** [Deref] and [DerefMut] of the guards; the pointer of a guard that is not mapped is the cell. *)
Definition deref (d : Place) : M Mem Val :=
  m ← get;
  v ← expect (cell m) "use after free";
  expect (read_at d v) "dangling pointer".

Definition deref_mut (d : Place) (w : Val) : M Mem unit :=
  m ← get;
  v ← expect (cell m) "use after free";
  _ ← expect (read_at d v) "dangling pointer";
  put (set_cell (Some (write_at d w v)) m).

Definition pointer (g : Guard) : Place :=
  match g with
  | MappedMutexGuard _ d | OwnedMappedMutexGuard d => d
  | _ => []
  end.

(** [f(&mut *orig)]: the place it returns, as a place of the cell. *)
Definition call {A : Type} (d : Place) (f : Val → Val * A) : M Mem A :=
  v ← deref d;
  deref_mut d (f v).1;;
  mret (f v).2.

(** *** [map] of the four guards; no result when [f] unwinds *)
Definition MutexGuard_map (lock : nat) (f : MapFn) : M Mem (option Guard) :=
  d ← call [] f;
  mret (MappedMutexGuard lock <$> d).

Definition OwnedMutexGuard_map (f : MapFn) : M Mem (option Guard) :=
  d ← call [] f;
  mret (OwnedMappedMutexGuard <$> d).

Definition MappedMutexGuard_map (lock : nat) (d : Place) (f : MapFn) : M Mem (option Guard) :=
  d' ← call d f;
  mret ((λ d', MappedMutexGuard lock (d ++ d')) <$> d').

Definition OwnedMappedMutexGuard_map (d : Place) (f : MapFn) : M Mem (option Guard) :=
  d' ← call d f;
  mret ((λ d', OwnedMappedMutexGuard (d ++ d')) <$> d').

(** *** [filter_map]: the mapped guard, or the guard itself back *)
Definition MutexGuard_filter_map (lock : nat) (f : FilterFn) : M Mem (option (result Guard Guard)) :=
  r ← call [] f;
  mret ((λ r, match r with Some d => Ok (MappedMutexGuard lock d) | None => Err (MutexGuard lock) end) <$> r).

Definition OwnedMutexGuard_filter_map (f : FilterFn) : M Mem (option (result Guard Guard)) :=
  r ← call [] f;
  mret ((λ r, match r with Some d => Ok (OwnedMappedMutexGuard d) | None => Err OwnedMutexGuard end) <$> r).

Definition MappedMutexGuard_filter_map (lock : nat) (d : Place) (f : FilterFn) : M Mem (option (result Guard Guard)) :=
  r ← call d f;
  mret ((λ r, match r with Some d' => Ok (MappedMutexGuard lock (d ++ d')) | None => Err (MappedMutexGuard lock d) end) <$> r).

Definition OwnedMappedMutexGuard_filter_map (d : Place) (f : FilterFn) : M Mem (option (result Guard Guard)) :=
  r ← call d f;
  mret ((λ r, match r with Some d' => Ok (OwnedMappedMutexGuard (d ++ d')) | None => Err (OwnedMappedMutexGuard d) end) <$> r).

Definition guard_map (g : Guard) (f : MapFn) : M Mem (option Guard) :=
  match g with
  | MutexGuard h => MutexGuard_map h f
  | OwnedMutexGuard => OwnedMutexGuard_map f
  | MappedMutexGuard h d => MappedMutexGuard_map h d f
  | OwnedMappedMutexGuard d => OwnedMappedMutexGuard_map d f
  | Unlocked => panic "the guard is gone"
  end.

Definition guard_filter_map (g : Guard) (f : FilterFn) : M Mem (option (result Guard Guard)) :=
  match g with
  | MutexGuard h => MutexGuard_filter_map h f
  | OwnedMutexGuard => OwnedMutexGuard_filter_map f
  | MappedMutexGuard h d => MappedMutexGuard_filter_map h d f
  | OwnedMappedMutexGuard d => OwnedMappedMutexGuard_filter_map d f
  | Unlocked => panic "the guard is gone"
  end.

(** [Drop] of the guards reaches the semaphore of the mutex: what becomes of the guard. *)
Definition guard_drop (g : Guard) : M Mem (option Guard) :=
  m ← get;
  _ ← expect (cell m) "use after free";
  match g with
  | MutexGuard _ | MappedMutexGuard _ _ => mret None
  | OwnedMutexGuard | OwnedMappedMutexGuard _ => mret (Some Unlocked)
  | Unlocked => panic "the guard is gone"
  end.

(** [Arc::drop]: the last owner frees the mutex. *)
Definition arc_drop : M Mem unit :=
  m ← get;
  n ← sub_int (strong m) 1;
  put (mkMem (if bool_decide (n = 0) then None else cell m) n (handles m) (guards m)).

(** ** The system *)
Inductive Label : Type :=
| CloneHandle (h h' : nat)
| DropHandle (h : nat)
| Lock (g h : nat)
| TryLock (g h : nat) (acquired : bool)
| LockOwned (g h : nat)
| TryLockOwned (g h : nat) (acquired : bool)
| Read (g : nat)
| Write (g : nat) (w : Val)
| Map (g : nat) (f : MapFn)
| FilterMap (g : nat) (f : FilterFn)
| DropGuard (g : nat)
| DropArc (g : nat)
| Forget (g : nat)
| GetMut (h : nat) (w : Val)
| IntoInner (h : nat).

Definition put_guard (g : nat) (v : option Guard) : M Mem unit :=
  modify (λ m, set_guards (match v with Some d => <[g:=d]> (guards m) | None => delete g (guards m) end) m).

(** [lock] and [try_lock] once the permit is theirs. *)
Definition lock (g h : nat) : M Mem Obs :=
  put_guard g (Some (MutexGuard h));;
  mret (mkObs Take None false).
Definition try_lock (g h : nat) (acquired : bool) : M Mem Obs := if acquired then lock g h else mret quiet.

(** [lock_owned] and [try_lock_owned] consume the handle; a failed attempt drops it. *)
Definition lock_owned (g h : nat) : M Mem Obs :=
  modify (λ m, mkMem (cell m) (strong m) (handles m ∖ {[h]}) (guards m));;
  put_guard g (Some OwnedMutexGuard);;
  mret (mkObs Take None false).
Definition try_lock_owned (g h : nat) (acquired : bool) : M Mem Obs :=
  if acquired then lock_owned g h
  else
    modify (λ m, mkMem (cell m) (strong m) (handles m ∖ {[h]}) (guards m));;
    arc_drop;;
    mret quiet.

Definition drop_at (g : nat) (d : Guard) (unwinding : bool) : M Mem Obs :=
  d' ← guard_drop d;
  put_guard g d';;
  mret (mkObs Give None unwinding).

(** [get_mut] and [into_inner] by the only owner. *)
Definition get_mut (w : Val) : M Mem Obs := deref_mut [] w;; mret quiet.
Definition into_inner (h : nat) : M Mem Obs :=
  m ← get;
  v ← deref [];
  put (mkMem None 0 (handles m ∖ {[h]}) (guards m));;
  mret (mkObs Keep (Some v) false).

Definition exec (l : Label) : M Mem Obs :=
  m ← get;
  match l with
  | CloneHandle _ h' => put (mkMem (cell m) (strong m + 1) ({[h']} ∪ handles m) (guards m));; mret quiet
  | DropHandle h => put (mkMem (cell m) (strong m) (handles m ∖ {[h]}) (guards m));; arc_drop;; mret quiet
  | Lock g h => lock g h
  | TryLock g h acquired => try_lock g h acquired
  | LockOwned g h => lock_owned g h
  | TryLockOwned g h acquired => try_lock_owned g h acquired
  | Read g =>
      d ← expect (guards m !! g) "no such guard";
      v ← deref (pointer d);
      mret (mkObs Keep (Some v) false)
  | Write g w =>
      d ← expect (guards m !! g) "no such guard";
      deref_mut (pointer d) w;;
      mret quiet
  | Map g f =>
      d ← expect (guards m !! g) "no such guard";
      r ← guard_map d f;
      match r with
      | Some d' => put_guard g (Some d');; mret quiet
      | None => drop_at g d true
      end
  | FilterMap g f =>
      d ← expect (guards m !! g) "no such guard";
      r ← guard_filter_map d f;
      match r with
      | Some (Ok d') | Some (Err d') => put_guard g (Some d');; mret quiet
      | None => drop_at g d true
      end
  | DropGuard g => d ← expect (guards m !! g) "no such guard"; drop_at g d false
  | DropArc g => put_guard g None;; arc_drop;; mret quiet
  | Forget g => put_guard g None;; mret quiet
  | GetMut _ w => get_mut w
  | IntoInner h => into_inner h
  end.

(** What the borrow checker and the types promise: a handle is not moved while a guard borrows it, a guard
    is used while it lives, a callback returns a place of what it leaves, and a mutex that is not shared
    has one owner and no guard. *)
Definition holding (d : Guard) : bool := match d with Unlocked => false | _ => true end.
Definition borrows (h : nat) (d : Guard) : Prop := match d with MutexGuard h' | MappedMutexGuard h' _ => h' = h | _ => False end.
#[export] Instance borrows_dec h d : Decision (borrows h d).
Proof. destruct d; simpl; apply _. Defined.

Definition free_handle (h : nat) (m : Mem) : bool :=
  bool_decide (h ∈ handles m) && bool_decide (¬ map_Exists (λ _ d, borrows h d) (guards m)).
Definition sole_owner (h : nat) (m : Mem) : bool := free_handle h m && bool_decide (strong m = 1).
Definition held (g : nat) (m : Mem) : bool := from_option holding false (guards m !! g).
Definition target (g : nat) (m : Mem) : option Val := d ← guards m !! g; v ← cell m; read_at (pointer d) v.
Definition within (v : Val) (r : option Place) : bool := match r with Some r => bool_decide (is_Some (read_at r v)) | None => true end.

Definition enabled (l : Label) (m : Mem) : bool :=
  match l with
  | CloneHandle h h' => bool_decide (h ∈ handles m) && bool_decide (h' ∉ handles m) && bool_decide (strong m < isize_max)
  | DropHandle h => free_handle h m
  | Lock g h | TryLock g h _ => bool_decide (h ∈ handles m) && bool_decide (guards m !! g = None)
  | LockOwned g h | TryLockOwned g h _ => free_handle h m && bool_decide (guards m !! g = None)
  | Read g | Write g _ | DropGuard g | Forget g => held g m
  | Map g f => held g m && match target g m with Some v => let (v', r) := f v in within v' r | None => true end
  | FilterMap g f => held g m && match target g m with Some v => let (v', r) := f v in within v' (mjoin r) | None => true end
  | DropArc g => bool_decide (guards m !! g = Some Unlocked)
  | GetMut h _ | IntoInner h => sole_owner h m
  end.

(** [Arc::new(Mutex::new(v))]: handle 0. *)
Definition new (v : Val) : Mem := mkMem (Some v) 1 {[0%nat]} ∅.

Section system.
Context {P : Type} `{!PermitPool P}.

Record Sys : Type := mkSys {
  pool : P;
  mem : Mem;
}.

Definition pool_move (op : PoolOp) : P → P → Prop :=
  match op with Keep => eq | Take => pp_take 1 | Give => pp_give 1 end.

(** A call, or a step of the semaphore on its own. *)
Inductive steps (x : Sys) : list (Label * Obs) → Sys → Prop :=
| steps_nil : steps x [] x
| steps_call tr y l o m' p' :
    steps x tr y → enabled l (mem y) = true → returns (exec l) (mem y) o m' → pool_move (pool_op o) (pool y) p' →
    steps x (tr ++ [(l, o)]) (mkSys p' m')
| steps_pool tr y p' : steps x tr y → pp_internal (pool y) p' → steps x tr (mkSys p' (mem y)).
End system.
Arguments Sys : clear implicits.

(** ** Invariant *)
Definition owns (d : Guard) : Z := match d with MutexGuard _ | MappedMutexGuard _ _ => 0 | _ => 1 end.
Definition holds (d : Guard) : Z := if holding d then 1 else 0.

(** The mutex lives as long as somebody owns it, a guard's handle and its place are there, and at most one
    guard holds the permit. *)
Record mem_ok (m : Mem) : Prop := {
  mk_cell : 0 < strong m → is_Some (cell m);
  mk_count : Z.of_nat (size (handles m)) + map_sum owns (guards m) <= strong m;
  mk_borrow : ∀ g d h, guards m !! g = Some d → borrows h d → h ∈ handles m;
  mk_place : ∀ g d v, guards m !! g = Some d → holding d = true → cell m = Some v → is_Some (read_at (pointer d) v);
  mk_one : map_sum holds (guards m) <= 1;
}.

Lemma owns_nonneg (G : gmap nat Guard) : ∀ g d, G !! g = Some d → 0 <= owns d.
Proof. by intros g []. Qed.
Lemma holds_nonneg (G : gmap nat Guard) : ∀ g d, G !! g = Some d → 0 <= holds d.
Proof. by intros g []. Qed.

Lemma holding_unique m g g' d d' :
  mem_ok m → guards m !! g = Some d → guards m !! g' = Some d' → holding d = true → holding d' = true → g = g'.
Proof.
  intros Hm Hg Hg' Hd Hd'. destruct (decide (g = g')) as [|Hne]; [done|]. pose proof (map_sum_two holds _ _ _ _ _ (holds_nonneg _) Hg Hg' Hne) as H.
  unfold holds in H at 1 2. rewrite Hd, Hd' in H. pose proof (mk_one _ Hm). lia.
Qed.

Lemma handle_alive m h : mem_ok m → h ∈ handles m → 0 < strong m.
Proof.
  intros Hm Hh. pose proof (mk_count _ Hm). pose proof (map_sum_nonneg owns (guards m) (owns_nonneg _)).
  pose proof (subseteq_size {[h]} (handles m) ltac:(set_solver)) as Hs. rewrite size_singleton in Hs. lia.
Qed.

(** A guard keeps the mutex alive, by its own count or by that of the handle it borrows. *)
Lemma guard_alive m g d : mem_ok m → guards m !! g = Some d → is_Some (cell m).
Proof.
  intros Hm Hg. apply mk_cell; [done|].
  destruct d as [h| |h p|p|]; try (eapply handle_alive, (mk_borrow _ Hm); [done|exact Hg|done]);
    pose proof (mk_count _ Hm); pose proof (map_sum_elem owns _ _ _ (owns_nonneg _) Hg) as He; simpl in He; lia.
Qed.

(** The guard in place of [g] after a call through it. *)
Lemma replace_guard m g d d' w :
  mem_ok m → guards m !! g = Some d → holding d = true → owns d' = owns d → (∀ h, borrows h d' → borrows h d) → holding d' = true →
  is_Some (read_at (pointer d') w) →
  mem_ok (mkMem (Some w) (strong m) (handles m) (<[g:=d']> (guards m))) ∧ map_sum holds (<[g:=d']> (guards m)) = map_sum holds (guards m).
Proof.
  intros Hm Hg Hd Eo Hb Hd' Hr. pose proof Hm as [H1 H2 H3 H4 H5].
  assert (map_sum holds (<[g:=d']> (guards m)) = map_sum holds (guards m)) as Eh.
  { rewrite (map_sum_update _ _ _ _ _ Hg). unfold holds. rewrite Hd, Hd'. lia. }
  split; [|done]. split; simpl.
  - done.
  - rewrite (map_sum_update _ _ _ _ _ Hg), Eo. lia.
  - intros j e h [[-> <-]|[_ Hj]]%lookup_insert_Some Hh; [apply (H3 j d); [done|by apply Hb]|by eapply H3].
  - intros j e v [[-> <-]|[Hne Hj]]%lookup_insert_Some He [= <-]; [done|]. destruct Hne. by eapply holding_unique.
  - by rewrite Eh.
Qed.

(** The guard has given its permit back. *)
Lemma release_guard m g d w :
  mem_ok m → guards m !! g = Some d → holding d = true → is_Some w →
  let G := match d with MutexGuard _ | MappedMutexGuard _ _ => delete g (guards m) | _ => <[g:=Unlocked]> (guards m) end in
  mem_ok (mkMem w (strong m) (handles m) G) ∧ map_sum holds G = map_sum holds (guards m) - 1.
Proof.
  intros Hm Hg Hd Hw G. pose proof Hm as [H1 H2 H3 H4 H5].
  assert (map_sum holds G = map_sum holds (guards m) - 1) as Eh.
  { unfold G. destruct d; try done; rewrite ?(map_sum_update _ _ _ _ _ Hg), ?(map_sum_delete _ _ _ _ Hg); unfold holds; simpl; lia. }
  assert (map_sum owns G = map_sum owns (guards m)) as Eo.
  { unfold G. destruct d; try done; rewrite ?(map_sum_update _ _ _ _ _ Hg), ?(map_sum_delete _ _ _ _ Hg); simpl; lia. }
  assert (∀ j e, G !! j = Some e → (j ≠ g ∧ guards m !! j = Some e) ∨ e = Unlocked) as Hin.
  { intros j e Hj. unfold G in Hj. destruct d; try done; try (apply lookup_delete_Some in Hj as [? ?]; left; by split);
      apply lookup_insert_Some in Hj as [[_ <-]|[? ?]]; [by right|by left|by right|by left]. }
  split; [|done]. split; simpl; [done|lia| | |lia].
  - intros j e h Hj Hh. destruct (Hin j e Hj) as [[_ Hj']| ->]; [by eapply H3|done].
  - intros j e v Hj He _. destruct (Hin j e Hj) as [[Hne Hj']| ->]; [|done]. destruct Hne. by eapply holding_unique.
Qed.

(** *** What calls do *)
Definition remap (d : Guard) (r : Place) : Guard :=
  match d with
  | MutexGuard h => MappedMutexGuard h r
  | OwnedMutexGuard => OwnedMappedMutexGuard r
  | MappedMutexGuard h p => MappedMutexGuard h (p ++ r)
  | OwnedMappedMutexGuard p => OwnedMappedMutexGuard (p ++ r)
  | Unlocked => Unlocked
  end.

Lemma guard_map_eq d f : holding d = true → guard_map d f = (r ← call (pointer d) f; mret (remap d <$> r)).
Proof. by destruct d. Qed.
Lemma guard_filter_map_eq d f : holding d = true →
  guard_filter_map d f = (r ← call (pointer d) f; mret ((λ r, match r with Some r => Ok (remap d r) | None => Err d end) <$> r)).
Proof. by destruct d. Qed.

Lemma remap_ok d r : holding d = true →
  pointer (remap d r) = pointer d ++ r ∧ owns (remap d r) = owns d ∧ (∀ h, borrows h (remap d r) → borrows h d) ∧ holding (remap d r) = true.
Proof. by destruct d. Qed.

(** A call through a live guard finds its target. *)
Lemma guard_target m g d : mem_ok m → guards m !! g = Some d → holding d = true →
  ∃ v t, cell m = Some v ∧ read_at (pointer d) v = Some t ∧ target g m = Some t.
Proof.
  intros Hm Hg Hd. destruct (guard_alive _ _ _ Hm Hg) as [v Hv]. destruct (mk_place _ Hm g d v Hg Hd Hv) as [t Ht].
  exists v, t. split_and!; [done|done|]. unfold target. rewrite Hg. simpl. by rewrite Hv.
Qed.

Lemma deref_ok m p v t : cell m = Some v → read_at p v = Some t → wp (deref p) m (λ u m', u = t ∧ m' = m).
Proof. intros Hv Ht. unfold deref. wp_auto. eapply wp_expect; [done|]. eapply wp_expect; [done|]. done. Qed.

Lemma deref_mut_ok m p w v : cell m = Some v → is_Some (read_at p v) → wp (deref_mut p w) m (λ _ m', m' = set_cell (Some (write_at p w v)) m).
Proof. intros Hv [t Ht]. unfold deref_mut. wp_auto. eapply wp_expect; [done|]. wp_auto. eapply wp_expect; [done|]. by wp_auto. Qed.

Lemma call_ok {A : Type} m p v t (f : Val → Val * A) :
  cell m = Some v → read_at p v = Some t → wp (call p f) m (λ a m', a = (f t).2 ∧ m' = set_cell (Some (write_at p (f t).1 v)) m).
Proof.
  intros Hv Ht. unfold call. wp_auto. wp_apply deref_ok; [done|done|]. intros ? ? [-> ->]. wp_auto. wp_apply deref_mut_ok; [done|by eexists|]. intros _ ? ->. by wp_auto.
Qed.

(** The effect of a call on the permit. *)
Definition takes (l : Label) : bool :=
  match l with Lock _ _ | LockOwned _ _ | TryLock _ _ true | TryLockOwned _ _ true => true | _ => false end.
Definition forgets (l : Label) : bool := match l with Forget _ => true | _ => false end.
Definition gain (l : Label) (o : Obs) : Z :=
  match pool_op o with Keep => if forgets l then -1 else 0 | Take => 1 | Give => -1 end.
Definition effect (l : Label) (m : Mem) (o : Obs) (m' : Mem) : Prop :=
  mem_ok m' ∧ map_sum holds (guards m') = map_sum holds (guards m) + gain l o.

(** A guard is dropped, after its callback changed the target or not. *)
Lemma drop_at_ok l m m1 g d u :
  mem_ok m → guards m !! g = Some d → holding d = true → forgets l = false → is_Some (cell m1) → m1 = set_cell (cell m1) m →
  wp (drop_at g d u) m1 (λ o m', effect l m o m').
Proof.
  intros Hm Hg Hd Hl [v Hv] E. destruct (release_guard m g d (cell m1) Hm Hg Hd ltac:(by rewrite Hv)) as [Hok Hh]. unfold drop_at, guard_drop, put_guard.
  wp_auto. eapply wp_expect; [done|]. rewrite E. destruct d; try done; wp_auto; split; try exact Hok; simpl; rewrite Hh; unfold gain; simpl; lia.
Qed.

(** A call of a callback, by [map] or [filter_map]. *)
Lemma remapped_ok l m g d v t w r :
  mem_ok m → guards m !! g = Some d → holding d = true → forgets l = false → cell m = Some v → read_at (pointer d) v = Some t → is_Some (read_at r w) →
  effect l m quiet (mkMem (Some (write_at (pointer d) w v)) (strong m) (handles m) (<[g:=remap d r]> (guards m))).
Proof.
  intros Hm Hg Hd Hl Hv Ht Hr. destruct (remap_ok d r Hd) as (Hp & Ho & Hb & Hh).
  destruct (replace_guard m g d (remap d r) (write_at (pointer d) w v)) as [Hok Hs]; try done.
  - rewrite Hp, read_write_below by (by eexists). done.
  - split; [done|]. simpl. rewrite Hs. unfold gain. simpl. rewrite Hl. lia.
Qed.
Lemma returned_ok l m g d v t w :
  mem_ok m → guards m !! g = Some d → holding d = true → forgets l = false → cell m = Some v → read_at (pointer d) v = Some t →
  effect l m quiet (mkMem (Some (write_at (pointer d) w v)) (strong m) (handles m) (<[g:=d]> (guards m))).
Proof.
  intros Hm Hg Hd Hl Hv Ht. destruct (replace_guard m g d d (write_at (pointer d) w v)) as [Hok Hs]; try done.
  - rewrite read_write_at by (by eexists). by eexists.
  - split; [done|]. simpl. rewrite Hs. unfold gain. simpl. rewrite Hl. lia.
Qed.

Lemma map_call_ok g f m : mem_ok m → enabled (Map g f) m = true → wp (exec (Map g f)) m (effect (Map g f) m).
Proof.
  intros Hm [Hg Hf]%andb_true_iff. unfold held in Hg. destruct (guards m !! g) as [d|] eqn:Eg; [|done]. simpl in Hg.
  destruct (guard_target m g d Hm Eg Hg) as (v & t & Hv & Ht & Htg). rewrite Htg in Hf. unfold exec. wp_auto. eapply wp_expect; [done|].
  rewrite guard_map_eq by done. wp_auto. wp_apply call_ok; [exact Hv|exact Ht|]. intros r m1 [-> ->]. wp_auto.
  destruct (f t) as [w [r|]]; simpl in Hf |- *; wp_auto.
  - apply bool_decide_eq_true in Hf. exact (remapped_ok (Map g f) m g d v t w r Hm Eg Hg eq_refl Hv Ht Hf).
  - by apply (drop_at_ok _ m).
Qed.

Lemma filter_map_call_ok g f m : mem_ok m → enabled (FilterMap g f) m = true → wp (exec (FilterMap g f)) m (effect (FilterMap g f) m).
Proof.
  intros Hm [Hg Hf]%andb_true_iff. unfold held in Hg. destruct (guards m !! g) as [d|] eqn:Eg; [|done]. simpl in Hg.
  destruct (guard_target m g d Hm Eg Hg) as (v & t & Hv & Ht & Htg). rewrite Htg in Hf. unfold exec. wp_auto. eapply wp_expect; [done|].
  rewrite guard_filter_map_eq by done. wp_auto. wp_apply call_ok; [exact Hv|exact Ht|]. intros r m1 [-> ->]. wp_auto.
  destruct (f t) as [w [[r|]|]]; simpl in Hf |- *; wp_auto.
  - apply bool_decide_eq_true in Hf. exact (remapped_ok (FilterMap g f) m g d v t w r Hm Eg Hg eq_refl Hv Ht Hf).
  - exact (returned_ok (FilterMap g f) m g d v t w Hm Eg Hg eq_refl Hv Ht).
  - by apply (drop_at_ok _ m).
Qed.

(** A reference of the [Arc] that nobody counts on any more is dropped. *)
Lemma arc_drop_ok m :
  mem_ok m → Z.of_nat (size (handles m)) + map_sum owns (guards m) < strong m →
  wp arc_drop m (λ _ m', mem_ok m' ∧ guards m' = guards m).
Proof.
  intros [H1 H2 H3 H4 H5] Hs. pose proof (map_sum_nonneg owns (guards m) (owns_nonneg _)). unfold arc_drop. wp_auto. apply wp_sub_int; [lia|].
  wp_auto. split; [|done]. split; simpl; [|lia|done| |done].
  - intros Hp. rewrite bool_decide_eq_false_2 by lia. apply H1. lia.
  - intros g d v Hg Hd Hv. case_bool_decide; [done|]. by eapply H4.
Qed.

(** A handle that no guard borrows is moved out. *)
Lemma take_handle_ok m h :
  mem_ok m → free_handle h m = true →
  let m' := mkMem (cell m) (strong m) (handles m ∖ {[h]}) (guards m) in
  mem_ok m' ∧ Z.of_nat (size (handles m')) + map_sum owns (guards m') < strong m'.
Proof.
  intros [H1 H2 H3 H4 H5] [Hh%bool_decide_eq_true Hb%bool_decide_eq_true]%andb_true_iff m'.
  assert (Z.of_nat (size (handles m')) = Z.of_nat (size (handles m)) - 1) as Es.
  { simpl. rewrite (union_difference_singleton_L h (handles m)) at 2 by done. rewrite (size_union {[h]} (handles m ∖ {[h]})), size_singleton by set_solver. lia. }
  split; [|simpl in *; lia]. split; simpl in *; try done; [lia|]. intros g d h' Hg Hd. apply elem_of_difference. split; [by eapply H3|].
  intros ->%elem_of_singleton. apply Hb. by exists g, d.
Qed.

(** A new guard for the permit just taken. *)
Lemma new_guard_ok m g d :
  mem_ok m → guards m !! g = None → map_sum holds (guards m) = 0 → holding d = true → pointer d = [] → (∀ h, borrows h d → h ∈ handles m) →
  Z.of_nat (size (handles m)) + map_sum owns (guards m) + owns d <= strong m →
  mem_ok (set_guards (<[g:=d]> (guards m)) m) ∧ map_sum holds (<[g:=d]> (guards m)) = 1.
Proof.
  intros [H1 H2 H3 H4 H5] Hg H0 Hd Hp Hb Ho.
  assert (map_sum holds (<[g:=d]> (guards m)) = 1) as Eh by (rewrite map_sum_insert, H0 by done; unfold holds; rewrite Hd; lia).
  split; [|done]. split; simpl; [done| | | |lia].
  - rewrite map_sum_insert by done. lia.
  - intros j e h [[-> <-]|[_ Hj]]%lookup_insert_Some; [apply Hb|by apply (H3 j)].
  - intros j e v [[-> <-]|[_ Hj]]%lookup_insert_Some He Hv; [rewrite Hp; by eexists|by eapply H4].
Qed.

(** A guard is forgotten, or the reference of one that is gone is dropped. *)
Lemma remove_guard_ok m g d :
  mem_ok m → guards m !! g = Some d →
  mem_ok (set_guards (delete g (guards m)) m) ∧ map_sum holds (delete g (guards m)) = map_sum holds (guards m) - holds d ∧
  map_sum owns (delete g (guards m)) = map_sum owns (guards m) - owns d.
Proof.
  intros [H1 H2 H3 H4 H5] Hg. rewrite !(map_sum_delete _ _ _ _ Hg). split_and!; [|done|done]. assert (0 <= owns d ∧ 0 <= holds d) as [? ?] by (by destruct d).
  split; simpl; try done; rewrite ?(map_sum_delete _ _ _ _ Hg); try lia.
  - intros j e h [_ Hj]%lookup_delete_Some. by apply (H3 j).
  - intros j e v [_ Hj]%lookup_delete_Some. by apply (H4 j).
Qed.

(** *** Calls on handles and locks *)
Lemma drop_handle_ok l m h :
  mem_ok m → free_handle h m = true → forgets l = false →
  wp arc_drop (mkMem (cell m) (strong m) (handles m ∖ {[h]}) (guards m)) (λ _ m', effect l m quiet m').
Proof.
  intros Hm Hh Hl. destruct (take_handle_ok m h Hm Hh) as [Hm' Hlt]. wp_apply arc_drop_ok; [done|done|]. intros _ m' [Hok Eg].
  split; [done|]. rewrite Eg. unfold gain. simpl. rewrite Hl. lia.
Qed.

Lemma lock_ok l m g h :
  mem_ok m → h ∈ handles m → guards m !! g = None → map_sum holds (guards m) = 0 → wp (lock g h) m (effect l m).
Proof.
  intros Hm Hh Hg H0. pose proof (mk_count _ Hm). destruct (new_guard_ok m g (MutexGuard h) Hm Hg H0) as [Hok Hs]; [done|done|by intros h' ->|simpl; lia|].
  unfold lock, put_guard. wp_auto. split; [exact Hok|]. simpl. rewrite Hs, H0. done.
Qed.

Lemma lock_owned_ok l m g h :
  mem_ok m → free_handle h m = true → guards m !! g = None → map_sum holds (guards m) = 0 → wp (lock_owned g h) m (effect l m).
Proof.
  intros Hm Hh Hg H0. destruct (take_handle_ok m h Hm Hh) as [Hm' Hlt].
  destruct (new_guard_ok _ g OwnedMutexGuard Hm' Hg H0) as [Hok Hs]; [done|done|done|simpl in *; lia|].
  unfold lock_owned, put_guard. wp_auto. split; [exact Hok|]. simpl in *. rewrite Hs, H0. done.
Qed.

Lemma clone_ok l m h h' :
  mem_ok m → h ∈ handles m → h' ∉ handles m → forgets l = false →
  effect l m quiet (mkMem (cell m) (strong m + 1) ({[h']} ∪ handles m) (guards m)).
Proof.
  intros Hm Hh Hh' Hl. split; [|unfold gain; simpl; rewrite Hl; lia]. pose proof (handle_alive m h Hm Hh). destruct Hm as [H1 H2 H3 H4 H5].
  split; simpl; try done; [by intros _; apply H1| |].
  - rewrite size_union by set_solver. rewrite size_singleton. lia.
  - intros g d j Hg Hj. apply elem_of_union_r. by eapply H3.
Qed.

(** The only owner of a mutex is alone with it. *)
Lemma sole_owner_ok m h : mem_ok m → sole_owner h m = true → guards m = ∅ ∧ is_Some (cell m).
Proof.
  intros Hm [[Hh%bool_decide_eq_true Hb%bool_decide_eq_true]%andb_true_iff H1%bool_decide_eq_true]%andb_true_iff.
  split; [|apply (mk_cell _ Hm); lia]. apply map_empty. intros g. destruct (guards m !! g) as [d|] eqn:Hg; [exfalso|done].
  pose proof (mk_count _ Hm) as Hc. pose proof (map_sum_elem owns _ _ _ (owns_nonneg _) Hg) as Ho.
  assert (∀ j, j ∈ handles m → j = h) as Hone.
  { intros j Hj. destruct (decide (j = h)) as [|Hne]; [done|]. pose proof (subseteq_size {[j; h]} (handles m) ltac:(set_solver)) as Hs.
    rewrite size_union, !size_singleton in Hs by set_solver. pose proof (map_sum_nonneg owns (guards m) (owns_nonneg _)). lia. }
  pose proof (subseteq_size {[h]} (handles m) ltac:(set_solver)) as Hs. rewrite size_singleton in Hs.
  destruct d as [j| |j p|p|]; simpl in Ho; try lia;
    (apply Hb; eexists g, _; split; [exact Hg|]; simpl; apply Hone, (mk_borrow _ Hm g _ j Hg); done).
Qed.

Lemma sole_owner_effect l m h v n H :
  mem_ok m → sole_owner h m = true → forgets l = false → (0 < n → is_Some v) → Z.of_nat (size H) <= n → effect l m quiet (mkMem v n H (guards m)).
Proof.
  intros Hm Hs Hl Hv Hn. destruct (sole_owner_ok m h Hm Hs) as [Eg _]. split; [|unfold gain; simpl; rewrite Hl; lia]. rewrite Eg.
  split; simpl; [done|rewrite map_sum_empty; lia|intros ? ? ?; by rewrite lookup_empty|intros ? ? ?; by rewrite lookup_empty|by rewrite map_sum_empty].
Qed.

Lemma held_ok m g : mem_ok m → held g m = true → ∃ d v t, guards m !! g = Some d ∧ holding d = true ∧ cell m = Some v ∧ read_at (pointer d) v = Some t.
Proof.
  intros Hm Hg. unfold held in Hg. destruct (guards m !! g) as [d|] eqn:Eg; [|done]. destruct (guard_target m g d Hm Eg Hg) as (v & t & ? & ? & _). by exists d, v, t.
Qed.

(** Every call preserves the invariant and ends without an error of memory, if it takes the permit only
    when no guard holds it. *)
Lemma mutex_exec_ok l m :
  mem_ok m → enabled l m = true → (takes l = true → map_sum holds (guards m) = 0) → wp (exec l) m (effect l m).
Proof.
  intros Hm He Ht. assert (forgets l = false → effect l m quiet m) as Hq by (intros Hl; split; [done|unfold gain; simpl; rewrite Hl; lia]).
  destruct l as [h h'|h|g h|g h acq|g h|g h acq|g|g w|g f|g f|g|g|g|h w|h]; [| | | | | | | |by apply map_call_ok|by apply filter_map_call_ok|..];
    simpl in He; unfold exec; wp_auto.
  - apply andb_true_iff in He as [[Hh%bool_decide_eq_true Hh'%bool_decide_eq_true]%andb_true_iff _]. by eapply clone_ok.
  - wp_apply (drop_handle_ok (DropHandle h) m h); [done..|]. intros _ m' H. by wp_auto.
  - apply enabled_and in He as [? ?]. by apply lock_ok; auto.
  - apply enabled_and in He as [? ?]. destruct acq; [by apply lock_ok; auto|]. simpl. wp_auto. by apply Hq.
  - apply andb_true_iff in He as [? ?%bool_decide_eq_true]. by apply lock_owned_ok; auto.
  - apply andb_true_iff in He as [? ?%bool_decide_eq_true]. destruct acq; [by apply lock_owned_ok; auto|]. unfold try_lock_owned. wp_auto.
    wp_apply (drop_handle_ok (TryLockOwned g h false) m h); [done..|]. intros _ m' H'. by wp_auto.
  - destruct (held_ok m g Hm He) as (d & v & t & Hg & Hd & Hv & Htg). eapply wp_expect; [done|]. wp_auto. wp_apply deref_ok; [done|done|]. intros u ? [-> ->]. wp_auto.
    by apply Hq.
  - destruct (held_ok m g Hm He) as (d & v & t & Hg & Hd & Hv & Htg). eapply wp_expect; [done|]. wp_auto. wp_apply deref_mut_ok; [done|by eexists|].
    intros _ ? ->. wp_auto. pose proof (returned_ok (Write g w) m g d v t w Hm Hg Hd eq_refl Hv Htg) as H. by rewrite insert_id in H.
  - destruct (held_ok m g Hm He) as (d & v & t & Hg & Hd & Hv & Htg). eapply wp_expect; [done|]. apply (drop_at_ok _ m m g d false Hm Hg Hd); [done|by rewrite Hv|by destruct m].
  - apply bool_decide_eq_true in He. destruct (remove_guard_ok m g _ Hm He) as (Hok & Eh & Eo). pose proof (mk_count _ Hm). unfold put_guard. wp_auto.
    wp_apply arc_drop_ok; [exact Hok|simpl in *; lia|]. intros _ m' [Hok' Eg]. wp_auto. split; [done|]. rewrite Eg. simpl. rewrite Eh. unfold gain, holds. simpl. lia.
  - destruct (held_ok m g Hm He) as (d & v & t & Hg & Hd & Hv & Htg). destruct (remove_guard_ok m g _ Hm Hg) as (Hok & Eh & Eo). unfold put_guard. wp_auto.
    split; [exact Hok|]. simpl. rewrite Eh. unfold gain, holds. rewrite Hd. simpl. lia.
  - destruct (sole_owner_ok m h Hm He) as [_ [v Hv]]. pose proof (mk_count _ Hm). pose proof (map_sum_nonneg owns (guards m) (owns_nonneg _)).
    unfold get_mut. wp_auto. wp_apply deref_mut_ok; [done|by eexists|]. intros _ ? ->. wp_auto. apply (sole_owner_effect _ m h); [done..|lia].
  - destruct (sole_owner_ok m h Hm He) as [_ [v Hv]]. unfold into_inner. wp_auto. wp_apply deref_ok; [exact Hv|done|]. intros u ? [-> ->]. wp_auto.
    apply (sole_owner_effect (IntoInner h) m h); [done..|]. apply andb_true_iff in He as [Hf H1%bool_decide_eq_true].
    destruct (take_handle_ok m h Hm Hf) as [_ Hlt]. simpl in Hlt. pose proof (map_sum_nonneg owns (guards m) (owns_nonneg _)). lia.
Qed.

(** ** Properties *)
Definition about (l : Label) : option nat :=
  match l with
  | Lock g _ | TryLock g _ _ | LockOwned g _ | TryLockOwned g _ _ | Read g | Write g _ | Map g _ | FilterMap g _ | DropGuard g | DropArc g | Forget g => Some g
  | _ => None
  end.

(** While a guard holds the permit, nothing else reaches the cell. *)
Lemma undisturbed l m o m' g d :
  mem_ok m → guards m !! g = Some d → holding d = true → enabled l m = true → takes l = false → about l ≠ Some g →
  returns (exec l) m o m' → guards m' !! g = Some d ∧ cell m' = cell m.
Proof.
  intros Hm Hg Hd He Ht Ha Hr. pose proof (wp_returns_elim _ _ _ _ _ (mutex_exec_ok l m Hm He ltac:(by rewrite Ht)) Hr) as [Hm' _].
  assert (∀ h, sole_owner h m = true → False) as Hsole.
  { intros h Hh. destruct (sole_owner_ok m h Hm Hh) as [E _]. by rewrite E, lookup_empty in Hg. }
  assert (∀ j, held j m = true → Some j ≠ Some g → False) as Hother.
  { intros j Hj Hne. destruct (held_ok m j Hm Hj) as (e & _ & _ & Hj' & He' & _). apply Hne, (f_equal Some). exact (holding_unique m j g e d Hm Hj' Hg He' Hd). }
  assert (guards m' !! g = Some d ∧ (cell m' = cell m ∨ cell m' = None)) as [Hg' [Hc|Hc]]; [|done|].
  2:{ destruct (guard_alive _ _ _ Hm' Hg') as [v Hv]. congruence. }
  unfold returns, exec, try_lock, try_lock_owned, arc_drop, sub_int, expect, put_guard, put, modify, mbind, M_bind, mret, M_ret, get, panic in Hr. simpl in Hr, Ha.
  destruct l as [h h'|h|j h|j h []|j h|j h []|j|j w|j f|j f|j|j|j|h w|h]; simpl in He; try done;
    try (exfalso; exact (Hsole h He)); try (exfalso; exact (Hother j He Ha)); try (apply andb_true_iff in He as [He _]; exfalso; exact (Hother j He Ha)); simpl in Hr, Ha.
  - injection Hr as <- <-. simpl. by auto.
  - destruct (checked_sub _ _); [|done]. injection Hr as <- <-. simpl. split; [done|]. case_bool_decide; by auto.
  - injection Hr as <- <-. by auto.
  - destruct (checked_sub _ _); [|done]. injection Hr as <- <-. simpl. split; [done|]. case_bool_decide; by auto.
  - destruct (checked_sub _ _); [|done]. injection Hr as <- <-. simpl. split; [rewrite lookup_delete_ne; [done|congruence]|]. case_bool_decide; by auto.
Qed.

Section properties.
Context {P : Type} `{!PermitPool P}.
Implicit Types (x y : Sys P) (l : Label) (p : P).

Record sys_ok x : Prop := {
  so_pool : pp_ok (pool x);
  so_permit : pp_free (pool x) + map_sum holds (guards (mem x)) <= 1;
  so_mem : mem_ok (mem x);
}.

Lemma takes_op l m o m' : takes l = true → returns (exec l) m o m' → pool_op o = Take.
Proof. intros Hl. by destruct l as [| |?|? ? []|?|? ? []| | | | | | | | |]; try done; intros [= <- _]. Qed.

(** A permit can be taken only while no guard holds it. *)
Lemma take_exclusive x p' : sys_ok x → pp_take 1 (pool x) p' → map_sum holds (guards (mem x)) = 0.
Proof.
  intros [Hp Hf _] Ht. destruct (pp_take_spec _ _ _ Hp Ht) as [Hp' E]. pose proof (pp_nonneg _ Hp'). pose proof (map_sum_nonneg holds _ (holds_nonneg (guards (mem x)))). lia.
Qed.

Lemma call_ok_sys x l o m' p' :
  sys_ok x → enabled l (mem x) = true → returns (exec l) (mem x) o m' → pool_move (pool_op o) (pool x) p' →
  sys_ok (mkSys p' m') ∧ map_sum holds (guards m') = map_sum holds (guards (mem x)) + gain l o.
Proof.
  intros Hx He Hr Hp. pose proof Hx as [H1 H2 H3].
  destruct (wp_returns_elim _ _ _ _ _ (mutex_exec_ok l (mem x) H3 He ltac:(intros Ht; rewrite (takes_op _ _ _ _ Ht Hr) in Hp; by eapply take_exclusive)) Hr) as [Hm Hg].
  split; [|done]. unfold gain in Hg. destruct (pool_op o); simpl in Hp.
  - subst p'. split; simpl; [done| |done]. destruct (forgets l); lia.
  - destruct (pp_take_spec _ _ _ H1 Hp). split; simpl; [done|lia|done].
  - destruct (pp_give_spec _ _ _ H1 Hp). split; simpl; [done|lia|done].
Qed.

Lemma steps_ok x tr y : sys_ok x → steps x tr y → sys_ok y.
Proof.
  intros Hx. induction 1 as [|tr y l o m' p' _ IH He Hr Hp|tr y p' _ IH Hp]; [done|by eapply call_ok_sys|].
  destruct IH as [H1 H2 H3]. destruct (pp_internal_spec _ _ H1 Hp). split; simpl; [done|lia|done].
Qed.

Lemma new_ok p v : pp_ok p → pp_free p = 1 → sys_ok (mkSys p (new v)).
Proof.
  intros Hp Hf. split; simpl; [done|rewrite map_sum_empty; lia|]. split; simpl; [by eexists| |intros ? ? ?; by rewrite lookup_empty|intros ? ? ?; by rewrite lookup_empty|by rewrite map_sum_empty].
  by vm_compute.
Qed.

(** C33: memory safety of the mutex: whatever safe calls have been made, through any mixture of guards,
    mapped guards, callbacks that unwind, forgotten guards and dropped handles, the next call that is
    allowed neither reads a freed mutex nor follows a pointer that leads nowhere. *)
Theorem mutex_memory_safe p v tr x l :
  pp_ok p → pp_free p = 1 → steps (mkSys p (new v)) tr x → enabled l (mem x) = true →
  (takes l = true → ∃ p', pp_take 1 (pool x) p') → ∃ o m', returns (exec l) (mem x) o m'.
Proof.
  intros Hp Hf Hs He Ht. pose proof (steps_ok _ _ _ (new_ok p v Hp Hf) Hs) as Hx.
  assert (wp (exec l) (mem x) (effect l (mem x))) as H.
  { apply mutex_exec_ok; [apply Hx|done|]. intros Hl. destruct (Ht Hl) as [p' Hp']. by eapply take_exclusive. }
  apply wp_returns in H as (o & m' & Hr & _). by exists o, m'.
Qed.

(** The permit changes hands and is never duplicated or lost: the permits taken are those given
    back, those of forgotten guards and that of the live guard, of which there is at most one, and none
    while a permit is free; mapping a guard, failing to map it or unwinding out of a callback included. *)
Theorem mutex_permit_ledger p v tr x :
  pp_ok p → pp_free p = 1 → steps (mkSys p (new v)) tr x →
  foldr (λ e n, gain e.1 e.2 + n) 0 tr = map_sum holds (guards (mem x)) ∧
  0 <= map_sum holds (guards (mem x)) ∧ pp_free (pool x) + map_sum holds (guards (mem x)) <= 1.
Proof.
  intros Hp Hf Hs. split_and!; [|apply map_sum_nonneg, holds_nonneg|apply (steps_ok _ _ _ (new_ok p v Hp Hf) Hs)].
  induction Hs as [|tr y l o m' p' Hs IH He Hr Hm|tr y p' Hs IH Hi]; [done| |done].
  destruct (call_ok_sys _ _ _ _ _ (steps_ok _ _ _ (new_ok p v Hp Hf) Hs) He Hr Hm) as [_ E]. simpl. rewrite E, <-IH, foldr_app. simpl.
  clear. induction tr as [|e tr IH]; simpl; lia.
Qed.

(** C26: what is written through a guard is read back through it, whatever the other tasks do in between:
    also when the guard is mapped and points into the value. *)
Theorem mutex_read_back p v tr x g w o m' tr' y :
  pp_ok p → pp_free p = 1 → steps (mkSys p (new v)) tr x → enabled (Write g w) (mem x) = true → returns (exec (Write g w)) (mem x) o m' →
  steps (mkSys (pool x) m') tr' y → Forall (λ e, about e.1 ≠ Some g) tr' →
  returns (exec (Read g)) (mem y) (mkObs Keep (Some w) false) (mem y).
Proof.
  intros Hp Hf Hs He Hr Hs' Hall. pose proof (steps_ok _ _ _ (new_ok p v Hp Hf) Hs) as Hx. simpl in He.
  destruct (held_ok _ _ (so_mem _ Hx) He) as (d & c & t & Hg & Hd & Hc & Ht).
  assert (m' = set_cell (Some (write_at (pointer d) w c)) (mem x) ∧ o = quiet) as [-> ->].
  { unfold returns, exec, deref_mut, mbind, M_bind, mret, M_ret, get, put, expect in Hr. rewrite Hg in Hr. simpl in Hr. rewrite Hc in Hr. simpl in Hr. rewrite Ht in Hr. by injection Hr as <- <-. }
  destruct (call_ok_sys x (Write g w) quiet _ (pool x) Hx He Hr eq_refl) as [Hx' _].
  assert (guards (mem y) !! g = Some d ∧ cell (mem y) = Some (write_at (pointer d) w c)) as [Hgy Hcy].
  { revert Hall. induction Hs' as [|tr' y l o1 m1 p1 Hs' IH He1 Hr1 Hm1|tr' y p1 Hs' IH Hi]; intros Hall; [done| |by apply IH].
    apply Forall_app in Hall as [Hall [Ha _]%Forall_cons]. destruct (IH Hall) as [Hg1 Hc1]. pose proof (steps_ok _ _ _ Hx' Hs') as Hy.
    assert (takes l = false) as Htk.
    { destruct (takes l) eqn:E; [exfalso|done]. rewrite (takes_op _ _ _ _ E Hr1) in Hm1. pose proof (take_exclusive _ _ Hy Hm1) as H0.
      pose proof (map_sum_elem holds _ _ _ (holds_nonneg _) Hg1) as H1. unfold holds in H1 at 1. rewrite Hd in H1. lia. }
    destruct (undisturbed l _ _ _ g d (so_mem _ Hy) Hg1 Hd He1 Htk Ha Hr1) as [Hgz Hcz]. split; [exact Hgz|]. simpl. congruence. }
  unfold returns, exec, deref, mbind, M_bind, mret, M_ret, get, expect. rewrite Hgy. simpl. rewrite Hcy. simpl. by rewrite read_write_at.
Qed.
End properties.

(** A pair behind a mutex: an owned guard is mapped to its second field and written through. *)
Definition second_field : MapFn := λ v, (v, Some [1%nat]).
Definition pair_cell : Val := Node [Leaf 1; Leaf 2].
Definition mapped_mem : Mem := mkMem (Some pair_cell) 2 {[1%nat]} {[5%nat := OwnedMappedMutexGuard [1%nat]]}.
Definition mapped_trace : list (Label * Obs) :=
  [(CloneHandle 0 1, quiet); (LockOwned 5 0, mkObs Take None false); (Map 5 second_field, quiet)].

Lemma mapped_steps : steps (P := Z) (mkSys 1 (new pair_cell)) mapped_trace (mkSys 0 mapped_mem).
Proof.
  refine (steps_call _ [_; _] (mkSys 0 (mkMem (Some pair_cell) 2 {[1%nat]} {[5%nat := OwnedMutexGuard]})) (Map 5 second_field) quiet _ 0 _ eq_refl eq_refl eq_refl).
  refine (steps_call _ [_] (mkSys 1 (mkMem (Some pair_cell) 2 {[1%nat; 0%nat]} ∅)) (LockOwned 5 0) _ _ 0 _ eq_refl eq_refl _); [|change (counter_take 1 1 0); unfold counter_take; lia].
  exact (steps_call _ [] (mkSys 1 (new pair_cell)) (CloneHandle 0 1) _ _ 1 (steps_nil _) eq_refl eq_refl eq_refl).
Qed.

Lemma mutex_memory_safe_witness : ∃ o m', returns (exec (FilterMap 5 (λ v, (v, Some None)))) mapped_mem o m'.
Proof.
  eapply (mutex_memory_safe (P := Z) 1 pair_cell mapped_trace (mkSys 0 mapped_mem) (FilterMap 5 (λ v, (v, Some None))));
    [exact Z.le_0_1|done|apply mapped_steps|vm_compute; reflexivity|done].
Defined.

Lemma mutex_permit_ledger_witness :
  foldr (λ e n, gain e.1 e.2 + n) 0 mapped_trace = 1 ∧ 0 <= map_sum holds (guards mapped_mem) ∧ 0 + map_sum holds (guards mapped_mem) <= 1.
Proof.
  exact (mutex_permit_ledger (P := Z) 1 pair_cell mapped_trace (mkSys 0 mapped_mem) (Z.le_0_1 : pp_ok 1) eq_refl mapped_steps).
Defined.

Lemma mutex_read_back_witness :
  ∃ m' m'', returns (exec (Write 5 (Leaf 9))) mapped_mem quiet m' ∧ returns (exec (TryLock 6 1 false)) m' quiet m'' ∧
    returns (exec (Read 5)) m'' (mkObs Keep (Some (Leaf 9)) false) m''.
Proof.
  eexists _, _. split; [vm_compute; reflexivity|]. split; [vm_compute; reflexivity|].
  refine (mutex_read_back (P := Z) 1 pair_cell mapped_trace (mkSys 0 mapped_mem) 5 (Leaf 9) quiet _ [(TryLock 6 1 false, quiet)] (mkSys 0 _)
    _ eq_refl mapped_steps eq_refl _ _ _); [exact Z.le_0_1|vm_compute; reflexivity| |by repeat constructor].
  refine (steps_call _ [] (mkSys 0 _) (TryLock 6 1 false) quiet _ 0 (steps_nil _) _ _ eq_refl); vm_compute; reflexivity.
Defined.
