(* ===== verification/RwLock.v ===== *)
(** * The reader-writer locks

    [asyncband/src/rwlock/]: a pool of [max_readers] permits and a cell.  A read guard holds one
    permit, a write guard all of them; [ReadAccess] and [WriteAccess] give them back.  The
    upgradable lock adds a second pool with a single reservation, which every operation that takes
    more than one data permit holds.  Both are systems of guards over the interface PermitPool. *)
From S2P Require Import Prelude PermitPool.

(** The tokens of [access.rs]; [mapped] guards hold the same token. *)
Inductive Access : Type :=
| ReadAccess
| WriteAccess (permits_acquired : Z).

Record Guard : Type := mkGuard {
  access : Access;
  mapped : bool;
}.

(** [Drop] of a token: the permits it releases. *)
Definition access_permits (a : Access) : Z :=
  match a with
  | ReadAccess => 1
  | WriteAccess permits_acquired => permits_acquired
  end.

Record RwLock (P T : Type) : Type := mkRwLock {
  max_readers : Z;
  s : P;
  c : T;
  guards : gmap nat Guard;
}.
Arguments mkRwLock {P T}.
Arguments max_readers {P T}.
Arguments s {P T}.
Arguments c {P T}.
Arguments guards {P T}.

Section rwlock.
Context {P : Type} `{!PermitPool P} {T : Type}.
Implicit Types (x : RwLock P T) (g : nat).

(** [with_max_readers], over a pool of [n] permits. *)
Definition with_max_readers (p : P) (t : T) (n : Z) : RwLock P T := mkRwLock n p t ∅.

(** The bound [RwLock::new] uses: [usize::MAX >> 1]. *)
Definition default_max_readers : Z := Z.shiftr usize_max 1.

(** An acquisition of [n] permits that ends with the guard [d]. *)
Definition acquired (n : Z) (d : Guard) g x x' : Prop :=
  guards x !! g = None ∧ ∃ p', pp_take n (s x) p' ∧
    x' = mkRwLock (max_readers x) p' (c x) (<[g:=d]> (guards x)).

(** [read().await] and [try_read], [write().await] and [try_write] that succeed. *)
Definition read g x x' : Prop := acquired 1 (mkGuard ReadAccess false) g x x'.
Definition write g x x' : Prop :=
  acquired (max_readers x) (mkGuard (WriteAccess (max_readers x)) false) g x x'.

(** [read_owned], [try_read_owned], [write_owned] and [try_write_owned]: the same, through an [Arc]. *)
Definition read_owned g x x' : Prop := read g x x'.
Definition write_owned g x x' : Prop := write g x x'.

(** [RwLockWriteGuard::downgrade]: one permit is kept, the others released. *)
Definition downgrade g x x' : Prop :=
  ∃ k p', guards x !! g = Some (mkGuard (WriteAccess k) false) ∧ pp_give (k - 1) (s x) p' ∧
    x' = mkRwLock (max_readers x) p' (c x) (<[g:=mkGuard ReadAccess false]> (guards x)).

(** [map] and [filter_map]: the token moves to the mapped guard. *)
Definition map g x x' : Prop :=
  ∃ d, guards x !! g = Some d ∧
    x' = mkRwLock (max_readers x) (s x) (c x) (<[g:=mkGuard (access d) true]> (guards x)).

(** [deref_mut] of a write guard: a store. *)
Definition store g x x' : Prop :=
  ∃ k b v, guards x !! g = Some (mkGuard (WriteAccess k) b) ∧
    x' = mkRwLock (max_readers x) (s x) v (guards x).

Definition drop_guard g x x' : Prop :=
  ∃ d p', guards x !! g = Some d ∧ pp_give (access_permits (access d)) (s x) p' ∧
    x' = mkRwLock (max_readers x) p' (c x) (delete g (guards x)).

Inductive step : RwLock P T → RwLock P T → Prop :=
| step_read g x x' : read g x x' → step x x'
| step_write g x x' : write g x x' → step x x'
| step_downgrade g x x' : downgrade g x x' → step x x'
| step_map g x x' : map g x x' → step x x'
| step_store g x x' : store g x x' → step x x'
| step_drop g x x' : drop_guard g x x' → step x x'
| step_pool x p' : pp_internal (s x) p' → step x (mkRwLock (max_readers x) p' (c x) (guards x)).

Definition held (d : Guard) : Z := access_permits (access d).

(** Permits are in the pool or with the guards, [k] of them elsewhere, and a write guard holds all
    of them. *)
Record rwlock_ok (n k : Z) x : Prop := {
  ro_max : max_readers x = n;
  ro_pool : pp_ok (s x);
  ro_sum : pp_free (s x) + map_sum held (guards x) + k <= n;
  ro_guards : ∀ g d, guards x !! g = Some d → access d = ReadAccess ∨ access d = WriteAccess n;
}.

Lemma acquired_ok n k j d g x x' :
  rwlock_ok n k x → acquired j d g x x' → held d = j → (access d = ReadAccess ∨ access d = WriteAccess n) →
  rwlock_ok n k x'.
Proof.
  intros [Hm Hp Hs Hg] (Hn & p' & Ht & ->) Hk Hd. destruct (pp_take_spec _ _ _ Hp Ht) as [Hp' Hf].
  split; simpl; try done.
  - rewrite map_sum_insert by done. lia.
  - intros h e. rewrite lookup_insert. case_decide; intros; simplify_eq; eauto.
Qed.

Lemma rwlock_step_ok n k x x' : 0 < n → rwlock_ok n k x → step x x' → rwlock_ok n k x'.
Proof.
  intros Hn Hx. destruct 1 as [g x x' Ha|g x x' Ha|g x x' (j & p' & Hd & Hgv & ->)|g x x' (d & Hd & ->)
    |g x x' (j & b & v & Hd & ->)|g x x' (d & p' & Hd & Hgv & ->)|x p' Hi].
  - apply (acquired_ok n k _ _ _ _ _ Hx Ha); [done|by left].
  - pose proof (ro_max _ _ _ Hx) as Hm. apply (acquired_ok n k _ _ _ _ _ Hx Ha); [done|]. right. simpl. by rewrite Hm.
  - destruct Hx as [Hm Hp Hs Hg]. destruct (pp_give_spec _ _ _ Hp Hgv) as [Hp' Hf].
    split; simpl; try done.
    + rewrite (map_sum_update _ _ _ _ _ Hd). unfold held at 2 3. simpl. lia.
    + intros h e. rewrite lookup_insert. case_decide; intros; simplify_eq; [by left|eauto].
  - destruct Hx as [Hm Hp Hs Hg]. split; simpl; try done.
    + rewrite (map_sum_update _ _ _ _ _ Hd). unfold held at 2 3. simpl. lia.
    + intros h e. rewrite lookup_insert. case_decide; intros; simplify_eq; simpl; eauto.
  - by destruct Hx.
  - destruct Hx as [Hm Hp Hs Hg]. destruct (pp_give_spec _ _ _ Hp Hgv) as [Hp' Hf].
    split; simpl; try done.
    + rewrite (map_sum_delete _ _ _ _ Hd). unfold held at 2. lia.
    + intros h e [_ He]%lookup_delete_Some. eauto.
  - destruct Hx as [Hm Hp Hs Hg]. destruct (pp_internal_spec _ _ Hp Hi) as [Hp' Hf]. split; simpl; try done. lia.
Qed.

Lemma rwlock_reachable_ok p t n x :
  0 < n → pp_ok p → pp_free p = n → rtc step (with_max_readers p t n) x → rwlock_ok n 0 x.
Proof.
  intros Hn Hp Hf. apply (rtc_ind_r (rwlock_ok n 0)).
  - split; simpl; try done. rewrite map_sum_empty. lia.
  - intros y z _ Hyz Hy. by eapply rwlock_step_ok.
Qed.

(** Two guards hold their permits at once. *)
Lemma two_guards n k x g h d e :
  0 < n → rwlock_ok n k x → guards x !! g = Some d → guards x !! h = Some e → g ≠ h → held d + held e + k <= n.
Proof.
  intros Hn [Hm Hp Hs Hg] Hd He Hne. pose proof (pp_nonneg _ Hp).
  assert (delete g (guards x) !! h = Some e) as He' by (by rewrite lookup_delete_ne).
  pose proof (map_sum_delete held _ _ _ Hd) as H1. pose proof (map_sum_delete held _ _ _ He') as H2.
  assert (0 <= map_sum held (delete h (delete g (guards x)))); [|lia]. apply map_sum_nonneg.
  intros j f [_ [_ Hf]%lookup_delete_Some]%lookup_delete_Some. unfold held.
  destruct (Hg j f Hf) as [-> | ->]; simpl; lia.
Qed.

(** C17: a write guard excludes every other guard, reader or writer, mapped or not, in every
    reachable state of the lock. *)
Theorem rwlock_writer_exclusive p t n x g k b h d :
  0 < n → pp_ok p → pp_free p = n → rtc step (with_max_readers p t n) x →
  guards x !! g = Some (mkGuard (WriteAccess k) b) → guards x !! h = Some d → h = g.
Proof.
  intros Hn Hp Hf Hr Hg Hh. pose proof (rwlock_reachable_ok p t n x Hn Hp Hf Hr) as Hok.
  destruct (decide (g = h)) as [|Hne]; [done|]. exfalso.
  pose proof (two_guards n 0 x g h _ d Hn Hok Hg Hh Hne) as Hsum. unfold held in Hsum. simpl in Hsum.
  destruct (ro_guards _ _ _ Hok g _ Hg) as [|Hk]; [done|]. simpl in Hk. simplify_eq.
  destruct (ro_guards _ _ _ Hok h _ Hh) as [Hd|Hd]; rewrite Hd in Hsum; simpl in Hsum; lia.
Qed.

(** At most [max_readers] guards are alive, and the value a reader sees does not change while
    its guard lives: no step stores to the cell while a read guard exists. *)
Theorem rwlock_readers_bounded p t n x g b :
  0 < n → pp_ok p → pp_free p = n → rtc step (with_max_readers p t n) x →
  guards x !! g = Some (mkGuard ReadAccess b) →
  Z.of_nat (size (guards x)) <= n ∧ ∀ x', step x x' → c x' = c x.
Proof.
  intros Hn Hp Hf Hr Hg. pose proof (rwlock_reachable_ok p t n x Hn Hp Hf Hr) as Hok. split.
  - destruct Hok as [_ Hp' Hs Hgs]. pose proof (pp_nonneg _ Hp') as H0.
    assert (Z.of_nat (size (guards x)) <= map_sum held (guards x)); [|lia]. clear Hs Hg Hr.
    induction (guards x) as [|h d m Hh IH] using map_ind; [done|].
    rewrite map_sum_insert, map_size_insert_None by done.
    assert (1 <= held d). { unfold held. destruct (Hgs h d) as [-> | ->]; simpl; [apply lookup_insert_eq|lia..]. }
    assert (Z.of_nat (size m) <= map_sum held m); [|lia]. apply IH. intros h' d' Hd'. apply (Hgs h').
    rewrite lookup_insert_ne; [done|congruence].
  - intros x' Hx'. destruct Hx' as [h x x' (_ & p' & _ & ->)|h x x' (_ & p' & _ & ->)
      |h x x' (k & p' & _ & _ & ->)|h x x' (d & _ & ->)|h x x' (k & b' & v & Hd & ->)
      |h x x' (d & p' & _ & _ & ->)|x p' _]; try done. exfalso.
    destruct (decide (h = g)) as [->|Hne]; [congruence|].
    pose proof (two_guards n 0 x h g _ _ Hn Hok Hd Hg Hne) as Hsum. unfold held in Hsum. simpl in Hsum.
    destruct (ro_guards _ _ _ Hok h _ Hd) as [|Hk]; [done|]. simpl in Hk. simplify_eq. lia.
Qed.
End rwlock.

(** Three permits: a writer, and two readers. *)
Definition written : RwLock Z nat := mkRwLock 3 0 5%nat {[0%nat := mkGuard (WriteAccess 3) false]}.
Definition reading : RwLock Z nat :=
  mkRwLock 3 2 5%nat (<[0%nat := mkGuard ReadAccess false]> ∅).

Lemma written_reachable : rtc step (with_max_readers 3 5%nat 3) written.
Proof. apply rtc_once, (step_write 0). split; [done|]. exists 0. by split. Qed.
Lemma reading_reachable : rtc step (with_max_readers 3 5%nat 3) reading.
Proof. apply rtc_once, (step_read 0). split; [done|]. exists 2. by split. Qed.

Lemma rwlock_writer_exclusive_witness :
  guards written !! 0%nat = Some (mkGuard (WriteAccess 3) false) ∧ 0%nat = 0%nat.
Proof.
  split; [done|]. apply (rwlock_writer_exclusive 3 5%nat 3 written 0 3 false 0 (mkGuard (WriteAccess 3) false));
    [lia|done|done|apply written_reachable|done|done].
Defined.

Lemma rwlock_readers_bounded_witness :
  Z.of_nat (size (guards reading)) <= 3 ∧ ∀ x', step reading x' → c x' = c reading.
Proof.
  apply (rwlock_readers_bounded 3 5%nat 3 reading 0 false); [lia|done|done|apply reading_reachable|done].
Defined.
