(* ===== verification/RwLockGuards.v ===== *)
(** * The guards of the reader-writer lock

    [asyncband/src/rwlock/] at the level of ownership: read and write guards, borrowed and owned, their
    mapped forms with the raw pointer they keep, the tokens of [access.rs] that own the permits, and the
    handles and the count of the [Arc].  As for the mutex, reading freed memory or following a pointer
    that leads nowhere is an error of the model, and the pool of permits is any permit pool. *)
From S2P Require Import Prelude PermitPool Places.

(** ** Tokens, guards and memory *)

(** Who owns a token: a borrow of the lock, a borrow of its semaphore, or an [Arc].  A borrow is of a
    handle. *)
Inductive Owner : Type :=
| LockRef (h : nat)
| SemaphoreRef (h : nat)
| LockArc.

Inductive Access : Type :=
| ReadAccess (owner : Owner)
| WriteAccess (owner : Owner) (permits_acquired : Z).

(** A mapped guard keeps a pointer.  [Released]: the token of an owned guard has given its permits back,
    and its [Arc] is yet to be dropped. *)
Inductive Guard : Type :=
| Plain (access : Access)
| Mapped (d : Place) (access : Access)
| Released.

#[export] Instance Owner_eq_dec : EqDecision Owner.
Proof. solve_decision. Defined.
#[export] Instance Access_eq_dec : EqDecision Access.
Proof. solve_decision. Defined.
#[export] Instance rw_Guard_eq_dec : EqDecision Guard.
Proof. solve_decision. Defined.

Record Mem : Type := mkMem {
  max_readers : Z;
  cell : option Val;
  strong : Z;
  handles : gset nat;
  guards : gmap nat Guard;
}.
Definition set_cell v (m : Mem) : Mem := mkMem (max_readers m) v (strong m) (handles m) (guards m).
Definition set_guards g (m : Mem) : Mem := mkMem (max_readers m) (cell m) (strong m) (handles m) g.
Definition set_handles g (m : Mem) : Mem := mkMem (max_readers m) (cell m) (strong m) g (guards m).
Definition set_strong n (m : Mem) : Mem := mkMem (max_readers m) (cell m) n (handles m) (guards m).

Inductive PoolOp : Type := Keep | Take (n : Z) | Give (n : Z).

Record Obs : Type := mkObs {
  pool_op : PoolOp;
  seen : option Val;
  unwound : bool;
}.
Definition quiet : Obs := mkObs Keep None false.

(** [Deref] and [DerefMut]. *)
Definition deref (d : Place) : M Mem Val :=
  m ← get;
  v ← expect (cell m) "use after free";
  expect (read_at d v) "dangling pointer".

Definition deref_mut (d : Place) (w : Val) : M Mem unit :=
  m ← get;
  v ← expect (cell m) "use after free";
  _ ← expect (read_at d v) "dangling pointer";
  put (set_cell (Some (write_at d w v)) m).

Definition pointer (g : Guard) : Place := match g with Mapped d _ => d | _ => [] end.

(** [into_semaphore] of both tokens. *)
Definition into_semaphore (a : Access) : Access :=
  match a with
  | ReadAccess (LockRef h) => ReadAccess (SemaphoreRef h)
  | WriteAccess (LockRef h) n => WriteAccess (SemaphoreRef h) n
  | a => a
  end.

Definition call_read {A : Type} (d : Place) (f : Val → A) : M Mem A := v ← deref d; mret (f v).
Definition call {A : Type} (d : Place) (f : Val → Val * A) : M Mem A :=
  v ← deref d;
  deref_mut d (f v).1;;
  mret (f v).2.

(** A [filter_map] that found a place or not; no result when the callback unwinds. *)
Definition filtered (orig : Guard) (new : Place → Guard) (r : option (option Place)) : option (result Guard Guard) :=
  (λ r, match r with Some d => Ok (new d) | None => Err orig end) <$> r.

(** *** Read guards *)
Definition RwLockReadGuard_map (a : Access) (f : ReadFn) : M Mem (option Guard) :=
  d ← call_read [] f;
  mret ((λ d, Mapped d (into_semaphore a)) <$> d).
Definition RwLockReadGuard_filter_map (a : Access) (f : ReadFilterFn) : M Mem (option (result Guard Guard)) :=
  r ← call_read [] f;
  mret (filtered (Plain a) (λ d, Mapped d (into_semaphore a)) r).
Definition OwnedRwLockReadGuard_map (a : Access) (f : ReadFn) : M Mem (option Guard) :=
  d ← call_read [] f;
  mret ((λ d, Mapped d a) <$> d).
Definition OwnedRwLockReadGuard_filter_map (a : Access) (f : ReadFilterFn) : M Mem (option (result Guard Guard)) :=
  r ← call_read [] f;
  mret (filtered (Plain a) (λ d, Mapped d a) r).
(** [MappedRwLockReadGuard] and [OwnedMappedRwLockReadGuard]. *)
Definition mapped_read_map (d : Place) (a : Access) (f : ReadFn) : M Mem (option Guard) :=
  d' ← call_read d f;
  mret ((λ d', Mapped (d ++ d') a) <$> d').
Definition mapped_read_filter_map (d : Place) (a : Access) (f : ReadFilterFn) : M Mem (option (result Guard Guard)) :=
  r ← call_read d f;
  mret (filtered (Mapped d a) (λ d', Mapped (d ++ d') a) r).

(** *** Write guards *)
Definition RwLockWriteGuard_map (a : Access) (f : MapFn) : M Mem (option Guard) :=
  d ← call [] f;
  mret ((λ d, Mapped d (into_semaphore a)) <$> d).
Definition RwLockWriteGuard_filter_map (a : Access) (f : FilterFn) : M Mem (option (result Guard Guard)) :=
  r ← call [] f;
  mret (filtered (Plain a) (λ d, Mapped d (into_semaphore a)) r).
Definition OwnedRwLockWriteGuard_map (a : Access) (f : MapFn) : M Mem (option Guard) :=
  d ← call [] f;
  mret ((λ d, Mapped d a) <$> d).
Definition OwnedRwLockWriteGuard_filter_map (a : Access) (f : FilterFn) : M Mem (option (result Guard Guard)) :=
  r ← call [] f;
  mret (filtered (Plain a) (λ d, Mapped d a) r).
(** [MappedRwLockWriteGuard] and [OwnedMappedRwLockWriteGuard]. *)
Definition mapped_write_map (d : Place) (a : Access) (f : MapFn) : M Mem (option Guard) :=
  d' ← call d f;
  mret ((λ d', Mapped (d ++ d') a) <$> d').
Definition mapped_write_filter_map (d : Place) (a : Access) (f : FilterFn) : M Mem (option (result Guard Guard)) :=
  r ← call d f;
  mret (filtered (Mapped d a) (λ d', Mapped (d ++ d') a) r).

Definition owner (a : Access) : Owner := match a with ReadAccess o | WriteAccess o _ => o end.

Definition read_map (g : Guard) (f : ReadFn) : M Mem (option Guard) :=
  match g with
  | Plain a => match owner a with LockArc => OwnedRwLockReadGuard_map a f | _ => RwLockReadGuard_map a f end
  | Mapped d a => mapped_read_map d a f
  | Released => panic "the guard is gone"
  end.
Definition read_filter_map (g : Guard) (f : ReadFilterFn) : M Mem (option (result Guard Guard)) :=
  match g with
  | Plain a => match owner a with LockArc => OwnedRwLockReadGuard_filter_map a f | _ => RwLockReadGuard_filter_map a f end
  | Mapped d a => mapped_read_filter_map d a f
  | Released => panic "the guard is gone"
  end.
Definition write_map (g : Guard) (f : MapFn) : M Mem (option Guard) :=
  match g with
  | Plain a => match owner a with LockArc => OwnedRwLockWriteGuard_map a f | _ => RwLockWriteGuard_map a f end
  | Mapped d a => mapped_write_map d a f
  | Released => panic "the guard is gone"
  end.
Definition write_filter_map (g : Guard) (f : FilterFn) : M Mem (option (result Guard Guard)) :=
  match g with
  | Plain a => match owner a with LockArc => OwnedRwLockWriteGuard_filter_map a f | _ => RwLockWriteGuard_filter_map a f end
  | Mapped d a => mapped_write_filter_map d a f
  | Released => panic "the guard is gone"
  end.

(** [Drop] of a token: the permits it releases. *)
Definition access_drop (a : Access) : M Mem Z :=
  m ← get;
  _ ← expect (cell m) "use after free";
  mret (match a with ReadAccess _ => 1 | WriteAccess _ n => n end).

(** [Arc::clone] and [Arc::drop]. *)
Definition arc_clone : M Mem unit := modify (λ m, set_strong (strong m + 1) m).
Definition arc_drop : M Mem unit :=
  m ← get;
  n ← sub_int (strong m) 1;
  put (mkMem (max_readers m) (if bool_decide (n = 0) then None else cell m) n (handles m) (guards m)).

(** [WriteAccess::downgrade]: the owner is cloned for the new token, and the old token is dropped with one
    permit less. *)
Definition access_downgrade (a : Access) : M Mem (Access * Z) :=
  match a with
  | WriteAccess o n =>
      match o with LockArc => arc_clone | _ => mret tt end;;
      n' ← sub_int n 1;
      k ← access_drop (WriteAccess o n');
      match o with LockArc => arc_drop | _ => mret tt end;;
      mret (ReadAccess o, k)
  | ReadAccess _ => panic "not a write token"
  end.

(** ** The system *)
Inductive Label : Type :=
| CloneHandle (h h' : nat)
| DropHandle (h : nat)
| Read (g h : nat)
| TryRead (g h : nat) (acquired : bool)
| ReadOwned (g h : nat)
| TryReadOwned (g h : nat) (acquired : bool)
| Write (g h : nat)
| TryWrite (g h : nat) (acquired : bool)
| WriteOwned (g h : nat)
| TryWriteOwned (g h : nat) (acquired : bool)
| Look (g : nat)
| Store (g : nat) (w : Val)
| MapRead (g : nat) (f : ReadFn)
| FilterMapRead (g : nat) (f : ReadFilterFn)
| MapWrite (g : nat) (f : MapFn)
| FilterMapWrite (g : nat) (f : FilterFn)
| Downgrade (g : nat)
| DropGuard (g : nat)
| DropArc (g : nat)
| Forget (g : nat)
| GetMut (h : nat) (w : Val)
| IntoInner (h : nat).

Definition put_guard (g : nat) (v : option Guard) : M Mem unit :=
  modify (λ m, set_guards (match v with Some d => <[g:=d]> (guards m) | None => delete g (guards m) end) m).

Definition read (g h : nat) : M Mem Obs := put_guard g (Some (Plain (ReadAccess (LockRef h))));; mret (mkObs (Take 1) None false).
Definition write (g h : nat) : M Mem Obs :=
  m ← get;
  put_guard g (Some (Plain (WriteAccess (LockRef h) (max_readers m))));;
  mret (mkObs (Take (max_readers m)) None false).
Definition try_read (g h : nat) (acquired : bool) : M Mem Obs := if acquired then read g h else mret quiet.
Definition try_write (g h : nat) (acquired : bool) : M Mem Obs := if acquired then write g h else mret quiet.

Definition take_handle (h : nat) : M Mem unit := modify (λ m, set_handles (handles m ∖ {[h]}) m).
Definition read_owned (g h : nat) : M Mem Obs :=
  take_handle h;; put_guard g (Some (Plain (ReadAccess LockArc)));; mret (mkObs (Take 1) None false).
Definition write_owned (g h : nat) : M Mem Obs :=
  m ← get;
  take_handle h;;
  put_guard g (Some (Plain (WriteAccess LockArc (max_readers m))));;
  mret (mkObs (Take (max_readers m)) None false).
Definition try_read_owned (g h : nat) (acquired : bool) : M Mem Obs :=
  if acquired then read_owned g h else take_handle h;; arc_drop;; mret quiet.
Definition try_write_owned (g h : nat) (acquired : bool) : M Mem Obs :=
  if acquired then write_owned g h else take_handle h;; arc_drop;; mret quiet.

Definition access (d : Guard) : option Access := match d with Plain a | Mapped _ a => Some a | Released => None end.

(** Dropping a guard drops its token and then the owner. *)
Definition drop_at (g : nat) (d : Guard) (unwinding : bool) : M Mem Obs :=
  a ← expect (access d) "the guard is gone";
  n ← access_drop a;
  put_guard g (match owner a with LockArc => Some Released | _ => None end);;
  mret (mkObs (Give n) None unwinding).

(** [downgrade] of a write guard. *)
Definition downgrade (g : nat) (d : Guard) : M Mem Obs :=
  a ← expect (access d) "the guard is gone";
  '(a', n) ← access_downgrade a;
  put_guard g (Some (Plain a'));;
  mret (mkObs (Give n) None false).

Definition get_mut (w : Val) : M Mem Obs := deref_mut [] w;; mret quiet.
Definition into_inner (h : nat) : M Mem Obs :=
  m ← get;
  v ← deref [];
  put (mkMem (max_readers m) None 0 (handles m ∖ {[h]}) (guards m));;
  mret (mkObs Keep (Some v) false).

(** What a map or a filter has made of the guard [g]. *)
Definition remapped (g : nat) (d : Guard) (r : option Guard) : M Mem Obs :=
  match r with Some d' => put_guard g (Some d');; mret quiet | None => drop_at g d true end.
Definition either (r : option (result Guard Guard)) : option Guard := (λ r, match r with Ok d | Err d => d end) <$> r.

Definition exec (l : Label) : M Mem Obs :=
  m ← get;
  let guard g := expect (guards m !! g) "no such guard" in
  match l with
  | CloneHandle _ h' => arc_clone;; modify (λ m, set_handles ({[h']} ∪ handles m) m);; mret quiet
  | DropHandle h => take_handle h;; arc_drop;; mret quiet
  | Read g h => read g h
  | TryRead g h acquired => try_read g h acquired
  | ReadOwned g h => read_owned g h
  | TryReadOwned g h acquired => try_read_owned g h acquired
  | Write g h => write g h
  | TryWrite g h acquired => try_write g h acquired
  | WriteOwned g h => write_owned g h
  | TryWriteOwned g h acquired => try_write_owned g h acquired
  | Look g => d ← guard g; v ← deref (pointer d); mret (mkObs Keep (Some v) false)
  | Store g w => d ← guard g; deref_mut (pointer d) w;; mret quiet
  | MapRead g f => d ← guard g; r ← read_map d f; remapped g d r
  | FilterMapRead g f => d ← guard g; r ← read_filter_map d f; remapped g d (either r)
  | MapWrite g f => d ← guard g; r ← write_map d f; remapped g d r
  | FilterMapWrite g f => d ← guard g; r ← write_filter_map d f; remapped g d (either r)
  | Downgrade g => d ← guard g; downgrade g d
  | DropGuard g => d ← guard g; drop_at g d false
  | DropArc g => put_guard g None;; arc_drop;; mret quiet
  | Forget g => put_guard g None;; mret quiet
  | GetMut _ w => get_mut w
  | IntoInner h => into_inner h
  end.

(** What types and lifetimes promise about a call; callbacks return a place of what they leave. *)
Definition permits (d : Guard) : Z := match access d with Some (ReadAccess _) => 1 | Some (WriteAccess _ n) => n | None => 0 end.
Definition reads (d : Guard) : bool := match access d with Some (ReadAccess _) => true | _ => false end.
Definition writes (d : Guard) : bool := match access d with Some (WriteAccess _ _) => true | _ => false end.
Definition plain (d : Guard) : bool := match d with Plain _ => true | _ => false end.
Definition borrows (h : nat) (d : Guard) : Prop :=
  match owner <$> access d with Some (LockRef h') | Some (SemaphoreRef h') => h' = h | _ => False end.
#[export] Instance rw_borrows_dec h d : Decision (borrows h d).
Proof. unfold borrows. destruct (owner <$> access d) as [[]|]; apply _. Defined.

Definition free_handle (h : nat) (m : Mem) : bool :=
  bool_decide (h ∈ handles m) && bool_decide (¬ map_Exists (λ _ d, borrows h d) (guards m)).
Definition sole_owner (h : nat) (m : Mem) : bool := free_handle h m && bool_decide (strong m = 1).
Definition is_guard (b : Guard → bool) (g : nat) (m : Mem) : bool := from_option b false (guards m !! g).
Definition target (g : nat) (m : Mem) : option Val := d ← guards m !! g; v ← cell m; read_at (pointer d) v.
Definition within (v : Val) (r : option Place) : bool := match r with Some r => bool_decide (is_Some (read_at r v)) | None => true end.
Definition on_target (g : nat) (m : Mem) (b : Val → bool) : bool := from_option b true (target g m).

Definition enabled (l : Label) (m : Mem) : bool :=
  match l with
  | CloneHandle h h' => bool_decide (h ∈ handles m) && bool_decide (h' ∉ handles m) && bool_decide (strong m < isize_max)
  | DropHandle h => free_handle h m
  | Read g h | TryRead g h _ | Write g h | TryWrite g h _ => bool_decide (h ∈ handles m) && bool_decide (guards m !! g = None)
  | ReadOwned g h | TryReadOwned g h _ | WriteOwned g h | TryWriteOwned g h _ => free_handle h m && bool_decide (guards m !! g = None)
  | Look g | DropGuard g | Forget g => is_guard (λ d, reads d || writes d) g m
  | Store g _ => is_guard writes g m
  | MapRead g f => is_guard reads g m && on_target g m (λ v, within v (f v))
  | FilterMapRead g f => is_guard reads g m && on_target g m (λ v, within v (mjoin (f v)))
  | MapWrite g f => is_guard writes g m && on_target g m (λ v, within (f v).1 (f v).2)
  | FilterMapWrite g f => is_guard writes g m && on_target g m (λ v, within (f v).1 (mjoin (f v).2))
  | Downgrade g => is_guard writes g m && is_guard plain g m
  | DropArc g => bool_decide (guards m !! g = Some Released)
  | GetMut h _ | IntoInner h => sole_owner h m
  end.

(** [Arc::new(RwLock::with_max_readers(v, n))]: handle 0. *)
Definition with_max_readers (v : Val) (n : Z) : Mem := mkMem n (Some v) 1 {[0%nat]} ∅.

Section system.
Context {P : Type} `{!PermitPool P}.

Record Sys : Type := mkSys {
  pool : P;
  mem : Mem;
}.

(** Releasing nothing leaves the semaphore alone. *)
Definition pool_move (op : PoolOp) : P → P → Prop :=
  match op with Keep => eq | Take n => pp_take n | Give n => if bool_decide (n = 0) then eq else pp_give n end.

Inductive steps (x : Sys) : list (Label * Obs) → Sys → Prop :=
| steps_nil : steps x [] x
| steps_call tr y l o m' p' :
    steps x tr y → enabled l (mem y) = true → returns (exec l) (mem y) o m' → pool_move (pool_op o) (pool y) p' →
    steps x (tr ++ [(l, o)]) (mkSys p' m')
| steps_pool tr y p' : steps x tr y → pp_internal (pool y) p' → steps x tr (mkSys p' (mem y)).
End system.
Arguments Sys : clear implicits.

(** ** Invariant *)
Definition holding (d : Guard) : bool := reads d || writes d.
Definition owns (d : Guard) : Z := match owner <$> access d with Some LockArc | None => 1 | _ => 0 end.

(** As for the mutex; a read guard holds one permit and a write guard all of them. *)
Record mem_ok (m : Mem) : Prop := {
  mk_max : 0 < max_readers m;
  mk_cell : 0 < strong m → is_Some (cell m);
  mk_count : Z.of_nat (size (handles m)) + map_sum owns (guards m) <= strong m;
  mk_borrow : ∀ g d h, guards m !! g = Some d → borrows h d → h ∈ handles m;
  mk_place : ∀ g d v, guards m !! g = Some d → holding d = true → cell m = Some v → is_Some (read_at (pointer d) v);
  mk_permits : ∀ g d, guards m !! g = Some d → writes d = true → permits d = max_readers m;
  mk_sum : map_sum permits (guards m) <= max_readers m;
}.

Lemma rw_owns_nonneg (G : gmap nat Guard) : ∀ g d, G !! g = Some d → 0 <= owns d.
Proof. intros g d _. unfold owns. by destruct (owner <$> access d) as [[]|]. Qed.

Lemma permits_bounds m g d : mem_ok m → guards m !! g = Some d → 0 <= permits d ∧ (holding d = true → 1 <= permits d).
Proof.
  intros Hm Hg. pose proof (mk_max _ Hm) as Hmax. pose proof (mk_permits _ Hm g d Hg) as Hw. unfold permits, holding, reads, writes in *.
  destruct (access d) as [[]|]; simpl in *; [lia|specialize (Hw eq_refl); lia|done].
Qed.
Lemma permits_nonneg m : mem_ok m → ∀ g d, guards m !! g = Some d → 0 <= permits d.
Proof. intros Hm g d Hg. by apply (permits_bounds m g d). Qed.

(** A write guard is alone. *)
Lemma writer_alone m g g' d d' :
  mem_ok m → guards m !! g = Some d → guards m !! g' = Some d' → writes d = true → holding d' = true → g' = g.
Proof.
  intros Hm Hg Hg' Hw Hh. destruct (decide (g' = g)) as [|Hne]; [done|exfalso].
  pose proof (map_sum_two permits _ _ _ _ _ (permits_nonneg m Hm) Hg' Hg Hne) as H. rewrite (mk_permits _ Hm g d Hg Hw) in H.
  pose proof (proj2 (permits_bounds m g' d' Hm Hg') Hh). pose proof (mk_sum _ Hm). lia.
Qed.

Lemma rw_handle_alive m h : mem_ok m → h ∈ handles m → 0 < strong m.
Proof.
  intros Hm Hh. pose proof (mk_count _ Hm). pose proof (map_sum_nonneg owns (guards m) (rw_owns_nonneg _)).
  pose proof (subseteq_size {[h]} (handles m) ltac:(set_solver)) as Hs. rewrite size_singleton in Hs. lia.
Qed.

Lemma rw_guard_alive m g d : mem_ok m → guards m !! g = Some d → 0 < strong m.
Proof.
  intros Hm Hg. pose proof (mk_count _ Hm) as Hc. pose proof (map_sum_elem owns _ _ _ (rw_owns_nonneg _) Hg) as He.
  pose proof (mk_borrow _ Hm g d) as Hb. unfold owns in He at 1. unfold borrows in Hb.
  destruct (owner <$> access d) as [[h|h|]|]; try lia; by eapply rw_handle_alive, Hb.
Qed.

(** A guard, or what a call makes of it, in place of [g]; the cell may have changed if the guard writes. *)
Lemma rw_replace_guard m g d d' v :
  mem_ok m → guards m !! g = Some d → holding d = true → owns d' = owns d → (∀ h, borrows h d' → borrows h d) →
  permits d' = permits d → writes d' = writes d → is_Some (read_at (pointer d') v) → (cell m = Some v ∨ writes d = true) →
  mem_ok (mkMem (max_readers m) (Some v) (strong m) (handles m) (<[g:=d']> (guards m))) ∧
  map_sum permits (<[g:=d']> (guards m)) = map_sum permits (guards m).
Proof.
  intros Hm Hg Hd Eo Hb Ep Ew Hr Hc. pose proof Hm as [H0 H1 H2 H3 H4 H5 H6].
  assert (map_sum permits (<[g:=d']> (guards m)) = map_sum permits (guards m)) as Es by (rewrite (map_sum_update _ _ _ _ _ Hg); lia).
  split; [|done]. split; simpl; [done|done| | | | |by rewrite Es].
  - rewrite (map_sum_update _ _ _ _ _ Hg), Eo. lia.
  - intros j e h [[-> <-]|[_ Hj]]%lookup_insert_Some Hh; [apply (H3 j d); [done|by apply Hb]|by eapply H3].
  - intros j e u [[-> <-]|[Hne Hj]]%lookup_insert_Some He [= <-]; [done|]. destruct Hc as [Hc|Hc]; [by eapply H4|].
    destruct Hne. symmetry. by eapply writer_alone.
  - intros j e [[-> <-]|[_ Hj]]%lookup_insert_Some He; [rewrite Ep; apply (H5 j d); [done|congruence]|by eapply H5].
Qed.

(** A guard disappears, or gives its permits back and keeps its reference. *)
Lemma rw_release_guard m g d v (G : gmap nat Guard) :
  mem_ok m → guards m !! g = Some d → G = delete g (guards m) ∨ (G = <[g:=Released]> (guards m) ∧ owns d = 1) →
  (cell m = Some v ∨ writes d = true) →
  mem_ok (mkMem (max_readers m) (Some v) (strong m) (handles m) G) ∧ map_sum permits G = map_sum permits (guards m) - permits d ∧
  map_sum owns G = map_sum owns (guards m) - (if bool_decide (G = delete g (guards m)) then owns d else 0).
Proof.
  intros Hm Hg HG Hc. pose proof Hm as [H0 H1 H2 H3 H4 H5 H6]. pose proof (proj1 (permits_bounds m g d Hm Hg)). pose proof (rw_owns_nonneg _ g d Hg).
  assert (map_sum permits G = map_sum permits (guards m) - permits d) as Es.
  { destruct HG as [->|[-> _]]; rewrite ?(map_sum_delete _ _ _ _ Hg), ?(map_sum_update _ _ _ _ _ Hg); [done|]. unfold permits at 3. simpl. lia. }
  assert (map_sum owns G = map_sum owns (guards m) - (if bool_decide (G = delete g (guards m)) then owns d else 0)) as Eo.
  { destruct HG as [->|[-> Ho]]; [by rewrite bool_decide_eq_true_2, (map_sum_delete _ _ _ _ Hg)|]. rewrite bool_decide_eq_false_2.
    - rewrite (map_sum_update _ _ _ _ _ Hg), Ho. unfold owns at 2. simpl. lia.
    - intros E. pose proof (lookup_insert_eq (guards m) g Released) as Hl. by rewrite E, lookup_delete_eq in Hl. }
  assert (∀ j e, G !! j = Some e → (j ≠ g ∧ guards m !! j = Some e) ∨ e = Released) as Hin.
  { intros j e Hj. destruct HG as [->|[-> _]]; [apply lookup_delete_Some in Hj as [? ?]; left; by split|].
    apply lookup_insert_Some in Hj as [[_ <-]|[? ?]]; [by right|by left]. }
  split_and!; [|done|done]. split; simpl; [done|done| | | | |lia].
  - destruct HG as [->|[-> _]]; case_bool_decide; lia.
  - intros j e h Hj Hh. destruct (Hin j e Hj) as [[_ Hj']| ->]; [by eapply H3|done].
  - intros j e u Hj He [= <-]. destruct (Hin j e Hj) as [[Hne Hj']| ->]; [|done]. destruct Hc as [Hc|Hc]; [by eapply H4|].
    destruct Hne. by eapply writer_alone.
  - intros j e Hj He. destruct (Hin j e Hj) as [[_ Hj']| ->]; [by eapply H5|done].
Qed.

(** *** What calls do *)
Definition remap (d : Guard) (r : Place) : Guard :=
  match d with
  | Plain a => Mapped r (into_semaphore a)
  | Mapped p a => Mapped (p ++ r) a
  | Released => Released
  end.

Lemma read_map_eq d f : holding d = true → read_map d f = (r ← call_read (pointer d) f; mret (remap d <$> r)).
Proof. by destruct d as [[[]|[]]|p a|]. Qed.
Lemma read_filter_map_eq d f : holding d = true → read_filter_map d f = (r ← call_read (pointer d) f; mret (filtered d (remap d) r)).
Proof. by destruct d as [[[]|[]]|p a|]. Qed.
Lemma write_map_eq d f : holding d = true → write_map d f = (r ← call (pointer d) f; mret (remap d <$> r)).
Proof. by destruct d as [[[]|[]]|p a|]. Qed.
Lemma write_filter_map_eq d f : holding d = true → write_filter_map d f = (r ← call (pointer d) f; mret (filtered d (remap d) r)).
Proof. by destruct d as [[[]|[]]|p a|]. Qed.

Lemma rw_remap_ok d r : holding d = true →
  pointer (remap d r) = pointer d ++ r ∧ owns (remap d r) = owns d ∧ (∀ h, borrows h (remap d r) → borrows h d) ∧
  permits (remap d r) = permits d ∧ writes (remap d r) = writes d.
Proof. by destruct d as [[[]|[]]|p [[]|[]]|]. Qed.

Lemma is_guard_some b g m : is_guard b g m = true → ∃ d, guards m !! g = Some d ∧ b d = true.
Proof. unfold is_guard. destruct (guards m !! g) as [d|]; [|done]. by exists d. Qed.

Lemma rw_guard_target m g d : mem_ok m → guards m !! g = Some d → holding d = true →
  ∃ v t, cell m = Some v ∧ read_at (pointer d) v = Some t ∧ target g m = Some t.
Proof.
  intros Hm Hg Hd. destruct (mk_cell _ Hm (rw_guard_alive _ _ _ Hm Hg)) as [v Hv]. destruct (mk_place _ Hm g d v Hg Hd Hv) as [t Ht].
  exists v, t. split_and!; [done|done|]. unfold target. rewrite Hg. simpl. by rewrite Hv.
Qed.

Lemma rw_deref_ok m p v t : cell m = Some v → read_at p v = Some t → wp (deref p) m (λ u m', u = t ∧ m' = m).
Proof. intros Hv Ht. unfold deref. wp_auto. eapply wp_expect; [done|]. eapply wp_expect; [done|]. done. Qed.

Lemma rw_deref_mut_ok m p w v : cell m = Some v → is_Some (read_at p v) → wp (deref_mut p w) m (λ _ m', m' = set_cell (Some (write_at p w v)) m).
Proof. intros Hv [t Ht]. unfold deref_mut. wp_auto. eapply wp_expect; [done|]. wp_auto. eapply wp_expect; [done|]. by wp_auto. Qed.

Lemma rw_call_ok {A : Type} m p v t (f : Val → Val * A) :
  cell m = Some v → read_at p v = Some t → wp (call p f) m (λ a m', a = (f t).2 ∧ m' = set_cell (Some (write_at p (f t).1 v)) m).
Proof.
  intros Hv Ht. unfold call. wp_auto. wp_apply rw_deref_ok; [done|done|]. intros ? ? [-> ->]. wp_auto. wp_apply rw_deref_mut_ok; [done|by eexists|]. intros _ ? ->. by wp_auto.
Qed.
Lemma call_read_ok {A : Type} m p v t (f : Val → A) : cell m = Some v → read_at p v = Some t → wp (call_read p f) m (λ a m', a = f t ∧ m' = m).
Proof. intros Hv Ht. unfold call_read. wp_auto. wp_apply rw_deref_ok; [done|done|]. intros ? ? [-> ->]. by wp_auto. Qed.

(** The permits a call takes and gives back, and those of a guard it forgets. *)
Definition gain (o : Obs) : Z := match pool_op o with Keep => 0 | Take n => n | Give n => - n end.
Definition forgotten (l : Label) (m : Mem) : Z := match l with Forget g => from_option permits 0 (guards m !! g) | _ => 0 end.
Definition forgets (l : Label) : bool := match l with Forget _ => true | _ => false end.
Definition effect (l : Label) (m : Mem) (o : Obs) (m' : Mem) : Prop :=
  mem_ok m' ∧ max_readers m' = max_readers m ∧ map_sum permits (guards m') = map_sum permits (guards m) + gain o - forgotten l m.

Lemma not_forgotten l m : forgets l = false → forgotten l m = 0.
Proof. by destruct l. Qed.

(** A guard is dropped, after its callback changed what it guards or not. *)
Lemma rw_drop_at_ok l m v g d u :
  mem_ok m → guards m !! g = Some d → holding d = true → forgets l = false → (cell m = Some v ∨ writes d = true) →
  wp (drop_at g d u) (set_cell (Some v) m) (λ o m', effect l m o m').
Proof.
  intros Hm Hg Hd Hl Hc. unfold drop_at. wp_auto. assert (∃ a, access d = Some a) as [a Ea] by (unfold holding, reads, writes in Hd; destruct (access d); [by eexists|done]).
  eapply wp_expect; [done|]. unfold access_drop, put_guard. wp_auto. eapply wp_expect; [done|]. wp_auto.
  assert (permits d = match a with ReadAccess _ => 1 | WriteAccess _ n => n end) as Ep by (unfold permits; rewrite Ea; by destruct a).
  destruct (rw_release_guard m g d v (match owner a with LockArc => <[g:=Released]> (guards m) | _ => delete g (guards m) end) Hm Hg) as (Hok & Hs & _); [|done|].
  { unfold owns. rewrite Ea. simpl. destruct (owner a); [by left|by left|right; by split]. }
  split_and!; [destruct (owner a); exact Hok|done|]. rewrite (not_forgotten l m Hl). unfold gain. simpl. rewrite <-Ep. destruct (owner a); simpl in *; lia.
Qed.

(** What [map] or [filter_map] makes of a guard. *)
Lemma rw_remapped_ok l m g d v t w r :
  mem_ok m → guards m !! g = Some d → holding d = true → forgets l = false → cell m = Some v → read_at (pointer d) v = Some t →
  (w = t ∨ writes d = true) →
  match r with Some r => is_Some (read_at r w) | None => True end →
  effect l m quiet (mkMem (max_readers m) (Some (write_at (pointer d) w v)) (strong m) (handles m)
    (<[g:=match r with Some r => remap d r | None => d end]> (guards m))).
Proof.
  intros Hm Hg Hd Hl Hv Ht Hw Hr. set (d' := match r with Some r => remap d r | None => d end).
  assert (pointer d' = pointer d ++ from_option id [] r ∧ owns d' = owns d ∧ (∀ h, borrows h d' → borrows h d) ∧ permits d' = permits d ∧ writes d' = writes d) as (Ep & Eo & Hb & Em & Ew).
  { unfold d'. destruct r; [by apply rw_remap_ok|]. simpl. by rewrite app_nil_r. }
  destruct (rw_replace_guard m g d d' (write_at (pointer d) w v)) as [Hok Hs]; try done.
  - rewrite Ep, read_write_below by (by eexists). destruct r; [done|by eexists].
  - destruct Hw as [-> |?]; [left|by right]. by rewrite (write_read_at _ _ _ Ht).
  - split_and!; [done|done|]. simpl. rewrite Hs, (not_forgotten l m Hl). unfold gain. simpl. lia.
Qed.

(** The guard after a call of [map] or [filter_map] that returned [r]; the callback has left [w]. *)
Lemma remapped_call_ok l m g d v t w (r : option (option Place)) (R : option Guard) :
  mem_ok m → guards m !! g = Some d → holding d = true → forgets l = false → cell m = Some v → read_at (pointer d) v = Some t →
  (w = t ∨ writes d = true) → within w (mjoin r) = true →
  R = (λ r, match r with Some r => remap d r | None => d end) <$> r →
  wp (remapped g d R) (set_cell (Some (write_at (pointer d) w v)) m) (effect l m).
Proof.
  intros Hm Hg Hd Hl Hv Ht Hw Hr ->. unfold remapped. destruct r as [r|]; simpl.
  - unfold put_guard. wp_auto. refine (rw_remapped_ok l m g d v t w r Hm Hg Hd Hl Hv Ht Hw _). destruct r as [r|]; [|done]. by apply bool_decide_eq_true in Hr.
  - apply rw_drop_at_ok; try done. destruct Hw as [-> |?]; [left|by right]. by rewrite (write_read_at _ _ _ Ht).
Qed.

Lemma either_filtered d r : either (filtered d (remap d) r) = (λ r, match r with Some r => remap d r | None => d end) <$> r.
Proof. by destruct r as [[]|]. Qed.
Lemma remap_some d (r : option Place) : remap d <$> r = (λ r, match r with Some r => remap d r | None => d end) <$> (Some <$> r).
Proof. by destruct r. Qed.
Lemma same_cell m d v t : cell m = Some v → read_at (pointer d) v = Some t → m = set_cell (Some (write_at (pointer d) t v)) m.
Proof. intros Hv Ht. rewrite (write_read_at _ _ _ Ht), <-Hv. by destruct m. Qed.

Lemma map_calls_ok l m :
  mem_ok m → enabled l m = true → match l with MapRead _ _ | FilterMapRead _ _ | MapWrite _ _ | FilterMapWrite _ _ => True | _ => False end →
  wp (exec l) m (effect l m).
Proof.
  intros Hm He Hl. destruct l as [| | | | | | | | | | | |g f|g f|g f|g f| | | | | |]; try done; clear Hl; apply andb_true_iff in He as [Hg Hf];
    apply is_guard_some in Hg as (d & Hg & Hd); (assert (holding d = true) as Hh by (unfold holding; rewrite Hd; apply orb_true_r || done));
    destruct (rw_guard_target m g d Hm Hg Hh) as (v & t & Hv & Ht & Htg); unfold on_target in Hf; rewrite Htg in Hf; simpl in Hf; unfold exec; wp_auto;
    (eapply wp_expect; [done|]); wp_auto.
  - rewrite read_map_eq by done. wp_auto. wp_apply call_read_ok; [exact Hv|exact Ht|]. intros r ? [-> ->]. wp_auto. rewrite remap_some.
    rewrite (same_cell m d v t Hv Ht) at 1. eapply (remapped_call_ok _ m g d v t t (Some <$> f t)); try done; [by left|]. by destruct (f t).
  - rewrite read_filter_map_eq by done. wp_auto. wp_apply call_read_ok; [exact Hv|exact Ht|]. intros r ? [-> ->]. wp_auto. rewrite either_filtered.
    rewrite (same_cell m d v t Hv Ht) at 1. eapply (remapped_call_ok _ m g d v t t (f t)); try done. by left.
  - rewrite write_map_eq by done. wp_auto. wp_apply rw_call_ok; [exact Hv|exact Ht|]. intros r ? [-> ->]. wp_auto. rewrite remap_some.
    eapply (remapped_call_ok _ m g d v t _ (Some <$> (f t).2)); try done; [by right|]. by destruct (f t).2.
  - rewrite write_filter_map_eq by done. wp_auto. wp_apply rw_call_ok; [exact Hv|exact Ht|]. intros r ? [-> ->]. wp_auto. rewrite either_filtered.
    eapply (remapped_call_ok _ m g d v t _ (f t).2); try done. by right.
Qed.

(** *** Handles *)
Lemma rw_arc_drop_ok m :
  mem_ok m → Z.of_nat (size (handles m)) + map_sum owns (guards m) < strong m →
  wp arc_drop m (λ _ m', mem_ok m' ∧ guards m' = guards m ∧ max_readers m' = max_readers m ∧ strong m' = strong m - 1 ∧ handles m' = handles m).
Proof.
  intros [H0 H1 H2 H3 H4 H5 H6] Hs. pose proof (map_sum_nonneg owns (guards m) (rw_owns_nonneg _)). unfold arc_drop. wp_auto. apply wp_sub_int; [lia|].
  wp_auto. split_and!; try done. split; simpl; [done| |lia|done| |done|done].
  - intros Hp. rewrite bool_decide_eq_false_2 by lia. apply H1. lia.
  - intros g d v Hg Hd Hv. case_bool_decide; [done|]. by eapply H4.
Qed.

Lemma rw_take_handle_ok m h :
  mem_ok m → free_handle h m = true →
  mem_ok (set_handles (handles m ∖ {[h]}) m) ∧ Z.of_nat (size (handles m ∖ {[h]})) + map_sum owns (guards m) < strong m.
Proof.
  intros [H0 H1 H2 H3 H4 H5 H6] [Hh%bool_decide_eq_true Hb%bool_decide_eq_true]%andb_true_iff.
  assert (Z.of_nat (size (handles m ∖ {[h]})) = Z.of_nat (size (handles m)) - 1) as Es.
  { rewrite (union_difference_singleton_L h (handles m)) at 2 by done. rewrite (size_union {[h]} (handles m ∖ {[h]})), size_singleton by set_solver. lia. }
  split; [|lia]. split; simpl; try done; [lia|]. intros g d h' Hg Hd. apply elem_of_difference. split; [by eapply H3|].
  intros ->%elem_of_singleton. apply Hb. by exists g, d.
Qed.

Lemma rw_drop_handle_ok l m h :
  mem_ok m → free_handle h m = true → forgets l = false → wp arc_drop (set_handles (handles m ∖ {[h]}) m) (λ _ m', effect l m quiet m').
Proof.
  intros Hm Hh Hl. destruct (rw_take_handle_ok m h Hm Hh) as [Hm' Hlt]. wp_apply rw_arc_drop_ok; [done|done|]. intros _ m' (Hok & Eg & Em & _).
  split_and!; [done|done|]. rewrite Eg, (not_forgotten l m Hl). unfold gain. simpl. lia.
Qed.

(** A new guard for permits just taken. *)
Lemma rw_new_guard_ok m g a :
  mem_ok m → guards m !! g = None → map_sum permits (guards m) + permits (Plain a) <= max_readers m →
  (writes (Plain a) = true → permits (Plain a) = max_readers m) → (∀ h, borrows h (Plain a) → h ∈ handles m) →
  Z.of_nat (size (handles m)) + map_sum owns (guards m) + owns (Plain a) <= strong m →
  mem_ok (set_guards (<[g:=Plain a]> (guards m)) m) ∧ map_sum permits (<[g:=Plain a]> (guards m)) = map_sum permits (guards m) + permits (Plain a).
Proof.
  intros [H0 H1 H2 H3 H4 H5 H6] Hg Hp Hw Hb Ho. rewrite map_sum_insert by done. split; [|lia]. split; simpl; [done|done| | | | |].
  - rewrite map_sum_insert by done. lia.
  - intros j e h [[-> <-]|[_ Hj]]%lookup_insert_Some; [apply Hb|by apply (H3 j)].
  - intros j e v [[-> <-]|[_ Hj]]%lookup_insert_Some He Hv; [by eexists|by eapply H4].
  - intros j e [[-> <-]|[_ Hj]]%lookup_insert_Some He; [by apply Hw|by eapply H5].
  - rewrite map_sum_insert by done. lia.
Qed.

(** The permits a call is about to take. *)
Definition takes (l : Label) (m : Mem) : Z :=
  match l with
  | Read _ _ | TryRead _ _ true | ReadOwned _ _ | TryReadOwned _ _ true => 1
  | Write _ _ | TryWrite _ _ true | WriteOwned _ _ | TryWriteOwned _ _ true => max_readers m
  | _ => 0
  end.

(** The four acquisitions. *)
Lemma borrowed_ok l m g h a n :
  mem_ok m → h ∈ handles m → guards m !! g = None → map_sum permits (guards m) + n <= max_readers m → forgets l = false →
  (a = ReadAccess (LockRef h) ∧ n = 1 ∨ a = WriteAccess (LockRef h) (max_readers m) ∧ n = max_readers m) →
  effect l m (mkObs (Take n) None false) (set_guards (<[g:=Plain a]> (guards m)) m).
Proof.
  intros Hm Hh Hg Hn Hl Ha. pose proof (mk_count _ Hm).
  assert (permits (Plain a) = n ∧ owns (Plain a) = 0) as [Ep Eo] by (by destruct Ha as [[-> ->]|[-> ->]]).
  destruct (rw_new_guard_ok m g a Hm Hg) as [Hok Hs]; [lia|by destruct Ha as [[-> ->]|[-> ->]]|by destruct Ha as [[-> _]|[-> _]]; intros h' <-|lia|].
  split_and!; [done|done|]. simpl. rewrite Hs, (not_forgotten l m Hl). unfold gain. simpl. lia.
Qed.
Lemma owned_ok l m g h a n :
  mem_ok m → free_handle h m = true → guards m !! g = None → map_sum permits (guards m) + n <= max_readers m → forgets l = false →
  (a = ReadAccess LockArc ∧ n = 1 ∨ a = WriteAccess LockArc (max_readers m) ∧ n = max_readers m) →
  effect l m (mkObs (Take n) None false) (set_guards (<[g:=Plain a]> (guards m)) (set_handles (handles m ∖ {[h]}) m)).
Proof.
  intros Hm Hh Hg Hn Hl Ha. destruct (rw_take_handle_ok m h Hm Hh) as [Hm' Hlt].
  assert (permits (Plain a) = n ∧ owns (Plain a) = 1) as [Ep Eo] by (by destruct Ha as [[-> ->]|[-> ->]]).
  destruct (rw_new_guard_ok _ g a Hm' Hg) as [Hok Hs]; [simpl; lia|by destruct Ha as [[-> ->]|[-> ->]]|by destruct Ha as [[-> _]|[-> _]]|simpl; lia|].
  split_and!; [done|done|]. simpl in *. rewrite Hs, (not_forgotten l m Hl). unfold gain. simpl. lia.
Qed.

(** [downgrade] keeps one permit. *)
Lemma downgrade_ok l m g d :
  mem_ok m → guards m !! g = Some d → writes d = true → plain d = true → forgets l = false → wp (downgrade g d) m (effect l m).
Proof.
  intros Hm Hg Hw Hp Hl. destruct d as [[o|o n]|?|]; try done. pose proof (mk_permits _ Hm g _ Hg Hw) as Hn. simpl in Hn. unfold permits in Hn. simpl in Hn.
  pose proof (mk_max _ Hm) as Hmax. destruct (mk_cell _ Hm (rw_guard_alive _ _ _ Hm Hg)) as [v Hv].
  assert (∀ m', mem_ok m' → guards m' = guards m → max_readers m' = max_readers m → is_Some (cell m') →
    effect l m (mkObs (Give (n - 1)) None false) (set_guards (<[g:=Plain (ReadAccess o)]> (guards m')) m')) as Hfin.
  { intros m' Hm' Eg Em Hc. rewrite Eg. rewrite <-Eg in Hg. destruct Hm' as [H0 H1 H2 H3 H4 H5 H6]. rewrite <-Eg.
    assert (map_sum permits (<[g:=Plain (ReadAccess o)]> (guards m')) = map_sum permits (guards m') - n + 1) as Es.
    { rewrite (map_sum_update _ _ _ _ _ Hg). unfold permits at 2 3. simpl. lia. }
    split_and!; [|done|simpl; rewrite Es, Eg, (not_forgotten l m Hl); unfold gain; simpl; lia]. split; simpl; [done|done| | | | |lia].
    - rewrite (map_sum_update _ _ _ _ _ Hg). unfold owns at 2 3. simpl. lia.
    - intros j e h [[-> <-]|[_ Hj]]%lookup_insert_Some; [apply (H3 j _ h Hg)|by apply (H3 j)].
    - intros j e u [[-> <-]|[_ Hj]]%lookup_insert_Some He Hu; [by eexists|by eapply H4].
    - intros j e [[-> <-]|[_ Hj]]%lookup_insert_Some He; [done|by eapply H5]. }
  unfold downgrade, access_downgrade. wp_auto. eapply wp_expect; [done|]. wp_auto. destruct o as [h|h|]; wp_auto.
  1,2: apply wp_sub_int; [lia|]; wp_auto; unfold access_drop; wp_auto; (eapply wp_expect; [done|]); wp_auto; unfold put_guard; wp_auto; by apply Hfin.
  unfold arc_clone. wp_auto. apply wp_sub_int; [lia|]. wp_auto. unfold access_drop. wp_auto. eapply wp_expect; [done|]. wp_auto.
  pose proof (mk_count _ Hm). wp_apply (rw_arc_drop_ok (set_strong (strong m + 1) m)).
  - destruct Hm as [H0 H1 H2 H3 H4 H5 H6]. split; simpl; try done; lia.
  - simpl. lia.
  - intros _ m' (Hok & Eg & Em & Es & Eh). unfold put_guard. wp_auto. apply Hfin; [done|done|done|]. apply (mk_cell _ Hok).
    rewrite Es. simpl. pose proof (rw_guard_alive _ _ _ Hm Hg). lia.
Qed.

(** The only owner of a lock is alone with it. *)
Lemma rw_sole_owner_ok m h : mem_ok m → sole_owner h m = true → guards m = ∅ ∧ is_Some (cell m).
Proof.
  intros Hm [[Hh%bool_decide_eq_true Hb%bool_decide_eq_true]%andb_true_iff H1%bool_decide_eq_true]%andb_true_iff.
  split; [|apply (mk_cell _ Hm); lia]. apply map_empty. intros g. destruct (guards m !! g) as [d|] eqn:Hg; [exfalso|done].
  pose proof (mk_count _ Hm) as Hc. pose proof (map_sum_elem owns _ _ _ (rw_owns_nonneg _) Hg) as Ho.
  assert (∀ j, j ∈ handles m → j = h) as Hone.
  { intros j Hj. destruct (decide (j = h)) as [|Hne]; [done|]. pose proof (subseteq_size {[j; h]} (handles m) ltac:(set_solver)) as Hs.
    rewrite size_union, !size_singleton in Hs by set_solver. pose proof (map_sum_nonneg owns (guards m) (rw_owns_nonneg _)). lia. }
  pose proof (subseteq_size {[h]} (handles m) ltac:(set_solver)) as Hs. rewrite size_singleton in Hs.
  assert (∀ j, borrows j d → False) as Hno.
  { intros j Hj. apply Hb. exists g, d. split; [done|]. by rewrite <-(Hone j ltac:(by eapply (mk_borrow _ Hm))). }
  unfold owns in Ho at 1. unfold borrows in Hno. destruct (owner <$> access d) as [[j|j|]|]; [by apply (Hno j)|by apply (Hno j)|lia|lia].
Qed.

Lemma rw_sole_owner_effect l m h v n H o :
  mem_ok m → sole_owner h m = true → forgets l = false → pool_op o = Keep → (0 < n → is_Some v) → Z.of_nat (size H) <= n →
  effect l m o (mkMem (max_readers m) v n H (guards m)).
Proof.
  intros Hm Hs Hl Ho Hv Hn. destruct (rw_sole_owner_ok m h Hm Hs) as [Eg _]. pose proof (mk_max _ Hm).
  split_and!; [|done|unfold gain; simpl; rewrite Ho, (not_forgotten l m Hl); lia]. rewrite Eg.
  split; simpl; [done|done|rewrite map_sum_empty; lia|intros ? ? ?; by rewrite lookup_empty|intros ? ? ?; by rewrite lookup_empty|intros ? ?; by rewrite lookup_empty|rewrite map_sum_empty; lia].
Qed.

Lemma rw_clone_ok l m h h' :
  mem_ok m → h ∈ handles m → h' ∉ handles m → forgets l = false →
  effect l m quiet (set_handles ({[h']} ∪ handles m) (set_strong (strong m + 1) m)).
Proof.
  intros Hm Hh Hh' Hl. split_and!; [|done|unfold gain; simpl; rewrite (not_forgotten l m Hl); lia]. pose proof (rw_handle_alive m h Hm Hh).
  destruct Hm as [H0 H1 H2 H3 H4 H5 H6]. split; simpl; try done; [by intros _; apply H1| |].
  - rewrite size_union by set_solver. rewrite size_singleton. lia.
  - intros g d j Hg Hj. apply elem_of_union_r. by eapply H3.
Qed.

(** Calls on handles. *)
Lemma acquire_calls_ok l m :
  mem_ok m → enabled l m = true → map_sum permits (guards m) + takes l m <= max_readers m →
  match l with Read _ _ | TryRead _ _ _ | ReadOwned _ _ | TryReadOwned _ _ _ | Write _ _ | TryWrite _ _ _ | WriteOwned _ _ | TryWriteOwned _ _ _ => True | _ => False end →
  wp (exec l) m (effect l m).
Proof.
  intros Hm He Ht Hl. assert (forgets l = false) as Hf by (by destruct l).
  assert (effect l m quiet m) as Hq by (split_and!; [done|done|rewrite (not_forgotten l m Hf); unfold gain; simpl; lia]).
  destruct l as [| |g h|g h []|g h|g h []|g h|g h []|g h|g h []| | | | | | | | | | | |]; try done; simpl in He, Ht; unfold exec; wp_auto;
    (apply enabled_and in He as [He Hg] || apply andb_true_iff in He as [He Hg%bool_decide_eq_true]);
    unfold try_read, try_read_owned, try_write, try_write_owned, read, read_owned, write, write_owned, take_handle, put_guard; wp_auto;
    try (by eapply borrowed_ok; eauto); try exact Hq;
    try (exact (owned_ok _ m g h _ _ Hm He Hg Ht Hf (or_introl (conj eq_refl eq_refl))));
    try (exact (owned_ok _ m g h _ _ Hm He Hg Ht Hf (or_intror (conj eq_refl eq_refl)))).
  - wp_apply (rw_drop_handle_ok (TryReadOwned g h false) m h); [done..|]. intros _ m' H. by wp_auto.
  - wp_apply (rw_drop_handle_ok (TryWriteOwned g h false) m h); [done..|]. intros _ m' H. by wp_auto.
Qed.

(** Every call preserves the invariant and ends without an error of memory, if the permits it takes are
    not held by guards. *)
Lemma rwlock_exec_ok l m :
  mem_ok m → enabled l m = true → map_sum permits (guards m) + takes l m <= max_readers m → wp (exec l) m (effect l m).
Proof.
  intros Hm He Ht. assert (∀ o, pool_op o = Keep → forgets l = false → effect l m o m) as Hq.
  { intros o Ho Hl. split_and!; [done|done|rewrite (not_forgotten l m Hl); unfold gain; rewrite Ho; lia]. }
  destruct l as [h h'|h| | | | | | | | |g|g w| | | | |g|g|g|g|h w|h]; try (by apply acquire_calls_ok); try (by apply map_calls_ok); simpl in He; unfold exec; wp_auto;
    try (apply is_guard_some in He as (d & Hg & Hd); destruct (rw_guard_target m g d Hm Hg ltac:(unfold holding; rewrite Hd; apply orb_true_r || done)) as (v & t & Hv & Htg & _)).
  - apply andb_true_iff in He as [[Hh%bool_decide_eq_true Hh'%bool_decide_eq_true]%andb_true_iff _]. unfold arc_clone. wp_auto. exact (rw_clone_ok (CloneHandle h h') m h h' Hm Hh Hh' eq_refl).
  - unfold take_handle. wp_auto. wp_apply (rw_drop_handle_ok (DropHandle h) m h); [done..|]. intros _ m' H. by wp_auto.
  - eapply wp_expect; [done|]. wp_auto. wp_apply rw_deref_ok; [done|done|]. intros u ? [-> ->]. wp_auto. by apply Hq.
  - eapply wp_expect; [done|]. wp_auto. wp_apply rw_deref_mut_ok; [done|by eexists|]. intros _ ? ->. wp_auto.
    pose proof (rw_remapped_ok (Store g w) m g d v t w None Hm Hg ltac:(unfold holding; rewrite Hd; apply orb_true_r) eq_refl Hv Htg (or_intror Hd) I) as H. by rewrite insert_id in H.
  - apply andb_true_iff in He as [(d & Hg & Hd)%is_guard_some (d' & Hg' & Hd')%is_guard_some]. rewrite Hg in Hg'. injection Hg' as <-.
    eapply wp_expect; [done|]. by apply downgrade_ok.
  - eapply wp_expect; [done|]. pose proof (rw_drop_at_ok (DropGuard g) m v g d false Hm Hg Hd eq_refl (or_introl Hv)) as H. 
    assert (set_cell (Some v) m = m) as E by (rewrite <-Hv; by destruct m). by rewrite E in H.
  - apply bool_decide_eq_true in He. destruct (mk_cell _ Hm (rw_guard_alive _ _ _ Hm He)) as [v Hv].
    destruct (rw_release_guard m g Released v _ Hm He (or_introl eq_refl) (or_introl Hv)) as (Hok & Hs & Ho). rewrite bool_decide_eq_true_2 in Ho by done.
    unfold put_guard. wp_auto. pose proof (mk_count _ Hm). wp_apply rw_arc_drop_ok; [|simpl; rewrite Ho; unfold owns at 2; simpl; lia|].
    { rewrite <-Hv in Hok. exact Hok. }
    intros _ m' (Hok' & Eg & Em & _). wp_auto. split_and!; [done|done|]. rewrite Eg. simpl. rewrite Hs. unfold gain, permits at 2. simpl. lia.
  - destruct (rw_release_guard m g d v _ Hm Hg (or_introl eq_refl) (or_introl Hv)) as (Hok & Hs & _). unfold put_guard. wp_auto.
    split_and!; [rewrite <-Hv in Hok; exact Hok|done|]. simpl. rewrite Hs, Hg. unfold gain. simpl. lia.
  - destruct (rw_sole_owner_ok m h Hm He) as [_ [v Hv]]. pose proof (mk_count _ Hm). pose proof (map_sum_nonneg owns (guards m) (rw_owns_nonneg _)).
    unfold get_mut. wp_auto. wp_apply rw_deref_mut_ok; [done|by eexists|]. intros _ ? ->. wp_auto. apply (rw_sole_owner_effect _ m h); [done..|lia].
  - destruct (rw_sole_owner_ok m h Hm He) as [_ [v Hv]]. unfold into_inner. wp_auto. wp_apply rw_deref_ok; [exact Hv|done|]. intros u ? [-> ->]. wp_auto.
    apply (rw_sole_owner_effect (IntoInner h) m h); [done..|]. apply andb_true_iff in He as [Hf H1%bool_decide_eq_true].
    destruct (rw_take_handle_ok m h Hm Hf) as [_ Hlt]. pose proof (map_sum_nonneg owns (guards m) (rw_owns_nonneg _)). lia.
Qed.

(** ** Properties *)
Definition about (l : Label) : option nat :=
  match l with
  | Read g _ | TryRead g _ _ | ReadOwned g _ | TryReadOwned g _ _ | Write g _ | TryWrite g _ _ | WriteOwned g _ | TryWriteOwned g _ _
  | Look g | Store g _ | MapRead g _ | FilterMapRead g _ | MapWrite g _ | FilterMapWrite g _ | Downgrade g | DropGuard g | DropArc g | Forget g => Some g
  | _ => None
  end.

(** Splits a computation that has returned, and drops the parts that leave the state alone. *)
Ltac open_call Hr :=
  unfold returns, exec, remapped, drop_at, access_drop, try_read, try_read_owned, try_write, try_write_owned, read, read_owned, write, write_owned,
    take_handle, arc_drop, arc_clone, put_guard, modify, put, sub_int, expect, mbind, M_bind, mret, M_ret, get, panic in Hr; simpl in Hr.

(** Mapping a read guard leaves the cell and the other guards alone. *)
Lemma read_calls_local {A : Type} m j d (R : M Mem A) (k : A → option Guard) g o m' :
  (∀ r m1, returns R m r m1 → m1 = m) → Some j ≠ Some g →
  returns (r ← R; remapped j d (k r)) m o m' → guards m' !! g = guards m !! g ∧ cell m' = cell m.
Proof.
  intros HR Hne Hr. apply returns_bind in Hr as (r & m1 & Hr1 & Hr). rewrite (HR _ _ Hr1) in Hr. destruct (k r) as [d'|]; open_call Hr.
  - injection Hr as <- <-. simpl. rewrite lookup_insert_ne by congruence. done.
  - destruct (access d) as [a|]; [|done]. destruct (cell m) as [v|] eqn:Ec; [|done]. injection Hr as <- <-. simpl.
    destruct (owner a); rewrite ?lookup_insert_ne, ?lookup_delete_ne by congruence; done.
Qed.

Lemma call_read_local {A B : Type} p (f : Val → A) (k : A → B) m r m1 : returns (x ← call_read p f; mret (k x)) m r m1 → m1 = m.
Proof.
  unfold returns, call_read, deref, mbind, M_bind, get, expect, mret, M_ret, panic. simpl. destruct (cell m) as [v|]; [|done]. simpl.
  destruct (read_at p v); [|done]. by intros [= _ <-].
Qed.

(** While a guard lives, nothing else changes the cell. *)
Lemma rw_undisturbed l m o m' g d :
  mem_ok m → guards m !! g = Some d → holding d = true → enabled l m = true → map_sum permits (guards m) + takes l m <= max_readers m →
  about l ≠ Some g → returns (exec l) m o m' → guards m' !! g = Some d ∧ cell m' = cell m.
Proof.
  intros Hm Hg Hd He Ht Ha Hr. pose proof (wp_returns_elim _ _ _ _ _ (rwlock_exec_ok l m Hm He Ht) Hr) as [Hm' _].
  assert (∀ h, sole_owner h m = true → False) as Hsole.
  { intros h Hh. destruct (rw_sole_owner_ok m h Hm Hh) as [E _]. by rewrite E, lookup_empty in Hg. }
  assert (∀ j, is_guard writes j m = true → Some j ≠ Some g → False) as Hwriter.
  { intros j (e & Hj & Hw)%is_guard_some Hne. apply Hne, (f_equal Some). symmetry. exact (writer_alone m j g e d Hm Hj Hg Hw Hd). }
  assert (guards m' !! g = Some d ∧ (cell m' = cell m ∨ cell m' = None)) as [Hg' [Hc|Hc]]; [|done|].
  2:{ destruct (mk_cell _ Hm' (rw_guard_alive _ _ _ Hm' Hg')) as [v Hv]. congruence. }
  destruct l as [h h'|h|j h|j h []|j h|j h []|j h|j h []|j h|j h []|j|j w|j f|j f|j f|j f|j|j|j|j|h w|h]; simpl in He, Ha;
    try (exfalso; exact (Hsole h He)); try (exfalso; exact (Hwriter j He Ha)); try (apply andb_true_iff in He as [He _]; exfalso; exact (Hwriter j He Ha));
    try (open_call Hr; injection Hr as <- <-; simpl; rewrite ?lookup_insert_ne, ?lookup_delete_ne by congruence; by auto);
    try (open_call Hr; destruct (checked_sub _ _); [|done]; injection Hr as <- <-; simpl; rewrite ?lookup_delete_ne by congruence; split; [done|]; case_bool_decide; by auto).
  - apply is_guard_some in He as (e & Hj & He). open_call Hr. rewrite Hj in Hr. simpl in Hr. unfold deref in Hr. open_call Hr.
    destruct (cell m) as [v|] eqn:Ec; [|done]. simpl in Hr. destruct (read_at _ v); [|done]. injection Hr as <- <-. by auto.
  - apply andb_true_iff in He as [(e & Hj & He)%is_guard_some _]. unfold exec in Hr. apply returns_bind in Hr as (m0 & ? & [= <- <-] & Hr).
    apply returns_bind in Hr as (e' & ? & [Ee ->]%returns_expect & Hr). rewrite Hj in Ee. injection Ee as <-.
    rewrite read_map_eq in Hr by (unfold holding; by rewrite He). rewrite <-Hg. destruct (read_calls_local m j e _ id g o m' (λ r m1, call_read_local _ _ _ m r m1) Ha Hr); by auto.
  - apply andb_true_iff in He as [(e & Hj & He)%is_guard_some _]. unfold exec in Hr. apply returns_bind in Hr as (m0 & ? & [= <- <-] & Hr).
    apply returns_bind in Hr as (e' & ? & [Ee ->]%returns_expect & Hr). rewrite Hj in Ee. injection Ee as <-.
    rewrite read_filter_map_eq in Hr by (unfold holding; by rewrite He). rewrite <-Hg. destruct (read_calls_local m j e _ either g o m' (λ r m1, call_read_local _ _ _ m r m1) Ha Hr); by auto.
  - apply is_guard_some in He as (e & Hj & He). open_call Hr. rewrite Hj in Hr. simpl in Hr. destruct (access e) as [a|]; [|done].
    destruct (cell m) as [v|] eqn:Ec; [|done]. injection Hr as <- <-. simpl. rewrite Ec. destruct (owner a); rewrite ?lookup_insert_ne, ?lookup_delete_ne by congruence; by auto.
Qed.

Section properties.
Context {P : Type} `{!PermitPool P}.
Implicit Types (x y : Sys P) (l : Label) (p : P) (n : Z).

Record sys_ok n x : Prop := {
  so_pool : pp_ok (pool x);
  so_max : max_readers (mem x) = n;
  so_permits : pp_free (pool x) + map_sum permits (guards (mem x)) <= n;
  so_mem : mem_ok (mem x);
}.

Lemma rw_takes_op l m o m' : takes l m ≠ 0 → returns (exec l) m o m' → pool_op o = Take (takes l m).
Proof. intros Hl. by destruct l as [| |? ?|? ? []|? ?|? ? []|? ?|? ? []|? ?|? ? []| | | | | | | | | | | |]; try done; intros [= <- _]. Qed.

Lemma take_room n k x p' : sys_ok n x → pp_take k (pool x) p' → map_sum permits (guards (mem x)) + k <= n.
Proof. intros [Hp _ Hf _] Ht. destruct (pp_take_spec _ _ _ Hp Ht) as [Hp' E]. pose proof (pp_nonneg _ Hp'). lia. Qed.

(** The permits a call takes have come from the pool. *)
Lemma call_room n x l o m' p' :
  sys_ok n x → returns (exec l) (mem x) o m' → pool_move (pool_op o) (pool x) p' → map_sum permits (guards (mem x)) + takes l (mem x) <= max_readers (mem x).
Proof.
  intros Hx Hr Hp. destruct (decide (takes l (mem x) = 0)) as [-> |Hne]; [pose proof (mk_sum _ (so_mem _ _ Hx)); lia|].
  rewrite (rw_takes_op _ _ _ _ Hne Hr) in Hp. rewrite (so_max _ _ Hx). by eapply take_room.
Qed.

Lemma rw_call_ok_sys n x l o m' p' :
  sys_ok n x → enabled l (mem x) = true → returns (exec l) (mem x) o m' → pool_move (pool_op o) (pool x) p' →
  sys_ok n (mkSys p' m') ∧ map_sum permits (guards m') = map_sum permits (guards (mem x)) + gain o - forgotten l (mem x).
Proof.
  intros Hx He Hr Hp. pose proof (call_room _ _ _ _ _ _ Hx Hr Hp) as Hroom. pose proof Hx as [H1 H2 H3 H4].
  destruct (wp_returns_elim _ _ _ _ _ (rwlock_exec_ok l (mem x) H4 He Hroom) Hr) as (Hm & Em & Hs). split; [|done].
  assert (0 <= forgotten l (mem x)) as Hf.
  { destruct l; try done. simpl. destruct (guards (mem x) !! g) as [d|] eqn:Hg; [|done]. simpl. exact (permits_nonneg _ H4 g d Hg). }
  unfold gain in Hs. destruct (pool_op o) as [|k|k]; simpl in Hp.
  - subst p'. split; simpl; [done|congruence|lia|done].
  - destruct (pp_take_spec _ _ _ H1 Hp). split; simpl; [done|congruence|lia|done].
  - case_bool_decide as E; [subst p'; split; simpl; [done|congruence|lia|done]|]. destruct (pp_give_spec _ _ _ H1 Hp). split; simpl; [done|congruence|lia|done].
Qed.

Lemma rw_steps_ok n x tr y : sys_ok n x → steps x tr y → sys_ok n y.
Proof.
  intros Hx. induction 1 as [|tr y l o m' p' _ IH He Hr Hp|tr y p' _ IH Hp]; [done|by eapply rw_call_ok_sys|].
  destruct IH as [H1 H2 H3 H4]. destruct (pp_internal_spec _ _ H1 Hp). split; simpl; [done|done|lia|done].
Qed.

Lemma rw_new_ok p v n : 0 < n → pp_ok p → pp_free p = n → sys_ok n (mkSys p (with_max_readers v n)).
Proof.
  intros Hn Hp Hf. split; simpl; [done|done|rewrite map_sum_empty; lia|].
  split; simpl; [done|by eexists|by vm_compute|intros ? ? ?; by rewrite lookup_empty|intros ? ? ?; by rewrite lookup_empty|intros ? ?; by rewrite lookup_empty|rewrite map_sum_empty; lia].
Qed.

(** C36: memory safety of the reader-writer lock: whatever safe calls have been made, through any mixture of
    read and write guards, owned or borrowed, mapped, downgraded, forgotten or lost to a callback that
    unwinds, the next call that is allowed neither reads a freed lock nor follows a pointer that leads
    nowhere. *)
Theorem rwlock_memory_safe p v n tr x l :
  0 < n → pp_ok p → pp_free p = n → steps (mkSys p (with_max_readers v n)) tr x → enabled l (mem x) = true →
  (takes l (mem x) ≠ 0 → ∃ p', pp_take (takes l (mem x)) (pool x) p') → ∃ o m', returns (exec l) (mem x) o m'.
Proof.
  intros Hn Hp Hf Hs He Ht. pose proof (rw_steps_ok _ _ _ _ (rw_new_ok p v n Hn Hp Hf) Hs) as Hx.
  assert (wp (exec l) (mem x) (effect l (mem x))) as H.
  { apply rwlock_exec_ok; [apply Hx|done|]. rewrite (so_max _ _ Hx).
    destruct (decide (takes l (mem x) = 0)) as [-> |Hne]; [pose proof (mk_sum _ (so_mem _ _ Hx)); rewrite (so_max _ _ Hx) in *; lia|].
    destruct (Ht Hne) as [p' Hp']. by eapply take_room. }
  apply wp_returns in H as (o & m' & Hr & _). by exists o, m'.
Qed.

(** A call moves permits between the pool and the guards and loses none, a forgotten guard apart:
    the guards gain what it takes from the pool and lose what it gives back, and with the free
    permits they are never more than there are. *)
Theorem rwlock_permits_conserved p v n tr x l o m' p' :
  0 < n → pp_ok p → pp_free p = n → steps (mkSys p (with_max_readers v n)) tr x → enabled l (mem x) = true → forgets l = false →
  returns (exec l) (mem x) o m' → pool_move (pool_op o) (pool x) p' →
  map_sum permits (guards m') = map_sum permits (guards (mem x)) + gain o ∧ pp_free p' + map_sum permits (guards m') <= n.
Proof.
  intros Hn Hp Hf Hs He Hl Hr Hm. pose proof (rw_steps_ok _ _ _ _ (rw_new_ok p v n Hn Hp Hf) Hs) as Hx.
  destruct (rw_call_ok_sys _ _ _ _ _ _ Hx He Hr Hm) as [[_ _ Hsum _] Hs']. rewrite (not_forgotten l _ Hl) in Hs'. split; [lia|done].
Qed.

(** What a guard shows does not change under it: while a guard of either kind lives, nothing but calls
    on the guard itself changes what it points to. *)
Theorem rwlock_view_stable p v n tr x g o tr' y :
  0 < n → pp_ok p → pp_free p = n → steps (mkSys p (with_max_readers v n)) tr x → enabled (Look g) (mem x) = true →
  returns (exec (Look g)) (mem x) o (mem x) → steps x tr' y → Forall (λ e, about e.1 ≠ Some g) tr' →
  returns (exec (Look g)) (mem y) o (mem y).
Proof.
  intros Hn Hp Hf Hs He Hr Hs' Hall. pose proof (rw_steps_ok _ _ _ _ (rw_new_ok p v n Hn Hp Hf) Hs) as Hx. apply is_guard_some in He as (d & Hg & Hd).
  assert (guards (mem y) !! g = Some d ∧ cell (mem y) = cell (mem x)) as [Hgy Hcy].
  { revert Hall. induction Hs' as [|tr' y l o1 m1 p1 Hs' IH He1 Hr1 Hm1|tr' y p1 Hs' IH Hi]; intros Hall; [done| |by apply IH].
    apply Forall_app in Hall as [Hall [Ha _]%Forall_cons]. destruct (IH Hall) as [Hg1 Hc1]. pose proof (rw_steps_ok _ _ _ _ Hx Hs') as Hy.
    destruct (rw_undisturbed l _ _ _ g d (so_mem _ _ Hy) Hg1 Hd He1 (call_room _ _ _ _ _ _ Hy Hr1 Hm1) Ha Hr1) as [Hgz Hcz]. split; [exact Hgz|]. simpl. congruence. }
  unfold returns, exec, deref, mbind, M_bind, mret, M_ret, get, expect, panic in *. rewrite Hg in Hr. rewrite Hgy. simpl in *. rewrite Hcy.
  destruct (cell (mem x)) as [c|]; [|done]. simpl in *. destruct (read_at (pointer d) c); [|done]. simpl in *. by injection Hr as <-.
Qed.
End properties.

(** Three readers at most; an owned write guard is downgraded and mapped while another reader comes in. *)
Definition triple_cell : Val := Node [Leaf 1; Node [Leaf 2; Leaf 3]].
Definition write_trace : list (Label * Obs) := [(CloneHandle 0 1, quiet); (WriteOwned 5 0, mkObs (Take 3) None false)].
Definition written_mem : Mem := mkMem 3 (Some triple_cell) 2 {[1%nat]} {[5%nat := Plain (WriteAccess LockArc 3)]}.
Definition read_trace : list (Label * Obs) :=
  write_trace ++ [(Downgrade 5, mkObs (Give 2) None false)] ++ [(MapRead 5 (λ _, Some [1%nat]), quiet)].
Definition reading_mem : Mem := mkMem 3 (Some triple_cell) 2 {[1%nat]} {[5%nat := Mapped [1%nat] (ReadAccess LockArc)]}.

Lemma write_steps : steps (P := Z) (mkSys 3 (with_max_readers triple_cell 3)) write_trace (mkSys 0 written_mem).
Proof.
  refine (steps_call _ [_] (mkSys 3 (mkMem 3 (Some triple_cell) 2 {[1%nat; 0%nat]} ∅)) (WriteOwned 5 0) _ _ 0 _ eq_refl eq_refl _); [|change (counter_take 3 3 0); unfold counter_take; lia].
  exact (steps_call _ [] (mkSys 3 (with_max_readers triple_cell 3)) (CloneHandle 0 1) _ _ 3 (steps_nil _) eq_refl eq_refl eq_refl).
Qed.

Lemma read_steps : steps (P := Z) (mkSys 3 (with_max_readers triple_cell 3)) read_trace (mkSys 2 reading_mem).
Proof.
  refine (steps_call _ (write_trace ++ [_]) (mkSys 2 (mkMem 3 (Some triple_cell) 2 {[1%nat]} {[5%nat := Plain (ReadAccess LockArc)]})) (MapRead 5 (λ _, Some [1%nat])) quiet _ 2 _ eq_refl eq_refl eq_refl).
  refine (steps_call _ write_trace (mkSys 0 written_mem) (Downgrade 5) _ _ 2 write_steps eq_refl eq_refl _). change (counter_give 2 0 2). unfold counter_give. lia.
Qed.

Lemma rwlock_memory_safe_witness : ∃ o m', returns (exec (Read 6 1)) reading_mem o m'.
Proof.
  eapply (rwlock_memory_safe (P := Z) 3 triple_cell 3 read_trace (mkSys 2 reading_mem) (Read 6 1));
    [done|by vm_compute|done|apply read_steps|vm_compute; reflexivity|]. intros _. exists 1. change (counter_take 1 2 1). unfold counter_take. lia.
Defined.

Lemma rwlock_permits_conserved_witness :
  ∃ m', returns (exec (Downgrade 5)) written_mem (mkObs (Give 2) None false) m' ∧
    map_sum permits (guards m') = 3 + -2 ∧ 2 + map_sum permits (guards m') <= 3.
Proof.
  eexists. split; [vm_compute; reflexivity|].
  refine (rwlock_permits_conserved (P := Z) 3 triple_cell 3 write_trace (mkSys 0 written_mem) (Downgrade 5) (mkObs (Give 2) None false) _ 2
    _ _ eq_refl write_steps eq_refl eq_refl _ _); [done|by vm_compute|vm_compute; reflexivity|]. change (counter_give 2 0 2). unfold counter_give. lia.
Defined.

Lemma rwlock_view_stable_witness :
  ∃ m', returns (exec (Read 6 1)) reading_mem (mkObs (Take 1) None false) m' ∧
    returns (exec (Look 5)) m' (mkObs Keep (Some (Node [Leaf 2; Leaf 3])) false) m'.
Proof.
  eexists. split; [vm_compute; reflexivity|].
  refine (rwlock_view_stable (P := Z) 3 triple_cell 3 read_trace (mkSys 2 reading_mem) 5 _ [(Read 6 1, mkObs (Take 1) None false)] (mkSys 1 _)
    _ _ eq_refl read_steps eq_refl _ _ _); [done|by vm_compute|vm_compute; reflexivity| |by repeat constructor].
  refine (steps_call _ [] (mkSys 2 reading_mem) (Read 6 1) _ _ 1 (steps_nil _) eq_refl _ _); [vm_compute; reflexivity|]. change (counter_take 1 2 1). unfold counter_take. lia.
Defined.
