(* ===== verification/RwLockUpgradable.v ===== *)
(** * The upgradable reader-writer lock

    [asyncband/src/rwlock/upgradable.rs]: a reader-writer lock behind a reservation of one permit.
    Writers and upgradable readers hold the reservation while they acquire; an upgradable guard
    keeps it, so that it can become a writer without letting another one in between. *)
From S2P Require Import Prelude PermitPool RwLock.

(** How far an operation that holds the reservation has come. *)
Inductive Stage : Type :=
| Reserved      (* the reservation is held, data permits are not *)
| Upgradable    (* an upgradable guard: one data permit *)
| Leaving.      (* the data permits have moved to a guard or are released *)

Record UpgradableRwLock (P T : Type) : Type := mkUpgradable {
  reservation : P;
  inner : RwLock P T;
  stages : gmap nat Stage;
}.
Arguments mkUpgradable {P T}.
Arguments reservation {P T}.
Arguments inner {P T}.
Arguments stages {P T}.

Section upgradable.
Context {P : Type} `{!PermitPool P} {T : Type}.
Implicit Types (x : UpgradableRwLock P T) (t g : nat).

Definition upgradable_with_max_readers (r p : P) (v : T) (n : Z) : UpgradableRwLock P T :=
  mkUpgradable r (with_max_readers p v n) ∅.

(** [self.reservation.acquire(1).await] and [try_acquire(1)]. *)
Definition reserve t x x' : Prop :=
  stages x !! t = None ∧ ∃ r', pp_take 1 (reservation x) r' ∧
    x' = mkUpgradable r' (inner x) (<[t:=Reserved]> (stages x)).

(** [write] and [try_write] with the reservation held: the data permits arrive. *)
Definition write_reserved t g x x' : Prop :=
  stages x !! t = Some Reserved ∧ ∃ i', write g (inner x) i' ∧
    x' = mkUpgradable (reservation x) i' (<[t:=Leaving]> (stages x)).

(** A pool step of the data permits taken by thread [t], which ends in stage [st]. *)
Definition take_data t (n : Z) (st : Stage) x (i : RwLock P T → RwLock P T) x' : Prop :=
  ∃ p', pp_take n (s (inner x)) p' ∧
    x' = mkUpgradable (reservation x)
      (i (mkRwLock (max_readers (inner x)) p' (c (inner x)) (guards (inner x)))) (<[t:=st]> (stages x)).

(** [upgradable_read] and [try_upgradable_read] with the reservation held. *)
Definition upgradable_read t x x' : Prop :=
  stages x !! t = Some Reserved ∧ take_data t 1 Upgradable x id x'.

(** [upgrade] and [try_upgrade]: the missing permits arrive and [into_write] makes the guard. *)
Definition add_guard g (d : Guard) (i : RwLock P T) : RwLock P T :=
  mkRwLock (max_readers i) (s i) (c i) (<[g:=d]> (guards i)).

Definition upgrade t g x x' : Prop :=
  stages x !! t = Some Upgradable ∧ guards (inner x) !! g = None ∧
  take_data t (max_readers (inner x) - 1) Leaving x
    (add_guard g (mkGuard (WriteAccess (max_readers (inner x))) false)) x'.

(** [RwLockUpgradableReadGuard::downgrade]: the data permit moves to a read guard. *)
Definition downgrade_upgradable t g x x' : Prop :=
  stages x !! t = Some Upgradable ∧ guards (inner x) !! g = None ∧
  x' = mkUpgradable (reservation x) (add_guard g (mkGuard ReadAccess false) (inner x))
    (<[t:=Leaving]> (stages x)).

(** Dropping the guard releases the data permit, then the reservation. *)
Definition drop_upgradable t x x' : Prop :=
  stages x !! t = Some Upgradable ∧ ∃ p', pp_give 1 (s (inner x)) p' ∧
    x' = mkUpgradable (reservation x)
      (mkRwLock (max_readers (inner x)) p' (c (inner x)) (guards (inner x))) (<[t:=Leaving]> (stages x)).

(** [drop(reservation)], at the end or on cancellation. *)
Definition release_reservation t x x' : Prop :=
  (stages x !! t = Some Reserved ∨ stages x !! t = Some Leaving) ∧
  ∃ r', pp_give 1 (reservation x) r' ∧ x' = mkUpgradable r' (inner x) (delete t (stages x)).

(** Every other operation is one of the inner lock; only [write] needs the reservation. *)
Definition inner_step x x' : Prop :=
  ∃ i', step (inner x) i' ∧ (∀ g, ¬ write g (inner x) i') ∧ x' = mkUpgradable (reservation x) i' (stages x).

Inductive upgradable_step : UpgradableRwLock P T → UpgradableRwLock P T → Prop :=
| us_reserve t x x' : reserve t x x' → upgradable_step x x'
| us_write t g x x' : write_reserved t g x x' → upgradable_step x x'
| us_read t x x' : upgradable_read t x x' → upgradable_step x x'
| us_upgrade t g x x' : upgrade t g x x' → upgradable_step x x'
| us_downgrade t g x x' : downgrade_upgradable t g x x' → upgradable_step x x'
| us_drop t x x' : drop_upgradable t x x' → upgradable_step x x'
| us_release t x x' : release_reservation t x x' → upgradable_step x x'
| us_inner x x' : inner_step x x' → upgradable_step x x'
| us_pool x r' : pp_internal (reservation x) r' →
    upgradable_step x (mkUpgradable r' (inner x) (stages x)).

(** The data permits of upgradable guards. *)
Definition stage_permits (st : Stage) : Z := match st with Upgradable => 1 | _ => 0 end.

Record upgradable_ok (n : Z) x : Prop := {
  uo_inner : rwlock_ok n (map_sum stage_permits (stages x)) (inner x);
  uo_pool : pp_ok (reservation x);
  uo_sum : pp_free (reservation x) + Z.of_nat (size (stages x)) <= 1;
}.

Lemma rwlock_ok_elsewhere n k k' (i : RwLock P T) : k' = k → rwlock_ok n k i → rwlock_ok n k' i.
Proof. by intros ->. Qed.

Lemma stage_sum t st st' x :
  stages x !! t = Some st →
  map_sum stage_permits (<[t:=st']> (stages x)) =
    map_sum stage_permits (stages x) - stage_permits st + stage_permits st' ∧
  size (<[t:=st']> (stages x)) = size (stages x).
Proof. intros Ht. rewrite (map_sum_update _ _ _ _ _ Ht), map_size_insert_Some by eauto. done. Qed.

(** A guard takes over data permits already out. *)
Lemma add_guard_ok n k k' p' g d (i : RwLock P T) :
  rwlock_ok n k i → guards i !! g = None → pp_ok p' → pp_free p' + held d + k' <= pp_free (s i) + k →
  access d = ReadAccess ∨ access d = WriteAccess n →
  rwlock_ok n k' (add_guard g d (mkRwLock (max_readers i) p' (c i) (guards i))).
Proof.
  intros [Hm Hp Hs Hg] Hn Hp' Hk Hd. split; simpl; try done.
  - rewrite map_sum_insert by done. lia.
  - intros h e. rewrite lookup_insert. case_decide; intros; simplify_eq; eauto.
Qed.

Lemma pool_moves_ok n k k' p' (i : RwLock P T) :
  rwlock_ok n k i → pp_ok p' → pp_free p' + k' <= pp_free (s i) + k →
  rwlock_ok n k' (mkRwLock (max_readers i) p' (c i) (guards i)).
Proof. intros [Hm Hp Hs Hg] Hp' Hk. split; simpl; try done. lia. Qed.

Lemma upgradable_step_ok n x x' : 0 < n → upgradable_ok n x → upgradable_step x x' → upgradable_ok n x'.
Proof.
  intros Hn [Hi Hr Hs] Hx. pose proof (ro_max _ _ _ Hi) as Hm. pose proof (ro_pool _ _ _ Hi) as Hp.
  destruct Hx as [t x x' (Ht & r' & Hk & ->)|t g x x' (Ht & i' & Hw & ->)|t x x' (Ht & p' & Hk & ->)
    |t g x x' (Ht & Hg & p' & Hk & ->)|t g x x' (Ht & Hg & ->)|t x x' (Ht & p' & Hk & ->)
    |t x x' (Ht & r' & Hk & ->)|x x' (i' & Hst & _ & ->)|x r' Hk].
  - destruct (pp_take_spec _ _ _ Hr Hk) as [Hr' Hf]. split; simpl; try done.
    + rewrite map_sum_insert by done. eapply rwlock_ok_elsewhere; [|done]. simpl. lia.
    + rewrite map_size_insert_None by done. lia.
  - destruct (stage_sum t _ Leaving x Ht) as [Hsum Hsize]. split; simpl; try done; [|by rewrite Hsize].
    rewrite Hsum. simpl. rewrite Z.sub_0_r, Z.add_0_r. eapply rwlock_step_ok; [done|done|by eapply step_write].
  - destruct (stage_sum t _ Upgradable x Ht) as [Hsum Hsize]. split; simpl; try done; [|by rewrite Hsize].
    destruct (pp_take_spec _ _ _ Hp Hk) as [Hp' Hf]. rewrite Hsum. simpl.
    eapply pool_moves_ok; [done|done|lia].
  - destruct (stage_sum t _ Leaving x Ht) as [Hsum Hsize]. split; simpl; try done; [|by rewrite Hsize].
    destruct (pp_take_spec _ _ _ Hp Hk) as [Hp' Hf]. rewrite Hsum.
    eapply add_guard_ok; [done|done|done| |right; simpl; by rewrite Hm]. unfold held. simpl. lia.
  - destruct (stage_sum t _ Leaving x Ht) as [Hsum Hsize]. split; simpl; try done; [|by rewrite Hsize].
    rewrite Hsum. apply (add_guard_ok n (map_sum stage_permits (stages x)) _ (s (inner x)) g _ (inner x));
      try done; [unfold held; simpl; lia|by left].
  - destruct (stage_sum t _ Leaving x Ht) as [Hsum Hsize]. split; simpl; try done; [|by rewrite Hsize].
    destruct (pp_give_spec _ _ _ Hp Hk) as [Hp' Hf]. rewrite Hsum. simpl.
    eapply pool_moves_ok; [done|done|lia].
  - destruct (pp_give_spec _ _ _ Hr Hk) as [Hr' Hf]. assert (∃ st, stages x !! t = Some st ∧ stage_permits st = 0)
      as (st & Hst & H0) by (destruct Ht as [Ht|Ht]; by eauto).
    pose proof (map_size_pos _ _ _ Hst). split; simpl; try done.
    + rewrite (map_sum_delete _ _ _ _ Hst), H0, Z.sub_0_r. done.
    + rewrite map_size_delete_Some by eauto. lia.
  - split; simpl; try done. by eapply rwlock_step_ok.
  - destruct (pp_internal_spec _ _ Hr Hk) as [Hr' Hf]. split; simpl; try done. lia.
Qed.

Lemma upgradable_reachable_ok r p v n x :
  0 < n → pp_ok r → pp_free r = 1 → pp_ok p → pp_free p = n →
  rtc upgradable_step (upgradable_with_max_readers r p v n) x → upgradable_ok n x.
Proof.
  intros Hn Hr Hr1 Hp Hpn. apply (rtc_ind_r (upgradable_ok n)).
  - split; simpl; try done; [|rewrite map_size_empty; lia]. split; simpl; try done.
    rewrite !map_sum_empty. lia.
  - intros y z _ Hyz Hy. by eapply upgradable_step_ok.
Qed.

(** In every reachable state at most one operation holds the reservation, so at most one
    upgradable guard exists and at most one operation, a writer or an upgrade, waits for more than
    one data permit: two upgrades cannot wait for each other. *)
Theorem upgradable_reservation_unique r p v n x t u :
  0 < n → pp_ok r → pp_free r = 1 → pp_ok p → pp_free p = n →
  rtc upgradable_step (upgradable_with_max_readers r p v n) x →
  is_Some (stages x !! t) → is_Some (stages x !! u) → t = u.
Proof.
  intros Hn Hr Hr1 Hp Hpn Hx [st Ht] [su Hu].
  destruct (upgradable_reachable_ok r p v n x Hn Hr Hr1 Hp Hpn Hx) as [_ Hr' Hs].
  pose proof (pp_nonneg _ Hr'). destruct (decide (t = u)) as [|Hne]; [done|]. exfalso.
  assert (delete t (stages x) !! u = Some su) as Hd by (by rewrite lookup_delete_ne).
  pose proof (map_size_pos _ _ _ Hd) as Hs'. pose proof (map_size_pos _ _ _ Ht) as Ht'.
  rewrite map_size_delete_Some in Hs' by eauto. lia.
Qed.

(** C19: a write guard of the upgradable lock, however obtained, excludes every other guard and
    every upgradable guard. *)
Theorem upgradable_writer_exclusive r p v n x g k b :
  0 < n → pp_ok r → pp_free r = 1 → pp_ok p → pp_free p = n →
  rtc upgradable_step (upgradable_with_max_readers r p v n) x →
  guards (inner x) !! g = Some (mkGuard (WriteAccess k) b) →
  (∀ h, is_Some (guards (inner x) !! h) → h = g) ∧ (∀ t, stages x !! t ≠ Some Upgradable).
Proof.
  intros Hn Hr Hr1 Hp Hpn Hx Hg.
  destruct (upgradable_reachable_ok r p v n x Hn Hr Hr1 Hp Hpn Hx) as [Hi Hr' Hs].
  assert (k = n) as ->. { destruct (ro_guards _ _ _ Hi g _ Hg) as [|Hk]; [done|]. by simplify_eq/=. }
  assert (0 <= map_sum stage_permits (stages x)) as Hst.
  { apply map_sum_nonneg. intros t [] _; simpl; lia. }
  split.
  - intros h [d Hh]. destruct (decide (h = g)) as [|Hne]; [done|]. exfalso.
    pose proof (two_guards _ _ _ h g d _ Hn Hi Hh Hg Hne) as Hsum. unfold held in Hsum. simpl in Hsum.
    destruct (ro_guards _ _ _ Hi h _ Hh) as [Hd|Hd]; rewrite Hd in Hsum; simpl in Hsum; lia.
  - intros t Ht. pose proof (map_sum_delete stage_permits _ _ _ Ht) as Hsum. simpl in Hsum.
    assert (0 <= map_sum stage_permits (delete t (stages x))).
    { apply map_sum_nonneg. intros u [] _; simpl; lia. }
    destruct Hi as [Hm Hpi Hsi Hgi]. pose proof (pp_nonneg _ Hpi).
    pose proof (map_sum_delete held _ _ _ Hg) as Hh. unfold held at 3 in Hh. simpl in Hh.
    assert (0 <= map_sum held (delete g (guards (inner x)))); [|lia]. apply map_sum_nonneg.
    intros h d [_ Hd]%lookup_delete_Some. unfold held. destruct (Hgi h d Hd) as [-> | ->]; simpl; lia.
Qed.
End upgradable.

(** Counter pools: an upgradable guard is taken and upgraded. *)
Definition up0 : UpgradableRwLock Z nat := upgradable_with_max_readers 1 3 5%nat 3.
Definition up1 : UpgradableRwLock Z nat := mkUpgradable 0 (with_max_readers 3 5%nat 3) {[0%nat := Reserved]}.
Definition up2 : UpgradableRwLock Z nat := mkUpgradable 0 (with_max_readers 2 5%nat 3) (<[0%nat:=Upgradable]> {[0%nat := Reserved]}).
Definition up3 : UpgradableRwLock Z nat :=
  mkUpgradable 0 (mkRwLock 3 0 5%nat {[7%nat := mkGuard (WriteAccess 3) false]})
    (<[0%nat:=Leaving]> (<[0%nat:=Upgradable]> {[0%nat := Reserved]})).

Lemma up3_reachable : rtc upgradable_step up0 up3.
Proof.
  apply (rtc_l _ _ up1). { apply (us_reserve 0). split; [done|]. exists 0. by split. }
  apply (rtc_l _ _ up2). { apply (us_read 0). split; [done|]. exists 2. by split. }
  apply rtc_once, (us_upgrade 0 7). split; [done|]. split; [done|]. exists 0. by split.
Qed.

Lemma upgradable_reservation_unique_witness : is_Some (stages up3 !! 0%nat) ∧ 0%nat = 0%nat.
Proof.
  split; [by eexists|].
  apply (upgradable_reservation_unique 1 3 5%nat 3 up3); [lia|done|done|done|done|apply up3_reachable|by eexists|by eexists].
Defined.

Lemma upgradable_writer_exclusive_witness :
  (∀ h, is_Some (guards (inner up3) !! h) → h = 7%nat) ∧ (∀ t, stages up3 !! t ≠ Some Upgradable).
Proof.
  apply (upgradable_writer_exclusive 1 3 5%nat 3 up3 7 3 false); [lia|done|done|done|done|apply up3_reachable|done].
Defined.
