(* ===== verification/EventAuto.v ===== *)
(** * The auto-reset event

    [asyncband/src/event/auto_reset.rs]: a stored signal or a queue of waits, never both.  A
    signal selects the oldest wait, which owns it until the wait completes or is dropped.  The
    theorems: signals are conserved over every schedule of operations, a signal goes to the oldest
    wait, and no operation panics. *)
From S2P Require Import Prelude Arena WaitQueue WaitList.

Inductive Waiter : Type :=
| Waiting (waker : Waker)
| Notified.

Definition waiting_waker (w : Waiter) : option Waker :=
  match w with Waiting waker => Some waker | Notified => None end.

Record State (W : Type → Type) : Type := mkState {
  is_set : bool;
  waiters : W Waiter;
}.
Arguments mkState {W}.
Arguments is_set {W}.
Arguments waiters {W}.

Section event.
Context {W : Type → Type} `{!WaitQueue W}.
Implicit Types (s : State W).

Definition set_is_set (b : bool) s : State W := mkState b (waiters s).
Definition set_waiters (w : W Waiter) s : State W := mkState (is_set s) w.
Definition in_waiters {A : Type} (m : M (W Waiter) A) : M (State W) A := zoom waiters set_waiters m.

Definition with_state (b : bool) : State W := mkState b wq_new.
Definition new : State W := with_state false.

(** [State::signal]. *)
Definition signal : M (State W) (option Waker) :=
  r ← in_waiters (notify_first waiting_waker Notified "only unselected waits remain queued");
  match r with
  | Some waker => mret (Some waker)
  | None => modify (set_is_set true);; mret None
  end.

Definition set : M (State W) (option Waker) := signal.
Definition reset : M (State W) unit := modify (set_is_set false).

(** [mem::take] of the flag. *)
Definition try_wait : M (State W) bool :=
  b ← gets is_set; modify (set_is_set false);; mret b.

(** [poll_wait]: the waiter the future holds afterwards and the answer. *)
Definition poll_wait (waiter_id : option WaiterId) (cx : Waker)
    : M (State W) (option WaiterId * Poll unit) :=
  match waiter_id with
  | Some id =>
      w ← in_waiters (wq_waiter id);
      match w with
      | Notified => in_waiters (wq_remove id);; mret (None, Ready tt)
      | Waiting waker =>
          (if will_wake waker cx then mret tt else in_waiters (wq_set_waiter id (Waiting cx)));;
          mret (waiter_id, Pending)
      end
  | None =>
      s ← get;
      if is_set s then put (set_is_set false s);; mret (None, Ready tt)
      else id ← in_waiters (wq_push_back (Waiting cx)); mret (Some id, Pending)
  end.

Definition unregister_waiter (id : WaiterId) : M (State W) (option Waker) :=
  waiter ← in_waiters (remove_waiter id);
  match waiter with
  | Notified => signal
  | Waiting _ => mret None
  end.

(** [Wait::drop]. *)
Definition wait_drop (waiter : option WaiterId) : M (State W) (option Waker) :=
  match waiter with
  | Some id => unregister_waiter id
  | None => mret None
  end.
End event.

#[export] Hint Unfold in_waiters : band_zoom.

(** ** Invariant *)
Section invariant.
Context {W : Type → Type} `{!WaitQueue W}.
Implicit Types (s : State W) (futs : futures) (g : Z).

(** [g] signals are held: the stored one and those of the selected waits.  A stored signal and
    queued waits never coexist. *)
Definition event_ok futs g s : Prop :=
  ∃ q m, wq_rep (waiters s) q m ∧ waiters_ok waiting_waker futs q m ∧
    (is_set s = true → q = []) ∧ Z.b2z (is_set s) + detached_count q m = g.

Lemma event_ok_empty_flag futs g s :
  event_ok futs g s → event_ok futs (g - Z.b2z (is_set s)) (set_is_set false s).
Proof. intros (q & m & Hrep & Hok & Hq & Hg). exists q, m. split_and!; try done. simpl. lia. Qed.

(** A signal is stored, or selects the oldest wait; it is absorbed by one already stored. *)
Lemma signal_spec futs g s :
  event_ok futs g s →
  wp signal s (λ _ s', event_ok futs (g + 1 - Z.b2z (is_set s)) s').
Proof.
  intros (q & m & Hrep & Hok & Hq & Hg). unfold signal. wp_auto.
  wp_apply notify_first_spec; [done..|]. intros r w Hr. destruct q as [|id q].
  - destruct Hr as [-> ->]. wp_auto. exists [], m. split_and!; try done. simpl. lia.
  - destruct Hr as (Hs & -> & [wk Hwk] & Hrep' & Hok' & _). rewrite Hwk. wp_auto.
    destruct (is_set s) eqn:Hset; [naive_solver|]. exists q, (<[id:=Notified]> m). simpl. rewrite Hset.
    split_and!; try done. rewrite detached_notify by done. simpl in *. lia.
Qed.

Lemma poll_wait_spec futs g s f waiter cx :
  event_ok futs g s → futs !! f = Some waiter → wq_room (waiters s) →
  wp (poll_wait waiter cx) s (λ r s',
    event_ok (<[f:=r.1]> futs) (g - (match r.2 with Ready _ => 1 | Pending => 0 end)) s' ∧
    match r.2 with Ready _ => r.1 = None | Pending => is_Some r.1 end).
Proof.
  intros (q & m & Hrep & Hok & Hq & Hg) Hf Hroom. unfold poll_wait. destruct waiter as [id|]; wp_auto.
  - destruct (waiters_ok_owner _ _ _ _ _ _ Hok Hf) as [v Hv].
    wp_apply wq_waiter_spec; [done..|]. intros v' w' [-> ->]. destruct v as [waker|]; wp_auto.
    + assert (id ∈ q) as Hin by (eapply wo_waiting; [done..|by eexists]).
      unfold will_wake. case_bool_decide; wp_auto.
      * simpl. rewrite insert_id, Z.sub_0_r by done. split; [|by eauto]. exists q, m. by split_and!.
      * wp_apply wq_set_waiter_spec; [done|by eauto|]. intros _ n [Hrep' _]. wp_auto. simpl.
        rewrite insert_id, Z.sub_0_r by done. split; [|by eauto].
        exists q, (<[id:=Waiting cx]> m). split_and!; try done; [apply waiters_ok_refresh; eauto|].
        rewrite detached_update by eauto. done.
    + assert (id ∉ q) as Hni.
      { intros Hin. by destruct (proj1 (wo_waiting _ _ _ _ Hok _ _ Hv) Hin). }
      wp_apply wq_remove_spec; [done..|]. intros v' n (-> & Hrep' & _). wp_auto.
      pose proof (waiters_ok_remove _ _ _ _ _ _ Hok Hf) as Hok'. rewrite filter_neq_id in Hok' by done.
      pose proof (detached_remove q m id _ (wq_rep_nodup _ _ _ Hrep) Hv) as Hd.
      rewrite filter_neq_id, decide_False in Hd by done.
      split; [|done]. exists q, (delete id m). split_and!; try done. simpl. lia.
  - destruct (is_set s) eqn:Hset; rewrite ?Hset in Hg; wp_auto; simpl.
    + rewrite insert_id by done. split; [|done]. exists q, m. split_and!; try done. simpl in *. lia.
    + wp_apply wq_push_back_spec; [done..|]. intros id n [Hn Hrep']. wp_auto. simpl. rewrite Z.sub_0_r.
      split; [|by eauto]. exists (q ++ [id]), (<[id:=Waiting cx]> m). simpl. rewrite Hset.
      split_and!; try done; [|by rewrite detached_register].
      apply waiters_ok_register; try done. intros Hin.
      destruct (wq_rep_linked _ _ _ _ Hrep Hin). congruence.
Qed.

(** The signal of a selected wait that is dropped is passed on, or stored. *)
Lemma auto_wait_drop_spec futs g s f waiter :
  event_ok futs g s → futs !! f = Some waiter →
  wp (wait_drop waiter) s (λ _ s', ∃ lost, event_ok (delete f futs) (g - lost) s' ∧
    0 <= lost <= Z.b2z (is_set s)).
Proof.
  intros (q & m & Hrep & Hok & Hq & Hg) Hf. unfold wait_drop. destruct waiter as [id|].
  - unfold unregister_waiter. wp_auto. destruct (waiters_ok_owner _ _ _ _ _ _ Hok Hf) as [v Hv].
    pose proof (detached_remove q m id v (wq_rep_nodup _ _ _ Hrep) Hv) as Hd.
    pose proof (waiters_ok_remove _ _ _ _ _ _ Hok Hf) as Hok'.
    apply (waiters_ok_drop _ _ _ _ f) in Hok'; [|apply lookup_insert_eq].
    rewrite delete_insert_eq in Hok'. assert (is_set s = true → without id q = []) as Hne.
    { intros Hs. by rewrite (Hq Hs). }
    wp_apply remove_waiter_spec; [done..|]. intros v' n (-> & Hrep' & _). destruct v as [waker|]; wp_auto.
    + exists 0. split; [|destruct (is_set s); simpl; lia].
      exists (without id q), (delete id m). split_and!; try done. simpl. rewrite Hd, decide_True; [lia|].
      eapply wo_waiting; [done..|by eexists].
    + rewrite decide_False in Hd by (intros Hin; by destruct (proj1 (wo_waiting _ _ _ _ Hok _ _ Hv) Hin)).
      wp_apply (signal_spec (delete f futs) (g - 1)).
      { exists (without id q), (delete id m). split_and!; try done. simpl. lia. }
      intros r s' Hs'. exists (Z.b2z (is_set s)). simpl in Hs'.
      split; [|destruct (is_set s); simpl; lia]. by replace (g - _) with (g - 1 + 1 - Z.b2z (is_set s)) by lia.
  - wp_auto. exists 0. split; [|destruct (is_set s); simpl; lia]. exists q, m.
    split_and!; try done; [by apply waiters_ok_drop|lia].
Qed.
End invariant.

(** ** The system: an event and the waits on it *)

Record Sys (W : Type → Type) : Type := mkSys {
  st : State W;
  waits : futures;
}.
Arguments mkSys {W}.
Arguments st {W}.
Arguments waits {W}.

Inductive Label : Type :=
| Set_
| Reset_
| TryWait
| WaitNew (f : nat)
| WaitPoll (f : nat) (cx : Waker)
| WaitDrop (f : nat).

(** What a step shows: the signals raised, the waits completed, a bound on the signals that may
    merge with the stored one (or are reset), and the tasks woken. *)
Record Obs : Type := mkObs {
  raised : Z;
  completed : Z;
  merged : Z;
  woken : list Waker;
}.

Section system.
Context {W : Type → Type} `{!WaitQueue W}.
Implicit Types (x : Sys W) (l : Label).

Definition set_st (s : State W) x : Sys W := mkSys s (waits x).
Definition set_waits (g : futures) x : Sys W := mkSys (st x) g.
Definition on_st {A : Type} (m : M (State W) A) : M (Sys W) A := zoom st set_st m.

Definition enabled l x : bool :=
  match l with
  | Set_ | Reset_ | TryWait => true
  | WaitNew f => bool_decide (waits x !! f = None)
  | WaitPoll f _ => bool_decide (is_Some (waits x !! f)) && bool_decide (wq_room (waiters (st x)))
  | WaitDrop f => bool_decide (is_Some (waits x !! f))
  end.

Definition wakes (o : option Waker) : list Waker := match o with Some w => [w] | None => [] end.

Definition exec l : M (Sys W) Obs :=
  x ← get;
  let stored := Z.b2z (is_set (st x)) in
  match l with
  | Set_ => r ← on_st set; mret (mkObs 1 0 stored (wakes r))
  | Reset_ => on_st reset;; mret (mkObs 0 0 stored [])
  | TryWait => b ← on_st try_wait; mret (mkObs 0 (Z.b2z b) 0 [])
  | WaitNew f => modify (set_waits (<[f:=None]> (waits x)));; mret (mkObs 0 0 0 [])
  | WaitPoll f cx =>
      waiter ← expect (waits x !! f) "no such future";
      '(waiter, r) ← on_st (poll_wait waiter cx);
      modify (set_waits (<[f:=waiter]> (waits x)));;
      mret (mkObs 0 (match r with Ready _ => 1 | Pending => 0 end) 0 [])
  | WaitDrop f =>
      waiter ← expect (waits x !! f) "no such future";
      r ← on_st (wait_drop waiter);
      modify (set_waits (delete f (waits x)));;
      mret (mkObs 0 0 stored (wakes r))
  end.

Definition init (b : bool) : Sys W := mkSys (with_state b) ∅.

Definition sys_ok (g : Z) x : Prop := event_ok (waits x) g (st x).

Lemma auto_init_ok b : sys_ok (Z.b2z b) (init b).
Proof.
  exists [], ∅. split_and!; try done; [apply wq_new_rep|apply waiters_ok_empty|].
  unfold detached_count. rewrite map_size_empty. simpl. lia.
Qed.
End system.

#[export] Hint Unfold on_st : band_zoom.

Section preservation.
Context {W : Type → Type} `{!WaitQueue W}.
Implicit Types (x : Sys W) (l : Label).

(** Signals move only as the step shows. *)
Lemma auto_exec_ok g l x :
  sys_ok g x → enabled l x = true →
  wp (exec l) x (λ o x', ∃ lost, sys_ok (g + raised o - completed o - lost) x' ∧ 0 <= lost <= merged o).
Proof.
  intros Hx He. unfold exec. wp_auto. destruct x as [s ws]; unfold sys_ok in *; simpl in *.
  assert (0 <= Z.b2z (is_set s)) as Hb by (destruct (is_set s); simpl; lia).
  destruct l as [| | |f|f cx|f]; wp_auto; simpl.
  - unfold set. wp_apply signal_spec; [done|]. intros r s' Hs'. wp_auto. simpl.
    exists (Z.b2z (is_set s)). split; [|simpl; lia]. simpl. by rewrite Z.sub_0_r.
  - exists (Z.b2z (is_set s)). split; [|simpl; lia]. simpl. rewrite Z.add_0_r, Z.sub_0_r. by apply event_ok_empty_flag.
  - unfold try_wait. wp_auto. simpl. exists 0. split; [|simpl; lia]. simpl. rewrite Z.add_0_r, Z.sub_0_r.
    by apply event_ok_empty_flag.
  - apply bool_decide_eq_true in He. exists 0. split; [|simpl; lia]. simpl. rewrite Z.add_0_r, !Z.sub_0_r.
    destruct Hx as (q & m & Hrep & Hok & Hq & Hg). exists q, m. split_and!; try done.
    by apply waiters_ok_new.
  - apply enabled_and in He as [[w Hf] Hroom]. eapply wp_expect; [done|]. wp_auto.
    wp_apply poll_wait_spec; [done..|]. intros [w' r] s' [Hs' _]. wp_auto. exists 0.
    split; [|simpl; lia]. simpl in *. rewrite Z.add_0_r, Z.sub_0_r. done.
  - apply bool_decide_eq_true in He as [w Hf]. eapply wp_expect; [done|]. wp_auto.
    wp_apply auto_wait_drop_spec; [done..|]. intros r s' (lost & Hs' & Hl). wp_auto. exists lost.
    split; [|done]. simpl. by rewrite Z.add_0_r, Z.sub_0_r.
Qed.

Definition total (f : Obs → Z) (tr : list (Label * Obs)) : Z := foldr Z.add 0 (f <$> tr.*2).

Lemma total_app f tr l o : total f (tr ++ [(l, o)]) = total f tr + f o.
Proof.
  unfold total. rewrite !fmap_app. simpl. induction (f <$> tr.*2) as [|z zs IH]; simpl in *; lia.
Qed.

(** The signals held after a run, up to those merged. *)
Definition trace_ok b (tr : list (Label * Obs)) x : Prop :=
  ∃ lost, sys_ok (Z.b2z b + total raised tr - total completed tr - lost) x ∧
    0 <= lost <= total merged tr.

Lemma run_ok b ls tr x : returns (run enabled exec ls) (init b) tr x → trace_ok b tr x.
Proof.
  intros Hr. change tr with ([] ++ tr).
  eapply (run_trace_invariant enabled exec (trace_ok b)); [| |done].
  - intros tr' s l (lost & Hs & Hl) He. wp_apply auto_exec_ok; [done..|].
    intros o s' (lost' & Hs' & Hl'). exists (lost + lost'). rewrite !total_app. split; [|lia].
    by replace (_ - (lost + lost')) with
      (Z.b2z b + total raised tr' - total completed tr' - lost + raised o - completed o - lost') by lia.
  - exists 0. unfold total. simpl. split; [|lia]. rewrite Z.add_0_r, !Z.sub_0_r. apply auto_init_ok.
Qed.

(** C37: signals of an auto-reset event are conserved over every run.  The stored signal, the
    signals owned by selected waits and the waits already completed account for every signal
    raised, except those raised, dropped or reset while one was stored; so no wait completes without a
    signal.  A stored signal and queued waits never coexist.  No operation panics. *)
Theorem auto_signals_conserved b ls tr (x : Sys W) :
  returns (run enabled exec ls) (init b) tr x →
  no_panic enabled exec x ∧ ∃ q m, wq_rep (waiters (st x)) q m ∧ waiters_ok waiting_waker (waits x) q m ∧
    (is_set (st x) = true → q = []) ∧
    Z.b2z b + total raised tr - total merged tr <=
      Z.b2z (is_set (st x)) + detached_count q m + total completed tr <= Z.b2z b + total raised tr.
Proof.
  intros (lost & Hx & Hl)%run_ok. split; [apply (no_panic_wp _ _ _ _ (λ l, auto_exec_ok _ l x Hx))|]. destruct Hx as (q & m & Hrep & Hok & Hq & Hg). exists q, m. split_and!; try done; lia.
Qed.

(** [set] hands the signal to the oldest queued wait and to no other: it wakes exactly the
    task of the head of the queue, whose wait then completes at its next poll even after a reset,
    while an event without queued waits stores the signal. *)
Theorem auto_set_selects_oldest (x : Sys W) f id q m cx :
  wq_rep (waiters (st x)) (id :: q) m → waiters_ok waiting_waker (waits x) (id :: q) m →
  waits x !! f = Some (Some id) → wq_room (waiters (st x)) →
  ∃ wk tr' x', m !! id = Some (Waiting wk) ∧
    returns (run enabled exec [Set_; Reset_; WaitPoll f cx]) x tr' x' ∧
    woken <$> tr'.*2 = [[wk]; []; []] ∧ completed <$> tr'.*2 = [0; 0; 1] ∧
    wq_rep (waiters (st x')) q (delete id m) ∧ waits x' !! f = Some None.
Proof.
  intros Hrep Hok Hf Hroom. destruct x as [s ws]; simpl in *.
  cut (wp (run enabled exec [Set_; Reset_; WaitPoll f cx]) (mkSys s ws) (λ tr' x', ∃ wk,
    m !! id = Some (Waiting wk) ∧ woken <$> tr'.*2 = [[wk]; []; []] ∧ completed <$> tr'.*2 = [0; 0; 1] ∧
    wq_rep (waiters (st x')) q (delete id m) ∧ waits x' !! f = Some None)).
  { intros (tr' & x' & Hx & wk & H)%wp_returns. by exists wk, tr', x'; naive_solver. }
  apply wp_run_cons; [done|]. unfold exec, set, signal. wp_auto.
  wp_apply notify_first_spec; [done..|]. intros r w (Hs & -> & [wk Hwk] & Hrep' & Hok' & Hroom').
  rewrite Hwk. wp_auto. apply wp_run_cons; [done|]. unfold exec, reset. wp_auto. apply wp_run_cons.
  { simpl. rewrite Hf. rewrite !bool_decide_true; [done|by auto|by eauto]. }
  unfold exec. wp_auto. eapply wp_expect; [done|]. unfold poll_wait. wp_auto.
  wp_apply wq_waiter_spec; [done|apply lookup_insert_eq|]. intros v w' [-> ->]. wp_auto.
  wp_apply wq_remove_spec; [done|apply lookup_insert_eq| |].
  { apply wq_rep_nodup in Hrep. by apply NoDup_cons in Hrep as [? _]. }
  intros v w' (-> & Hrep'' & _). wp_auto. apply wp_run_nil. simpl. exists wk.
  rewrite delete_insert_eq in Hrep''. rewrite lookup_insert_eq. split_and!; try done.
  unfold waker_at in Hwk. destruct (m !! id) as [[]|]; simplify_eq/=; done.
Qed.
End preservation.

(** Two waits queue up, one signal selects the first, which is dropped; a second signal. *)
Definition sample_run : list Label :=
  [WaitNew 0; WaitNew 1; WaitPoll 0 10%nat; WaitPoll 1 11%nat; Set_; WaitDrop 0; Set_; Set_; WaitPoll 1 11%nat].

Lemma auto_signals_conserved_witness :
  ∃ tr (x : Sys WaitList), returns (run enabled exec sample_run) (init false) tr x ∧
    ∃ q m, wq_rep (waiters (st x)) q m ∧ waiters_ok waiting_waker (waits x) q m ∧
      (is_set (st x) = true → q = []) ∧
      Z.b2z false + total raised tr - total merged tr <=
        Z.b2z (is_set (st x)) + detached_count q m + total completed tr <= Z.b2z false + total raised tr.
Proof.
  eexists _, _. split; [vm_compute; reflexivity|].
  eapply (auto_signals_conserved false sample_run). vm_compute; reflexivity.
Defined.

Definition two_waits : Sys WaitList :=
  mkSys (mkState false (two_waiters (Waiting 10%nat) (Waiting 11%nat)))
    {[0%nat := Some 1%positive; 1%nat := Some 2%positive]}.

Lemma auto_set_selects_oldest_witness :
  ∃ m wk tr' x', m !! 1%positive = Some (Waiting wk) ∧
    returns (run enabled exec [Set_; Reset_; WaitPoll 0 5%nat]) two_waits tr' x' ∧
    woken <$> tr'.*2 = [[wk]; []; []] ∧ completed <$> tr'.*2 = [0; 0; 1] ∧
    wq_rep (waiters (st x')) [2%positive] (delete 1%positive m) ∧ waits x' !! 0%nat = Some None.
Proof.
  eexists. eapply (auto_set_selects_oldest two_waits).
  - apply two_waiters_rep.
  - by apply two_waiters_ok.
  - reflexivity.
  - apply two_waiters_rep.
Defined.
