(* ===== verification/EventManual.v ===== *)
(** * The manual-reset event

    [asyncband/src/event/manual_reset.rs]: a flag and the waits queued while it is unset.  [set]
    releases the complete cohort of queued waits, which a later [reset] does not take back.  The
    flag is read outside the lock by the fast path of a poll, so that a poll is two steps of the
    system below: the probe and the locked section. *)
From S2P Require Import Prelude Arena WakerBatch WaitQueue WaitList.

Record Waiter : Type := mkWaiter {
  notified : bool;
  waker : option Waker;
}.

(** The waker of a wait that is not released. *)
Definition held_waker (w : Waiter) : option Waker := if notified w then None else waker w.

Record State (W : Type → Type) : Type := mkState {
  is_set : bool;
  waiters : W Waiter;
}.
Arguments mkState {W}.
Arguments is_set {W}.
Arguments waiters {W}.

Section event.
Context {W : Type → Type} `{!WaitQueue W}.
Implicit Types (s : State W).

Definition set_is_set (b : bool) s : State W := mkState b (waiters s).
Definition set_waiters (w : W Waiter) s : State W := mkState (is_set s) w.
Definition in_waiters {A : Type} (m : M (W Waiter) A) : M (State W) A := zoom waiters set_waiters m.

Definition with_state (b : bool) : State W := mkState b wq_new.
Definition new : State W := with_state false.

(** One iteration of the loop of [set]: detaches the first wait and takes its waker. *)
Definition release_first : M (W Waiter) (option (option Waker)) :=
  '(r, _) ← wq_unlink_first (λ e w, (true, mkWaiter true (waker w), e)) tt;
  match r with
  | None => mret None
  | Some (id, w) =>
      match waker w with
      | Some wk => wq_set_waiter id (mkWaiter (notified w) None);; mret (Some (Some wk))
      | None => mret (Some None)
      end
  end.

(** [set]: the wakers are pushed to a batch and woken once the lock is released. *)
Definition set : M (State W) (list Waker) :=
  s ← get;
  if is_set s then mret []
  else
    put (set_is_set true s);;
    ws ← in_waiters (while_some (S (wq_len (waiters s))) release_first);
    run_local batch_new (push_iter (omap id ws);; wake_all).

Definition reset : M (State W) unit := modify (set_is_set false).

Definition try_wait s : bool := is_set s.

(** The unlocked fast path of [poll_wait]. *)
Definition poll_probe (waiter_id : option WaiterId) s : bool :=
  bool_decide (waiter_id = None) && is_set s.

(** The locked section of [poll_wait]. *)
Definition poll_locked (waiter_id : option WaiterId) (cx : Waker)
    : M (State W) (option WaiterId * Poll unit) :=
  s ← get;
  match waiter_id with
  | Some id =>
      w ← in_waiters (wq_waiter id);
      if notified w then in_waiters (wq_remove id);; mret (None, Ready tt)
      else
        assert_true (negb (is_set s)) "a linked waiter must belong to an unset event";;
        w ← in_waiters (wq_waiter id);
        let (slot, _) := register_waker (waker w) cx in
        in_waiters (wq_set_waiter id (mkWaiter (notified w) slot));;
        mret (waiter_id, Pending)
  | None =>
      if is_set s then mret (None, Ready tt)
      else id ← in_waiters (wq_push_back (mkWaiter false (Some cx))); mret (Some id, Pending)
  end.

(** [poll_wait], undisturbed between the probe and the lock. *)
Definition poll_wait (waiter_id : option WaiterId) (cx : Waker)
    : M (State W) (option WaiterId * Poll unit) :=
  s ← get;
  if poll_probe waiter_id s then mret (waiter_id, Ready tt) else poll_locked waiter_id cx.

Definition unregister_waiter (id : WaiterId) : M (State W) unit :=
  in_waiters (remove_waiter id);; mret tt.

(** [Wait::drop]. *)
Definition wait_drop (waiter : option WaiterId) : M (State W) unit :=
  match waiter with
  | Some id => unregister_waiter id
  | None => mret tt
  end.
End event.

#[export] Hint Unfold in_waiters : band_zoom.

(** ** Invariant *)
Section invariant.
Context {W : Type → Type} `{!WaitQueue W}.
Implicit Types (s : State W) (futs : futures) (q : list WaiterId) (m : gmap WaiterId Waiter).

(** Queued waits belong to an unset event; exactly the detached waits are released. *)
Record event_ok futs q m s : Prop := {
  eo_rep : wq_rep (waiters s) q m;
  eo_waiters : waiters_ok held_waker futs q m;
  eo_unset : is_set s = true → q = [];
  eo_released : ∀ id v, m !! id = Some v → (notified v = false ↔ id ∈ q);
}.

(** The waiters other than [waiter] are untouched. *)
Definition others_kept (waiter : option WaiterId) m m' : Prop :=
  ∀ id v, waiter ≠ Some id → m !! id = Some v → m' !! id = Some v.

Lemma release_all_spec (w : W Waiter) futs q m fuel :
  wq_rep w q m → waiters_ok held_waker futs q m →
  (∀ id v, m !! id = Some v → (notified v = false ↔ id ∈ q)) → (length q < fuel)%nat →
  wp (while_some fuel release_first) w (λ ws w', ∃ m',
    wq_rep w' [] m' ∧ waiters_ok held_waker futs [] m' ∧ dom m' = dom m ∧
    (∀ id v, m' !! id = Some v → notified v = true) ∧
    ws = waker_at held_waker m <$> q).
Proof.
  revert w q m. induction fuel as [|fuel IH]; intros w q m Hrep Hok Hn Hlt; [lia|].
  simpl. wp_auto. unfold release_first. wp_auto. destruct q as [|i q].
  { wp_apply wq_unlink_first_nil; [done|]. intros r w' [-> ->]. wp_auto. exists m. split_and!; try done.
    intros id v Hv. destruct (notified v) eqn:E; [done|]. by apply (Hn id v Hv) in E as ?%not_elem_of_nil. }
  destruct (wq_rep_linked _ _ _ i Hrep) as [v Hv]; [set_solver|].
  destruct (proj1 (wo_waiting _ _ _ _ Hok i v Hv)) as [wk Hwk]; [set_solver|].
  unfold held_waker in Hwk. destruct (notified v) eqn:Hnv; [done|].
  wp_apply wq_unlink_first_cons; [done..|]. intros r w' (-> & Hrep' & _). wp_auto. simpl. rewrite Hwk.
  wp_auto. wp_apply wq_set_waiter_spec; [done|rewrite lookup_insert_eq; by eauto|].
  intros _ w'' [Hrep'' _]. wp_auto. rewrite insert_insert_eq in Hrep''.
  pose proof (wq_rep_nodup _ _ _ Hrep) as Hnd. pose proof Hnd as [Hni _]%NoDup_cons.
  wp_apply (IH w'' q); [done|eapply waiters_ok_notify; eauto| |simpl in Hlt; lia|].
  { intros id u. rewrite lookup_insert. case_decide as Hid; intros Hu; simplify_eq/=; [done|].
    rewrite (Hn id u Hu). set_solver. }
  intros ws w3 (m' & Hrep3 & Hok3 & Hdom & Hall & ->). wp_auto. exists m'. split_and!; try done.
  - rewrite Hdom, dom_insert_L. apply elem_of_dom_2 in Hv. set_solver.
  - csimpl. f_equal.
    + unfold waker_at, held_waker. rewrite Hv. simpl. by rewrite Hnv.
    + apply list_fmap_ext. intros k j Hj. unfold waker_at. rewrite lookup_insert_ne; [done|].
      intros ->. apply Hni. by eapply list_elem_of_lookup_2.
Qed.

(** [set] leaves every wait released, and wakes the queued ones, oldest first. *)
Lemma set_spec futs q m s :
  event_ok futs q m s →
  wp set s (λ ws s', is_set s' = true ∧ Some <$> ws = waker_at held_waker m <$> q ∧
    ∃ m', event_ok futs [] m' s' ∧ dom m' = dom m ∧ ∀ id v, m' !! id = Some v → notified v = true).
Proof.
  intros [Hrep Hok Hun Hrel]. unfold set. wp_auto. destruct (is_set s) eqn:Hs; wp_auto.
  { rewrite (Hun eq_refl) in *. split_and!; try done. exists m. split_and!; try done.
    intros id v Hv. destruct (notified v) eqn:E; [done|]. by apply (Hrel id v Hv) in E as ?%not_elem_of_nil. }
  wp_apply release_all_spec; [done..| |].
  { rewrite (wq_len_spec _ _ _ Hrep). pose proof (rep_length_le _ _ _ Hrep). lia. }
  intros ws w' (m' & Hrep' & Hok' & Hdom & Hall & ->). wp_auto. apply wp_run_local. wp_auto.
  wp_apply push_iter_spec; [apply batch_new_rep|]. simpl. intros _ b Hb.
  wp_apply wake_all_spec; [done|]. intros us b' [-> _]. split_and!; [done| |].
  - apply omap_id_somes. intros o (id & -> & Hid)%list_elem_of_fmap.
    destruct (wq_rep_linked _ _ _ id Hrep Hid) as [v Hv].
    unfold waker_at. rewrite Hv. simpl. by apply (wo_waiting _ _ _ _ Hok id v Hv).
  - exists m'. split_and!; try done. split; try done. intros id v Hv. rewrite (Hall id v Hv).
    split; [done|]. by intros ?%not_elem_of_nil.
Qed.

(** The locked section of a poll: a released wait completes, any other stays queued. *)
Lemma poll_locked_spec futs q m s f waiter cx :
  event_ok futs q m s → futs !! f = Some waiter → wq_room (waiters s) →
  wp (poll_locked waiter cx) s (λ r s', is_set s' = is_set s ∧
    (match waiter with
     | Some id => ∃ v, m !! id = Some v ∧ r.2 = (if notified v then Ready tt else Pending)
     | None => r.2 = if is_set s then Ready tt else Pending
     end) ∧
    ∃ q' m', event_ok (<[f:=r.1]> futs) q' m' s' ∧ others_kept waiter m m' ∧
      match waiter with
      | Some id => ∀ v, m' !! id = Some v → notified v = false
      | None => True
      end).
Proof.
  intros [Hrep Hok Hun Hrel] Hf Hroom. unfold poll_locked. wp_auto. destruct waiter as [id|]; wp_auto.
  - destruct (waiters_ok_owner _ _ _ _ _ _ Hok Hf) as [v Hv].
    wp_apply wq_waiter_spec; [done..|]. intros v' w' [-> ->]. destruct (notified v) eqn:Hn; wp_auto.
    + assert (id ∉ q) as Hni by (intros Hin; apply (Hrel id v Hv) in Hin; congruence).
      wp_apply wq_remove_spec; [done..|]. intros v' n (-> & Hrep' & _). wp_auto. simpl.
      pose proof (waiters_ok_remove _ _ _ _ _ _ Hok Hf) as Hok'. rewrite filter_neq_id in Hok' by done.
      split_and!; [done|exists v; by rewrite Hn|]. exists q, (delete id m). split_and!.
      * split; simpl; try done. intros i u. rewrite lookup_delete. case_decide; [done|]. apply Hrel.
      * intros i u Hne Hu. rewrite lookup_delete_ne; [done|]. by intros ->.
      * intros u. by rewrite lookup_delete_eq.
    + assert (id ∈ q) as Hin by by apply (Hrel id v Hv).
      apply wp_assert. { destruct (is_set s) eqn:Hs; [|done]. specialize (Hun eq_refl). subst q. set_solver. }
      wp_auto. wp_apply wq_waiter_spec; [done..|]. intros v' w' [-> ->].
      pose proof (register_waker_some (waker v) cx) as Hsl.
      destruct (register_waker (waker v) cx) as [slot old]. wp_auto.
      wp_apply wq_set_waiter_spec; [done|by eauto|]. intros _ n [Hrep' _]. wp_auto. simpl.
      rewrite insert_id by done. split_and!; [done|exists v; by rewrite Hn|].
      exists q, (<[id:=mkWaiter (notified v) slot]> m). rewrite Hn in *. split_and!.
      * split; simpl; try done; [apply waiters_ok_refresh; eauto|]. intros i u. rewrite lookup_insert.
        case_decide; intros; simplify_eq/=; [done|by apply Hrel].
      * intros i u Hne Hu. rewrite lookup_insert_ne; [done|]. by intros ->.
      * intros u. rewrite lookup_insert_eq. by intros [= <-].
  - destruct (is_set s) eqn:Hs; wp_auto; simpl.
    + rewrite insert_id by done. split_and!; try done. exists q, m. split_and!; [|by intros ??|done].
      split; try done. by rewrite Hs.
    + wp_apply wq_push_back_spec; [done..|]. intros id n [Hn Hrep']. wp_auto. simpl.
      split_and!; try done. exists (q ++ [id]), (<[id:=mkWaiter false (Some cx)]> m). split_and!; try done.
      * split; simpl; try done; [|congruence|].
        { apply waiters_ok_register; try done. intros Hin.
          destruct (wq_rep_linked _ _ _ _ Hrep Hin). congruence. }
        intros i u. rewrite lookup_insert. case_decide; intros Hu; simplify_eq/=; [set_solver|].
        rewrite (Hrel i u Hu). set_solver.
      * intros i u _ Hu. rewrite lookup_insert_ne; [done|]. by intros ->; congruence.
Qed.

Lemma manual_wait_drop_spec futs q m s f waiter :
  event_ok futs q m s → futs !! f = Some waiter →
  wp (wait_drop waiter) s (λ _ s', is_set s' = is_set s ∧
    ∃ q' m', event_ok (delete f futs) q' m' s' ∧ others_kept waiter m m').
Proof.
  intros [Hrep Hok Hun Hrel] Hf. unfold wait_drop. destruct waiter as [id|]; wp_auto.
  - unfold unregister_waiter. wp_auto. destruct (waiters_ok_owner _ _ _ _ _ _ Hok Hf) as [v Hv].
    wp_apply remove_waiter_spec; [done..|]. intros v' n (-> & Hrep' & _). wp_auto. split; [done|].
    exists (without id q), (delete id m). split.
    + pose proof (waiters_ok_remove _ _ _ _ _ _ Hok Hf) as Hok'.
      apply (waiters_ok_drop _ _ _ _ f) in Hok'; [|apply lookup_insert_eq].
      rewrite delete_insert_eq in Hok'. split; simpl; try done; [by intros ->%Hun|].
      intros i u. rewrite lookup_delete. case_decide; [done|]. intros Hu.
      rewrite (Hrel i u Hu), list_elem_of_filter. naive_solver.
    + intros i u Hne Hu. rewrite lookup_delete_ne; [done|]. by intros ->.
  - split; [done|]. exists q, m. split; [|by intros ??]. split; try done. by apply waiters_ok_drop.
Qed.
End invariant.

(** ** The system: an event and the waits on it *)

Record Sys (W : Type → Type) : Type := mkSys {
  st : State W;
  waits : futures;
}.
Arguments mkSys {W}.
Arguments st {W}.
Arguments waits {W}.

(** [WaitProbe] is the unlocked probe of a poll, [WaitPoll] its locked section. *)
Inductive Label : Type :=
| Set_
| Reset_
| WaitNew (f : nat)
| WaitProbe (f : nat)
| WaitPoll (f : nat) (cx : Waker)
| WaitDrop (f : nat).

Record Obs : Type := mkObs {
  completed : bool;
  woken : list Waker;
}.

Section system.
Context {W : Type → Type} `{!WaitQueue W}.
Implicit Types (x : Sys W) (l : Label).

Definition set_st (s : State W) x : Sys W := mkSys s (waits x).
Definition set_waits (g : futures) x : Sys W := mkSys (st x) g.
Definition on_st {A : Type} (m : M (State W) A) : M (Sys W) A := zoom st set_st m.

Definition enabled l x : bool :=
  match l with
  | Set_ | Reset_ => true
  | WaitNew f => bool_decide (waits x !! f = None)
  | WaitProbe f | WaitDrop f => bool_decide (is_Some (waits x !! f))
  | WaitPoll f _ => bool_decide (is_Some (waits x !! f)) && bool_decide (wq_room (waiters (st x)))
  end.

Definition exec l : M (Sys W) Obs :=
  x ← get;
  match l with
  | Set_ => ws ← on_st set; mret (mkObs false ws)
  | Reset_ => on_st reset;; mret (mkObs false [])
  | WaitNew f => modify (set_waits (<[f:=None]> (waits x)));; mret (mkObs false [])
  | WaitProbe f =>
      waiter ← expect (waits x !! f) "no such future";
      mret (mkObs (poll_probe waiter (st x)) [])
  | WaitPoll f cx =>
      waiter ← expect (waits x !! f) "no such future";
      '(waiter, r) ← on_st (poll_locked waiter cx);
      modify (set_waits (<[f:=waiter]> (waits x)));;
      mret (mkObs (match r with Ready _ => true | Pending => false end) [])
  | WaitDrop f =>
      waiter ← expect (waits x !! f) "no such future";
      on_st (wait_drop waiter);;
      modify (set_waits (delete f (waits x)));;
      mret (mkObs false [])
  end.

Definition init (b : bool) : Sys W := mkSys (with_state b) ∅.

(** Future [f] owns a registered wait whose release flag is [b]. *)
Definition flagged (f : nat) (b : bool) (futs : futures) (m : gmap WaiterId Waiter) : Prop :=
  ∃ id v, futs !! f = Some (Some id) ∧ m !! id = Some v ∧ notified v = b.

(** The invariant, observing the release flags of the futures [watch]. *)
Definition sys_ok (watch : gmap nat bool) x : Prop :=
  ∃ q m, event_ok (waits x) q m (st x) ∧ ∀ f b, watch !! f = Some b → flagged f b (waits x) m.

(** The future an operation belongs to. *)
Definition about l : option nat :=
  match l with
  | WaitNew f | WaitProbe f | WaitPoll f _ | WaitDrop f => Some f
  | Set_ | Reset_ => None
  end.
End system.

#[export] Hint Unfold on_st : band_zoom.

Section preservation.
Context {W : Type → Type} `{!WaitQueue W}.
Implicit Types (x : Sys W) (l : Label) (watch : gmap nat bool).

(** [set] raises every flag; an operation of a future may end its wait. *)
Definition next_watch l watch : gmap nat bool :=
  match l, about l with
  | Set_, _ => const true <$> watch
  | _, Some f => delete f watch
  | _, None => watch
  end.

(** Flags of other futures survive a change of one future's waiter. *)
Lemma flagged_others (futs futs' : futures) m m' f w g b q :
  waiters_ok held_waker futs q m → futs !! f = Some w → others_kept w m m' →
  (∀ h, h ≠ f → futs' !! h = futs !! h) → g ≠ f → flagged g b futs m → flagged g b futs' m'.
Proof.
  intros Hok Hf Hk Heq Hne (id & v & Hg & Hv & Hb). exists id, v. rewrite Heq by done.
  split_and!; try done. apply Hk; [|done]. intros ->. apply Hne. by eapply wo_inj.
Qed.

Lemma manual_exec_ok watch l x :
  sys_ok watch x → enabled l x = true →
  wp (exec l) x (λ o x', sys_ok (next_watch l watch) x' ∧
    ∀ f cx b, l = WaitPoll f cx → watch !! f = Some b → completed o = b).
Proof.
  intros (q & m & Hx & Hw) He. unfold exec. wp_auto. destruct x as [s ws]; simpl in *.
  pose proof (eo_waiters _ _ _ _ Hx) as Hok.
  destruct l as [| |f|f|f cx|f]; wp_auto; simpl.
  - wp_apply set_spec; [done|]. intros us s' (_ & _ & m' & Hs' & Hdom & Hall). wp_auto. split; [|done].
    exists [], m'. split; [done|]. intros f b. rewrite lookup_fmap, fmap_Some. intros (b' & Hb & ->).
    destruct (Hw f b' Hb) as (id & v & Hf & Hv & _). apply elem_of_dom_2 in Hv. rewrite <-Hdom in Hv.
    apply elem_of_dom in Hv as [v' Hv']. exists id, v'. split_and!; try done. by eapply Hall.
  - split; [|done]. exists q, m. split; [|done]. by destruct Hx.
  - apply bool_decide_eq_true in He. split; [|done]. exists q, m. split.
    + destruct Hx. split; try done. by apply waiters_ok_new.
    + simpl. intros g b [Hne Hg]%lookup_delete_Some. destruct (Hw g b Hg) as (id & v & Hf & Hv & Hb).
      exists id, v. by rewrite lookup_insert_ne.
  - apply bool_decide_eq_true in He as [w Hf]. eapply wp_expect; [done|]. wp_auto. split; [|done].
    exists q, m. split; [done|]. intros g b [_ Hg]%lookup_delete_Some. by apply Hw.
  - apply enabled_and in He as [[w Hf] Hroom]. eapply wp_expect; [done|]. wp_auto.
    wp_apply poll_locked_spec; [done..|]. intros [w' r] s' (_ & Hr & q' & m' & Hs' & Hk & _). wp_auto. split.
    + exists q', m'. split; [done|]. simpl. intros g b [Hne Hg]%lookup_delete_Some.
      eapply flagged_others; eauto. intros h Hh. by rewrite lookup_insert_ne.
    + intros g cx' b [= <- <-] Hg. destruct (Hw f b Hg) as (id & v & Hf' & Hv & <-).
      simpl in Hf. assert (w = Some id) as -> by congruence. simpl in Hr. destruct Hr as (v' & Hv' & ->).
      assert (v' = v) as -> by congruence. simpl. by destruct (notified v).
  - apply bool_decide_eq_true in He as [w Hf]. eapply wp_expect; [done|]. wp_auto.
    wp_apply manual_wait_drop_spec; [done..|]. intros _ s' (_ & q' & m' & Hs' & Hk). wp_auto. split; [|done].
    exists q', m'. split; [done|]. simpl. intros g b [Hne Hg]%lookup_delete_Some.
    eapply flagged_others; eauto. intros h Hh. by rewrite lookup_delete_ne.
Qed.

Lemma sys_ok_weaken watch watch' x : watch' ⊆ watch → sys_ok watch x → sys_ok watch' x.
Proof.
  intros Hsub (q & m & Hx & Hw). exists q, m. split; [done|]. intros f b Hf. apply Hw.
  by eapply lookup_weaken.
Qed.

Lemma manual_init_ok b : sys_ok ∅ (init (W:=W) b).
Proof.
  exists [], ∅. split; [|done]. split; try done; [apply wq_new_rep|apply waiters_ok_empty].
Qed.

Lemma manual_reachable_ok b ls tr x : returns (run enabled exec ls) (init b) tr x → sys_ok ∅ x.
Proof.
  apply run_invariant; [|apply manual_init_ok]. intros s l Hs He. wp_apply manual_exec_ok; [done..|].
  intros o s' [Hs' _]. eapply sys_ok_weaken; [|done]. apply map_empty_subseteq.
Qed.

(** The flag of a registered future is kept by a run that does not operate on the future, unless
    the flag is down and [set] raises it. *)
Lemma run_keeps_flag f b ls x tr x' :
  sys_ok {[f:=b]} x → Forall (λ l, about l ≠ Some f) ls → (b = true ∨ Set_ ∉ ls) →
  returns (run enabled exec ls) x tr x' → sys_ok {[f:=b]} x'.
Proof.
  revert x tr. induction ls as [|l ls IH]; intros x tr Hx Hab Hb Hr; [by injection Hr as <- <-|].
  apply Forall_cons in Hab as [Hl Hab].
  apply run_cons_inv in Hr as (He & o & s1 & tr' & Hx1 & Hr & _).
  apply (wp_returns_elim _ _ _ _ _ (manual_exec_ok _ l x Hx He)) in Hx1 as [Hs1 _].
  eapply IH; [|done|set_solver|done]. destruct l; simpl in *; try done.
  - rewrite map_fmap_singleton in Hs1. destruct Hb as [->|Hb]; [done|]. set_solver.
  - by rewrite delete_singleton_ne in Hs1 by congruence.
  - by rewrite delete_singleton_ne in Hs1 by congruence.
  - by rewrite delete_singleton_ne in Hs1 by congruence.
  - by rewrite delete_singleton_ne in Hs1 by congruence.
Qed.

Lemma flag_of_registered x f id :
  sys_ok ∅ x → waits x !! f = Some (Some id) → ∃ b, sys_ok {[f:=b]} x.
Proof.
  intros (q & m & Hx & _) Hf. pose proof (eo_waiters _ _ _ _ Hx) as Hok.
  destruct (waiters_ok_owner _ _ _ _ _ _ Hok Hf) as [v Hv].
  exists (notified v), q, m. split; [done|]. intros g b [<- <-]%lookup_singleton_Some. by exists id, v.
Qed.

(** [set] releases the complete cohort for good: every wait registered when [set] runs
    completes at its next poll, whatever other operations, resets included, come in between. *)
Theorem manual_set_releases_cohort b ls tr x f id ls' tr' x' cx :
  returns (run enabled exec ls) (init b) tr x → waits x !! f = Some (Some id) →
  Forall (λ l, about l ≠ Some f) ls' →
  returns (run enabled exec (Set_ :: ls')) x tr' x' → enabled (WaitPoll f cx) x' = true →
  ∃ o x'', returns (exec (WaitPoll f cx)) x' o x'' ∧ completed o = true.
Proof.
  intros Hx%manual_reachable_ok Hf Hab Hr He. destruct (flag_of_registered _ _ _ Hx Hf) as [b0 Hb].
  apply run_cons_inv in Hr as (He1 & o & s1 & tr1 & Hx1 & Hr & _).
  apply (wp_returns_elim _ _ _ _ _ (manual_exec_ok _ Set_ x Hb He1)) in Hx1 as [Hs1 _]. simpl in Hs1.
  rewrite map_fmap_singleton in Hs1. eapply run_keeps_flag in Hs1; [|done|by left|done].
  pose proof (manual_exec_ok _ (WaitPoll f cx) x' Hs1 He) as (o' & x'' & Hx'' & _ & Hc)%wp_returns.
  exists o', x''. split; [done|]. eapply Hc; [done|]. apply lookup_singleton_eq.
Qed.

(** A wait registered on an unset event completes only after a [set]: as long as no [set]
    runs, every later poll of it is pending, whatever the other waits do. *)
Theorem manual_waits_for_set b ls tr x f cx ls' tr' x' cx' :
  returns (run enabled exec ls) (init b) tr x → waits x !! f = Some None → is_set (st x) = false →
  Forall (λ l, about l ≠ Some f) ls' → Set_ ∉ ls' →
  returns (run enabled exec (WaitPoll f cx :: ls')) x tr' x' → enabled (WaitPoll f cx') x' = true →
  ∃ o x'', returns (exec (WaitPoll f cx')) x' o x'' ∧ completed o = false.
Proof.
  intros (q & m & Hx & _)%manual_reachable_ok Hf Hs Hab Hns Hr He.
  apply run_cons_inv in Hr as (He1 & o & s1 & tr1 & Hx1 & Hr & _).
  assert (sys_ok {[f:=false]} s1) as Hs1.
  { apply (wp_returns_elim _ _ _ _ (λ _ x', sys_ok {[f:=false]} x')) in Hx1; [done|].
    apply enabled_and in He1 as [_ Hroom]. unfold exec. wp_auto. eapply wp_expect; [done|]. wp_auto.
    unfold poll_locked. wp_auto. rewrite Hs. wp_auto. destruct Hx as [Hrep Hok Hun Hrel].
    wp_apply wq_push_back_spec; [done..|]. intros id n [Hn Hrep']. wp_auto. simpl.
    exists (q ++ [id]), (<[id:=mkWaiter false (Some cx)]> m). split.
    - split; simpl; try done; [|congruence|].
      + apply waiters_ok_register; try done. intros Hin.
        destruct (wq_rep_linked _ _ _ _ Hrep Hin). congruence.
      + intros i u. rewrite lookup_insert. case_decide; intros Hu; simplify_eq/=; [set_solver|].
        rewrite (Hrel i u Hu). set_solver.
    - intros g b' [<- <-]%lookup_singleton_Some. exists id, (mkWaiter false (Some cx)). simpl.
      by rewrite !lookup_insert_eq. }
  eapply run_keeps_flag in Hs1; [|done|by right|done].
  pose proof (manual_exec_ok _ (WaitPoll f cx') x' Hs1 He) as (o' & x'' & Hx'' & _ & Hc)%wp_returns.
  exists o', x''. split; [done|]. eapply Hc; [done|]. apply lookup_singleton_eq.
Qed.
End preservation.

(** The system after a run. *)
Definition after (ls : list Label) (x : Sys WaitList) : Sys WaitList :=
  match run enabled exec ls x with Ret _ x' | Panic _ x' => x' end.

Definition two_waits : Sys WaitList :=
  after [WaitNew 0; WaitPoll 0 10%nat; WaitNew 1; WaitPoll 1 11%nat] (init false).
Definition between : list Label := [Reset_; WaitPoll 1 12%nat; WaitNew 2; WaitPoll 2 13%nat].

Lemma manual_set_releases_cohort_witness :
  waits two_waits !! 0%nat = Some (Some 1%positive) ∧
  ∃ o x'', returns (exec (WaitPoll 0 10%nat)) (after (Set_ :: between) two_waits) o x'' ∧ completed o = true.
Proof.
  split; [vm_compute; reflexivity|].
  eapply (manual_set_releases_cohort false
    [WaitNew 0; WaitPoll 0 10%nat; WaitNew 1; WaitPoll 1 11%nat] _ two_waits 0 1%positive between);
    [vm_compute; reflexivity|vm_compute; reflexivity| |vm_compute; reflexivity|vm_compute; reflexivity].
  repeat constructor; simpl; congruence.
Defined.

Lemma manual_waits_for_set_witness :
  waits (after [WaitNew 3] two_waits) !! 3%nat = Some None ∧
  ∃ o x'', returns (exec (WaitPoll 3 16%nat))
    (after (WaitPoll 3 15%nat :: between) (after [WaitNew 3] two_waits)) o x'' ∧ completed o = false.
Proof.
  split; [vm_compute; reflexivity|].
  eapply (manual_waits_for_set false
    [WaitNew 0; WaitPoll 0 10%nat; WaitNew 1; WaitPoll 1 11%nat; WaitNew 3] _ (after [WaitNew 3] two_waits) 3
    15%nat between);
    [vm_compute; reflexivity|vm_compute; reflexivity|vm_compute; reflexivity| | |vm_compute; reflexivity
    |vm_compute; reflexivity].
  - repeat constructor; simpl; congruence.
  - unfold between. set_solver.
Defined.
