(* ===== verification/Condvar.v ===== *)
(** * The condition variable

    [asyncband/src/condvar/mod.rs]: a queue of waits.  [notify_one] selects the oldest wait, which
    then carries the notification until it holds the associated mutex again; a wait that is dropped
    before that passes the notification on.  First the waits and their notifications as a labelled
    system over the interface of wait queues, then its composition with the mutex, seen as a pool of
    one permit. *)
From S2P Require Import Prelude Arena WakerBatch WaitQueue WaitList PermitPool.

Inductive WaitState : Type :=
| Waiting (waker : Waker)
| NotifiedOne
| NotifiedAll.

Definition waiting_waker (w : WaitState) : option Waker :=
  match w with Waiting waker => Some waker | _ => None end.

(** The waits with the waiter each owns, those that still hold their mutex guard, and the batons of
    waits that are over. *)
Record Sys (W : Type → Type) : Type := mkSys {
  waiters : W WaitState;
  waits : futures;
  guards : gset nat;
  batons : gset nat;
}.
Arguments mkSys {W}.
Arguments waiters {W}.
Arguments waits {W}.
Arguments guards {W}.
Arguments batons {W}.

(** What a step shows: a wait completed; a notification given by [notify_one], taken by a wait that
    holds the mutex again, or passed on while nobody waits; tasks woken. *)
Record Obs : Type := mkObs {
  completed : bool;
  given : Z;
  spent : Z;
  lost : Z;
  woken : list Waker;
}.
Definition silent : Obs := mkObs false 0 0 0 [].

Inductive Label : Type :=
| NotifyOne
| NotifyAll
| WaitNew (f : nat)
| WaitPoll (f : nat) (cx : Waker)
| WaitDrop (f : nat)
| BatonComplete (f : nat)
| BatonDrop (f : nat).

Section condvar.
Context {W : Type → Type} `{!WaitQueue W}.
Implicit Types (x : Sys W) (f : nat) (l : Label).

Definition set_waiters (w : W WaitState) x : Sys W := mkSys w (waits x) (guards x) (batons x).
Definition set_waits (g : futures) x : Sys W := mkSys (waiters x) g (guards x) (batons x).
Definition set_guards (g : gset nat) x : Sys W := mkSys (waiters x) (waits x) g (batons x).
Definition set_batons (g : gset nat) x : Sys W := mkSys (waiters x) (waits x) (guards x) g.
Definition in_waiters {A : Type} (m : M (W WaitState) A) : M (Sys W) A := zoom waiters set_waiters m.

Definition new : Sys W := mkSys wq_new ∅ ∅ ∅.

Definition notify_one_locked : M (W WaitState) (option Waker) :=
  notify_first waiting_waker NotifiedOne "only waiting tasks remain linked".

Definition notify_one : M (Sys W) (option Waker) := in_waiters notify_one_locked.

Definition notify_all : M (Sys W) (list Waker) :=
  x ← get;
  ws ← in_waiters (while_some (S (wq_len (waiters x)))
         (notify_first waiting_waker NotifiedAll "only waiting tasks remain linked"));
  run_local batch_new (push_iter ws;; wake_all).

(** [Wait::poll] of a wait that holds its guard: the guard is dropped by the caller. *)
Definition register f (cx : Waker) : M (Sys W) Obs :=
  id ← in_waiters (wq_push_back (Waiting cx));
  modify (λ x, set_guards (guards x ∖ {[f]}) (set_waits (<[f:=Some id]> (waits x)) x));;
  mret silent.

(** [Wait::poll] of one that does not: the end of the wait, with the baton of [NotifiedOne]. *)
Definition collect f (id : WaiterId) (baton : bool) : M (Sys W) Obs :=
  in_waiters (wq_remove id);;
  modify (λ x, set_waits (delete f (waits x)) x);;
  (if baton then modify (λ x, set_batons ({[f]} ∪ batons x) x) else mret tt);;
  mret (mkObs true 0 0 0 []).

Definition poll f (cx : Waker) : M (Sys W) Obs :=
  x ← get;
  if bool_decide (f ∈ guards x) then register f cx
  else
    index ← expect (waits x !! f ≫= id) "wait future polled after completion";
    w ← in_waiters (wq_waiter index);
    match w with
    | Waiting waker =>
        (if will_wake waker cx then mret tt else in_waiters (wq_set_waiter index (Waiting cx)));;
        mret silent
    | NotifiedOne => collect f index true
    | NotifiedAll => collect f index false
    end.

(** A notification that is passed on is lost only if nobody waits. *)
Definition passed_on (r : option Waker) : Obs :=
  match r with Some waker => mkObs false 0 0 0 [waker] | None => mkObs false 0 0 1 [] end.

(** [Wait::drop]; a guard that is still there is dropped by the caller. *)
Definition wait_drop f : M (Sys W) Obs :=
  x ← get;
  modify (λ y, set_guards (guards y ∖ {[f]}) (set_waits (delete f (waits y)) y));;
  match waits x !! f ≫= id with
  | None => mret silent
  | Some index =>
      waiter ← in_waiters (remove_waiter index);
      match waiter with
      | NotifiedOne => r ← in_waiters notify_one_locked; mret (passed_on r)
      | _ => mret silent
      end
  end.

(** [NotifyOneBaton::complete] and [NotifyOneBaton::drop]. *)
Definition baton_complete f : M (Sys W) Obs :=
  modify (λ x, set_batons (batons x ∖ {[f]}) x);;
  mret (mkObs false 0 1 0 []).

Definition baton_drop f : M (Sys W) Obs :=
  modify (λ x, set_batons (batons x ∖ {[f]}) x);;
  r ← notify_one;
  mret (passed_on r).

Definition enabled l x : bool :=
  match l with
  | NotifyOne | NotifyAll => true
  | WaitNew f => bool_decide (waits x !! f = None) && bool_decide (f ∉ batons x)
  | WaitPoll f _ => bool_decide (is_Some (waits x !! f)) && bool_decide (wq_room (waiters x))
  | WaitDrop f => bool_decide (is_Some (waits x !! f))
  | BatonComplete f | BatonDrop f => bool_decide (f ∈ batons x)
  end.

Definition exec l : M (Sys W) Obs :=
  match l with
  | NotifyOne =>
      r ← notify_one;
      mret (match r with Some waker => mkObs false 1 0 0 [waker] | None => silent end)
  | NotifyAll => ws ← notify_all; mret (mkObs false 0 0 0 ws)
  | WaitNew f =>
      modify (λ x, set_guards ({[f]} ∪ guards x) (set_waits (<[f:=None]> (waits x)) x));;
      mret silent
  | WaitPoll f cx => poll f cx
  | WaitDrop f => wait_drop f
  | BatonComplete f => baton_complete f
  | BatonDrop f => baton_drop f
  end.
End condvar.

#[export] Hint Unfold in_waiters : band_zoom.

(** ** Invariant *)
Section invariant.
Context {W : Type → Type} `{!WaitQueue W}.
Implicit Types (x : Sys W) (f : nat) (l : Label) (q : list WaiterId) (m : gmap WaiterId WaitState).

(** A notification of [notify_one] in a waiter. *)
Definition one (w : WaitState) : Z := match w with NotifiedOne => 1 | _ => 0 end.

(** The queue [q] and the store [m] are those of the waits; a wait has its waiter once it gave up
    its guard. *)
Record condvar_ok x q m : Prop := {
  co_rep : wq_rep (waiters x) q m;
  co_waiters : waiters_ok waiting_waker (waits x) q m;
  co_guards : ∀ f i, waits x !! f = Some i → (f ∈ guards x ↔ i = None);
  co_dom : guards x ⊆ dom (waits x);
  co_batons : batons x ## dom (waits x);
}.

(** The notifications of [notify_one] that are under way. *)
Definition in_hand x m : Z := map_sum one m + Z.of_nat (size (batons x)).

(** The wait [f] is queued with the waker [w], behind [n] others. *)
Definition queued f w (n : nat) x q m : Prop :=
  ∃ id, waits x !! f = Some (Some id) ∧ m !! id = Some (Waiting w) ∧ q !! n = Some id.

Definition about l : option nat :=
  match l with
  | WaitNew f | WaitPoll f _ | WaitDrop f => Some f
  | _ => None
  end.
(** The guards and the batons an operation leaves. *)
Definition guards_after l (gs : gset nat) : gset nat :=
  match l with
  | WaitNew f => {[f]} ∪ gs
  | WaitPoll f _ | WaitDrop f => gs ∖ {[f]}
  | _ => gs
  end.
Definition batons_after l (o : Obs) (bs : gset nat) : gset nat :=
  match l with
  | WaitPoll f _ => if completed o then {[f]} ∪ bs else bs
  | BatonComplete f | BatonDrop f => bs ∖ {[f]}
  | _ => bs
  end.

Definition ones l : nat := match l with NotifyOne => 1 | _ => 0 end.

(** What an operation does: notifications are accounted for, one is lost only if nobody waits, and a
    queued wait advances with every [notify_one] or is woken, by [notify_all] in any case. *)
Record effect l x q m (o : Obs) x' q' m' : Prop := {
  ef_ok : condvar_ok x' q' m';
  ef_account : in_hand x' m' = in_hand x m + given o - spent o - lost o;
  ef_lost : lost o = 0 ∨ q' = [];
  ef_queued : ∀ f w n, about l ≠ Some f → queued f w n x q m →
    w ∈ woken o ∨ (l ≠ NotifyAll ∧ ∃ n', queued f w n' x' q' m' ∧
      (n' + ones l ≤ n)%nat);
  ef_guards : guards x' = guards_after l (guards x);
  ef_batons : batons x' ⊆ batons_after l o (batons x);
}.

Lemma queued_notify f w n x x' id q m mark r :
  NoDup (id :: q) → waits x' = waits x → r = waker_at waiting_waker m id → queued f w n x (id :: q) m →
  r = Some w ∨ ∃ n', n = S n' ∧ queued f w n' x' q (<[id:=mark]> m).
Proof.
  intros [Hni _]%NoDup_cons Ew -> (i & Hf & Hm & Hq). destruct n as [|n]; simpl in Hq.
  - injection Hq as <-. left. unfold waker_at. by rewrite Hm.
  - right. exists n. split; [done|]. exists i. rewrite Ew, lookup_insert_ne; [done|]. intros <-.
    apply Hni. by eapply list_elem_of_lookup_2.
Qed.

(** The first wait is marked: the common part of the notifications. *)
Lemma notify_mark_ok mark msg x q m :
  condvar_ok x q m → waiting_waker mark = None →
  wp (notify_first waiting_waker mark msg) (waiters x) (λ r w, ∃ q' m', condvar_ok (set_waiters w x) q' m' ∧
    match r with
    | None => q = [] ∧ q' = [] ∧ m' = m
    | Some _ => map_sum one m' = map_sum one m + one mark ∧ (length q' < length q)%nat
    end ∧
    ∀ f w' n, queued f w' n x q m → r = Some w' ∨ ∃ n', n = S n' ∧ queued f w' n' (set_waiters w x) q' m').
Proof.
  intros [Hrep Hok Hg Hd Hb] Hmark. pose proof (wq_rep_nodup _ _ _ Hrep) as Hnd.
  wp_apply notify_first_spec; [done..|]. intros r w' Hr. destruct q as [|id q].
  - destruct Hr as [-> ->]. exists [], m. split_and!; [by split|done..|]. by intros f w n (i & _ & _ & ?).
  - destruct Hr as ([v Hv] & Hr & [wk Hwk] & Hrep' & Hok' & _). exists q, (<[id:=mark]> m). split_and!.
    + by split.
    + rewrite Hwk. split; [|simpl; lia]. rewrite map_sum_put, Hv. simpl.
      destruct v; simpl; [lia|..]; destruct (proj1 (wo_waiting _ _ _ _ Hok id _ Hv)); set_solver.
    + intros f w n Hq. by eapply queued_notify.
Qed.

Lemma notify_all_ok x q m :
  condvar_ok x q m →
  wp notify_all x (λ ws x', ∃ m', condvar_ok x' [] m' ∧ map_sum one m' = map_sum one m ∧ batons x' = batons x ∧ guards x' = guards x ∧
    ∀ f w n, queued f w n x q m → w ∈ ws).
Proof.
  intros Hx. unfold notify_all. wp_auto.
  assert (∀ fuel y q m, condvar_ok y q m → (length q < fuel)%nat →
    wp (while_some fuel (notify_first waiting_waker NotifiedAll "only waiting tasks remain linked")) (waiters y)
      (λ ws w, ∃ m', condvar_ok (set_waiters w y) [] m' ∧ map_sum one m' = map_sum one m ∧
        ∀ f w' n, queued f w' n y q m → w' ∈ ws)) as Hloop.
  { clear. induction fuel as [|fuel IH]; intros y q m Hy Hlt; [lia|]. simpl. wp_auto.
    wp_apply notify_mark_ok; [done..|]. intros r w (q' & m' & Hy' & Hr & Hq). destruct r as [wk|]; wp_auto.
    - destruct Hr as [Hs Hl]. eapply wp_mono; [apply (IH _ q' m' Hy'); lia|]. intros ws w2 (m2 & Hy2 & Hs2 & Hq2). wp_auto.
      exists m2. split_and!; [done|simpl in *; lia|]. intros f w' n [[= ->]|(n' & _ & Hn')]%Hq; [set_solver|].
      apply Hq2 in Hn'. set_solver.
    - destruct Hr as (-> & -> & ->). exists m. split_and!; [done..|]. by intros f w' n (i & _ & _ & ?). }
  wp_apply (Hloop _ x q m Hx).
  { rewrite (wq_len_spec _ _ _ (co_rep _ _ _ Hx)). pose proof (rep_length_le _ _ _ (co_rep _ _ _ Hx)). lia. }
  intros ws w (m' & Hx' & Hs & Hq). wp_auto. apply wp_run_local. wp_auto.
  wp_apply push_iter_spec; [apply batch_new_rep|]. simpl. intros _ b Hb'.
  wp_apply wake_all_spec; [done|]. intros us b' [-> _]. by exists m'.
Qed.

Lemma lookup_without (q : list WaiterId) (n : nat) (id j : WaiterId) :
  q !! n = Some id → id ≠ j → ∃ n', (n' ≤ n)%nat ∧ without j q !! n' = Some id.
Proof.
  revert n. induction q as [|i q IH]; intros n Hn Hne; [done|]. rewrite filter_cons. destruct n as [|n]; simpl in Hn.
  - injection Hn as ->. rewrite decide_True by done. by exists 0%nat.
  - destruct (IH n Hn Hne) as (n' & Hle & Hn'). case_decide; [exists (S n')|exists n']; split; by try lia.
Qed.

(** A wait is removed from the queue and the store, and the others move up. *)
Lemma condvar_remove g id x x' q m w :
  condvar_ok x q m → waits x !! g = Some (Some id) → wq_rep w (without id q) (delete id m) →
  waiters x' = w → waits x' = delete g (waits x) → guards x' = guards x ∖ {[g]} → batons x' ⊆ batons x ∪ {[g]} →
  condvar_ok x' (without id q) (delete id m) ∧
  ∀ f w' n, f ≠ g → queued f w' n x q m → ∃ n', (n' ≤ n)%nat ∧ queued f w' n' x' (without id q) (delete id m).
Proof.
  intros [Hrep Hok Hg Hd Hb] Hf Hw Ew Es Eg Eb. split.
  - split; rewrite ?Ew, ?Es, ?Eg; [done| | | |].
    + rewrite <-(delete_insert_eq (waits x) g None). apply waiters_ok_drop; [by apply waiters_ok_remove|apply lookup_insert_eq].
    + intros f i [Hne Hi]%lookup_delete_Some. rewrite <-(Hg f i Hi). set_solver.
    + rewrite dom_delete_L. set_solver.
    + rewrite dom_delete_L. set_solver.
  - intros f w' n Hne (i & Hi & Hm & Hq). assert (i ≠ id) as Hid by (intros ->; by apply Hne, (wo_inj _ _ _ _ Hok f g id)).
    destruct (lookup_without q n i id Hq Hid) as (n' & Hle & Hn'). exists n'. split; [done|]. exists i.
    rewrite Es, !lookup_delete_ne by done. done.
Qed.

(** A baton is dropped: the notification is passed on. *)
Lemma pass_on_ok x q m :
  condvar_ok x q m →
  wp (r ← in_waiters notify_one_locked; mret (passed_on r)) x (λ o x', ∃ q' m', condvar_ok x' q' m' ∧
    in_hand x' m' + lost o = in_hand x m + 1 ∧ given o = 0 ∧ spent o = 0 ∧ (lost o = 0 ∨ q' = []) ∧
    guards x' = guards x ∧ batons x' = batons x ∧
    ∀ f w n, queued f w n x q m → w ∈ woken o ∨ ∃ n', (n' ≤ n)%nat ∧ queued f w n' x' q' m').
Proof.
  intros Hx. unfold notify_one_locked. wp_auto. wp_apply notify_mark_ok; [done..|].
  intros r w (q' & m' & Hx' & Hr & Hq). wp_auto. exists q', m'. unfold in_hand. simpl. destruct r as [wk|]; simpl.
  - destruct Hr as [Hs _]. split_and!; [done|simpl in *; lia|done|done|by left|done|done|].
    intros f w' n [[= ->]|(n' & -> & Hn')]%Hq; [set_solver|right]. exists n'. split; [lia|done].
  - destruct Hr as (-> & -> & ->). split_and!; [done|lia|done|done|by right|done|done|]. by intros f w' n [?|(n' & -> & Hn')]%Hq; [|destruct Hn' as (? & _ & _ & ?)].
Qed.

(** ** The operations *)

Lemma condvar_register_ok f cx x q m :
  condvar_ok x q m → waits x !! f = Some None → wq_room (waiters x) →
  wp (register f cx) x (λ o x', ∃ q' m', effect (WaitPoll f cx) x q m o x' q' m' ∧
    o = silent ∧ ∃ n, queued f cx n x' q' m').
Proof.
  intros [Hrep Hok Hg Hd Hb] Hf Hroom. unfold register. wp_auto. wp_apply wq_push_back_spec; [done..|].
  intros id w [Hn Hrep']. wp_auto. assert (id ∉ q) as Hni.
  { intros Hin. destruct (wq_rep_linked _ _ _ id Hrep Hin) as [v Hv]. congruence. }
  pose proof (waiters_ok_register _ _ _ _ f id (Waiting cx) Hok Hf Hn Hni ltac:(by eexists)) as Hok'.
  exists (q ++ [id]), (<[id:=Waiting cx]> m). split_and!; [split|done|].
  - split; simpl; [done|done| | |].
    + intros g i [[<- <-]|[Hne Hi]]%lookup_insert_Some; [set_solver|]. rewrite <-(Hg g i Hi). set_solver.
    + rewrite dom_insert_L. set_solver.
    + rewrite dom_insert_L. apply elem_of_dom_2 in Hf. set_solver.
  - unfold in_hand. simpl. rewrite map_sum_insert by done. simpl. lia.
  - by left.
  - intros g w' n Hne (i & Hi & Hm & Hq). simpl in Hne. right. split; [done|]. exists n. split; [|simpl; lia]. exists i. simpl.
    rewrite !lookup_insert_ne by congruence. split_and!; [done..|]. by apply lookup_app_l_Some.
  - done.
  - done.
  - exists (length q), id. simpl. rewrite !lookup_insert_eq. split_and!; [done..|]. rewrite lookup_app_r, Nat.sub_diag by lia. done.
Qed.

Lemma collect_ok f cx id baton v x q m :
  condvar_ok x q m → waits x !! f = Some (Some id) → f ∉ guards x → m !! id = Some v → waiting_waker v = None →
  one v = Z.b2z baton →
  wp (collect f id baton) x (λ o x', ∃ q' m', effect (WaitPoll f cx) x q m o x' q' m' ∧ completed o = true).
Proof.
  intros Hx Hf Hng Hv Hw Hone. pose proof Hx as [Hrep Hok Hg Hd Hb].
  assert (id ∉ q) as Hni by (intros [? Hs]%(wo_waiting _ _ _ _ Hok id v Hv); congruence).
  unfold collect. wp_auto. wp_apply wq_remove_spec; [done..|]. intros v' w (-> & Hrep' & _). wp_auto.
  rewrite <-(filter_neq_id id q Hni) in Hrep'.
  assert (∀ bs, bs ⊆ {[f]} ∪ batons x → Z.of_nat (size bs) = Z.of_nat (size (batons x)) + one v →
    effect (WaitPoll f cx) x q m (mkObs true 0 0 0 []) (mkSys w (delete f (waits x)) (guards x) bs) (without id q) (delete id m)) as Hfin.
  { intros bs Hbs Hsz. destruct (condvar_remove f id x (mkSys w (delete f (waits x)) (guards x) bs) q m w Hx Hf Hrep') as [Hx' Hq'];
      [done|done|clear -Hng; set_solver|clear -Hbs; set_solver|].
    split; [done| |by left| |simpl; clear -Hng; set_solver|done].
    - unfold in_hand. simpl. rewrite map_sum_del, Hv. simpl. lia.
    - intros g w' n Hne Hq. right. split; [done|]. destruct (Hq' g w' n) as (n' & Hle & Hn'); [by intros ->|done|].
      exists n'. simpl. split; [done|lia]. }
  assert (f ∉ batons x) as Hnb by (apply elem_of_dom_2 in Hf; set_solver).
  destruct baton; wp_auto; exists (without id q), (delete id m); (split; [|done]); apply Hfin; rewrite ?Hone; simpl.
  - clear. set_solver.
  - rewrite size_union, size_singleton by (clear -Hnb; set_solver). lia.
  - clear. set_solver.
  - lia.
Qed.

Lemma condvar_poll_ok f cx x q m :
  condvar_ok x q m → is_Some (waits x !! f) → wq_room (waiters x) →
  wp (poll f cx) x (λ o x', ∃ q' m', effect (WaitPoll f cx) x q m o x' q' m' ∧
    (completed o = false → ∃ n, queued f cx n x' q' m') ∧
    (completed o = true → ∀ w n, ¬ queued f w n x q m)).
Proof.
  intros Hx [i Hi] Hroom. pose proof Hx as [Hrep Hok Hg Hd Hb]. unfold poll. wp_auto. case_bool_decide as Hfg.
  - apply (Hg f i Hi) in Hfg as ->. wp_apply condvar_register_ok; [done..|]. intros o x' (q' & m' & He & -> & Hq). exists q', m'. by split_and!.
  - destruct i as [id|]; [|by destruct Hfg; apply (Hg f None)]. wp_auto. eapply wp_expect; [by rewrite Hi|].
    destruct (waiters_ok_owner _ _ _ _ _ _ Hok Hi) as [v Hv]. wp_auto. wp_apply wq_waiter_spec; [done..|].
    intros v' w [-> ->]. assert (set_waiters (waiters x) x = x) as -> by (by destruct x).
    assert (waiting_waker v = None → ∀ w n, ¬ queued f w n x q m) as Hnq.
    { intros Hw w n (j & Hj & Hm & _). rewrite Hi in Hj. injection Hj as <-. rewrite Hv in Hm. by injection Hm as ->. }
    destruct v as [waker| |].
    2, 3: wp_apply collect_ok; [done..|]; intros o x' (q' & m' & He & Hc); exists q', m'; rewrite Hc; split_and!; [done|done|];
      intros _; by apply Hnq.
    assert (id ∈ q) as Hin by (eapply wo_waiting; [done..|by eexists]). pose proof Hin as [n Hn]%list_elem_of_lookup.
    wp_auto. unfold will_wake. case_bool_decide as Hwk; wp_auto.
    + subst cx. exists q, m. split_and!; [|intros _; by exists n, id|done].
      split; [done|unfold in_hand; simpl; lia|by left| |simpl; clear -Hfg; set_solver|done]. intros g w' k _ Hk. right. split; [done|]. exists k. simpl. split; [done|lia].
    + wp_apply wq_set_waiter_spec; [done|by eauto|]. intros _ w [Hrep' _]. wp_auto. exists q, (<[id:=Waiting cx]> m).
      split_and!; [|intros _; exists n, id; by rewrite lookup_insert_eq|done]. split.
      * split; simpl; try done. apply waiters_ok_refresh; eauto.
      * unfold in_hand. simpl. rewrite (map_sum_update _ _ _ _ _ Hv). simpl. lia.
      * by left.
      * intros g w' k Hne (j & Hj & Hm & Hq). right. split; [done|]. exists k. simpl. split; [|lia]. exists j. simpl. split_and!; [done| |done].
        rewrite lookup_insert_ne; [done|]. intros <-. simpl in Hne. by apply Hne, (f_equal Some), (wo_inj _ _ _ _ Hok f g id).
      * simpl. clear -Hfg. set_solver.
      * done.
Qed.

(** An operation that leaves the queue alone. *)
Lemma condvar_quiet l x q m o x' :
  condvar_ok x' q m → waits x' = waits x ∨ (∃ f, about l = Some f ∧ ∀ g, g ≠ f → waits x' !! g = waits x !! g) →
  in_hand x' m = in_hand x m + given o - spent o - lost o → lost o = 0 → l ≠ NotifyAll → l ≠ NotifyOne →
  guards x' = guards_after l (guards x) → batons x' ⊆ batons_after l o (batons x) →
  effect l x q m o x' q m.
Proof.
  intros Hx' Hw Ha Hl Hall Hone Hgs Hbs. split; [done|done|by left| |done|done]. intros f w n Hne (i & Hi & Hm & Hq). right. split; [done|].
  exists n. split; [|by destruct l; simpl; try lia]. exists i. split; [|done]. destruct Hw as [->|(g & Hg & Hw)]; [done|].
  rewrite Hw; [done|]. intros ->. by rewrite Hg in Hne.
Qed.

Lemma condvar_drop_ok f x q m :
  condvar_ok x q m → is_Some (waits x !! f) →
  wp (wait_drop f) x (λ o x', ∃ q' m', effect (WaitDrop f) x q m o x' q' m').
Proof.
  intros Hx [i Hi]. pose proof Hx as [Hrep Hok Hg Hd Hb]. unfold wait_drop. wp_auto. rewrite Hi. simpl. destruct i as [id|]; simpl.
  - destruct (waiters_ok_owner _ _ _ _ _ _ Hok Hi) as [v Hv]. wp_auto. wp_apply remove_waiter_spec; [done..|].
    intros v' w (-> & Hrep' & _). wp_auto. set (x1 := set_waiters w _).
    destruct (condvar_remove f id x x1 q m w Hx Hi Hrep') as [Hx1 Hq1]; [done|done|done|simpl; clear; set_solver|].
    assert (in_hand x1 (delete id m) = in_hand x m - one v) as Ha by (unfold in_hand; simpl; rewrite map_sum_del, Hv; simpl; lia).
    assert (one v = 0 → effect (WaitDrop f) x q m silent x1 (without id q) (delete id m)) as Hz.
    { intros Ev. split; [done|simpl; lia|by left| |done|done]. intros g w' n Hne Hq. right. split; [done|].
      destruct (Hq1 g w' n) as (n' & Hle & Hn'); [by intros ->|done|]. exists n'. simpl. split; [done|lia]. }
    destruct v; [by wp_auto; eauto| |by wp_auto; eauto].
    wp_apply pass_on_ok; [done|]. intros o x' (q' & m' & Hx' & Ha' & Eg & Es & El & Egs & Ebs & Hq'). exists q', m'. simpl in Ha.
    split; [done|lia|done| |by rewrite Egs|by rewrite Ebs]. intros g w' n Hne Hq. destruct (Hq1 g w' n) as (n' & Hle & Hn'); [by intros ->|done|].
    apply Hq' in Hn' as [?|(n'' & Hle' & Hn'')]; [by left|right]. split; [done|]. exists n''. simpl. split; [done|lia].
  - wp_auto. exists q, m. apply condvar_quiet; try done; [| |unfold in_hand; simpl; lia].
    + split; simpl; [done|by apply waiters_ok_drop| | |].
      * intros g j [Hne Hj]%lookup_delete_Some. rewrite <-(Hg g j Hj). clear -Hne. set_solver.
      * rewrite dom_delete_L. clear -Hd. set_solver.
      * rewrite dom_delete_L. clear -Hb. set_solver.
    + right. exists f. split; [done|]. intros g Hne. simpl. by rewrite lookup_delete_ne.
Qed.

Lemma condvar_batons x q m bs : condvar_ok x q m → bs ⊆ batons x → condvar_ok (set_batons bs x) q m.
Proof. intros [Hrep Hok Hg Hd Hb] Hbs. split; try done. simpl. clear -Hb Hbs. set_solver. Qed.

Lemma in_hand_baton f x m : f ∈ batons x → in_hand (set_batons (batons x ∖ {[f]}) x) m = in_hand x m - 1.
Proof.
  intros Hf. unfold in_hand. simpl. rewrite size_difference by (clear -Hf; set_solver). rewrite size_singleton.
  pose proof (size_pos_elem _ _ Hf). lia.
Qed.

Lemma condvar_exec_ok l x q m :
  condvar_ok x q m → enabled l x = true → wp (exec l) x (λ o x', ∃ q' m', effect l x q m o x' q' m').
Proof.
  intros Hx He. destruct l as [| |f|f cx|f|f|f]; simpl in He; simpl exec.
  - unfold notify_one, notify_one_locked. wp_auto. wp_apply notify_mark_ok; [done..|]. intros r w (q' & m' & Hx' & Hr & Hq). wp_auto.
    exists q', m'. destruct r as [wk|].
    + destruct Hr as [Hs _]. split; [done|unfold in_hand; simpl in *; lia|by left| |done|done].
      intros f w' n _ [[= ->]|(n' & -> & Hn')]%Hq; [left; simpl; clear; set_solver|right]. split; [done|]. exists n'. split; [done|simpl; lia].
    + destruct Hr as (-> & -> & ->). split; [done|unfold in_hand; simpl; lia|by left| |done|done]. by intros f w' n _ (? & _ & _ & ?).
  - wp_auto. wp_apply notify_all_ok; [done|]. intros ws x' (m' & Hx' & Hs & Eb & Eg & Hq). wp_auto. exists [], m'.
    split; [done|unfold in_hand; rewrite Hs, Eb; simpl; lia|by left| |done|by rewrite Eb]. intros f w n _ Hn. left. by eapply Hq.
  - apply enabled_and in He as [Hf Hnb]. wp_auto. exists q, m. pose proof Hx as [Hrep Hok Hg Hd Hb].
    apply condvar_quiet; try done; [| |unfold in_hand; simpl; lia].
    + split; simpl; [done|by apply waiters_ok_new| | |].
      * intros g j [[<- <-]|[Hne Hj]]%lookup_insert_Some; [clear; set_solver|]. rewrite <-(Hg g j Hj). clear -Hne. set_solver.
      * rewrite dom_insert_L. clear -Hd. set_solver.
      * rewrite dom_insert_L. clear -Hb Hnb. set_solver.
    + right. exists f. split; [done|]. intros g Hne. simpl. by rewrite lookup_insert_ne.
  - apply enabled_and in He as [Hf Hroom]. wp_apply condvar_poll_ok; [done..|]. intros o x' (q' & m' & Ho & _). eauto.
  - apply bool_decide_eq_true in He. by apply condvar_drop_ok.
  - apply bool_decide_eq_true in He. unfold baton_complete. wp_auto. exists q, m. apply condvar_quiet; try done; [|by left|].
    + apply condvar_batons; [done|]. clear. set_solver.
    + rewrite in_hand_baton by done. simpl. lia.
  - apply bool_decide_eq_true in He. unfold baton_drop, notify_one.
    apply wp_bind, wp_modify. wp_apply pass_on_ok; [apply condvar_batons; [done|clear; set_solver]|].
    intros o x' (q' & m' & Hx' & Ha & Eg & Es & El & Egs & Ebs & Hq). exists q', m'. rewrite in_hand_baton in Ha by done.
    split; [done|lia|done| |by rewrite Egs|by rewrite Ebs]. intros f' w n _ Hn. destruct (Hq f' w n) as [?|(n' & Hle & Hn')]; [done|by left|right].
    split; [done|]. exists n'. simpl. split; [done|lia].
Qed.
End invariant.

(** ** Theorems *)
Section theorems.
Context {W : Type → Type} `{!WaitQueue W}.
Implicit Types (x : Sys W) (f : nat) (l : Label) (q : list WaiterId) (m : gmap WaiterId WaitState).

Definition total (g : Obs → Z) (tr : list (Label * Obs)) : Z := foldr Z.add 0 (g <$> tr.*2).
Definition notifications (ls : list Label) : nat := sum_list (ones <$> ls).

Lemma condvar_total_snoc g tr e : total g (tr ++ [e]) = total g tr + g e.2.
Proof. unfold total. induction tr as [|e' tr IH]; csimpl in *; [lia|]. rewrite IH. lia. Qed.

Lemma condvar_new_ok : condvar_ok (new : Sys W) [] ∅.
Proof. split; simpl; [apply wq_new_rep|apply waiters_ok_empty|done|done|done]. Qed.

Lemma condvar_run_ok ls tr x :
  returns (run enabled exec ls) new tr x →
  ∃ q m, condvar_ok x q m ∧ total given tr = total spent tr + total lost tr + in_hand x m.
Proof.
  intros Hr. change tr with ([] ++ tr).
  eapply (run_trace_invariant enabled exec (λ tr x, ∃ q m, condvar_ok x q m ∧
    total given tr = total spent tr + total lost tr + in_hand x m)); [| |exact Hr].
  - intros tr' y l (q & m & Hy & Ha) He. wp_apply condvar_exec_ok; [done..|]. intros o y' (q' & m' & Ho).
    exists q', m'. split; [by destruct Ho|]. pose proof (ef_account _ _ _ _ _ _ _ _ Ho). rewrite !condvar_total_snoc. simpl. lia.
  - exists [], ∅. split; [apply condvar_new_ok|done].
Qed.

(** A queued wait advances until it is woken. *)
Lemma condvar_run_queued f w ls n x q m tr x' :
  condvar_ok x q m → queued f w n x q m → Forall (λ l, bool_decide (about l ≠ Some f) = true) ls →
  returns (run enabled exec ls) x tr x' →
  Exists (λ e, w ∈ woken e.2) tr ∨
  ((NotifyAll ∉ ls) ∧ ∃ n' q' m', condvar_ok x' q' m' ∧ queued f w n' x' q' m' ∧ (n' + notifications ls ≤ n)%nat).
Proof.
  revert n x q m tr. induction ls as [|l ls IH]; intros n x q m tr Hx Hq Hls Hr.
  - injection Hr as <- <-. right. split; [apply not_elem_of_nil|]. exists n, q, m. split_and!; [done|done|]. unfold notifications. simpl. lia.
  - apply Forall_cons in Hls as [Hl%bool_decide_eq_true Hls]. apply run_cons_inv in Hr as (He & o & x1 & tr' & Hx1 & Hr & ->).
    apply (wp_returns_elim _ _ _ _ _ (condvar_exec_ok l x q m Hx He)) in Hx1 as (q1 & m1 & Ho).
    destruct (ef_queued _ _ _ _ _ _ _ _ Ho f w n Hl Hq) as [Hw|(Hall & n1 & Hq1 & Hle)]; [left; by apply Exists_cons_hd|].
    destruct (IH n1 x1 q1 m1 tr') as [H|(Hni & n2 & q2 & m2 & Hx2 & Hq2 & Hle2)];
      [by destruct Ho|done|done|done|left; by apply Exists_cons_tl|right].
    split; [by rewrite not_elem_of_cons|]. exists n2, q2, m2. split_and!; [done|done|]. unfold notifications in *. csimpl. lia.
Qed.

(** C14: no notification is lost: over any run, the notifications that [notify_one] gave to a wait
    are those spent by waits that hold the mutex again, those still under way, and those that were
    passed on while nobody waited; and a step passes one on in vain only if its queue is then empty.
    No operation panics. *)
Theorem condvar_notifications_conserved ls tr x l o x1 :
  returns (run enabled exec ls) (new : Sys W) tr x → enabled l x = true → returns (exec l) x o x1 →
  no_panic enabled exec x ∧ (∃ q m, wq_rep (waiters x) q m ∧
    total given tr = total spent tr + total lost tr + map_sum one m + Z.of_nat (size (batons x))) ∧
  (lost o = 0 ∨ wq_is_empty (waiters x1) = true).
Proof.
  intros Hr He Hx1. destruct (condvar_run_ok ls tr x Hr) as (q & m & Hx & Ha).
  split; [apply (no_panic_wp _ _ _ _ (λ l, condvar_exec_ok l x q m Hx))|]. split.
  - exists q, m. split; [by destruct Hx|]. unfold in_hand in Ha. lia.
  - destruct (wp_returns_elim _ _ _ _ _ (condvar_exec_ok l x q m Hx He) Hx1) as (q' & m' & Ho).
    destruct (ef_lost _ _ _ _ _ _ _ _ Ho) as [?| ->]; [by left|right].
    rewrite (wq_is_empty_spec _ [] m' (co_rep _ _ _ (ef_ok _ _ _ _ _ _ _ _ Ho))). done.
Qed.

(** C15: waits are served in order and never missed: a wait that polled pending, and is not polled or
    dropped afterwards, is woken through the waker of that poll by any [notify_all] and by the time
    as many [notify_one] calls were made as there were waits; and as long as it was not woken it
    does not complete. *)
Theorem condvar_no_lost_wakeup ls tr x f cx o x1 ls' tr' x' :
  returns (run enabled exec ls) (new : Sys W) tr x → enabled (WaitPoll f cx) x = true →
  returns (exec (WaitPoll f cx)) x o x1 → completed o = false →
  Forall (λ l, bool_decide (about l ≠ Some f) = true) ls' → returns (run enabled exec ls') x1 tr' x' →
  (NotifyAll ∈ ls' ∨ (wq_len (waiters x1) ≤ notifications ls')%nat → Exists (λ e, cx ∈ woken e.2) tr') ∧
  (Exists (λ e, cx ∈ woken e.2) tr' ∨
    ∀ cx', enabled (WaitPoll f cx') x' = true → wp (exec (WaitPoll f cx')) x' (λ o' _, completed o' = false)).
Proof.
  intros Hr He Hx1 Hc Hls Hr'. destruct (condvar_run_ok ls tr x Hr) as (q & m & Hx & _). apply enabled_and in He as [Hf Hroom].
  apply (wp_returns_elim _ _ _ _ _ (condvar_poll_ok f cx x q m Hx Hf Hroom)) in Hx1 as (q1 & m1 & Ho & Hq & _).
  destruct (Hq Hc) as (n & Hn). pose proof (ef_ok _ _ _ _ _ _ _ _ Ho) as Hx1.
  destruct (condvar_run_queued f cx ls' n x1 q1 m1 tr' x' Hx1 Hn Hls Hr') as [H|(Hni & n' & q' & m' & Hx' & Hq' & Hle)];
    [split; [done|by left]|]. split.
  - intros [?|Hlen]; [done|]. exfalso. destruct Hn as (id & _ & _ & Hid%lookup_lt_Some).
    rewrite (wq_len_spec _ _ _ (co_rep _ _ _ Hx1)) in Hlen. pose proof (rep_length_le _ _ _ (co_rep _ _ _ Hx1)). lia.
  - right. intros cx' [Hf' Hroom']%enabled_and. wp_apply condvar_poll_ok; [done..|]. intros o' x2 (q2 & m2 & _ & _ & Hcp).
    destruct (completed o') eqn:Eo; [|done]. by destruct (Hcp eq_refl cx n').
Qed.
End theorems.

(** Three waits: one is notified and dropped, which passes the notification on. *)
Definition three_waits : list Label :=
  [WaitNew 0; WaitPoll 0 5%nat; WaitNew 1; WaitPoll 1 6%nat; WaitNew 2; WaitPoll 2 7%nat; NotifyOne; WaitDrop 0;
   WaitPoll 1 6%nat; BatonDrop 1; WaitPoll 2 7%nat; BatonComplete 2; NotifyOne].

Definition condvar_after (ls : list Label) : Sys WaitList := match run enabled exec ls new with Ret _ x | Panic _ x => x end.

Lemma condvar_notifications_conserved_witness :
  ∃ tr, returns (run enabled exec three_waits) new tr (condvar_after three_waits) ∧
    ∃ q m, wq_rep (waiters (condvar_after three_waits)) q m ∧
      total given tr = total spent tr + total lost tr + map_sum one m + Z.of_nat (size (batons (condvar_after three_waits))).
Proof.
  eexists. split; [vm_compute; reflexivity|].
  eapply (condvar_notifications_conserved three_waits _ _ NotifyAll); [vm_compute; reflexivity|reflexivity|vm_compute; reflexivity].
Defined.

Lemma condvar_no_lost_wakeup_witness :
  ∃ tr x, returns (run enabled exec [NotifyOne; NotifyOne; NotifyOne]) (condvar_after (take 6 three_waits)) tr x ∧
    Exists (λ e, 7%nat ∈ woken e.2) tr.
Proof.
  eexists _, _. split; [vm_compute; reflexivity|].
  refine (proj1 (condvar_no_lost_wakeup (take 5 three_waits) _ _ 2 7%nat _ _ [NotifyOne; NotifyOne; NotifyOne] _ _ _ _ _ _ _ _) _);
    [vm_compute; reflexivity|vm_compute; reflexivity|vm_compute; reflexivity|reflexivity|repeat constructor|vm_compute; reflexivity|].
  right. vm_compute. lia.
Defined.
