(* ===== verification/CondvarMutex.v ===== *)
(** * Waiting on a condition variable with a mutex

    [Condvar::wait] and its callers of [asyncband/src/condvar/mod.rs]: the waits of Condvar together
    with the mutex they give up and take again.  The mutex is a pool of one permit, so that the
    theorem holds for the semaphore the mutex is made of. *)
From S2P Require Import Prelude Arena WakerBatch WaitQueue WaitList PermitPool Condvar.

(** The tasks that hold the mutex outside a wait, those whose guard is being dropped by a wait, and
    those whose wait is over and that lock the mutex again. *)
Record Monitor (W : Type → Type) (P : Type) : Type := mkMonitor {
  cv : Sys W;
  mutex : P;
  holders : gset nat;
  unlocking : gset nat;
  relocking : gset nat;
}.
Arguments mkMonitor {W P}.
Arguments cv {W P}.
Arguments mutex {W P}.
Arguments holders {W P}.
Arguments unlocking {W P}.
Arguments relocking {W P}.

Section monitor.
Context {W : Type → Type} `{!WaitQueue W} {P : Type} `{!PermitPool P}.
Implicit Types (x : Monitor W P) (f h : nat) (l : Label).

Definition new (mu : P) : Monitor W P := mkMonitor Condvar.new mu ∅ ∅ ∅.

(** A step of the condition variable. *)
Definition cv_step l x (o : Obs) (c : Sys W) : Prop := enabled l (cv x) = true ∧ returns (exec l) (cv x) o c.

Definition lock h x x' : Prop :=
  (h ∉ holders x ∪ unlocking x ∪ relocking x ∪ dom (waits (cv x))) ∧ ∃ mu, pp_take 1 (mutex x) mu ∧
    x' = mkMonitor (cv x) mu ({[h]} ∪ holders x) (unlocking x) (relocking x).
Definition unlock h x x' : Prop :=
  h ∈ holders x ∧ ∃ mu, pp_give 1 (mutex x) mu ∧
    x' = mkMonitor (cv x) mu (holders x ∖ {[h]}) (unlocking x) (relocking x).

(** [wait]: the guard moves into the wait, *)
Definition wait_start f x x' : Prop :=
  f ∈ holders x ∧ ∃ o c, cv_step (WaitNew f) x o c ∧
    x' = mkMonitor c (mutex x) (holders x ∖ {[f]}) (unlocking x) (relocking x).
(** a poll registers the wait and gives up the guard, or ends the wait, *)
Definition wait_poll f cx x x' : Prop :=
  (f ∉ unlocking x) ∧ ∃ o c, cv_step (WaitPoll f cx) x o c ∧
    x' = mkMonitor c (mutex x) (holders x)
           (if bool_decide (f ∈ guards (cv x)) then {[f]} ∪ unlocking x else unlocking x)
           (if completed o then {[f]} ∪ relocking x else relocking x).
Definition drop_guard f x x' : Prop :=
  f ∈ unlocking x ∧ ∃ mu, pp_give 1 (mutex x) mu ∧
    x' = mkMonitor (cv x) mu (holders x) (unlocking x ∖ {[f]}) (relocking x).
(** then the mutex is locked again and the baton completed, *)
Definition relock f x x' : Prop :=
  f ∈ relocking x ∧ (f ∉ holders x) ∧ ∃ mu c, pp_take 1 (mutex x) mu ∧
    (if bool_decide (f ∈ batons (cv x)) then ∃ o, cv_step (BatonComplete f) x o c else c = cv x) ∧
    x' = mkMonitor c mu ({[f]} ∪ holders x) (unlocking x) (relocking x ∖ {[f]}).
(** unless the wait is cancelled before. *)
Definition wait_cancel f x x' : Prop :=
  (f ∉ unlocking x) ∧ ∃ o c, cv_step (WaitDrop f) x o c ∧
    x' = mkMonitor c (mutex x) (holders x)
           (if bool_decide (f ∈ guards (cv x)) then {[f]} ∪ unlocking x else unlocking x) (relocking x).
Definition relock_cancel f x x' : Prop :=
  f ∈ relocking x ∧ ∃ c, (if bool_decide (f ∈ batons (cv x)) then ∃ o, cv_step (BatonDrop f) x o c else c = cv x) ∧
    x' = mkMonitor c (mutex x) (holders x) (unlocking x) (relocking x ∖ {[f]}).

Definition notify l x x' : Prop :=
  (l = NotifyOne ∨ l = NotifyAll) ∧ ∃ o c, cv_step l x o c ∧
    x' = mkMonitor c (mutex x) (holders x) (unlocking x) (relocking x).

Inductive step : Monitor W P → Monitor W P → Prop :=
| step_lock h x x' : lock h x x' → step x x'
| step_unlock h x x' : unlock h x x' → step x x'
| step_wait_start f x x' : wait_start f x x' → step x x'
| step_wait_poll f cx x x' : wait_poll f cx x x' → step x x'
| step_drop_guard f x x' : drop_guard f x x' → step x x'
| step_relock f x x' : relock f x x' → step x x'
| step_wait_cancel f x x' : wait_cancel f x x' → step x x'
| step_relock_cancel f x x' : relock_cancel f x x' → step x x'
| step_notify l x x' : notify l x x' → step x x'
| step_internal x mu : pp_internal (mutex x) mu →
    step x (mkMonitor (cv x) mu (holders x) (unlocking x) (relocking x)).

(** ** Invariant *)
Definition guards_held x : Z :=
  Z.of_nat (size (holders x)) + Z.of_nat (size (guards (cv x))) + Z.of_nat (size (unlocking x)).

Record monitor_ok x : Prop := {
  mo_cv : ∃ q m, condvar_ok (cv x) q m;
  mo_mutex : pp_ok (mutex x);
  mo_one : guards_held x + pp_free (mutex x) <= 1;
  mo_batons : batons (cv x) ⊆ relocking x;
}.

Lemma size_add (s : gset nat) (k : nat) : (size ({[k]} ∪ s) ≤ S (size s))%nat.
Proof. rewrite size_union_alt, size_singleton. pose proof (subseteq_size (s ∖ {[k]}) s ltac:(set_solver)). lia. Qed.

Lemma size_remove (s : gset nat) (k : nat) : k ∈ s → size s = S (size (s ∖ {[k]})).
Proof. intros Hk. pose proof (size_pos_elem _ _ Hk). rewrite size_difference, size_singleton by set_solver. lia. Qed.

(** A step of the condition variable keeps its invariant and tells the guards and batons it leaves. *)
Lemma cv_step_ok l x o c :
  monitor_ok x → cv_step l x o c →
  (∃ q m, condvar_ok c q m) ∧ guards c = guards_after l (guards (cv x)) ∧ batons c ⊆ batons_after l o (batons (cv x)).
Proof.
  intros [(q & m & Hx) _ _ _] [He Hr].
  destruct (wp_returns_elim _ _ _ _ _ (condvar_exec_ok l (cv x) q m Hx He) Hr) as (q' & m' & Ho).
  split_and!; [exists q', m'; by destruct Ho|by destruct Ho..].
Qed.

(** A wait gives up its guard. *)
Lemma guard_leaves f x gs :
  gs = guards (cv x) ∖ {[f]} →
  (size gs + size (if bool_decide (f ∈ guards (cv x)) then {[f]} ∪ unlocking x else unlocking x)
    ≤ size (guards (cv x)) + size (unlocking x))%nat.
Proof.
  intros ->. pose proof (size_add (unlocking x) f). case_bool_decide as Hf.
  - rewrite (size_remove _ _ Hf). lia.
  - rewrite difference_disjoint_L by set_solver. lia.
Qed.

Lemma monitor_step_ok x x' : monitor_ok x → step x x' → monitor_ok x'.
Proof.
  intros Hx Hs. pose proof Hx as [Hcv Hmu Hone Hb]. pose proof (size_add (holders x)) as Hadd. unfold guards_held in Hone.
  destruct Hs as [h x x' (_ & mu & Ht & ->)|h x x' (Hh & mu & Ht & ->)|f x x' (Hf & o & c & Hc & ->)|f cx x x' (_ & o & c & Hc & ->)
    |f x x' (Hf & mu & Ht & ->)|f x x' (Hf & _ & mu & c & Ht & Hc & ->)|f x x' (_ & o & c & Hc & ->)|f x x' (Hf & c & Hc & ->)
    |l x x' (Hl & o & c & Hc & ->)|x mu Ht].
  - destruct (pp_take_spec _ _ _ Hmu Ht) as [Hmu' Ef]. split; [done..| |done]. unfold guards_held. simpl. pose proof (Hadd h). lia.
  - destruct (pp_give_spec _ _ _ Hmu Ht) as [Hmu' Ef]. split; [done..| |done]. unfold guards_held. simpl.
    rewrite (size_remove _ _ Hh) in Hone. lia.
  - destruct (cv_step_ok _ _ _ _ Hx Hc) as (Hcv' & Eg & Eb). split; [done..| |set_solver]. unfold guards_held. simpl.
    rewrite Eg. simpl. pose proof (size_add (guards (cv x)) f). rewrite (size_remove _ _ Hf) in Hone. lia.
  - destruct (cv_step_ok _ _ _ _ Hx Hc) as (Hcv' & Eg & Eb). split; [done..| |].
    + unfold guards_held. simpl. pose proof (guard_leaves f x (guards c) Eg). lia.
    + simpl in *. destruct (completed o); set_solver.
  - destruct (pp_give_spec _ _ _ Hmu Ht) as [Hmu' Ef]. split; [done..| |done]. unfold guards_held. simpl.
    rewrite (size_remove _ _ Hf) in Hone. lia.
  - destruct (pp_take_spec _ _ _ Hmu Ht) as [Hmu' Ef]. case_bool_decide as Hfb.
    + destruct Hc as [o Hc]. destruct (cv_step_ok _ _ _ _ Hx Hc) as (Hcv' & Eg & Eb). split; [done..| |set_solver].
      unfold guards_held. simpl. rewrite Eg. simpl. pose proof (Hadd f). lia.
    + subst c. split; [done..| |set_solver]. unfold guards_held. simpl. pose proof (Hadd f). lia.
  - destruct (cv_step_ok _ _ _ _ Hx Hc) as (Hcv' & Eg & Eb). split; [done..| |set_solver].
    unfold guards_held. simpl. pose proof (guard_leaves f x (guards c) Eg). lia.
  - case_bool_decide as Hfb; [|by subst c; split; [done..|set_solver]]. destruct Hc as [o Hc].
    destruct (cv_step_ok _ _ _ _ Hx Hc) as (Hcv' & Eg & Eb). split; [done..| |set_solver]. unfold guards_held. simpl. by rewrite Eg.
  - destruct (cv_step_ok _ _ _ _ Hx Hc) as (Hcv' & Eg & Eb).
    split; [done..| |destruct Hl as [->| ->]; set_solver]. unfold guards_held. simpl. by destruct Hl as [->| ->]; rewrite Eg.
  - destruct (pp_internal_spec _ _ Hmu Ht) as [Hmu' Ef]. split; [done..| |done]. unfold guards_held. simpl. lia.
Qed.

Lemma monitor_reachable_ok mu x : pp_ok mu → pp_free mu <= 1 → rtc step (new mu) x → monitor_ok x.
Proof.
  intros Hmu Hf. apply (rtc_ind_r monitor_ok); [|intros y z _ Hyz Hy; by eapply monitor_step_ok].
  split; [exists [], ∅; apply condvar_new_ok|done|change (0 + pp_free mu <= 1); lia|done].
Qed.

(** ** Theorem *)

(** C16: waiting gives up the mutex without a gap: in every reachable state, with locks, waits,
    notifications and cancellations interleaved in any way, at most one guard of the mutex exists,
    the ones of waits that returned included; a wait that gave up its guard is registered, so that
    whoever locks the mutex afterwards finds it; and a notification kept by a wait that is over
    belongs to a task that is locking the mutex again. *)
Theorem condvar_waits_atomically mu x :
  pp_ok mu → pp_free mu <= 1 → rtc step (new mu) x →
  guards_held x <= 1 ∧ (guards_held x = 1 → pp_available (mutex x) = 0) ∧
  (∀ f i, waits (cv x) !! f = Some i → (f ∉ guards (cv x)) → is_Some i) ∧ batons (cv x) ⊆ relocking x.
Proof.
  intros Hmu Hf Hr. destruct (monitor_reachable_ok mu x Hmu Hf Hr) as [(q & m & Hcv) Hmu' Hone Hb].
  pose proof (pp_available_spec _ Hmu') as Ha. split_and!; [lia|lia| |done].
  intros f [id|] Hi Hg; [by eexists|]. destruct Hg. by apply (co_guards _ _ _ Hcv f None).
Qed.
End monitor.

(** A task waits, and another one has locked the mutex. *)
Lemma condvar_waits_atomically_witness :
  ∃ x : Monitor WaitList Z, rtc step (new 1) x ∧ waits (cv x) !! 0%nat = Some (Some 1%positive) ∧ holders x = {[1%nat]} ∧
    guards_held x <= 1 ∧ (guards_held x = 1 → pp_available (mutex x) = 0) ∧
    (∀ f i, waits (cv x) !! f = Some i → (f ∉ guards (cv x)) → is_Some i) ∧ batons (cv x) ⊆ relocking x.
Proof.
  assert (∃ x : Monitor WaitList Z, rtc step (new 1) x ∧ waits (cv x) !! 0%nat = Some (Some 1%positive) ∧ holders x = {[1%nat]}) as (x & Hr & Hw & Hh).
  { eexists. split.
    - eapply rtc_l; [apply (step_lock 0); split; [set_solver|]; exists 0; split; [by split|reflexivity]|].
      eapply rtc_l; [apply (step_wait_start 0); split; [set_solver|]; eexists _, _; split; [split; vm_compute; reflexivity|reflexivity]|].
      eapply rtc_l; [apply (step_wait_poll 0 5%nat); split; [set_solver|]; eexists _, _; split; [split; vm_compute; reflexivity|reflexivity]|].
      eapply rtc_l; [apply (step_drop_guard 0); split; [vm_compute; reflexivity|]; exists 1; split; [by split|reflexivity]|].
      eapply rtc_l; [apply (step_lock 1); split; [|exists 0; split; [by split|reflexivity]]|apply rtc_refl].
      apply (bool_decide_unpack _). vm_compute. exact I.
    - split; vm_compute; reflexivity. }
  exists x. split_and!; [done|done|done|..]; apply (condvar_waits_atomically 1); done.
Defined.
