(* ===== verification/Mpmc.v ===== *)
(** * The multi-producer multi-consumer queue

    [asyncband/src/mpmc/queue.rs]: the state shared by the bounded and unbounded mpmc channels,
    its operations and the [Permit], [Reserve] and [Recv] objects.  Every operation is one
    critical section of the state lock followed by wake-ups, so the interleavings of concurrent
    users are the schedules of the system at the end of the file.  The theorems: slots of a
    bounded queue are conserved, capacity goes to the oldest waiting sender, no wake-up of a
    receiver is lost, values leave in the order they entered, and no [unreachable!], [expect] or
    arithmetic of the source can fail. *)
From S2P Require Import Prelude Arena WaitQueue WaitList.

Inductive RecvWaiter : Type :=
| RecvWaiting (waker : Waker)
| RecvNotified.

Inductive SendWaiter : Type :=
| SendWaiting (waker : Waker)
| SendGranted.

Inductive TrySendError (A : Type) : Type :=
| Full (v : A)
| Disconnected (v : A).
Arguments Full {A} v.
Arguments Disconnected {A} v.

Inductive TryRecvError : Type := RecvEmpty | RecvDisconnected.
Inductive RecvError : Type := Disconnected_.

Definition recv_waker (w : RecvWaiter) : option Waker :=
  match w with RecvWaiting waker => Some waker | RecvNotified => None end.
Definition send_waker (w : SendWaiter) : option Waker :=
  match w with SendWaiting waker => Some waker | SendGranted => None end.

Record State (W : Type → Type) (T : Type) : Type := mkState {
  values : list T;
  (** [None] is an unbounded queue. *)
  available : option Z;
  senders : Z;
  receivers : Z;
  recv_waiters : W RecvWaiter;
  send_waiters : W SendWaiter;
}.
Arguments mkState {W T}.
Arguments values {W T}.
Arguments available {W T}.
Arguments senders {W T}.
Arguments receivers {W T}.
Arguments recv_waiters {W T}.
Arguments send_waiters {W T}.

Section queue.
Context {W : Type → Type} `{!WaitQueue W} {T : Type}.
Implicit Types (s : State W T).

Definition set_values (v : list T) s : State W T :=
  mkState v (available s) (senders s) (receivers s) (recv_waiters s) (send_waiters s).
Definition set_available (a : option Z) s : State W T :=
  mkState (values s) a (senders s) (receivers s) (recv_waiters s) (send_waiters s).
Definition set_senders (n : Z) s : State W T :=
  mkState (values s) (available s) n (receivers s) (recv_waiters s) (send_waiters s).
Definition set_receivers (n : Z) s : State W T :=
  mkState (values s) (available s) (senders s) n (recv_waiters s) (send_waiters s).
Definition set_recv_waiters (w : W RecvWaiter) s : State W T :=
  mkState (values s) (available s) (senders s) (receivers s) w (send_waiters s).
Definition set_send_waiters (w : W SendWaiter) s : State W T :=
  mkState (values s) (available s) (senders s) (receivers s) (recv_waiters s) w.

Definition in_recv {A : Type} (m : M (W RecvWaiter) A) : M (State W T) A :=
  zoom recv_waiters set_recv_waiters m.
Definition in_send {A : Type} (m : M (W SendWaiter) A) : M (State W T) A :=
  zoom send_waiters set_send_waiters m.

(** ** Waiter lists *)

Definition notify_one : M (W RecvWaiter) (option Waker) :=
  notify_first recv_waker RecvNotified "only waiting operations remain linked".

Definition grant_one : M (W SendWaiter) (option Waker) :=
  notify_first send_waker SendGranted "only waiting operations remain linked".

Definition take_waiting_waker : M (W SendWaiter) (option Waker) :=
  '(r, _) ← wq_unlink_first always tt;
  match r with
  | None => mret None
  | Some (id, _) =>
      waiter ← wq_remove id;
      match waiter with
      | SendWaiting waker => mret (Some waker)
      | SendGranted => panic "only waiting operations remain linked"
      end
  end.

(** [WaitList<RecvWaiter>::register]: the identifier held afterwards, and the replaced waker. *)
Definition register_recv (id : option WaiterId) (current : Waker)
    : M (W RecvWaiter) (option WaiterId * option Waker) :=
  queued ← match id with
           | Some queued => w ← wq_waiter queued; mret (Some (queued, w))
           | None => mret None
           end;
  match queued with
  | Some (queued, RecvWaiting waker) =>
      if will_wake waker current then mret (id, None)
      else wq_set_waiter queued (RecvWaiting current);; mret (id, Some waker)
  | _ =>
      match id with
      | Some notified => remove_waiter notified;; mret tt
      | None => mret tt
      end;;
      id ← wq_push_back (RecvWaiting current);
      mret (Some id, None)
  end.

Definition register_waiter (id : option WaiterId) (current : Waker)
    : M (W SendWaiter) (option WaiterId * option Waker) :=
  match id with
  | Some queued =>
      w ← wq_waiter queued;
      match w with
      | SendGranted => panic "a granted waiter must be claimed before registration"
      | SendWaiting waker =>
          if will_wake waker current then mret (id, None)
          else wq_set_waiter queued (SendWaiting current);; mret (id, Some waker)
      end
  | None =>
      id ← wq_push_back (SendWaiting current);
      mret (Some id, None)
  end.

(** ** The shared state *)

Definition has_capacity s : bool :=
  match available s with
  | None => true
  | Some available => bool_decide (available ≠ 0)
  end.

Definition take_slot : M (State W T) unit :=
  s ← get;
  match available s with
  | Some available => n ← sub_int available 1; put (set_available (Some n) s)
  | None => mret tt
  end.

Definition acquire : M (State W T) (result unit (TrySendError unit)) :=
  s ← get;
  if bool_decide (receivers s = 0) then mret (Err (Disconnected tt))
  else if negb (has_capacity s) then mret (Err (Full tt))
  else take_slot;; mret (Ok tt).

Definition release : M (State W T) (option Waker) :=
  s ← get;
  if bool_decide (receivers s = 0) then mret None
  else
    match available s with
    | None => mret None
    | Some available =>
        r ← in_send grant_one;
        match r with
        | Some waker => mret (Some waker)
        | None =>
            n ← add_int usize_max available 1;
            modify (set_available (Some n));;
            mret None
        end
    end.

Definition push (value : T) : M (State W T) (option Waker) :=
  modify (λ s, set_values (values s ++ [value]) s);;
  in_recv notify_one.

Definition pop : M (State W T) (result (T * option Waker) TryRecvError) :=
  s ← get;
  match values s with
  | value :: rest =>
      put (set_values rest s);;
      waker ← release;
      mret (Ok (value, waker))
  | [] =>
      if bool_decide (senders s = 0) then mret (Err RecvDisconnected) else mret (Err RecvEmpty)
  end.

(** ** [Shared]: the operations of the handles.  The list returned holds the wakers woken, in
    order, after the lock is released. *)

Definition new (capacity : option Z) : State W T := mkState [] capacity 1 1 wq_new wq_new.

Definition clone_sender : M (State W T) unit :=
  s ← get; n ← add_int usize_max (senders s) 1; put (set_senders n s).

Definition drop_sender : M (State W T) (list Waker) :=
  s ← get;
  n ← sub_int (senders s) 1;
  put (set_senders n s);;
  if bool_decide (n ≠ 0) then mret []
  else
    modify (set_recv_waiters wq_new);;
    run_local (recv_waiters s) (while_some (S (wq_len (recv_waiters s))) notify_one).

Definition clone_receiver : M (State W T) unit :=
  s ← get; n ← add_int usize_max (receivers s) 1; put (set_receivers n s).

(** The second component holds the buffered values that are dropped. *)
Definition drop_receiver : M (State W T) (list Waker * list T) :=
  s ← get;
  n ← sub_int (receivers s) 1;
  put (set_receivers n s);;
  if bool_decide (n ≠ 0) then mret ([], [])
  else
    modify (set_values []);;
    modify (set_send_waiters wq_new);;
    ws ← run_local (send_waiters s) (while_some (S (wq_len (send_waiters s))) take_waiting_waker);
    mret (ws, values s).

Definition has_senders s : bool := bool_decide (senders s ≠ 0).
Definition has_receivers s : bool := bool_decide (receivers s ≠ 0).
Definition is_empty s : bool := bool_decide (values s = []).

Definition wake (o : option Waker) : list Waker := match o with Some w => [w] | None => [] end.

Definition try_send (value : T) : M (State W T) (result unit (TrySendError T) * list Waker) :=
  r ← acquire;
  match r with
  | Err (Full _) => mret (Err (Full value), [])
  | Err (Disconnected _) => mret (Err (Disconnected value), [])
  | Ok _ => waker ← push value; mret (Ok tt, wake waker)
  end.

(** [try_reserve]: [Ok] hands out a permit. *)
Definition try_reserve : M (State W T) (result unit (TrySendError unit)) := acquire.

Definition try_recv : M (State W T) (result T TryRecvError * list Waker) :=
  r ← pop;
  match r with
  | Ok (value, waker) => mret (Ok value, wake waker)
  | Err e => mret (Err e, [])
  end.

(** [Permit::drop] and [Permit::send]; a failed send drops the permit. *)
Definition permit_drop : M (State W T) (list Waker) := waker ← release; mret (wake waker).

Definition permit_send (value : T) : M (State W T) (result unit T * list Waker) :=
  s ← get;
  if bool_decide (receivers s = 0)
  then ws ← permit_drop; mret (Err value, ws)
  else waker ← push value; mret (Ok tt, wake waker).

(** [Reserve::poll] and [Reserve::drop] on the waiter the future holds. *)
Definition reserve_poll (waiter : option WaiterId) (cx : Waker)
    : M (State W T) (option WaiterId * Poll (result unit unit)) :=
  s ← get;
  if bool_decide (receivers s = 0) then mret (None, Ready (Err tt))
  else
    claimed ← match waiter with
              | Some id =>
                  w ← in_send (wq_waiter id);
                  match w with
                  | SendGranted => in_send (wq_remove id);; mret true
                  | SendWaiting _ => mret false
                  end
              | None =>
                  if has_capacity s then take_slot;; mret true else mret false
              end;
    if (claimed : bool) then mret (None, Ready (Ok tt))
    else
      '(waiter, _) ← in_send (register_waiter waiter cx);
      mret (waiter, Pending).

Definition reserve_drop (waiter : option WaiterId) : M (State W T) (list Waker) :=
  match waiter with
  | None => mret []
  | Some id =>
      s ← get;
      if bool_decide (receivers s = 0) then mret []
      else
        retired ← in_send (remove_waiter id);
        match retired with
        | SendGranted => waker ← release; mret (wake waker)
        | SendWaiting _ => mret []
        end
  end.

(** [Recv::poll] and [Recv::drop]. *)
Definition recv_poll (waiter : option WaiterId) (cx : Waker)
    : M (State W T) (option WaiterId * Poll (result T RecvError) * list Waker) :=
  s ← get;
  let waiter := if bool_decide (senders s = 0) then None else waiter in
  outcome ← pop;
  match outcome with
  | Err RecvEmpty =>
      '(waiter, _) ← in_recv (register_recv waiter cx);
      mret (waiter, Pending, [])
  | Err RecvDisconnected =>
      match waiter with Some id => in_recv (remove_waiter id);; mret tt | None => mret tt end;;
      mret (None, Ready (Err Disconnected_), [])
  | Ok (value, waker) =>
      match waiter with Some id => in_recv (remove_waiter id);; mret tt | None => mret tt end;;
      mret (None, Ready (Ok value), wake waker)
  end.

Definition recv_drop (waiter : option WaiterId) : M (State W T) (list Waker) :=
  match waiter with
  | None => mret []
  | Some id =>
      s ← get;
      if bool_decide (senders s = 0) then mret []
      else
        retired ← in_recv (remove_waiter id);
        s ← get;
        match retired with
        | RecvNotified =>
            if bool_decide (values s = []) then mret []
            else waker ← in_recv notify_one; mret (wake waker)
        | RecvWaiting _ => mret []
        end
  end.

(** ** The channel front ends *)

(** [bounded] and [unbounded]: the state the two handles share. *)
Definition bounded {S : Type} (capacity : Z) : M S (State W T) :=
  assert_true (bool_decide (0 < capacity)) "mpmc bounded queue requires capacity > 0";;
  mret (new (Some capacity)).
Definition unbounded : State W T := new None.

(** [UnboundedSender::send]. *)
Definition unbounded_send (value : T) : M (State W T) (result unit T * list Waker) :=
  '(r, ws) ← try_send value;
  match r with
  | Ok _ => mret (Ok tt, ws)
  | Err (Disconnected value) => mret (Err value, ws)
  | Err (Full _) => panic "unbounded queue cannot be full"
  end.

Definition sender_is_disconnected s : bool := negb (has_receivers s).
Definition receiver_is_disconnected s : bool := negb (has_senders s).

(** The future of [Shared::send]: not yet polled, waiting in [reserve], or finished. *)
Inductive SendFut : Type :=
| SendStart (value : T)
| SendReserving (value : T) (waiter : option WaiterId)
| SendDone.

Definition send_reserving (value : T) (waiter : option WaiterId) (cx : Waker)
    : M (State W T) (SendFut * Poll (result unit T) * list Waker) :=
  '(waiter, r) ← reserve_poll waiter cx;
  match r with
  | Ready (Ok _) => '(r, ws) ← permit_send value; mret (SendDone, Ready r, ws)
  | Ready (Err _) => mret (SendDone, Ready (Err value), [])
  | Pending => mret (SendReserving value waiter, Pending, [])
  end.

Definition send_poll (fut : SendFut) (cx : Waker)
    : M (State W T) (SendFut * Poll (result unit T) * list Waker) :=
  match fut with
  | SendStart value =>
      '(r, ws) ← try_send value;
      match r with
      | Ok _ => mret (SendDone, Ready (Ok tt), ws)
      | Err (Disconnected value) => mret (SendDone, Ready (Err value), ws)
      | Err (Full value) => send_reserving value None cx
      end
  | SendReserving value waiter => send_reserving value waiter cx
  | SendDone => panic "`async fn` resumed after completion"
  end.
End queue.
Arguments SendFut : clear implicits.

#[export] Hint Unfold in_recv in_send : band_zoom.

(** ** Invariants of the two sides *)
Section invariants.
Context {W : Type → Type} `{!WaitQueue W} {T : Type}.
Implicit Types (s : State W T) (futs : futures) (cap : option Z) (p k : Z).

Definition n_values s : Z := Z.of_nat (length (values s)).

(** Sending side: [p] slots are held by permits and operations in flight.  While a receiver lives,
    every slot of a bounded queue is available, occupied by a value, held by a permit or granted to
    a detached waiter, and a sender waits only when no slot is available. *)
Definition send_side cap futs p s : Prop :=
  ∃ q m, wq_rep (send_waiters s) q m ∧
    (receivers s = 0 → m = ∅) ∧
    (receivers s ≠ 0 → waiters_ok send_waker futs q m) ∧
    match cap, available s with
    | None, None => m = ∅
    | Some c, Some a =>
        0 <= a <= c ∧ c <= usize_max ∧
        (receivers s ≠ 0 → a + n_values s + p + detached_count q m = c ∧ (q ≠ [] → a = 0))
    | _, _ => False
    end.

(** Receiving side: while a sender lives and receivers wait, at least [k] more of them have been
    notified than there are values. *)
Definition recv_side futs k s : Prop :=
  ∃ q m, wq_rep (recv_waiters s) q m ∧
    (senders s = 0 → m = ∅) ∧
    (senders s ≠ 0 → waiters_ok recv_waker futs q m ∧ (q ≠ [] → n_values s + k <= detached_count q m)).

(** Operations of the sending side leave the other fields alone. *)
Record send_frame s s' : Prop := {
  sf_values : values s' = values s;
  sf_senders : senders s' = senders s;
  sf_receivers : receivers s' = receivers s;
  sf_recv_waiters : recv_waiters s' = recv_waiters s;
}.

Lemma recv_side_frame futs k s s' : send_frame s s' → recv_side futs k s → recv_side futs k s'.
Proof. intros [Hv Hs _ Hw]. unfold recv_side, n_values. by rewrite Hv, Hs, Hw. Qed.

Lemma take_slot_spec cap futs p s :
  send_side cap futs p s → receivers s ≠ 0 → has_capacity s = true →
  wp take_slot s (λ _ s', send_side cap futs (p + 1) s' ∧ send_frame s s' ∧
    send_waiters s' = send_waiters s).
Proof.
  intros (q & m & Hrep & H0 & Hok & Hcap) Hr Hc. unfold take_slot, has_capacity in *. wp_auto.
  destruct (available s) as [a|] eqn:Ha.
  - apply bool_decide_eq_true in Hc. destruct cap as [c|]; [|done].
    destruct Hcap as (Hac & Hc' & Heq). destruct (Heq Hr) as [Heq' Hq].
    wp_auto. apply wp_sub_int; [lia|]. wp_auto. split_and!; [|by split|done].
    exists q, m. simpl. split_and!; try done; [lia..|]. intros _. unfold n_values in *; simpl.
    split; [lia|]. intros Hne. specialize (Hq Hne). lia.
  - wp_auto. destruct cap; [done|]. split_and!; [|by split|done]. exists q, m. by rewrite Ha.
Qed.

Lemma release_spec cap futs p s :
  send_side cap futs (p + 1) s → 0 <= p →
  wp release s (λ _ s', send_side cap futs p s' ∧ send_frame s s').
Proof.
  intros (q & m & Hrep & H0 & Hok & Hcap) Hp. unfold release. wp_auto.
  case_bool_decide as Hr; wp_auto.
  { split; [|by split]. exists q, m. split_and!; try done.
    destruct cap, (available s); try done. naive_solver. }
  specialize (Hok Hr). destruct cap as [c|], (available s) as [a|] eqn:Ha; try done; wp_auto.
  - destruct Hcap as (Hac & Hc & Heq). destruct (Heq Hr) as [Heq' Hq].
    pose proof (detached_nonneg _ _ _ Hrep) as Hd.
    wp_apply notify_first_spec; [done..|]. intros r w Hw. destruct q as [|id q].
    + destruct Hw as [-> ->]. wp_auto. unfold n_values in *.
      apply wp_add_int; [lia|]. wp_auto. split; [|by split].
      exists [], m. simpl. split_and!; try done; [lia..|]. intros _. unfold n_values; simpl.
      split; [lia|done].
    + destruct Hw as (Hs & -> & [wk Hwk] & Hrep' & Hok' & _). rewrite Hwk. wp_auto.
      split; [|by split]. exists q, (<[id:=SendGranted]> m). simpl. rewrite Ha.
      split_and!; try done; [lia..|]. intros _. unfold n_values in *; simpl.
      rewrite detached_notify by done. split; [lia|]. intros _. by apply Hq.
  - split; [|by split]. exists q, m. by rewrite Ha.
Qed.

(** A slot changes hands between the buffer and the operation in flight. *)
Lemma send_side_set_values cap futs p p' vs s :
  send_side cap futs p s → n_values s + p = Z.of_nat (length vs) + p' →
  send_side cap futs p' (set_values vs s).
Proof.
  intros (q & m & Hrep & H0 & Hok & Hcap) Hn. exists q, m. simpl. split_and!; try done.
  destruct cap as [c|], (available s); try done. destruct Hcap as (? & ? & Heq).
  split_and!; try lia. intros Hr. destruct (Heq Hr) as [Heq' Hq].
  unfold n_values in *. simpl. split; [lia|done].
Qed.

(** A value takes over the slot held in flight and notifies the oldest waiting receiver. *)
Lemma mpmc_push_spec cap futs rfuts p s v :
  send_side cap futs (p + 1) s → recv_side rfuts 0 s →
  wp (push v) s (λ _ s', send_side cap futs p s' ∧ recv_side rfuts 0 s' ∧
    values s' = values s ++ [v] ∧ senders s' = senders s ∧ receivers s' = receivers s).
Proof.
  intros Hs0 (q' & m' & Hrep' & H0' & Hok').
  assert (send_side cap futs p (set_values (values s ++ [v]) s)) as Hsend.
  { eapply send_side_set_values; [done|]. unfold n_values. rewrite length_app. simpl. lia. }
  unfold push. wp_auto. destruct (decide (senders s = 0)) as [Hs|Hs].
  - specialize (H0' Hs) as ->. pose proof (rep_empty_queue _ _ Hrep') as ->.
    wp_apply (notify_first_spec recv_waker _ ∅); [done|apply waiters_ok_empty|done|].
    intros r w [-> ->]. split_and!; try done. exists [], ∅. by split_and!.
  - destruct (Hok' Hs) as [Hw Hd]. wp_apply notify_first_spec; [done..|].
    intros r w Hr. destruct q' as [|id q'].
    + destruct Hr as [-> ->]. split_and!; try done. exists [], m'. by split_and!.
    + destruct Hr as (Hsm & _ & _ & Hrep'' & Hw' & _). split_and!; try done.
      exists q', (<[id:=RecvNotified]> m'). split_and!; try done. intros _. split; [done|].
      intros _. rewrite detached_notify by done. specialize (Hd ltac:(done)).
      unfold n_values in *. simpl. rewrite length_app. simpl. lia.
Qed.

(** Taking a value frees its slot; one more receiver than needed is then notified. *)
Lemma pop_spec cap futs rfuts p s :
  send_side cap futs p s → recv_side rfuts 0 s → 0 <= p →
  wp pop s (λ r s',
    match values s with
    | v :: rest =>
        (∃ waker, r = Ok (v, waker)) ∧ values s' = rest ∧ senders s' = senders s ∧
        receivers s' = receivers s ∧ send_side cap futs p s' ∧ recv_side rfuts 1 s'
    | [] =>
        s' = s ∧ r = Err (if decide (senders s = 0) then RecvDisconnected else RecvEmpty)
    end).
Proof.
  intros Hs0 (q' & m' & Hrep' & H0' & Hok') Hp.
  unfold pop. wp_auto. destruct (values s) as [|v rest] eqn:Hv.
  { case_bool_decide; wp_auto; by case_decide. }
  wp_auto. assert (send_side cap futs (p + 1) (set_values rest s)) as Hsend.
  { eapply send_side_set_values; [done|]. unfold n_values. rewrite Hv. simpl. lia. }
  wp_apply release_spec; [done..|]. intros waker s' [Hs' Hf]. wp_auto.
  split_and!; [by eauto|apply Hf|apply Hf|apply Hf|done|].
  apply (recv_side_frame _ _ _ _ Hf). exists q', m'. split_and!; try done. intros Hs.
  destruct (Hok' Hs) as [Hw Hd]. split; [done|]. intros Hq. specialize (Hd Hq).
  unfold n_values in *. rewrite Hv in Hd. simpl in *. lia.
Qed.

(** The owner of a receiving waiter removes it: at most one notification leaves with it. *)
Lemma recv_remove_spec rfuts k s f id :
  recv_side rfuts k s → senders s ≠ 0 → rfuts !! f = Some (Some id) →
  wp (remove_waiter id) (recv_waiters s) (λ w n,
    recv_side (<[f:=None]> rfuts) (k - 1) (set_recv_waiters n s) ∧
    (∀ waker, w = RecvWaiting waker → recv_side (<[f:=None]> rfuts) k (set_recv_waiters n s)) ∧
    (wq_room (recv_waiters s) → wq_room n)).
Proof.
  intros (q & m & Hrep & H0 & Hok) Hs Hf. destruct (Hok Hs) as [Hw Hd].
  destruct (waiters_ok_owner _ _ _ _ _ _ Hw Hf) as [v Hv]. wp_auto.
  wp_apply remove_waiter_spec; [done..|]. intros v' n (-> & Hrep' & Hroom).
  pose proof (wq_rep_nodup _ _ _ Hrep) as Hnd.
  pose proof (detached_remove q m id v Hnd Hv) as Hcount.
  pose proof (waiters_ok_remove _ _ _ _ _ _ Hw Hf) as Hw'.
  assert (without id q ≠ [] → q ≠ []) as Hne by (intros Hne ->; done).
  split_and!; try done.
  - exists (without id q), (delete id m). split_and!; try done. intros _. split; [done|].
    intros Hq. specialize (Hd (Hne Hq)). unfold n_values in *. simpl.
    rewrite Hcount. case_decide; lia.
  - intros waker ->. exists (without id q), (delete id m). split_and!; try done. intros _.
    split; [done|]. intros Hq. specialize (Hd (Hne Hq)). unfold n_values in *. simpl.
    rewrite Hcount, decide_True; [lia|]. eapply wo_waiting; [done..|by eexists].
Qed.

(** Registering a receiver that found the queue empty. *)
Lemma register_recv_spec rfuts k s f id cx :
  recv_side rfuts k s → senders s ≠ 0 → values s = [] → rfuts !! f = Some id →
  wq_room (recv_waiters s) →
  wp (register_recv id cx) (recv_waiters s) (λ r n,
    recv_side (<[f:=r.1]> rfuts) 0 (set_recv_waiters n s)).
Proof.
  intros (q & m & Hrep & H0 & Hok) Hs Hv Hf Hroom. destruct (Hok Hs) as [Hw _].
  assert (∀ futs n q m, wq_rep n q m → waiters_ok recv_waker futs q m →
    recv_side futs 0 (set_recv_waiters n s)) as Hside.
  { intros futs n q1 m1 Hrep1 Hw1. exists q1, m1. split_and!; try done. intros _. split; [done|].
    intros _. unfold n_values. simpl. rewrite Hv. pose proof (detached_nonneg _ _ _ Hrep1).
    simpl. lia. }
  assert (∀ w q m futs, wq_rep w q m → wq_room w → waiters_ok recv_waker futs q m →
    futs !! f = Some None →
    wp (wq_push_back (RecvWaiting cx)) w (λ id n, recv_side (<[f:=Some id]> futs) 0 (set_recv_waiters n s)))
    as Hpush.
  { intros w q1 m1 futs Hrep1 Hroom1 Hw1 Hf1. wp_apply wq_push_back_spec; [done..|].
    intros i n [Hn Hrep2]. eapply Hside; [done|]. apply waiters_ok_register; try done.
    intros Hin. destruct (wq_rep_linked _ _ _ _ Hrep1 Hin). congruence. }
  unfold register_recv. wp_auto. destruct id as [id|]; wp_auto.
  - destruct (waiters_ok_owner _ _ _ _ _ _ Hw Hf) as [v Hm].
    wp_apply wq_waiter_spec; [done..|]. intros v' w' [-> ->]. wp_auto. destruct v as [waker|].
    + assert (id ∈ q) as Hin by (eapply wo_waiting; [done..|by eexists]).
      unfold will_wake. case_bool_decide; wp_auto.
      * simpl. rewrite insert_id by done. by eapply Hside.
      * wp_apply wq_set_waiter_spec; [done|by eauto|]. intros _ n [Hrep' _]. wp_auto.
        simpl. rewrite insert_id by done. eapply Hside; [done|].
        apply waiters_ok_refresh; eauto.
    + wp_auto. wp_apply remove_waiter_spec; [done..|]. intros v' n (-> & Hrep' & Hroom'). wp_auto.
      wp_apply (Hpush n _ _ (<[f:=None]> rfuts)); [done|auto|by apply waiters_ok_remove|apply lookup_insert_eq|].
      intros i n' Hi. wp_auto. by rewrite insert_insert_eq in Hi.
  - wp_apply (Hpush _ q m rfuts); [done..|]. intros i n' Hi. wp_auto. done.
Qed.

(** Changing the waiters of the sending side so that the slots still add up. *)
Lemma send_side_waiters cap futs' p p' s n q (m : gmap WaiterId SendWaiter) q' m' :
  match cap, available s with
  | None, None => m = ∅
  | Some c, Some a => 0 <= a <= c ∧ c <= usize_max ∧
      (receivers s ≠ 0 → a + n_values s + p + detached_count q m = c ∧ (q ≠ [] → a = 0))
  | _, _ => False
  end →
  receivers s ≠ 0 →
  (cap = None → m' = ∅) →
  (∀ a, available s = Some a → q' ≠ [] → q ≠ [] ∨ a = 0) →
  wq_rep n q' m' → waiters_ok send_waker futs' q' m' →
  p' + detached_count q' m' = p + detached_count q m →
  send_side cap futs' p' (set_send_waiters n s).
Proof.
  intros Hcap Hr Hm Hq' Hrep Hok Hd. exists q', m'. simpl. split_and!; try done.
  destruct cap as [c|], (available s) as [a|]; try done; [|by apply Hm].
  destruct Hcap as (? & ? & Heq). destruct (Heq Hr) as [Heq' Hq].
  split_and!; try lia. intros _. unfold n_values in *. simpl.
  split; [lia|]. intros Hne. destruct (Hq' a eq_refl Hne); auto.
Qed.

(** [Reserve::poll]: a ready reservation takes a slot in flight, a pending one owns a waiter. *)
Lemma reserve_poll_spec cap futs p s f waiter cx :
  send_side cap futs p s → 0 <= p → futs !! f = Some waiter → wq_room (send_waiters s) →
  wp (reserve_poll waiter cx) s (λ r s',
    send_side cap (<[f:=r.1]> futs) (p + (match r.2 with Ready (Ok _) => 1 | _ => 0 end)) s' ∧
    send_frame s s' ∧
    match r.2 with
    | Ready (Err _) => receivers s = 0 ∧ r.1 = None
    | Ready (Ok _) => receivers s ≠ 0 ∧ r.1 = None
    | Pending => receivers s ≠ 0 ∧ is_Some r.1
    end).
Proof.
  intros Hside Hp Hf Hroom. pose proof Hside as (q & m & Hrep & H0 & Hok & Hcap).
  unfold reserve_poll. wp_auto. case_bool_decide as Hr; wp_auto.
  { split; [|split; [by split|done]]. rewrite Z.add_0_r. exists q, m. by split_and!. }
  specialize (Hok Hr). destruct waiter as [id|]; wp_auto.
  - destruct (waiters_ok_owner _ _ _ _ _ _ Hok Hf) as [v Hv].
    assert (cap ≠ None) as Hcn by (intros ->; destruct (available s); simplify_eq; done).
    wp_apply wq_waiter_spec; [done..|]. intros v' w' [-> ->]. destruct v as [waker|]; wp_auto; simpl.
    + assert (id ∈ q) as Hin by (eapply wo_waiting; [done..|by eexists]).
      unfold register_waiter. wp_auto.
      wp_apply wq_waiter_spec; [done..|]. intros v' w' [-> ->]. wp_auto.
      unfold will_wake. case_bool_decide; wp_auto.
      * simpl. rewrite insert_id, Z.add_0_r by done.
        split_and!; [|by split|done|by eauto]. by destruct s.
      * wp_apply wq_set_waiter_spec; [done|by eauto|]. intros _ n [Hrep' _]. wp_auto. simpl.
        rewrite insert_id, Z.add_0_r by done. split_and!; [|by split|done|by eauto].
        eapply (send_side_waiters _ _ _ _ s n q m); [exact Hcap|done|by intros []%Hcn| |exact Hrep'| |].
        -- intros. by left.
        -- apply waiters_ok_refresh; eauto.
        -- by rewrite detached_update by eauto.
    + assert (id ∉ q) as Hni.
      { intros Hin. destruct (proj1 (wo_waiting _ _ _ _ Hok _ _ Hv) Hin). done. }
      wp_apply wq_remove_spec; [done..|]. intros v' n (-> & Hrep' & _). wp_auto.
      split; [|split; [by split|done]]. pose proof (waiters_ok_remove _ _ _ _ _ _ Hok Hf) as Hok'.
      rewrite filter_neq_id in Hok' by done.
      eapply (send_side_waiters _ _ _ _ s n q m); [exact Hcap|done|by intros []%Hcn| |exact Hrep'|done|].
      * intros. by left.
      * pose proof (detached_remove q m id _ (wq_rep_nodup _ _ _ Hrep) Hv) as Hd.
        rewrite filter_neq_id, decide_False in Hd by done. simpl. lia.
  - destruct (has_capacity s) eqn:Hc; wp_auto.
    + wp_apply take_slot_spec; [done..|]. intros _ s' (Hs' & Hfr & _). wp_auto.
      rewrite insert_id by done. by split_and!.
    + unfold has_capacity in Hc. destruct (available s) as [a|] eqn:Ha; [|done].
      apply bool_decide_eq_false, dec_stable in Hc. subst a. unfold register_waiter. wp_auto.
      wp_apply wq_push_back_spec; [done..|]. intros id n [Hn Hrep']. wp_auto. simpl.
      rewrite Z.add_0_r. split_and!; [|by split|done|by eauto].
      eapply (send_side_waiters _ _ _ _ s n q m); rewrite ?Ha; [exact Hcap|done| | |exact Hrep'| |].
      * intros ->. done.
      * intros a [= <-]. by right.
      * apply waiters_ok_register; try done. intros Hin.
        destruct (wq_rep_linked _ _ _ _ Hrep Hin). congruence.
      * by rewrite detached_register.
Qed.

(** [Reserve::drop]: a granted slot is passed on. *)
Lemma reserve_drop_spec cap futs p s f waiter :
  send_side cap futs p s → 0 <= p → futs !! f = Some waiter →
  wp (reserve_drop waiter) s (λ _ s', send_side cap (delete f futs) p s' ∧ send_frame s s').
Proof.
  intros Hside Hp Hf. pose proof Hside as (q & m & Hrep & H0 & Hok & Hcap).
  unfold reserve_drop. destruct waiter as [id|]; wp_auto.
  - case_bool_decide as Hr; wp_auto.
    { split; [|by split]. exists q, m. by split_and!. }
    specialize (Hok Hr). destruct (waiters_ok_owner _ _ _ _ _ _ Hok Hf) as [v Hv].
    assert (cap ≠ None) as Hcn by (intros ->; destruct (available s); simplify_eq; done).
    pose proof (detached_remove q m id v (wq_rep_nodup _ _ _ Hrep) Hv) as Hd.
    pose proof (waiters_ok_remove _ _ _ _ _ _ Hok Hf) as Hok'.
    apply (waiters_ok_drop _ _ _ _ f) in Hok'; [|apply lookup_insert_eq].
    rewrite delete_insert_eq in Hok'.
    assert (without id q ≠ [] → q ≠ []) as Hne by (intros Hne ->; done).
    wp_apply remove_waiter_spec; [done..|]. intros v' n (-> & Hrep' & _). destruct v as [waker|]; wp_auto.
    + split; [|by split].
      eapply (send_side_waiters _ _ _ _ s n q m); [exact Hcap|done|by intros []%Hcn| |exact Hrep'|done|].
      * intros. left. auto.
      * rewrite decide_True in Hd; [lia|]. eapply wo_waiting; [done..|by eexists].
    + rewrite decide_False in Hd by (intros Hin; by destruct (proj1 (wo_waiting _ _ _ _ Hok _ _ Hv) Hin)).
      wp_apply (release_spec cap (delete f futs) p); [|done|].
      { eapply (send_side_waiters _ _ _ _ s n q m); [exact Hcap|done|by intros []%Hcn| |exact Hrep'|done|lia].
        intros. left. auto. }
      intros waker s' [Hs' [? ? ? ?]]. wp_auto. split; [done|by split].
  - split; [|by split]. exists q, m. split_and!; try done. intros Hr.
    apply waiters_ok_drop; [by apply Hok|done].
Qed.

(** ** Handles, permits and receive futures *)

Lemma send_side_receivers cap futs p s n :
  send_side cap futs p s → receivers s ≠ 0 → n ≠ 0 → send_side cap futs p (set_receivers n s).
Proof.
  intros (q & m & Hrep & H0 & Hok & Hcap) Hr Hn. exists q, m. simpl. split_and!; try done; [by auto|].
  unfold n_values. simpl. destruct cap, (available s); try done. naive_solver.
Qed.

Lemma recv_side_senders rfuts k s n :
  recv_side rfuts k s → senders s ≠ 0 → n ≠ 0 → recv_side rfuts k (set_senders n s).
Proof.
  intros (q & m & Hrep & H0 & Hok) Hr Hn. exists q, m. simpl. split_and!; try done. intros _. by apply Hok.
Qed.

(** The last sender wakes every waiting receiver, oldest first. *)
Lemma drop_sender_spec cap futs rfuts p s :
  send_side cap futs p s → recv_side rfuts 0 s → 0 < senders s →
  wp drop_sender s (λ ws s',
    send_side cap futs p s' ∧ recv_side rfuts 0 s' ∧ values s' = values s ∧
    senders s' = senders s - 1 ∧ receivers s' = receivers s ∧
    (senders s = 1 → ∃ q m, wq_rep (recv_waiters s) q m ∧
      waiters_ok recv_waker rfuts q m ∧ Some <$> ws = waker_at recv_waker m <$> q)).
Proof.
  intros Hss Hrs Hpos. unfold drop_sender. wp_auto. apply wp_sub_int; [lia|]. wp_auto.
  case_bool_decide as Hn; wp_auto.
  { split_and!; try done; [apply recv_side_senders; [done|lia|lia]|lia]. }
  destruct Hrs as (q & m & Hrep & H0 & Hok). destruct (Hok ltac:(lia)) as [Hw _].
  apply wp_run_local. wp_apply drain_spec; [done..| |].
  { rewrite (wq_len_spec _ _ _ Hrep). pose proof (rep_length_le _ _ _ Hrep). lia. }
  intros ws _ Hws. split_and!; try done; [|by eauto].
  exists [], ∅. simpl. split_and!; try done; apply wq_new_rep.
Qed.

Lemma take_waiting_drain (w : W SendWaiter) q m fuel :
  wq_rep w q m → (∀ id, id ∈ q → is_Some (waker_at send_waker m id)) → (length q < fuel)%nat →
  wp (while_some fuel take_waiting_waker) w (λ ws _, Some <$> ws = waker_at send_waker m <$> q).
Proof.
  revert w q m. induction fuel as [|fuel IH]; intros w q m Hrep Hwk Hlt; [lia|].
  simpl. wp_auto. unfold take_waiting_waker. wp_auto. destruct q as [|id q].
  { wp_apply wq_unlink_first_nil; [done|]. intros r w' [-> ->]. by wp_auto. }
  destruct (Hwk id) as [wk Hid]; [set_solver|]. unfold waker_at in Hid.
  destruct (m !! id) as [v|] eqn:Hv; [|done]. simpl in Hid.
  pose proof (wq_rep_nodup _ _ _ Hrep) as [Hni _]%NoDup_cons.
  wp_apply wq_unlink_first_cons; [done..|]. intros r w' (-> & Hrep' & _). wp_auto.
  rewrite insert_id in Hrep' by done.
  wp_apply wq_remove_spec; [done..|]. intros v' w'' (-> & Hrep'' & _).
  destruct v as [waker|]; [|done]. wp_auto.
  assert (∀ i, i ∈ q → waker_at send_waker (delete id m) i = waker_at send_waker m i) as Hsame.
  { intros i Hi. unfold waker_at. rewrite lookup_delete_ne; [done|]. by intros ->. }
  wp_apply (IH w'' q); [done| |simpl in Hlt; lia|].
  { intros i Hi. rewrite Hsame by done. apply Hwk. set_solver. }
  intros ws w3 Hws. wp_auto. rewrite !fmap_cons, Hws. f_equal; [unfold waker_at; by rewrite Hv|].
  apply list_fmap_ext. intros i j Hj. apply Hsame. by eapply list_elem_of_lookup_2.
Qed.

(** The last receiver discards the buffer and wakes every waiting sender, oldest first. *)
Lemma drop_receiver_spec cap futs rfuts p s :
  send_side cap futs p s → recv_side rfuts 0 s → 0 < receivers s →
  wp drop_receiver s (λ r s',
    send_side cap futs p s' ∧ recv_side rfuts 0 s' ∧ r.2 ++ values s' = values s ∧
    senders s' = senders s ∧ receivers s' = receivers s - 1 ∧
    (receivers s = 1 → ∃ q m, wq_rep (send_waiters s) q m ∧
      waiters_ok send_waker futs q m ∧ Some <$> r.1 = waker_at send_waker m <$> q)).
Proof.
  intros Hss Hrs Hpos. unfold drop_receiver. wp_auto. apply wp_sub_int; [lia|]. wp_auto.
  case_bool_decide as Hn; wp_auto.
  { split_and!; try done; [apply send_side_receivers; [done|lia|lia]|simpl; lia]. }
  destruct Hss as (q & m & Hrep & H0 & Hok & Hcap).
  specialize (Hok ltac:(lia)). apply wp_run_local. wp_apply take_waiting_drain; [done| | |].
  { intros id Hin. destruct (wq_rep_linked _ _ _ _ Hrep Hin) as [v Hv]. unfold waker_at.
    rewrite Hv. simpl. by eapply wo_waiting. }
  { rewrite (wq_len_spec _ _ _ Hrep). pose proof (rep_length_le _ _ _ Hrep). lia. }
  intros ws _ Hws. wp_auto. simpl. split_and!; try done; [| |by rewrite app_nil_r|by eauto].
  - exists [], ∅. simpl. split_and!; try done; [apply wq_new_rep|].
    destruct cap, (available s); try done. split_and!; [lia..|]. naive_solver.
  - destruct Hrs as (q' & m' & Hrep' & H0' & Hok'). exists q', m'. simpl. split_and!; try done.
    intros Hs. destruct (Hok' Hs) as [Hw Hd]. split; [done|]. intros _.
    unfold n_values. simpl. apply (detached_nonneg _ _ _ Hrep').
Qed.

(** [Recv::poll]: a pending receive found the queue empty and owns a waiter; a ready one returns
    the oldest value, or reports that senders and values are exhausted. *)
Lemma recv_poll_spec cap futs rfuts p s f waiter cx :
  send_side cap futs p s → recv_side rfuts 0 s → 0 <= p → rfuts !! f = Some waiter →
  wq_room (recv_waiters s) →
  wp (recv_poll waiter cx) s (λ r s',
    send_side cap futs p s' ∧ recv_side (<[f:=r.1.1]> rfuts) 0 s' ∧
    senders s' = senders s ∧ receivers s' = receivers s ∧
    match r.1.2 with
    | Ready (Ok v) => values s = v :: values s'
    | Ready (Err _) => values s = [] ∧ values s' = [] ∧ senders s = 0
    | Pending => values s = [] ∧ values s' = [] ∧ senders s ≠ 0
    end).
Proof.
  intros Hss Hrs Hp Hf Hroom. unfold recv_poll. wp_auto. wp_apply pop_spec; [done..|].
  intros r s' Hr. destruct (values s) as [|v rest] eqn:Hv.
  - destruct Hr as [-> ->]. case_decide as Hz; wp_auto.
    + rewrite bool_decide_true by done. wp_auto. split_and!; try done.
      destruct Hrs as (q & m & Hrep & H0 & Hok). exists q, m. by split_and!.
    + rewrite bool_decide_false by done.
      wp_apply register_recv_spec; [done..|]. intros [w o] n Hside. wp_auto.
      by split_and!.
  - destruct Hr as ((waker & ->) & Hvs & Hsn & Hrn & Hss' & Hrs'). wp_auto.
    case_bool_decide as Hz; wp_auto.
    + split_and!; try done; [|simpl; by rewrite Hvs].
      destruct Hrs' as (q & m & Hrep & H0 & Hok). exists q, m. split_and!; try done. congruence.
    + destruct waiter as [id|]; wp_auto.
      * wp_apply (recv_remove_spec rfuts 1); [done|congruence|done|].
        intros w n (Hside & _). wp_auto. simpl. by rewrite Hvs.
      * simpl. rewrite insert_id, Hvs by done. split_and!; try done.
        destruct Hrs' as (q & m & Hrep & H0 & Hok). exists q, m. split_and!; try done.
        intros Hn. destruct (Hok Hn) as [Hw Hd]. split; [done|]. intros Hq. specialize (Hd Hq). lia.
Qed.

(** [Recv::drop]: a notification that leaves with its future is passed on when values remain. *)
Lemma recv_drop_spec cap futs rfuts p s f waiter :
  send_side cap futs p s → recv_side rfuts 0 s → rfuts !! f = Some waiter →
  wp (recv_drop waiter) s (λ _ s',
    send_side cap futs p s' ∧ recv_side (delete f rfuts) 0 s' ∧ values s' = values s ∧
    senders s' = senders s ∧ receivers s' = receivers s).
Proof.
  intros Hss Hrs Hf. unfold recv_drop. destruct waiter as [id|]; wp_auto.
  - case_bool_decide as Hz; wp_auto.
    { split_and!; try done. destruct Hrs as (q & m & Hrep & H0 & Hok). exists q, m. by split_and!. }
    wp_apply (recv_remove_spec rfuts 0); [done..|].
    intros w n (Hside & Hwait & _). wp_auto.
    assert (∀ k, recv_side (<[f:=None]> rfuts) k (set_recv_waiters n s) →
      recv_side (delete f rfuts) k (set_recv_waiters n s)) as Hdrop.
    { intros k (q & m & Hrep & H0 & Hok). exists q, m. split_and!; try done. intros Hs.
      destruct (Hok Hs) as [Hw Hd]. split; [|done].
      apply (waiters_ok_drop _ _ _ _ f) in Hw; [by rewrite delete_insert_eq in Hw|apply lookup_insert_eq]. }
    destruct w as [waker|]; wp_auto; [by split_and!; eauto|].
    apply Hdrop in Hside as (q & m & Hrep & H0 & Hok). destruct (Hok Hz) as [Hw Hd].
    case_bool_decide as Hv; wp_auto.
    + split_and!; try done. exists q, m. split_and!; try done. intros _. split; [done|].
      intros _. unfold n_values. simpl in *. rewrite Hv. apply (detached_nonneg _ _ _ Hrep).
    + wp_apply notify_first_spec; [done..|]. intros r w Hr. wp_auto. split_and!; try done.
      destruct q as [|i q].
      * destruct Hr as [-> ->]. exists [], m. by split_and!.
      * destruct Hr as (Hsm & _ & _ & Hrep' & Hw' & _). exists q, (<[i:=RecvNotified]> m).
        split_and!; try done. intros _. split; [done|]. intros _. rewrite detached_notify by done.
        specialize (Hd ltac:(done)). unfold n_values in *. simpl in *. lia.
  - split_and!; try done. destruct Hrs as (q & m & Hrep & H0 & Hok). exists q, m.
    split_and!; try done. intros Hs. destruct (Hok Hs) as [Hw Hd]. split; [|done].
    by apply waiters_ok_drop.
Qed.

(** [acquire] takes a slot, or reports why there is none and changes nothing. *)
Lemma acquire_spec cap futs p s :
  send_side cap futs p s →
  wp acquire s (λ r s', send_frame s s' ∧
    match r with
    | Ok _ => receivers s ≠ 0 ∧ send_side cap futs (p + 1) s'
    | Err (Full _) => receivers s ≠ 0 ∧ available s = Some 0 ∧ s' = s
    | Err (Disconnected _) => receivers s = 0 ∧ s' = s
    end).
Proof.
  intros Hss. unfold acquire. wp_auto. case_bool_decide as Hr; wp_auto; [by split_and!|].
  destruct (has_capacity s) eqn:Hc; simpl; wp_auto.
  - wp_apply take_slot_spec; [done..|]. intros _ s' (Hs' & Hfr & _). by wp_auto.
  - split_and!; try done. unfold has_capacity in Hc. destruct (available s); [|done].
    by apply bool_decide_eq_false, dec_stable in Hc as ->.
Qed.
End invariants.

(** ** Sending a value *)
Section sending.
Context {W : Type → Type} `{!WaitQueue W} {T : Type}.
Implicit Types (s : State W T) (futs : futures) (cap : option Z) (p : Z).

(** The value and the waiter a send future holds. *)
Definition sending (fut : SendFut T) : option (T * option WaiterId) :=
  match fut with
  | SendStart v => Some (v, None)
  | SendReserving v w => Some (v, w)
  | SendDone => None
  end.
Definition send_waiter (fut : SendFut T) : option WaiterId := sending fut ≫= snd.

(** What a poll of a send of [v] may answer. *)
Definition send_answer (v : T) s (r : SendFut T * Poll (result unit T) * list Waker) s' : Prop :=
  match r.1.2 with
  | Ready (Ok _) => r.1.1 = SendDone ∧ values s' = values s ++ [v] ∧ receivers s ≠ 0
  | Ready (Err v') => r.1.1 = SendDone ∧ v' = v ∧ values s' = values s ∧ receivers s = 0
  | Pending => (∃ w, sending r.1.1 = Some (v, Some w)) ∧ values s' = values s ∧ receivers s ≠ 0
  end.

Lemma send_reserving_spec cap futs rfuts p s f v waiter cx :
  send_side cap futs p s → recv_side rfuts 0 s → 0 <= p → futs !! f = Some waiter →
  wq_room (send_waiters s) →
  wp (send_reserving v waiter cx) s (λ r s',
    send_side cap (<[f:=send_waiter r.1.1]> futs) p s' ∧ recv_side rfuts 0 s' ∧ send_answer v s r s').
Proof.
  intros Hs Hr Hp Hf Hroom. unfold send_reserving. wp_auto. wp_apply reserve_poll_spec; [done..|].
  intros [w r] s1 (Hs1 & Hfr & Hans). pose proof (recv_side_frame _ _ _ _ Hfr Hr) as Hr1.
  destruct Hfr as [Hfv Hfs Hfc _]. destruct r as [[]|]; simpl in *; wp_auto.
  - destruct Hans as [Hans ->]. unfold permit_send. wp_auto.
    rewrite bool_decide_false by congruence. wp_auto.
    wp_apply mpmc_push_spec; [done..|]. intros wk s2 (Hs2 & Hr2 & Hv2 & _). wp_auto. unfold send_answer; simpl; split_and!; try done.
    by rewrite Hv2, Hfv.
  - destruct Hans as [Hans ->]. rewrite Z.add_0_r in Hs1. unfold send_answer; simpl; by split_and!.
  - destruct Hans as [Hans [i ->]]. rewrite Z.add_0_r in Hs1. unfold send_answer; simpl; split_and!; try done. by exists i.
Qed.

(** A poll of an asynchronous send of [v] on a well-formed queue either puts [v] at the end of
    the buffer and reports success, or gives [v] back because no receiver is left, or stays
    pending with [v] in hand and a waiter registered; it never panics and keeps both sides of the
    queue well formed. *)
Theorem mpmc_send_poll_result cap futs rfuts p s f fut v cx :
  send_side cap futs p s → recv_side rfuts 0 s → 0 <= p →
  fst <$> sending fut = Some v → futs !! f = Some (send_waiter fut) → wq_room (send_waiters s) →
  wp (send_poll fut cx) s (λ r s',
    send_side cap (<[f:=send_waiter r.1.1]> futs) p s' ∧ recv_side rfuts 0 s' ∧ send_answer v s r s').
Proof.
  intros Hs Hr Hp Hv Hf Hroom. destruct fut as [u|u w|]; simplify_eq/=.
  - unfold try_send. wp_auto. wp_apply acquire_spec; [done|]. intros r s1 [Hfr Hans].
    destruct r as [u|[u|u]]; wp_auto.
    + destruct Hans as [Hn Hs1]. wp_apply mpmc_push_spec; [done|by eapply recv_side_frame|].
      intros wk s2 (Hs2 & Hr2 & Hv2 & _). wp_auto. simpl. rewrite insert_id by done.
      destruct Hfr as [Hfv _ _ _]. unfold send_answer; simpl; split_and!; try done. by rewrite Hv2, Hfv.
    + destruct Hans as (_ & _ & ->). by apply send_reserving_spec.
    + destruct Hans as [Hn ->]. simpl. rewrite insert_id by done. unfold send_answer; simpl; by split_and!.
  - by apply send_reserving_spec.
Qed.

Lemma unbounded_send_spec futs rfuts p s v :
  send_side None futs p s → recv_side rfuts 0 s →
  wp (unbounded_send v) s (λ r s',
    send_side None futs p s' ∧ recv_side rfuts 0 s' ∧
    match r.1 with
    | Ok _ => receivers s ≠ 0 ∧ values s' = values s ++ [v]
    | Err v' => receivers s = 0 ∧ v' = v ∧ s' = s
    end).
Proof.
  intros Hs Hr. unfold unbounded_send, try_send. wp_auto. wp_apply acquire_spec; [done|].
  intros r s1 [Hfr Hans]. destruct r as [u|[u|u]]; wp_auto.
  - destruct Hans as [Hn Hs1]. wp_apply mpmc_push_spec; [done|by eapply recv_side_frame|].
    intros wk s2 (Hs2 & Hr2 & Hv2 & _). wp_auto. destruct Hfr as [Hfv _ _ _]. simpl. by rewrite Hv2, Hfv.
  - destruct Hans as (_ & Ha & _). destruct Hs as (q & m & _ & _ & _ & Hc). by rewrite Ha in Hc.
  - destruct Hans as [Hn ->]. by split_and!.
Qed.
End sending.

(** ** The system: a queue, its handles, permits and futures *)

Record Sys (W : Type → Type) (T : Type) : Type := mkSys {
  st : State W T;
  reserves : futures;
  recvs : futures;
  permits : Z;
}.
Arguments mkSys {W T}.
Arguments st {W T}.
Arguments reserves {W T}.
Arguments recvs {W T}.
Arguments permits {W T}.

Inductive Label (T : Type) : Type :=
| TrySend (v : T)
| TryReserve
| ReserveNew (f : nat)
| ReservePoll (f : nat) (cx : Waker)
| ReserveDrop (f : nat)
| PermitSend (v : T)
| PermitDrop
| TryRecv
| RecvNew (f : nat)
| RecvPoll (f : nat) (cx : Waker)
| RecvDrop (f : nat)
| CloneSender
| DropSender
| CloneReceiver
| DropReceiver.
Arguments TrySend {T}. Arguments TryReserve {T}. Arguments ReserveNew {T}. Arguments ReservePoll {T}.
Arguments ReserveDrop {T}. Arguments PermitSend {T}. Arguments PermitDrop {T}. Arguments TryRecv {T}.
Arguments RecvNew {T}. Arguments RecvPoll {T}. Arguments RecvDrop {T}. Arguments CloneSender {T}.
Arguments DropSender {T}. Arguments CloneReceiver {T}. Arguments DropReceiver {T}.

(** What a step shows: the values that entered the queue, that reached a receiver, that were
    dropped with the buffer, and the tasks woken. *)
Record Obs (T : Type) : Type := mkObs {
  accepted : list T;
  delivered : list T;
  discarded : list T;
  woken : list Waker;
}.
Arguments mkObs {T}.
Arguments accepted {T}.
Arguments delivered {T}.
Arguments discarded {T}.
Arguments woken {T}.

Section system.
Context {W : Type → Type} `{!WaitQueue W} {T : Type}.
Implicit Types (x : Sys W T) (l : Label T).

Definition set_st (s : State W T) x : Sys W T := mkSys s (reserves x) (recvs x) (permits x).
Definition set_reserves (g : futures) x : Sys W T := mkSys (st x) g (recvs x) (permits x).
Definition set_recvs (g : futures) x : Sys W T := mkSys (st x) (reserves x) g (permits x).
Definition add_permits (d : Z) x : Sys W T := mkSys (st x) (reserves x) (recvs x) (permits x + d).

Definition on_st {A : Type} (m : M (State W T) A) : M (Sys W T) A := zoom st set_st m.

(** A sender handle is needed to send or to start a reservation, a receiver handle to receive; a
    future is polled and dropped by its owner; a permit is spent once.  The number of handles is
    bounded by the reference count they share. *)
Definition enabled l x : bool :=
  match l with
  | TrySend _ | TryReserve => bool_decide (0 < senders (st x))
  | ReserveNew f => bool_decide (0 < senders (st x)) && bool_decide (reserves x !! f = None)
  | ReservePoll f _ =>
      bool_decide (is_Some (reserves x !! f)) && bool_decide (wq_room (send_waiters (st x)))
  | ReserveDrop f => bool_decide (is_Some (reserves x !! f))
  | PermitSend _ | PermitDrop => bool_decide (0 < permits x)
  | TryRecv => bool_decide (0 < receivers (st x))
  | RecvNew f => bool_decide (0 < receivers (st x)) && bool_decide (recvs x !! f = None)
  | RecvPoll f _ =>
      bool_decide (is_Some (recvs x !! f)) && bool_decide (wq_room (recv_waiters (st x)))
  | RecvDrop f => bool_decide (is_Some (recvs x !! f))
  | CloneSender => bool_decide (0 < senders (st x) < isize_max)
  | DropSender => bool_decide (0 < senders (st x))
  | CloneReceiver => bool_decide (0 < receivers (st x) < isize_max)
  | DropReceiver => bool_decide (0 < receivers (st x))
  end.

Definition accepted_if {A B : Type} (r : result A B) (v : T) : list T :=
  match r with Ok _ => [v] | Err _ => [] end.

Definition exec l : M (Sys W T) (Obs T) :=
  x ← get;
  match l with
  | TrySend v =>
      '(r, ws) ← on_st (try_send v); mret (mkObs (accepted_if r v) [] [] ws)
  | TryReserve =>
      r ← on_st try_reserve;
      modify (add_permits (match r with Ok _ => 1 | Err _ => 0 end));;
      mret (mkObs [] [] [] [])
  | ReserveNew f => modify (set_reserves (<[f:=None]> (reserves x)));; mret (mkObs [] [] [] [])
  | ReservePoll f cx =>
      waiter ← expect (reserves x !! f) "no such future";
      '(waiter, r) ← on_st (reserve_poll waiter cx);
      modify (set_reserves (<[f:=waiter]> (reserves x)));;
      modify (add_permits (match r with Ready (Ok _) => 1 | _ => 0 end));;
      mret (mkObs [] [] [] [])
  | ReserveDrop f =>
      waiter ← expect (reserves x !! f) "no such future";
      ws ← on_st (reserve_drop waiter);
      modify (set_reserves (delete f (reserves x)));;
      mret (mkObs [] [] [] ws)
  | PermitSend v =>
      modify (add_permits (-1));;
      '(r, ws) ← on_st (permit_send v);
      mret (mkObs (accepted_if r v) [] [] ws)
  | PermitDrop =>
      modify (add_permits (-1));; ws ← on_st permit_drop; mret (mkObs [] [] [] ws)
  | TryRecv =>
      '(r, ws) ← on_st try_recv;
      mret (mkObs [] (match r with Ok v => [v] | Err _ => [] end) [] ws)
  | RecvNew f => modify (set_recvs (<[f:=None]> (recvs x)));; mret (mkObs [] [] [] [])
  | RecvPoll f cx =>
      waiter ← expect (recvs x !! f) "no such future";
      '(waiter, r, ws) ← on_st (recv_poll waiter cx);
      modify (set_recvs (<[f:=waiter]> (recvs x)));;
      mret (mkObs [] (match r with Ready (Ok v) => [v] | _ => [] end) [] ws)
  | RecvDrop f =>
      waiter ← expect (recvs x !! f) "no such future";
      ws ← on_st (recv_drop waiter);
      modify (set_recvs (delete f (recvs x)));;
      mret (mkObs [] [] [] ws)
  | CloneSender => on_st clone_sender;; mret (mkObs [] [] [] [])
  | DropSender => ws ← on_st drop_sender; mret (mkObs [] [] [] ws)
  | CloneReceiver => on_st clone_receiver;; mret (mkObs [] [] [] [])
  | DropReceiver => '(ws, vs) ← on_st drop_receiver; mret (mkObs [] [] vs ws)
  end.

Definition init (cap : option Z) : Sys W T := mkSys (new cap) ∅ ∅ 0.

(** The capacities the constructors accept: a bounded queue holds at least one value. *)
Definition capacity_ok (cap : option Z) : Prop :=
  match cap with Some c => 0 < c <= usize_max | None => True end.

(** The invariant of the system. *)
Record sys_ok (cap : option Z) x : Prop := {
  so_send : send_side cap (reserves x) (permits x) (st x);
  so_recv : recv_side (recvs x) 0 (st x);
  so_permits : 0 <= permits x;
  so_senders : 0 <= senders (st x) <= isize_max;
  so_receivers : 0 <= receivers (st x) <= isize_max;
}.

Lemma mpmc_init_ok cap : capacity_ok cap → sys_ok cap (init cap).
Proof.
  intros Hc.
  pose proof (waiters_ok_empty send_waker). pose proof (waiters_ok_empty recv_waker).
  split; simpl; try (unfold isize_max; lia).
  - exists [], ∅. simpl. split_and!; try done; [apply wq_new_rep|]. unfold capacity_ok in Hc.
    destruct cap; [|done]. split_and!; try lia. intros _. unfold detached_count, n_values; simpl.
    rewrite map_size_empty. split; [lia|done].
  - exists [], ∅. simpl. split_and!; try done. apply wq_new_rep.
Qed.

(** Values neither appear, nor vanish, nor overtake each other in a step. *)
Definition step_order (o : Obs T) (s s' : State W T) : Prop :=
  delivered o ++ discarded o ++ values s' = values s ++ accepted o.

Definition step_post cap x (o : Obs T) x' : Prop := sys_ok cap x' ∧ step_order o (st x) (st x').
End system.

#[export] Hint Unfold on_st : band_zoom.

(** ** Every enabled operation returns and keeps the invariant *)
Section preservation.
Context {W : Type → Type} `{!WaitQueue W} {T : Type} (cap : option Z).
Implicit Types (x : Sys W T) (l : Label T).

(** Unfolds an enabled operation down to the operation on the queue. *)
Ltac start_step x :=
  intros [Hs Hr Hp Hsn Hrn] He; simpl in He;
  try apply enabled_and in He as [He He']; try apply bool_decide_eq_true in He;
  unfold exec; wp_auto; destruct x as [s rs rv p]; simpl in *.

(** Concludes from the facts about the new queue. *)
Ltac finish_step :=
  wp_auto; simpl; split; [split; simpl; try done; try lia|unfold step_order; simpl].

Lemma try_send_step v x :
  sys_ok cap x → enabled (TrySend v) x = true → wp (exec (TrySend v)) x (step_post cap x).
Proof.
  start_step x. unfold try_send. wp_auto. wp_apply acquire_spec; [done|].
  intros r s' [Hf Hr']. destruct r as [|[]]; wp_auto.
  - destruct Hr' as [Hne Hs']. wp_apply (mpmc_push_spec cap rs rv p); [done|by eapply recv_side_frame|].
    intros wk s2 (Hs2 & Hr2 & Hv2 & Hsn2 & Hrn2). destruct Hf as [Hfv Hfs Hfr _].
    finish_step. by rewrite Hv2, Hfv.
  - destruct Hr' as (? & ? & ->). finish_step. by rewrite app_nil_r.
  - destruct Hr' as (? & ->). finish_step. by rewrite app_nil_r.
Qed.

Lemma try_reserve_step x :
  sys_ok cap x → enabled TryReserve x = true → wp (exec TryReserve) x (step_post cap x).
Proof.
  start_step x. unfold try_reserve. wp_apply acquire_spec; [done|].
  intros r s' [Hf Hr']. pose proof Hf as [Hfv Hfs Hfr _].
  finish_step; rewrite ?Hfs, ?Hfr, ?Hfv, ?app_nil_r; try done.
  - destruct r as [|[]]; simpl in *; [by destruct Hr'|..]; rewrite Z.add_0_r; naive_solver.
  - by eapply recv_side_frame.
  - destruct r; lia.
Qed.

Lemma reserve_new_step f x :
  sys_ok cap x → enabled (ReserveNew f) x = true → wp (exec (ReserveNew f)) x (step_post cap x).
Proof.
  start_step x. rename He' into Hn. finish_step; [|by rewrite app_nil_r].
  destruct Hs as (q & m & Hrep & H0 & Hok & Hcap). exists q, m. split_and!; try done.
  intros Hr'. by apply waiters_ok_new; [apply Hok|].
Qed.

Lemma reserve_poll_step f cx x :
  sys_ok cap x → enabled (ReservePoll f cx) x = true →
  wp (exec (ReservePoll f cx)) x (step_post cap x).
Proof.
  start_step x. destruct He as [w Hf]. rename He' into Hroom.
  eapply wp_expect; [done|]. wp_auto. wp_apply reserve_poll_spec; [done..|].
  intros [w' r] s' (Hs' & Hfr & _). pose proof Hfr as [Hfv Hfs Hfrc _].
  finish_step; rewrite ?Hfs, ?Hfrc, ?Hfv, ?app_nil_r; try done.
  - by eapply recv_side_frame.
  - destruct r as [[]|]; lia.
Qed.

Lemma reserve_drop_step f x :
  sys_ok cap x → enabled (ReserveDrop f) x = true → wp (exec (ReserveDrop f)) x (step_post cap x).
Proof.
  start_step x. destruct He as [w Hf]. eapply wp_expect; [done|]. wp_auto.
  wp_apply reserve_drop_spec; [done..|]. intros ws s' (Hs' & Hfr). pose proof Hfr as [Hfv Hfs Hfrc _].
  finish_step; rewrite ?Hfs, ?Hfrc, ?Hfv, ?app_nil_r; try done. by eapply recv_side_frame.
Qed.

Lemma permit_drop_spec (s : State W T) futs rfuts p :
  send_side cap futs p s → recv_side rfuts 0 s → 0 < p →
  wp permit_drop s (λ _ s', send_side cap futs (p - 1) s' ∧ recv_side rfuts 0 s' ∧ send_frame s s').
Proof.
  intros Hs Hr Hp. unfold permit_drop. wp_auto.
  wp_apply (release_spec cap futs (p - 1)); [by rewrite Z.sub_add|lia|].
  intros wk s' [Hs' Hfr]. wp_auto. split_and!; try done. by eapply recv_side_frame.
Qed.

Lemma permit_drop_step x :
  sys_ok cap x → enabled PermitDrop x = true → wp (exec PermitDrop) x (step_post cap x).
Proof.
  start_step x. wp_apply permit_drop_spec; [done..|]. intros ws s' (Hs' & Hr' & [Hfv Hfs Hfr _]).
  finish_step; rewrite ?Hfs, ?Hfr, ?Hfv, ?app_nil_r; done.
Qed.

Lemma permit_send_step v x :
  sys_ok cap x → enabled (PermitSend v) x = true → wp (exec (PermitSend v)) x (step_post cap x).
Proof.
  start_step x. unfold permit_send. wp_auto. case_bool_decide as Hz; wp_auto.
  - wp_apply permit_drop_spec; [done..|]. intros ws s' (Hs' & Hr' & [Hfv Hfs Hfr _]).
    finish_step; rewrite ?Hfs, ?Hfr, ?Hfv, ?app_nil_r; done.
  - wp_apply (mpmc_push_spec cap rs rv (p - 1)); [by rewrite Z.sub_add|done|].
    intros wk s2 (Hs2 & Hr2 & Hv2 & Hsn2 & Hrn2). finish_step; by rewrite ?Hsn2, ?Hrn2, ?Hv2.
Qed.

Lemma try_recv_step x :
  sys_ok cap x → enabled TryRecv x = true → wp (exec TryRecv) x (step_post cap x).
Proof.
  start_step x. unfold try_recv. wp_auto. wp_apply pop_spec; [done..|]. intros r s' Hpop.
  destruct (values s) as [|v rest] eqn:Hv.
  - destruct Hpop as [-> ->]. finish_step. by rewrite Hv.
  - destruct Hpop as ((wk & ->) & Hv' & Hsn' & Hrn' & Hs' & Hr').
    finish_step; rewrite ?Hsn', ?Hrn', ?Hv', ?Hv, ?app_nil_r; try done.
    destruct Hr' as (q & m & Hrep & H0 & Hok). exists q, m. split_and!; try done. intros Hsz.
    destruct (Hok Hsz) as [Hw Hd]. split; [done|]. intros Hq. specialize (Hd Hq). lia.
Qed.

Lemma recv_new_step f x :
  sys_ok cap x → enabled (RecvNew f) x = true → wp (exec (RecvNew f)) x (step_post cap x).
Proof.
  start_step x. rename He' into Hn. finish_step; [|by rewrite app_nil_r].
  destruct Hr as (q & m & Hrep & H0 & Hok). exists q, m. split_and!; try done.
  intros Hr'. destruct (Hok Hr') as [Hw Hd]. split; [by apply waiters_ok_new|done].
Qed.

Lemma recv_poll_step f cx x :
  sys_ok cap x → enabled (RecvPoll f cx) x = true → wp (exec (RecvPoll f cx)) x (step_post cap x).
Proof.
  start_step x. destruct He as [w Hf]. rename He' into Hroom.
  eapply wp_expect; [done|]. wp_auto. wp_apply recv_poll_spec; [done..|].
  intros [[w' r] ws] s' (Hs' & Hr' & Hsn' & Hrn' & Hv).
  finish_step; rewrite ?Hsn', ?Hrn', ?app_nil_r; try done.
  simpl in Hv. destruct r as [[v|]|]; simpl; [done|..]; destruct Hv as (-> & -> & _); done.
Qed.

Lemma recv_drop_step f x :
  sys_ok cap x → enabled (RecvDrop f) x = true → wp (exec (RecvDrop f)) x (step_post cap x).
Proof.
  start_step x. destruct He as [w Hf]. eapply wp_expect; [done|]. wp_auto.
  wp_apply recv_drop_spec; [done..|]. intros ws s' (Hs' & Hr' & Hv' & Hsn' & Hrn').
  finish_step; rewrite ?Hsn', ?Hrn', ?Hv', ?app_nil_r; done.
Qed.

Lemma handle_step l x :
  l ∈ [CloneSender; DropSender; CloneReceiver; DropReceiver] →
  sys_ok cap x → enabled l x = true → wp (exec l) x (step_post cap x).
Proof.
  assert (isize_max < usize_max) as Hlt by done.
  rewrite !elem_of_cons, elem_of_nil. intros [->|[->|[->|[->|[]]]]]; start_step x.
  - unfold clone_sender. wp_auto. apply wp_add_int; [lia|]. finish_step; [|by rewrite app_nil_r].
    apply recv_side_senders; [done|lia|lia].
  - wp_apply drop_sender_spec; [done..|]. intros ws s' (Hs' & Hr' & Hv' & Hsn' & Hrn' & _).
    finish_step; rewrite ?Hsn', ?Hrn', ?Hv', ?app_nil_r; try done; lia.
  - unfold clone_receiver. wp_auto. apply wp_add_int; [lia|]. finish_step; [|by rewrite app_nil_r].
    apply send_side_receivers; [done|lia|lia].
  - wp_apply drop_receiver_spec; [done..|]. intros [ws vs] s' (Hs' & Hr' & Hv' & Hsn' & Hrn' & _).
    finish_step; rewrite ?Hsn', ?Hrn', ?app_nil_r; try done; lia.
Qed.

Lemma mpmc_exec_ok l x : sys_ok cap x → enabled l x = true → wp (exec l) x (step_post cap x).
Proof.
  destruct l; eauto using try_send_step, try_reserve_step, reserve_new_step, reserve_poll_step,
    reserve_drop_step, permit_send_step, permit_drop_step, try_recv_step, recv_new_step,
    recv_poll_step, recv_drop_step; apply handle_step; set_solver.
Qed.

Lemma mpmc_reachable_ok ls tr x :
  capacity_ok cap → returns (run enabled exec ls) (init cap) tr x → sys_ok cap x.
Proof.
  intros Hcap. apply run_invariant; [|by apply mpmc_init_ok].
  intros s l Hs He. wp_apply (mpmc_exec_ok l); [done..|]. by intros o s' [Hs' _].
Qed.
End preservation.

(** ** Properties *)
Section properties.
Context {W : Type → Type} `{!WaitQueue W} {T : Type}.

(** A sample run: two buffered values, a sender that waits for a slot, is granted it and sends, a
    receiver that waits. *)
Definition sample_run : list (Label nat) :=
  [TrySend 7%nat; TrySend 8%nat; ReserveNew 0; ReservePoll 0 100%nat; RecvNew 0; RecvPoll 0 200%nat;
   ReservePoll 0 101%nat; PermitSend 9%nat; TryRecv; TryRecv; RecvNew 1; RecvPoll 1 201%nat].

(** C2: while a receiver lives, the slots of a bounded queue are conserved over every run: the
    available ones, the buffered values, the outstanding permits and the slots granted to detached
    waiters add up to the capacity, and a sender waits only when no slot is available.  No
    operation panics. *)
Theorem mpmc_slots_conserved c ls tr (x : Sys W T) :
  0 < c <= usize_max → returns (run enabled exec ls) (init (Some c)) tr x →
  receivers (st x) ≠ 0 →
  no_panic enabled exec x ∧ ∃ a q m, available (st x) = Some a ∧ 0 <= a ∧ wq_rep (send_waiters (st x)) q m ∧
    waiters_ok send_waker (reserves x) q m ∧
    a + n_values (st x) + permits x + detached_count q m = c ∧ (q ≠ [] → a = 0).
Proof.
  intros Hc Hr Hn. pose proof (mpmc_reachable_ok (Some c) _ _ _ Hc Hr) as Hx.
  split; [apply (no_panic_wp _ _ _ _ (λ l, mpmc_exec_ok (Some c) l x Hx))|]. destruct Hx as [(q & m & Hrep & _ & Hok & Hcap) _ _ _ _].
  destruct (available (st x)) as [a|]; [|done]. destruct Hcap as (Ha & _ & Heq).
  destruct (Heq Hn) as [Hsum Hq]. exists a, q, m. split_and!; auto; lia.
Qed.

(** C3: no wake-up of a receiver is lost: over every run, while a sender lives and some receiver
    is still waiting, there are at least as many notified receivers as buffered values. *)
Theorem mpmc_no_lost_wakeup cap ls tr (x : Sys W T) :
  capacity_ok cap → returns (run enabled exec ls) (init cap) tr x → senders (st x) ≠ 0 →
  ∃ q m, wq_rep (recv_waiters (st x)) q m ∧ waiters_ok recv_waker (recvs x) q m ∧
    (q ≠ [] → n_values (st x) <= detached_count q m).
Proof.
  intros Hc Hr Hn. destruct (mpmc_reachable_ok cap _ _ _ Hc Hr) as [_ (q & m & Hrep & _ & Hok) _ _ _].
  destruct (Hok Hn) as [Hw Hd]. exists q, m. split_and!; try done. intros Hq. specialize (Hd Hq). lia.
Qed.

(** C10: the queue is first in, first out over every run: the values accepted, in order, are the
    values received or discarded with the last receiver, in order, followed by the buffer. *)
Theorem mpmc_fifo cap ls tr (x : Sys W T) :
  capacity_ok cap → returns (run enabled exec ls) (init cap) tr x →
  concat (accepted <$> tr.*2) = concat ((λ o, delivered o ++ discarded o) <$> tr.*2) ++ values (st x).
Proof.
  intros Hc Hr. cut (sys_ok cap x ∧
    concat (accepted <$> tr.*2) = concat ((λ o, delivered o ++ discarded o) <$> tr.*2) ++ values (st x));
    [by intros [_ ?]|].
  change tr with ([] ++ tr). eapply (run_trace_invariant enabled exec (λ tr x, sys_ok cap x ∧
    concat (accepted <$> tr.*2) = concat ((λ o, delivered o ++ discarded o) <$> tr.*2) ++ values (st x)));
    [|split; [by apply mpmc_init_ok|done]|done].
  intros tr' s l [Hs Heq] He. wp_apply (mpmc_exec_ok cap l); [done..|]. intros o s' [Hs' Hord].
  split; [done|]. unfold step_order in Hord.
  rewrite !fmap_app, !concat_app, Heq. simpl. rewrite !app_nil_r, <-!app_assoc, <-Hord. done.
Qed.

(** No operation the ownership rules allow panics, in any state a run can reach: the
    [unreachable!] branches, the waiter lookups and the counters of the source cannot fail. *)
Theorem mpmc_never_panics cap ls tr (x : Sys W T) l :
  capacity_ok cap → returns (run enabled exec ls) (init cap) tr x → enabled l x = true →
  ∃ o x', returns (exec l) x o x'.
Proof.
  intros Hc Hr He. pose proof (mpmc_reachable_ok cap _ _ _ Hc Hr) as Hok.
  destruct (proj1 (wp_returns _ _ _) (mpmc_exec_ok cap l x Hok He)) as (o & x' & Hx & _). eauto.
Qed.

(** A slot given up while senders wait goes to the oldest of them: dropping a permit wakes
    exactly the head of the wait queue, marks it granted and leaves no slot up for grabs. *)
Theorem mpmc_grants_oldest c ls tr (x : Sys W T) id q m :
  0 < c <= usize_max → returns (run enabled exec ls) (init (Some c)) tr x →
  receivers (st x) ≠ 0 → 0 < permits x → wq_rep (send_waiters (st x)) (id :: q) m →
  waiters_ok send_waker (reserves x) (id :: q) m →
  ∃ wk o x', returns (exec PermitDrop) x o x' ∧
    m !! id = Some (SendWaiting wk) ∧ woken o = [wk] ∧ available (st x') = available (st x) ∧
    wq_rep (send_waiters (st x')) q (<[id:=SendGranted]> m).
Proof.
  intros Hc Hr Hn Hp Hrep Hok. destruct (mpmc_reachable_ok (Some c) _ _ _ Hc Hr) as [Hside _ _ _ _].
  destruct Hside as (? & ? & _ & _ & _ & Hcap). destruct x as [s rs rv p]; simpl in *.
  cut (wp (exec PermitDrop) (mkSys s rs rv p) (λ o x', ∃ wk,
    m !! id = Some (SendWaiting wk) ∧ woken o = [wk] ∧ available (st x') = available s ∧
    wq_rep (send_waiters (st x')) q (<[id:=SendGranted]> m))).
  { intros (o & x' & Hx & wk & H)%wp_returns. by exists wk, o, x'. }
  unfold exec, permit_drop, release. wp_auto. simpl. rewrite bool_decide_false by done.
  destruct (available s) as [a|] eqn:Ha; [|done]. wp_auto.
  wp_apply notify_first_spec; [done..|]. intros r w (Hs & -> & [wk Hwk] & Hrep' & _).
  rewrite Hwk. wp_auto. simpl. exists wk. split_and!; try done. unfold waker_at in Hwk.
  destruct (m !! id) as [[]|]; simplify_eq/=; done.
Qed.
End properties.

Lemma mpmc_slots_conserved_witness :
  ∃ tr (x : Sys WaitList nat), returns (run enabled exec sample_run) (init (Some 2)) tr x ∧
    no_panic enabled exec x ∧ ∃ a q m, available (st x) = Some a ∧ 0 <= a ∧ wq_rep (send_waiters (st x)) q m ∧
      waiters_ok send_waker (reserves x) q m ∧
      a + n_values (st x) + permits x + detached_count q m = 2 ∧ (q ≠ [] → a = 0).
Proof.
  eexists _, _. split; [vm_compute; reflexivity|].
  eapply (mpmc_slots_conserved 2 sample_run); [done|vm_compute; reflexivity|done].
Defined.

Lemma mpmc_no_lost_wakeup_witness :
  ∃ tr (x : Sys WaitList nat), returns (run enabled exec sample_run) (init (Some 2)) tr x ∧
    ∃ q m, wq_rep (recv_waiters (st x)) q m ∧ waiters_ok recv_waker (recvs x) q m ∧
      (q ≠ [] → n_values (st x) <= detached_count q m).
Proof.
  eexists _, _. split; [vm_compute; reflexivity|].
  eapply (mpmc_no_lost_wakeup (Some 2) sample_run); [done|vm_compute; reflexivity|done].
Defined.

Lemma mpmc_fifo_witness :
  ∃ tr (x : Sys WaitList nat), returns (run enabled exec sample_run) (init (Some 2)) tr x ∧
    concat (accepted <$> tr.*2) = [7; 8; 9]%nat ∧
    concat (accepted <$> tr.*2) = concat ((λ o, delivered o ++ discarded o) <$> tr.*2) ++ values (st x).
Proof.
  eexists _, _. split; [vm_compute; reflexivity|]. split; [reflexivity|].
  eapply (mpmc_fifo (Some 2) sample_run); [done|vm_compute; reflexivity].
Defined.

Lemma mpmc_never_panics_witness :
  ∃ tr (x : Sys WaitList nat), returns (run enabled exec sample_run) (init (Some 2)) tr x ∧
    ∃ o x', returns (exec (RecvDrop 1)) x o x'.
Proof.
  eexists _, _. split; [vm_compute; reflexivity|].
  eapply (mpmc_never_panics (Some 2) sample_run); [done|vm_compute; reflexivity|vm_compute; reflexivity].
Defined.

(** One permit out, one sender waiting. *)
Definition waiting_run : list (Label nat) := [TryReserve; ReserveNew 0; ReservePoll 0 100%nat].
Definition waiting_sys : Sys WaitList nat :=
  match run enabled exec waiting_run (init (Some 1)) with
  | Ret _ x => x
  | Panic _ x => x
  end.

Lemma waiting_sys_queue : ∃ id m,
  wq_rep (send_waiters (st waiting_sys)) [id] m ∧ waiters_ok send_waker (reserves waiting_sys) [id] m.
Proof.
  assert (sys_ok (Some 1) waiting_sys) as [(q & m & Hrep & _ & Hok & Hcap) _ _ _ _].
  { eapply (mpmc_reachable_ok (Some 1) waiting_run); [done|vm_compute; reflexivity]. }
  specialize (Hok ltac:(done)). destruct Hcap as (_ & _ & Heq). destruct (Heq ltac:(done)) as [Hsum _].
  pose proof (wq_len_spec _ _ _ Hrep) as Hlen. unfold detached_count in Hsum. rewrite <-Hlen in Hsum.
  assert (length q = 1)%nat as Hq1.
  { assert (wq_len (send_waiters (st waiting_sys)) = 1%nat) as Hl by (vm_compute; reflexivity).
    assert (n_values (st waiting_sys) = 0 ∧ permits waiting_sys = 1) as [Hv Hp] by done.
    rewrite Hl, Hv, Hp in Hsum. lia. }
  destruct q as [|id [|]]; try done. by exists id, m.
Qed.

Lemma mpmc_grants_oldest_witness :
  ∃ tr id m, returns (run enabled exec waiting_run) (init (Some 1)) tr waiting_sys ∧
    wq_rep (send_waiters (st waiting_sys)) [id] m ∧
    ∃ wk o x', returns (exec PermitDrop) waiting_sys o x' ∧
      m !! id = Some (SendWaiting wk) ∧ woken o = [wk] ∧
      available (st x') = available (st waiting_sys) ∧
      wq_rep (send_waiters (st x')) [] (<[id:=SendGranted]> m).
Proof.
  destruct waiting_sys_queue as (id & m & Hrep & Hok).
  eexists _, id, m. split; [vm_compute; reflexivity|]. split; [exact Hrep|].
  eapply (mpmc_grants_oldest 1 waiting_run);
    [done|vm_compute; reflexivity|done|done|exact Hrep|exact Hok].
Defined.

Lemma mpmc_send_poll_result_witness :
  wp (send_poll (SendStart 5%nat) 1%nat) (st (init (W:=WaitList) (Some 1))) (λ r s',
    send_side (Some 1) (<[0%nat:=send_waiter r.1.1]> {[0%nat:=None]}) 0 s' ∧ recv_side ∅ 0 s' ∧
    send_answer 5%nat (st (init (Some 1))) r s').
Proof.
  pose proof (mpmc_init_ok (W:=WaitList) (T:=nat) (Some 1) ltac:(done)) as [Hs Hr _ _ _].
  apply (mpmc_send_poll_result (Some 1) {[0%nat:=None]} ∅ 0); try done.
  destruct Hs as (q & m & Hrep & H0 & Hok & Hcap). exists q, m. split_and!; try done.
  intros Hn. apply (waiters_ok_new send_waker ∅); [by apply Hok|done].
Defined.
