(* ===== verification/Spmc.v ===== *)
(** * The single-producer multi-consumer queue

    [asyncband/src/spmc/queue.rs], behind the bounded and the unbounded channel: values go to whoever
    takes them first, a value that is sent notifies the oldest waiting receiver, and a value that is
    taken notifies the sender.  Every operation is a critical section of the state lock followed by
    wake-ups. *)
From S2P Require Import Prelude Arena WaitQueue WaitList.

Inductive Waiter : Type :=
| Waiting (waker : Waker)
| Notified.

Definition waiting_waker (w : Waiter) : option Waker := match w with Waiting waker => Some waker | Notified => None end.

Inductive TrySendError (A : Type) : Type :=
| Full (v : A)
| SendDisconnected (v : A).
Arguments Full {A} v.
Arguments SendDisconnected {A} v.

Inductive TryRecvError : Type := Empty | Disconnected.

Record State (W : Type → Type) (T : Type) : Type := mkState {
  values : list T;
  capacity : option Z;
  sender_alive : bool;
  receivers : Z;
  recv_waiters : W Waiter;
  send_waiters : W Waiter;
}.
Arguments mkState {W T}.
Arguments values {W T}.
Arguments capacity {W T}.
Arguments sender_alive {W T}.
Arguments receivers {W T}.
Arguments recv_waiters {W T}.
Arguments send_waiters {W T}.

Section queue.
Context {W : Type → Type} `{!WaitQueue W} {T : Type}.
Implicit Types (s : State W T) (v : T).

Definition set_values l s : State W T := mkState l (capacity s) (sender_alive s) (receivers s) (recv_waiters s) (send_waiters s).
Definition set_receivers n s : State W T := mkState (values s) (capacity s) (sender_alive s) n (recv_waiters s) (send_waiters s).
Definition set_recv_waiters w s : State W T := mkState (values s) (capacity s) (sender_alive s) (receivers s) w (send_waiters s).
Definition set_send_waiters w s : State W T := mkState (values s) (capacity s) (sender_alive s) (receivers s) (recv_waiters s) w.
Definition in_recv {A : Type} (m : M (W Waiter) A) : M (State W T) A := zoom recv_waiters set_recv_waiters m.
Definition in_send {A : Type} (m : M (W Waiter) A) : M (State W T) A := zoom send_waiters set_send_waiters m.

Definition n_values s : Z := Z.of_nat (length (values s)).
Definition has_capacity s : bool := match capacity s with None => true | Some c => bool_decide (n_values s < c) end.

Definition notify_one : M (W Waiter) (option Waker) := notify_first waiting_waker Notified "only waiting operations remain linked".

(** [register]: the waiter afterwards; the replaced waker is dropped later. *)
Definition register (id : option WaiterId) (current : Waker) : M (W Waiter) (option WaiterId) :=
  queued ← match id with
           | Some queued => w ← wq_waiter queued; mret (Some (queued, w))
           | None => mret None
           end;
  match queued with
  | Some (queued, Waiting waker) =>
      (if will_wake waker current then mret tt else wq_set_waiter queued (Waiting current));;
      mret id
  | _ =>
      match id with
      | Some notified => remove_waiter notified;; mret tt
      | None => mret tt
      end;;
      id ← wq_push_back (Waiting current);
      mret (Some id)
  end.

Definition push v : M (State W T) (option Waker) :=
  modify (λ s, set_values (values s ++ [v]) s);;
  in_recv notify_one.

Definition pop : M (State W T) (result (T * option Waker) TryRecvError) :=
  s ← get;
  match values s with
  | v :: l =>
      put (set_values l s);;
      waker ← in_send notify_one;
      mret (Ok (v, waker))
  | [] => mret (Err (if sender_alive s then Empty else Disconnected))
  end.

Definition new (capacity : option Z) : State W T := mkState [] capacity true 1 wq_new wq_new.

Definition drop_sender : M (State W T) (list Waker) :=
  s ← get;
  put (mkState (values s) (capacity s) false (receivers s) wq_new (send_waiters s));;
  run_local (recv_waiters s) (while_some (S (wq_len (recv_waiters s))) notify_one).

Definition clone_receiver : M (State W T) unit :=
  s ← get;
  n ← add_int usize_max (receivers s) 1;
  put (set_receivers n s).

(** [drop_receiver]: the values discarded and the tasks woken. *)
Definition drop_receiver : M (State W T) (list T * list Waker) :=
  s ← get;
  n ← sub_int (receivers s) 1;
  put (set_receivers n s);;
  if negb (bool_decide (n = 0)) then mret ([], [])
  else
    modify (λ s, set_values [] (set_send_waiters wq_new s));;
    ws ← run_local (send_waiters s) (while_some (S (wq_len (send_waiters s))) notify_one);
    mret (values s, ws).

Definition try_send v : M (State W T) (result unit (TrySendError T) * list Waker) :=
  s ← get;
  if bool_decide (receivers s = 0) then mret (Err (SendDisconnected v), [])
  else if negb (has_capacity s) then mret (Err (Full v), [])
  else waker ← push v; mret (Ok tt, option_list waker).

Definition try_recv : M (State W T) (result T TryRecvError * list Waker) :=
  r ← pop;
  match r with
  | Ok (v, waker) => mret (Ok v, option_list waker)
  | Err e => mret (Err e, [])
  end.

(** [bounded] and [UnboundedSender::send]. *)
Definition bounded (capacity : Z) : M unit (State W T) :=
  assert_true (bool_decide (0 < capacity)) "spmc bounded queue requires capacity > 0";;
  mret (new (Some capacity)).

Definition unbounded_send v : M (State W T) (result unit T * list Waker) :=
  '(r, ws) ← try_send v;
  match r with
  | Ok _ => mret (Ok tt, ws)
  | Err (SendDisconnected v) => mret (Err v, ws)
  | Err (Full _) => panic "unbounded queue cannot be full"
  end.

(** [Send::poll]: the waiter afterwards, whether the value was accepted or given back, and the tasks
    woken. *)
Definition send_poll (waiter : option WaiterId) v (cx : Waker) : M (State W T) (option WaiterId * Poll (result unit T) * list Waker) :=
  s ← get;
  if bool_decide (receivers s = 0) then mret (None, Ready (Err v), [])
  else if has_capacity s then
    waker ← push v;
    match waiter with
    | Some id => in_send (remove_waiter id);; mret tt
    | None => mret tt
    end;;
    mret (None, Ready (Ok tt), option_list waker)
  else
    waiter ← in_send (register waiter cx);
    mret (waiter, Pending, []).

Definition send_drop (waiter : option WaiterId) : M (State W T) unit :=
  match waiter with
  | None => mret tt
  | Some id =>
      s ← get;
      if bool_decide (receivers s = 0) then mret tt else in_send (remove_waiter id);; mret tt
  end.

Definition recv_poll (waiter : option WaiterId) (cx : Waker) : M (State W T) (option WaiterId * Poll (result T TryRecvError) * list Waker) :=
  s ← get;
  let waiter := if sender_alive s then waiter else None in
  r ← pop;
  match r with
  | Err Empty =>
      waiter ← in_recv (register waiter cx);
      mret (waiter, Pending, [])
  | Err Disconnected =>
      match waiter with Some id => in_recv (remove_waiter id);; mret tt | None => mret tt end;;
      mret (None, Ready (Err Disconnected), [])
  | Ok (v, waker) =>
      match waiter with Some id => in_recv (remove_waiter id);; mret tt | None => mret tt end;;
      mret (None, Ready (Ok v), option_list waker)
  end.

Definition recv_drop (waiter : option WaiterId) : M (State W T) (list Waker) :=
  match waiter with
  | None => mret []
  | Some id =>
      s ← get;
      if negb (sender_alive s) then mret []
      else
        retired ← in_recv (remove_waiter id);
        match retired with
        | Notified =>
            if bool_decide (values s = []) then mret []
            else waker ← in_recv notify_one; mret (option_list waker)
        | Waiting _ => mret []
        end
  end.
End queue.

#[export] Hint Unfold in_recv in_send : band_zoom.

(** ** The system *)
Record Sys (W : Type → Type) (T : Type) : Type := mkSys {
  st : State W T;
  sends : futures;
  sending : gmap nat T;
  recvs : futures;
}.
Arguments mkSys {W T}.
Arguments st {W T}.
Arguments sends {W T}.
Arguments sending {W T}.
Arguments recvs {W T}.

Record Obs (T : Type) : Type := mkObs {
  accepted : list T;
  delivered : list T;
  discarded : list T;
  woken : list Waker;
}.
Arguments mkObs {T}.
Arguments accepted {T}.
Arguments delivered {T}.
Arguments discarded {T}.
Arguments woken {T}.

(** [SendNew] and [RecvNew] are the futures past their first attempt, which is a [TrySend] or a
    [TryRecv]. *)
Inductive Label (T : Type) : Type :=
| TrySend (v : T)
| SendNew (f : nat) (v : T)
| SendPoll (f : nat) (cx : Waker)
| SendDrop (f : nat)
| TryRecv
| RecvNew (f : nat)
| RecvPoll (f : nat) (cx : Waker)
| RecvDrop (f : nat)
| DropSender
| CloneReceiver
| DropReceiver.
Arguments TrySend {T} v.
Arguments SendNew {T} f v.
Arguments SendPoll {T} f cx.
Arguments SendDrop {T} f.
Arguments TryRecv {T}.
Arguments RecvNew {T} f.
Arguments RecvPoll {T} f cx.
Arguments RecvDrop {T} f.
Arguments DropSender {T}.
Arguments CloneReceiver {T}.
Arguments DropReceiver {T}.

Section system.
Context {W : Type → Type} `{!WaitQueue W} {T : Type}.
Implicit Types (x : Sys W T) (l : Label T) (f : nat) (v : T).

Definition init (cap : option Z) : Sys W T := mkSys (new cap) ∅ ∅ ∅.
Definition set_st s x : Sys W T := mkSys s (sends x) (sending x) (recvs x).
Definition set_sends g h x : Sys W T := mkSys (st x) g h (recvs x).
Definition set_recvs g x : Sys W T := mkSys (st x) (sends x) (sending x) g.
Definition on_st {A : Type} (m : M (State W T) A) : M (Sys W T) A := zoom st set_st m.
Definition silent : Obs T := mkObs [] [] [] [].

(** The sender is used by one future at a time. *)
Definition enabled l x : bool :=
  match l with
  | TrySend _ | DropSender => bool_decide (sender_alive (st x) = true ∧ sends x = ∅)
  | SendNew f _ => bool_decide (sender_alive (st x) = true ∧ sends x = ∅)
  | SendPoll f _ => bool_decide (is_Some (sending x !! f) ∧ is_Some (sends x !! f)) && bool_decide (wq_room (send_waiters (st x)))
  | SendDrop f => bool_decide (is_Some (sends x !! f))
  | TryRecv => bool_decide (0 < receivers (st x))
  | RecvNew f => bool_decide (0 < receivers (st x) ∧ recvs x !! f = None)
  | RecvPoll f _ => bool_decide (is_Some (recvs x !! f)) && bool_decide (wq_room (recv_waiters (st x)))
  | RecvDrop f => bool_decide (is_Some (recvs x !! f))
  | CloneReceiver => bool_decide (0 < receivers (st x) < isize_max)
  | DropReceiver => bool_decide (0 < receivers (st x))
  end.

Definition exec l : M (Sys W T) (Obs T) :=
  x ← get;
  match l with
  | TrySend v =>
      '(r, ws) ← on_st (try_send v);
      mret (mkObs (match r with Ok _ => [v] | Err _ => [] end) [] [] ws)
  | SendNew f v => put (set_sends (<[f:=None]> (sends x)) (<[f:=v]> (sending x)) x);; mret silent
  | SendPoll f cx =>
      waiter ← expect (sends x !! f) "no such future";
      v ← expect (sending x !! f) "pending send must own its value";
      '(waiter, r, ws) ← on_st (send_poll waiter v cx);
      match r with
      | Pending => modify (set_sends (<[f:=waiter]> (sends x)) (sending x));; mret silent
      | Ready a =>
          modify (set_sends (delete f (sends x)) (delete f (sending x)));;
          mret (mkObs (match a with Ok _ => [v] | Err _ => [] end) [] [] ws)
      end
  | SendDrop f =>
      waiter ← expect (sends x !! f) "no such future";
      on_st (send_drop waiter);;
      modify (set_sends (delete f (sends x)) (delete f (sending x)));;
      mret silent
  | TryRecv =>
      '(r, ws) ← on_st try_recv;
      mret (mkObs [] (match r with Ok v => [v] | Err _ => [] end) [] ws)
  | RecvNew f => put (set_recvs (<[f:=None]> (recvs x)) x);; mret silent
  | RecvPoll f cx =>
      waiter ← expect (recvs x !! f) "no such future";
      '(waiter, r, ws) ← on_st (recv_poll waiter cx);
      match r with
      | Pending => modify (set_recvs (<[f:=waiter]> (recvs x)));; mret silent
      | Ready a =>
          modify (set_recvs (delete f (recvs x)));;
          mret (mkObs [] (match a with Ok v => [v] | Err _ => [] end) [] ws)
      end
  | RecvDrop f =>
      waiter ← expect (recvs x !! f) "no such future";
      ws ← on_st (recv_drop waiter);
      modify (set_recvs (delete f (recvs x)));;
      mret (mkObs [] [] [] ws)
  | DropSender => ws ← on_st drop_sender; mret (mkObs [] [] [] ws)
  | CloneReceiver => on_st clone_receiver;; mret silent
  | DropReceiver => '(vs, ws) ← on_st drop_receiver; mret (mkObs [] [] vs ws)
  end.
End system.

#[export] Hint Unfold on_st : band_zoom.

(** ** One side of the queue: the futures, the linked waiters and the stored ones *)
Section side.
Context {W : Type → Type} `{!WaitQueue W}.
Implicit Types (w : W Waiter) (futs : futures) (q : list WaiterId) (m : gmap WaiterId Waiter) (f : nat).

(** The future [f] waits with the waker [wk]. *)
Definition parked f (wk : Waker) futs m : Prop := ∃ id, futs !! f = Some (Some id) ∧ m !! id = Some (Waiting wk).

(** Every other future than [f] that waits still does, or is woken. *)
Definition kept (f : option nat) futs m futs' m' (ws : list Waker) : Prop :=
  ∀ g wk, f ≠ Some g → parked g wk futs m → parked g wk futs' m' ∨ wk ∈ ws.

Definition side w futs q m : Prop := wq_rep w q m ∧ waiters_ok waiting_waker futs q m.

Lemma kept_refl (o : option nat) futs m ws : kept o futs m futs m ws.
Proof. intros g wk _ Hg. by left. Qed.

Lemma spmc_notify_spec w futs q m :
  side w futs q m →
  wp notify_one w (λ r w', ∃ q' m', side w' futs q' m' ∧ kept None futs m futs m' (option_list r) ∧
    match r with
    | None => q = [] ∧ q' = [] ∧ m' = m
    | Some _ => detached_count q' m' = detached_count q m + 1 ∧ length q = S (length q')
    end).
Proof.
  intros [Hrep Hok]. wp_apply notify_first_spec; [done..|]. intros r w' Hr. destruct q as [|id q].
  - destruct Hr as [-> ->]. exists [], m. split_and!; try done. apply kept_refl.
  - destruct Hr as ((v & Hv) & Er & [wk Hwk] & Hrep' & Hok' & _). exists q, (<[id:=Notified]> m). rewrite Hwk.
    split_and!; try done; [|rewrite detached_notify by eauto; lia].
    intros g wk' _ (i & Hi & Hm). destruct (decide (i = id)) as [->|Hne].
    + right. simpl. unfold waker_at in Er. rewrite Hm in Er. simpl in Er. rewrite Hwk in Er. injection Er as ->. set_solver.
    + left. exists i. by rewrite lookup_insert_ne.
Qed.

(** Whether the waiter of a future has been notified. *)
Definition notified (id : option WaiterId) m : Z :=
  match id ≫= (m !!.) with Some Notified => 1 | _ => 0 end.

Lemma spmc_remove_spec w futs q m f id :
  side w futs q m → futs !! f = Some (Some id) →
  wp (remove_waiter id) w (λ v w', ∃ q' m', m !! id = Some v ∧ side w' (delete f futs) q' m' ∧ (∀ ws, kept (Some f) futs m (delete f futs) m' ws) ∧
    detached_count q' m' = detached_count q m - notified (Some id) m ∧ (q = [] → q' = []) ∧ (length q' ≤ length q)%nat ∧
    (wq_room w → wq_room w')).
Proof.
  intros [Hrep Hok] Hf. destruct (waiters_ok_owner _ _ _ _ _ _ Hok Hf) as [v Hv].
  wp_apply remove_waiter_spec; [done..|]. intros v' w' (-> & Hrep' & Hroom). exists (without id q), (delete id m).
  pose proof (waiters_ok_remove _ _ _ _ _ _ Hok Hf) as Hok'. apply (waiters_ok_drop _ _ _ _ f) in Hok'; [|apply lookup_insert_eq].
  rewrite delete_insert_eq in Hok'. split_and!; try done.
  - intros ws g wk Hne (i & Hi & Hm). left. exists i.
    assert (i ≠ id) by (intros ->; apply Hne; f_equal; by apply (wo_inj _ _ _ _ Hok f g id)). by rewrite !lookup_delete_ne by congruence.
  - rewrite (detached_remove q m id v (wq_rep_nodup _ _ _ Hrep) Hv). unfold notified. simpl. rewrite Hv.
    pose proof (wo_waiting _ _ _ _ Hok id v Hv) as Hw. destruct v as [wk|].
    + rewrite decide_True; [lia|]. apply Hw. by eexists.
    + rewrite decide_False; [lia|]. intros [? ?]%Hw. done.
  - by intros ->.
  - apply length_filter.
Qed.

Lemma spmc_register_spec w futs q m f id cx :
  side w futs q m → futs !! f = Some id → wq_room w →
  wp (register id cx) w (λ id' w', ∃ q' m', side w' (<[f:=id']> futs) q' m' ∧ (∀ ws, kept (Some f) futs m (<[f:=id']> futs) m' ws) ∧
    parked f cx (<[f:=id']> futs) m' ∧ detached_count q' m' = detached_count q m - notified id m ∧
    (length q' ≤ S (length q))%nat ∧ (¬ (∃ wk, parked f wk futs m) ∨ length q' = length q)).
Proof.
  intros Hs Hf Hroom. pose proof Hs as [Hrep Hok]. unfold register. wp_auto.
  assert (∀ w1 q1 m1, side w1 (delete f futs) q1 m1 → wq_room w1 → (∀ ws, kept (Some f) futs m (delete f futs) m1 ws) →
    detached_count q1 m1 = detached_count q m - notified id m → (length q1 ≤ length q)%nat → ¬ (∃ wk, parked f wk futs m) →
    wp (wq_push_back (Waiting cx)) w1 (λ i w', wp (mret (Some i)) w' (λ id' w', ∃ q' m', side w' (<[f:=id']> futs) q' m' ∧
      (∀ ws, kept (Some f) futs m (<[f:=id']> futs) m' ws) ∧ parked f cx (<[f:=id']> futs) m' ∧
      detached_count q' m' = detached_count q m - notified id m ∧ (length q' ≤ S (length q))%nat ∧ (¬ (∃ wk, parked f wk futs m) ∨ length q' = length q)))) as Hpush.
  { intros w1 q1 m1 [Hrep1 Hok1] Hroom1 Hk Hd Hle Hnp. wp_apply wq_push_back_spec; [done..|]. intros i w2 [Hn Hrep2]. wp_auto.
    assert (i ∉ q1) as Hni by (intros Hin; destruct (wq_rep_linked _ _ _ i Hrep1 Hin); congruence).
    exists (q1 ++ [i]), (<[i:=Waiting cx]> m1).
    assert (waiters_ok waiting_waker (<[f:=Some i]> futs) (q1 ++ [i]) (<[i:=Waiting cx]> m1)) as Hok2.
    { rewrite <-(insert_delete_eq futs f (Some i)), <-(insert_insert_eq (delete f futs) f (Some i) None).
      apply waiters_ok_register; [apply waiters_ok_new; [done|apply lookup_delete_eq]|apply lookup_insert_eq|done|done|by eexists]. }
    split_and!; try done; [| |by rewrite detached_register|rewrite length_app; simpl; lia|by left].
    - intros ws g wk Hne Hp. destruct (Hk ws g wk Hne Hp) as [(j & Hj & Hm)|?]; [left|by right]. apply lookup_delete_Some in Hj as [Hfg Hj].
      exists j. assert (j ≠ i) by congruence. by rewrite !lookup_insert_ne by congruence.
    - exists i. by rewrite !lookup_insert_eq. }
  destruct id as [i|]; wp_auto.
  - destruct (waiters_ok_owner _ _ _ _ _ _ Hok Hf) as [v Hv]. wp_apply wq_waiter_spec; [done..|]. intros v' w' [-> ->]. wp_auto.
    destruct v as [wk|].
    + assert (i ∈ q) as Hin by (eapply wo_waiting; [done..|by eexists]).
      assert (∀ w2, wq_rep w2 q (<[i:=Waiting cx]> m) → side w2 (<[f:=Some i]> futs) q (<[i:=Waiting cx]> m) ∧
        (∀ ws, kept (Some f) futs m (<[f:=Some i]> futs) (<[i:=Waiting cx]> m) ws) ∧ parked f cx (<[f:=Some i]> futs) (<[i:=Waiting cx]> m) ∧
        detached_count q (<[i:=Waiting cx]> m) = detached_count q m - notified (Some i) m) as Hfin.
      { intros w2 Hrep2. rewrite (insert_id futs f (Some i)) by done. split_and!.
        - split; [done|]. apply waiters_ok_refresh; eauto.
        - intros ws g wk' Hne (j & Hj & Hm). left. exists j. rewrite lookup_insert_ne; [done|]. intros <-. apply Hne. f_equal. by apply (wo_inj _ _ _ _ Hok f g i).
        - exists i. by rewrite lookup_insert_eq.
        - rewrite detached_update by eauto. unfold notified. simpl. rewrite Hv. lia. }
      unfold will_wake. case_bool_decide as Hwk; wp_auto.
      * subst cx. exists q, (<[i:=Waiting wk]> m). destruct (Hfin w) as (? & ? & ? & ?); [by rewrite insert_id|]. split_and!; auto; lia.
      * wp_apply wq_set_waiter_spec; [done|by eauto|]. intros _ w2 [Hrep2 _]. wp_auto. exists q, (<[i:=Waiting cx]> m).
        destruct (Hfin w2 Hrep2) as (? & ? & ? & ?). split_and!; auto; lia.
    + wp_auto. wp_apply spmc_remove_spec; [done..|]. intros v' w1 (q1 & m1 & Hv' & Hs1 & Hk & Hd & _ & Hle & Hr1). wp_auto.
      apply (Hpush w1 q1 m1); auto. intros (wk & j & Hj & Hm). rewrite Hf in Hj. injection Hj as <-. congruence.
  - apply (Hpush w q m); try done.
    + split; [done|]. by apply waiters_ok_drop.
    + intros ws g wk Hne (j & Hj & Hm). left. exists j. rewrite lookup_delete_ne; [done|congruence].
    + unfold notified. simpl. lia.
    + intros (wk & j & Hj & Hm). congruence.
Qed.
End side.

(** ** Invariant *)
Section invariant.
Context {W : Type → Type} `{!WaitQueue W} {T : Type} (cap : option Z).
Implicit Types (s : State W T) (x : Sys W T) (l : Label T) (futs : futures) (q : list WaiterId) (m : gmap WaiterId Waiter) (f : nat) (v : T).

(** While the sender lives and receivers wait, [k] more of them have been notified than there are values. *)
Definition recv_side futs k s q m : Prop :=
  wq_rep (recv_waiters s) q m ∧ (sender_alive s = false → m = ∅) ∧
  (sender_alive s = true → waiters_ok waiting_waker futs q m ∧ (q ≠ [] → n_values s + k <= detached_count q m)).

(** While a receiver lives, the sender waits only for capacity. *)
Definition send_side futs s q m : Prop :=
  wq_rep (send_waiters s) q m ∧ (receivers s = 0 → m = ∅) ∧
  (receivers s ≠ 0 → waiters_ok waiting_waker futs q m ∧ (length q ≤ 1)%nat ∧ (q ≠ [] → has_capacity s = false)).

Record Ghost : Type := mkGhost {
  rq : list WaiterId;
  rm : gmap WaiterId Waiter;
  sq : list WaiterId;
  sm : gmap WaiterId Waiter;
}.
Implicit Types g : Ghost.

Record sys_ok x g : Prop := {
  sy_recv : recv_side (recvs x) 0 (st x) (rq g) (rm g);
  sy_send : send_side (sends x) (st x) (sq g) (sm g);
  sy_one : ∀ f f', is_Some (sends x !! f) → is_Some (sends x !! f') → f = f';
  sy_alive : sends x ≠ ∅ → sender_alive (st x) = true;
  sy_receivers : 0 <= receivers (st x) <= isize_max;
  sy_values : receivers (st x) = 0 → values (st x) = [];
  sy_capacity : capacity (st x) = cap;
}.

(** The receive future and the send future a label is about. *)
Definition about_recv l : option nat := match l with RecvPoll f _ | RecvDrop f => Some f | _ => None end.
Definition about_send l : option nat := match l with SendPoll f _ | SendDrop f => Some f | _ => None end.

(** What an operation does: values keep their order, and the futures that wait still do, unless the
    other side is gone, or are woken. *)
Record effect l x g (o : Obs T) x' g' : Prop := {
  ef_ok : sys_ok x' g';
  ef_order : values (st x) ++ accepted o = delivered o ++ discarded o ++ values (st x');
  ef_recv : sender_alive (st x) = true → kept (about_recv l) (recvs x) (rm g) (recvs x') (rm g') (woken o);
  ef_send : receivers (st x) ≠ 0 → kept (about_send l) (sends x) (sm g) (sends x') (sm g') (woken o);
}.

(** The parts of the state an operation on the values leaves alone. *)
Definition same_handles s s' : Prop := capacity s' = capacity s ∧ sender_alive s' = sender_alive s ∧ receivers s' = receivers s.

Lemma spmc_push_spec v s rfuts sfuts q m sq sm :
  recv_side rfuts 0 s q m → send_side sfuts s sq sm → has_capacity s = true → receivers s ≠ 0 → sender_alive s = true →
  wp (push v) s (λ r s', ∃ q' m', recv_side rfuts 0 s' q' m' ∧ send_side sfuts s' sq sm ∧ same_handles s s' ∧
    values s' = values s ++ [v] ∧ kept None rfuts m rfuts m' (option_list r) ∧ sq = []).
Proof.
  intros (Hrep & Hdead & Hlive) (Hsrep & Hsz & Hsok) Hcap Hr Ea. unfold push. wp_auto.
  assert (sq = []) as -> by (destruct (Hsok Hr) as (_ & _ & Hq); destruct sq; [done|]; rewrite Hq in Hcap by done; done).
  destruct (Hlive Ea) as [Hok Hd]. wp_apply spmc_notify_spec; [done|]. intros r w (q' & m' & [Hrep' Hok'] & Hk & Hr').
  exists q', m'. split_and!; try done.
  - split_and!; [done|simpl; congruence|]. intros _. split; [done|]. intros Hne. unfold n_values in *. simpl. rewrite length_app. simpl.
    destruct r as [wk|]; [|by destruct Hr' as (_ & -> & _)]. destruct Hr' as [Hdc Hl]. rewrite Hdc.
    assert (q ≠ []) as Hq by (intros ->; simpl in Hl; lia). specialize (Hd Hq). lia.
  - split_and!; [done|done|]. intros _. destruct (Hsok Hr) as (? & ? & _). by split_and!.
Qed.

Lemma spmc_pop_spec s rfuts sfuts q m sq sm :
  recv_side rfuts 0 s q m → send_side sfuts s sq sm → (receivers s = 0 → values s = []) →
  wp pop s (λ r s', ∃ sq' sm', recv_side rfuts (match r with Ok _ => 1 | Err _ => 0 end) s' q m ∧ send_side sfuts s' sq' sm' ∧ same_handles s s' ∧
    match r with
    | Ok (v, wk) => values s = v :: values s' ∧ (receivers s ≠ 0 → kept None sfuts sm sfuts sm' (option_list wk))
    | Err e => values s = [] ∧ s' = s ∧ sq' = sq ∧ sm' = sm ∧ e = if sender_alive s then Empty else Disconnected
    end).
Proof.
  intros Hrv (Hsrep & Hsz & Hsok) Hz. unfold pop. wp_auto. destruct (values s) as [|v l] eqn:Ev; wp_auto.
  { exists sq, sm. split_and!; try done. }
  assert (receivers s ≠ 0) as Hr by (intros H; by apply Hz in H). destruct (Hsok Hr) as (Hok & Hlen & Hfull).
  wp_apply spmc_notify_spec; [done|]. intros r w (q' & m' & [Hrep' Hok'] & Hk & Hr'). wp_auto. exists q', m'. split_and!; try done.
  - destruct Hrv as (Hrep & Hdead & Hlive). split_and!; [done|done|]. intros Ha. destruct (Hlive Ha) as [? Hd]. split; [done|].
    intros Hq. specialize (Hd Hq). unfold n_values in *. simpl. rewrite Ev in Hd. simpl in Hd. lia.
  - split_and!; [done|simpl; congruence|]. intros _. split_and!; [done| |].
    + destruct r as [wk|]; [destruct Hr' as [_ Hl]; lia|]. by destruct Hr' as (_ & -> & _); simpl; lia.
    + intros Hne. destruct r as [wk|]; [|by destruct Hr' as (_ & -> & _)]. destruct Hr' as [_ Hl]. destruct q'; [done|]. simpl in Hl. lia.
Qed.

(** The waiter of a receive future goes; a notification that was used up is accounted for. *)
Lemma spmc_leave_recv s rfuts q m f id k :
  recv_side rfuts k s q m → sender_alive s = true → rfuts !! f = Some (Some id) → (notified (Some id) m <= k) →
  wp (remove_waiter id) (recv_waiters s) (λ _ w, ∃ q' m', recv_side (delete f rfuts) 0 (set_recv_waiters w s) q' m' ∧
    (∀ ws, kept (Some f) rfuts m (delete f rfuts) m' ws)).
Proof.
  intros (Hrep & Hdead & Hlive) Ha Hf Hk. destruct (Hlive Ha) as [Hok Hd].
  wp_apply spmc_remove_spec; [done..|]. intros v w (q' & m' & _ & [Hrep' Hok'] & Hkept & Hdc & Hnil & _ & _).
  exists q', m'. split_and!; try done. split_and!; [done|simpl; congruence|]. intros _. split; [done|]. intros Hne. simpl. rewrite Hdc.
  assert (q ≠ []) as Hq by (intros ->; by apply Hne, Hnil). specialize (Hd Hq). unfold n_values in *. simpl. lia.
Qed.

(** The waiter of a send future goes. *)
Lemma spmc_leave_send s sfuts q m f id :
  send_side sfuts s q m → receivers s ≠ 0 → sfuts !! f = Some (Some id) →
  wp (remove_waiter id) (send_waiters s) (λ _ w, ∃ q' m', send_side (delete f sfuts) (set_send_waiters w s) q' m' ∧ (∀ ws, kept (Some f) sfuts m (delete f sfuts) m' ws)).
Proof.
  intros (Hrep & Hz & Hs) Hr Hf. destruct (Hs Hr) as (Hok & Hl & Hfull).
  wp_apply spmc_remove_spec; [done..|]. intros v w (q' & m' & _ & [Hrep' Hok'] & Hkept & _ & Hnil & Hle & _).
  exists q', m'. split_and!; try done. split_and!; [done|done|]. intros _. split_and!; [done|lia|]. intros Hne.
  apply Hfull. intros ->. by apply Hne, Hnil.
Qed.

Lemma recv_side_weaken futs k s q m : 0 <= k → recv_side futs k s q m → recv_side futs 0 s q m.
Proof. intros Hk (Hrep & Hdead & Hlive). split_and!; [done|done|]. intros Ha. destruct (Hlive Ha) as [? Hd]. split; [done|]. intros Hq. specialize (Hd Hq). lia. Qed.

(** A receive future without a waiter goes, or any one once the sender is gone. *)
Lemma recv_side_drop futs k s q m f :
  recv_side futs k s q m → futs !! f = Some None ∨ sender_alive s = false → recv_side (delete f futs) k s q m.
Proof.
  intros (Hrep & Hdead & Hlive) Hf. split_and!; [done|done|]. intros Ha. destruct Hf as [Hf|]; [|congruence].
  destruct (Hlive Ha) as [? Hd]. split; [by apply waiters_ok_drop|done].
Qed.
Lemma send_side_drop futs s q m f :
  send_side futs s q m → futs !! f = Some None ∨ receivers s = 0 → send_side (delete f futs) s q m.
Proof.
  intros (Hrep & Hz & Hs) Hf. split_and!; [done|done|]. intros Hr. destruct Hf as [Hf|]; [|done].
  destruct (Hs Hr) as (? & ? & ?). split_and!; [by apply waiters_ok_drop|done|done].
Qed.

Lemma send_side_frame futs s s' q m :
  send_side futs s q m → send_waiters s' = send_waiters s → receivers s' = receivers s → values s' = values s → capacity s' = capacity s →
  send_side futs s' q m.
Proof. intros H E1 E2 E3 E4. unfold send_side, has_capacity, n_values in *. by rewrite E1, E2, E3, E4. Qed.
Lemma spmc_recv_frame futs k s s' q m :
  recv_side futs k s q m → recv_waiters s' = recv_waiters s → sender_alive s' = sender_alive s → values s' = values s →
  recv_side futs k s' q m.
Proof. intros H E1 E2 E3. unfold recv_side, n_values in *. by rewrite E1, E2, E3. Qed.

(** The only send future waits, or nobody does. *)
Lemma one_sender x g f :
  sys_ok x g → receivers (st x) ≠ 0 → is_Some (sends x !! f) → ¬ (∃ wk, parked f wk (sends x) (sm g)) → sq g = [].
Proof.
  intros Hx Hr Hf Hn. destruct (sy_send _ _ Hx) as (Hrep & _ & Hs). destruct (Hs Hr) as (Hok & _ & _).
  destruct (sq g) as [|id q] eqn:Eq; [done|]. exfalso. destruct (wq_rep_linked _ _ _ id Hrep) as [v Hv]; [set_solver|].
  destruct (proj1 (wo_owned _ _ _ _ Hok id) ltac:(by eexists)) as [f' Hf'].
  assert (f' = f) as -> by (apply (sy_one _ _ Hx); [by eexists|done]). apply Hn.
  destruct (proj1 (wo_waiting _ _ _ _ Hok id v Hv)) as [wk Hwk]; [set_solver|]. destruct v as [wk'|]; [|done]. exists wk', id. done.
Qed.

(** At most one send future remains when one goes. *)
Lemma one_sender_delete (futs : futures) f :
  (∀ f1 f2, is_Some (futs !! f1) → is_Some (futs !! f2) → f1 = f2) →
  (∀ f1 f2, is_Some (delete f futs !! f1) → is_Some (delete f futs !! f2) → f1 = f2).
Proof. intros Hone f1 f2 [? [_ H1]%lookup_delete_Some] [? [_ H2]%lookup_delete_Some]. apply Hone; by eexists. Qed.

Lemma alive_delete (futs : futures) f (b : bool) : (futs ≠ ∅ → b = true) → delete f futs ≠ ∅ → b = true.
Proof. intros H Hd. apply H. intros ->. by rewrite delete_empty in Hd. Qed.

Lemma kept_delete futs m f ws : kept (Some f) futs m (delete f futs) m ws.
Proof. intros h wk Hne (j & Hj & Hm). left. exists j. rewrite lookup_delete_ne; [done|congruence]. Qed.

Lemma spmc_send_poll_ok f cx x g :
  sys_ok x g → enabled (SendPoll f cx) x = true →
  wp (exec (SendPoll f cx)) x (λ o x', ∃ g', effect (SendPoll f cx) x g o x' g' ∧
    (is_Some (sends x' !! f) → receivers (st x) ≠ 0 ∧ parked f cx (sends x') (sm g'))).
Proof.
  intros Hx [[[v Hv] [i Hi]] Hroom]%enabled_and. pose proof Hx as [Hrv Hsd Hone Hal Hrn Hz Hc]. unfold exec. wp_auto.
  eapply wp_expect; [done|]. wp_auto. eapply wp_expect; [done|]. wp_auto. unfold send_poll. wp_auto.
  assert (sender_alive (st x) = true) as Ha by (apply Hal; intros E; by rewrite E in Hi).
  case_bool_decide as Hr0; wp_auto; simpl.
  { exists g. split; [|intros H; rewrite lookup_delete_eq in H; by destruct H].
    split; simpl; [|by rewrite app_nil_r|intros _; apply kept_refl|done]. split; simpl; eauto using send_side_drop, one_sender_delete, alive_delete. }
  destruct (has_capacity (st x)) eqn:Ec; wp_auto.
  - wp_apply spmc_push_spec; [done..|]. intros r s' (q' & m' & Hrv' & Hsd' & (Ecap & Eal & Erc) & Evs & Hk & _). wp_auto.
    assert (∀ s2 q2 m2, recv_side (recvs x) 0 s2 q' m' → send_side (delete f (sends x)) s2 q2 m2 → same_handles s' s2 → values s2 = values s' →
      (∀ ws, kept (Some f) (sends x) (sm g) (delete f (sends x)) m2 ws) →
      ∃ g', effect (SendPoll f cx) x g (mkObs [v] [] [] (option_list r)) (mkSys s2 (delete f (sends x)) (delete f (sending x)) (recvs x)) g' ∧
        (is_Some (delete f (sends x) !! f) → receivers (st x) ≠ 0 ∧ parked f cx (delete f (sends x)) (sm g'))) as Hfin.
    { intros s2 q2 m2 H1 H2 (E1 & E2 & E3) E4 H3. exists (mkGhost q' m' q2 m2). split; [|intros H; rewrite lookup_delete_eq in H; by destruct H].
      split; simpl; [|by rewrite E4, Evs|intros _; apply Hk|intros _; apply H3].
      split; simpl; [done|done| | | | |]; rewrite ?E1, ?E2, ?E3, ?E4, ?Ecap, ?Eal, ?Erc; eauto using one_sender_delete, alive_delete. done. }
    destruct i as [id|]; wp_auto.
    + wp_apply spmc_leave_send; [done|by rewrite Erc|done|]. intros u w (q2 & m2 & Hsd2 & Hk2). wp_auto. simpl.
      apply (Hfin (set_send_waiters w s') q2 m2); done.
    + apply (Hfin s' (sq g) (sm g)); try done; [apply send_side_drop; auto|intros ws; apply kept_delete].
  - destruct Hsd as (Hsrep & Hsz & Hs). destruct (Hs Hr0) as (Hok & Hl & Hfull). wp_apply spmc_register_spec; [done..|].
    intros i' w (q' & m' & [Hrep' Hok'] & Hk & Hp & _ & Hle & Hnp). wp_auto. exists (mkGhost (rq g) (rm g) q' m'). split; [|done].
    split; simpl; [|by rewrite app_nil_r|intros _; apply kept_refl|intros _; apply Hk]. split; simpl; try done.
    + split_and!; [done|done|]. intros _. split_and!; [done| |done].
      destruct Hnp as [Hnp| ->]; [|done]. rewrite (one_sender x g f Hx Hr0 ltac:(by eexists) Hnp) in Hle. done.
    + intros f1 f2 H1 H2. assert (∀ f', is_Some (<[f:=i']> (sends x) !! f') → f' = f) as Hf.
      { intros f' H. destruct (decide (f' = f)) as [|Hne]; [done|]. rewrite lookup_insert_ne in H by done. apply Hone; [done|by eexists]. }
      by rewrite (Hf f1 H1), (Hf f2 H2).
Qed.

Lemma spmc_send_drop_ok f x g :
  sys_ok x g → enabled (SendDrop f) x = true →
  wp (exec (SendDrop f)) x (λ o x', ∃ g', effect (SendDrop f) x g o x' g').
Proof.
  intros Hx [i Hi]%bool_decide_eq_true. pose proof Hx as [Hrv Hsd Hone Hal Hrn Hz Hc]. unfold exec. wp_auto.
  eapply wp_expect; [done|]. wp_auto. unfold send_drop.
  assert (i = None ∨ receivers (st x) = 0 →
    ∃ g', effect (SendDrop f) x g silent (mkSys (st x) (delete f (sends x)) (delete f (sending x)) (recvs x)) g') as Hfin.
  { intros Hi'. exists g. split; simpl; [|by rewrite app_nil_r|intros _; apply kept_refl|intros _; apply kept_delete].
    split; simpl; eauto using one_sender_delete, alive_delete. apply send_side_drop; [done|]. destruct Hi' as [-> |?]; auto. }
  destruct i as [id|]; wp_auto; [|by auto]. case_bool_decide as Hr0; wp_auto; [by auto|].
  wp_apply spmc_leave_send; [done..|]. intros u w (q2 & m2 & Hsd2 & Hk2). wp_auto. simpl. exists (mkGhost (rq g) (rm g) q2 m2).
  split; simpl; [|by rewrite app_nil_r|intros _; apply kept_refl|intros _; apply Hk2].
  split; simpl; eauto using one_sender_delete, alive_delete.
Qed.

Lemma spmc_try_send_ok v x g :
  sys_ok x g → enabled (TrySend v) x = true → wp (exec (TrySend v)) x (λ o x', ∃ g', effect (TrySend v) x g o x' g').
Proof.
  intros Hx [Ha Hno]%bool_decide_eq_true. pose proof Hx as [Hrv Hsd Hone Hal Hrn Hz Hc]. unfold exec, try_send. wp_auto.
  assert (∃ g', effect (TrySend v) x g silent (set_st (st x) x) g') as Hfin.
  { exists g. split; simpl; [|by rewrite app_nil_r|intros _; apply kept_refl..]. by split. }
  case_bool_decide as Hr0; wp_auto; [done|]. destruct (has_capacity (st x)) eqn:Ec; simpl; wp_auto; [|done].
  wp_apply spmc_push_spec; [done..|]. intros r s' (q' & m' & Hrv' & Hsd' & (Ecap & Eal & Erc) & Evs & Hk & _). wp_auto.
  exists (mkGhost q' m' (sq g) (sm g)). split; simpl; [|by rewrite Evs|by intros _|intros _; apply kept_refl].
  split; simpl; rewrite ?Ecap, ?Eal, ?Erc; done.
Qed.

Lemma spmc_try_recv_ok x g :
  sys_ok x g → wp (exec TryRecv) x (λ o x', ∃ g', effect TryRecv x g o x' g').
Proof.
  intros Hx. pose proof Hx as [Hrv Hsd Hone Hal Hrn Hz Hc]. unfold exec, try_recv. wp_auto.
  wp_apply spmc_pop_spec; [done..|]. intros r s' (q' & m' & Hrv' & Hsd' & (Ecap & Eal & Erc) & Hr). wp_auto.
  destruct r as [[v wk]|e]; wp_auto; simpl.
  - destruct Hr as [Evs Hk]. exists (mkGhost (rq g) (rm g) q' m'). split; simpl; [|by rewrite Evs, app_nil_r|intros _; apply kept_refl|done].
    split; simpl; rewrite ?Ecap, ?Eal, ?Erc; try done; [by apply (recv_side_weaken _ 1)|]. intros H. apply Hz in H. congruence.
  - destruct Hr as (Evs & -> & -> & -> & _). exists g. split; simpl; [|by rewrite app_nil_r|intros _; apply kept_refl..]. by split.
Qed.

(** A notified receiver stands for at least one unit of the account. *)
Lemma notified_range id m : 0 <= notified id m <= 1.
Proof. unfold notified. destruct (id ≫= _) as [[]|]; lia. Qed.

Lemma spmc_recv_poll_ok f cx x g :
  sys_ok x g → enabled (RecvPoll f cx) x = true →
  wp (exec (RecvPoll f cx)) x (λ o x', ∃ g', effect (RecvPoll f cx) x g o x' g' ∧
    (is_Some (recvs x' !! f) → sender_alive (st x) = true ∧ parked f cx (recvs x') (rm g'))).
Proof.
  intros Hx [[i Hi] Hroom]%enabled_and. pose proof Hx as [Hrv Hsd Hone Hal Hrn Hz Hc]. unfold exec. wp_auto.
  eapply wp_expect; [done|]. wp_auto. unfold recv_poll. wp_auto.
  wp_apply spmc_pop_spec; [done..|]. intros r s' (q' & m' & Hrv' & Hsd' & (Ecap & Eal & Erc) & Hr). wp_auto.
  assert (∀ s2 o q2 m2 (vs : list T), recv_side (delete f (recvs x)) 0 s2 q2 m2 → send_side (sends x) s2 q' m' → same_handles s' s2 → values s2 = values s' →
    (∀ ws, sender_alive (st x) = true → kept (Some f) (recvs x) (rm g) (delete f (recvs x)) m2 ws) →
    (receivers (st x) ≠ 0 → kept None (sends x) (sm g) (sends x) m' (option_list o)) → values (st x) = vs ++ values s' →
    ∃ g', effect (RecvPoll f cx) x g (mkObs [] vs [] (option_list o)) (mkSys s2 (sends x) (sending x) (delete f (recvs x))) g' ∧
      (is_Some (delete f (recvs x) !! f) → sender_alive (st x) = true ∧ parked f cx (delete f (recvs x)) (rm g'))) as Hfin.
  { intros s2 o q2 m2 vs H1 H2 (E1 & E2 & E3) E4 H3 H4 Evs. exists (mkGhost q2 m2 q' m'). split; [|intros H; rewrite lookup_delete_eq in H; by destruct H].
    split; simpl; [|by rewrite E4, app_nil_r|auto|done]. split; simpl; rewrite ?E1, ?E2, ?E3, ?E4, ?Ecap, ?Eal, ?Erc; try done.
    intros H. apply Hz in H. rewrite H in Evs. symmetry in Evs. by apply app_nil in Evs as [_ ?]. }
  destruct r as [[v wk]|e].
  - destruct Hr as [Evs Hk]. assert (∀ ws, kept (Some f) (recvs x) (rm g) (delete f (recvs x)) (rm g) ws) as Hkd by (intros; apply kept_delete).
    destruct (sender_alive (st x)) eqn:Ea; [destruct i as [id|]|]; wp_auto; simpl.
    + wp_apply spmc_leave_recv; [exact Hrv'|by rewrite Eal|done|apply notified_range|]. intros u w (q2 & m2 & Hrv2 & Hk2). wp_auto. simpl.
      apply (Hfin (set_recv_waiters w s') wk q2 m2 [v]); auto; done.
    + apply (Hfin s' wk (rq g) (rm g) [v]); auto; [|done]. apply recv_side_drop; [by apply (recv_side_weaken _ 1)|by left].
    + apply (Hfin s' wk (rq g) (rm g) [v]); auto; [|done]. apply recv_side_drop; [by apply (recv_side_weaken _ 1)|right; congruence].
  - destruct Hr as (Evs & -> & -> & -> & ->). destruct (sender_alive (st x)) eqn:Ea; wp_auto; simpl.
    + destruct Hrv as (Hrep & Hdead & Hlive). destruct (Hlive Ea) as [Hok Hd]. wp_apply spmc_register_spec; [done..|].
      intros i' w (q2 & m2 & [Hrep2 Hok2] & Hk & Hp & _). wp_auto. simpl. exists (mkGhost q2 m2 (sq g) (sm g)). split; [|done].
      split; simpl; [|by rewrite app_nil_r|intros _; apply Hk|intros _; apply kept_refl]. split; simpl; try done.
      split_and!; [done|simpl; congruence|]. intros _. split; [done|]. intros _. unfold n_values. simpl. rewrite Evs.
      apply (detached_nonneg _ _ _ Hrep2).
    + apply (Hfin (st x) None (rq g) (rm g) []); auto using recv_side_drop, kept_refl; done.
Qed.

(** A receive future that goes hands its notification on while a value waits. *)
Lemma spmc_recv_drop_ok f x g :
  sys_ok x g → enabled (RecvDrop f) x = true →
  wp (exec (RecvDrop f)) x (λ o x', ∃ g', effect (RecvDrop f) x g o x' g').
Proof.
  intros Hx [i Hi]%bool_decide_eq_true. pose proof Hx as [Hrv Hsd Hone Hal Hrn Hz Hc]. unfold exec. wp_auto.
  eapply wp_expect; [done|]. wp_auto. unfold recv_drop.
  assert (∀ w ws q m, recv_side (delete f (recvs x)) 0 (set_recv_waiters w (st x)) q m →
    (sender_alive (st x) = true → kept (Some f) (recvs x) (rm g) (delete f (recvs x)) m ws) →
    ∃ g', effect (RecvDrop f) x g (mkObs [] [] [] ws) (mkSys (set_recv_waiters w (st x)) (sends x) (sending x) (delete f (recvs x))) g') as Hfin.
  { intros w ws q m H1 H2. exists (mkGhost q m (sq g) (sm g)). split; simpl; [|by rewrite app_nil_r|done|intros _; apply kept_refl]. by split. }
  assert (i = None ∨ sender_alive (st x) = false →
    ∃ g', effect (RecvDrop f) x g (mkObs [] [] [] []) (mkSys (st x) (sends x) (sending x) (delete f (recvs x))) g') as Hid.
  { intros Hi'. specialize (Hfin (recv_waiters (st x)) [] (rq g) (rm g)).
    assert (set_recv_waiters (recv_waiters (st x)) (st x) = st x) as E by (by destruct (st x)). rewrite E in Hfin.
    apply Hfin; [|intros _; apply kept_delete].
    apply recv_side_drop; [done|]. destruct Hi' as [-> |?]; auto. }
  destruct i as [id|]; wp_auto; [|by auto]. destruct (sender_alive (st x)) eqn:Ea; simpl; wp_auto; [|by auto].
  destruct Hrv as (Hrep & Hdead & Hlive). destruct (Hlive Ea) as [Hok Hd].
  wp_apply spmc_remove_spec; [done..|]. intros v w (q' & m' & Hv & [Hrep' Hok'] & Hk & Hdc & Hnil & _). wp_auto.
  unfold notified in Hdc. simpl in Hdc. rewrite Hv in Hdc. destruct v as [wk|]; wp_auto; simpl.
  { apply (Hfin w [] q' m'); [|auto]. split_and!; [done|simpl; congruence|]. intros _. split; [done|]. intros Hq'. rewrite Hdc.
    assert (rq g ≠ []) as Hq by (intros E; by apply Hq', Hnil). specialize (Hd Hq). unfold n_values in *. simpl. lia. }
  case_bool_decide as Ev; wp_auto; simpl.
  { apply (Hfin w [] q' m'); [|auto]. split_and!; [done|simpl; congruence|]. intros _. split; [done|]. intros _. unfold n_values. simpl. rewrite Ev.
    apply (detached_nonneg _ _ _ Hrep'). }
  wp_apply spmc_notify_spec; [by split|]. intros r w2 (q2 & m2 & [Hrep2 Hok2] & Hk2 & Hr). wp_auto. simpl.
  apply (Hfin w2 (option_list r) q2 m2).
  - split_and!; [done|simpl; congruence|]. intros _. split; [done|]. intros Hq2. unfold n_values in *. simpl.
    destruct r as [wk|]; [|by destruct Hr as (_ & -> & _)]. destruct Hr as [-> Hl]. rewrite Hdc.
    assert (rq g ≠ []) as Hq by (intros E; rewrite Hnil in Hl by done; simpl in Hl; lia). specialize (Hd Hq). lia.
  - intros _ h wk Hne Hp. destruct (Hk [] h wk Hne Hp) as [Hp'|]; [|set_solver]. by apply Hk2.
Qed.

(** Emptying a list wakes every future that waits in it. *)
Lemma spmc_drain_spec w (futs futs' : futures) q m m' :
  side w futs q m →
  wp (while_some (S (wq_len w)) notify_one) w (λ ws _, kept None futs m futs' m' ws).
Proof.
  intros [Hrep Hok]. wp_apply drain_spec; [done..| |].
  { rewrite (wq_len_spec _ _ _ Hrep). pose proof (rep_length_le _ _ _ Hrep). lia. }
  intros ws _ Hws f wk _ (id & Hf & Hm). right.
  assert (id ∈ q) as Hin by (eapply wo_waiting; [done..|by eexists]).
  assert (Some wk ∈ Some <$> ws) as (? & [= <-] & ?)%list_elem_of_fmap; [|done]. rewrite Hws. apply list_elem_of_fmap. exists id.
  unfold waker_at. by rewrite Hm.
Qed.

Lemma spmc_drop_sender_ok x g :
  sys_ok x g → enabled DropSender x = true → wp (exec DropSender) x (λ o x', ∃ g', effect DropSender x g o x' g').
Proof.
  intros Hx [Ha Hno]%bool_decide_eq_true. pose proof Hx as [Hrv Hsd Hone Hal Hrn Hz Hc]. unfold exec, drop_sender. wp_auto.
  destruct Hrv as (Hrep & Hdead & Hlive). destruct (Hlive Ha) as [Hok Hd]. apply wp_run_local.
  wp_apply (spmc_drain_spec (recv_waiters (st x)) (recvs x) (recvs x) (rq g) (rm g) ∅); [done|]. intros ws _ Hk. wp_auto. simpl.
  exists (mkGhost [] ∅ (sq g) (sm g)). split; simpl; [|by rewrite app_nil_r|done|intros _; apply kept_refl].
  split; simpl; try done. split_and!; [apply wq_new_rep|done|done].
Qed.

Lemma spmc_drop_receiver_ok x g :
  sys_ok x g → enabled DropReceiver x = true → wp (exec DropReceiver) x (λ o x', ∃ g', effect DropReceiver x g o x' g').
Proof.
  intros Hx Hr%bool_decide_eq_true. pose proof Hx as [Hrv Hsd Hone Hal Hrn Hz Hc]. unfold exec, drop_receiver. wp_auto.
  apply wp_sub_int; [lia|]. wp_auto. destruct Hsd as (Hrep & Hz' & Hs). destruct (Hs ltac:(lia)) as (Hok & Hl & Hfull).
  case_bool_decide as Hn; cbn [negb]; wp_auto.
  - apply wp_run_local. wp_apply (spmc_drain_spec (send_waiters (st x)) (sends x) (sends x) (sq g) (sm g) ∅); [done|]. intros ws _ Hk. wp_auto. simpl.
    exists (mkGhost (rq g) (rm g) [] ∅). split; simpl; [|by rewrite !app_nil_r|intros _; apply kept_refl|done].
    split; simpl; try done; [| |lia].
    + destruct Hrv as (Hrep' & Hdead & Hlive). split_and!; [done|done|]. intros Ha. destruct (Hlive Ha) as [? Hd]. split; [done|].
      intros _. unfold n_values. simpl. apply (detached_nonneg _ _ _ Hrep').
    + split_and!; [apply wq_new_rep|done|]. simpl. lia.
  - exists g. split; simpl; [|by rewrite app_nil_r|intros _; apply kept_refl..].
    split; simpl; try done; lia.
Qed.

Lemma spmc_handles_ok l x g :
  match l with SendNew _ _ | RecvNew _ | CloneReceiver => True | _ => False end →
  sys_ok x g → enabled l x = true → wp (exec l) x (λ o x', ∃ g', effect l x g o x' g').
Proof.
  intros Hl Hx He. pose proof Hx as [Hrv Hsd Hone Hal Hrn Hz Hc]. destruct l; try done; unfold exec; wp_auto; simpl in He.
  - apply bool_decide_eq_true in He as [Ha Hno]. exists g. rewrite Hno. split; simpl; [|by rewrite app_nil_r|intros _; apply kept_refl|].
    2: { intros _ h wk _ (id & Hid & _). by rewrite Hno, lookup_empty in Hid. }
    split; simpl; try done.
    + destruct Hsd as (Hrep & Hz' & Hs). split_and!; [done|done|]. intros Hr. destruct (Hs Hr) as (Hok & ? & ?). split_and!; [|done|done].
      rewrite Hno in Hok. by apply waiters_ok_new.
    + intros f1 f2 [? H1] [? H2]. apply lookup_insert_Some in H1, H2. rewrite !lookup_empty in *. naive_solver.
  - apply bool_decide_eq_true in He as [Hr Hf]. exists g. split; simpl; [|by rewrite app_nil_r| |intros _; apply kept_refl].
    2: { intros _ h wk _ (id & Hid & Hm). left. exists id. rewrite lookup_insert_ne; [done|congruence]. }
    split; simpl; try done. destruct Hrv as (Hrep & Hdead & Hlive). split_and!; [done|done|]. intros Ha. destruct (Hlive Ha). split; [|done].
    by apply waiters_ok_new.
  - apply bool_decide_eq_true in He. unfold clone_receiver. wp_auto. apply wp_add_int; [unfold isize_max, usize_max in *; lia|]. wp_auto. exists g.
    split; simpl; [|by rewrite app_nil_r|intros _; apply kept_refl..]. split; simpl; try done; [|lia|intros ?; exfalso; lia].
    destruct Hsd as (Hrep & Hz' & Hs). split_and!; [done|simpl; lia|]. intros _. apply Hs. lia.
Qed.

Lemma spmc_exec_ok l x g :
  sys_ok x g → enabled l x = true → wp (exec l) x (λ o x', ∃ g', effect l x g o x' g').
Proof.
  intros Hx He. destruct l; auto using spmc_try_send_ok, spmc_send_drop_ok, spmc_try_recv_ok, spmc_recv_drop_ok, spmc_drop_sender_ok,
    spmc_drop_receiver_ok, spmc_handles_ok.
  - eapply wp_mono; [by apply spmc_send_poll_ok|]. naive_solver.
  - eapply wp_mono; [by apply spmc_recv_poll_ok|]. naive_solver.
Qed.

Lemma spmc_init_ok : sys_ok (init cap) (mkGhost [] ∅ [] ∅).
Proof.
  split; simpl; try done.
  - split_and!; [apply wq_new_rep|done|]. intros _. split; [apply waiters_ok_empty|done].
  - split_and!; [apply wq_new_rep|done|]. intros _. split_and!; [apply waiters_ok_empty|simpl; lia|done].
  - intros f f' [? H]. by rewrite lookup_empty in H.
Qed.

Lemma spmc_run_ok ls x tr x' : (∃ g, sys_ok x g) → returns (run enabled exec ls) x tr x' → ∃ g, sys_ok x' g.
Proof.
  apply (run_invariant enabled exec (λ x, ∃ g, sys_ok x g)).
  intros y l [g Hg] He. eapply wp_mono; [by apply spmc_exec_ok|]. intros o y' (g' & He'). exists g'. apply He'.
Qed.

Lemma spmc_reachable_ok ls tr x : returns (run enabled exec ls) (init cap) tr x → ∃ g, sys_ok x g.
Proof. apply spmc_run_ok. eexists. apply spmc_init_ok. Qed.
End invariant.

(** ** Properties *)
Section properties.
Context {W : Type → Type} `{!WaitQueue W} {T : Type} (cap : option Z).
Implicit Types (x : Sys W T) (l : Label T) (f : nat).

(** The queue is first in, first out over every run: the values accepted, in order, are the values
    received or discarded with the last receiver, in order, followed by the buffer. *)
Theorem spmc_fifo ls tr x :
  returns (run enabled exec ls) (init cap) tr x →
  concat (accepted <$> tr.*2) = concat ((λ o, delivered o ++ discarded o) <$> tr.*2) ++ values (st x).
Proof.
  intros Hr. cut ((∃ g, sys_ok cap x g) ∧
    concat (accepted <$> tr.*2) = concat ((λ o, delivered o ++ discarded o) <$> tr.*2) ++ values (st x)); [by intros [_ ?]|].
  change tr with ([] ++ tr). eapply (run_trace_invariant enabled exec (λ tr x, (∃ g, sys_ok cap x g) ∧
    concat (accepted <$> tr.*2) = concat ((λ o, delivered o ++ discarded o) <$> tr.*2) ++ values (st x)));
    [|split; [eexists; apply spmc_init_ok|done]|done].
  intros tr' s l [[g Hg] Heq] He. eapply wp_mono; [by apply (spmc_exec_ok cap l)|]. intros o s' (g' & [Hok Hord _ _]).
  split; [by eexists|]. rewrite !fmap_app, !concat_app, Heq. simpl. rewrite !app_nil_r, <-!app_assoc, Hord. done.
Qed.

(** An unbounded queue never refuses a value for lack of room: its synchronous send returns, with the
    value given back exactly when no receiver is left. *)
Theorem spmc_unbounded_send ls tr x v :
  cap = None → returns (run enabled exec ls) (init cap) tr x → enabled (TrySend v) x = true →
  ∃ r ws s', returns (unbounded_send v) (st x) (r, ws) s' ∧
    if bool_decide (receivers (st x) = 0) then r = Err v ∧ s' = st x else r = Ok tt ∧ values s' = values (st x) ++ [v].
Proof.
  intros Hcap [g Hg]%(spmc_reachable_ok cap) [Ha _]%bool_decide_eq_true. pose proof Hg as [Hrv Hsd _ _ _ _ Hc].
  cut (wp (unbounded_send v) (st x) (λ r s', if bool_decide (receivers (st x) = 0) then r.1 = Err v ∧ s' = st x
    else r.1 = Ok tt ∧ values s' = values (st x) ++ [v])); [intros ([r ws] & s' & Hret & H)%wp_returns; by exists r, ws, s'|].
  unfold unbounded_send, try_send. wp_auto. assert (has_capacity (st x) = true) as Hroom by (unfold has_capacity; by rewrite Hc, Hcap).
  case_bool_decide as Hr; [by wp_auto|]. rewrite Hroom. simpl. wp_auto.
  wp_apply spmc_push_spec; [done..|]. intros r s' (q' & m' & _ & _ & _ & Evs & _). wp_auto. done.
Qed.

(** The promise of a future that waits, kept by every operation that is not its own. *)
Definition recv_waits f cx x : Prop := ∃ g, sys_ok cap x g ∧ sender_alive (st x) = true ∧ parked f cx (recvs x) (rm g).
Definition send_waits f cx x : Prop := ∃ g, sys_ok cap x g ∧ receivers (st x) ≠ 0 ∧ parked f cx (sends x) (sm g).

Lemma spmc_exec_waits l x f cx :
  (∃ g, sys_ok cap x g) → enabled l x = true →
  wp (exec l) x (λ o x', (∃ g, sys_ok cap x' g) ∧
    (about_recv l ≠ Some f → recv_waits f cx x → recv_waits f cx x' ∨ cx ∈ woken o) ∧
    (about_send l ≠ Some f → send_waits f cx x → send_waits f cx x' ∨ cx ∈ woken o)).
Proof.
  intros [g0 Hg0] He. destruct (proj1 (wp_returns _ _ _) (spmc_exec_ok cap l x g0 Hg0 He)) as (o & x' & Hx & g0' & He0).
  apply wp_returns. exists o, x'. split; [done|]. split; [exists g0'; apply He0|]. split.
  - intros Hne (g & Hg & Ha & Hp). destruct (wp_returns_elim _ _ _ _ _ (spmc_exec_ok cap l x g Hg He) Hx) as (g' & Hef).
    destruct (ef_recv _ _ _ _ _ _ _ Hef Ha f cx Hne Hp) as [Hp'|]; [left|by right]. exists g'. split_and!; [apply Hef| |done].
    destruct (ef_ok _ _ _ _ _ _ _ Hef) as [(_ & Hdead & _) _ _ _ _ _ _]. destruct (sender_alive (st x')); [done|].
    destruct Hp' as (id & _ & Hm). by rewrite Hdead in Hm.
  - intros Hne (g & Hg & Ha & Hp). destruct (wp_returns_elim _ _ _ _ _ (spmc_exec_ok cap l x g Hg He) Hx) as (g' & Hef).
    destruct (ef_send _ _ _ _ _ _ _ Hef Ha f cx Hne Hp) as [Hp'|]; [left|by right]. exists g'. split_and!; [apply Hef| |done].
    destruct (ef_ok _ _ _ _ _ _ _ Hef) as [_ (_ & Hdead & _) _ _ _ _ _]. intros E.
    destruct Hp' as (id & _ & Hm). by rewrite Hdead in Hm.
Qed.

(** C32: a pending receive is never forgotten: after the poll that left it pending, whatever the other
    operations do, its task has been woken, or the sender lives, the receive is still queued with the
    waker of that poll, and every buffered value has a woken receiver of its own on the way.  No
    operation panics. *)
Theorem spmc_receive_not_forgotten ls tr x f cx o x1 ls' tr' x2 :
  returns (run enabled exec ls) (init cap) tr x → enabled (RecvPoll f cx) x = true →
  returns (exec (RecvPoll f cx)) x o x1 → is_Some (recvs x1 !! f) →
  Forall (λ l, bool_decide (about_recv l ≠ Some f) = true) ls' → returns (run enabled exec ls') x1 tr' x2 →
  no_panic enabled exec x2 ∧
  (Exists (λ e, cx ∈ woken e.2) tr' ∨
  (sender_alive (st x2) = true ∧ ∃ q m, wq_rep (recv_waiters (st x2)) q m ∧ waiters_ok waiting_waker (recvs x2) q m ∧
    parked f cx (recvs x2) m ∧ n_values (st x2) <= detached_count q m)).
Proof.
  intros [g Hg]%(spmc_reachable_ok cap) He Hx Hp Hls Hr.
  destruct (wp_returns_elim _ _ _ _ _ (spmc_recv_poll_ok cap f cx x g Hg He) Hx) as (g1 & Hef & [Ha Hpk]%(λ H, H Hp)).
  destruct (spmc_run_ok cap ls' x1 tr' x2) as [g' Hg']; [by exists g1; apply Hef|done|].
  split; [apply (no_panic_wp _ _ _ _ (λ l, spmc_exec_ok cap l x2 g' Hg'))|]. assert (recv_waits f cx x1) as HR.
  { exists g1. split_and!; [apply Hef| |done]. destruct (ef_ok _ _ _ _ _ _ _ Hef) as [(_ & Hdead & _) _ _ _ _ _ _].
    destruct (sender_alive (st x1)); [done|]. destruct Hpk as (id & _ & Hm). by rewrite Hdead in Hm. }
  edestruct (run_promise enabled exec (λ x, ∃ g, sys_ok cap x g) (recv_waits f cx) (λ o, cx ∈ woken o)
    (λ l, bool_decide (about_recv l ≠ Some f))) as [(g2 & Hg2 & Ha2 & Hp2)|?]; [|exists g1; apply Hef|done|done|done|right|by left].
  - intros y l Hy Hl Hab%bool_decide_eq_true. eapply wp_mono; [by apply (spmc_exec_waits l y f cx)|]. naive_solver.
  - split; [done|]. destruct (sy_recv _ _ _ Hg2) as (Hrep & _ & Hlive). destruct (Hlive Ha2) as [Hok Hd].
    exists (rq g2), (rm g2). split_and!; try done. destruct Hp2 as (id & Hf & Hm).
    assert (id ∈ rq g2) as Hin by (eapply wo_waiting; [done..|by eexists]). assert (rq g2 ≠ []) as Hq by (intros E; rewrite E in Hin; set_solver).
    specialize (Hd Hq). lia.
Qed.

(** A pending send is never forgotten either: its task has been woken, or a receiver lives and
    the queue is still full. *)
Theorem spmc_send_not_forgotten ls tr x f cx o x1 ls' tr' x2 :
  returns (run enabled exec ls) (init cap) tr x → enabled (SendPoll f cx) x = true →
  returns (exec (SendPoll f cx)) x o x1 → is_Some (sends x1 !! f) →
  Forall (λ l, bool_decide (about_send l ≠ Some f) = true) ls' → returns (run enabled exec ls') x1 tr' x2 →
  Exists (λ e, cx ∈ woken e.2) tr' ∨ (receivers (st x2) ≠ 0 ∧ has_capacity (st x2) = false).
Proof.
  intros [g Hg]%(spmc_reachable_ok cap) He Hx Hp Hls Hr.
  destruct (wp_returns_elim _ _ _ _ _ (spmc_send_poll_ok cap f cx x g Hg He) Hx) as (g1 & Hef & [Ha Hpk]%(λ H, H Hp)).
  assert (send_waits f cx x1) as HR.
  { exists g1. split_and!; [apply Hef| |done]. destruct (ef_ok _ _ _ _ _ _ _ Hef) as [_ (_ & Hdead & _) _ _ _ _ _].
    intros E. destruct Hpk as (id & _ & Hm). by rewrite Hdead in Hm. }
  edestruct (run_promise enabled exec (λ x, ∃ g, sys_ok cap x g) (send_waits f cx) (λ o, cx ∈ woken o)
    (λ l, bool_decide (about_send l ≠ Some f))) as [(g2 & Hg2 & Ha2 & Hp2)|?]; [|exists g1; apply Hef|done|done|done|right|by left].
  - intros y l Hy Hl Hab%bool_decide_eq_true. eapply wp_mono; [by apply (spmc_exec_waits l y f cx)|]. naive_solver.
  - split; [done|]. destruct (sy_send _ _ _ Hg2) as (Hrep & _ & Hlive). destruct (Hlive Ha2) as (Hok & _ & Hd). apply Hd.
    destruct Hp2 as (id & Hf & Hm). assert (id ∈ sq g2) as Hin by (eapply wo_waiting; [done..|by eexists]). intros E. rewrite E in Hin. set_solver.
Qed.
End properties.

(** A queue of one slot: a second send waits until the first value is taken; a receiver then waits for a third. *)
Definition first_run : list (Label nat) := [TrySend 7%nat; SendNew 0 8%nat].
Definition second_run : list (Label nat) := [SendPoll 0 101%nat; TryRecv; SendPoll 0 102%nat; TryRecv; RecvNew 1].

Lemma spmc_fifo_witness :
  ∃ tr (x : Sys WaitList nat), returns (run enabled exec (first_run ++ second_run)) (init (Some 1)) tr x ∧
    concat (accepted <$> tr.*2) = [7; 8]%nat ∧
    concat (accepted <$> tr.*2) = concat ((λ o, delivered o ++ discarded o) <$> tr.*2) ++ values (st x).
Proof.
  eexists _, _. split; [vm_compute; reflexivity|]. split; [reflexivity|].
  eapply (spmc_fifo (Some 1) (first_run ++ second_run)). vm_compute. reflexivity.
Defined.

Lemma spmc_send_not_forgotten_witness :
  ∃ tr (x : Sys WaitList nat) o x1 tr' x2,
    returns (run enabled exec first_run) (init (Some 1)) tr x ∧ returns (exec (SendPoll 0 101%nat)) x o x1 ∧
    returns (run enabled exec [TryRecv]) x1 tr' x2 ∧
    (Exists (λ e, 101%nat ∈ woken e.2) tr' ∨ (receivers (st x2) ≠ 0 ∧ has_capacity (st x2) = false)).
Proof.
  eexists _, _, _, _, _, _. split; [vm_compute; reflexivity|]. split; [vm_compute; reflexivity|]. split; [vm_compute; reflexivity|].
  eapply (spmc_send_not_forgotten (Some 1) first_run _ _ 0 101%nat _ _ [TryRecv]);
    [vm_compute; reflexivity|vm_compute; reflexivity|vm_compute; reflexivity|by eexists|by repeat constructor|vm_compute; reflexivity].
Defined.

Lemma spmc_receive_not_forgotten_witness :
  ∃ tr (x : Sys WaitList nat) o x1 tr' x2,
    returns (run enabled exec (first_run ++ second_run)) (init (Some 1)) tr x ∧ returns (exec (RecvPoll 1 201%nat)) x o x1 ∧
    returns (run enabled exec [DropSender]) x1 tr' x2 ∧
    (Exists (λ e, 201%nat ∈ woken e.2) tr' ∨
     (sender_alive (st x2) = true ∧ ∃ q m, wq_rep (recv_waiters (st x2)) q m ∧ waiters_ok waiting_waker (recvs x2) q m ∧
       parked 1 201%nat (recvs x2) m ∧ n_values (st x2) <= detached_count q m)).
Proof.
  eexists _, _, _, _, _, _. split; [vm_compute; reflexivity|]. split; [vm_compute; reflexivity|]. split; [vm_compute; reflexivity|].
  eapply (spmc_receive_not_forgotten (Some 1) (first_run ++ second_run) _ _ 1 201%nat _ _ [DropSender]);
    [vm_compute; reflexivity|vm_compute; reflexivity|vm_compute; reflexivity|by eexists|by repeat constructor|vm_compute; reflexivity].
Defined.

Lemma spmc_unbounded_send_witness :
  ∃ tr (x : Sys WaitList nat), returns (run enabled exec [TrySend 7%nat; RecvNew 0]) (init None) tr x ∧
    ∃ r ws s', returns (unbounded_send 8%nat) (st x) (r, ws) s' ∧
      if bool_decide (receivers (st x) = 0) then r = Err 8%nat ∧ s' = st x else r = Ok tt ∧ values s' = values (st x) ++ [8%nat].
Proof.
  eexists _, _. split; [vm_compute; reflexivity|].
  eapply (spmc_unbounded_send None [TrySend 7%nat; RecvNew 0]); [done|vm_compute; reflexivity|vm_compute; reflexivity].
Defined.
