(* ===== verification/MpscUnbounded.v ===== *)
(** * The unbounded multi-producer single-consumer channel

    [asyncband/src/mpsc/unbounded/]: senders push into a segmented buffer under the shared lock
    ([buffer.rs]), the receiver moves whole segments into a batch of its own and takes values from
    there ([receiver.rs]).  The sizes of the layout are parameters: [size] is [size_of::<T>()],
    [header] the size of a deque, and [grow] the capacity a deque chooses when it is pushed to. *)
From S2P Require Import Prelude.

(** ** Segment sizes *)
Definition SEGMENT_BYTES : Z := 32 * 1024.
Definition RETAINED_DIRECTORY_BYTES : Z := 1024.

(** [usize::leading_zeros] on 64 bits. *)
Fixpoint leading_zeros_below (bits : nat) (n : Z) : Z :=
  match bits with
  | O => 0
  | S bits => if Z.testbit n (Z.of_nat bits) then 0 else 1 + leading_zeros_below bits n
  end.
Definition leading_zeros (n : Z) : Z := leading_zeros_below 64 n.

Definition SEGMENT_CAPACITY (size : Z) : Z :=
  if bool_decide (size = 0) then usize_max
  else if bool_decide (SEGMENT_BYTES < size) then 1
  else
    let limit := SEGMENT_BYTES / size in
    Z.shiftl 1 (64 - 1 - leading_zeros limit).

Definition RETAINED_DIRECTORY_SLOTS (header : Z) : Z := RETAINED_DIRECTORY_BYTES / header.

Record Buffer (T : Type) : Type := mkBuffer {
  writable : list T;
  sealed : list (list T);
  sealed_capacity : Z;
}.
Arguments mkBuffer {T}.
Arguments writable {T}.
Arguments sealed {T}.
Arguments sealed_capacity {T}.

Record State (T : Type) : Type := mkState {
  buffer : Buffer T;
  senders : Z;
  receiver : bool;
  recv_waker : option Waker;
}.
Arguments mkState {T}.
Arguments buffer {T}.
Arguments senders {T}.
Arguments receiver {T}.
Arguments recv_waker {T}.

(** The shared state and the batch of the receiver. *)
Record Sys (T : Type) : Type := mkSys {
  st : State T;
  batch : list T;
}.
Arguments mkSys {T}.
Arguments st {T}.
Arguments batch {T}.

Inductive TryRecvError : Type := Empty | Disconnected.
Inductive RecvError : Type := RecvDisconnected.

Section channel.
Context {T : Type} (size header : Z) (grow : Z → Z → Z).
Implicit Types (b : Buffer T) (s : State T) (x : Sys T) (v : T).

Definition buffer_new : Buffer T := mkBuffer [] [] 0.

Definition buffer_is_empty b : bool := bool_decide (writable b = []) && bool_decide (sealed b = []).

Definition buffer_push v b : Buffer T :=
  let b :=
    if bool_decide (Z.of_nat (length (writable b)) = SEGMENT_CAPACITY size)
    then mkBuffer [] (sealed b ++ [writable b]) (grow (sealed_capacity b) (Z.of_nat (length (sealed b))))
    else b in
  mkBuffer (writable b ++ [v]) (sealed b) (sealed_capacity b).

(** [Buffer::refill]: the retired allocations, with the values they hold. *)
Definition refill : M (Buffer T * list T) (option (list T * list (list T))) :=
  '(b, batch) ← get;
  assert_true (bool_decide (batch = [])) "assertion failed: batch.is_empty()";;
  match sealed b with
  | segment :: rest =>
      if bool_decide (rest = []) && bool_decide (RETAINED_DIRECTORY_SLOTS header < sealed_capacity b)
      then put (mkBuffer (writable b) [] 0, segment);; mret (Some (batch, rest))
      else put (mkBuffer (writable b) rest (sealed_capacity b), segment);; mret (Some (batch, []))
  | [] =>
      if bool_decide (writable b = []) then mret None
      else put (mkBuffer batch (sealed b) (sealed_capacity b), writable b);; mret None
  end.

Definition pop_batch : M (list T) T :=
  batch ← get;
  if bool_decide (SEGMENT_BYTES < size) then
    assert_true (bool_decide (length batch = 1%nat)) "assertion failed: batch.len() == 1";;
    put [];;
    expect (head batch) "receiver batch must not be empty"
  else
    put (tail batch);;
    expect (head batch) "receiver batch must not be empty".

(** ** The endpoints *)
Definition set_buffer b s : State T := mkState b (senders s) (receiver s) (recv_waker s).
Definition set_senders n s : State T := mkState (buffer s) n (receiver s) (recv_waker s).
Definition set_recv_waker w s : State T := mkState (buffer s) (senders s) (receiver s) w.
Definition set_batch l x : Sys T := mkSys (st x) l.
Definition set_st s x : Sys T := mkSys s (batch x).
Definition on_st {A : Type} (m : M (State T) A) : M (Sys T) A := zoom st set_st m.
Definition on_batch {A : Type} (m : M (list T) A) : M (Sys T) A := zoom batch set_batch m.
Definition on_refill {A : Type} (m : M (Buffer T * list T) A) : M (Sys T) A :=
  zoom (λ x, (buffer (st x), batch x)) (λ p x, mkSys (set_buffer p.1 (st x)) p.2) m.

Definition unbounded : Sys T := mkSys (mkState buffer_new 1 true None) [].

Definition clone_sender : M (State T) unit :=
  s ← get; n ← add_int usize_max (senders s) 1; put (set_senders n s).

Definition drop_sender : M (State T) (list Waker) :=
  s ← get;
  n ← sub_int (senders s) 1;
  put (set_senders n s);;
  if bool_decide (n = 0) then put (set_recv_waker None (set_senders n s));; mret (option_list (recv_waker s))
  else mret [].

Definition send v : M (State T) (result unit T * list Waker) :=
  s ← get;
  if negb (receiver s) then mret (Err v, [])
  else
    put (set_recv_waker None (set_buffer (buffer_push v (buffer s)) s));;
    mret (Ok tt, option_list (recv_waker s)).

Definition sender_is_disconnected s : bool := negb (receiver s).
Definition receiver_is_disconnected s : bool := bool_decide (senders s = 0).
Definition is_empty x : bool := bool_decide (batch x = []) && buffer_is_empty (buffer (st x)).

Definition try_recv : M (Sys T) (result T TryRecvError) :=
  x ← get;
  if bool_decide (batch x = []) then
    on_refill refill;;
    x ← get;
    if bool_decide (batch x = []) then
      mret (Err (if bool_decide (senders (st x) = 0) then Disconnected else Empty))
    else v ← on_batch pop_batch; mret (Ok v)
  else v ← on_batch pop_batch; mret (Ok v).

Definition poll_recv (cx : Waker) : M (Sys T) (Poll (result T RecvError)) :=
  x ← get;
  if negb (bool_decide (batch x = [])) then v ← on_batch pop_batch; mret (Ready (Ok v))
  else
    on_refill refill;;
    x ← get;
    if negb (bool_decide (batch x = [])) then v ← on_batch pop_batch; mret (Ready (Ok v))
    else if bool_decide (senders (st x) = 0) then
      on_st (modify (set_recv_waker None));; mret (Ready (Err RecvDisconnected))
    else
      on_st (modify (λ s, set_recv_waker (register_waker (recv_waker s) cx).1 s));;
      mret Pending.

(** [UnboundedReceiver::drop]: the values dropped, those of the batch first. *)
Definition receiver_drop : M (Sys T) (list T) :=
  x ← get;
  let b := buffer (st x) in
  put (mkSys (mkState buffer_new (senders (st x)) false None) []);;
  mret (batch x ++ writable b ++ concat (sealed b)).
End channel.

#[export] Hint Unfold on_st on_batch on_refill : band_zoom.

(** ** Arithmetic of the segments *)
Lemma leading_zeros_below_log2 bits n :
  0 < n < 2 ^ Z.of_nat bits → leading_zeros_below bits n = Z.of_nat bits - 1 - Z.log2 n.
Proof.
  induction bits as [|bits IH]; intros Hn; [simpl in Hn; lia|]. simpl leading_zeros_below.
  assert (Z.log2 n < Z.of_nat (S bits)) as Hlog by (apply Z.log2_lt_pow2; lia).
  destruct (Z.testbit n (Z.of_nat bits)) eqn:Et.
  - assert (Z.of_nat bits <= Z.log2 n); [|lia]. apply Z.nlt_ge. intros Hlt. rewrite Z.bits_above_log2 in Et by lia. done.
  - rewrite IH; [lia|]. split; [lia|]. apply Z.log2_lt_pow2; [lia|].
    assert (Z.log2 n ≠ Z.of_nat bits); [|lia]. intros E. rewrite <-E, Z.bit_log2 in Et by lia. done.
Qed.

(** The capacity of a segment of ordinary values is the greatest power of two that keeps the segment
    within its byte budget. *)
Lemma segment_capacity_budget size :
  0 < size <= SEGMENT_BYTES →
  (∃ k, 0 <= k ∧ SEGMENT_CAPACITY size = 2 ^ k) ∧
  SEGMENT_CAPACITY size * size <= SEGMENT_BYTES < 2 * (SEGMENT_CAPACITY size * size).
Proof.
  intros Hs. unfold SEGMENT_CAPACITY. rewrite !bool_decide_eq_false_2 by lia. simpl.
  set (n := SEGMENT_BYTES / size). assert (1 <= n) as Hn by (apply Z.div_le_lower_bound; lia).
  assert (n <= SEGMENT_BYTES) as Hn' by (apply Z.div_le_upper_bound; unfold SEGMENT_BYTES in *; nia).
  unfold leading_zeros. rewrite leading_zeros_below_log2 by (unfold SEGMENT_BYTES in Hn'; simpl; lia).
  replace (64 - 1 - (Z.of_nat 64 - 1 - Z.log2 n)) with (Z.log2 n) by lia.
  rewrite Z.shiftl_1_l. pose proof (Z.log2_spec n ltac:(lia)) as [H1 H2]. rewrite Z.pow_succ_r in H2 by apply Z.log2_nonneg.
  split; [exists (Z.log2 n); split; [apply Z.log2_nonneg|done]|].
  assert (n * size <= SEGMENT_BYTES) by (unfold n; rewrite Z.mul_comm; apply Z.mul_div_le; lia).
  assert (SEGMENT_BYTES < (n + 1) * size).
  { unfold n. pose proof (Z.mod_pos_bound SEGMENT_BYTES size ltac:(lia)). pose proof (Z.div_mod SEGMENT_BYTES size ltac:(lia)). nia. }
  split; nia.
Qed.

Lemma segment_capacity_pos size : 0 <= size → 1 <= SEGMENT_CAPACITY size.
Proof.
  intros Hs. destruct (decide (size = 0)) as [-> |]; [done|]. destruct (decide (SEGMENT_BYTES < size)) as [Hb|Hb].
  - unfold SEGMENT_CAPACITY. by rewrite bool_decide_eq_false_2, bool_decide_eq_true_2.
  - destruct (segment_capacity_budget size) as [(k & Hk & ->) _]; [lia|]. pose proof (Z.pow_pos_nonneg 2 k). lia.
Qed.

Lemma segment_capacity_large size : SEGMENT_BYTES < size → SEGMENT_CAPACITY size = 1.
Proof. intros Hs. unfold SEGMENT_CAPACITY. rewrite bool_decide_eq_false_2, bool_decide_eq_true_2; unfold SEGMENT_BYTES in *; done || lia. Qed.

(** ** The system: any number of senders, one receiver *)
Inductive Label (T : Type) : Type :=
| Send (v : T)
| CloneSender
| DropSender
| TryRecv
| PollRecv (cx : Waker)
| DropReceiver.
Arguments Send {T} v.
Arguments CloneSender {T}.
Arguments DropSender {T}.
Arguments TryRecv {T}.
Arguments PollRecv {T} cx.
Arguments DropReceiver {T}.

Record Obs (T : Type) : Type := mkObs {
  accepted : list T;
  received : list T;
  discarded : list T;
  woken : list Waker;
}.
Arguments mkObs {T}.
Arguments accepted {T}.
Arguments received {T}.
Arguments discarded {T}.
Arguments woken {T}.

Section system.
Context {T : Type} (size header : Z) (grow : Z → Z → Z).
Implicit Types (b : Buffer T) (s : State T) (x : Sys T) (l : Label T) (v : T).

Definition enabled l x : bool :=
  match l with
  | Send _ | DropSender => bool_decide (0 < senders (st x))
  | CloneSender => bool_decide (0 < senders (st x) < isize_max)
  | TryRecv | PollRecv _ | DropReceiver => receiver (st x)
  end.

Definition exec l : M (Sys T) (Obs T) :=
  match l with
  | Send v =>
      '(r, ws) ← on_st (send size grow v);
      mret (mkObs (match r with Ok _ => [v] | Err _ => [] end) [] [] ws)
  | CloneSender => on_st clone_sender;; mret (mkObs [] [] [] [])
  | DropSender => ws ← on_st drop_sender; mret (mkObs [] [] [] ws)
  | TryRecv =>
      r ← try_recv size header;
      mret (mkObs [] (match r with Ok v => [v] | Err _ => [] end) [] [])
  | PollRecv cx =>
      r ← poll_recv size header cx;
      mret (mkObs [] (match r with Ready (Ok v) => [v] | _ => [] end) [] [])
  | DropReceiver => vs ← receiver_drop; mret (mkObs [] [] vs [])
  end.

(** The abstract queue: the batch, then the sealed segments, then the writable one. *)
Definition contents b : list T := concat (sealed b) ++ writable b.
Definition queue x : list T := batch x ++ contents (buffer (st x)).

Definition fits (l : list T) : Prop := Z.of_nat (length l) <= SEGMENT_CAPACITY size.

Record buffer_ok b : Prop := {
  bo_writable : fits (writable b);
  bo_sealed : Forall (λ segment, segment ≠ [] ∧ fits segment) (sealed b);
}.

Record sys_ok x : Prop := {
  so_buffer : buffer_ok (buffer (st x));
  so_batch : fits (batch x);
  so_waker : is_Some (recv_waker (st x)) → queue x = [] ∧ senders (st x) ≠ 0 ∧ receiver (st x) = true;
  so_senders : 0 <= senders (st x) <= isize_max;
  so_closed : receiver (st x) = false → queue x = [];
}.

Section invariant.
Context (Hsize : 0 <= size).

(** ** The buffer implements a queue *)
Lemma buffer_new_ok : buffer_ok buffer_new.
Proof. pose proof (segment_capacity_pos size Hsize). split; [unfold fits; simpl; lia|constructor]. Qed.

Lemma buffer_push_ok v b :
  buffer_ok b → buffer_ok (buffer_push size grow v b) ∧ contents (buffer_push size grow v b) = contents b ++ [v].
Proof.
  intros [Hw Hs]. pose proof (segment_capacity_pos size Hsize) as Hc. unfold buffer_push, contents, fits in *. case_bool_decide as Hfull; simpl.
  - split; [split; unfold fits; simpl; [lia|]|].
    + apply Forall_app. split; [done|]. apply Forall_singleton. split; [|done]. intros E. rewrite E in Hfull. simpl in Hfull. lia.
    + rewrite concat_app. simpl. by rewrite app_nil_r.
  - split; [|by rewrite app_assoc]. split; unfold fits; simpl; [|done]. rewrite length_app. simpl. lia.
Qed.

Lemma buffer_empty_spec b : buffer_ok b → buffer_is_empty b = true ↔ contents b = [].
Proof.
  intros [_ Hs]. unfold buffer_is_empty, contents. rewrite andb_true_iff, !bool_decide_eq_true. split; [by intros [-> ->]|].
  intros [H1 H2]%app_nil. split; [done|]. destruct (sealed b) as [|seg rest]; [done|]. apply Forall_cons in Hs as [[Hne _] _].
  simpl in H1. apply app_nil in H1 as [-> _]. done.
Qed.

(** Refilling an empty batch moves the oldest values into it, and retires no value. *)
Lemma refill_spec b :
  buffer_ok b →
  wp (refill header) (b, []) (λ retired p, buffer_ok p.1 ∧ fits p.2 ∧ p.2 ++ contents p.1 = contents b ∧ (p.2 = [] → contents b = []) ∧
    ∀ h t, retired = Some (h, t) → h = [] ∧ t = []).
Proof.
  intros [Hw Hs]. pose proof (segment_capacity_pos size Hsize) as Hc. unfold refill. wp_auto. apply wp_assert; [done|]. wp_auto.
  unfold contents. destruct (sealed b) as [|seg rest] eqn:Es.
  - case_bool_decide as Ew; wp_auto; simpl.
    + rewrite Es, Ew. split_and!; [by split; rewrite ?Es|unfold fits; simpl; lia|done|done|done].
    + split_and!; [split; unfold fits; simpl; [lia|constructor]|done|by rewrite app_nil_r|done|done].
  - apply Forall_cons in Hs as [[Hne Hf] Hs].
    destruct (bool_decide (rest = []) && _) eqn:Er; wp_auto; simpl.
    + apply andb_true_iff in Er as [->%bool_decide_eq_true _]. split_and!; [by split|done|by rewrite app_nil_r|done|by intros ?? [= <- <-]].
    + split_and!; [by split|done|by rewrite app_assoc|done|by intros ?? [= <- <-]].
Qed.

Lemma pop_batch_spec v rest : fits (v :: rest) → wp (pop_batch size) (v :: rest) (λ r rest', r = v ∧ rest' = rest).
Proof.
  intros Hf. unfold pop_batch. wp_auto. case_bool_decide as Hb.
  - unfold fits in Hf. rewrite segment_capacity_large in Hf by done. destruct rest; [|simpl in Hf; lia]. wp_auto. apply wp_assert; [done|].
    wp_auto. by eapply wp_expect.
  - wp_auto. by eapply wp_expect.
Qed.

(** Taking the first value of a batch. *)
Lemma mpsc_take_ok x v rest :
  sys_ok x → batch x = v :: rest →
  wp (on_batch (pop_batch size)) x (λ r x', r = v ∧ x' = set_batch rest x ∧ sys_ok x' ∧ queue x = v :: queue x').
Proof.
  intros Hx Eb. pose proof Hx as [Hb Hf Hw Hn Hc]. wp_auto. rewrite Eb. rewrite Eb in Hf. wp_apply pop_batch_spec; [done|].
  intros r ms [-> ->]. assert (queue x = v :: queue (set_batch rest x)) as Eq by (unfold queue; simpl; by rewrite Eb).
  split_and!; try done. split; simpl; try done; [unfold fits in *; simpl in Hf; lia| |].
  - intros Hwk. destruct (Hw Hwk) as [E _]. congruence.
  - intros Hr. rewrite Hc in Eq by done. done.
Qed.

(** Refilling changes how the queue is stored and nothing else. *)
Lemma refill_ok x :
  sys_ok x → batch x = [] →
  wp (on_refill (refill header)) x (λ _ x', ∃ b ms, x' = mkSys (set_buffer b (st x)) ms ∧ sys_ok x' ∧ queue x' = queue x ∧ (ms = [] → queue x = [])).
Proof.
  intros Hx Eb. pose proof Hx as [Hb Hf Hw Hn Hc]. wp_auto. rewrite Eb. wp_apply refill_spec; [done|].
  intros r [b ms] (Hb' & Hf' & Eq & He & _). simpl in *. assert (queue (mkSys (set_buffer b (st x)) ms) = queue x) as E by (unfold queue; simpl; by rewrite Eb, Eq).
  exists b, ms. split_and!; try done; [|intros El; unfold queue; by rewrite Eb, He]. split; simpl; rewrite ?E; done.
Qed.

Definition try_recv_answer x (r : result T TryRecvError) x' : Prop :=
  match queue x with
  | v :: rest => r = Ok v ∧ queue x' = rest
  | [] => r = Err (if bool_decide (senders (st x) = 0) then Disconnected else Empty) ∧ queue x' = []
  end.

Lemma mpsc_try_recv_ok x :
  sys_ok x →
  wp (try_recv size header) x (λ r x', sys_ok x' ∧ try_recv_answer x r x' ∧ senders (st x') = senders (st x) ∧
    receiver (st x') = receiver (st x) ∧ recv_waker (st x') = recv_waker (st x)).
Proof.
  intros Hx. unfold try_recv, try_recv_answer. apply wp_bind, wp_get.
  case_bool_decide as Eb; [|].
  - apply wp_bind. eapply wp_mono; [by apply refill_ok|]. intros _ x' (b & ms & -> & Hx' & Eq & He). apply wp_bind, wp_get.
    cbn [batch st]. destruct ms as [|v rest]; simpl.
    + rewrite He by done. apply wp_ret. split_and!; try done. by rewrite Eq, He.
    + apply wp_bind. eapply wp_mono; [by eapply mpsc_take_ok|]. intros r x'' (-> & -> & Hx'' & Eq'). apply wp_ret. rewrite Eq in Eq'. rewrite Eq'. done.
  - destruct (batch x) as [|v rest] eqn:Ebx; [done|]. apply wp_bind. eapply wp_mono; [by eapply mpsc_take_ok|].
    intros r x'' (-> & -> & Hx'' & Eq'). apply wp_ret. rewrite Eq'. done.
Qed.

Definition poll_recv_answer cx x (r : Poll (result T RecvError)) x' : Prop :=
  match queue x with
  | v :: rest => r = Ready (Ok v) ∧ queue x' = rest ∧ recv_waker (st x') = recv_waker (st x)
  | [] => queue x' = [] ∧
      if bool_decide (senders (st x) = 0) then r = Ready (Err RecvDisconnected) ∧ recv_waker (st x') = None
      else r = Pending ∧ recv_waker (st x') = Some cx
  end.

Lemma mpsc_poll_recv_ok cx x :
  sys_ok x → receiver (st x) = true →
  wp (poll_recv size header cx) x (λ r x', sys_ok x' ∧ poll_recv_answer cx x r x' ∧ senders (st x') = senders (st x) ∧
    receiver (st x') = receiver (st x)).
Proof.
  intros Hx Hrc. unfold poll_recv, poll_recv_answer. apply wp_bind, wp_get.
  case_bool_decide as Eb; cbn [negb].
  - apply wp_bind. eapply wp_mono; [by apply refill_ok|]. intros _ x' (b & ms & -> & Hx' & Eq & He). apply wp_bind, wp_get.
    cbn [batch st]. pose proof Hx' as [Hb' Hf' Hw' Hn' Hc']. destruct ms as [|v rest]; cbn [negb bool_decide decide].
    + rewrite He by done. specialize (He eq_refl). simpl. case_bool_decide as Hs; wp_auto; simpl.
      * split_and!; try done; [|unfold queue in *; simpl in *; congruence]. split; simpl; try done.
      * pose proof (register_waker_some (recv_waker (st x)) cx) as Hreg. split_and!; try done; [|unfold queue in *; simpl in *; congruence].
        split; simpl; try done. intros _. split_and!; [|done|done]. unfold queue in *. simpl in *. congruence.
    + simpl. apply wp_bind. eapply wp_mono; [by eapply mpsc_take_ok|]. intros r x'' (-> & -> & Hx'' & Eq'). apply wp_ret. rewrite Eq in Eq'. rewrite Eq'. done.
  - destruct (batch x) as [|v rest] eqn:Ebx; [done|]. apply wp_bind. eapply wp_mono; [by eapply mpsc_take_ok|].
    intros r x'' (-> & -> & Hx'' & Eq'). apply wp_ret. rewrite Eq'. done.
Qed.

(** ** What one operation does *)

(** Values enter at the back and leave at the front, or go all at once with the receiver. *)
Definition flow x (o : Obs T) x' : Prop :=
  (discarded o = [] ∧ queue x ++ accepted o = received o ++ queue x' ∧ receiver (st x') = receiver (st x) ∧
   (receiver (st x) = false → accepted o = [] ∧ received o = [])) ∨
  (accepted o = [] ∧ received o = [] ∧ discarded o ≡ₚ queue x ∧ queue x' = [] ∧ receiver (st x') = false ∧ receiver (st x) = true).

(** The operations of the receiver that decide about its registration. *)
Definition by_receiver l : bool := match l with PollRecv _ | DropReceiver => true | _ => false end.

Definition effect l x (o : Obs T) x' : Prop :=
  sys_ok x' ∧ flow x o x' ∧
  (by_receiver l = false → ∀ cx, recv_waker (st x) = Some cx → recv_waker (st x') = Some cx ∨ cx ∈ woken o).

Lemma mpsc_send_ok v x : sys_ok x → wp (exec (Send v)) x (effect (Send v) x).
Proof.
  intros Hx. pose proof Hx as [Hb Hf Hw Hn Hc]. unfold exec, send. wp_auto. destruct (receiver (st x)) eqn:Er; simpl; wp_auto.
  - destruct (buffer_push_ok v _ Hb) as [Hb' Ec]. split_and!; simpl; [| |intros _ cx ->; right; set_solver].
    + split; simpl; try done. congruence.
    + left. simpl. split_and!; [done| |done|congruence]. unfold queue. simpl. by rewrite Ec, <-app_assoc.
  - assert (set_st (st x) x = x) as -> by (by destruct x). split_and!; [done| |by left]. left. simpl. by rewrite app_nil_r.
Qed.

Lemma mpsc_senders_ok l x :
  match l with CloneSender | DropSender => True | _ => False end → sys_ok x → enabled l x = true → wp (exec l) x (effect l x).
Proof.
  intros Hl Hx He. pose proof Hx as [Hb Hf Hw Hn Hc].
  assert (∀ n w, queue (set_st (set_recv_waker w (set_senders n (st x))) x) = queue x) as Eq by done.
  destruct l; try done; apply bool_decide_eq_true in He; simpl.
  - unfold clone_sender. wp_auto. apply wp_add_int; [unfold isize_max, usize_max in *; lia|]. wp_auto. split_and!; [|left; simpl; by rewrite app_nil_r|by left].
    split; simpl; try done; [|lia]. intros Hwk. destruct (Hw Hwk) as (? & ? & ?). split_and!; [done|lia|done].
  - unfold drop_sender. wp_auto. apply wp_sub_int; [lia|]. wp_auto. case_bool_decide as Hz; wp_auto; simpl.
    + split_and!; [|left; simpl; by rewrite app_nil_r|intros _ cx ->; right; set_solver]. split; simpl; try done. lia.
    + split_and!; [|left; simpl; by rewrite app_nil_r|by left]. split; simpl; try done; [|lia]. intros Hwk. destruct (Hw Hwk) as (? & ? & ?). done.
Qed.

Lemma mpsc_receiver_ok l x :
  match l with TryRecv | PollRecv _ | DropReceiver => True | _ => False end → sys_ok x → enabled l x = true → wp (exec l) x (effect l x).
Proof.
  intros Hl Hx He. pose proof Hx as [Hb Hf Hw Hn Hc]. destruct l as [| | | |cx|]; try done; simpl in He |- *.
  - apply wp_bind. eapply wp_mono; [by apply mpsc_try_recv_ok|]. intros r x' (Hx' & Ha & Es & Erc & Ew). apply wp_ret. split_and!; [done| |intros _ cx; rewrite Ew; auto].
    left. simpl. rewrite app_nil_r. unfold try_recv_answer in Ha. rewrite Erc. split_and!; try done; [|congruence].
    destruct (queue x); destruct Ha as [-> ->]; done.
  - apply wp_bind. eapply wp_mono; [by apply (mpsc_poll_recv_ok cx)|]. intros r x' (Hx' & Ha & Es & Erc). apply wp_ret. split_and!; [done| |done].
    left. simpl. rewrite app_nil_r. unfold poll_recv_answer in Ha. rewrite Erc. split_and!; try done; [|congruence].
    destruct (queue x); [|by destruct Ha as (-> & -> & _)]. destruct Ha as [-> Ha]. case_bool_decide; destruct Ha as [-> _]; done.
  - unfold receiver_drop. wp_auto. split_and!; [|right; split_and!; try done|done].
    + split; simpl; try done; [by apply buffer_new_ok|unfold fits; simpl; pose proof (segment_capacity_pos size Hsize); lia].
    + simpl. unfold queue, contents. by rewrite (Permutation_app_comm (writable _)).
Qed.

Lemma mpsc_unbounded_exec_ok l x : sys_ok x → enabled l x = true → wp (exec l) x (effect l x).
Proof.
  intros Hx He. destruct l; [by apply mpsc_send_ok|by apply mpsc_senders_ok|by apply mpsc_senders_ok|by apply mpsc_receiver_ok|by apply mpsc_receiver_ok|by apply mpsc_receiver_ok].
Qed.

Lemma mpsc_unbounded_init_ok : sys_ok unbounded.
Proof.
  pose proof (segment_capacity_pos size Hsize). split; simpl; try done; [by apply buffer_new_ok|unfold fits; simpl; lia].
Qed.

Lemma mpsc_unbounded_reachable ls tr x : returns (run enabled exec ls) unbounded tr x → sys_ok x.
Proof.
  apply (run_invariant enabled exec sys_ok); [|apply mpsc_unbounded_init_ok].
  intros y l Hy He. eapply wp_mono; [by apply mpsc_unbounded_exec_ok|]. by intros o y' [? _].
Qed.
End invariant.
End system.

(** ** Properties *)
Section properties.
Context {T : Type} (size header : Z) (grow : Z → Z → Z).
Implicit Types (x : Sys T) (l : Label T).

(** C31: the segmented buffer and the batch behave as one queue over every run: the values received
    are, in order, the first of the values accepted; while the receiver lives the rest, in order, is
    the batch, the sealed segments and the writable one; once it is gone the rest has been dropped.  No
    operation panics. *)
Theorem mpsc_unbounded_fifo ls tr x :
  0 <= size → returns (run enabled (exec size header grow) ls) unbounded tr x →
  no_panic enabled (exec size header grow) x ∧
  ∃ rest, concat (accepted <$> tr.*2) = concat (received <$> tr.*2) ++ rest ∧ rest ≡ₚ concat (discarded <$> tr.*2) ++ queue x ∧
    (receiver (st x) = true → rest = queue x).
Proof.
  intros Hs Hr. set (I := λ (tr : list (Label T * Obs T)) x, sys_ok size x ∧ ∃ rest,
    concat (accepted <$> tr.*2) = concat (received <$> tr.*2) ++ rest ∧ rest ≡ₚ concat (discarded <$> tr.*2) ++ queue x ∧
    (receiver (st x) = true → rest = queue x ∧ concat (discarded <$> tr.*2) = [])).
  cut (I ([] ++ tr) x); [intros [Hx (rest & ? & ? & H)]; split; [apply (no_panic_wp _ _ _ _ (λ l, mpsc_unbounded_exec_ok size header grow Hs l x Hx))|]; exists rest; split_and!; [done..|]; intros Ha; by apply H|].
  refine (run_trace_invariant enabled (exec size header grow) I ls unbounded tr x _ [] _ Hr).
  2: { split; [by apply mpsc_unbounded_init_ok|]. by exists []. }
  clear Hr tr x ls. intros tr x l [Hx (rest & E1 & E2 & E3)] He. eapply wp_mono; [by apply mpsc_unbounded_exec_ok|].
  intros o x' (Hx' & Hf & _). split; [done|]. rewrite !fmap_app, !concat_app. simpl. rewrite !app_nil_r.
  destruct Hf as [(Ed & Eq & Er & Hz)|(Ea & Erv & Hd & Eq & Er & Er')].
  - rewrite Ed, app_nil_r, Er. destruct (receiver (st x)).
    + destruct (E3 eq_refl) as [-> Edn]. exists (queue x'). rewrite Edn. split_and!; try done. by rewrite E1, <-!app_assoc, Eq.
    + destruct (Hz eq_refl) as [Ea Erv]. rewrite Ea, Erv, !app_nil_r in *. simpl in Eq. exists rest. by rewrite <-Eq.
  - destruct (E3 Er') as [-> Edn]. rewrite Edn, Ea, Erv, Eq, !app_nil_r, Er. exists (queue x). split_and!; try done.
Qed.

(** A pending receive is never forgotten: after the poll that registered [cx], whatever senders
    do, its task has been woken, or nothing is queued, a sender remains and [cx] is still registered. *)
Theorem mpsc_unbounded_receive_not_forgotten ls tr x cx o x1 ls' tr' x2 :
  0 <= size → returns (run enabled (exec size header grow) ls) unbounded tr x → enabled (PollRecv cx) x = true →
  returns (poll_recv size header cx) x o x1 → o = Pending →
  Forall (λ l, negb (by_receiver l) = true) ls' → returns (run enabled (exec size header grow) ls') x1 tr' x2 →
  Exists (λ e, cx ∈ woken e.2) tr' ∨ (queue x2 = [] ∧ senders (st x2) ≠ 0 ∧ recv_waker (st x2) = Some cx).
Proof.
  intros Hs Hr He Hx -> Hls Hr'. apply (mpsc_unbounded_reachable size header grow Hs) in Hr as Hok.
  destruct (wp_returns_elim _ _ _ _ _ (mpsc_poll_recv_ok size header Hs cx x Hok He) Hx) as (Hok1 & Ha & _).
  assert (recv_waker (st x1) = Some cx) as HR.
  { unfold poll_recv_answer in Ha. destruct (queue x); [|by destruct Ha]. destruct Ha as [_ Ha]. case_bool_decide; by destruct Ha. }
  edestruct (run_promise enabled (exec size header grow) (λ x, sys_ok size x) (λ x, sys_ok size x ∧ recv_waker (st x) = Some cx) (λ o, cx ∈ woken o)
    (λ l, negb (by_receiver l))) as [[Hok2 Hw2]|?]; [|exact Hok1|done|done|done|right|by left].
  - intros y l Hy Hl Hb%negb_true_iff. eapply wp_mono; [by apply mpsc_unbounded_exec_ok|]. intros o y' (Hy' & _ & Hk). split; [done|].
    intros [_ Hw]. destruct (Hk Hb cx Hw); auto.
  - destruct (so_waker _ _ Hok2) as (? & ? & _); [by eexists|]. done.
Qed.

(** The receiver's answers are exact: [try_recv] returns the oldest queued value, reports
    disconnection only when nothing is queued and no sender is left, and [is_empty] tells which. *)
Theorem mpsc_unbounded_answers ls tr x :
  0 <= size → returns (run enabled (exec size header grow) ls) unbounded tr x → receiver (st x) = true →
  ∃ r x', returns (try_recv size header) x r x' ∧ try_recv_answer x r x' ∧ (is_empty x = true ↔ queue x = []).
Proof.
  intros Hs Hr He. apply (mpsc_unbounded_reachable size header grow Hs) in Hr as Hok.
  destruct (proj1 (wp_returns _ _ _) (mpsc_try_recv_ok size header Hs x Hok)) as (r & x' & Hx & _ & Ha & _). exists r, x'. split_and!; [done..|].
  unfold is_empty, queue. rewrite andb_true_iff, bool_decide_eq_true, (buffer_empty_spec size) by apply Hok.
  split; [by intros [-> ->]|]. by intros [-> ->]%app_nil.
Qed.

(** No segment, neither the writable one nor a sealed one nor the batch, ever holds more than its
    byte budget when values are ordinary, or more than one value when a value alone exceeds it. *)
Theorem mpsc_segments_within_budget ls tr x :
  0 < size → returns (run enabled (exec size header grow) ls) unbounded tr x →
  Forall (λ segment, Z.of_nat (length segment) * size <= Z.max size SEGMENT_BYTES) (batch x :: writable (buffer (st x)) :: sealed (buffer (st x))).
Proof.
  intros Hs Hr. apply (mpsc_unbounded_reachable size header grow ltac:(lia)) in Hr as [[Hw Hsl] Hb _ _ _].
  assert (∀ segment : list T, fits size segment → Z.of_nat (length segment) * size <= Z.max size SEGMENT_BYTES) as Hfit.
  { intros segment Hf. unfold fits in Hf. destruct (decide (SEGMENT_BYTES < size)) as [Hb'|Hb'].
    - rewrite segment_capacity_large in Hf by done. nia.
    - destruct (segment_capacity_budget size) as [_ H]; [lia|]. nia. }
  constructor; [auto|]. constructor; [auto|]. eapply Forall_impl; [done|]. naive_solver.
Qed.
End properties.

(** Values so large that each has a segment of its own. *)
Definition sample_run : list (Label nat) := [Send 7%nat; Send 8%nat; TryRecv; Send 9%nat; TryRecv; TryRecv].

Lemma mpsc_unbounded_fifo_witness :
  ∃ tr (x : Sys nat), returns (run enabled (exec 40000 32 (λ _ n, n + 1)) (take 4 sample_run)) unbounded tr x ∧
    concat (received <$> tr.*2) = [7]%nat ∧
    ∃ rest, concat (accepted <$> tr.*2) = concat (received <$> tr.*2) ++ rest ∧ rest ≡ₚ concat (discarded <$> tr.*2) ++ queue x ∧
      (receiver (st x) = true → rest = queue x).
Proof.
  eexists _, _. split; [vm_compute; reflexivity|]. split; [reflexivity|].
  eapply (mpsc_unbounded_fifo 40000 32 (λ _ n, n + 1) (take 4 sample_run)); [done|vm_compute; reflexivity].
Defined.

Lemma mpsc_unbounded_receive_not_forgotten_witness :
  ∃ tr (x : Sys nat) x1 tr' x2, returns (run enabled (exec 8 32 (λ _ n, n + 1)) sample_run) unbounded tr x ∧
    returns (poll_recv 8 32 100%nat) x Pending x1 ∧ returns (run enabled (exec 8 32 (λ _ n, n + 1)) [Send 5%nat]) x1 tr' x2 ∧
    (Exists (λ e, 100%nat ∈ woken e.2) tr' ∨ (queue x2 = [] ∧ senders (st x2) ≠ 0 ∧ recv_waker (st x2) = Some 100%nat)).
Proof.
  eexists _, _, _, _, _. split; [vm_compute; reflexivity|]. split; [vm_compute; reflexivity|]. split; [vm_compute; reflexivity|].
  eapply (mpsc_unbounded_receive_not_forgotten 8 32 (λ _ n, n + 1) sample_run _ _ 100%nat Pending _ [Send 5%nat]);
    [done|vm_compute; reflexivity|vm_compute; reflexivity|vm_compute; reflexivity|done|by repeat constructor|vm_compute; reflexivity].
Defined.

Lemma mpsc_unbounded_answers_witness :
  ∃ tr (x : Sys nat), returns (run enabled (exec 8 32 (λ _ n, n + 1)) [Send 7%nat; Send 8%nat; TryRecv]) unbounded tr x ∧
    ∃ r x', returns (try_recv 8 32) x r x' ∧ try_recv_answer x r x' ∧ (is_empty x = true ↔ queue x = []).
Proof.
  eexists _, _. split; [vm_compute; reflexivity|].
  eapply (mpsc_unbounded_answers 8 32 (λ _ n, n + 1) [Send 7%nat; Send 8%nat; TryRecv]); [done|vm_compute; reflexivity|done].
Defined.

Lemma mpsc_segments_within_budget_witness :
  ∃ tr (x : Sys nat), returns (run enabled (exec 16384 32 (λ _ n, n + 1)) [Send 7%nat; Send 8%nat; Send 9%nat]) unbounded tr x ∧
    sealed (buffer (st x)) = [[7; 8]%nat] ∧
    Forall (λ segment, Z.of_nat (length segment) * 16384 <= Z.max 16384 SEGMENT_BYTES)
      (batch x :: writable (buffer (st x)) :: sealed (buffer (st x))).
Proof.
  eexists _, _. split; [vm_compute; reflexivity|]. split; [reflexivity|].
  eapply (mpsc_segments_within_budget 16384 32 (λ _ n, n + 1) [Send 7%nat; Send 8%nat; Send 9%nat]); [done|vm_compute; reflexivity].
Defined.
