(* ===== verification/MpscBounded.v ===== *)
(** * The bounded multi-producer single-consumer channel

    [asyncband/src/mpsc/bounded/]: a slot of the buffer is available, or belongs to a queued value, to
    a permit or to a waiter that was granted one.  Every operation is a critical section of the state
    lock followed by wake-ups; the receive futures hold nothing, the reserve futures hold a waiter. *)
From S2P Require Import Prelude Arena WaitQueue WaitList.

Record Waiter : Type := mkWaiter {
  grant : bool;
  waker : option Waker;
}.

Inductive TrySendError (A : Type) : Type :=
| Full (v : A)
| SendDisconnected (v : A).
Arguments Full {A} v.
Arguments SendDisconnected {A} v.

Inductive TryRecvError : Type := Empty | Disconnected.
Inductive RecvError : Type := RecvDisconnected.

Record State (W : Type → Type) (T : Type) : Type := mkState {
  queue : list T;
  available : Z;
  senders : Z;
  receiver : bool;
  recv_waker : option Waker;
  send_waiters : W Waiter;
}.
Arguments mkState {W T}.
Arguments queue {W T}.
Arguments available {W T}.
Arguments senders {W T}.
Arguments receiver {W T}.
Arguments recv_waker {W T}.
Arguments send_waiters {W T}.

Section channel.
Context {W : Type → Type} `{!WaitQueue W} {T : Type}.
Implicit Types (s : State W T) (v : T).

Definition set_queue l s : State W T := mkState l (available s) (senders s) (receiver s) (recv_waker s) (send_waiters s).
Definition set_available n s : State W T := mkState (queue s) n (senders s) (receiver s) (recv_waker s) (send_waiters s).
Definition set_senders n s : State W T := mkState (queue s) (available s) n (receiver s) (recv_waker s) (send_waiters s).
Definition set_recv_waker w s : State W T := mkState (queue s) (available s) (senders s) (receiver s) w (send_waiters s).
Definition set_send_waiters w s : State W T := mkState (queue s) (available s) (senders s) (receiver s) (recv_waker s) w.
Definition in_send {A : Type} (m : M (W Waiter) A) : M (State W T) A := zoom send_waiters set_send_waiters m.

Definition bounded (capacity : Z) : M unit (State W T) :=
  assert_true (bool_decide (0 < capacity)) "mpsc bounded channel capacity must be nonzero";;
  mret (mkState [] capacity 1 true None wq_new).

Definition acquire : M (State W T) (result unit (TrySendError unit)) :=
  s ← get;
  if negb (receiver s) then mret (Err (SendDisconnected tt))
  else if bool_decide (available s = 0) then mret (Err (Full tt))
  else
    n ← sub_int (available s) 1;
    put (set_available n s);;
    mret (Ok tt).

(** The first waiter leaves the list with the slot; its waker is taken. *)
Definition grant_first : M (W Waiter) (option (option Waker)) :=
  '(r, _) ← wq_unlink_first always tt;
  match r with
  | Some (id, waiter) => wq_set_waiter id (mkWaiter true None);; mret (Some (waker waiter))
  | None => mret None
  end.

Definition release : M (State W T) (option Waker) :=
  s ← get;
  if negb (receiver s) then mret None
  else
    r ← in_send grant_first;
    match r with
    | Some wake => mret wake
    | None =>
        s ← get;
        n ← add_int usize_max (available s) 1;
        put (set_available n s);;
        mret None
    end.

Definition pop : M (State W T) (result (T * option Waker) TryRecvError) :=
  s ← get;
  match queue s with
  | v :: rest =>
      put (set_queue rest s);;
      wake ← release;
      mret (Ok (v, wake))
  | [] => mret (Err (if bool_decide (senders s = 0) then Disconnected else Empty))
  end.

(** ** The receiver *)
Definition try_recv : M (State W T) (result T TryRecvError * list Waker) :=
  r ← pop;
  match r with
  | Ok (v, wake) => mret (Ok v, option_list wake)
  | Err e => mret (Err e, [])
  end.

Definition poll_recv (cx : Waker) : M (State W T) (Poll (result T RecvError) * list Waker) :=
  r ← pop;
  match r with
  | Ok (v, wake) => mret (Ready (Ok v), option_list wake)
  | Err Disconnected => modify (set_recv_waker None);; mret (Ready (Err RecvDisconnected), [])
  | Err Empty => modify (λ s, set_recv_waker (register_waker (recv_waker s) cx).1 s);; mret (Pending, [])
  end.

(** The loop of [BoundedReceiver::drop] over the waiters moved out. *)
Definition take_first_waker : M (W Waiter) (option (option Waker)) :=
  '(r, _) ← wq_unlink_first always tt;
  match r with
  | Some (id, waiter) => wq_set_waiter id (mkWaiter (grant waiter) None);; mret (Some (waker waiter))
  | None => mret None
  end.

(** [BoundedReceiver::drop]: the values dropped and the tasks woken. *)
Definition receiver_drop : M (State W T) (list T * list Waker) :=
  s ← get;
  put (mkState [] (available s) (senders s) false None wq_new);;
  wakers ← run_local (send_waiters s) (while_some (S (wq_len (send_waiters s))) take_first_waker);
  mret (queue s, omap id wakers).

Definition is_empty s : bool := bool_decide (queue s = []).
Definition receiver_is_disconnected s : bool := bool_decide (senders s = 0).

(** ** The senders *)
Definition clone_sender : M (State W T) unit :=
  s ← get; n ← add_int usize_max (senders s) 1; put (set_senders n s).

Definition drop_sender : M (State W T) (list Waker) :=
  s ← get;
  n ← sub_int (senders s) 1;
  put (set_senders n s);;
  if bool_decide (n = 0) then put (set_recv_waker None (set_senders n s));; mret (option_list (recv_waker s))
  else mret [].

Definition sender_is_disconnected s : bool := negb (receiver s).

(** A value is queued and the receiver's waker taken. *)
Definition enqueue v : M (State W T) (list Waker) :=
  s ← get;
  put (set_recv_waker None (set_queue (queue s ++ [v]) s));;
  mret (option_list (recv_waker s)).

Definition try_send v : M (State W T) (result unit (TrySendError T) * list Waker) :=
  r ← acquire;
  match r with
  | Ok _ => ws ← enqueue v; mret (Ok tt, ws)
  | Err (Full _) => mret (Err (Full v), [])
  | Err (SendDisconnected _) => mret (Err (SendDisconnected v), [])
  end.

(** [try_reserve]: [Ok] hands out a permit. *)
Definition try_reserve : M (State W T) (result unit (TrySendError unit)) := acquire.

Definition permit_drop : M (State W T) (list Waker) := wake ← release; mret (option_list wake).

(** [Permit::send]: the permit is forgotten when the value is queued and dropped otherwise. *)
Definition permit_send v : M (State W T) (result unit T * list Waker) :=
  s ← get;
  if negb (receiver s) then ws ← permit_drop; mret (Err v, ws)
  else ws ← enqueue v; mret (Ok tt, ws).

(** [Reserve::poll]: the waiter afterwards; [Ok] hands out a permit. *)
Definition reserve_poll (waiter : option WaiterId) (cx : Waker) : M (State W T) (option WaiterId * Poll (result unit unit)) :=
  s ← get;
  if negb (receiver s) then mret (None, Ready (Err tt))
  else
    match waiter with
    | Some index =>
        w ← in_send (wq_waiter index);
        if grant w then
          in_send (wq_remove index);;
          mret (None, Ready (Ok tt))
        else
          in_send (wq_set_waiter index (mkWaiter (grant w) (register_waker (waker w) cx).1));;
          mret (waiter, Pending)
    | None =>
        if negb (bool_decide (available s = 0)) then
          n ← sub_int (available s) 1;
          put (set_available n s);;
          mret (None, Ready (Ok tt))
        else
          index ← in_send (wq_push_back (mkWaiter false (Some cx)));
          mret (Some index, Pending)
    end.

Definition reserve_drop (waiter : option WaiterId) : M (State W T) (list Waker) :=
  match waiter with
  | None => mret []
  | Some index =>
      s ← get;
      if negb (receiver s) then mret []
      else
        w ← in_send (remove_waiter index);
        if grant w then wake ← release; mret (option_list wake) else mret []
  end.
End channel.

#[export] Hint Unfold in_send : band_zoom.

(** ** The system: any number of senders, permits and reserve futures, one receiver *)
Record Sys (W : Type → Type) (T : Type) : Type := mkSys {
  st : State W T;
  reserves : futures;
  permits : Z;
}.
Arguments mkSys {W T}.
Arguments st {W T}.
Arguments reserves {W T}.
Arguments permits {W T}.

(** An asynchronous [send] is a [TrySend], and when the buffer is full a [ReserveNew], its polls and
    a [PermitSend]. *)
Inductive Label (T : Type) : Type :=
| TrySend (v : T)
| TryReserve
| PermitSend (v : T)
| PermitDrop
| ReserveNew (f : nat)
| ReservePoll (f : nat) (cx : Waker)
| ReserveDrop (f : nat)
| TryRecv
| PollRecv (cx : Waker)
| DropReceiver
| CloneSender
| DropSender.
Arguments TrySend {T} v.
Arguments TryReserve {T}.
Arguments PermitSend {T} v.
Arguments PermitDrop {T}.
Arguments ReserveNew {T} f.
Arguments ReservePoll {T} f cx.
Arguments ReserveDrop {T} f.
Arguments TryRecv {T}.
Arguments PollRecv {T} cx.
Arguments DropReceiver {T}.
Arguments CloneSender {T}.
Arguments DropSender {T}.

Record Obs (T : Type) : Type := mkObs {
  accepted : list T;
  received : list T;
  discarded : list T;
  woken : list Waker;
}.
Arguments mkObs {T}.
Arguments accepted {T}.
Arguments received {T}.
Arguments discarded {T}.
Arguments woken {T}.

Section system.
Context {W : Type → Type} `{!WaitQueue W} {T : Type}.
Implicit Types (s : State W T) (x : Sys W T) (l : Label T) (v : T) (f : nat).

Definition init (capacity : Z) : Sys W T := mkSys (mkState [] capacity 1 true None wq_new) ∅ 0.
Definition set_st s x : Sys W T := mkSys s (reserves x) (permits x).
Definition set_reserves g x : Sys W T := mkSys (st x) g (permits x).
Definition add_permits n x : Sys W T := mkSys (st x) (reserves x) (permits x + n).
Definition on_st {A : Type} (m : M (State W T) A) : M (Sys W T) A := zoom st set_st m.
Definition silent : Obs T := mkObs [] [] [] [].

Definition enabled l x : bool :=
  match l with
  | TrySend _ | TryReserve | DropSender => bool_decide (0 < senders (st x))
  | CloneSender => bool_decide (0 < senders (st x) < isize_max)
  | PermitSend _ | PermitDrop => bool_decide (0 < permits x)
  | ReserveNew f => bool_decide (0 < senders (st x) ∧ reserves x !! f = None)
  | ReservePoll f _ => bool_decide (is_Some (reserves x !! f)) && bool_decide (wq_room (send_waiters (st x)))
  | ReserveDrop f => bool_decide (is_Some (reserves x !! f))
  | TryRecv | PollRecv _ | DropReceiver => receiver (st x)
  end.

Definition exec l : M (Sys W T) (Obs T) :=
  x ← get;
  match l with
  | TrySend v =>
      '(r, ws) ← on_st (try_send v);
      mret (mkObs (match r with Ok _ => [v] | Err _ => [] end) [] [] ws)
  | TryReserve =>
      r ← on_st try_reserve;
      match r with Ok _ => modify (add_permits 1);; mret silent | Err _ => mret silent end
  | PermitSend v =>
      '(r, ws) ← on_st (permit_send v);
      modify (add_permits (-1));;
      mret (mkObs (match r with Ok _ => [v] | Err _ => [] end) [] [] ws)
  | PermitDrop => ws ← on_st permit_drop; modify (add_permits (-1));; mret (mkObs [] [] [] ws)
  | ReserveNew f => put (set_reserves (<[f:=None]> (reserves x)) x);; mret silent
  | ReservePoll f cx =>
      waiter ← expect (reserves x !! f) "no such future";
      '(waiter, r) ← on_st (reserve_poll waiter cx);
      match r with
      | Pending => modify (set_reserves (<[f:=waiter]> (reserves x)));; mret silent
      | Ready a =>
          modify (set_reserves (delete f (reserves x)));;
          match a with Ok _ => modify (add_permits 1);; mret silent | Err _ => mret silent end
      end
  | ReserveDrop f =>
      waiter ← expect (reserves x !! f) "no such future";
      ws ← on_st (reserve_drop waiter);
      modify (set_reserves (delete f (reserves x)));;
      mret (mkObs [] [] [] ws)
  | TryRecv =>
      '(r, ws) ← on_st try_recv;
      mret (mkObs [] (match r with Ok v => [v] | Err _ => [] end) [] ws)
  | PollRecv cx =>
      '(r, ws) ← on_st (poll_recv cx);
      mret (mkObs [] (match r with Ready (Ok v) => [v] | _ => [] end) [] ws)
  | DropReceiver => '(vs, ws) ← on_st receiver_drop; mret (mkObs [] [] vs ws)
  | CloneSender => on_st clone_sender;; mret silent
  | DropSender => ws ← on_st drop_sender; mret (mkObs [] [] [] ws)
  end.
End system.

#[export] Hint Unfold on_st : band_zoom.

(** ** The waiters *)
Section waiters.
Context {W : Type → Type} `{!WaitQueue W}.
Implicit Types (w : W Waiter) (futs : futures) (q : list WaiterId) (m : gmap WaiterId Waiter) (f : nat).

(** A waiter has its slot, or a waker. *)
Definition marked m : Prop := ∀ id v, m !! id = Some v → grant v = bool_decide (waker v = None).

Definition side w futs q m : Prop := wq_rep w q m ∧ waiters_ok waker futs q m ∧ marked m.

Definition parked f (wk : Waker) futs m : Prop := ∃ id v, futs !! f = Some (Some id) ∧ m !! id = Some v ∧ waker v = Some wk.

(** Every other future than [f] that waits still does, or is woken. *)
Definition kept (f : option nat) futs m futs' m' (ws : list Waker) : Prop :=
  ∀ g wk, f ≠ Some g → parked g wk futs m → parked g wk futs' m' ∨ wk ∈ ws.

Lemma mpsc_kept_refl (o : option nat) futs m ws : kept o futs m futs m ws.
Proof. intros g wk _ Hg. by left. Qed.

Lemma mpsc_kept_delete futs m f ws : kept (Some f) futs m (delete f futs) m ws.
Proof. intros h wk Hne (j & v & Hj & Hm & Hw). left. exists j, v. rewrite lookup_delete_ne; [done|congruence]. Qed.

Lemma marked_insert m id v : marked m → grant v = bool_decide (waker v = None) → marked (<[id:=v]> m).
Proof. intros Hm Hv i u [[<- <-]|[_ Hi]]%lookup_insert_Some; [done|by eapply Hm]. Qed.

Lemma marked_delete m id : marked m → marked (delete id m).
Proof. intros Hm i u [_ Hi]%lookup_delete_Some. by eapply Hm. Qed.

(** The oldest waiter is given the slot and its task woken. *)
Lemma mpsc_grant_spec w futs q m :
  side w futs q m →
  wp grant_first w (λ r w', ∃ q' m', side w' futs q' m' ∧
    match r with
    | None => q = [] ∧ q' = [] ∧ m' = m
    | Some o => is_Some o ∧ kept None futs m futs m' (option_list o) ∧ detached_count q' m' = detached_count q m + 1 ∧ q ≠ []
    end).
Proof.
  intros (Hrep & Hok & Hmk). unfold grant_first. wp_auto. destruct q as [|id q].
  - wp_apply wq_unlink_first_nil; [done|]. intros r w' [-> ->]. wp_auto. exists [], m. by split_and!.
  - destruct (wq_rep_linked w (id :: q) m id Hrep) as [v Hv]; [set_solver|].
    wp_apply wq_unlink_first_cons; [done..|]. intros r w' (-> & Hrep' & _). wp_auto. rewrite insert_id in Hrep' by done.
    wp_apply wq_set_waiter_spec; [done|by eauto|]. intros _ w'' [Hrep'' _]. wp_auto.
    exists q, (<[id:=mkWaiter true None]> m). assert (is_Some (waker v)) as [wk Hwk] by (eapply wo_waiting; [done..|set_solver]).
    split.
    + split_and!; [done|by eapply waiters_ok_notify; eauto using wq_rep_nodup|by apply marked_insert].
    + rewrite detached_notify by eauto. split_and!; [done| |lia|done].
      intros g wk' _ (i & u & Hi & Hm & Hu). destruct (decide (i = id)) as [-> |Hne].
      * right. rewrite Hwk. assert (wk' = wk) as -> by congruence. set_solver.
      * left. exists i, u. by rewrite lookup_insert_ne.
Qed.

(** Emptying a moved-out list wakes every future that waits in it. *)
Lemma mpsc_drain_spec w futs futs' q m m' fuel :
  wq_rep w q m → waiters_ok waker futs q m → (length q < fuel)%nat →
  wp (while_some fuel take_first_waker) w (λ wakers _, kept None futs m futs' m' (omap id wakers)).
Proof.
  revert w q m. induction fuel as [|fuel IH]; intros w q m Hrep Hok Hlt; [lia|].
  simpl. wp_auto. unfold take_first_waker at 1. wp_auto. destruct q as [|id q].
  - wp_apply wq_unlink_first_nil; [done|]. intros r w' [-> ->]. wp_auto.
    intros g wk _ (i & v & Hi & Hm & Hv). assert (i ∈ []) by (eapply (wo_waiting _ _ _ _ Hok i v Hm); by eexists). set_solver.
  - destruct (wq_rep_linked w (id :: q) m id Hrep) as [v Hv]; [set_solver|].
    wp_apply wq_unlink_first_cons; [done..|]. intros r w' (-> & Hrep' & _). wp_auto. rewrite insert_id in Hrep' by done.
    wp_apply wq_set_waiter_spec; [done|by eauto|]. intros _ w'' [Hrep'' _]. wp_auto.
    assert (waiters_ok waker futs q (<[id:=mkWaiter (grant v) None]> m)) as Hok' by (by eapply waiters_ok_notify; eauto using wq_rep_nodup).
    wp_apply (IH w'' q); [done|done|simpl in Hlt; lia|]. intros ws w3 Hws. wp_auto.
    intros g wk Hg (i & u & Hi & Hm & Hu). destruct (decide (i = id)) as [-> |Hne].
    + right. assert (u = v) as -> by congruence. csimpl. rewrite Hu. set_solver.
    + destruct (Hws g wk Hg) as [?|Hin]; [|by left|right]; [exists i, u; by rewrite lookup_insert_ne|].
      csimpl. destruct (waker v); [|done]. set_solver.
Qed.
End waiters.

(** ** Invariant *)
Section invariant.
Context {W : Type → Type} `{!WaitQueue W} {T : Type} (c : Z) (Hc : 0 < c <= usize_max).
Implicit Types (s : State W T) (x : Sys W T) (l : Label T) (futs : futures) (q : list WaiterId) (m : gmap WaiterId Waiter) (f : nat) (v : T).

Definition n_queue s : Z := Z.of_nat (length (queue s)).

(** While the receiver lives every slot is accounted for, [p] of them held by permits, and a future
    waits only when none is available. *)
Definition send_side futs p s q m : Prop :=
  wq_rep (send_waiters s) q m ∧ (receiver s = false → m = ∅) ∧
  (receiver s = true → waiters_ok waker futs q m ∧ marked m ∧ 0 <= available s ∧
    available s + n_queue s + p + detached_count q m = c ∧ (q ≠ [] → available s = 0)).

(** The receiver waits only for a value or for the senders to go. *)
Definition recv_side s : Prop :=
  (is_Some (recv_waker s) → queue s = [] ∧ senders s ≠ 0 ∧ receiver s = true) ∧ (receiver s = false → queue s = []).

Record sys_ok x q m : Prop := {
  sy_send : send_side (reserves x) (permits x) (st x) q m;
  sy_recv : recv_side (st x);
  sy_permits : 0 <= permits x;
  sy_senders : 0 <= senders (st x) <= isize_max;
}.

Definition about_reserve l : option nat := match l with ReservePoll f _ | ReserveDrop f => Some f | _ => None end.
Definition by_receiver l : bool := match l with PollRecv _ | DropReceiver => true | _ => false end.

Record effect l x q m (o : Obs T) x' q' m' : Prop := {
  ef_ok : sys_ok x' q' m';
  ef_order : queue (st x) ++ accepted o = received o ++ discarded o ++ queue (st x');
  ef_reserve : receiver (st x) = true → kept (about_reserve l) (reserves x) m (reserves x') m' (woken o);
  ef_recv : by_receiver l = false → ∀ cx, recv_waker (st x) = Some cx → recv_waker (st x') = Some cx ∨ cx ∈ woken o;
}.

(** What the operations on slots leave alone. *)
Definition same_rest s s' : Prop := queue s' = queue s ∧ senders s' = senders s ∧ receiver s' = receiver s ∧ recv_waker s' = recv_waker s.

Lemma recv_side_same s s' : same_rest s s' → recv_side s → recv_side s'.
Proof. intros (E1 & E2 & E3 & E4). unfold recv_side. by rewrite E1, E2, E3, E4. Qed.

Lemma mpsc_release_spec futs p s q m :
  send_side futs (p + 1) s q m → 0 <= p →
  wp release s (λ r s', ∃ q' m', send_side futs p s' q' m' ∧ same_rest s s' ∧
    (receiver s = true → kept None futs m futs m' (option_list r))).
Proof.
  intros (Hrep & Hz & Hl) Hp. unfold release. wp_auto. destruct (receiver s) eqn:Er; simpl; wp_auto.
  - destruct (Hl eq_refl) as (Hok & Hmk & Ha & Hsum & Hq). wp_apply mpsc_grant_spec; [done|]. intros r w (q' & m' & (Hrep' & Hok' & Hmk') & Hr).
    destruct r as [o|]; wp_auto.
    + destruct Hr as (_ & Hk & Hd & Hne). exists q', m'. split_and!; try done. split_and!; [done|simpl; congruence|]. intros _. simpl.
      unfold n_queue in *. simpl. specialize (Hq Hne). split_and!; try done; lia.
    + destruct Hr as (-> & -> & ->). pose proof (detached_nonneg _ _ _ Hrep). unfold n_queue in *. simpl. apply wp_add_int; [simpl; lia|]. wp_auto.
      exists [], m. split_and!; try done; [|intros _; apply mpsc_kept_refl]. split_and!; [done|simpl; congruence|]. intros _. simpl.
      split_and!; try done; unfold n_queue in *; simpl; lia.
  - exists q, m. split_and!; try done. split_and!; [done|auto|congruence].
Qed.

Lemma mpsc_acquire_spec futs p s q m :
  send_side futs p s q m →
  wp acquire s (λ r s', match r with
    | Ok _ => receiver s = true ∧ send_side futs (p + 1) s' q m ∧ same_rest s s'
    | Err e => s' = s ∧ e = if receiver s then Full tt else SendDisconnected tt
    end).
Proof.
  intros (Hrep & Hz & Hl). unfold acquire. wp_auto. destruct (receiver s) eqn:Er; simpl; wp_auto; [|done].
  destruct (Hl eq_refl) as (Hok & Hmk & Ha & Hsum & Hq). case_bool_decide as H0; wp_auto; [done|].
  apply wp_sub_int; [lia|]. wp_auto. split_and!; try done. split_and!; [done|simpl; congruence|]. intros _. simpl. unfold n_queue in *. simpl.
  split_and!; try done; [lia|lia|]. intros Hne. specialize (Hq Hne). lia.
Qed.

(** A value takes over the slot of a permit. *)
Lemma mpsc_enqueue_spec futs p s q m v :
  send_side futs (p + 1) s q m → receiver s = true →
  wp (enqueue v) s (λ ws s', send_side futs p s' q m ∧ recv_side s' ∧ queue s' = queue s ++ [v] ∧ ws = option_list (recv_waker s) ∧
    senders s' = senders s ∧ receiver s' = receiver s ∧ recv_waker s' = None).
Proof.
  intros (Hrep & Hz & Hl) Er. unfold enqueue. wp_auto. destruct (Hl Er) as (Hok & Hmk & Ha & Hsum & Hq). split_and!; try done.
  - split_and!; [done|done|]. intros _. simpl. unfold n_queue in *. simpl. rewrite length_app. simpl. split_and!; try done; lia.
  - split; simpl; [by intros [? ?]|congruence].
Qed.

(** A queued value leaves its slot. *)
Lemma mpsc_pop_spec futs p s q m :
  send_side futs p s q m → recv_side s → 0 <= p →
  wp pop s (λ r s', ∃ q' m', send_side futs p s' q' m' ∧ senders s' = senders s ∧ receiver s' = receiver s ∧ recv_waker s' = recv_waker s ∧
    match r with
    | Ok (v, o) => queue s = v :: queue s' ∧ (receiver s = true → kept None futs m futs m' (option_list o))
    | Err e => queue s = [] ∧ s' = s ∧ q' = q ∧ m' = m ∧ e = if bool_decide (senders s = 0) then Disconnected else Empty
    end).
Proof.
  intros Hs Hr Hp. unfold pop. wp_auto. destruct (queue s) as [|v rest] eqn:Eq; wp_auto; [exists q, m; by split_and!|].
  assert (send_side futs (p + 1) (set_queue rest s) q m) as Hs'.
  { destruct Hs as (Hrep & Hz & Hl). split_and!; [done|done|]. intros Er. destruct (Hl Er) as (? & ? & ? & Hsum & ?). simpl.
    unfold n_queue in *. rewrite Eq in Hsum. simpl in *. split_and!; try done; lia. }
  wp_apply mpsc_release_spec; [exact Hs'|done|]. intros o s' (q' & m' & Hs2 & (E1 & E2 & E3 & E4) & Hk). wp_auto.
  exists q', m'. simpl in *. rewrite E1. split_and!; done.
Qed.

(** ** What one operation does *)

(** Operations of senders and permits that do not wait. *)
Lemma mpsc_try_send_ok v x q m :
  sys_ok x q m → wp (exec (TrySend v)) x (λ o x', ∃ q' m', effect (TrySend v) x q m o x' q' m').
Proof.
  intros [Hs Hr Hp Hn]. unfold exec, try_send. wp_auto. wp_apply mpsc_acquire_spec; [done|]. intros r s' Hres. destruct r as [[]|e]; wp_auto.
  - destruct Hres as (Er & Hs' & E1 & E2 & E3 & E4). wp_apply mpsc_enqueue_spec; [done|congruence|].
    intros ws s2 (Hs2 & Hr2 & Eq & -> & F1 & F2 & F3). wp_auto. simpl. exists q, m.
    split; simpl; [|by rewrite Eq, E1|intros _; apply mpsc_kept_refl|]; [split; simpl; try done; congruence|].
    intros _ cx Hcx. right. rewrite E4, Hcx. set_solver.
  - destruct Hres as [-> ->]. destruct (receiver (st x)); wp_auto; exists q, m; split; simpl; auto using mpsc_kept_refl; by rewrite app_nil_r || by split.
Qed.

Lemma mpsc_try_reserve_ok x q m :
  sys_ok x q m → wp (exec TryReserve) x (λ o x', ∃ q' m', effect TryReserve x q m o x' q' m').
Proof.
  intros [Hs Hr Hp Hn]. unfold exec, try_reserve. wp_auto. wp_apply mpsc_acquire_spec; [done|]. intros r s' Hres. destruct r as [[]|e]; wp_auto; simpl.
  - destruct Hres as (Er & Hs' & Hsame). pose proof Hsame as (E1 & E2 & E3 & E4). exists q, m.
    split; simpl; [|by rewrite E1, app_nil_r|intros _; apply mpsc_kept_refl|rewrite E4; auto].
    split; simpl; [done|by eapply recv_side_same|lia|congruence].
  - destruct Hres as [-> _]. exists q, m. split; simpl; auto using mpsc_kept_refl; by rewrite app_nil_r || by split.
Qed.

Lemma mpsc_permit_ok l x q m :
  match l with PermitSend _ | PermitDrop => True | _ => False end →
  sys_ok x q m → enabled l x = true → wp (exec l) x (λ o x', ∃ q' m', effect l x q m o x' q' m').
Proof.
  intros Hl [Hs Hr Hp Hn] He. replace (permits x) with (permits x - 1 + 1) in Hs by lia.
  assert (0 < permits x) as Hpos by (destruct l; try done; by apply bool_decide_eq_true in He).
  assert (∀ (o : option Waker) s' q' m', send_side (reserves x) (permits x - 1) s' q' m' → same_rest (st x) s' →
    (receiver (st x) = true → kept None (reserves x) m (reserves x) m' (option_list o)) → about_reserve l = None →
    effect l x q m (mkObs [] [] [] (option_list o)) (mkSys s' (reserves x) (permits x + -1)) q' m') as Hdrop.
  { intros o s' q' m' Hs' Hsame Hk Hab. pose proof Hsame as (E1 & E2 & E3 & E4).
    split; simpl; [|by rewrite E1, app_nil_r|by rewrite Hab|rewrite E4; auto].
    split; simpl; [by replace (permits x + -1) with (permits x - 1) by lia|by eapply recv_side_same|lia|congruence]. }
  destruct l as [| |v| | | | | | | | |]; try done; unfold exec.
  - unfold permit_send, permit_drop. wp_auto. destruct (receiver (st x)) eqn:Er; simpl; wp_auto.
    + wp_apply mpsc_enqueue_spec; [done..|]. intros ws s2 (Hs2 & Hr2 & Eq & -> & F1 & F2 & F3). wp_auto. simpl. exists q, m.
      split; simpl; [|by rewrite Eq|intros _; apply mpsc_kept_refl|intros _ cx ->; right; set_solver].
      split; simpl; [by replace (permits x + -1) with (permits x - 1) by lia|done|lia|congruence].
    + wp_apply mpsc_release_spec; [done|lia|]. intros o s' (q' & m' & Hs' & Hsame & Hk). wp_auto. simpl. exists q', m'.
      apply (Hdrop o s' q' m'); try done; congruence.
  - unfold permit_drop. wp_auto. wp_apply mpsc_release_spec; [done|lia|]. intros o s' (q' & m' & Hs' & Hsame & Hk). wp_auto. simpl. exists q', m'.
    by apply (Hdrop o s' q' m').
Qed.

Lemma mpsc_bounded_senders_ok l x q m :
  match l with CloneSender | DropSender | ReserveNew _ => True | _ => False end →
  sys_ok x q m → enabled l x = true → wp (exec l) x (λ o x', ∃ q' m', effect l x q m o x' q' m').
Proof.
  intros Hl [Hs Hr Hp Hn] He. destruct l as [| | | |f| | | | | | |]; try done; apply bool_decide_eq_true in He; unfold exec; wp_auto; simpl.
  - exists q, m. split; simpl; [|by rewrite app_nil_r| |auto].
    + split; simpl; try done. destruct Hs as (Hrep & Hz & Hlv). split_and!; [done|done|]. intros Er. destruct (Hlv Er) as (Hok & ?).
      split; [|done]. apply waiters_ok_new; [done|by destruct He].
    + intros _ g wk _ (id & v & Hg & Hv). left. exists id, v. rewrite lookup_insert_ne; [done|]. intros <-. destruct He. congruence.
  - unfold clone_sender. wp_auto. apply wp_add_int; [unfold isize_max, usize_max in *; lia|]. wp_auto. exists q, m.
    split; simpl; [|by rewrite app_nil_r|intros _; apply mpsc_kept_refl|auto]. split; simpl; try done; [|lia].
    destruct Hr as [Hw Hcl]. split; [|done]. intros Hwk. destruct (Hw Hwk) as (? & ? & ?). simpl. split_and!; [done|lia|done].
  - unfold drop_sender. wp_auto. apply wp_sub_int; [lia|]. wp_auto. destruct Hr as [Hw Hcl]. case_bool_decide as Hz; wp_auto; simpl; exists q, m.
    + split; simpl; [|by rewrite app_nil_r|intros _; apply mpsc_kept_refl|intros _ cx ->; right; set_solver].
      split; simpl; try done; [|lia]. split; simpl; [by intros [? ?]|done].
    + split; simpl; [|by rewrite app_nil_r|intros _; apply mpsc_kept_refl|auto].
      split; simpl; try done; [|lia]. split; [|done]. intros Hwk. destruct (Hw Hwk) as (? & ? & ?). done.
Qed.

(** A reserve future without a waiter goes, or any one once the receiver is gone. *)
Lemma mpsc_side_drop futs p s q m f :
  send_side futs p s q m → futs !! f = Some None ∨ receiver s = false → send_side (delete f futs) p s q m.
Proof.
  intros (Hrep & Hz & Hl) Hf. split_and!; [done|done|]. intros Er. destruct Hf as [Hf|]; [|congruence].
  destruct (Hl Er) as (Hok & ?). split; [by apply waiters_ok_drop|done].
Qed.

(** The waiter of a future leaves; the slot it was granted, if any, is taken over. *)
Lemma mpsc_leave_spec futs p s q m f id (v : Waiter) w' :
  send_side futs p s q m → receiver s = true → futs !! f = Some (Some id) → m !! id = Some v →
  wq_rep w' (without id q) (delete id m) →
  send_side (delete f futs) (p + if grant v then 1 else 0) (set_send_waiters w' s) (without id q) (delete id m) ∧
  (∀ ws, kept (Some f) futs m (delete f futs) (delete id m) ws).
Proof.
  intros (Hrep & Hz & Hl) Er Hf Hv Hrep'. destruct (Hl Er) as (Hok & Hmk & Ha & Hsum & Hq).
  pose proof (waiters_ok_remove _ _ _ _ _ _ Hok Hf) as Hok'. apply (waiters_ok_drop _ _ _ _ f) in Hok'; [|apply lookup_insert_eq].
  rewrite delete_insert_eq in Hok'. split.
  - split_and!; [done|simpl; congruence|]. intros _. simpl. unfold n_queue in *. simpl. split_and!; [done|by apply marked_delete|done| |].
    + rewrite (detached_remove q m id v (wq_rep_nodup _ _ _ Hrep) Hv). pose proof (wo_waiting _ _ _ _ Hok id v Hv) as Hw.
      rewrite (Hmk id v Hv). case_bool_decide as Hwk.
      * rewrite decide_False; [lia|]. intros [? ?]%Hw. congruence.
      * rewrite decide_True; [lia|]. apply Hw. destruct (waker v); [by eexists|done].
    + intros Hne. apply Hq. by intros ->.
  - intros ws g wk Hne (i & u & Hi & Hm & Hu). left. exists i, u.
    assert (i ≠ id) by (intros ->; apply Hne; f_equal; by apply (wo_inj _ _ _ _ Hok f g id)). by rewrite !lookup_delete_ne by congruence.
Qed.

(** A future that waits registers, or renews its registration. *)
Lemma mpsc_wait_spec futs p s q m f cx o w' q' m' id (v : Waiter) :
  send_side futs p s q m → receiver s = true → futs !! f = Some o → wq_rep w' q' m' → available s = 0 →
  m' = <[id:=mkWaiter false (Some cx)]> m →
  (o = None ∧ m !! id = None ∧ q' = q ++ [id]) ∨ (o = Some id ∧ m !! id = Some v ∧ is_Some (waker v) ∧ q' = q) →
  send_side (<[f:=Some id]> futs) p (set_send_waiters w' s) q' m' ∧ (∀ ws, kept (Some f) futs m (<[f:=Some id]> futs) m' ws) ∧
  parked f cx (<[f:=Some id]> futs) m'.
Proof.
  intros (Hrep & Hz & Hl) Er Hf Hrep' Ha0 -> Hcase. destruct (Hl Er) as (Hok & Hmk & Ha & Hsum & Hq).
  assert (marked (<[id:=mkWaiter false (Some cx)]> m)) as Hmk' by (by apply marked_insert).
  assert (parked f cx (<[f:=Some id]> futs) (<[id:=mkWaiter false (Some cx)]> m)) as Hpk by (exists id, (mkWaiter false (Some cx)); by rewrite !lookup_insert_eq).
  assert (∀ ws, kept (Some f) futs m (<[f:=Some id]> futs) (<[id:=mkWaiter false (Some cx)]> m) ws) as Hk.
  { intros ws g wk Hne (i & u & Hi & Hm & Hu). left. exists i, u. assert (i ≠ id).
    { intros ->. destruct Hcase as [(_ & Hn & _)|(-> & _)]; [congruence|]. apply Hne. f_equal. by apply (wo_inj _ _ _ _ Hok f g id). }
    by rewrite !lookup_insert_ne by congruence. }
  split_and!; try done. split_and!; [done|simpl; congruence|]. intros _. simpl. unfold n_queue in *. simpl.
  destruct Hcase as [(-> & Hn & ->)|(-> & Hv & Hwk & ->)].
  - assert (id ∉ q) by (intros Hin; destruct (wq_rep_linked _ _ _ id Hrep Hin); congruence).
    split_and!; try done; [by apply waiters_ok_register|]. by rewrite detached_register.
  - assert (id ∈ q) by (by eapply wo_waiting). rewrite insert_id by done.
    split_and!; try done; [by apply waiters_ok_refresh|]. by rewrite detached_update by eauto.
Qed.

Lemma mpsc_reserve_poll_ok f cx x q m :
  sys_ok x q m → enabled (ReservePoll f cx) x = true →
  wp (exec (ReservePoll f cx)) x (λ o x', ∃ q' m', effect (ReservePoll f cx) x q m o x' q' m' ∧
    (is_Some (reserves x' !! f) → receiver (st x) = true ∧ parked f cx (reserves x') m')).
Proof.
  intros [Hs Hr Hp Hn] [[i Hi] Hroom]%enabled_and. unfold exec. wp_auto. eapply wp_expect; [done|]. wp_auto. unfold reserve_poll. wp_auto.
  assert (∀ s' n q' m', send_side (delete f (reserves x)) (permits x + n) s' q' m' → same_rest (st x) s' → 0 <= n →
    (∀ ws, kept (Some f) (reserves x) m (delete f (reserves x)) m' ws) →
    ∃ q' m', effect (ReservePoll f cx) x q m silent (mkSys s' (delete f (reserves x)) (permits x + n)) q' m' ∧
    (is_Some (delete f (reserves x) !! f) → receiver (st x) = true ∧ parked f cx (delete f (reserves x)) m')) as Hgo.
  { intros s' n q' m' Hs' Hsame Hn' Hk. pose proof Hsame as (E1 & E2 & E3 & E4). exists q', m'. split; [|intros H; rewrite lookup_delete_eq in H; by destruct H].
    split; simpl; [|by rewrite E1, app_nil_r|auto|rewrite E4; auto]. split; simpl; [done|by eapply recv_side_same|lia|congruence]. }
  assert (∀ id w' q' m', send_side (<[f:=Some id]> (reserves x)) (permits x) (set_send_waiters w' (st x)) q' m' ∧
      (∀ ws, kept (Some f) (reserves x) m (<[f:=Some id]> (reserves x)) m' ws) ∧ parked f cx (<[f:=Some id]> (reserves x)) m' →
    receiver (st x) = true →
    ∃ q' m', effect (ReservePoll f cx) x q m silent (mkSys (set_send_waiters w' (st x)) (<[f:=Some id]> (reserves x)) (permits x)) q' m' ∧
    (is_Some (<[f:=Some id]> (reserves x) !! f) → receiver (st x) = true ∧ parked f cx (<[f:=Some id]> (reserves x)) m')) as Hstay.
  { intros id w' q' m' (Hs' & Hk & Hpk) Er. exists q', m'. split; [|done]. split; simpl; [|by rewrite app_nil_r|auto|auto]. by split. }
  destruct (receiver (st x)) eqn:Er; simpl; wp_auto; simpl.
  2: { specialize (Hgo (st x) 0 q m). rewrite Z.add_0_r in Hgo. apply Hgo; [apply mpsc_side_drop; auto|by split_and!|done|intros; apply mpsc_kept_delete]. }
  pose proof Hs as (Hrep & Hz & Hl). destruct (Hl Er) as (Hok & Hmk & Ha & Hsum & Hq). destruct i as [id|]; wp_auto.
  - destruct (waiters_ok_owner _ _ _ _ _ _ Hok Hi) as [v Hv]. wp_apply wq_waiter_spec; [done..|]. intros v' w' [-> ->].
    pose proof (Hmk id v Hv) as Hg. pose proof (wo_waiting _ _ _ _ Hok id v Hv) as Hw. destruct (grant v) eqn:Eg; wp_auto.
    + assert (id ∉ q) as Hni by (intros [wk Hwk]%Hw; rewrite Hwk in Hg; done).
      wp_apply wq_remove_spec; [done..|]. intros v' w' (-> & Hrep' & _). wp_auto. simpl.
      rewrite <-(filter_neq_id id q Hni) in Hrep'. destruct (mpsc_leave_spec _ _ _ _ _ f id v w' Hs Er Hi Hv Hrep') as [Hs' Hk]. rewrite Eg in Hs'.
      by apply (Hgo _ 1 _ _ Hs').
    + assert (is_Some (waker v)) as Hwk by (destruct (waker v); [by eexists|done]). assert (id ∈ q) as Hin by (by apply Hw).
      wp_apply wq_set_waiter_spec; [done|by eauto|]. intros _ w' [Hrep' _]. wp_auto. simpl. rewrite register_waker_some in Hrep'.
      eapply Hstay; [|done]. eapply (mpsc_wait_spec _ _ _ q m f cx (Some id) w' q _ id v); try done; [|by right]. apply Hq. intros ->. set_solver.
  - case_bool_decide as H0; simpl; wp_auto.
    + wp_apply wq_push_back_spec; [done..|]. intros id w' [Hni Hrep']. wp_auto. simpl.
      eapply Hstay; [|done]. eapply (mpsc_wait_spec _ _ _ q m f cx None w' (q ++ [id]) _ id (mkWaiter false None)); try done. by left.
    + apply wp_sub_int; [lia|]. wp_auto. simpl. apply (Hgo _ 1 q m); try done; [|intros; apply mpsc_kept_delete]. apply mpsc_side_drop; [|by left].
      split_and!; [done|simpl; congruence|]. intros _. simpl. unfold n_queue in *. simpl. split_and!; try done; [lia|lia|]. intros Hne. specialize (Hq Hne). lia.
Qed.

Lemma mpsc_reserve_drop_ok f x q m :
  sys_ok x q m → enabled (ReserveDrop f) x = true →
  wp (exec (ReserveDrop f)) x (λ o x', ∃ q' m', effect (ReserveDrop f) x q m o x' q' m').
Proof.
  intros [Hs Hr Hp Hn] [i Hi]%bool_decide_eq_true. unfold exec. wp_auto. eapply wp_expect; [done|]. wp_auto. unfold reserve_drop. wp_auto.
  assert (∀ s' ws q' m', send_side (delete f (reserves x)) (permits x) s' q' m' → same_rest (st x) s' →
    (receiver (st x) = true → kept (Some f) (reserves x) m (delete f (reserves x)) m' ws) →
    ∃ q' m', effect (ReserveDrop f) x q m (mkObs [] [] [] ws) (mkSys s' (delete f (reserves x)) (permits x)) q' m') as Hgo.
  { intros s' ws q' m' Hs' Hsame Hk. pose proof Hsame as (E1 & E2 & E3 & E4). exists q', m'.
    split; simpl; [|by rewrite E1, app_nil_r|auto|rewrite E4; auto]. split; simpl; [done|by eapply recv_side_same|lia|congruence]. }
  assert (i = None ∨ receiver (st x) = false →
    ∃ q' m', effect (ReserveDrop f) x q m (mkObs [] [] [] []) (mkSys (st x) (delete f (reserves x)) (permits x)) q' m') as Hid.
  { intros Hi'. apply (Hgo (st x) [] q m); [|by split_and!|intros; apply mpsc_kept_delete]. apply mpsc_side_drop; [done|]. destruct Hi' as [-> |?]; auto. }
  destruct i as [id|]; wp_auto; [|by auto]. destruct (receiver (st x)) eqn:Er; simpl; wp_auto; [|by auto].
  pose proof Hs as (Hrep & Hz & Hl). destruct (Hl Er) as (Hok & _). destruct (waiters_ok_owner _ _ _ _ _ _ Hok Hi) as [v Hv].
  wp_apply remove_waiter_spec; [done..|]. intros v' w' (-> & Hrep' & _). wp_auto.
  destruct (mpsc_leave_spec _ _ _ _ _ f id v w' Hs Er Hi Hv Hrep') as [Hs' Hk]. destruct (grant v); wp_auto.
  - wp_apply mpsc_release_spec; [exact Hs'|done|]. intros o s2 (q2 & m2 & Hs2 & Hsame & Hk2). wp_auto. simpl.
    apply (Hgo s2 (option_list o) q2 m2); [done|done|]. intros _ g wk Hne Hpk.
    destruct (Hk [] g wk Hne Hpk) as [Hpk'|]; [|set_solver]. by apply Hk2.
  - rewrite Z.add_0_r in Hs'. simpl. apply (Hgo (set_send_waiters w' (st x)) [] _ _ Hs'); [by split_and!|auto].
Qed.

(** Receiving: the answer is exact, and a pending receive is registered. *)
Definition poll_answer cx s (r : Poll (result T RecvError)) s' : Prop :=
  match queue s with
  | v :: rest => r = Ready (Ok v) ∧ queue s' = rest ∧ recv_waker s' = recv_waker s
  | [] => queue s' = [] ∧
      if bool_decide (senders s = 0) then r = Ready (Err RecvDisconnected) ∧ recv_waker s' = None
      else r = Pending ∧ recv_waker s' = Some cx
  end.

Lemma mpsc_poll_recv_spec cx futs p s q m :
  send_side futs p s q m → recv_side s → 0 <= p → receiver s = true →
  wp (poll_recv cx) s (λ r s', ∃ q' m', send_side futs p s' q' m' ∧ recv_side s' ∧ kept None futs m futs m' r.2 ∧
    senders s' = senders s ∧ receiver s' = receiver s ∧ poll_answer cx s r.1 s').
Proof.
  intros Hs Hr Hp Er. unfold poll_recv, poll_answer. wp_auto. wp_apply mpsc_pop_spec; [done..|].
  intros r s' (q' & m' & Hs' & E1 & E2 & E3 & Ha). destruct r as [[v o]|e]; wp_auto.
  - destruct Ha as [Eq Hk]. rewrite Eq. exists q', m'. split_and!; auto.
    destruct Hr as [Hw Hcl]. split; rewrite E2, ?E3; [|congruence]. intros Hwk. destruct (Hw Hwk). congruence.
  - destruct Ha as (Eq & -> & -> & -> & ->). rewrite Eq. case_bool_decide as Hz; wp_auto; simpl; exists q, m.
    + split_and!; auto; [|apply mpsc_kept_refl]. split; simpl; [by intros [? ?]|done].
    + split_and!; auto; [|apply mpsc_kept_refl|apply register_waker_some]. split; simpl; [done|congruence].
Qed.

Lemma mpsc_bounded_receiver_ok l x q m :
  match l with TryRecv | PollRecv _ | DropReceiver => True | _ => False end →
  sys_ok x q m → enabled l x = true → wp (exec l) x (λ o x', ∃ q' m', effect l x q m o x' q' m').
Proof.
  intros Hl [Hs Hr Hp Hn] He. destruct l as [| | | | | | | |cx| | |]; try done; simpl in He; unfold exec.
  - unfold try_recv. wp_auto. wp_apply mpsc_pop_spec; [done..|]. intros r s' (q' & m' & Hs' & E1 & E2 & E3 & Ha). destruct r as [[v o]|e]; wp_auto; simpl.
    + destruct Ha as [Eq Hk]. exists q', m'. split; simpl; [|by rewrite Eq, app_nil_r|auto|rewrite E3; auto].
      split; simpl; [done| |done|congruence]. destruct Hr as [Hw Hcl]. split; rewrite E2, ?E3; [|congruence]. intros Hwk. destruct (Hw Hwk). congruence.
    + destruct Ha as (Eq & -> & -> & -> & ->). exists q, m. split; simpl; [|by rewrite app_nil_r|intros _; apply mpsc_kept_refl|auto]. by split.
  - wp_auto. wp_apply (mpsc_poll_recv_spec cx); [done..|]. intros [r ws] s' (q' & m' & Hs' & Hr' & Hk & E1 & E2 & Ha). wp_auto. simpl. exists q', m'.
    split; simpl; [|rewrite app_nil_r|auto|done]; [split; simpl; try done; congruence|]. unfold poll_answer in Ha. simpl in Ha.
    destruct (queue (st x)); [|by destruct Ha as (-> & -> & _)]. destruct Ha as [-> Ha]. case_bool_decide; destruct Ha as [-> _]; done.
  - unfold receiver_drop. wp_auto. destruct Hs as (Hrep & Hz & Hlv). destruct (Hlv He) as (Hok & _). apply wp_run_local.
    wp_apply (mpsc_drain_spec (send_waiters (st x)) (reserves x) (reserves x) q m ∅); [done..| |].
    { rewrite (wq_len_spec _ _ _ Hrep). pose proof (rep_length_le _ _ _ Hrep). lia. }
    intros ws _ Hk. wp_auto. simpl. exists [], ∅. split; simpl; [|by rewrite !app_nil_r|auto|done].
    split; simpl; try done; [|split; simpl; [by intros [? ?]|done]]. split_and!; [apply wq_new_rep|done|done].
Qed.

Lemma mpsc_bounded_exec_ok l x q m :
  sys_ok x q m → enabled l x = true → wp (exec l) x (λ o x', ∃ q' m', effect l x q m o x' q' m').
Proof.
  intros Hx He. destruct l; try (by apply mpsc_permit_ok); try (by apply mpsc_bounded_senders_ok); try (by apply mpsc_bounded_receiver_ok);
    auto using mpsc_try_send_ok, mpsc_try_reserve_ok, mpsc_reserve_drop_ok.
  eapply wp_mono; [by apply mpsc_reserve_poll_ok|]. naive_solver.
Qed.

Lemma mpsc_bounded_init_ok : sys_ok (init c) [] ∅.
Proof.
  split; simpl; [|done..]. split_and!; [apply wq_new_rep|done|]. intros _. simpl. unfold n_queue, detached_count. simpl. rewrite map_size_empty.
  split_and!; try done; [apply waiters_ok_empty|lia|simpl; lia].
Qed.

Lemma mpsc_bounded_reachable ls tr x : returns (run enabled exec ls) (init c) tr x → ∃ q m, sys_ok x q m.
Proof.
  apply (run_invariant enabled exec (λ x, ∃ q m, sys_ok x q m)); [|eexists _, _; apply mpsc_bounded_init_ok].
  intros y l (q & m & Hy) He. eapply wp_mono; [by apply mpsc_bounded_exec_ok|]. intros o y' (q' & m' & He'). exists q', m'. apply He'.
Qed.
End invariant.

(** ** Properties *)
Section properties.
Context {W : Type → Type} `{!WaitQueue W} {T : Type} (c : Z).
Implicit Types (x : Sys W T) (l : Label T) (f : nat).

(** C39: while the receiver lives, the slots of the buffer are conserved over every run: those
    available, the queued values, the permits and the slots granted to waiters add up to the capacity,
    so the buffer never exceeds it, and a sender waits only when no slot is available.  No operation
    panics. *)
Theorem mpsc_slots_conserved ls tr x :
  0 < c <= usize_max → returns (run enabled exec ls) (init c) tr x → receiver (st x) = true →
  no_panic enabled exec x ∧
  ∃ q m, wq_rep (send_waiters (st x)) q m ∧ waiters_ok waker (reserves x) q m ∧ 0 <= available (st x) ∧
    available (st x) + n_queue (st x) + permits x + detached_count q m = c ∧ (q ≠ [] → available (st x) = 0) ∧ n_queue (st x) <= c.
Proof.
  intros Hc (q & m & Hx)%(mpsc_bounded_reachable c Hc) Er. split; [apply (no_panic_wp _ _ _ _ (λ l, mpsc_bounded_exec_ok c Hc l x q m Hx))|].
  destruct Hx as [(Hrep & _ & Hl) _ Hp _]. destruct (Hl Er) as (Hok & _ & Ha & Hsum & Hq).
  exists q, m. pose proof (detached_nonneg _ _ _ Hrep). split_and!; try done. lia.
Qed.

(** Values are received in the order they were accepted, over every run. *)
Theorem mpsc_bounded_fifo ls tr x :
  0 < c <= usize_max → returns (run enabled exec ls) (init c) tr x →
  concat (accepted <$> tr.*2) = concat ((λ o, received o ++ discarded o) <$> tr.*2) ++ queue (st x).
Proof.
  intros Hc Hr. set (I := λ (tr : list (Label T * Obs T)) x, (∃ q m, sys_ok c x q m) ∧
    concat (accepted <$> tr.*2) = concat ((λ o, received o ++ discarded o) <$> tr.*2) ++ queue (st x)).
  cut (I ([] ++ tr) x); [by intros [_ ?]|]. refine (run_trace_invariant enabled exec I ls (init c) tr x _ [] _ Hr).
  2: { split; [eexists _, _; by apply mpsc_bounded_init_ok|done]. }
  clear Hr tr x ls. intros tr x l [(q & m & Hx) Heq] He. eapply wp_mono; [by apply (mpsc_bounded_exec_ok c)|].
  intros o x' (q' & m' & [Hok Hord _ _]). split; [by eexists _, _|].
  rewrite !fmap_app, !concat_app, Heq. simpl. rewrite !app_nil_r, <-!app_assoc, Hord. done.
Qed.

(** The promises of a future that waits. *)
Definition reserve_waits f cx x : Prop := ∃ q m, sys_ok c x q m ∧ receiver (st x) = true ∧ parked f cx (reserves x) m.

Lemma mpsc_exec_waits l x f cx :
  0 < c <= usize_max → (∃ q m, sys_ok c x q m) → enabled l x = true → about_reserve l ≠ Some f →
  wp (exec l) x (λ o x', (∃ q m, sys_ok c x' q m) ∧ (reserve_waits f cx x → reserve_waits f cx x' ∨ cx ∈ woken o)).
Proof.
  intros Hc (q0 & m0 & Hx0) He Hne. destruct (proj1 (wp_returns _ _ _) (mpsc_bounded_exec_ok c Hc l x q0 m0 Hx0 He)) as (o & x' & Hx & q1 & m1 & He1).
  apply wp_returns. exists o, x'. split; [done|]. split; [exists q1, m1; apply He1|].
  intros (q & m & Hg & Er & Hp). destruct (wp_returns_elim _ _ _ _ _ (mpsc_bounded_exec_ok c Hc l x q m Hg He) Hx) as (q' & m' & Hef).
  destruct (ef_reserve _ _ _ _ _ _ _ _ _ Hef Er f cx Hne Hp) as [Hp'|]; [left|by right]. exists q', m'. split_and!; [apply Hef| |done].
  destruct (sy_send _ _ _ _ (ef_ok _ _ _ _ _ _ _ _ _ Hef)) as (_ & Hz & _). destruct (receiver (st x')); [done|].
  destruct Hp' as (id & v & _ & Hm & _). by rewrite Hz in Hm.
Qed.

(** A pending reservation is never forgotten: after the poll that left it pending, whatever the
    others do, its task has been woken, or the receiver lives and no slot is available. *)
Theorem mpsc_reserve_not_forgotten ls tr x f cx o x1 ls' tr' x2 :
  0 < c <= usize_max → returns (run enabled exec ls) (init c) tr x → enabled (ReservePoll f cx) x = true →
  returns (exec (ReservePoll f cx)) x o x1 → is_Some (reserves x1 !! f) →
  Forall (λ l, bool_decide (about_reserve l ≠ Some f) = true) ls' → returns (run enabled exec ls') x1 tr' x2 →
  Exists (λ e, cx ∈ woken e.2) tr' ∨ (receiver (st x2) = true ∧ available (st x2) = 0).
Proof.
  intros Hc (q & m & Hok)%(mpsc_bounded_reachable c Hc) He Hx Hp Hls Hr.
  destruct (wp_returns_elim _ _ _ _ _ (mpsc_reserve_poll_ok c Hc f cx x q m Hok He) Hx) as (q1 & m1 & Hef & [Er Hpk]%(λ H, H Hp)).
  assert (reserve_waits f cx x1) as HR.
  { exists q1, m1. split_and!; [apply Hef| |done]. destruct (sy_send _ _ _ _ (ef_ok _ _ _ _ _ _ _ _ _ Hef)) as (_ & Hz & _).
    destruct (receiver (st x1)); [done|]. destruct Hpk as (id & v & _ & Hm & _). by rewrite Hz in Hm. }
  edestruct (run_promise enabled exec (λ x, ∃ q m, sys_ok c x q m) (reserve_waits f cx) (λ o, cx ∈ woken o)
    (λ l, bool_decide (about_reserve l ≠ Some f))) as [(q2 & m2 & Hg2 & Er2 & Hp2)|?]; [|exists q1, m1; apply Hef|done|done|done|right|by left].
  - intros y l Hy Hl Hab%bool_decide_eq_true. by apply mpsc_exec_waits.
  - split; [done|]. destruct (sy_send _ _ _ _ Hg2) as (Hrep & _ & Hlive). destruct (Hlive Er2) as (Hok2 & _ & _ & _ & Hq). apply Hq.
    destruct Hp2 as (id & v & Hf & Hm & Hv). assert (id ∈ q2) as Hin by (eapply wo_waiting; [done..|by eexists]). intros E. rewrite E in Hin. set_solver.
Qed.

(** A pending receive is never forgotten: its task has been woken, or nothing is queued, a sender
    remains and its waker is still registered. *)
Theorem mpsc_bounded_receive_not_forgotten ls tr x cx ws x1 ls' tr' x2 :
  0 < c <= usize_max → returns (run enabled exec ls) (init c) tr x → enabled (PollRecv cx) x = true →
  returns (on_st (poll_recv cx)) x (Pending, ws) x1 →
  Forall (λ l, negb (by_receiver l) = true) ls' → returns (run enabled exec ls') x1 tr' x2 →
  Exists (λ e, cx ∈ woken e.2) tr' ∨ (queue (st x2) = [] ∧ senders (st x2) ≠ 0 ∧ recv_waker (st x2) = Some cx).
Proof.
  intros Hc (q & m & [Hs Hrv Hp Hn])%(mpsc_bounded_reachable c Hc) He Hx Hls Hr.
  assert (wp (on_st (poll_recv cx)) x (λ r x', (∃ q m, sys_ok c x' q m) ∧ (r.1 = Pending → recv_waker (st x') = Some cx))) as Hwp.
  { wp_auto. wp_apply (mpsc_poll_recv_spec c Hc cx); [done..|]. intros r s' (q' & m' & Hs' & Hr' & _ & E1 & E2 & Ha). simpl. split.
    - exists q', m'. split; simpl; try done. congruence.
    - intros Epd. unfold poll_answer in Ha. rewrite Epd in Ha. destruct (queue (st x)); [|by destruct Ha]. destruct Ha as [_ Ha]. case_bool_decide; by destruct Ha. }
  destruct (wp_returns_elim _ _ _ _ _ Hwp Hx) as [Hok1 Hw1]. specialize (Hw1 eq_refl).
  edestruct (run_promise enabled exec (λ x, ∃ q m, sys_ok c x q m) (λ x, (∃ q m, sys_ok c x q m) ∧ recv_waker (st x) = Some cx) (λ o, cx ∈ woken o)
    (λ l, negb (by_receiver l))) as [[(q2 & m2 & Hok2) Hw2]|?]; [|exact Hok1|done|done|done|right|by left].
  - intros y l (q' & m' & Hy) Hl Hb%negb_true_iff. eapply wp_mono; [by apply (mpsc_bounded_exec_ok c)|]. intros o y' (q3 & m3 & [Hy' _ _ Hk]).
    split; [by eexists _, _|]. intros [_ Hw]. destruct (Hk Hb cx Hw); [left|by right]. split; [by eexists _, _|done].
  - destruct (sy_recv _ _ _ _ Hok2) as [Hw _]. destruct Hw as (? & ? & _); [by eexists|]. done.
Qed.

(** A permit is worth a slot: while the receiver lives, sending with it always succeeds and
    appends the value, whatever happened since it was obtained. *)
Theorem mpsc_permit_send_succeeds ls tr x v :
  0 < c <= usize_max → returns (run enabled exec ls) (init c) tr x → 0 < permits x → receiver (st x) = true →
  ∃ ws s', returns (permit_send v) (st x) (Ok tt, ws) s' ∧ queue s' = queue (st x) ++ [v] ∧ n_queue s' <= c ∧ ws = option_list (recv_waker (st x)).
Proof.
  intros Hc (q & m & [Hs Hrv Hp Hn])%(mpsc_bounded_reachable c Hc) Hpos Er. replace (permits x) with (permits x - 1 + 1) in Hs by lia.
  cut (wp (permit_send v) (st x) (λ r s', r.1 = Ok tt ∧ queue s' = queue (st x) ++ [v] ∧ n_queue s' <= c ∧ r.2 = option_list (recv_waker (st x)))).
  { intros ([r ws] & s' & Hret & Hr & H)%wp_returns. simpl in *. subst r. by exists ws, s'. }
  unfold permit_send. wp_auto. rewrite Er. simpl. wp_auto. wp_apply (mpsc_enqueue_spec c); [done..|].
  intros ws s2 ((Hrep & _ & Hl) & _ & Eq & -> & _ & E2 & _). wp_auto. split_and!; try done. destruct Hl as (_ & _ & ? & ? & _); [congruence|].
  pose proof (detached_nonneg _ _ _ Hrep). lia.
Qed.
End properties.

(** One slot: the second sender reserves and waits until the first value is taken. *)
Definition full_run : list (Label nat) := [TrySend 7%nat; ReserveNew 0].
Definition taken_run : list (Label nat) := [ReservePoll 0 100%nat; TryRecv; ReservePoll 0 101%nat].

Lemma mpsc_slots_conserved_witness :
  ∃ tr (x : Sys WaitList nat), returns (run enabled exec (full_run ++ taken_run)) (init 1) tr x ∧ permits x = 1 ∧
    ∃ q m, wq_rep (send_waiters (st x)) q m ∧ waiters_ok waker (reserves x) q m ∧ 0 <= available (st x) ∧
      available (st x) + n_queue (st x) + permits x + detached_count q m = 1 ∧ (q ≠ [] → available (st x) = 0) ∧ n_queue (st x) <= 1.
Proof.
  eexists _, _. split; [vm_compute; reflexivity|]. split; [reflexivity|].
  eapply (mpsc_slots_conserved 1 (full_run ++ taken_run)); [done|vm_compute; reflexivity|done].
Defined.

Lemma mpsc_bounded_fifo_witness :
  ∃ tr (x : Sys WaitList nat), returns (run enabled exec (full_run ++ taken_run ++ [PermitSend 8%nat])) (init 1) tr x ∧
    concat (accepted <$> tr.*2) = [7; 8]%nat ∧
    concat (accepted <$> tr.*2) = concat ((λ o, received o ++ discarded o) <$> tr.*2) ++ queue (st x).
Proof.
  eexists _, _. split; [vm_compute; reflexivity|]. split; [reflexivity|].
  eapply (mpsc_bounded_fifo 1 (full_run ++ taken_run ++ [PermitSend 8%nat])); [done|vm_compute; reflexivity].
Defined.

Lemma mpsc_reserve_not_forgotten_witness :
  ∃ tr (x : Sys WaitList nat) o x1 tr' x2, returns (run enabled exec full_run) (init 1) tr x ∧ returns (exec (ReservePoll 0 100%nat)) x o x1 ∧
    returns (run enabled exec [TryRecv]) x1 tr' x2 ∧
    (Exists (λ e, 100%nat ∈ woken e.2) tr' ∨ (receiver (st x2) = true ∧ available (st x2) = 0)).
Proof.
  eexists _, _, _, _, _, _. split; [vm_compute; reflexivity|]. split; [vm_compute; reflexivity|]. split; [vm_compute; reflexivity|].
  eapply (mpsc_reserve_not_forgotten 1 full_run _ _ 0 100%nat _ _ [TryRecv]);
    [done|vm_compute; reflexivity|vm_compute; reflexivity|vm_compute; reflexivity|by eexists|by repeat constructor|vm_compute; reflexivity].
Defined.

Lemma mpsc_bounded_receive_not_forgotten_witness :
  ∃ (x : Sys WaitList nat) ws x1 tr' x2, returns (run enabled exec []) (init 1) [] x ∧ returns (on_st (poll_recv 200%nat)) x (Pending, ws) x1 ∧
    returns (run enabled exec [TrySend 7%nat]) x1 tr' x2 ∧
    (Exists (λ e, 200%nat ∈ woken e.2) tr' ∨ (queue (st x2) = [] ∧ senders (st x2) ≠ 0 ∧ recv_waker (st x2) = Some 200%nat)).
Proof.
  eexists _, _, _, _, _. split; [vm_compute; reflexivity|]. split; [vm_compute; reflexivity|]. split; [vm_compute; reflexivity|].
  eapply (mpsc_bounded_receive_not_forgotten 1 [] _ _ 200%nat _ _ [TrySend 7%nat]);
    [done|vm_compute; reflexivity|vm_compute; reflexivity|vm_compute; reflexivity|by repeat constructor|vm_compute; reflexivity].
Defined.

Lemma mpsc_permit_send_succeeds_witness :
  ∃ tr (x : Sys WaitList nat), returns (run enabled exec (full_run ++ taken_run)) (init 1) tr x ∧
    ∃ ws s', returns (permit_send 8%nat) (st x) (Ok tt, ws) s' ∧ queue s' = queue (st x) ++ [8%nat] ∧ n_queue s' <= 1 ∧
      ws = option_list (recv_waker (st x)).
Proof.
  eexists _, _. split; [vm_compute; reflexivity|].
  eapply (mpsc_permit_send_succeeds 1 (full_run ++ taken_run)); [done|vm_compute; reflexivity|done|done].
Defined.
