(* ===== verification/Countdown.v ===== *)
(** * The countdown and the latch

    [asyncband/src/internal/countdown.rs] and [asyncband/src/latch/mod.rs].  The count is an atomic
    that only decreases; the transition to zero is terminal and its author wakes the registered
    futures.  A decrement is a thread whose steps are its atomic accesses; a poll is the unlocked
    probe followed by the locked section, which reads the count once and is atomic at that read. *)
From S2P Require Import Prelude Arena WakerBatch WakerSet.

Record CountdownState : Type := mkCountdown {
  state : Z;
  waiters : WakerSet;
}.

Definition set_state (n : Z) (s : CountdownState) : CountdownState := mkCountdown n (waiters s).
Definition set_waiters (w : WakerSet) (s : CountdownState) : CountdownState := mkCountdown (state s) w.
Definition in_waiters {A : Type} (m : M WakerSet A) : M CountdownState A := zoom waiters set_waiters m.
#[export] Hint Unfold in_waiters : band_zoom.

Definition new (count : Z) : CountdownState := mkCountdown count wakerset_new.

(** A weak exchange may fail spuriously, with the expected value as the one observed. *)
Definition cas_state (spurious : bool) (current next : Z) : M CountdownState (result unit Z) :=
  s ← gets state;
  if negb spurious && bool_decide (s = current)
  then modify (set_state next);; mret (Ok tt)
  else mret (Err s).

Definition wake_all : M CountdownState (list Waker) :=
  s ← get;
  put (set_waiters wakerset_new s);;
  mret (set_wake_all (waiters s)).

Definition try_wait (s : CountdownState) : result unit Z :=
  if bool_decide (state s = 0) then Ok tt else Err (state s).

(** [poll_wait] up to the lock: the token afterwards and whether the poll is ready. *)
Definition poll_probe (token : option WakerToken) (s : CountdownState) : option WakerToken * bool :=
  match try_wait s with
  | Ok _ => (None, true)
  | Err _ => (token, false)
  end.

Definition poll_locked (token : option WakerToken) (cx : Waker)
    : M CountdownState (option WakerToken * Poll unit) :=
  s ← get;
  if bool_decide (state s = 0) then mret (None, Ready tt)
  else
    '(token, _) ← in_waiters (register token cx);
    mret (token, Pending).

Definition unregister (token : option WakerToken) : M CountdownState (option WakerToken) :=
  match token with
  | None => mret None
  | Some _ =>
      s ← get;
      if bool_decide (state s = 0) then mret None
      else
        '(token, _) ← in_waiters (WakerSet.unregister token);
        mret token
  end.

(** One turn of the loop of [decrement]: its result, or the count observed for the next turn. *)
Definition decrement_turn (spurious : bool) (n cnt : Z) : M CountdownState (bool + Z) :=
  if bool_decide (cnt = 0) then mret (inl false)
  else
    let new_cnt := saturating_sub cnt n in
    r ← cas_state spurious cnt new_cnt;
    match r with
    | Ok _ => mret (inl (bool_decide (new_cnt = 0)))
    | Err x => mret (inr x)
    end.

(** ** The latch *)

(** The points [arrive] passes: in the loop of [decrement], and about to call [wake_all]. *)
Inductive Pc : Type :=
| Decrement (n cnt : Z)
| WakeAll.

Record Latch : Type := mkLatch {
  latch_state : CountdownState;
  waits : tokens;
  threads : gmap nat Pc;
}.

Definition set_latch_state (s : CountdownState) (x : Latch) : Latch := mkLatch s (waits x) (threads x).
Definition set_waits (g : tokens) (x : Latch) : Latch := mkLatch (latch_state x) g (threads x).
Definition set_threads (g : gmap nat Pc) (x : Latch) : Latch := mkLatch (latch_state x) (waits x) g.
Definition on_state {A : Type} (m : M CountdownState A) : M Latch A := zoom latch_state set_latch_state m.
#[export] Hint Unfold on_state : band_zoom.

Definition latch_new (count : Z) : Latch := mkLatch (new count) ∅ ∅.
Definition count (x : Latch) : Z := state (latch_state x).

(** What a step shows: a wait completed, a decrement returned with this result, tasks woken. *)
Record Obs : Type := mkObs {
  completed : bool;
  decremented : option bool;
  woken : list Waker;
}.
Definition silent : Obs := mkObs false None [].

(** [arrive(n)] up to its first load of the count. *)
Definition arrive (d : nat) (n : Z) : M Latch Obs :=
  x ← get;
  (if bool_decide (n = 0) then mret tt
   else modify (set_threads (<[d:=Decrement n (count x)]> (threads x))));;
  mret silent.

Definition count_down (d : nat) : M Latch Obs := arrive d 1.

(** The next step of the arrival [d]. *)
Definition arrive_step (spurious : bool) (d : nat) : M Latch Obs :=
  x ← get;
  pc ← expect (threads x !! d) "no such thread";
  match pc with
  | Decrement n cnt =>
      r ← on_state (decrement_turn spurious n cnt);
      match r with
      | inl true => modify (set_threads (<[d:=WakeAll]> (threads x)));; mret (mkObs false (Some true) [])
      | inl false => modify (set_threads (delete d (threads x)));; mret (mkObs false (Some false) [])
      | inr cnt' => modify (set_threads (<[d:=Decrement n cnt']> (threads x)));; mret silent
      end
  | WakeAll =>
      ws ← on_state wake_all;
      modify (set_threads (delete d (threads x)));;
      mret (mkObs false None ws)
  end.

(** The futures of [wait] and [wait_owned]. *)
Definition wait_new (f : nat) : M Latch Obs :=
  x ← get;
  put (set_waits (<[f:=None]> (waits x)) x);;
  mret silent.

Definition wait_probe (f : nat) : M Latch Obs :=
  x ← get;
  token ← expect (waits x !! f) "no such future";
  let (token, ready) := poll_probe token (latch_state x) in
  modify (set_waits (<[f:=token]> (waits x)));;
  mret (mkObs ready None []).

Definition wait_poll (f : nat) (cx : Waker) : M Latch Obs :=
  x ← get;
  token ← expect (waits x !! f) "no such future";
  '(token, r) ← on_state (poll_locked token cx);
  modify (set_waits (<[f:=token]> (waits x)));;
  mret (mkObs (match r with Ready _ => true | Pending => false end) None []).

Definition wait_drop (f : nat) : M Latch Obs :=
  x ← get;
  token ← expect (waits x !! f) "no such future";
  on_state (unregister token);;
  modify (set_waits (delete f (waits x)));;
  mret silent.

Inductive Label : Type :=
| CountDown (d : nat)
| Arrive (d : nat) (n : Z)
| Step (spurious : bool) (d : nat)
| WaitNew (f : nat)
| WaitProbe (f : nat)
| WaitPoll (f : nat) (cx : Waker)
| WaitDrop (f : nat).

Definition enabled (l : Label) (x : Latch) : bool :=
  match l with
  | CountDown d => bool_decide (threads x !! d = None)
  | Arrive d n => bool_decide (threads x !! d = None) && bool_decide (0 <= n <= u32_max)
  | Step _ d => bool_decide (is_Some (threads x !! d))
  | WaitNew f => bool_decide (waits x !! f = None)
  | WaitProbe f | WaitDrop f => bool_decide (is_Some (waits x !! f))
  | WaitPoll f _ => bool_decide (is_Some (waits x !! f)) && bool_decide (set_room (waiters (latch_state x)))
  end.

Definition exec (l : Label) : M Latch Obs :=
  match l with
  | CountDown d => count_down d
  | Arrive d n => arrive d n
  | Step spurious d => arrive_step spurious d
  | WaitNew f => wait_new f
  | WaitProbe f => wait_probe f
  | WaitPoll f cx => wait_poll f cx
  | WaitDrop f => wait_drop f
  end.

(** ** Invariant *)

Implicit Types (x : Latch) (l : Label) (f d : nat) (w : Waker).

(** A decrement in flight has observed a count that is not below the current one. *)
Definition thread_ok (c : Z) (pc : Pc) : Prop :=
  match pc with
  | Decrement n cnt => 0 < n <= u32_max ∧ c <= cnt <= u32_max
  | WakeAll => c = 0
  end.

(** Before the zero transition the tokens own the registrations; afterwards registrations are left
    only while the author of the transition has yet to wake them. *)
Record latch_ok x : Prop := {
  lo_count : 0 <= count x <= u32_max;
  lo_threads : ∀ d pc, threads x !! d = Some pc → thread_ok (count x) pc;
  lo_waits : ∃ m, set_rep (waiters (latch_state x)) m ∧ (count x ≠ 0 → owned (waits x) m) ∧
    (count x = 0 → m = ∅ ∨ ∃ d, threads x !! d = Some WakeAll);
}.

(** The wait [f] is registered with the waker [w]. *)
Definition parked f w x : Prop :=
  ∃ m, set_rep (waiters (latch_state x)) m ∧ registered (waits x) m f w.

Definition about l : option nat :=
  match l with
  | WaitNew f | WaitProbe f | WaitPoll f _ | WaitDrop f => Some f
  | _ => None
  end.

(** The amount an operation announces, and what the arrivals in flight have yet to subtract. *)
Definition amount l : Z :=
  match l with
  | CountDown _ => 1
  | Arrive _ n => n
  | _ => 0
  end.
Definition due (pc : Pc) : Z := match pc with Decrement n _ => n | WakeAll => 0 end.
Definition in_flight x : Z := map_sum due (threads x).

(** The count is the initial one less what has been subtracted. *)
Definition counts (c total : Z) x : Prop := count x = Z.max 0 (c - (total - in_flight x)).

(** What an operation does: the invariant and the account are kept, a wait completes only at zero,
    a decrement reports the zero transition exactly when it makes it, and a parked wait stays
    parked or is woken. *)
Record effect l x (o : Obs) x' : Prop := {
  ef_ok : latch_ok x';
  ef_counts : ∀ c total, counts c total x → counts c (total + amount l) x';
  ef_mono : count x' <= count x;
  ef_quiet : is_Some (about l) → threads x' = threads x ∧ count x' = count x;
  ef_completed : completed o = true → count x = 0;
  ef_zero : decremented o = Some true ↔ count x ≠ 0 ∧ count x' = 0;
  ef_parked : ∀ f w, about l ≠ Some f → parked f w x → parked f w x' ∨ w ∈ woken o;
}.

Lemma due_nonneg x : latch_ok x → 0 <= in_flight x.
Proof.
  intros Hx. apply map_sum_nonneg. intros d pc Hd. apply (lo_threads _ Hx) in Hd.
  destruct pc; simpl in *; lia.
Qed.

(** An operation on the waits leaves the count and the arrivals alone. *)
Lemma latch_effect_waits l x x' o m m' f :
  latch_ok x → count x' = count x → threads x' = threads x → about l = Some f → amount l = 0 →
  decremented o = None → (completed o = true → count x = 0) →
  set_rep (waiters (latch_state x)) m → set_rep (waiters (latch_state x')) m' →
  (count x ≠ 0 → owned (waits x') m') → (count x = 0 → m' = m) →
  keeps_others f (waits x) m (waits x') m' → effect l x o x'.
Proof.
  intros Hx Hc Ht Hl Ha Ho Hco Hm Hm' Hown Hz Hk. split.
  - destruct Hx as [Hn Hth (m0 & Hm0 & _ & Hz0)]. pose proof (set_rep_inj _ _ _ Hm Hm0) as <-.
    split; rewrite ?Hc, ?Ht; [done|done|]. exists m'. split_and!; [done|done|].
    intros E. rewrite (Hz E). by apply Hz0.
  - intros c total. unfold counts, in_flight. rewrite Hc, Ht, Ha. by rewrite Z.add_0_r.
  - lia.
  - done.
  - done.
  - rewrite Ho, Hc. split; [done|]. tauto.
  - intros g w Hg (m0 & Hm0 & Hr). pose proof (set_rep_inj _ _ _ Hm Hm0) as <-. left.
    exists m'. split; [done|]. apply Hk; [|done]. congruence.
Qed.

Lemma latch_arrive_ok l d n x :
  latch_ok x → threads x !! d = None → 0 <= n <= u32_max → amount l = n → about l = None →
  wp (arrive d n) x (effect l x).
Proof.
  intros Hx Hd Hn Ha Hl. unfold arrive. wp_auto. case_bool_decide as E; wp_auto.
  - split; try done; try (rewrite Hl; by intros []).
    + intros c total. unfold counts. by rewrite Ha, E, Z.add_0_r.
    + split; [done|]. by intros [].
    + by left.
  - split; try done; try (rewrite Hl; by intros []).
    + destruct Hx as [Hc Ht Hw]. split; try done.
      * simpl. intros e pc [[<- <-]|[_ He]]%lookup_insert_Some; [|by eapply Ht].
        change (count (set_threads _ _)) with (count x). simpl. lia.
      * destruct Hw as (m & Hm & Ho & Hz). exists m. split_and!; try done. intros [?|[e He]]%Hz; [by left|right].
        exists e. simpl. rewrite lookup_insert_ne; [done|]. intros <-. congruence.
    + intros c total. unfold counts, in_flight. simpl. rewrite map_sum_insert by done. simpl. intros H.
      change (count (set_threads _ _)) with (count x). lia.
    + split; [done|]. by intros [].
    + by left.
Qed.

Lemma latch_wait_new_ok f x :
  latch_ok x → waits x !! f = None → wp (wait_new f) x (effect (WaitNew f) x).
Proof.
  intros Hx Hf. unfold wait_new. wp_auto. pose proof (lo_waits _ Hx) as (m & Hm & Ho & Hz).
  eapply (latch_effect_waits _ _ _ _ m m f); try done; [|by apply keeps_others_insert].
  intros Hc. by apply owned_new; [apply Ho|].
Qed.

(** A token that is cleared at zero was not in use any more. *)
Lemma latch_probe_ok f x :
  latch_ok x → is_Some (waits x !! f) → wp (wait_probe f) x (effect (WaitProbe f) x).
Proof.
  intros Hx [token Hf]. unfold wait_probe. wp_auto. eapply wp_expect; [done|].
  pose proof (lo_waits _ Hx) as (m & Hm & Ho & Hz).
  unfold poll_probe, try_wait. fold (count x). case_bool_decide as E; wp_auto.
  - eapply (latch_effect_waits _ _ _ _ m m f); try done. by apply keeps_others_insert.
  - eapply (latch_effect_waits _ _ _ _ m m f); try done; simpl; [by rewrite insert_id|by apply keeps_others_insert].
Qed.

Lemma latch_poll_ok f cx x :
  latch_ok x → is_Some (waits x !! f) → set_room (waiters (latch_state x)) →
  wp (wait_poll f cx) x (λ o x', effect (WaitPoll f cx) x o x' ∧
    completed o = bool_decide (count x = 0) ∧ (count x ≠ 0 → parked f cx x')).
Proof.
  intros Hx [token Hf] Hroom. unfold wait_poll. wp_auto. eapply wp_expect; [done|].
  pose proof (lo_waits _ Hx) as (m & Hm & Ho & Hz). wp_auto. unfold poll_locked. wp_auto. fold (count x).
  case_bool_decide as E; wp_auto.
  - split; [|done]. eapply (latch_effect_waits _ _ _ _ m m f); try done. by apply keeps_others_insert.
  - wp_apply register_owned; [done|by apply Ho|done..|].
    intros [token' r] ws (t & m' & Ht & Hm' & Hown & Hreg & Hk). simpl in Ht. subst token'. wp_auto.
    split_and!; [|done|]; [|intros _; by exists m'].
    by eapply (latch_effect_waits _ _ _ _ m m' f).
Qed.

Lemma latch_drop_ok f x :
  latch_ok x → is_Some (waits x !! f) → wp (wait_drop f) x (effect (WaitDrop f) x).
Proof.
  intros Hx [token Hf]. unfold wait_drop. wp_auto. eapply wp_expect; [done|].
  pose proof (lo_waits _ Hx) as (m & Hm & Ho & Hz). wp_auto. unfold unregister.
  assert (keeps_others f (waits x) m (delete f (waits x)) m) as Hkeep
    by apply (keeps_others_delete _ _ _ _ _ None), keeps_others_insert.
  destruct token as [t|]; wp_auto.
  - fold (count x). case_bool_decide as E; wp_auto.
    + by eapply (latch_effect_waits _ _ _ _ m m f).
    + wp_apply unregister_owned; [done|by apply Ho|done|].
      intros [token' r] ws (m' & Ht & Hm' & Hown & Hk). wp_auto.
      eapply (latch_effect_waits _ _ _ _ m m' f); try done; simpl; [|by eapply keeps_others_delete].
      intros _. rewrite <-(delete_insert_eq (waits x) f None). apply owned_drop; [done|apply lookup_insert_eq].
  - eapply (latch_effect_waits _ _ _ _ m m f); try done. intros Hc. apply owned_drop; [by apply Ho|done].
Qed.

(** The author of a pending wake-up survives a step of another arrival. *)
Lemma notifier_survives (g g' : gmap nat Pc) d n cnt (m : gmap WakerToken Waker) :
  g !! d = Some (Decrement n cnt) → (∀ e, e ≠ d → g' !! e = g !! e) →
  m = ∅ ∨ (∃ e, g !! e = Some WakeAll) → m = ∅ ∨ ∃ e, g' !! e = Some WakeAll.
Proof.
  intros Hd Hg [?|[e He]]; [by left|right]. exists e. rewrite Hg; [done|]. intros ->. congruence.
Qed.

(** A turn of a decrement that leaves the registrations alone. *)
Lemma effect_turn spurious d n cnt x x' b :
  latch_ok x → threads x !! d = Some (Decrement n cnt) → waits x' = waits x →
  waiters (latch_state x') = waiters (latch_state x) → (∀ e, e ≠ d → threads x' !! e = threads x !! e) →
  0 <= count x' <= count x → (∀ pc, threads x' !! d = Some pc → thread_ok (count x') pc) →
  (count x ≠ 0 → count x' = 0 → b = Some true ∧ threads x' !! d = Some WakeAll) →
  (b = Some true → count x ≠ 0 ∧ count x' = 0) →
  (∀ c total, counts c total x → counts c total x') →
  effect (Step spurious d) x (mkObs false b []) x'.
Proof.
  intros Hx Hd Hwt Hws Ho Hc Hd' Hz Hb Hcnt. destruct Hx as [Hn Ht (m & Hm & Hown & Hz0)].
  split; try done; try by intros [].
  - split; [lia| |].
    + intros e pc He. destruct (decide (e = d)) as [->|Hne]; [by apply Hd'|]. rewrite Ho in He by done.
      apply Ht in He. destruct pc; simpl in *; lia.
    + exists m. rewrite Hws, Hwt. split_and!; [done|intros; apply Hown; lia|]. intros E.
      destruct (decide (count x = 0)) as [E0|E0]; [|right; exists d; by apply Hz].
      eapply notifier_survives; eauto.
  - intros c total. simpl. rewrite Z.add_0_r. by apply Hcnt.
  - lia.
  - simpl. split; [done|]. intros [??]. by apply Hz.
  - intros f w _ (m0 & Hm0 & Hr). left. exists m0. by rewrite Hws, Hwt.
Qed.

(** The side conditions of [effect_turn]. *)
Ltac turn_done :=
  unfold counts, in_flight, count in *; simpl in *; try done;
  repeat match goal with
  | |- ∀ _, _ ≠ _ → _ => intros e He; by rewrite ?lookup_insert_ne, ?lookup_delete_ne by done
  | |- ∀ _ : Pc, _ => intros pc'; rewrite ?lookup_insert_eq, ?lookup_delete_eq; intros [= <-]; simpl
  | |- ∀ _ _ : Z, _ =>
      intros c total;
      match goal with
      | Hi : ∀ _, map_sum due (<[_:=_]> _) = _, Hd : map_sum due (delete _ _) = _ |- _ =>
          rewrite ?Hi, ?Hd; simpl; lia
      end
  | |- _ ∧ _ => split
  | |- _ → _ => intros ?
  | |- <[_:=_]> _ !! _ = _ => by rewrite lookup_insert_eq
  end; try done; try lia.

Lemma arrive_step_ok spurious d x :
  latch_ok x → is_Some (threads x !! d) → wp (arrive_step spurious d) x (effect (Step spurious d) x).
Proof.
  intros Hx [pc Hd]. unfold arrive_step. wp_auto. eapply wp_expect; [done|].
  pose proof (lo_count _ Hx) as Hc. pose proof (lo_threads _ Hx d pc Hd) as Hpc.
  pose proof (λ pc', map_sum_update due (threads x) d pc pc' Hd) as Hins.
  pose proof (map_sum_delete due (threads x) d pc Hd) as Hdel.
  destruct pc as [n cnt|]; simpl in Hpc, Hins, Hdel.
  - wp_auto. unfold decrement_turn. case_bool_decide as E; wp_auto; simpl.
    + eapply effect_turn; turn_done.
    + unfold cas_state. wp_auto. fold (count x). destruct (negb spurious && _) eqn:Ecas; wp_auto; simpl.
      * apply andb_true_iff in Ecas as [_ Ecas%bool_decide_eq_true]. unfold saturating_sub.
        case_bool_decide as Enew; wp_auto; simpl; eapply effect_turn; turn_done.
      * eapply effect_turn; turn_done.
  - wp_auto. unfold wake_all. wp_auto. destruct Hx as [_ Ht (m & Hm & Hown & Hz)]. split; try done; try by intros []; simpl.
    + split; unfold count in *; simpl; [done|intros e pc [_ He]%lookup_delete_Some; by eapply Ht|].
      exists ∅. split_and!; [apply wakerset_new_rep|done|by left].
    + intros c total. unfold counts, in_flight, count in *; simpl. rewrite Hdel. lia.
    + split; [done|]. by intros [].
    + intros f w _ (m0 & Hm0 & Hr). right. eapply registered_taken; [done|]. by apply set_wake_all_spec.
Qed.

Lemma latch_exec_ok l x : latch_ok x → enabled l x = true → wp (exec l) x (effect l x).
Proof.
  intros Hx He. destruct l as [d|d n|b d|f|f|f cx|f]; simpl in *.
  - apply bool_decide_eq_true in He. by apply latch_arrive_ok.
  - apply enabled_and in He as [??]. by apply latch_arrive_ok.
  - apply bool_decide_eq_true in He. by apply arrive_step_ok.
  - apply bool_decide_eq_true in He. by apply latch_wait_new_ok.
  - apply bool_decide_eq_true in He. by apply latch_probe_ok.
  - apply enabled_and in He as [??]. wp_apply latch_poll_ok; [done..|]. by intros o x' [? _].
  - apply bool_decide_eq_true in He. by apply latch_drop_ok.
Qed.

Lemma latch_init_ok c : 0 <= c <= u32_max → latch_ok (latch_new c).
Proof.
  intros Hc. split; [done|done|]. exists ∅. split_and!; [apply wakerset_new_rep| |by left].
  intros _. by apply owned_none.
Qed.

Lemma latch_init_counts c : 0 <= c → counts c 0 (latch_new c).
Proof. intros Hc. unfold counts, in_flight, count. simpl. rewrite map_sum_empty. lia. Qed.

Lemma latch_reachable_ok c ls tr x :
  0 <= c <= u32_max → returns (run enabled exec ls) (latch_new c) tr x → latch_ok x.
Proof.
  intros Hc. apply run_invariant; [|by apply latch_init_ok]. intros s l Hs He.
  wp_apply latch_exec_ok; [done..|]. by intros o s' [].
Qed.

(** Once the count is zero and its author is done, no wait is registered. *)
Lemma latch_none_parked f w x : latch_ok x → count x = 0 → threads x = ∅ → ¬ parked f w x.
Proof.
  intros [_ _ (m & Hm & _ & Hm0)] Hz Ht (m' & Hm' & t & _ & Htm). destruct (Hm0 Hz) as [->|[d Hd]]; [|by rewrite Ht in Hd].
  pose proof (set_rep_inj _ _ _ Hm Hm') as <-. done.
Qed.

(** ** Theorems *)

Definition total (ls : list Label) : Z := foldr (λ l n, amount l + n) 0 ls.

Lemma total_snoc ls l : total (ls ++ [l]) = total ls + amount l.
Proof. induction ls as [|k ls IH]; simpl; [lia|]. unfold total in *. lia. Qed.

(** The account of a run, and that every wait that completed did so once the arrivals covered the
    initial count. *)
Lemma latch_account c ls tr x :
  0 <= c <= u32_max → returns (run enabled exec ls) (latch_new c) tr x →
  counts c (total ls) x ∧ (Exists (λ e, completed e.2 = true) tr → c <= total ls).
Proof.
  intros Hc Hr. pose proof (run_labels _ _ _ _ _ _ Hr) as Hls.
  cut (latch_ok x ∧ counts c (total tr.*1) x ∧ (Exists (λ e, completed e.2 = true) tr → c <= total tr.*1)).
  { rewrite Hls. tauto. }
  change tr with ([] ++ tr).
  eapply (run_trace_invariant enabled exec (λ tr x, latch_ok x ∧ counts c (total tr.*1) x ∧
    (Exists (λ e, completed e.2 = true) tr → c <= total tr.*1))); [|by split_and!;
      [apply latch_init_ok|apply latch_init_counts; lia|intros ?%Exists_nil]|done].
  clear. intros tr x l (Hx & Hn & Hco) He. wp_apply latch_exec_ok; [done..|].
  intros o x' Ho. pose proof (ef_counts _ _ _ _ Ho _ _ Hn) as Hn'. rewrite fmap_app. simpl. rewrite total_snoc.
  assert (0 <= amount l) as Hl.
  { destruct l; simpl in *; try lia. apply enabled_and in He. lia. }
  split_and!; [by destruct Ho|done|]. intros [Ht%Hco|Ht]%Exists_app; [lia|].
  apply Exists_cons in Ht as [Ht|Ht%Exists_nil]; [|done]. simpl in Ht.
  apply (ef_completed _ _ _ _ Ho) in Ht. unfold counts in *. pose proof (due_nonneg _ Hx). lia.
Qed.

(** A latch counts exactly: once no arrival is in flight its count is the initial count less
    the sum of all arrivals, saturating at zero, however their exchanges interleaved or failed; and
    no wait completes before the arrivals cover the initial count. *)
Theorem latch_counts_arrivals c ls tr x :
  0 <= c <= u32_max → returns (run enabled exec ls) (latch_new c) tr x →
  (threads x = ∅ → count x = Z.max 0 (c - total ls)) ∧
  (Exists (λ e, completed e.2 = true) tr → c <= total ls).
Proof.
  intros Hc Hr. destruct (latch_account _ _ _ _ Hc Hr) as [H H']. split; [|done]. intros Ht.
  unfold counts, in_flight in H. rewrite Ht, map_sum_empty in H. lia.
Qed.

(** One transition to zero is reported in [tr] if [x] has reached zero, none otherwise. *)
Definition zero_reports (tr : list (Label * Obs)) : nat :=
  length (filter (λ e, decremented e.2 = Some true) tr).
Definition zeros_ok (tr : list (Label * Obs)) x : Prop :=
  zero_reports tr = if decide (count x = 0) then 1%nat else 0%nat.

Lemma zeros_step tr x l o x' :
  latch_ok x → zeros_ok tr x → effect l x o x' → zeros_ok (tr ++ [(l, o)]) x'.
Proof.
  intros Hx Hn Ho. unfold zeros_ok, zero_reports in *. rewrite filter_app, length_app, Hn.
  pose proof (ef_zero _ _ _ _ Ho) as Hz. pose proof (ef_mono _ _ _ _ Ho) as Hc.
  pose proof (lo_count _ (ef_ok _ _ _ _ Ho)) as Hn0.
  rewrite filter_cons. simpl. repeat case_decide; simpl; try tauto; lia.
Qed.

(** The transition to zero is made once: over every run exactly one decrement reports it when
    the count has reached zero, and none before. *)
Theorem latch_zero_once c ls tr x :
  0 < c <= u32_max → returns (run enabled exec ls) (latch_new c) tr x →
  zero_reports tr = if decide (count x = 0) then 1%nat else 0%nat.
Proof.
  intros Hc Hr. cut (latch_ok x ∧ zeros_ok ([] ++ tr) x); [by intros []|].
  eapply (run_trace_invariant enabled exec (λ tr x, latch_ok x ∧ zeros_ok tr x)); [| |done].
  - clear. intros tr x l [Hx Hn] He. wp_apply latch_exec_ok; [done..|]. intros o x' Ho.
    split; [by destruct Ho|by apply zeros_step with x].
  - split; [apply latch_init_ok; lia|]. unfold zeros_ok, count. simpl. rewrite decide_False; [done|lia].
Qed.

(** C13: no wake-up is lost: a wait that polled pending with a waker and has not been polled since
    is woken through that waker by the time the count is zero and no arrival is in flight.  No
    operation panics. *)
Theorem latch_no_lost_wakeup c ls tr x f cx o x1 ls' tr' x' :
  0 <= c <= u32_max → returns (run enabled exec ls) (latch_new c) tr x →
  enabled (WaitPoll f cx) x = true → returns (exec (WaitPoll f cx)) x o x1 → completed o = false →
  Forall (λ l, bool_decide (about l ≠ Some f) = true) ls' → returns (run enabled exec ls') x1 tr' x' →
  no_panic enabled exec x' ∧ (count x' = 0 → threads x' = ∅ → Exists (λ e, cx ∈ woken e.2) tr').
Proof.
  intros Hc Hr He Hx1 Hco Hab Hr'. pose proof (latch_reachable_ok _ _ _ _ Hc Hr) as Hx.
  apply enabled_and in He as [Hf Hroom].
  apply (wp_returns_elim _ _ _ _ _ (latch_poll_ok f cx x Hx Hf Hroom)) in Hx1 as (Hef & Hco' & Hpark).
  rewrite Hco in Hco'. symmetry in Hco'. apply bool_decide_eq_false in Hco'.
  assert (latch_ok x' ∧ (parked f cx x' ∨ Exists (λ e, cx ∈ woken e.2) tr')) as [Hx' Hd].
  { split.
    - eapply (run_invariant enabled exec latch_ok ls' x1); [|by destruct Hef|done].
      intros s l Hs Hl. wp_apply latch_exec_ok; [done..|]. by intros ? ? [].
    - eapply (run_promise enabled exec latch_ok (parked f cx) (λ o, cx ∈ woken o) (λ l, bool_decide (about l ≠ Some f)) ls' x1); [|by destruct Hef|by apply Hpark|exact Hab|exact Hr'].
      intros s l Hs Hl Hab'%bool_decide_eq_true. wp_apply latch_exec_ok; [done..|]. intros ? ? Hs'.
      split; [by destruct Hs'|]. by apply (ef_parked _ _ _ _ Hs'). }
  split; [apply (no_panic_wp _ _ _ _ (λ l, latch_exec_ok l x' Hx'))|]. intros Hz Ht. destruct Hd as [Hp|Hd]; [|exact Hd].
  by eapply latch_none_parked in Hp.
Qed.

(** Two arrivals race for the last count while two tasks wait. *)
Definition race : list Label :=
  [WaitNew 0; WaitPoll 0 7%nat; WaitNew 1; CountDown 0; Arrive 1 2; WaitPoll 1 8%nat; Step true 0; Step false 0;
   Step false 1; Step false 1; Step false 1; WaitProbe 1].

Definition latch_after (c : Z) (ls : list Label) : Latch :=
  match run enabled exec ls (latch_new c) with Ret _ x | Panic _ x => x end.

Lemma latch_counts_arrivals_witness :
  ∃ tr x, returns (run enabled exec race) (latch_new 2) tr x ∧ threads x = ∅ ∧
    Exists (λ e, completed e.2 = true) tr ∧
    (threads x = ∅ → count x = Z.max 0 (2 - total race)) ∧
    (Exists (λ e, completed e.2 = true) tr → 2 <= total race).
Proof.
  eexists _, _. split; [vm_compute; reflexivity|]. split; [reflexivity|]. split; [do 11 right; by left|].
  eapply (latch_counts_arrivals 2 race); [done|vm_compute; reflexivity].
Defined.

Lemma latch_zero_once_witness :
  ∃ tr x, returns (run enabled exec race) (latch_new 2) tr x ∧
    zero_reports tr = if decide (count x = 0) then 1%nat else 0%nat.
Proof.
  eexists _, _. split; [vm_compute; reflexivity|].
  eapply (latch_zero_once 2 race); [done|vm_compute; reflexivity].
Defined.

Lemma latch_no_lost_wakeup_witness :
  ∃ tr x, returns (run enabled exec (drop 2 race)) (latch_after 2 (take 2 race)) tr x ∧
    Exists (λ e, 7%nat ∈ woken e.2) tr.
Proof.
  eexists _, _. split; [vm_compute; reflexivity|].
  eapply (latch_no_lost_wakeup 2 [WaitNew 0] _ _ 0 7%nat _ _ (drop 2 race));
    [done|vm_compute; reflexivity|vm_compute; reflexivity|vm_compute; reflexivity|done| |vm_compute; reflexivity
    |vm_compute; reflexivity|vm_compute; reflexivity].
  repeat constructor.
Defined.
