(* ===== verification/Barrier.v ===== *)
(** * The barrier

    [asyncband/src/barrier/mod.rs]: groups of [n] arrivals form generations.  The last arrival of a
    generation leads it: it advances the generation and detaches the registrations of its
    followers under the lock, and wakes them afterwards.  The token of a follower is meaningful
    only while its generation is the current one. *)
From S2P Require Import Prelude Arena WakerBatch WakerSet.

Record BarrierState : Type := mkBarrier {
  n : Z;
  arrived : Z;
  generation : Z;
  waiters : WakerSet;
}.

Definition set_waiters (w : WakerSet) (s : BarrierState) : BarrierState :=
  mkBarrier (n s) (arrived s) (generation s) w.
Definition in_waiters {A : Type} (m : M WakerSet A) : M BarrierState A := zoom waiters set_waiters m.
#[export] Hint Unfold in_waiters : band_zoom.

Record BarrierWait : Type := mkWait {
  token : option WakerToken;
  wait_generation : Z;
}.

(** [Barrier::new]: a group of zero is a group of one; the capacity reserved is not observable. *)
Definition new (participants : Z) : BarrierState :=
  mkBarrier (if bool_decide (0 < participants) then participants else 1) 0 0 wakerset_new.

(** The first locked section of [wait]: [inl] is the leader's return with the tasks it wakes,
    [inr] the future a follower goes on with. *)
Definition wait : M BarrierState (list Waker + BarrierWait) :=
  s ← get;
  let g := generation s in
  a ← add_int u32_max (arrived s) 1;
  modify (λ s, mkBarrier (n s) a (generation s) (waiters s));;
  if bool_decide (a = n s) then
    g' ← add_int usize_max g 1;
    modify (λ s, mkBarrier (n s) 0 g' (waiters s));;
    wakers ← in_waiters set_take_all;
    ws ← batch_wake wakers;
    mret (inl ws)
  else mret (inr (mkWait None g)).

(** [BarrierWait::poll]. *)
Definition poll (w : BarrierWait) (cx : Waker) : M BarrierState (BarrierWait * Poll unit) :=
  s ← get;
  if bool_decide (wait_generation w < generation s) then mret (mkWait None (wait_generation w), Ready tt)
  else
    '(tk, _) ← in_waiters (register (token w) cx);
    mret (mkWait tk (wait_generation w), Pending).

(** [BarrierWait::drop]. *)
Definition drop_wait (w : BarrierWait) : M BarrierState unit :=
  match token w with
  | None => mret tt
  | Some _ =>
      s ← get;
      if bool_decide (wait_generation w ≠ generation s) then mret tt
      else in_waiters (unregister (token w));; mret tt
  end.

(** ** The system: a barrier and the followers waiting at it *)

Record Sys : Type := mkSys {
  st : BarrierState;
  waits : gmap nat BarrierWait;
}.

Definition set_st (s : BarrierState) (x : Sys) : Sys := mkSys s (waits x).
Definition set_waits (g : gmap nat BarrierWait) (x : Sys) : Sys := mkSys (st x) g.
Definition on_st {A : Type} (m : M BarrierState A) : M Sys A := zoom st set_st m.
#[export] Hint Unfold on_st : band_zoom.

Inductive Label : Type :=
| Arrive (f : nat)
| WaitPoll (f : nat) (cx : Waker)
| WaitDrop (f : nat).

(** A wait completed, as the leader ([is_leader]) or as a follower, and the tasks woken. *)
Record Obs : Type := mkObs {
  completed : bool;
  is_leader : bool;
  woken : list Waker;
}.

(** 2^64 generations are not reached. *)
Definition enabled (l : Label) (x : Sys) : bool :=
  match l with
  | Arrive f => bool_decide (waits x !! f = None) && bool_decide (generation (st x) < usize_max)
  | WaitPoll f _ => bool_decide (is_Some (waits x !! f)) && bool_decide (set_room (waiters (st x)))
  | WaitDrop f => bool_decide (is_Some (waits x !! f))
  end.

Definition exec (l : Label) : M Sys Obs :=
  x ← get;
  match l with
  | Arrive f =>
      r ← on_st wait;
      match r with
      | inl ws => mret (mkObs true true ws)
      | inr w => modify (set_waits (<[f:=w]> (waits x)));; mret (mkObs false false [])
      end
  | WaitPoll f cx =>
      w ← expect (waits x !! f) "no such future";
      '(w, r) ← on_st (poll w cx);
      modify (set_waits (<[f:=w]> (waits x)));;
      mret (mkObs (match r with Ready _ => true | Pending => false end) false [])
  | WaitDrop f =>
      w ← expect (waits x !! f) "no such future";
      on_st (drop_wait w);;
      modify (set_waits (delete f (waits x)));;
      mret (mkObs false false [])
  end.

Definition init (participants : Z) : Sys := mkSys (new participants) ∅.

(** ** Invariant *)

Implicit Types (x : Sys) (l : Label) (f : nat) (w : Waker).

(** The token a future may use in generation [g]. *)
Definition live (g : Z) (w : BarrierWait) : option WakerToken :=
  if decide (wait_generation w = g) then token w else None.

Abbreviation live_tokens x := (live (generation (st x)) <$> waits x).

Record barrier_ok x : Prop := {
  bo_n : 0 < n (st x) <= u32_max;
  bo_arrived : 0 <= arrived (st x) < n (st x);
  bo_generation : 0 <= generation (st x) <= usize_max;
  bo_waits : ∀ f b, waits x !! f = Some b → 0 <= wait_generation b <= generation (st x);
  bo_set : ∃ m, set_rep (waiters (st x)) m ∧ owned (live_tokens x) m;
}.

Definition parked f w x : Prop :=
  ∃ m, set_rep (waiters (st x)) m ∧ registered (live_tokens x) m f w.

Definition about l : nat := match l with Arrive f | WaitPoll f _ | WaitDrop f => f end.
Definition arrives l : Z := match l with Arrive _ => 1 | _ => 0 end.
Definition position x : Z := generation (st x) * n (st x) + arrived (st x).

(** What an operation does to the barrier: arrivals are counted, the leader's alone advances the
    generation, a parked follower of another operation stays parked or is woken. *)
Record effect l x (o : Obs) x' : Prop := {
  ef_ok : barrier_ok x';
  ef_n : n (st x') = n (st x);
  ef_position : position x' = position x + arrives l;
  ef_generation : generation (st x') = generation (st x) + if is_leader o then 1 else 0;
  ef_waits : ∀ f b, waits x !! f = Some b → l ≠ WaitDrop f →
    ∃ tk, waits x' !! f = Some (mkWait tk (wait_generation b));
  ef_parked : ∀ f w, f ≠ about l → parked f w x →
    (parked f w x' ∧ generation (st x') = generation (st x)) ∨ w ∈ woken o;
}.

(** An operation that changes the set on behalf of future [f] only. *)
Lemma barrier_effect_waits l x s' g' o m m' :
  barrier_ok x → n s' = n (st x) → generation s' = generation (st x) →
  0 <= arrived s' < n (st x) → arrived s' = arrived (st x) + arrives l → is_leader o = false →
  set_rep (waiters (st x)) m → set_rep (waiters s') m' →
  owned (live (generation (st x)) <$> g') m' →
  keeps_others (about l) (live_tokens x) m (live (generation (st x)) <$> g') m' →
  (∀ f, f ≠ about l → g' !! f = waits x !! f) →
  (∀ b, g' !! about l = Some b → 0 <= wait_generation b <= generation (st x)) →
  (∀ b, waits x !! about l = Some b → l ≠ WaitDrop (about l) →
    ∃ tk, g' !! about l = Some (mkWait tk (wait_generation b))) →
  effect l x o (mkSys s' g').
Proof.
  intros [Hn Ha Hg Hw Hs] En Eg Ha' Ea Ho Hm Hm' Hown Hk Hoth Hab Hsame. split; simpl; try done.
  - split; simpl; rewrite ?En, ?Eg; try done; [|by exists m'].
    intros f b Hf. destruct (decide (f = about l)) as [->|Hne]; [by apply Hab|].
    rewrite Hoth in Hf by done. by eapply Hw.
  - unfold position. simpl. rewrite En, Eg. lia.
  - rewrite Ho. lia.
  - intros f b Hf Hl. destruct (decide (f = about l)) as [->|Hne]; [by apply Hsame|].
    rewrite Hoth by done. exists (token b). by destruct b.
  - intros f w Hne (m0 & Hm0 & Hr). left. rewrite Eg. split; [|done].
    pose proof (set_rep_inj _ _ _ Hm Hm0) as <-. exists m'. simpl. rewrite Eg. split; [done|]. by apply Hk.
Qed.

(** The last arrival: no follower of the completed generation is left in the set. *)
Lemma effect_leader x f s' ws m :
  barrier_ok x → generation (st x) < usize_max → n s' = n (st x) →
  generation s' = generation (st x) + 1 → arrived s' = 0 → arrived (st x) + 1 = n (st x) →
  set_rep (waiters (st x)) m → set_rep (waiters s') ∅ → ws ≡ₚ (map_to_list m).*2 →
  effect (Arrive f) x (mkObs true true ws) (mkSys s' (waits x)).
Proof.
  intros [Hn Ha Hg Hw Hs] Hmax En Eg Ea Hlast Hm Hm' Hws. split; simpl; try done.
  - split; simpl; rewrite ?En, ?Eg, ?Ea; try done; [lia|lia| |].
    + intros g b Hb. apply Hw in Hb. lia.
    + exists ∅. split; [done|]. apply owned_none. intros g o. rewrite lookup_fmap, fmap_Some.
      intros (b & Hb & ->). unfold live. rewrite decide_False; [done|]. apply Hw in Hb. lia.
  - unfold position. simpl. rewrite En, Eg, Ea. lia.
  - intros g b Hb _. exists (token b). by destruct b.
  - intros g w _ (m0 & Hm0 & Hr). pose proof (set_rep_inj _ _ _ Hm Hm0) as <-. right.
    by eapply registered_taken.
Qed.

Lemma barrier_arrive_ok f x :
  barrier_ok x → waits x !! f = None → generation (st x) < usize_max →
  wp (exec (Arrive f)) x (λ o x', effect (Arrive f) x o x' ∧ completed o = is_leader o ∧
    (is_leader o = false → waits x' !! f = Some (mkWait None (generation (st x))))).
Proof.
  intros Hx Hf Hmax. pose proof Hx as [Hn Ha Hg Hw (m & Hm & Hown)].
  unfold exec. wp_auto. unfold wait. wp_auto. apply wp_add_int; [lia|]. wp_auto. simpl.
  case_bool_decide as Hlast; wp_auto; simpl.
  - apply wp_add_int; [lia|]. wp_auto. simpl. wp_apply set_take_all_spec; [done|].
    intros b ws' (us & Hb & Hp & Hm'). wp_auto. wp_apply batch_wake_spec; [done|].
    intros us' s' [-> ->]. wp_auto. split; [|done].
    by eapply (effect_leader x f).
  - split; [|by rewrite lookup_insert_eq].
    eapply (barrier_effect_waits (Arrive f) x _ _ _ m m); simpl; try done; try lia.
    + rewrite fmap_insert. unfold live at 1. simpl. rewrite decide_True by done.
      apply owned_new; [done|]. by rewrite lookup_fmap, Hf.
    + rewrite fmap_insert. apply keeps_others_insert.
    + intros g Hne. by rewrite lookup_insert_ne.
    + intros b. rewrite lookup_insert_eq. intros [= <-]. simpl. lia.
    + intros b. by rewrite Hf.
Qed.

Lemma barrier_poll_ok f cx x b :
  barrier_ok x → waits x !! f = Some b → set_room (waiters (st x)) →
  wp (exec (WaitPoll f cx)) x (λ o x', effect (WaitPoll f cx) x o x' ∧
    completed o = bool_decide (wait_generation b < generation (st x)) ∧
    (completed o = false → parked f cx x' ∧ wait_generation b = generation (st x'))).
Proof.
  intros Hx Hf Hroom. pose proof Hx as [Hn Ha Hg Hw (m & Hm & Hown)]. pose proof (Hw f b Hf) as Hb.
  unfold exec. wp_auto. eapply wp_expect; [done|]. wp_auto. unfold poll. wp_auto.
  case_bool_decide as E; wp_auto; simpl.
  - split_and!; [|done|done].
    eapply (barrier_effect_waits (WaitPoll f cx) x _ _ _ m m); simpl; try done; try lia.
    + rewrite fmap_insert. unfold live at 1. simpl. rewrite decide_False by lia.
      rewrite insert_id; [done|]. rewrite lookup_fmap, Hf. simpl. unfold live. by rewrite decide_False by lia.
    + rewrite fmap_insert. apply keeps_others_insert.
    + intros g Hne. by rewrite lookup_insert_ne.
    + intros c. rewrite lookup_insert_eq. by intros [= <-].
    + intros c Hc _. rewrite lookup_insert_eq. exists None. by simplify_eq.
  - assert (live_tokens x !! f = Some (token b)) as Hl.
    { rewrite lookup_fmap, Hf. simpl. unfold live. by rewrite decide_True by lia. }
    wp_apply (register_owned _ m (live_tokens x) f); [done..|].
    intros [tk r] s' (t & m' & Ht & Hm' & Hown' & Hreg & Hk). simpl in Ht. subst tk. wp_auto.
    assert (live (generation (st x)) <$> <[f:=mkWait (Some t) (wait_generation b)]> (waits x) =
      <[f:=Some t]> (live_tokens x)) as El.
    { rewrite fmap_insert. unfold live at 1. simpl. by rewrite decide_True by lia. }
    simpl. split_and!; [|done|].
    + eapply (barrier_effect_waits (WaitPoll f cx) x _ _ _ m m'); simpl; try done; try lia; rewrite ?El; try done.
      * intros g Hne. by rewrite lookup_insert_ne.
      * intros c. rewrite lookup_insert_eq. by intros [= <-].
      * intros c Hc _. rewrite lookup_insert_eq. exists (Some t). by simplify_eq.
    + intros _. split; [|lia]. exists m'. split; [done|]. simpl. by rewrite El.
Qed.

(** Only the registration of [f] has left the set. *)
Definition detached f x m (s' : BarrierState) : Prop :=
  ∃ m', n s' = n (st x) ∧ generation s' = generation (st x) ∧ arrived s' = arrived (st x) ∧
    set_rep (waiters s') m' ∧ owned (<[f:=None]> (live_tokens x)) m' ∧
    keeps_others f (live_tokens x) m (<[f:=None]> (live_tokens x)) m'.

Lemma drop_wait_spec f x b m :
  set_rep (waiters (st x)) m → owned (live_tokens x) m → waits x !! f = Some b →
  wp (drop_wait b) (st x) (λ _ s', detached f x m s').
Proof.
  intros Hm Hown Hf.
  assert (live_tokens x !! f = Some (live (generation (st x)) b)) as Hl by (by rewrite lookup_fmap, Hf).
  assert (live (generation (st x)) b = None → detached f x m (st x)) as Hstale.
  { intros E. exists m. split_and!; try done; [by rewrite insert_id by congruence|apply keeps_others_insert]. }
  unfold drop_wait, live in *. destruct (token b) as [t|] eqn:Et; wp_auto.
  - case_bool_decide as E; wp_auto; [apply Hstale; by rewrite decide_False|].
    rewrite decide_True in Hl by (destruct (decide (wait_generation b = generation (st x))); tauto).
    wp_apply unregister_owned; [done..|]. intros r s' (m' & _ & Hm' & Hown' & Hk). wp_auto. by exists m'.
  - apply Hstale. by case_decide.
Qed.

Lemma barrier_drop_ok f x b :
  barrier_ok x → waits x !! f = Some b → wp (exec (WaitDrop f)) x (effect (WaitDrop f) x).
Proof.
  intros Hx Hf. pose proof Hx as [Hn Ha Hg Hw (m & Hm & Hown)].
  unfold exec. wp_auto. eapply wp_expect; [done|]. wp_auto. wp_apply drop_wait_spec; [done..|].
  intros _ s' (m' & En & Eg & Ea & Hm' & Hown' & Hk). wp_auto.
  eapply (barrier_effect_waits (WaitDrop f) x _ _ _ m m'); simpl; try done; try lia; rewrite ?fmap_delete.
  - rewrite <-(delete_insert_eq (live_tokens x) f None). apply owned_drop; [done|apply lookup_insert_eq].
  - by eapply keeps_others_delete.
  - intros g Hne. by rewrite lookup_delete_ne.
  - intros c. by rewrite lookup_delete_eq.
Qed.

Lemma barrier_exec_ok l x : barrier_ok x → enabled l x = true → wp (exec l) x (effect l x).
Proof.
  intros Hx He. destruct l as [f|f cx|f]; simpl in He.
  - apply enabled_and in He as [??]. wp_apply barrier_arrive_ok; [done..|]. by intros o x' [].
  - apply enabled_and in He as [[b Hf] ?]. wp_apply barrier_poll_ok; [done..|]. by intros o x' [].
  - apply bool_decide_eq_true in He as [b Hf]. by eapply barrier_drop_ok.
Qed.

Lemma barrier_init_ok k : 0 <= k <= u32_max → barrier_ok (init k).
Proof.
  intros Hk. split; simpl; try done.
  - case_bool_decide; [lia|done].
  - case_bool_decide; lia.
  - exists ∅. split; [apply wakerset_new_rep|]. by apply owned_none.
Qed.

(** ** Theorems *)

(** The arrivals of a schedule and the leaders of a trace. *)
Definition arrivals (ls : list Label) : Z := foldr (λ l a, arrives l + a) 0 ls.
Definition leaders (tr : list (Label * Obs)) : Z :=
  foldr (λ e a, (if is_leader e.2 then 1 else 0) + a) 0 tr.
Definition group (participants : Z) : Z := Z.max 1 participants.

Lemma barrier_run x ls tr x' :
  barrier_ok x → returns (run enabled exec ls) x tr x' →
  barrier_ok x' ∧ n (st x') = n (st x) ∧ position x' = position x + arrivals ls ∧
  generation (st x') = generation (st x) + leaders tr.
Proof.
  revert x tr. induction ls as [|l ls IH]; intros x tr Hx Hr.
  { injection Hr as <- <-. simpl. split_and!; [done|done|lia|lia]. }
  apply run_cons_inv in Hr as (He & o & x1 & tr' & Hl & Hr & ->).
  apply (wp_returns_elim _ _ _ _ _ (barrier_exec_ok l x Hx He)) in Hl as [Hx1 En Ep Eg _ _].
  destruct (IH _ _ Hx1 Hr) as (Hx' & En' & Ep' & Eg'). simpl. split_and!; [done|lia|lia|lia].
Qed.

Lemma position_div x : barrier_ok x → position x / n (st x) = generation (st x).
Proof.
  intros [Hn Ha Hg _ _]. unfold position. rewrite Z.mul_comm. symmetry.
  apply (Z.div_unique _ _ _ (arrived (st x))); lia.
Qed.

Lemma barrier_init_run k ls tr x :
  0 <= k <= u32_max → returns (run enabled exec ls) (init k) tr x →
  barrier_ok x ∧ n (st x) = group k ∧ position x = arrivals ls ∧ generation (st x) = leaders tr.
Proof.
  intros Hk Hr. destruct (barrier_run _ _ _ _ (barrier_init_ok k Hk) Hr) as (Hx & En & Ep & Eg).
  split_and!; [done| | |done].
  - rewrite En. simpl. unfold group. case_bool_decide; lia.
  - rewrite Ep. done.
Qed.

(** Exactly one leader per group: over every run, cancelled waits included, the generations
    completed and the leaders elected are the number of full groups among the arrivals. *)
Theorem barrier_one_leader_per_group k ls tr x :
  0 <= k <= u32_max → returns (run enabled exec ls) (init k) tr x →
  generation (st x) = arrivals ls / group k ∧ leaders tr = arrivals ls / group k ∧
  arrived (st x) = arrivals ls mod group k.
Proof.
  intros Hk Hr. destruct (barrier_init_run _ _ _ _ Hk Hr) as (Hx & En & Ep & Eg).
  pose proof (position_div _ Hx) as Hd. rewrite En, Ep in Hd. split_and!; [done|lia|].
  pose proof (bo_n _ Hx). rewrite Z.mod_eq by lia. rewrite Hd, <-Ep. unfold position. rewrite En. lia.
Qed.

Lemma wait_kept f g ls x tr x' :
  barrier_ok x → (∃ tk, waits x !! f = Some (mkWait tk g)) → WaitDrop f ∉ ls →
  returns (run enabled exec ls) x tr x' → ∃ tk, waits x' !! f = Some (mkWait tk g).
Proof.
  revert x tr. induction ls as [|l ls IH]; intros x tr Hx [tk Hf] Hd Hr.
  { injection Hr as <- <-. by exists tk. }
  apply run_cons_inv in Hr as (He & o & x1 & tr' & Hl & Hr & ->).
  apply (wp_returns_elim _ _ _ _ _ (barrier_exec_ok l x Hx He)) in Hl.
  eapply (IH x1); [by destruct Hl| |set_solver|done].
  apply (ef_waits _ _ _ _ Hl) in Hf; [done|]. set_solver.
Qed.

(** C12: a follower completes with its group: a poll of it is ready exactly when the arrivals have
    filled the group its own arrival belongs to. *)
Theorem barrier_completes_with_group k ls tr x f o x1 ls' tr' x' cx :
  0 <= k <= u32_max → returns (run enabled exec ls) (init k) tr x →
  enabled (Arrive f) x = true → returns (exec (Arrive f)) x o x1 → is_leader o = false →
  WaitDrop f ∉ ls' → returns (run enabled exec ls') x1 tr' x' → enabled (WaitPoll f cx) x' = true →
  ∃ o' x2, returns (exec (WaitPoll f cx)) x' o' x2 ∧
    completed o' = bool_decide ((arrivals ls / group k + 1) * group k <= arrivals ls + 1 + arrivals ls').
Proof.
  intros Hk Hr He1 Hx1 Hlead Hd Hr' He2. destruct (barrier_init_run _ _ _ _ Hk Hr) as (Hx & En & Ep & Eg).
  pose proof (position_div _ Hx) as Hdiv. rewrite En, Ep in Hdiv. apply enabled_and in He1 as [Hf Hmax].
  apply (wp_returns_elim _ _ _ _ _ (barrier_arrive_ok f x Hx Hf Hmax)) in Hx1 as (Hef & _ & Hw).
  pose proof (ef_ok _ _ _ _ Hef) as Hx1. pose proof (ef_position _ _ _ _ Hef) as Ep1.
  destruct (barrier_run _ _ _ _ Hx1 Hr') as (Hx' & En' & Ep' & _).
  destruct (wait_kept f (generation (st x)) ls' x1 tr' x' Hx1) as [tk Hf']; [by eauto|done|done|].
  apply enabled_and in He2 as [_ Hroom].
  pose proof (barrier_poll_ok f cx x' _ Hx' Hf' Hroom) as (o' & x2 & Hx2 & _ & Hc & _)%wp_returns.
  exists o', x2. split; [done|]. rewrite Hc. simpl in Ep1 |- *. apply bool_decide_ext.
  rewrite Hdiv. pose proof (ef_n _ _ _ _ Hef) as En1. destruct Hx' as [Hn Ha Hg _ _].
  rewrite Ep1, Ep in Ep'. unfold position in Ep'. assert (n (st x') = group k) as En2 by congruence. rewrite En2 in *.
  assert (generation (st x') * group k + arrived (st x') = arrivals ls + 1 + arrivals ls') as E by lia.
  rewrite <-E. split; intros H; nia.
Qed.

(** No follower is left asleep: a follower that polled pending with a waker and has not been
    polled since is woken through it once its generation has ended. *)
Theorem barrier_no_lost_wakeup k ls tr x f cx o x1 ls' tr' x' :
  0 <= k <= u32_max → returns (run enabled exec ls) (init k) tr x →
  enabled (WaitPoll f cx) x = true → returns (exec (WaitPoll f cx)) x o x1 → completed o = false →
  Forall (λ l, bool_decide (f ≠ about l) = true) ls' → returns (run enabled exec ls') x1 tr' x' →
  generation (st x') ≠ generation (st x1) → Exists (λ e, cx ∈ woken e.2) tr'.
Proof.
  intros Hk Hr He Hx1 Hco Hab Hr' Hg. destruct (barrier_init_run _ _ _ _ Hk Hr) as (Hx & _).
  apply enabled_and in He as [[b Hf] Hroom].
  apply (wp_returns_elim _ _ _ _ _ (barrier_poll_ok f cx x b Hx Hf Hroom)) in Hx1 as (Hef & _ & [Hp _]%(λ H, H Hco)).
  edestruct (run_promise enabled exec barrier_ok
    (λ y, parked f cx y ∧ generation (st y) = generation (st x1)) (λ o, cx ∈ woken o)
    (λ l, bool_decide (f ≠ about l)) ls' x1) as [[_ H]|H]; [|by destruct Hef|done|done|exact Hr'|done|exact H].
  intros s l Hs Hl Hab'%bool_decide_eq_true. wp_apply barrier_exec_ok; [done..|]. intros o' s' Hs'.
  split; [by destruct Hs'|]. intros [Hps Egs].
  destruct (ef_parked _ _ _ _ Hs' f cx Hab' Hps) as [[? ?]|?]; [left; split; [done|congruence]|by right].
Qed.

(** Two groups of three; follower 1 is dropped, follower 0 is polled again after its group filled. *)
Definition crowd : list Label :=
  [Arrive 0; WaitPoll 0 5%nat; Arrive 1; WaitPoll 1 6%nat; WaitDrop 1; Arrive 2; Arrive 3; WaitPoll 3 7%nat].

Definition barrier_after (k : Z) (ls : list Label) : Sys :=
  match run enabled exec ls (init k) with Ret _ x | Panic _ x => x end.

Lemma barrier_one_leader_per_group_witness :
  ∃ tr x, returns (run enabled exec crowd) (init 3) tr x ∧
    generation (st x) = 4 / group 3 ∧ leaders tr = 4 / group 3 ∧ arrived (st x) = 4 mod group 3.
Proof.
  eexists _, _. split; [vm_compute; reflexivity|].
  eapply (barrier_one_leader_per_group 3 crowd); [done|vm_compute; reflexivity].
Defined.

Lemma barrier_completes_with_group_witness :
  ∃ o' x2, returns (exec (WaitPoll 0 5%nat)) (barrier_after 3 crowd) o' x2 ∧
    completed o' = bool_decide ((0 / group 3 + 1) * group 3 <= 0 + 1 + 3).
Proof.
  eapply (barrier_completes_with_group 3 [] _ _ 0 _ _ (tail crowd) _ (barrier_after 3 crowd) 5%nat);
    [done|vm_compute; reflexivity|vm_compute; reflexivity|vm_compute; reflexivity|done| |vm_compute; reflexivity
    |vm_compute; reflexivity].
  unfold crowd. simpl. set_solver.
Defined.

Lemma barrier_no_lost_wakeup_witness :
  ∃ tr x, returns (run enabled exec (drop 2 crowd)) (barrier_after 3 (take 2 crowd)) tr x ∧
    Exists (λ e, 5%nat ∈ woken e.2) tr.
Proof.
  eexists _, _. split; [vm_compute; reflexivity|].
  eapply (barrier_no_lost_wakeup 3 [Arrive 0] _ _ 0 5%nat _ _ (drop 2 crowd));
    [done|vm_compute; reflexivity|vm_compute; reflexivity|vm_compute; reflexivity|done| |vm_compute; reflexivity
    |vm_compute; congruence].
  repeat constructor.
Defined.
