(* ===== verification/WaitGroup.v ===== *)
(** * The wait group

    [asyncband/src/waitgroup/mod.rs]: the number of live handles is an atomic; a wait completes once
    it is zero, which is terminal since only a live handle can be cloned.  The release of the last
    handle takes the registrations in a second step, under the lock. *)
From S2P Require Import Prelude Arena WakerBatch WakerSet.

Record State : Type := mkState {
  handles : Z;
  waiters : WakerSet;
}.

Definition set_handles (n : Z) (s : State) : State := mkState n (waiters s).
Definition set_waiters (w : WakerSet) (s : State) : State := mkState (handles s) w.
Definition in_waiters {A : Type} (m : M WakerSet A) : M State A := zoom waiters set_waiters m.
#[export] Hint Unfold in_waiters : band_zoom.

Definition new : State := mkState 1 wakerset_new.

(** [fetch_add] and [fetch_sub] wrap around. *)
Definition register_handle : M State unit :=
  modify (λ s, set_handles (wrapping_add usize_max (handles s) 1) s).

(** [release_handle] up to the lock: whether the caller goes on to wake the waiters. *)
Definition release_handle : M State bool :=
  s ← get;
  put (set_handles ((handles s - 1) mod (usize_max + 1)) s);;
  assert_true (bool_decide (0 < handles s)) "a live handle must own one count";;
  mret (bool_decide (handles s = 1)).

(** [release_handle] from the lock on. *)
Definition release_notify : M State (list Waker) :=
  s ← get;
  put (set_waiters wakerset_new s);;
  mret (set_wake_all (waiters s)).

(** [poll_wait] up to the lock. *)
Definition poll_probe (token : option WakerToken) (s : State) : option WakerToken * bool :=
  if bool_decide (handles s = 0) then (None, true) else (token, false).

Definition poll_locked (token : option WakerToken) (cx : Waker) : M State (option WakerToken * Poll unit) :=
  s ← get;
  if bool_decide (handles s = 0) then mret (None, Ready tt)
  else
    '(token, _) ← in_waiters (register token cx);
    mret (token, Pending).

Definition unregister (token : option WakerToken) : M State (option WakerToken) :=
  match token with
  | None => mret None
  | Some _ =>
      s ← get;
      if bool_decide (handles s = 0) then mret None
      else
        '(token, _) ← in_waiters (WakerSet.unregister token);
        mret token
  end.

(** ** The system: handles, waits, and handles being released *)

(** A release between its two steps remembers whether it continues as a [Wait]. *)
Record Sys : Type := mkSys {
  st : State;
  groups : gset nat;
  waits : tokens;
  releasing : gmap nat bool;
}.

Definition set_st (s : State) (x : Sys) : Sys := mkSys s (groups x) (waits x) (releasing x).
Definition set_groups (g : gset nat) (x : Sys) : Sys := mkSys (st x) g (waits x) (releasing x).
Definition set_waits (g : tokens) (x : Sys) : Sys := mkSys (st x) (groups x) g (releasing x).
Definition set_releasing (g : gmap nat bool) (x : Sys) : Sys := mkSys (st x) (groups x) (waits x) g.
Definition on_st {A : Type} (m : M State A) : M Sys A := zoom st set_st m.
#[export] Hint Unfold on_st : band_zoom.

Record Obs : Type := mkObs {
  completed : bool;
  woken : list Waker;
}.
Definition silent : Obs := mkObs false [].

(** [WaitGroup::clone]. *)
Definition group_clone (h : nat) : M Sys Obs :=
  on_st register_handle;;
  modify (λ x, set_groups ({[h]} ∪ groups x) x);;
  mret silent.

(** [WaitGroup::drop] and, with the wait [f] it becomes, [WaitGroup::into_future]. *)
Definition group_release (h : nat) (f : option nat) : M Sys Obs :=
  last ← on_st release_handle;
  modify (λ x, set_groups (groups x ∖ {[h]}) x);;
  (if (last : bool) then
     modify (λ x, set_releasing (<[h:=bool_decide (is_Some f)]> (releasing x)) x)
   else match f with
   | Some f => modify (λ x, set_waits (<[f:=None]> (waits x)) x)
   | None => mret tt
   end);;
  mret silent.

Definition group_notify (h f : nat) : M Sys Obs :=
  x ← get;
  into ← expect (releasing x !! h) "no such release";
  ws ← on_st release_notify;
  modify (set_releasing (delete h (releasing x)));;
  (if (into : bool) then modify (set_waits (<[f:=None]> (waits x))) else mret tt);;
  mret (mkObs false ws).

(** [Wait::clone]. *)
Definition wait_clone (f g : nat) : M Sys Obs :=
  x ← get;
  _ ← expect (waits x !! f) "no such future";
  modify (set_waits (<[g:=None]> (waits x)));;
  mret silent.

(** [Wait::poll] and [Wait::drop]. *)
Definition wait_probe (f : nat) : M Sys Obs :=
  x ← get;
  token ← expect (waits x !! f) "no such future";
  let (token, ready) := poll_probe token (st x) in
  modify (set_waits (<[f:=token]> (waits x)));;
  mret (mkObs ready []).

Definition wait_poll (f : nat) (cx : Waker) : M Sys Obs :=
  x ← get;
  token ← expect (waits x !! f) "no such future";
  '(token, r) ← on_st (poll_locked token cx);
  modify (set_waits (<[f:=token]> (waits x)));;
  mret (mkObs (match r with Ready _ => true | Pending => false end) []).

Definition wait_drop (f : nat) : M Sys Obs :=
  x ← get;
  token ← expect (waits x !! f) "no such future";
  on_st (unregister token);;
  modify (set_waits (delete f (waits x)));;
  mret silent.

Inductive Label : Type :=
| GroupClone (h h' : nat)
| GroupDrop (h : nat)
| IntoFuture (h f : nat)
| Notify (h f : nat)
| WaitClone (f g : nat)
| WaitProbe (f : nat)
| WaitPoll (f : nat) (cx : Waker)
| WaitDrop (f : nat).

Abbreviation fresh_handle h x := (bool_decide (h ∉ groups x) && bool_decide (releasing x !! h = None)).

(** A handle owns a reference to the allocation, whose count stays below [isize::MAX]. *)
Definition enabled (l : Label) (x : Sys) : bool :=
  match l with
  | GroupClone h h' =>
      bool_decide (h ∈ groups x ∧ Z.of_nat (size (groups x)) < isize_max) && fresh_handle h' x
  | GroupDrop h => bool_decide (h ∈ groups x)
  | IntoFuture h f => bool_decide (h ∈ groups x) && bool_decide (waits x !! f = None)
  | Notify h f => bool_decide (is_Some (releasing x !! h)) && bool_decide (waits x !! f = None)
  | WaitClone f g => bool_decide (is_Some (waits x !! f)) && bool_decide (waits x !! g = None)
  | WaitProbe f | WaitDrop f => bool_decide (is_Some (waits x !! f))
  | WaitPoll f _ => bool_decide (is_Some (waits x !! f)) && bool_decide (set_room (waiters (st x)))
  end.

Definition exec (l : Label) : M Sys Obs :=
  match l with
  | GroupClone _ h' => group_clone h'
  | GroupDrop h => group_release h None
  | IntoFuture h f => group_release h (Some f)
  | Notify h f => group_notify h f
  | WaitClone f g => wait_clone f g
  | WaitProbe f => wait_probe f
  | WaitPoll f cx => wait_poll f cx
  | WaitDrop f => wait_drop f
  end.

(** [WaitGroup::new]: handle 0. *)
Definition init : Sys := mkSys new {[0%nat]} ∅ ∅.

(** ** Invariant *)

Implicit Types (x : Sys) (l : Label) (f h : nat) (w : Waker) (s : State).

Definition closed x : bool := bool_decide (groups x = ∅).

Record group_ok x : Prop := {
  go_handles : handles (st x) = Z.of_nat (size (groups x));
  go_bound : handles (st x) <= isize_max;
  go_releasing : releasing x ≠ ∅ → groups x = ∅;
  go_waits : terminal_ok (closed x) (waiters (st x)) (waits x) (releasing x ≠ ∅);
}.

Abbreviation parked f w x := (set_parked (waiters (st x)) (waits x) f w).

(** The wait a poll or drop belongs to. *)
Definition about l : option nat :=
  match l with
  | WaitProbe f | WaitPoll f _ | WaitDrop f => Some f
  | _ => None
  end.

(** What an operation does: zero handles is final, a wait completes only then, and a parked wait
    stays parked or is woken. *)
Record effect l x (o : Obs) x' : Prop := {
  ef_ok : group_ok x';
  ef_final : groups x = ∅ → groups x' = ∅;
  ef_completed : completed o = true → groups x = ∅;
  ef_parked : ∀ f w, about l ≠ Some f → parked f w x → parked f w x' ∨ w ∈ woken o;
}.

Lemma handles_zero x : group_ok x → handles (st x) = 0 ↔ groups x = ∅.
Proof.
  intros [Hh _ _ _]. rewrite Hh. split.
  - intros E. apply leibniz_equiv, size_empty_iff. lia.
  - intros ->. by rewrite size_empty.
Qed.

Lemma closed_ne x : groups x ≠ ∅ → closed x = false.
Proof. apply bool_decide_eq_false_2. Qed.
Lemma closed_false h x : h ∈ groups x → closed x = false.
Proof. intros Hh. apply bool_decide_eq_false. set_solver. Qed.

Lemma group_clone_ok h h' x :
  group_ok x → enabled (GroupClone h h') x = true → wp (exec (GroupClone h h')) x (effect (GroupClone h h') x).
Proof.
  intros [Hh Hb Hrel Ht] He. simpl in *. rewrite !andb_true_iff, !bool_decide_eq_true in He.
  destruct He as ((Hin & Hlt) & Hfresh & Hr). unfold group_clone, register_handle. wp_auto. simpl.
  assert (wrapping_add usize_max (handles (st x)) 1 = Z.of_nat (size ({[h']} ∪ groups x))) as E.
  { unfold wrapping_add. rewrite size_union, size_singleton by set_solver.
    rewrite Z.mod_small; [lia|]. unfold isize_max, usize_max in *. lia. }
  split; simpl; try done; [|set_solver|by left].
  split; simpl; [done| | |].
  - rewrite E, size_union, size_singleton by set_solver. lia.
  - intros H%Hrel. set_solver.
  - rewrite (closed_false h x Hin) in Ht. by rewrite (closed_false h) by (simpl; set_solver).
Qed.

Lemma group_release_ok l h (o : option nat) x :
  group_ok x → h ∈ groups x → about l = None → (∀ g, o = Some g → waits x !! g = None) →
  wp (group_release h o) x (effect l x).
Proof.
  intros [Hh Hb Hrel Ht] Hin Hl Hf. pose proof (closed_false h x Hin) as Hc. rewrite Hc in Ht.
  assert (size (groups x ∖ {[h]}) = size (groups x) - 1)%nat as Hsz.
  { rewrite size_difference by set_solver. by rewrite size_singleton. }
  assert (0 < size (groups x))%nat as Hpos.
  { destruct (size (groups x)) eqn:E; [|lia]. apply size_empty_inv in E. set_solver. }
  unfold group_release, release_handle. wp_auto. apply wp_assert; [apply bool_decide_eq_true; lia|]. wp_auto.
  assert ((handles (st x) - 1) mod (usize_max + 1) = Z.of_nat (size (groups x ∖ {[h]}))) as Eh.
  { rewrite Z.mod_small; [lia|]. unfold isize_max, usize_max in *. lia. }
  case_bool_decide as E; wp_auto; simpl.
  - split; try done; simpl; [|set_solver|by left].
    assert (groups x ∖ {[h]} = ∅) as Hempty by (apply leibniz_equiv, size_empty_iff; lia).
    split; simpl; [done|lia|done|]. unfold closed. simpl. rewrite bool_decide_eq_true_2 by done.
    eapply terminal_close; [done|]. apply insert_non_empty.
  - assert (groups x ∖ {[h]} ≠ ∅) as Hne.
    { intros H. rewrite H, size_empty in Hsz. lia. }
    destruct o as [g|]; wp_auto; simpl.
    + split; try done; simpl; [|set_solver|intros; left; by apply parked_fresh; [apply Hf|]].
      split; simpl; [done|lia|set_solver|]. rewrite closed_ne by done. by apply terminal_fresh, Hf.
    + split; try done; simpl; [|set_solver|by left]. split; simpl; [done|lia|set_solver|]. by rewrite closed_ne by done.
Qed.

(** An operation of one wait that leaves the handles alone. *)
Lemma group_effect_wait l f x s' g' o :
  group_ok x → about l = Some f → handles s' = handles (st x) → (completed o = true → groups x = ∅) →
  terminal_ok (closed x) (waiters s') g' (releasing x ≠ ∅) →
  parked_kept f (waiters (st x)) (waits x) (waiters s') g' →
  effect l x o (mkSys s' (groups x) g' (releasing x)).
Proof.
  intros [Hh Hb Hrel Ht] Hl Es Hco Ht' Hk. split; simpl; try done.
  - split; simpl; [congruence|lia|done|done].
  - intros g w Hne Hp. left. apply Hk; [congruence|done].
Qed.

Lemma group_notify_ok h f x :
  group_ok x → is_Some (releasing x !! h) → waits x !! f = None →
  wp (exec (Notify h f)) x (effect (Notify h f) x).
Proof.
  intros [Hh Hb Hrel Ht] [into Hr] Hf. simpl. unfold group_notify. wp_auto. eapply wp_expect; [done|].
  wp_auto. unfold release_notify. wp_auto.
  assert (groups x = ∅) as Hg by (apply Hrel; intros E; by rewrite E in Hr).
  assert (∀ tks, group_ok (mkSys (mkState (handles (st x)) wakerset_new) (groups x) tks (delete h (releasing x)))) as Hok.
  { intros tks. split; simpl; [done..|]. unfold closed. simpl. rewrite bool_decide_eq_true_2 by done.
    apply terminal_notified. }
  destruct into; wp_auto; (split; simpl; [apply Hok|done|done|]); intros g w _ Hp; right; by eapply parked_woken.
Qed.

Lemma group_wait_clone_ok f g x :
  group_ok x → is_Some (waits x !! f) → waits x !! g = None →
  wp (exec (WaitClone f g)) x (effect (WaitClone f g) x).
Proof.
  intros [Hh Hb Hrel Ht] [tk Hf] Hg. simpl. unfold wait_clone. wp_auto. eapply wp_expect; [done|]. wp_auto.
  split; simpl; try done; [split; try done; by apply terminal_fresh|]. intros. left. by apply parked_fresh.
Qed.

Lemma group_probe_ok f x :
  group_ok x → is_Some (waits x !! f) → wp (exec (WaitProbe f)) x (effect (WaitProbe f) x).
Proof.
  intros Hx [tk Hf]. simpl. unfold wait_probe. wp_auto. eapply wp_expect; [done|].
  pose proof (handles_zero x Hx) as Hz. pose proof (go_waits _ Hx) as Ht.
  assert (∀ o, parked_kept f (waiters (st x)) (waits x) (waiters (st x)) (<[f:=o]> (waits x))) as Hk.
  { intros o. apply parked_kept_same. intros g Hne. by rewrite lookup_insert_ne. }
  unfold poll_probe. case_bool_decide as E; wp_auto; eapply (group_effect_wait _ f x); try done; simpl.
  - tauto.
  - unfold closed in *. rewrite bool_decide_eq_true_2 in * by tauto. by eapply terminal_void.
  - by rewrite insert_id.
Qed.

Lemma group_poll_ok f cx x :
  group_ok x → is_Some (waits x !! f) → set_room (waiters (st x)) →
  wp (exec (WaitPoll f cx)) x (λ o x', effect (WaitPoll f cx) x o x' ∧
    completed o = bool_decide (groups x = ∅) ∧ (completed o = false → parked f cx x')).
Proof.
  intros Hx [tk Hf] Hroom. simpl. unfold wait_poll. wp_auto. eapply wp_expect; [done|].
  pose proof (handles_zero x Hx) as Hz. pose proof (go_waits _ Hx) as Ht. fold (closed x).
  unfold poll_locked. wp_auto. case_bool_decide as E; wp_auto.
  - assert (closed x = true) as Hc by (apply bool_decide_eq_true; tauto). rewrite Hc in *.
    split_and!; [|done|done]. eapply (group_effect_wait _ f x); try done; simpl; [tauto| |].
    + rewrite Hc. by eapply terminal_void.
    + apply parked_kept_same. intros g Hne. by rewrite lookup_insert_ne.
  - assert (closed x = false) as Hc by (apply bool_decide_eq_false; tauto). rewrite Hc in *.
    wp_apply terminal_register; [done..|]. intros [tk' r] s' (Ht' & Hp & Hk). wp_auto.
    split_and!; [|done|done]. eapply (group_effect_wait _ f x); try done. by rewrite Hc.
Qed.

Lemma group_drop_ok f x :
  group_ok x → is_Some (waits x !! f) → wp (exec (WaitDrop f)) x (effect (WaitDrop f) x).
Proof.
  intros Hx [tk Hf]. simpl. unfold wait_drop. wp_auto. eapply wp_expect; [done|].
  pose proof (handles_zero x Hx) as Hz. pose proof (go_waits _ Hx) as Ht.
  assert (parked_kept f (waiters (st x)) (waits x) (waiters (st x)) (delete f (waits x))) as Hk.
  { apply parked_kept_same. intros g Hne. by rewrite lookup_delete_ne. }
  wp_auto. unfold unregister. destruct tk as [t|]; wp_auto.
  - case_bool_decide as E; wp_auto.
    + assert (closed x = true) as Hc by (apply bool_decide_eq_true; tauto).
      eapply (group_effect_wait _ f x); try done; simpl. rewrite Hc in *. by eapply terminal_void.
    + assert (closed x = false) as Hc by (apply bool_decide_eq_false; tauto). rewrite Hc in *.
      wp_apply terminal_unregister; [done..|]. intros [tk' r] s' [Ht' Hk']. wp_auto.
      eapply (group_effect_wait _ f x); try done. by rewrite Hc.
  - eapply (group_effect_wait _ f x); try done. by apply terminal_drop.
Qed.

Lemma group_exec_ok l x : group_ok x → enabled l x = true → wp (exec l) x (effect l x).
Proof.
  intros Hx He. destruct l as [h h'|h|h f|h f|f g|f|f cx|f]; try apply enabled_and in He as [H1 H2];
    try apply bool_decide_eq_true in He.
  - by apply group_clone_ok.
  - by apply group_release_ok.
  - apply group_release_ok; try done. by intros g [= <-].
  - by apply group_notify_ok.
  - by apply group_wait_clone_ok.
  - by apply group_probe_ok.
  - wp_apply group_poll_ok; [done..|]. by intros o x' [].
  - by apply group_drop_ok.
Qed.

Lemma group_init_ok : group_ok init.
Proof. split; [done|done|done|]. rewrite closed_ne by done. apply terminal_new. Qed.

Lemma group_run_ok x ls tr x' : group_ok x → returns (run enabled exec ls) x tr x' → group_ok x'.
Proof.
  apply run_invariant. intros y l Hy He. wp_apply group_exec_ok; [done..|]. by intros o y' [].
Qed.

(** ** Theorems *)

(** A wait completes exactly when no handle is alive: its poll is ready if and only if every
    handle has been dropped or turned into a wait, and from then on no handle can appear again. *)
Theorem waitgroup_completes_iff_released ls tr x f cx ls' tr' x' :
  returns (run enabled exec ls) init tr x → enabled (WaitPoll f cx) x = true →
  returns (run enabled exec ls') x tr' x' →
  (∃ o x1, returns (exec (WaitPoll f cx)) x o x1 ∧ completed o = bool_decide (groups x = ∅)) ∧
  (groups x = ∅ → groups x' = ∅).
Proof.
  intros Hr He Hr'. pose proof (group_run_ok _ _ _ _ group_init_ok Hr) as Hx. split.
  - apply enabled_and in He as [Hf Hroom].
    pose proof (group_poll_ok f cx x Hx Hf Hroom) as (o & x1 & Hx1 & _ & Hc & _)%wp_returns. by exists o, x1.
  - intros Hg. eapply (run_invariant enabled exec (λ y, group_ok y ∧ groups y = ∅)); [|by split|exact Hr'].
    intros y l [Hy Eg] Hl. wp_apply group_exec_ok; [done..|]. intros o y' Ho. split; [by destruct Ho|].
    by apply (ef_final _ _ _ _ Ho).
Qed.

(** No wait of a group is left asleep: a wait that polled pending with a waker and has not been
    polled since is woken through it by the time no handle is alive or being released. *)
Theorem waitgroup_no_lost_wakeup ls tr x f cx o x1 ls' tr' x' :
  returns (run enabled exec ls) init tr x →
  enabled (WaitPoll f cx) x = true → returns (exec (WaitPoll f cx)) x o x1 → completed o = false →
  Forall (λ l, bool_decide (about l ≠ Some f) = true) ls' → returns (run enabled exec ls') x1 tr' x' →
  groups x' = ∅ → releasing x' = ∅ → Exists (λ e, cx ∈ woken e.2) tr'.
Proof.
  intros Hr He Hx1 Hco Hab Hr' Hg Hrel. pose proof (group_run_ok _ _ _ _ group_init_ok Hr) as Hx.
  apply enabled_and in He as [Hf Hroom].
  apply (wp_returns_elim _ _ _ _ _ (group_poll_ok f cx x Hx Hf Hroom)) in Hx1 as (Hef & _ & Hp%(λ H, H Hco)).
  edestruct (run_promise enabled exec group_ok (λ y, parked f cx y) (λ o, cx ∈ woken o)
    (λ l, bool_decide (about l ≠ Some f)) ls' x1) as [H|H]; [|by destruct Hef|done|done|exact Hr'| |exact H].
  - intros y l Hy Hl Hab'%bool_decide_eq_true. wp_apply group_exec_ok; [done..|]. intros o' y' Hy'.
    split; [by destruct Hy'|]. by apply (ef_parked _ _ _ _ Hy').
  - destruct (group_run_ok x1 ls' tr' x') as [_ _ _ Ht]; [by destruct Hef|done|].
    unfold closed in Ht. rewrite bool_decide_eq_true_2 in Ht by done. exfalso.
    eapply terminal_none_parked; [exact Ht|by intros []|exact H].
Qed.

(** Two handles, one of which becomes the wait that is polled. *)
Definition shared_work : list Label :=
  [GroupClone 0 1; IntoFuture 0 0; WaitPoll 0 4%nat; WaitClone 0 1; WaitPoll 1 5%nat; GroupDrop 1; Notify 1 9;
   WaitProbe 0].

Definition group_after (ls : list Label) : Sys :=
  match run enabled exec ls init with Ret _ x | Panic _ x => x end.

Lemma waitgroup_completes_iff_released_witness :
  groups (group_after shared_work) = ∅ ∧
  (∃ o x1, returns (exec (WaitPoll 1 5%nat)) (group_after shared_work) o x1 ∧
    completed o = bool_decide (groups (group_after shared_work) = ∅)) ∧
  (groups (group_after shared_work) = ∅ → groups (group_after shared_work) = ∅).
Proof.
  split; [vm_compute; reflexivity|].
  eapply (waitgroup_completes_iff_released shared_work _ _ 1 5%nat []);
    [vm_compute; reflexivity|vm_compute; reflexivity|vm_compute; reflexivity].
Defined.

Lemma waitgroup_no_lost_wakeup_witness :
  ∃ tr x, returns (run enabled exec (take 4 (drop 3 shared_work))) (group_after (take 3 shared_work)) tr x ∧
    Exists (λ e, 4%nat ∈ woken e.2) tr.
Proof.
  eexists _, _. split; [vm_compute; reflexivity|].
  eapply (waitgroup_no_lost_wakeup (take 2 shared_work) _ _ 0 4%nat _ _ (take 4 (drop 3 shared_work)));
    [vm_compute; reflexivity|vm_compute; reflexivity|vm_compute; reflexivity|done| |vm_compute; reflexivity
    |vm_compute; reflexivity|vm_compute; reflexivity].
  repeat constructor.
Defined.
