(* ===== verification/Shutdown.v ===== *)
(** * Graceful shutdown

    [asyncband/src/shutdown/mod.rs]: a latch of count one that carries the request and a wait group
    whose handles are the guards.  The system is the latch of Countdown and the wait group of
    WaitGroup side by side, with the polls of the [Shutdown] handles, which first request the
    shutdown and then poll their wait. *)
From S2P Require Import Prelude Arena WakerBatch WakerSet Countdown WaitGroup.

(** A poll of a [Shutdown]: in [request_shutdown], whose thread bears the handle's number; then past
    the first look at the wait group. *)
Inductive Polling : Type :=
| Requesting
| Locking.

Record Sys : Type := mkSys {
  latch : Latch;
  group : WaitGroup.Sys;
  polling : gmap nat Polling;
  watches : gset nat;
}.

Definition set_latch (y : Latch) (x : Sys) : Sys := mkSys y (group x) (polling x) (watches x).
Definition set_group (y : WaitGroup.Sys) (x : Sys) : Sys := mkSys (latch x) y (polling x) (watches x).
Definition set_polling (g : gmap nat Polling) (x : Sys) : Sys := mkSys (latch x) (group x) g (watches x).
Definition set_watches (g : gset nat) (x : Sys) : Sys := mkSys (latch x) (group x) (polling x) g.
Definition in_latch {A : Type} (m : M Latch A) : M Sys A := zoom latch set_latch m.
Definition in_group {A : Type} (m : M WaitGroup.Sys A) : M Sys A := zoom group set_group m.
#[export] Hint Unfold in_latch in_group : band_zoom.

(** What a step shows: a [Shutdown] is complete, the request was observed, tasks woken. *)
Record Obs : Type := mkObs {
  completed : bool;
  observed : bool;
  woken : list Waker;
}.
Definition silent : Obs := mkObs false false [].
Definition latch_obs (o : Countdown.Obs) : Obs := mkObs false (Countdown.completed o) (Countdown.woken o).
(** An operation on the wait group that is not a poll. *)
Definition guard_obs (o : WaitGroup.Obs) : Obs := mkObs false false (WaitGroup.woken o).
Definition group_obs (o : WaitGroup.Obs) : Obs := mkObs (WaitGroup.completed o) false (WaitGroup.woken o).

(** [wg.clone().into_future()]. *)
Definition first_wait : M WaitGroup.Sys unit :=
  group_clone 1;;
  group_release 1 (Some 0%nat);;
  mret tt.

Definition new : Sys :=
  mkSys (latch_new 1) (match first_wait WaitGroup.init with Ret _ g | Panic _ g => g end) ∅ ∅.

(** ** Handles *)
Definition request_shutdown (d : nat) : M Sys Obs :=
  o ← in_latch (count_down d);
  mret (latch_obs o).

(** The next step of a [request_shutdown] in flight. *)
Definition request_step (spurious : bool) (d : nat) : M Sys Obs :=
  o ← in_latch (arrive_step spurious d);
  mret (mkObs false false (Countdown.woken o)).

(** [Shutdown::poll]: the request, *)
Definition poll_request (f : nat) : M Sys Obs :=
  o ← request_shutdown f;
  modify (λ x, set_polling (<[f:=Requesting]> (polling x)) x);;
  mret o.

(** and the poll of the wait, in its two parts. *)
Definition poll_probe (f : nat) : M Sys Obs :=
  o ← in_group (WaitGroup.wait_probe f);
  modify (λ x, set_polling (if WaitGroup.completed o then delete f (polling x) else <[f:=Locking]> (polling x)) x);;
  mret (group_obs o).

Definition poll_locked (f : nat) (cx : Waker) : M Sys Obs :=
  o ← in_group (WaitGroup.wait_poll f cx);
  modify (λ x, set_polling (delete f (polling x)) x);;
  mret (group_obs o).

Definition shutdown_clone (f g : nat) : M Sys Obs := o ← in_group (wait_clone f g); mret (guard_obs o).
Definition shutdown_drop (f : nat) : M Sys Obs := o ← in_group (WaitGroup.wait_drop f); mret (guard_obs o).

(** ** Guards and watches *)
Definition guard_clone (h : nat) : M Sys Obs := o ← in_group (group_clone h); mret (guard_obs o).
Definition guard_drop (h : nat) : M Sys Obs := o ← in_group (group_release h None); mret (guard_obs o).
Definition guard_notify (h f : nat) : M Sys Obs := o ← in_group (group_notify h f); mret (guard_obs o).
Definition add_watch (k : nat) : M Sys Obs := modify (λ x, set_watches ({[k]} ∪ watches x) x);; mret silent.
Definition drop_watch (k : nat) : M Sys Obs := modify (λ x, set_watches (watches x ∖ {[k]}) x);; mret silent.
Definition into_watch (h k : nat) : M Sys Obs :=
  add_watch k;;
  guard_drop h.

Definition is_shutdown_requested : M Sys Obs :=
  x ← get;
  mret (mkObs false (match try_wait (latch_state (latch x)) with Ok _ => true | Err _ => false end) []).

(** The futures of [shutdown_requested] and [shutdown_requested_owned]. *)
Definition requested_new (f : nat) : M Sys Obs := o ← in_latch (wait_new f); mret (latch_obs o).
Definition requested_probe (f : nat) : M Sys Obs := o ← in_latch (Countdown.wait_probe f); mret (latch_obs o).
Definition requested_poll (f : nat) (cx : Waker) : M Sys Obs := o ← in_latch (Countdown.wait_poll f cx); mret (latch_obs o).
Definition requested_drop (f : nat) : M Sys Obs := o ← in_latch (Countdown.wait_drop f); mret (latch_obs o).

Inductive Label : Type :=
| Request (f d : nat)
| RequestStep (spurious : bool) (d : nat)
| Poll (f : nat)
| PollProbe (f : nat)
| PollLocked (f : nat) (cx : Waker)
| ShutdownClone (f g : nat)
| ShutdownDrop (f : nat)
| GuardClone (h h' : nat)
| GuardDrop (h : nat)
| IntoWatch (h k : nat)
| GuardNotify (h f : nat)
| GuardWatch (h k : nat)
| WatchClone (j k : nat)
| WatchDrop (k : nat)
| IsRequested
| RequestedNew (f : nat)
| RequestedProbe (f : nat)
| RequestedPoll (f : nat) (cx : Waker)
| RequestedDrop (f : nat).

Definition is_polling (p : Polling) (f : nat) (x : Sys) : bool :=
  match polling x !! f, p with
  | Some Requesting, Requesting | Some Locking, Locking => true
  | _, _ => false
  end.
Definition idle_handle (f : nat) (x : Sys) : bool := bool_decide (polling x !! f = None).

(** A handle is not used by others while it is polled. *)
Definition enabled (l : Label) (x : Sys) : bool :=
  match l with
  | Request f d =>
      bool_decide (is_Some (waits (group x) !! f)) && idle_handle f x && idle_handle d x && Countdown.enabled (CountDown d) (latch x)
  | RequestStep b d => Countdown.enabled (Step b d) (latch x)
  | Poll f => bool_decide (is_Some (waits (group x) !! f)) && idle_handle f x && Countdown.enabled (CountDown f) (latch x)
  | PollProbe f => is_polling Requesting f x && bool_decide (threads (latch x) !! f = None) &&
      WaitGroup.enabled (WaitProbe f) (group x)
  | PollLocked f cx => is_polling Locking f x && WaitGroup.enabled (WaitPoll f cx) (group x)
  | ShutdownClone f g => idle_handle f x && idle_handle g x && WaitGroup.enabled (WaitClone f g) (group x)
  | ShutdownDrop f => idle_handle f x && WaitGroup.enabled (WaitDrop f) (group x)
  | GuardClone h h' => WaitGroup.enabled (GroupClone h h') (group x)
  | GuardDrop h => WaitGroup.enabled (GroupDrop h) (group x)
  | IntoWatch h k => bool_decide (k ∉ watches x) && WaitGroup.enabled (GroupDrop h) (group x)
  | GuardNotify h f => WaitGroup.enabled (Notify h f) (group x)
  | GuardWatch h k => bool_decide (h ∈ groups (group x)) && bool_decide (k ∉ watches x)
  | WatchClone j k => bool_decide (j ∈ watches x) && bool_decide (k ∉ watches x)
  | WatchDrop k => bool_decide (k ∈ watches x)
  | IsRequested => bool_decide (groups (group x) ≠ ∅ ∨ watches x ≠ ∅)
  | RequestedNew f => bool_decide (groups (group x) ≠ ∅ ∨ watches x ≠ ∅) && Countdown.enabled (WaitNew f) (latch x)
  | RequestedProbe f => Countdown.enabled (Countdown.WaitProbe f) (latch x)
  | RequestedPoll f cx => Countdown.enabled (Countdown.WaitPoll f cx) (latch x)
  | RequestedDrop f => Countdown.enabled (Countdown.WaitDrop f) (latch x)
  end.

Definition exec (l : Label) : M Sys Obs :=
  match l with
  | Request _ d => request_shutdown d
  | RequestStep b d => request_step b d
  | Poll f => poll_request f
  | PollProbe f => poll_probe f
  | PollLocked f cx => poll_locked f cx
  | ShutdownClone f g => shutdown_clone f g
  | ShutdownDrop f => shutdown_drop f
  | GuardClone _ h' => guard_clone h'
  | GuardDrop h => guard_drop h
  | IntoWatch h k => into_watch h k
  | GuardNotify h f => guard_notify h f
  | GuardWatch _ k | WatchClone _ k => add_watch k
  | WatchDrop k => drop_watch k
  | IsRequested => is_shutdown_requested
  | RequestedNew f => requested_new f
  | RequestedProbe f => requested_probe f
  | RequestedPoll f cx => requested_poll f cx
  | RequestedDrop f => requested_drop f
  end.

(** ** Invariant *)

Implicit Types (x : Sys) (y : Latch) (l : Label) (f d h : nat) (w : Waker).

(** The latch: its count is one or zero, and so is what every request in flight has seen. *)
Record one_ok y : Prop := {
  oo_latch : latch_ok y;
  oo_count : count y <= 1;
  oo_threads : ∀ d n cnt, threads y !! d = Some (Decrement n cnt) → n = 1 ∧ cnt <= 1;
}.

Definition requested x : bool := bool_decide (count (latch x) = 0).

(** A poll that is past its request has seen it through. *)
Definition polling_ok x : Prop :=
  ∀ f p, polling x !! f = Some p → (p = Requesting → threads (latch x) !! f = None) → requested x = true.

Record shutdown_ok x : Prop := {
  so_latch : one_ok (latch x);
  so_group : group_ok (group x);
  so_polling : polling_ok x;
}.

(** The operations of the components an operation is made of. *)
Definition latch_part l : option Countdown.Label :=
  match l with
  | Request _ d | Poll d => Some (CountDown d)
  | RequestStep b d => Some (Step b d)
  | RequestedNew f => Some (WaitNew f)
  | RequestedProbe f => Some (Countdown.WaitProbe f)
  | RequestedPoll f cx => Some (Countdown.WaitPoll f cx)
  | RequestedDrop f => Some (Countdown.WaitDrop f)
  | _ => None
  end.
Definition group_part l : option WaitGroup.Label :=
  match l with
  | PollProbe f => Some (WaitProbe f)
  | PollLocked f cx => Some (WaitPoll f cx)
  | ShutdownClone f g => Some (WaitClone f g)
  | ShutdownDrop f => Some (WaitDrop f)
  | GuardClone h h' => Some (GroupClone h h')
  | GuardDrop h | IntoWatch h _ => Some (GroupDrop h)
  | GuardNotify h f => Some (Notify h f)
  | _ => None
  end.
Definition latch_about l : option nat := latch_part l ≫= Countdown.about.
Definition group_about l : option nat := group_part l ≫= WaitGroup.about.

Definition is_request l : bool := match l with Request _ _ | Poll _ => true | _ => false end.

(** The future [f] of [shutdown_requested], and the [Shutdown] [f], sleep with the waker [w]. *)
Definition watching f w x : Prop := Countdown.parked f w (latch x).
Definition sleeping f w x : Prop := set_parked (waiters (st (group x))) (waits (group x)) f w.

(** What an operation does: a shutdown completes only once it was requested and the guards are gone,
    the request is observed only once it was made, neither is taken back, and who sleeps sleeps on
    or is woken. *)
Record effect l x (o : Obs) x' : Prop := {
  ef_ok : shutdown_ok x';
  ef_completed : completed o = true → requested x = true ∧ groups (group x) = ∅;
  ef_observed : observed o = true → requested x = true;
  ef_requested : requested x = true → requested x' = true;
  ef_final : groups (group x) = ∅ → groups (group x') = ∅;
  ef_unrequested : is_request l = false → threads (latch x) = ∅ → threads (latch x') = ∅ ∧ requested x' = requested x;
  ef_watching : ∀ f w, latch_about l ≠ Some f → watching f w x → watching f w x' ∨ w ∈ woken o;
  ef_sleeping : ∀ f w, group_about l ≠ Some f → sleeping f w x → sleeping f w x' ∨ w ∈ woken o;
}.

(** What an operation does to such a latch: a request that ends leaves the count at zero. *)
Definition one_effect k y (o : Countdown.Obs) y' : Prop :=
  Countdown.effect k y o y' ∧ one_ok y' ∧ ∀ d, threads y' !! d = None → threads y !! d = None ∨ count y' = 0.

Lemma one_arrive_ok d y :
  one_ok y → threads y !! d = None →
  wp (count_down d) y (λ o y', one_effect (CountDown d) y o y' ∧ is_Some (threads y' !! d)).
Proof.
  intros [Hy Hc Ht] Hd. eapply wp_mono; [apply (wp_and _ _ (Countdown.effect (CountDown d) y) (λ _ y', threads y' = <[d:=Decrement 1 (count y)]> (threads y) ∧ count y' = count y))|].
  - apply (latch_arrive_ok (CountDown d)); by rewrite ?Hd.
  - unfold count_down, arrive. by wp_auto.
  - intros o y' [He [Et Ec]]. rewrite Et, lookup_insert_eq. split; [|by eexists]. split_and!; [done| |].
    + split; [by destruct He|lia|]. rewrite Et. intros e n cnt [[<- [= <- <-]]|[_ He']]%lookup_insert_Some; [lia|by eapply Ht].
    + intros e. rewrite Et. intros [He' _]%lookup_insert_None. by left.
Qed.

Lemma one_step_ok b d y :
  one_ok y → is_Some (threads y !! d) → wp (arrive_step b d) y (one_effect (Step b d) y).
Proof.
  intros [Hy Hc Ht] Hd. eapply wp_mono; [apply (wp_and _ _ (Countdown.effect (Step b d) y) (λ _ y', count y' <= 1 ∧
    (∀ e, e ≠ d → threads y' !! e = threads y !! e) ∧
    match threads y' !! d with Some (Decrement n cnt) => n = 1 ∧ cnt <= 1 | Some WakeAll => True | None => count y' = 0 end))|].
  - by apply arrive_step_ok.
  - destruct Hd as [pc Hd]. unfold arrive_step. wp_auto. eapply wp_expect; [done|].
    pose proof (lo_threads _ Hy d pc Hd) as Hpc. pose proof (lo_count _ Hy) as Hpos. unfold count in *. destruct pc as [n cnt|]; wp_auto.
    + destruct (Ht d n cnt Hd) as [-> Hcnt]. simpl in Hpc. unfold decrement_turn. case_bool_decide; wp_auto.
      * simpl. rewrite lookup_delete_eq. split_and!; [done|intros; by apply lookup_delete_ne|lia].
      * unfold cas_state, saturating_sub. wp_auto. destruct (negb b && _); wp_auto.
        -- case_bool_decide as E; wp_auto; simpl; [|lia]. rewrite lookup_insert_eq.
           split_and!; [lia|intros; by apply lookup_insert_ne|done].
        -- simpl. rewrite lookup_insert_eq. split_and!; [done|intros; by apply lookup_insert_ne|done|done].
    + unfold wake_all. wp_auto. simpl in *. rewrite lookup_delete_eq. split_and!; [done|intros; by apply lookup_delete_ne|done].
  - intros o y' (He & Hc' & Ho & Hd'). split_and!; [done| |].
    + split; [by destruct He|done|]. intros e n cnt He'. destruct (decide (e = d)) as [->|Hne]; [by rewrite He' in Hd'|].
      rewrite Ho in He' by done. by eapply Ht.
    + intros e He'. destruct (decide (e = d)) as [->|Hne]; [right; by rewrite He' in Hd'|left; by rewrite <-Ho].
Qed.

(** The operations of the futures of [shutdown_requested] leave the requests alone. *)
Lemma one_wait_ok k y o y' : one_ok y → is_Some (Countdown.about k) → Countdown.effect k y o y' → one_effect k y o y'.
Proof.
  intros [Hy Hc Ht] Ha He. destruct (ef_quiet _ _ _ _ He Ha) as [Et Ec]. split_and!; [done| |].
  - split; [by destruct He|lia|]. by rewrite Et.
  - intros d. rewrite Et. by left.
Qed.

(** ** The operations on the whole system *)

Lemma shutdown_latch_effect l k x o y' pl o' :
  shutdown_ok x → one_effect k (latch x) o y' → latch_part l = Some k → group_part l = None →
  completed o' = false → (observed o' = true → Countdown.completed o = true) → woken o' = Countdown.woken o →
  (∀ f p, pl !! f = Some p → polling x !! f = Some p ∨ p = Requesting ∧ is_Some (threads y' !! f)) →
  (is_request l = false → threads (latch x) = ∅ → threads y' = ∅ ∧ count y' = count (latch x)) →
  effect l x o' (mkSys y' (group x) pl (watches x)).
Proof.
  intros [Hl Hg Hp] (He & Hl' & Hth) El Eg Ec Eo Ew Hpl Hun. pose proof (ef_mono _ _ _ _ He) as Hm.
  assert (requested x = true → count y' = 0) as Hreq.
  { intros ?%bool_decide_eq_true. pose proof (lo_count _ (oo_latch _ Hl')). lia. }
  split; simpl; try done.
  - split; [done|done|]. intros f p Hf Hr. simpl in *. apply bool_decide_eq_true_2. simpl.
    destruct (Hpl f p Hf) as [Hf'|[-> [pc Hpc]]]; [|by rewrite Hr in Hpc].
    destruct p; [|apply Hreq; by eapply Hp]. destruct (Hth f (Hr eq_refl)) as [Hn|]; [|done]. apply Hreq. by eapply Hp.
  - by rewrite Ec.
  - intros Ho. apply bool_decide_eq_true. apply (Countdown.ef_completed _ _ _ _ He). by apply Eo.
  - intros Hr. apply bool_decide_eq_true_2. by apply Hreq.
  - intros Hn Ht. destruct (Hun Hn Ht) as [Et Ey]. split; [done|]. unfold requested. simpl. by rewrite Ey.
  - intros f w Ha Hw. unfold latch_about in Ha. rewrite El in Ha. rewrite Ew. by apply (Countdown.ef_parked _ _ _ _ He).
  - intros f w _ Hs. by left.
Qed.

Lemma shutdown_group_effect l k x o g' pl o' ws :
  shutdown_ok x → WaitGroup.effect k (group x) o g' → group_part l = Some k → latch_part l = None →
  (completed o' = true → requested x = true ∧ WaitGroup.completed o = true) → observed o' = false → woken o' = WaitGroup.woken o →
  (∀ f p, pl !! f = Some p → polling x !! f = Some p ∨ requested x = true) →
  effect l x o' (mkSys (latch x) g' pl ws).
Proof.
  intros [Hl Hg Hp] He Eg El Ec Eo Ew Hpl. split; simpl; try done.
  - split; [done|by destruct He|]. intros f p Hf Hr. destruct (Hpl f p Hf) as [Hf'|]; [|done]. by eapply (Hp f p).
  - intros [Hr Ho]%Ec. split; [done|]. by apply (WaitGroup.ef_completed _ _ _ _ He).
  - by rewrite Eo.
  - by apply (WaitGroup.ef_final _ _ _ _ He).
  - intros f w _ Hs. by left.
  - intros f w Ha Hw. unfold group_about in Ha. rewrite Eg in Ha. rewrite Ew. by apply (WaitGroup.ef_parked _ _ _ _ He).
Qed.

Lemma shutdown_bookkeeping l x ob ws :
  shutdown_ok x → completed ob = false → (observed ob = true → requested x = true) →
  effect l x ob (set_watches ws x).
Proof. intros Hx Ec Eo. destruct Hx as [Hl Hg Hp]. split; try done; [by rewrite Ec|by left|by left]. Qed.

(** An operation on the latch alone. *)
Lemma shutdown_wait_ok l k x :
  shutdown_ok x → Countdown.enabled k (latch x) = true → is_Some (Countdown.about k) →
  latch_part l = Some k → group_part l = None →
  wp (o ← in_latch (Countdown.exec k); mret (latch_obs o)) x (effect l x).
Proof.
  intros Hx He Ha El Eg. wp_auto. wp_apply latch_exec_ok; [by destruct Hx as [[] _ _]|done|]. intros o y' Ho. wp_auto.
  apply (shutdown_latch_effect l k x o); try done; [|by left|].
  - apply one_wait_ok; [by destruct Hx|done|done].
  - intros _ Ht. rewrite <-Ht. by apply (ef_quiet _ _ _ _ Ho).
Qed.

(** An operation on the wait group alone. *)
Lemma shutdown_guard_ok l k x ws :
  shutdown_ok x → WaitGroup.enabled k (group x) = true → latch_part l = None → group_part l = Some k →
  wp (o ← in_group (WaitGroup.exec k); mret (guard_obs o)) (set_watches ws x) (effect l x).
Proof.
  intros Hx He El Eg. wp_auto. wp_apply group_exec_ok; [by destruct Hx|done|]. intros o g' Ho. wp_auto.
  apply (shutdown_group_effect l k x o); try done. by left.
Qed.

(** The two parts of the poll of the wait. *)
Lemma shutdown_probe_ok f x :
  shutdown_ok x → enabled (PollProbe f) x = true → wp (poll_probe f) x (effect (PollProbe f) x).
Proof.
  intros Hx He. apply andb_true_iff in He as [[Hp Ht%bool_decide_eq_true]%andb_true_iff He].
  assert (requested x = true) as Hr.
  { unfold is_polling in Hp. destruct (polling x !! f) as [[]|] eqn:E; try done. by eapply (so_polling _ Hx f). }
  unfold poll_probe. wp_auto. wp_apply (group_exec_ok (WaitProbe f)); [by destruct Hx|done|]. intros o g' Ho. wp_auto.
  apply (shutdown_group_effect _ (WaitProbe f) x o); try done; by right.
Qed.

Lemma shutdown_poll_ok f cx x :
  shutdown_ok x → enabled (PollLocked f cx) x = true →
  wp (poll_locked f cx) x (λ o x', effect (PollLocked f cx) x o x' ∧
    completed o = bool_decide (groups (group x) = ∅) ∧ (completed o = false → sleeping f cx x')).
Proof.
  intros Hx He. apply andb_true_iff in He as [Hp He].
  assert (requested x = true) as Hr.
  { unfold is_polling in Hp. destruct (polling x !! f) as [[]|] eqn:E; try done. by eapply (so_polling _ Hx f). }
  apply enabled_and in He as [Hf Hroom].
  unfold poll_locked. wp_auto. wp_apply group_poll_ok; [by destruct Hx|done..|]. intros o g' (Ho & Hc & Hs). wp_auto.
  split_and!; [|done|done]. apply (shutdown_group_effect _ (WaitPoll f cx) x o); try done; by right.
Qed.

Lemma shutdown_exec_ok l x : shutdown_ok x → enabled l x = true → wp (exec l) x (effect l x).
Proof.
  intros Hx He. assert (∀ l m, wp m (set_watches (watches x) x) (effect l x) → wp m x (effect l x)) as Hset by (by destruct x). pose proof Hx as [Hl Hg Hp].
  destruct l as [f d|b d|f|f|f cx|f g|f|h h'|h|h k|h f|h k|j k|k| |f|f|f cx|f]; simpl exec.
  - simpl in He. rewrite !andb_true_iff, !bool_decide_eq_true in He. destruct He as (_ & Ht). unfold request_shutdown. wp_auto.
    wp_apply one_arrive_ok; [done..|]. intros o y' [Ho _]. wp_auto. apply (shutdown_latch_effect _ (CountDown d) x o); try done. by left.
  - apply bool_decide_eq_true in He. unfold request_step. wp_auto. wp_apply one_step_ok; [done..|]. intros o y' Ho. wp_auto.
    apply (shutdown_latch_effect _ (Step b d) x o); try done; [by left|]. intros _ Ht. rewrite Ht in He. by destruct He.
  - simpl in He. rewrite !andb_true_iff, !bool_decide_eq_true in He. destruct He as (_ & Ht). unfold poll_request, request_shutdown. wp_auto.
    wp_apply one_arrive_ok; [done..|]. intros o y' [Ho Hs]. wp_auto. apply (shutdown_latch_effect _ (CountDown f) x o); try done.
    simpl. intros g p [[<- <-]|[_ Hg']]%lookup_insert_Some; [by right|by left].
  - by apply shutdown_probe_ok.
  - wp_apply shutdown_poll_ok; [done..|]. by intros o x' [].
  - apply andb_true_iff in He as [_ He]. apply Hset. by apply (shutdown_guard_ok _ (WaitClone f g)).
  - apply andb_true_iff in He as [_ He]. apply Hset. by apply (shutdown_guard_ok _ (WaitDrop f)).
  - apply Hset. by apply (shutdown_guard_ok _ (GroupClone h h')).
  - apply Hset. by apply (shutdown_guard_ok _ (GroupDrop h)).
  - apply andb_true_iff in He as [_ He]. unfold into_watch, add_watch. wp_auto. by apply (shutdown_guard_ok _ (GroupDrop h)).
  - apply Hset. by apply (shutdown_guard_ok _ (Notify h f)).
  - unfold add_watch. wp_auto. by apply shutdown_bookkeeping.
  - unfold add_watch. wp_auto. by apply shutdown_bookkeeping.
  - unfold drop_watch. wp_auto. by apply shutdown_bookkeeping.
  - apply Hset. unfold is_shutdown_requested, try_wait. wp_auto. apply shutdown_bookkeeping; [done|done|]. simpl.
    fold (count (latch x)) (requested x). by destruct (requested x).
  - apply andb_true_iff in He as [_ He]. by apply (shutdown_wait_ok _ (WaitNew f)).
  - by apply (shutdown_wait_ok _ (Countdown.WaitProbe f)).
  - by apply (shutdown_wait_ok _ (Countdown.WaitPoll f cx)).
  - by apply (shutdown_wait_ok _ (Countdown.WaitDrop f)).
Qed.

Lemma requested_poll_ok f cx x :
  shutdown_ok x → enabled (RequestedPoll f cx) x = true →
  wp (requested_poll f cx) x (λ o x', observed o = false → watching f cx x').
Proof.
  intros Hx [Hf Hroom]%enabled_and. unfold requested_poll. wp_auto. wp_apply latch_poll_ok; [by destruct Hx as [[] _ _]|done..|].
  intros o y' (_ & Hc & Hp). wp_auto. simpl. rewrite Hc. intros ?%bool_decide_eq_false. by apply Hp.
Qed.

Lemma shutdown_new_ok : shutdown_ok new.
Proof.
  split; [|apply (group_run_ok WaitGroup.init [GroupClone 0 1; IntoFuture 1 0] [(GroupClone 0 1, WaitGroup.silent); (IntoFuture 1 0, WaitGroup.silent)])|done].
  - split; [by apply latch_init_ok|done|]. by intros d n cnt.
  - apply group_init_ok.
  - vm_compute. reflexivity.
Qed.

Lemma shutdown_run_ok x ls tr x' : shutdown_ok x → returns (run enabled exec ls) x tr x' → shutdown_ok x'.
Proof. apply run_invariant. intros y l Hy He. wp_apply shutdown_exec_ok; [done..|]. by intros o y' []. Qed.

(** Without a request, none is in flight and none is observed. *)
Lemma shutdown_unrequested ls tr x :
  returns (run enabled exec ls) new tr x → Forall (λ l, negb (is_request l) = true) ls → requested x = false.
Proof.
  intros Hr Hls. cut (shutdown_ok x ∧ threads (latch x) = ∅ ∧ requested x = false); [by intros (_ & _ & ?)|].
  eapply (run_invariant _ exec (λ x, shutdown_ok x ∧ threads (latch x) = ∅ ∧ requested x = false));
    [|split; [apply shutdown_new_ok|done]|exact (run_restrict _ _ _ _ _ _ _ Hls Hr)].
  intros y l (Hy & Ht & Hq) [He Hn]%andb_true_iff. wp_apply shutdown_exec_ok; [done..|]. intros o y' Ho.
  split; [by destruct Ho|]. rewrite <-Hq. apply (ef_unrequested _ _ _ _ Ho); [|done]. by destruct (is_request l).
Qed.

(** ** Theorems *)

(** A shutdown completes exactly after its guards: in every reachable state a poll that reaches
    the lock completes if and only if no guard is alive, every completion finds the shutdown
    requested and every guard gone, the request is observed only once it was made, which takes a
    call of [request_shutdown] or a poll, and neither the request nor the end of the guards is ever
    taken back. *)
Theorem shutdown_waits_for_guards ls tr x l o x1 :
  returns (run enabled exec ls) new tr x → enabled l x = true → returns (exec l) x o x1 →
  (∀ f cx, l = PollLocked f cx → completed o = bool_decide (groups (group x) = ∅)) ∧
  (completed o = true → requested x = true ∧ groups (group x) = ∅) ∧
  (observed o = true → requested x = true) ∧
  (requested x = true → requested x1 = true ∧ ¬ Forall (λ l, negb (is_request l) = true) ls) ∧
  (groups (group x) = ∅ → groups (group x1) = ∅).
Proof.
  intros Hr He Hx1. pose proof (shutdown_run_ok _ _ _ _ shutdown_new_ok Hr) as Hx.
  pose proof (wp_returns_elim _ _ _ _ _ (shutdown_exec_ok l x Hx He) Hx1) as Ho. split_and!; [|by destruct Ho..| |by destruct Ho].
  - intros f cx ->. by apply (wp_returns_elim _ _ _ _ _ (shutdown_poll_ok f cx x Hx He)) in Hx1 as (_ & ? & _).
  - intros Hq. split; [by apply (ef_requested _ _ _ _ Ho)|]. intros Hls. by rewrite (shutdown_unrequested ls tr x) in Hq.
Qed.

(** Nobody sleeps through a shutdown: a [Shutdown] that polled pending is woken by the time
    every guard is gone and its release is over, and a future of [shutdown_requested] that polled
    pending is woken by the time the shutdown is requested and the requests have returned, in every
    run in which they are not polled again or dropped. *)
Theorem shutdown_no_lost_wakeup ls tr x f cx l o x1 ls' tr' x' :
  returns (run enabled exec ls) new tr x → enabled l x = true → returns (exec l) x o x1 →
  returns (run enabled exec ls') x1 tr' x' →
  (l = PollLocked f cx → completed o = false → Forall (λ l, bool_decide (group_about l ≠ Some f) = true) ls' →
    groups (group x') = ∅ → releasing (group x') = ∅ → Exists (λ e, cx ∈ woken e.2) tr') ∧
  (l = RequestedPoll f cx → observed o = false → Forall (λ l, bool_decide (latch_about l ≠ Some f) = true) ls' →
    requested x' = true → threads (latch x') = ∅ → Exists (λ e, cx ∈ woken e.2) tr').
Proof.
  intros Hr He Hx1 Hr'. pose proof (shutdown_run_ok _ _ _ _ shutdown_new_ok Hr) as Hx.
  assert (shutdown_ok x1) as Hok1 by apply (wp_returns_elim _ _ _ _ _ (shutdown_exec_ok l x Hx He) Hx1).
  pose proof (shutdown_run_ok _ _ _ _ Hok1 Hr') as Hx'. split.
  - intros -> Hco Hab Hg Hrel. apply (wp_returns_elim _ _ _ _ _ (shutdown_poll_ok f cx x Hx He)) in Hx1 as (_ & _ & Hp%(λ H, H Hco)).
    edestruct (run_promise enabled exec shutdown_ok (sleeping f cx) (λ o, cx ∈ woken o)
      (λ l, bool_decide (group_about l ≠ Some f)) ls' x1) as [H|H]; [|exact Hok1|exact Hp|exact Hab|exact Hr'| |exact H].
    + intros y k Hy Hk Ha%bool_decide_eq_true. wp_apply shutdown_exec_ok; [done..|]. intros o' y' Hy'.
      split; [by destruct Hy'|]. by apply (ef_sleeping _ _ _ _ Hy').
    + pose proof (go_waits _ (so_group _ Hx')) as Ht. unfold closed in Ht. rewrite bool_decide_eq_true_2 in Ht by done.
      exfalso. eapply terminal_none_parked; [exact Ht|by intros []|exact H].
  - intros -> Hco Hab Hq Hth. apply (wp_returns_elim _ _ _ _ _ (requested_poll_ok f cx x Hx He)) in Hx1 as Hp; [|done].
    edestruct (run_promise enabled exec shutdown_ok (watching f cx) (λ o, cx ∈ woken o)
      (λ l, bool_decide (latch_about l ≠ Some f)) ls' x1) as [H|H]; [|exact Hok1|exact Hp|exact Hab|exact Hr'| |exact H].
    + intros y k Hy Hk Ha%bool_decide_eq_true. wp_apply shutdown_exec_ok; [done..|]. intros o' y' Hy'.
      split; [by destruct Hy'|]. by apply (ef_watching _ _ _ _ Hy').
    + apply bool_decide_eq_true in Hq. exfalso. by eapply latch_none_parked; [apply Hx'|..|exact H].
Qed.

(** Two guards, one with a watch; the shutdown is polled before the guards are dropped. *)
Definition two_guards : list Label :=
  [GuardClone 0 1; GuardWatch 0 0; RequestedNew 0; RequestedProbe 0; RequestedPoll 0 3%nat; Poll 0; RequestStep true 0;
   RequestStep false 0; RequestStep false 0; PollProbe 0; PollLocked 0 4%nat; IsRequested; GuardDrop 0; IntoWatch 1 1;
   GuardNotify 1 9].

Definition shutdown_after (ls : list Label) : Sys := match run enabled exec ls new with Ret _ x | Panic _ x => x end.

Lemma shutdown_waits_for_guards_witness :
  ∃ o x1, returns (exec (PollLocked 0 4%nat)) (shutdown_after (take 10 two_guards)) o x1 ∧
    completed o = bool_decide (groups (group (shutdown_after (take 10 two_guards))) = ∅) ∧ completed o = false.
Proof.
  eexists _, _. split; [vm_compute; reflexivity|]. split; [|reflexivity].
  eapply (shutdown_waits_for_guards (take 10 two_guards) _ _ (PollLocked 0 4%nat));
    [vm_compute; reflexivity|vm_compute; reflexivity|vm_compute; reflexivity|reflexivity].
Defined.

Lemma shutdown_no_lost_wakeup_witness :
  ∃ tr x, returns (run enabled exec (drop 11 two_guards)) (shutdown_after (take 11 two_guards)) tr x ∧
    Exists (λ e, 4%nat ∈ woken e.2) tr.
Proof.
  eexists _, _. split; [vm_compute; reflexivity|].
  refine (proj1 (shutdown_no_lost_wakeup (take 10 two_guards) _ _ 0 4%nat (PollLocked 0 4%nat) _ _ (drop 11 two_guards) _ _ _ _ _ _) _ _ _ _ _);
    [vm_compute; reflexivity|vm_compute; reflexivity|vm_compute; reflexivity|vm_compute; reflexivity
    |reflexivity|reflexivity| |vm_compute; reflexivity|vm_compute; reflexivity].
  repeat constructor.
Defined.
