(* ===== verification/Completion.v ===== *)
(** * The completion

    [asyncband/src/completion/mod.rs]: a result that is set once, by the completer or by its drop, and
    read by any number of observers.  The result is written under the lock that also detaches the
    registrations, so readers that find it set outside the lock have no registration left. *)
From S2P Require Import Prelude Arena WakerBatch WakerSet.

Section completion.
Context {T : Type}.

(** [result] is the [OnceLock<Option<T>>]: unset, or set to a value or to abandonment. *)
Record Shared : Type := mkShared {
  result : option (option T);
  waiters : WakerSet;
}.
Implicit Types (s : Shared) (v : T).

Definition set_waiters (w : WakerSet) s : Shared := mkShared (result s) w.
Definition in_waiters {A : Type} (m : M WakerSet A) : M Shared A := zoom waiters set_waiters m.

Definition new : Shared := mkShared None wakerset_new.

(** [OnceLock::set]. *)
Definition result_set (r : option T) : M Shared bool :=
  s ← get;
  match result s with
  | Some _ => mret false
  | None => put (mkShared (Some r) (waiters s));; mret true
  end.

(** The locked section shared by [complete] and the completer's drop: the tasks woken after it. *)
Definition resolve (r : option T) : M Shared (list Waker) :=
  s ← get;
  put (set_waiters wakerset_new s);;
  ok ← result_set r;
  assert_true ok "assertion failed: shared.result.set(..).is_ok()";;
  mret (set_wake_all (waiters s)).

(** [Wait::poll] up to the lock; the answer is the value or [Abandoned]. *)
Definition poll_probe (token : option WakerToken) s : option WakerToken * Poll (option T) :=
  match result s with
  | Some r => (None, Ready r)
  | None => (token, Pending)
  end.

Definition poll_locked (token : option WakerToken) (cx : Waker)
    : M Shared (option WakerToken * Poll (option T)) :=
  s ← get;
  match result s with
  | Some r => mret (None, Ready r)
  | None =>
      '(token, _) ← in_waiters (register token cx);
      mret (token, Pending)
  end.

(** [Wait::drop].  The result never changes once set, so the check made before taking the lock and
    the one made under it return early in the same cases: the section is atomic at the second. *)
Definition drop_probe (token : option WakerToken) s : bool :=
  bool_decide (token = None) || bool_decide (is_Some (result s)).

Definition drop_locked (token : option WakerToken) : M Shared unit :=
  s ← get;
  if drop_probe token s then mret tt
  else in_waiters (unregister token);; mret tt.
End completion.
Arguments Shared : clear implicits.

#[export] Hint Unfold in_waiters : band_zoom.

(** ** The system: a completer, observers and their waits *)

(** [owners] maps a wait to the observer it borrows; [armed] says that the completer has not been
    consumed. *)
Record Sys (T : Type) : Type := mkSys {
  sh : Shared T;
  armed : bool;
  observers : gset nat;
  owners : gmap nat nat;
  waits : tokens;
}.
Arguments mkSys {T}.
Arguments sh {T}.
Arguments armed {T}.
Arguments observers {T}.
Arguments owners {T}.
Arguments waits {T}.

Inductive Label (T : Type) : Type :=
| Complete (v : T)
| CompleterDrop
| ObserverClone (h h' : nat)
| ObserverDrop (h : nat)
| WaitNew (h f : nat)
| WaitProbe (f : nat)
| WaitPoll (f : nat) (cx : Waker)
| WaitDrop (f : nat).
Arguments Complete {T} v.
Arguments CompleterDrop {T}.
Arguments ObserverClone {T} h h'.
Arguments ObserverDrop {T} h.
Arguments WaitNew {T} h f.
Arguments WaitProbe {T} f.
Arguments WaitPoll {T} f cx.
Arguments WaitDrop {T} f.

(** The answer of a wait that completed, the value a failed [complete] gives back, tasks woken. *)
Record Obs (T : Type) : Type := mkObs {
  answer : Poll (option T);
  returned : option T;
  woken : list Waker;
}.
Arguments mkObs {T}.
Arguments answer {T}.
Arguments returned {T}.
Arguments woken {T}.

Section system.
Context {T : Type}.
Implicit Types (x : Sys T) (l : Label T) (s : Shared T) (f h : nat) (w : Waker) (v : T).

Definition silent : Obs T := mkObs Pending None [].

Definition set_sh s x : Sys T := mkSys s (armed x) (observers x) (owners x) (waits x).
Definition set_armed (b : bool) x : Sys T := mkSys (sh x) b (observers x) (owners x) (waits x).
Definition set_observers (g : gset nat) x : Sys T := mkSys (sh x) (armed x) g (owners x) (waits x).
Definition set_waits (o : gmap nat nat) (g : tokens) x : Sys T := mkSys (sh x) (armed x) (observers x) o g.
Definition on_sh {A : Type} (m : M (Shared T) A) : M (Sys T) A := zoom sh set_sh m.

(** [Weak::upgrade]: the allocation lives as long as an observer. *)
Definition upgrade x : bool := armed x && bool_decide (observers x ≠ ∅).

(** [Completer::complete], the drop of the disarmed completer included. *)
Definition complete v : M (Sys T) (Obs T) :=
  x ← get;
  if upgrade x then
    ws ← on_sh (resolve (Some v));
    modify (set_armed false);;
    mret (mkObs Pending None ws)
  else
    modify (set_armed false);;
    mret (mkObs Pending (Some v) []).

(** [Completer::drop]. *)
Definition completer_drop : M (Sys T) (Obs T) :=
  x ← get;
  if upgrade x then
    ws ← on_sh (resolve None);
    modify (set_armed false);;
    mret (mkObs Pending None ws)
  else
    modify (set_armed false);;
    mret silent.

(** [Completion::clone] and its drop. *)
Definition observer_clone h : M (Sys T) (Obs T) :=
  modify (λ x, set_observers ({[h]} ∪ observers x) x);; mret silent.
Definition observer_drop h : M (Sys T) (Obs T) :=
  modify (λ x, set_observers (observers x ∖ {[h]}) x);; mret silent.

(** [Completion::wait] creates a [Wait] without a token. *)
Definition wait h f : M (Sys T) (Obs T) :=
  modify (λ x, set_waits (<[f:=h]> (owners x)) (<[f:=None]> (waits x)) x);; mret silent.

Definition wait_probe f : M (Sys T) (Obs T) :=
  x ← get;
  token ← expect (waits x !! f) "no such future";
  let (token, r) := poll_probe token (sh x) in
  modify (set_waits (owners x) (<[f:=token]> (waits x)));;
  mret (mkObs r None []).

Definition wait_poll f (cx : Waker) : M (Sys T) (Obs T) :=
  x ← get;
  token ← expect (waits x !! f) "no such future";
  '(token, r) ← on_sh (poll_locked token cx);
  modify (set_waits (owners x) (<[f:=token]> (waits x)));;
  mret (mkObs r None []).

Definition wait_drop f : M (Sys T) (Obs T) :=
  x ← get;
  token ← expect (waits x !! f) "no such future";
  on_sh (drop_locked token);;
  modify (set_waits (delete f (owners x)) (delete f (waits x)));;
  mret silent.

Definition enabled l x : bool :=
  match l with
  | Complete _ | CompleterDrop => armed x
  | ObserverClone h h' => bool_decide (h ∈ observers x) && bool_decide (h' ∉ observers x)
  | ObserverDrop h => bool_decide (h ∈ observers x) && bool_decide (map_Forall (λ _ o, o ≠ h) (owners x))
  | WaitNew h f => bool_decide (h ∈ observers x) && bool_decide (waits x !! f = None)
  | WaitProbe f | WaitDrop f => bool_decide (is_Some (waits x !! f))
  | WaitPoll f _ => bool_decide (is_Some (waits x !! f)) && bool_decide (set_room (waiters (sh x)))
  end.

Definition exec l : M (Sys T) (Obs T) :=
  match l with
  | Complete v => complete v
  | CompleterDrop => completer_drop
  | ObserverClone _ h' => observer_clone h'
  | ObserverDrop h => observer_drop h
  | WaitNew h f => wait h f
  | WaitProbe f => wait_probe f
  | WaitPoll f cx => wait_poll f cx
  | WaitDrop f => wait_drop f
  end.

(** A completer and observer 0. *)
Definition init : Sys T := mkSys new true {[0%nat]} ∅ ∅.

(** ** Invariant *)

Definition closed x : bool := bool_decide (is_Some (result (sh x))).

(** The result is set only by the completer; unresolved after it only if nobody observed. *)
Record completion_ok x : Prop := {
  co_armed : armed x = true → result (sh x) = None;
  co_unresolved : armed x = false → result (sh x) = None → observers x = ∅;
  co_owners : ∀ f h, owners x !! f = Some h → h ∈ observers x;
  co_owned : ∀ f, is_Some (waits x !! f) → is_Some (owners x !! f);
  co_waits : terminal_ok (closed x) (waiters (sh x)) (waits x) False;
}.

Definition parked f w x : Prop := set_parked (waiters (sh x)) (waits x) f w.

Definition about l : option nat :=
  match l with
  | WaitProbe f | WaitPoll f _ | WaitDrop f => Some f
  | _ => None
  end.

Record effect l x (o : Obs T) x' : Prop := {
  ef_ok : completion_ok x';
  ef_stable : ∀ r, result (sh x) = Some r → result (sh x') = Some r;
  ef_answer : ∀ r, answer o = Ready r → result (sh x) = Some r;
  ef_parked : ∀ f w, about l ≠ Some f → parked f w x → parked f w x' ∨ w ∈ woken o;
}.
End system.

#[export] Hint Unfold on_sh : band_zoom.

Section preservation.
Context {T : Type}.
Implicit Types (x : Sys T) (l : Label T) (s : Shared T) (f h : nat) (w : Waker) (v : T).

Lemma closed_some x r : result (sh x) = Some r → closed x = true.
Proof. intros E. unfold closed. by rewrite E. Qed.
Lemma closed_none x : result (sh x) = None → closed x = false.
Proof. intros E. unfold closed. by rewrite E. Qed.

(** Consuming the completer: it resolves the completion unless nobody can observe it. *)
Lemma resolve_ok l r x :
  completion_ok x → armed x = true → upgrade x = true →
  wp (resolve r) (sh x) (λ ws s', result s' = Some r ∧
    (∀ f w, parked f w x → w ∈ ws) ∧ effect l x (mkObs Pending None ws) (set_armed false (set_sh s' x))).
Proof.
  intros [Ha Hu Ho Hd Ht] Harm _. unfold resolve, result_set. wp_auto. simpl. rewrite Ha by done. wp_auto.
  apply wp_assert; [done|]. wp_auto. split_and!; [done|intros f w Hp; by eapply parked_woken|].
  split; simpl; try done.
  - split; simpl; try done. rewrite (closed_some _ r) by done. apply terminal_notified.
  - intros r'. by rewrite Ha.
  - intros f w _ Hp. right. by eapply parked_woken.
Qed.

Lemma unobserved_ok l x o :
  completion_ok x → armed x = true → upgrade x = false → answer o = Pending → effect l x o (set_armed false x).
Proof.
  intros [Ha Hu Ho Hd Ht] Harm Hup Han. unfold upgrade in Hup. rewrite Harm in Hup. simpl in Hup.
  apply bool_decide_eq_false in Hup. split; simpl; try done; [|by rewrite Han|by left].
  split; simpl; try done. intros _ _. by apply dec_stable.
Qed.

(** An operation of one wait. *)
Lemma completion_effect_wait l f x s' ow g' o :
  completion_ok x → about l = Some f → result s' = result (sh x) →
  (∀ r, answer o = Ready r → result (sh x) = Some r) →
  terminal_ok (closed x) (waiters s') g' False → parked_kept f (waiters (sh x)) (waits x) (waiters s') g' →
  (∀ g h, ow !! g = Some h → owners x !! g = Some h) →
  (∀ g, is_Some (g' !! g) → is_Some (ow !! g)) →
  effect l x o (mkSys s' (armed x) (observers x) ow g').
Proof.
  intros [Ha Hu Ho Hd Ht] Hl Es Han Ht' Hk Hsub Hdom. split; simpl; try done.
  - split; simpl; rewrite ?Es; try done; [by eauto|]. unfold closed in *. simpl. by rewrite Es.
  - by rewrite Es.
  - intros g w Hne Hp. left. apply Hk; [congruence|done].
Qed.

Lemma insert_dom (g : tokens) (ow : gmap nat nat) f tk o :
  (∀ k, is_Some (g !! k) → is_Some (ow !! k)) → g !! f = Some tk →
  ∀ k, is_Some (<[f:=o]> g !! k) → is_Some (ow !! k).
Proof. intros Hd Hf k. rewrite lookup_insert. case_decide; [subst; eauto|by apply Hd]. Qed.

Lemma completion_probe_ok f x :
  completion_ok x → is_Some (waits x !! f) → wp (exec (WaitProbe f)) x (effect (WaitProbe f) x).
Proof.
  intros Hx [tk Hf]. simpl. unfold wait_probe. wp_auto. eapply wp_expect; [done|].
  pose proof (co_waits _ Hx) as Ht. pose proof (insert_dom _ _ _ _ None (co_owned _ Hx) Hf) as Hd.
  assert (parked_kept f (waiters (sh x)) (waits x) (waiters (sh x)) (<[f:=None]> (waits x))) as Hk.
  { apply parked_kept_same. intros g Hne. by rewrite lookup_insert_ne. }
  unfold poll_probe. destruct (result (sh x)) as [r|] eqn:E; wp_auto.
  - eapply (completion_effect_wait _ f x); try done; simpl; [by intros r' [= <-]|].
    rewrite (closed_some _ r E) in *. by eapply terminal_void.
  - rewrite insert_id by done. eapply (completion_effect_wait _ f x); try done; simpl; [|by apply (co_owned _ Hx)].
    by apply parked_kept_same.
Qed.

Lemma completion_poll_ok f cx x :
  completion_ok x → is_Some (waits x !! f) → set_room (waiters (sh x)) →
  wp (exec (WaitPoll f cx)) x (λ o x', effect (WaitPoll f cx) x o x' ∧
    answer o = match result (sh x) with Some r => Ready r | None => Pending end ∧
    (answer o = Pending → parked f cx x')).
Proof.
  intros Hx [tk Hf] Hroom. simpl. unfold wait_poll. wp_auto. eapply wp_expect; [done|].
  pose proof (co_waits _ Hx) as Ht. pose proof (λ o, insert_dom _ _ _ _ o (co_owned _ Hx) Hf) as Hd.
  wp_auto. unfold poll_locked. wp_auto. destruct (result (sh x)) as [r|] eqn:E; wp_auto.
  - split_and!; [|done|done]. eapply (completion_effect_wait _ f x); try done; simpl; [by intros r' [= <-]| | |by apply Hd].
    + rewrite (closed_some _ r E) in *. by eapply terminal_void.
    + apply parked_kept_same. intros g Hne. by rewrite lookup_insert_ne.
  - rewrite (closed_none _ E) in Ht. wp_apply terminal_register; [done..|].
    intros [tk' r] s' (Ht' & Hp & Hk). wp_auto. split_and!; [|done|done].
    eapply (completion_effect_wait _ f x); try done; simpl; [by rewrite closed_none|]. by apply Hd.
Qed.

Lemma completion_wait_drop_ok f x :
  completion_ok x → is_Some (waits x !! f) → wp (exec (WaitDrop f)) x (effect (WaitDrop f) x).
Proof.
  intros Hx [tk Hf]. simpl. unfold wait_drop. wp_auto. eapply wp_expect; [done|].
  pose proof (co_waits _ Hx) as Ht.
  assert (parked_kept f (waiters (sh x)) (waits x) (waiters (sh x)) (delete f (waits x))) as Hk.
  { apply parked_kept_same. intros g Hne. by rewrite lookup_delete_ne. }
  assert (∀ g h, delete f (owners x) !! g = Some h → owners x !! g = Some h) as Hsub
    by (by intros g h [_ ?]%lookup_delete_Some).
  assert (∀ g, is_Some (delete f (waits x) !! g) → is_Some (delete f (owners x) !! g)) as Hdom.
  { intros g. rewrite !lookup_delete. case_decide; [done|]. apply (co_owned _ Hx). }
  wp_auto. unfold drop_locked, drop_probe. wp_auto. destruct (decide (tk = None)) as [->|Hne].
  { rewrite bool_decide_eq_true_2 by done. wp_auto.
    eapply (completion_effect_wait _ f x); try done. by apply terminal_drop. }
  rewrite (bool_decide_eq_false_2 (tk = None)) by done. cbn [orb]. case_bool_decide as E; wp_auto.
  - eapply (completion_effect_wait _ f x); try done. destruct E as [r E]. rewrite (closed_some _ r E) in *.
    by eapply terminal_void.
  - apply eq_None_not_Some in E. rewrite (closed_none _ E) in Ht. wp_apply terminal_unregister; [done..|].
    intros r s' [Ht' Hk']. wp_auto. eapply (completion_effect_wait _ f x); try done. by rewrite closed_none.
Qed.

Lemma observers_ok l x :
  (∃ h h', l = ObserverClone h h') ∨ (∃ h, l = ObserverDrop h) ∨ (∃ h f, l = WaitNew h f) →
  completion_ok x → enabled l x = true → wp (exec l) x (effect l x).
Proof.
  intros Hl [Ha Hu Ho Hd Ht] He. destruct Hl as [(h & h' & ->)|[(h & ->)|(h & f & ->)]];
    apply enabled_and in He as [H1 H2]; simpl; unfold observer_clone, observer_drop, wait; wp_auto;
    (split; simpl; try done; [|first [by left|intros; left; by apply parked_fresh]]).
  - split; simpl; try done; [|set_solver]. intros H3 H4. specialize (Hu H3 H4). set_solver.
  - split; simpl; try done; [|].
    + intros H3 H4. specialize (Hu H3 H4). set_solver.
    + intros g k Hg. specialize (Ho _ _ Hg). apply H2 in Hg. set_solver.
  - split; simpl; try done.
    + intros g k [[_ <-]|[_ Hg]]%lookup_insert_Some; [done|by eauto].
    + intros g. rewrite !lookup_insert. case_decide; [done|]. apply Hd.
    + by apply terminal_fresh.
Qed.

Lemma completion_exec_ok l x : completion_ok x → enabled l x = true → wp (exec l) x (effect l x).
Proof.
  intros Hx He. destruct l as [v| |h h'|h|h f|f|f cx|f].
  - simpl in *. unfold complete. wp_auto. destruct (upgrade x) eqn:Hup; wp_auto; [|by apply unobserved_ok].
    wp_apply (resolve_ok (Complete v)); [done..|]. intros ws s' (_ & _ & H). by wp_auto.
  - simpl in *. unfold completer_drop. wp_auto. destruct (upgrade x) eqn:Hup; wp_auto; [|by apply unobserved_ok].
    wp_apply (resolve_ok CompleterDrop); [done..|]. intros ws s' (_ & _ & H). by wp_auto.
  - apply observers_ok; by eauto.
  - apply observers_ok; by eauto.
  - apply observers_ok; by eauto 6.
  - apply bool_decide_eq_true in He. by apply completion_probe_ok.
  - apply enabled_and in He as [??]. wp_apply completion_poll_ok; [done..|]. by intros o x' [].
  - apply bool_decide_eq_true in He. by apply completion_wait_drop_ok.
Qed.

Lemma completion_init_ok : completion_ok (init (T:=T)).
Proof. split; try done; [by intros f []|]. apply terminal_new. Qed.

Lemma completion_run_ok x ls tr x' : completion_ok x → returns (run enabled exec ls) x tr x' → completion_ok x'.
Proof. apply run_invariant. intros y l Hy He. wp_apply completion_exec_ok; [done..|]. by intros o y' []. Qed.

(** ** Theorems *)

(** All observers agree: every wait that completes in a run, through the fast path or under the
    lock, gets the one result the completion ends up with. *)
Theorem completion_answers_agree ls tr x :
  returns (run enabled exec ls) (init (T:=T)) tr x →
  Forall (λ e, ∀ r, answer e.2 = Ready r → result (sh x) = Some r) tr.
Proof.
  intros Hr. cut (completion_ok x ∧ Forall (λ e, ∀ r, answer e.2 = Ready r → result (sh x) = Some r) ([] ++ tr)).
  { by intros []. }
  eapply (run_trace_invariant enabled exec (λ tr x, completion_ok x ∧
    Forall (λ e, ∀ r, answer e.2 = Ready r → result (sh x) = Some r) tr)); [| |done].
  - clear. intros tr x l [Hx Htr] He. wp_apply completion_exec_ok; [done..|]. intros o x' Ho.
    split; [by destruct Ho|]. apply Forall_app. split.
    + eapply Forall_impl; [done|]. intros e H r Hr. apply (ef_stable _ _ _ _ Ho). by apply H.
    + apply Forall_singleton. intros r Hr. by apply (ef_stable _ _ _ _ Ho), (ef_answer _ _ _ _ Ho).
  - split; [apply completion_init_ok|done].
Qed.

(** Completing always works: the completer's [complete] does not panic; it gives the value back
    exactly when no observer is left, and otherwise publishes it and wakes every parked wait. *)
Theorem completion_complete_result ls tr x v :
  returns (run enabled exec ls) (init (T:=T)) tr x → armed x = true →
  ∃ o x', returns (complete v) x o x' ∧ armed x' = false ∧
    (observers x = ∅ → returned o = Some v ∧ result (sh x') = None) ∧
    (observers x ≠ ∅ → returned o = None ∧ result (sh x') = Some (Some v) ∧ ∀ f w, parked f w x → w ∈ woken o).
Proof.
  intros Hr Harm. pose proof (completion_run_ok _ _ _ _ completion_init_ok Hr) as Hx. apply wp_returns.
  unfold complete. wp_auto. destruct (upgrade x) eqn:Hup; wp_auto.
  - wp_apply (resolve_ok (Complete v)); [done..|]. intros ws s' (Hres & Hw & _). wp_auto.
    unfold upgrade in Hup. apply andb_true_iff in Hup as [_ Hup%bool_decide_eq_true]. by split_and!.
  - unfold upgrade in Hup. rewrite Harm in Hup. apply bool_decide_eq_false in Hup. split_and!; try done.
    intros _. split; [done|]. simpl. by apply (co_armed _ Hx).
Qed.

(** No observer is left asleep: a wait that polled pending with a waker and has not been polled
    since is woken through it once the completer has completed or been dropped. *)
Theorem completion_no_lost_wakeup ls tr x f cx o x1 ls' tr' x' :
  returns (run enabled exec ls) (init (T:=T)) tr x →
  enabled (WaitPoll f cx) x = true → returns (exec (WaitPoll f cx)) x o x1 → answer o = Pending →
  Forall (λ l, bool_decide (about l ≠ Some f) = true) ls' → returns (run enabled exec ls') x1 tr' x' →
  armed x' = false → Exists (λ e, cx ∈ woken e.2) tr'.
Proof.
  intros Hr He Hx1 Hco Hab Hr' Harm. pose proof (completion_run_ok _ _ _ _ completion_init_ok Hr) as Hx.
  apply enabled_and in He as [Hf Hroom].
  apply (wp_returns_elim _ _ _ _ _ (completion_poll_ok f cx x Hx Hf Hroom)) in Hx1 as (Hef & _ & Hp%(λ H, H Hco)).
  edestruct (run_promise enabled exec completion_ok (parked f cx) (λ o, cx ∈ woken o)
    (λ l, bool_decide (about l ≠ Some f)) ls' x1) as [H|H]; [|by destruct Hef|done|done|exact Hr'| |exact H].
  - intros y l Hy Hl Hab'%bool_decide_eq_true. wp_apply completion_exec_ok; [done..|]. intros o' y' Hy'.
    split; [by destruct Hy'|]. by apply (ef_parked _ _ _ _ Hy').
  - destruct (completion_run_ok x1 ls' tr' x') as [_ Hu Ho Hd Ht]; [by destruct Hef|done|]. exfalso.
    destruct (result (sh x')) as [r|] eqn:E.
    + rewrite (closed_some _ r E) in Ht. eapply terminal_none_parked; [exact Ht|tauto|exact H].
    + destruct H as (m & _ & t & Ht' & _). destruct (Hd f) as [h Hh%Ho]; [by eauto|]. rewrite Hu in Hh by done.
      set_solver.
Qed.
End preservation.

(** Two observers wait; one of them sees the value through the fast path. *)
Definition publish : list (Label nat) :=
  [WaitNew 0 0; WaitPoll 0 3%nat; ObserverClone 0 1; WaitNew 1 1; WaitPoll 1 4%nat; Complete 42%nat; WaitProbe 1].

Definition completion_after (ls : list (Label nat)) : Sys nat :=
  match run enabled exec ls init with Ret _ x | Panic _ x => x end.

Lemma completion_answers_agree_witness :
  ∃ tr x, returns (run enabled exec publish) init tr x ∧ result (sh x) = Some (Some 42%nat) ∧
    Forall (λ e, ∀ r, answer e.2 = Ready r → result (sh x) = Some r) tr.
Proof.
  eexists _, _. split; [vm_compute; reflexivity|]. split; [reflexivity|].
  eapply (completion_answers_agree publish); vm_compute; reflexivity.
Defined.

Lemma completion_complete_result_witness :
  ∃ o x', returns (complete 42%nat) (completion_after (take 5 publish)) o x' ∧ armed x' = false ∧
    (observers (completion_after (take 5 publish)) = ∅ → returned o = Some 42%nat ∧ result (sh x') = None) ∧
    (observers (completion_after (take 5 publish)) ≠ ∅ → returned o = None ∧ result (sh x') = Some (Some 42%nat) ∧
      ∀ f w, parked f w (completion_after (take 5 publish)) → w ∈ woken o).
Proof.
  eapply (completion_complete_result (take 5 publish)); vm_compute; reflexivity.
Defined.

Lemma completion_no_lost_wakeup_witness :
  ∃ tr x, returns (run enabled exec (drop 2 publish)) (completion_after (take 2 publish)) tr x ∧
    Exists (λ e, 3%nat ∈ woken e.2) tr.
Proof.
  eexists _, _. split; [vm_compute; reflexivity|].
  eapply (completion_no_lost_wakeup [WaitNew 0 0] _ _ 0 3%nat _ _ (drop 2 publish));
    [vm_compute; reflexivity|vm_compute; reflexivity|vm_compute; reflexivity|done| |vm_compute; reflexivity
    |vm_compute; reflexivity].
  repeat constructor.
Defined.
