(* ===== verification/Phaser.v ===== *)
(** * The phaser

    [asyncband/src/phaser/mod.rs]: a barrier whose parties come and go.  The phase advances when every
    registered party has arrived; a participant records its arrival as the phase it is pending in.
    Every operation is one critical section of the state lock, followed by the wake-ups. *)
From S2P Require Import Prelude Arena WakerBatch WakerSet.

(** The error [Closed]. *)
Inductive Closed : Type := mkClosed.

Record State : Type := mkState {
  phase : Z;
  closed : bool;
  registered : Z;
  unarrived : Z;
  waiters : WakerSet;
}.

Definition set_waiters (w : WakerSet) (s : State) : State :=
  mkState (phase s) (closed s) (registered s) (unarrived s) w.
Definition set_counts (r u : Z) (s : State) : State := mkState (phase s) (closed s) r u (waiters s).
Definition in_waiters {A : Type} (m : M WakerSet A) : M State A := zoom waiters set_waiters m.
#[export] Hint Unfold in_waiters : band_zoom.

Definition new : State := mkState 0 false 0 0 wakerset_new.

Definition advance_if_ready : M State WakerBatch :=
  s ← get;
  if closed s || bool_decide (unarrived s ≠ 0) then mret batch_new
  else
    put (mkState (wrapping_add u64_max (phase s) 1) (closed s) (registered s) (registered s) (waiters s));;
    in_waiters set_take_all.

(** The end of an arrival or a withdrawal: advance, unlock, wake. *)
Definition advance_and_wake : M State (list Waker) :=
  wakers ← advance_if_ready;
  batch_wake wakers.

Definition completion (observed : Z) (s : State) : Poll (result Z Closed) :=
  if bool_decide (phase s ≠ observed) then Ready (Ok (phase s))
  else if closed s then Ready (Err mkClosed)
  else Pending.

Definition close : M State (list Waker) :=
  s ← get;
  if closed s then mret []
  else
    put (mkState (phase s) true (registered s) (unarrived s) wakerset_new);;
    mret (set_wake_all (waiters s)).

Definition arrived_parties (s : State) : M State Z := sub_int (registered s) (unarrived s).

Definition do_register (parties : Z) : M State (result unit Closed) :=
  s ← get;
  if closed s then mret (Err mkClosed)
  else
    r ← expect (checked_add usize_max (registered s) parties) "Phaser registered-party count overflow";
    modify (set_counts r (unarrived s));;
    u ← add_int usize_max (unarrived s) parties;
    modify (set_counts r u);;
    mret (Ok tt).

(** ** Participants *)

Record PhaserParticipant : Type := mkParticipant {
  pending : option Z;
  is_registered : bool;
}.

Definition participant_new : PhaserParticipant := mkParticipant None true.

Definition arrive (q : PhaserParticipant) : M State (PhaserParticipant * result Z Closed * list Waker) :=
  s ← get;
  if closed s then mret (q, Err mkClosed, [])
  else
    (if bool_decide (pending q ≠ Some (phase s))
     then u ← sub_int (unarrived s) 1; modify (set_counts (registered s) u)
     else mret tt);;
    ws ← advance_and_wake;
    mret (mkParticipant (Some (phase s)) (is_registered q), Ok (phase s), ws).

Definition do_deregister (q : PhaserParticipant)
    : M State (PhaserParticipant * result Z Closed * list Waker) :=
  s ← get;
  r ← sub_int (registered s) 1;
  modify (set_counts r (unarrived s));;
  (if bool_decide (pending q ≠ Some (phase s))
   then u ← sub_int (unarrived s) 1; modify (set_counts r u)
   else mret tt);;
  let res := if closed s then Err mkClosed else Ok (phase s) in
  ws ← advance_and_wake;
  mret (mkParticipant (pending q) false, res, ws).

(** [PhaserParticipant::drop]. *)
Definition participant_drop (q : PhaserParticipant) : M State (list Waker) :=
  if is_registered q then '(_, _, ws) ← do_deregister q; mret ws else mret [].

(** [deregister] consumes the participant: its drop runs afterwards. *)
Definition deregister (q : PhaserParticipant) : M State (result Z Closed * list Waker) :=
  '(q, r, ws) ← do_deregister q;
  ws' ← participant_drop q;
  mret (r, ws ++ ws').

(** [PhaserParticipants::next]: the participant yielded and the number remaining. *)
Definition next (remaining : Z) : option PhaserParticipant * Z :=
  if bool_decide (remaining = 0) then (None, 0) else (Some participant_new, remaining - 1).

(** [PhaserParticipants::drop]. *)
Definition participants_drop (remaining : Z) : M State (list Waker) :=
  if bool_decide (remaining = 0) then mret []
  else
    s ← get;
    r ← sub_int (registered s) remaining;
    modify (set_counts r (unarrived s));;
    u ← sub_int (unarrived s) remaining;
    modify (set_counts r u);;
    advance_and_wake.

(** ** Waits *)

(** A [PhaserWait], with the participant it borrows when it belongs to
    [PhaserParticipant::wait]. *)
Record PhaserWait : Type := mkWait {
  observed : Z;
  token : option WakerToken;
  borrows : option nat;
}.

(** [PhaserWait::poll]. *)
Definition wait_poll (w : PhaserWait) (cx : Waker) : M State (PhaserWait * Poll (result Z Closed)) :=
  s ← get;
  match completion (observed w) s with
  | Ready r => mret (mkWait (observed w) None (borrows w), Ready r)
  | Pending =>
      '(tk, _) ← in_waiters (register (token w) cx);
      mret (mkWait (observed w) tk (borrows w), Pending)
  end.

(** [PhaserWait::drop]. *)
Definition wait_drop (w : PhaserWait) : M State unit :=
  match token w with
  | None => mret tt
  | Some _ =>
      s ← get;
      match completion (observed w) s with
      | Ready _ => mret tt
      | Pending => in_waiters (unregister (token w));; mret tt
      end
  end.

(** [PhaserParticipant::wait] up to its await: the wait goes on, or the phaser was closed. *)
Definition participant_wait (p : nat) (q : PhaserParticipant)
    : M State (PhaserParticipant * result PhaserWait Closed * list Waker) :=
  match pending q with
  | Some ph => mret (q, Ok (mkWait ph None (Some p)), [])
  | None =>
      '(q, r, ws) ← arrive q;
      match r with
      | Ok ph => mret (q, Ok (mkWait ph None (Some p)), ws)
      | Err e => mret (q, Err e, ws)
      end
  end.

(** ** The system: a phaser, its parties and the waits on it *)

(** [iters] are the participants registered in bulk and not yielded yet. *)
Record Sys : Type := mkSys {
  st : State;
  parts : gmap nat PhaserParticipant;
  iters : gmap nat Z;
  waits : gmap nat PhaserWait;
}.

Definition set_st (s : State) (x : Sys) : Sys := mkSys s (parts x) (iters x) (waits x).
Definition set_parts (g : gmap nat PhaserParticipant) (x : Sys) : Sys := mkSys (st x) g (iters x) (waits x).
Definition set_iters (g : gmap nat Z) (x : Sys) : Sys := mkSys (st x) (parts x) g (waits x).
Definition set_waits (g : gmap nat PhaserWait) (x : Sys) : Sys := mkSys (st x) (parts x) (iters x) g.
Definition on_st {A : Type} (m : M State A) : M Sys A := zoom st set_st m.
#[export] Hint Unfold on_st : band_zoom.

Inductive Label : Type :=
| RegisterOne (p : nat)
| Register (h : nat) (parties : Z)
| Next (h p : nat)
| ItersDrop (h : nat)
| Arrive (p : nat)
| PartWait (p f : nat)
| Deregister (p : nat)
| PartDrop (p : nat)
| WaitNew (f : nat) (observed : Z)
| WaitPoll (f : nat) (cx : Waker)
| WaitDrop (f : nat)
| Close.

(** The answer of an arrival, a withdrawal or a wait that completed, and the tasks woken. *)
Record Obs : Type := mkObs {
  answer : option (result Z Closed);
  woken : list Waker;
}.
Definition silent : Obs := mkObs None [].

(** [register_one]. *)
Definition register_one (p : nat) : M Sys Obs :=
  r ← on_st (do_register 1);
  match r with
  | Ok _ => modify (λ x, set_parts (<[p:=participant_new]> (parts x)) x);; mret silent
  | Err e => mret (mkObs (Some (Err e)) [])
  end.

(** [register]. *)
Definition register_many (h : nat) (parties : Z) : M Sys Obs :=
  r ← on_st (do_register parties);
  match r with
  | Ok _ => modify (λ x, set_iters (<[h:=parties]> (iters x)) x);; mret silent
  | Err e => mret (mkObs (Some (Err e)) [])
  end.

Definition iter_next (h p : nat) : M Sys Obs :=
  x ← get;
  r ← expect (iters x !! h) "no such iterator";
  let (q, r) := next r in
  modify (set_iters (<[h:=r]> (iters x)));;
  match q with
  | Some q => modify (set_parts (<[p:=q]> (parts x)));; mret silent
  | None => mret silent
  end.

Definition iter_drop (h : nat) : M Sys Obs :=
  x ← get;
  r ← expect (iters x !! h) "no such iterator";
  ws ← on_st (participants_drop r);
  modify (set_iters (delete h (iters x)));;
  mret (mkObs None ws).

Definition part_arrive (p : nat) : M Sys Obs :=
  x ← get;
  q ← expect (parts x !! p) "no such participant";
  '(q, r, ws) ← on_st (arrive q);
  modify (set_parts (<[p:=q]> (parts x)));;
  mret (mkObs (Some r) ws).

Definition part_wait (p f : nat) : M Sys Obs :=
  x ← get;
  q ← expect (parts x !! p) "no such participant";
  '(q, r, ws) ← on_st (participant_wait p q);
  modify (set_parts (<[p:=q]> (parts x)));;
  match r with
  | Ok w => modify (set_waits (<[f:=w]> (waits x)));; mret (mkObs None ws)
  | Err e => mret (mkObs (Some (Err e)) ws)
  end.

Definition part_deregister (p : nat) : M Sys Obs :=
  x ← get;
  q ← expect (parts x !! p) "no such participant";
  '(r, ws) ← on_st (deregister q);
  modify (set_parts (delete p (parts x)));;
  mret (mkObs (Some r) ws).

Definition part_drop (p : nat) : M Sys Obs :=
  x ← get;
  q ← expect (parts x !! p) "no such participant";
  ws ← on_st (participant_drop q);
  modify (set_parts (delete p (parts x)));;
  mret (mkObs None ws).

(** The future of a wait is gone once it completed; the participant's wait then clears [pending],
    unless the phaser was closed. *)
Definition poll_wait (f : nat) (cx : Waker) : M Sys Obs :=
  x ← get;
  w ← expect (waits x !! f) "no such future";
  '(w, r) ← on_st (wait_poll w cx);
  match r with
  | Pending => modify (set_waits (<[f:=w]> (waits x)));; mret silent
  | Ready r =>
      modify (set_waits (delete f (waits x)));;
      match borrows w, r with
      | Some p, Ok _ =>
          modify (set_parts (alter (λ q, mkParticipant None (is_registered q)) p (parts x)))
      | _, _ => mret tt
      end;;
      mret (mkObs (Some r) [])
  end.

Definition drop_wait (f : nat) : M Sys Obs :=
  x ← get;
  w ← expect (waits x !! f) "no such future";
  on_st (wait_drop w);;
  modify (set_waits (delete f (waits x)));;
  mret silent.

(** A participant that is waiting is mutably borrowed. *)
Definition idle (p : nat) (x : Sys) : Prop :=
  is_Some (parts x !! p) ∧ map_Forall (λ _ w, borrows w ≠ Some p) (waits x).

Definition in_range (x : Sys) (parties : Z) : Prop :=
  0 <= parties ∧ registered (st x) + parties <= usize_max.

(** The phase is a 64-bit counter that is not exhausted. *)
Definition enabled (l : Label) (x : Sys) : bool :=
  bool_decide (phase (st x) < u64_max) &&
  match l with
  | RegisterOne p => bool_decide (parts x !! p = None) && bool_decide (in_range x 1)
  | Register h parties => bool_decide (iters x !! h = None) && bool_decide (in_range x parties)
  | Next h p => bool_decide (is_Some (iters x !! h)) && bool_decide (parts x !! p = None)
  | ItersDrop h => bool_decide (is_Some (iters x !! h))
  | Arrive p | Deregister p | PartDrop p => bool_decide (idle p x)
  | PartWait p f => bool_decide (idle p x) && bool_decide (waits x !! f = None)
  | WaitNew f obs => bool_decide (waits x !! f = None)
  | WaitPoll f _ => bool_decide (is_Some (waits x !! f)) && bool_decide (set_room (waiters (st x)))
  | WaitDrop f => bool_decide (is_Some (waits x !! f))
  | Close => true
  end.

Definition exec (l : Label) : M Sys Obs :=
  match l with
  | RegisterOne p => register_one p
  | Register h parties => register_many h parties
  | Next h p => iter_next h p
  | ItersDrop h => iter_drop h
  | Arrive p => part_arrive p
  | PartWait p f => part_wait p f
  | Deregister p => part_deregister p
  | PartDrop p => part_drop p
  | WaitNew f obs => modify (λ x, set_waits (<[f:=mkWait obs None None]> (waits x)) x);; mret silent
  | WaitPoll f cx => poll_wait f cx
  | WaitDrop f => drop_wait f
  | Close => ws ← on_st close; mret (mkObs None ws)
  end.

Definition init : Sys := mkSys new ∅ ∅ ∅.

(** ** Invariant *)

Implicit Types (x : Sys) (s : State) (l : Label) (f p h : nat) (q : PhaserParticipant) (v : PhaserWait)
  (w : Waker).

(** A participant that has not arrived in phase [ph] counts one. *)
Definition absent (ph : Z) q : Z := if decide (pending q = Some ph) then 0 else 1.
Definition party q : Z := 1.
Definition unyielded (g : gmap nat Z) : Z := map_sum id g.

(** The token a wait may use: void once the wait can complete. *)
Definition live s v : option WakerToken :=
  match completion (observed v) s with Pending => token v | Ready _ => None end.
Abbreviation live_tokens x := (live (st x) <$> waits x).

(** What holds between the change of the counts and the advance of an operation. *)
Record counted x : Prop := {
  po_phase : 0 <= phase (st x) <= u64_max;
  po_max : registered (st x) <= usize_max;
  po_registered : registered (st x) = map_sum party (parts x) + unyielded (iters x);
  po_unarrived : unarrived (st x) = map_sum (absent (phase (st x))) (parts x) + unyielded (iters x);
  po_parts : ∀ p q, parts x !! p = Some q →
    is_registered q = true ∧ ∀ ph, pending q = Some ph → ph <= phase (st x);
  po_iters : ∀ h r, iters x !! h = Some r → 0 <= r;
  po_waits : ∀ f v, waits x !! f = Some v → (token v ≠ None → observed v <= phase (st x)) ∧
    ∀ p, borrows v = Some p → ∃ q, parts x !! p = Some q ∧ pending q = Some (observed v);
  po_borrow : ∀ f g v u p, waits x !! f = Some v → waits x !! g = Some u →
    borrows v = Some p → borrows u = Some p → f = g;
  po_set : ∃ m, set_rep (waiters (st x)) m ∧ owned (live_tokens x) m;
}.

(** An open phase in which everybody has arrived has been left. *)
Definition settled s : Prop := closed s = false → unarrived s = 0 → registered s = 0.

Definition phaser_ok x : Prop := counted x ∧ settled (st x).

Definition parked f w x : Prop :=
  ∃ m, set_rep (waiters (st x)) m ∧ WakerSet.registered (live_tokens x) m f w.

Lemma absent_nonneg ph q : 0 <= absent ph q.
Proof. unfold absent. case_decide; lia. Qed.

Lemma absent_new ph : absent ph participant_new = 1.
Proof. done. Qed.

Lemma unyielded_nonneg x : counted x → 0 <= unyielded (iters x).
Proof. intros Hx. apply map_sum_nonneg. apply (po_iters _ Hx). Qed.

Lemma absent_elem x p q :
  counted x → parts x !! p = Some q → absent (phase (st x)) q + unyielded (iters x) <= unarrived (st x).
Proof.
  intros Hx Hp. rewrite (po_unarrived _ Hx). unshelve epose proof
    (map_sum_elem (absent (phase (st x))) (parts x) p q _ Hp); [intros; apply absent_nonneg|lia].
Qed.

(** Nobody is absent: every participant has arrived and every bulk registration is used up. *)
Lemma none_absent x :
  counted x → unarrived (st x) = 0 →
  (∀ p q, parts x !! p = Some q → pending q = Some (phase (st x))) ∧ (∀ h r, iters x !! h = Some r → r = 0).
Proof.
  intros Hx Hu. pose proof (unyielded_nonneg _ Hx) as Hn. split.
  - intros p q Hp. pose proof (absent_elem x p q Hx Hp). unfold absent in *. case_decide; [done|lia].
  - intros h r Hh. pose proof (map_sum_elem id (iters x) h r (po_iters _ Hx) Hh) as Hr. simpl in Hr.
    pose proof (map_sum_nonneg (absent (phase (st x))) (parts x) (λ _ _ _, absent_nonneg _ _)).
    pose proof (po_iters _ Hx h r Hh). pose proof (po_unarrived _ Hx). unfold unyielded in *. unfold id in *. lia.
Qed.

Lemma live_ext s s' : phase s' = phase s → closed s' = closed s → live s' = live s.
Proof. intros Hp Hc. unfold live, completion. by rewrite Hp, Hc. Qed.

(** The waits of an advanced phaser hold no valid token. *)
Lemma live_advanced x s' v f :
  counted x → phase s' = phase (st x) + 1 → waits x !! f = Some v → live s' v = None.
Proof.
  intros Hx Hp Hf. unfold live, completion. case_bool_decide as E; [done|].
  destruct (closed s'); [done|]. destruct (token v) as [t|] eqn:Et; [|done].
  assert (observed v <= phase (st x)); [|lia]. apply (po_waits _ Hx f v Hf). congruence.
Qed.

Lemma advance_spec s m :
  set_rep (waiters s) m → 0 <= phase s < u64_max →
  wp advance_and_wake s (λ ws s',
    (ws = [] ∧ s' = s ∧ (closed s = true ∨ unarrived s ≠ 0)) ∨
    (closed s = false ∧ unarrived s = 0 ∧ ws ≡ₚ (map_to_list m).*2 ∧ set_rep (waiters s') ∅ ∧
     s' = mkState (phase s + 1) false (registered s) (registered s) (waiters s'))).
Proof.
  intros Hm Hp. unfold advance_and_wake, advance_if_ready. wp_auto.
  destruct (closed s || bool_decide (unarrived s ≠ 0)) eqn:E; wp_auto.
  - wp_apply batch_wake_spec; [apply batch_new_rep|]. intros ws s' [-> ->]. left. split_and!; [done..|].
    apply orb_true_iff in E as [?|?%bool_decide_eq_true]; auto.
  - apply orb_false_iff in E as [Hc E%bool_decide_eq_false]. apply dec_stable in E.
    wp_apply set_take_all_spec; [done|]. intros b ws' (ws & Hb & Hws & Hm'). wp_apply batch_wake_spec; [done|].
    intros us s' [-> ->]. right. simpl. split_and!; try done. rewrite Hc. unfold set_waiters. simpl. f_equal.
    unfold wrapping_add. rewrite Z.mod_small; [done|]. unfold u64_max in *. lia.
Qed.

(** The end of an operation restores the invariant. *)
Lemma settle x :
  counted x → phase (st x) < u64_max →
  wp advance_and_wake (st x) (λ ws s', phaser_ok (set_st s' x) ∧ closed s' = closed (st x) ∧
    ((ws = [] ∧ s' = st x) ∨
     (phase s' = phase (st x) + 1 ∧ closed (st x) = false ∧ unarrived (st x) = 0 ∧ ∀ f w, parked f w x → w ∈ ws))).
Proof.
  intros Hx Hmax. pose proof (po_set _ Hx) as (m & Hm & Hown). pose proof (po_phase _ Hx) as Hp0.
  wp_apply advance_spec; [done|lia|]. intros ws s' [(-> & -> & Hno)|(Hc & Hu & Hws & Hm' & ->)].
  - split_and!; [|done|by left]. split; [by destruct x|]. intros Hc Hu. simpl in Hc, Hu. by destruct Hno; congruence.
  - simpl in *. split_and!; [|done|right; split_and!; try done].
    + split; [|by unfold settled; simpl]. destruct (none_absent _ Hx Hu) as [Hparts Hiters]. destruct Hx. split; simpl; try done.
      * lia.
      * rewrite po_registered0. f_equal. apply map_sum_ext. intros p q Hp. unfold absent, party.
        rewrite decide_False; [done|]. rewrite (Hparts p q Hp). intros [= ?]. lia.
      * intros p q Hp. destruct (po_parts0 p q Hp) as [? H]. split; [done|]. intros ph Hph. apply H in Hph. lia.
      * intros f v Hf. destruct (po_waits0 f v Hf) as [H1 H2]. split; [|done]. intros Ht. apply H1 in Ht. lia.
      * exists ∅. split; [done|]. apply owned_none. intros f o. rewrite lookup_fmap, fmap_Some.
        intros (v & Hv & ->). by eapply live_advanced.
    + intros f w (m0 & Hm0 & Hr). pose proof (set_rep_inj _ _ _ Hm Hm0) as <-. by eapply registered_taken.
Qed.

(** The wait and the participant an operation belongs to. *)
Definition about l : option nat :=
  match l with
  | PartWait _ f | WaitNew f _ | WaitPoll f _ | WaitDrop f => Some f
  | _ => None
  end.
Definition actor l : option nat :=
  match l with
  | Arrive p | PartWait p _ | Deregister p | PartDrop p => Some p
  | _ => None
  end.

(** Every party other than the one acting has arrived in the current phase. *)
Definition others_arrived l x : Prop :=
  (∀ p q, parts x !! p = Some q → actor l ≠ Some p → pending q = Some (phase (st x))) ∧
  (∀ h r, iters x !! h = Some r → l ≠ ItersDrop h → r = 0).

Record effect l x (o : Obs) x' : Prop := {
  ef_ok : phaser_ok x';
  ef_closed : closed (st x) = true → closed (st x') = true ∧ phase (st x') = phase (st x);
  ef_phase : phase (st x') = phase (st x) ∨
    (phase (st x') = phase (st x) + 1 ∧ closed (st x) = false ∧ others_arrived l x);
  ef_waits : ∀ f, about l ≠ Some f → waits x' !! f = waits x !! f;
  ef_parked : ∀ f w, about l ≠ Some f → parked f w x → parked f w x' ∨ w ∈ woken o;
}.

(** The registrations seen by the waits that an operation does not touch. *)
Lemma parked_mid l x x0 f w :
  phase (st x0) = phase (st x) → closed (st x0) = closed (st x) → waiters (st x0) = waiters (st x) →
  (∀ g, about l ≠ Some g → waits x0 !! g = waits x !! g) → about l ≠ Some f →
  parked f w x → parked f w x0.
Proof.
  intros Hp Hc Hw Hwt Hf (m & Hm & t & Ht & Hmt). exists m. rewrite Hw. split; [done|]. exists t. split; [|done].
  rewrite (live_ext _ _ Hp Hc). rewrite lookup_fmap in *. by rewrite Hwt.
Qed.

(** An operation that changes the counts, reaching [x0], and ends with the advance. *)
Lemma effect_advance l x x0 :
  counted x0 → phase (st x) < u64_max →
  phase (st x0) = phase (st x) → closed (st x0) = closed (st x) → waiters (st x0) = waiters (st x) →
  (∀ g, about l ≠ Some g → waits x0 !! g = waits x !! g) →
  (∀ p, actor l ≠ Some p → parts x0 !! p = parts x !! p) →
  (∀ h, l ≠ ItersDrop h → iters x0 !! h = iters x !! h) →
  wp advance_and_wake (st x0) (λ ws s', ∀ a, effect l x (mkObs a ws) (set_st s' x0)).
Proof.
  intros Hx0 Hmax Hp Hc Hw Hwt Hpt Hit. wp_apply settle; [done|lia|].
  intros ws s' (Hok & Hcl & Hadv) a. split; simpl; try done.
  - intros E. rewrite Hcl, Hc. split; [done|]. destruct Hadv as [[_ ->]|(_ & Hop & _)]; congruence.
  - destruct Hadv as [[_ ->]|(E & Hop & Hu & _)]; [by left|right]. split_and!; [lia|congruence|].
    destruct (none_absent _ Hx0 Hu) as [H1 H2]. split.
    + intros p q Hq Ha. rewrite <-Hp. apply (H1 p). by rewrite Hpt.
    + intros h r Hr Hh. apply (H2 h). by rewrite Hit.
  - intros f w Hf Hpk. pose proof (parked_mid l x x0 f w Hp Hc Hw Hwt Hf Hpk) as H0.
    destruct Hadv as [[-> ->]|(_ & _ & _ & Hwk)]; [left; by destruct x0|right; by eapply Hwk].
Qed.

(** The same without an advance. *)
Lemma effect_plain l x x0 a :
  phaser_ok x0 → phase (st x0) = phase (st x) → closed (st x0) = closed (st x) →
  waiters (st x0) = waiters (st x) → (∀ g, about l ≠ Some g → waits x0 !! g = waits x !! g) →
  effect l x (mkObs a []) x0.
Proof.
  intros Hok Hp Hc Hw Hwt. split; simpl; try done; [intros E; by rewrite Hc, Hp|by left|].
  intros f w Hf Hpk. left. by eapply parked_mid.
Qed.

(** Participants and iterators may change while the waits and the set stay. *)
Lemma counted_mid x s0 g i :
  counted x → phase s0 = phase (st x) → closed s0 = closed (st x) → waiters s0 = waiters (st x) →
  registered s0 <= usize_max → registered s0 = map_sum party g + unyielded i →
  unarrived s0 = map_sum (absent (phase (st x))) g + unyielded i →
  (∀ p q, g !! p = Some q → is_registered q = true ∧ ∀ ph, pending q = Some ph → ph <= phase (st x)) →
  (∀ h r, i !! h = Some r → 0 <= r) →
  (∀ f v p q, waits x !! f = Some v → borrows v = Some p → parts x !! p = Some q → g !! p = Some q) →
  counted (mkSys s0 g i (waits x)).
Proof.
  intros [Hp Hmax Hr Hu Hpt Hit Hwt Hbi (m & Hm & Hown)] Ep Ec Ew Hmax' Hr' Hu' Hpt' Hit' Hb.
  split; simpl; rewrite ?Ep; try done.
  - intros f v Hf. destruct (Hwt f v Hf) as [H1 H2]. split; [done|]. intros p Hbp.
    destruct (H2 p Hbp) as (q & Hq & Hpq). exists q. split; [by eapply Hb|done].
  - exists m. rewrite Ew, (live_ext _ _ Ep Ec). done.
Qed.

Lemma counted_add_wait x f v :
  counted x → waits x !! f = None → token v = None →
  (∀ p, borrows v = Some p → idle p x ∧ ∃ q, parts x !! p = Some q ∧ pending q = Some (observed v)) →
  counted (set_waits (<[f:=v]> (waits x)) x).
Proof.
  intros [Hp Hmax Hr Hu Hpt Hit Hwt Hbi (m & Hm & Hown)] Hf Hv Hb. split; simpl; try done.
  - intros g u [[_ <-]|[_ Hg]]%lookup_insert_Some; [|by eauto]. split; [congruence|]. intros p Hp'. by apply Hb.
  - intros g k u u' p. rewrite !lookup_insert. do 2 case_decide; subst; try done.
    + intros [= <-] Hk Hbv Hbu. destruct (Hb p Hbv) as [[_ Hi] _]. by destruct (Hi k u' Hk).
    + intros Hg [= <-] Hbu Hbv. destruct (Hb p Hbv) as [[_ Hi] _]. by destruct (Hi g u Hg).
    + by apply Hbi.
  - exists m. split; [done|]. rewrite fmap_insert.
    assert (live (st x) v = None) as -> by (unfold live; by destruct (completion _ _)).
    apply owned_new; [done|]. by rewrite lookup_fmap, Hf.
Qed.

(** The waits of another participant are not affected by a change of an idle one. *)
Lemma idle_kept x p (g : gmap nat PhaserParticipant) :
  idle p x → (∀ p', p' ≠ p → g !! p' = parts x !! p') →
  ∀ f v p' q, waits x !! f = Some v → borrows v = Some p' → parts x !! p' = Some q → g !! p' = Some q.
Proof.
  intros [_ Hi] Hg f v p' q Hf Hb Hq. rewrite Hg; [done|]. intros ->. by apply (Hi f v Hf).
Qed.

(** The waits after participant [p] has arrived, with the wait it starts, if any. *)
Definition with_wait x p (fo : option nat) : gmap nat PhaserWait :=
  match fo with
  | Some f => <[f:=mkWait (phase (st x)) None (Some p)]> (waits x)
  | None => waits x
  end.

Lemma counted_arrived x p q u (fo : option nat) :
  counted x → parts x !! p = Some q → idle p x → (∀ f, fo = Some f → waits x !! f = None) →
  u = unarrived (st x) - absent (phase (st x)) q →
  counted (mkSys (set_counts (registered (st x)) u (st x))
    (<[p:=mkParticipant (Some (phase (st x))) (is_registered q)]> (parts x)) (iters x) (with_wait x p fo)).
Proof.
  intros Hx Hp Hi Hfo ->. pose proof Hx as [Hph Hmax Hr Hu Hpt Hit Hwt _ Hset].
  assert (counted (mkSys (set_counts (registered (st x)) (unarrived (st x) - absent (phase (st x)) q) (st x))
    (<[p:=mkParticipant (Some (phase (st x))) (is_registered q)]> (parts x)) (iters x) (waits x))) as H.
  { apply counted_mid; simpl; try done.
    - rewrite (map_sum_update _ _ _ q) by done. unfold party at 2 3. lia.
    - rewrite (map_sum_update _ _ _ q) by done. unfold absent at 4. simpl. rewrite decide_True by done. lia.
    - intros p' q' [[_ <-]|[_ Hq]]%lookup_insert_Some; [|by eauto]. simpl.
      split; [by apply (Hpt p q Hp)|]. intros ph [= <-]. lia.
    - eapply idle_kept; [done|]. intros p' Hne. by rewrite lookup_insert_ne. }
  destruct fo as [f|]; [|exact H]. simpl. apply (counted_add_wait _ f _ H); simpl; [by apply Hfo|done|].
  intros p' [= <-]. split; [|eexists; split; [apply lookup_insert_eq|done]].
  destruct Hi as [_ Hi]. split; [|done]. simpl. rewrite lookup_insert_eq. by eexists.
Qed.

Lemma participant_arrive_ok l x p q (fo : option nat) :
  phaser_ok x → parts x !! p = Some q → idle p x → phase (st x) < u64_max → actor l = Some p → about l = fo →
  (∀ f, fo = Some f → waits x !! f = None) →
  wp (arrive q) (st x) (λ r s',
    (closed (st x) = true ∧ r = (q, Err mkClosed, []) ∧ s' = st x) ∨
    (closed (st x) = false ∧ r.1 = (mkParticipant (Some (phase (st x))) (is_registered q), Ok (phase (st x))) ∧
     ∀ a, effect l x (mkObs a r.2) (mkSys s' (<[p:=r.1.1]> (parts x)) (iters x) (with_wait x p fo)))).
Proof.
  intros [Hx Hs] Hp Hi Hmax Hl Hab Hfo. unfold arrive. wp_auto. destruct (closed (st x)) eqn:Hc; wp_auto; [by left|].
  set (q' := mkParticipant (Some (phase (st x))) (is_registered q)).
  assert (∀ u s0, u = unarrived (st x) - absent (phase (st x)) q → s0 = set_counts (registered (st x)) u (st x) →
    wp advance_and_wake s0 (λ ws s', ∀ a, effect l x (mkObs a ws)
      (mkSys s' (<[p:=q']> (parts x)) (iters x) (with_wait x p fo)))) as Hadv.
  { intros u s0 Eu ->. pose proof (counted_arrived x p q u fo Hx Hp Hi Hfo Eu) as Hx0.
    wp_apply (effect_advance l x _ Hx0); simpl; try done.
    - intros g Hg. destruct fo as [f|]; [|done]. simpl. rewrite lookup_insert_ne; [done|]. congruence.
    - intros p' Hp'. rewrite lookup_insert_ne; [done|]. congruence. }
  pose proof (absent_elem x p q Hx Hp) as Habs. pose proof (unyielded_nonneg _ Hx). unfold absent in Hadv, Habs.
  case_bool_decide as E; wp_auto.
  - rewrite decide_False in Hadv, Habs by done. apply wp_sub_int; [lia|]. wp_auto.
    wp_apply Hadv; [done|done|]. intros ws s' H'. wp_auto. by right.
  - rewrite decide_True in Hadv by done. wp_apply (Hadv (unarrived (st x))); [lia|by destruct (st x)|].
    intros ws s' H'. wp_auto. by right.
Qed.

Lemma part_arrive_ok p x :
  phaser_ok x → idle p x → phase (st x) < u64_max → wp (exec (Arrive p)) x (effect (Arrive p) x).
Proof.
  intros Hx Hi Hmax. destruct (Hi) as [[q Hp] _]. simpl. unfold part_arrive. wp_auto. eapply wp_expect; [done|].
  wp_auto. wp_apply (participant_arrive_ok (Arrive p) x p q None); [done..|].
  intros [[q' r] ws] s' [(Hc & [= -> -> ->] & ->)|(Hc & E & Hef)]; wp_auto.
  - simpl. rewrite insert_id by done. apply effect_plain; try done. by destruct x.
  - by apply Hef.
Qed.

Lemma part_wait_ok p f x :
  phaser_ok x → idle p x → phase (st x) < u64_max → waits x !! f = None →
  wp (exec (PartWait p f)) x (effect (PartWait p f) x).
Proof.
  intros Hx Hi Hmax Hf. destruct (Hi) as [[q Hp] _]. simpl. unfold part_wait. wp_auto. eapply wp_expect; [done|].
  wp_auto. unfold participant_wait. destruct (pending q) as [ph|] eqn:Eq; wp_auto.
  - destruct Hx as [Hx Hs]. apply effect_plain; try done; simpl.
    + split; [|exact Hs]. unfold set_parts, set_st, set_waits. simpl.
      rewrite (insert_id (parts x)) by done. apply (counted_add_wait x f); [done..|]. simpl.
      intros p' [= <-]. split; [done|]. by exists q.
    + intros g Hg. rewrite lookup_insert_ne; [done|]. congruence.
  - wp_apply (participant_arrive_ok (PartWait p f) x p q (Some f)); try done; [by intros g [= <-]|].
    intros [[q' r] ws] s' [(Hc & [= -> -> ->] & ->)|(Hc & [= -> ->] & Hef)]; wp_auto.
    + simpl. rewrite insert_id by done. apply effect_plain; try done. by destruct x.
    + by apply Hef.
Qed.

(** A participant that withdraws. *)
Lemma do_deregister_ok l p q x :
  phaser_ok x → parts x !! p = Some q → idle p x → phase (st x) < u64_max → actor l = Some p → about l = None →
  wp (do_deregister q) (st x) (λ r s', r.1 = (mkParticipant (pending q) false,
      if closed (st x) then Err mkClosed else Ok (phase (st x))) ∧
    ∀ a, effect l x (mkObs a r.2) (mkSys s' (delete p (parts x)) (iters x) (waits x))).
Proof.
  intros [Hx Hs] Hp Hi Hmax Hl Hab. pose proof Hx as [Hph Hrmax Hr Hu Hpt Hit Hwt _ Hset].
  assert (∀ u s0, u = unarrived (st x) - absent (phase (st x)) q →
    s0 = set_counts (registered (st x) - 1) u (st x) →
    wp advance_and_wake s0 (λ ws s', ∀ a, effect l x (mkObs a ws)
      (mkSys s' (delete p (parts x)) (iters x) (waits x)))) as Hadv.
  { intros u s0 Eu ->.
    wp_apply (effect_advance l x (mkSys (set_counts (registered (st x) - 1) u (st x)) (delete p (parts x)) (iters x) (waits x)));
      simpl; try done.
    - apply counted_mid; simpl; try done; [lia| | | |].
      + rewrite (map_sum_delete _ _ _ q) by done. unfold party at 2. lia.
      + rewrite (map_sum_delete _ _ _ q) by done. lia.
      + intros p' q' [_ Hq]%lookup_delete_Some. by eauto.
      + eapply idle_kept; [done|]. intros p' Hne. by rewrite lookup_delete_ne.
    - intros p' Hp'. rewrite lookup_delete_ne; [done|]. congruence. }
  pose proof (absent_elem x p q Hx Hp) as Habs. pose proof (unyielded_nonneg _ Hx) as Hun.
  assert (1 <= registered (st x)) as Hr1.
  { unshelve epose proof (map_sum_elem party (parts x) p q _ Hp); unfold party in *; [lia|lia]. }
  unfold do_deregister. wp_auto. apply wp_sub_int; [done|]. wp_auto. unfold absent in Hadv, Habs.
  case_bool_decide as E; wp_auto.
  - rewrite decide_False in Hadv, Habs by done. apply wp_sub_int; [lia|]. wp_auto.
    wp_apply Hadv; [done|done|]. intros ws s' H'. by wp_auto.
  - rewrite decide_True in Hadv by done. wp_apply (Hadv (unarrived (st x))); [lia|done|].
    intros ws s' H'. by wp_auto.
Qed.

Lemma part_deregister_ok p x :
  phaser_ok x → idle p x → phase (st x) < u64_max → wp (exec (Deregister p)) x (effect (Deregister p) x).
Proof.
  intros Hx Hi Hmax. destruct (Hi) as [[q Hp] _]. simpl. unfold part_deregister. wp_auto. eapply wp_expect; [done|].
  wp_auto. unfold deregister. wp_auto. wp_apply (do_deregister_ok (Deregister p) p q x); [done..|].
  intros [[q' r] ws] s' [[= -> ->] Hef]. wp_auto. unfold participant_drop. simpl. wp_auto.
  rewrite app_nil_r. by apply Hef.
Qed.

Lemma part_drop_ok p x :
  phaser_ok x → idle p x → phase (st x) < u64_max → wp (exec (PartDrop p)) x (effect (PartDrop p) x).
Proof.
  intros Hx Hi Hmax. destruct (Hi) as [[q Hp] _]. simpl. unfold part_drop. wp_auto. eapply wp_expect; [done|].
  wp_auto. unfold participant_drop. destruct (po_parts _ (proj1 Hx) p q Hp) as [-> _]. wp_auto.
  wp_apply (do_deregister_ok (PartDrop p) p q x); [done..|].
  intros [[q' r] ws] s' [_ Hef]. wp_auto. by apply Hef.
Qed.

Lemma iter_drop_ok h x :
  phaser_ok x → is_Some (iters x !! h) → phase (st x) < u64_max → wp (exec (ItersDrop h)) x (effect (ItersDrop h) x).
Proof.
  intros [Hx Hs] [r Hh] Hmax. pose proof Hx as [Hph Hrmax Hr Hu Hpt Hit Hwt _ Hset].
  simpl. unfold iter_drop. wp_auto. eapply wp_expect; [done|]. wp_auto. unfold participants_drop.
  assert (unyielded (delete h (iters x)) = unyielded (iters x) - r) as Hun by (by apply (map_sum_delete id)).
  assert (∀ s0, s0 = set_counts (registered (st x) - r) (unarrived (st x) - r) (st x) →
    counted (mkSys s0 (parts x) (delete h (iters x)) (waits x))) as Hx0.
  { intros s0 ->. pose proof (Hit h r Hh). apply counted_mid; simpl; try done; [lia|lia|lia|].
    intros h' r' [_ Hh']%lookup_delete_Some. by eauto. }
  assert (r <= unarrived (st x) ∧ r <= registered (st x)) as [Hr1 Hr2].
  { pose proof (map_sum_elem id (iters x) h r Hit Hh) as H. unfold unyielded, id in *.
    pose proof (map_sum_nonneg (absent (phase (st x))) (parts x) (λ _ _ _, absent_nonneg _ _)).
    assert (0 <= map_sum party (parts x)) by (apply map_sum_nonneg; by unfold party). lia. }
  case_bool_decide as E; wp_auto.
  - apply effect_plain; try done. split; [|exact Hs]. subst r.
    apply (Hx0 (st x)). rewrite !Z.sub_0_r. by destruct (st x).
  - apply wp_sub_int; [done|]. wp_auto. apply wp_sub_int; [done|]. wp_auto.
    wp_apply (effect_advance (ItersDrop h) x _ (Hx0 _ eq_refl)); simpl; try done.
    + intros h' Hne. rewrite lookup_delete_ne; [done|]. congruence.
    + intros ws s' Hef. wp_auto. by apply Hef.
Qed.

(** Parties that are moved or added without an arrival. *)
Lemma effect_parties l x s0 g i a :
  phaser_ok x → counted (mkSys s0 g i (waits x)) → phase s0 = phase (st x) → closed s0 = closed (st x) →
  waiters s0 = waiters (st x) → (unarrived s0 = 0 → unarrived (st x) = 0 ∧ registered s0 = registered (st x)) →
  effect l x (mkObs a []) (mkSys s0 g i (waits x)).
Proof.
  intros [Hx Hs] Hx0 Ep Ec Ew Hu. apply effect_plain; try done. split; [done|]. unfold settled in *. simpl.
  rewrite Ec. intros Hc [H1 ->]%Hu. by apply Hs.
Qed.

Lemma iter_next_ok h p x :
  phaser_ok x → is_Some (iters x !! h) → parts x !! p = None → wp (exec (Next h p)) x (effect (Next h p) x).
Proof.
  intros Hok [r Hh] Hp. destruct (Hok) as [Hx Hs]. pose proof Hx as [Hph Hrmax Hr Hu Hpt Hit Hwt _ Hset].
  simpl. unfold iter_next. wp_auto. eapply wp_expect; [done|]. unfold next. pose proof (Hit h r Hh) as Hr0.
  assert (∀ r', unyielded (<[h:=r']> (iters x)) = unyielded (iters x) - r + r') as Hun
    by (intros r'; by apply (map_sum_update id)).
  case_bool_decide as E; wp_auto; simpl.
  - subst r. rewrite insert_id by done. apply effect_plain; try done; by destruct x.
  - apply (effect_parties _ x); try done. apply counted_mid; simpl; try done.
    + rewrite Hun, map_sum_insert by done. unfold party at 1. lia.
    + rewrite Hun, map_sum_insert, absent_new by done. lia.
    + intros p' q [[_ <-]|[_ Hq]]%lookup_insert_Some; [done|by eauto].
    + intros h' r' [[_ <-]|[_ Hq]]%lookup_insert_Some; [lia|by eauto].
    + intros f v p' q _ _ Hq. rewrite lookup_insert_ne; [done|]. congruence.
Qed.

(** A registration that succeeds adds to both counts. *)
Lemma do_register_spec s parties :
  0 <= parties → 0 <= unarrived s <= registered s → registered s + parties <= usize_max →
  wp (do_register parties) s (λ r s',
    if closed s then r = Err mkClosed ∧ s' = s
    else r = Ok tt ∧ s' = set_counts (registered s + parties) (unarrived s + parties) s).
Proof.
  intros H0 Hu Hmax. unfold do_register. wp_auto. destruct (closed s); wp_auto; [done|].
  eapply wp_expect; [unfold checked_add; by rewrite decide_True by lia|]. wp_auto.
  apply wp_add_int; [lia|]. by wp_auto.
Qed.

Lemma unarrived_le x : counted x → 0 <= unarrived (st x) <= registered (st x).
Proof.
  intros Hx. rewrite (po_unarrived _ Hx), (po_registered _ Hx). pose proof (unyielded_nonneg _ Hx).
  pose proof (map_sum_nonneg (absent (phase (st x))) (parts x) (λ _ _ _, absent_nonneg _ _)).
  assert (map_sum (absent (phase (st x))) (parts x) <= map_sum party (parts x)); [|lia].
  induction (parts x) as [|p q g Hq IH] using map_ind; [done|]. rewrite !map_sum_insert by done.
  assert (absent (phase (st x)) q <= party q) by (unfold absent, party; case_decide; lia).
  pose proof (map_sum_nonneg (absent (phase (st x))) g (λ _ _ _, absent_nonneg _ _)). specialize (IH ltac:(lia)). lia.
Qed.

Lemma register_ok l x :
  (∃ p, l = RegisterOne p) ∨ (∃ h n, l = Register h n) →
  phaser_ok x → enabled l x = true → wp (exec l) x (effect l x).
Proof.
  intros Hl Hok He. destruct (Hok) as [Hx Hs]. pose proof Hx as [Hph Hrmax Hr Hu Hpt Hit Hwt _ Hset].
  pose proof (unarrived_le _ Hx) as Hle.
  destruct Hl as [(p & ->)|(h & n & ->)]; apply andb_true_iff in He as [_ [Hf [Hn Hin]]%enabled_and]; simpl.
  - unfold register_one. wp_auto. wp_apply do_register_spec; [done..|]. intros r s'.
    destruct (closed (st x)) eqn:Hc; intros [-> ->]; wp_auto; [apply effect_plain; try done; by destruct x|].
    apply (effect_parties _ x); try done; [|simpl; lia]. apply counted_mid; simpl; try done.
    + rewrite map_sum_insert by done. unfold party at 1. lia.
    + rewrite map_sum_insert, absent_new by done. lia.
    + intros p' q [[_ <-]|[_ Hq]]%lookup_insert_Some; [done|by eauto].
    + intros f v p' q _ _ Hq. rewrite lookup_insert_ne; [done|]. congruence.
  - unfold register_many. wp_auto. wp_apply do_register_spec; [done..|]. intros r s'.
    destruct (closed (st x)) eqn:Hc; intros [-> ->]; wp_auto; [apply effect_plain; try done; by destruct x|].
    assert (unyielded (<[h:=n]> (iters x)) = n + unyielded (iters x)) as Hun by (by apply (map_sum_insert id)).
    apply (effect_parties _ x); try done; [|simpl; lia]. apply counted_mid; simpl; try done; [lia|lia|].
    intros h' r' [[_ <-]|[_ Hq]]%lookup_insert_Some; [done|by eauto].
Qed.

(** The waits [g'] come from those of [x], with other tokens. *)
Definition same_waits x (g' : gmap nat PhaserWait) : Prop :=
  ∀ k v, g' !! k = Some v → ∃ u, waits x !! k = Some u ∧ observed v = observed u ∧ borrows v = borrows u ∧
    (token v ≠ None → observed v <= phase (st x)).

Lemma same_delete x f : counted x → same_waits x (delete f (waits x)).
Proof. intros Hx k v [_ Hk]%lookup_delete_Some. exists v. split_and!; try done. by apply (po_waits _ Hx k). Qed.

(** An operation of the wait [f]. *)
Lemma phaser_effect_wait l x f ws' g' m m' o :
  phaser_ok x → about l = Some f → woken o = [] → set_rep (waiters (st x)) m → set_rep ws' m' →
  owned (live (st x) <$> g') m' → keeps_others f (live_tokens x) m (live (st x) <$> g') m' →
  same_waits x g' → (∀ k, k ≠ f → g' !! k = waits x !! k) →
  effect l x o (mkSys (set_waiters ws' (st x)) (parts x) (iters x) g').
Proof.
  intros [[Hp Hmax Hr Hu Hpt Hit Hwt Hbi _] Hs] Hl Ho Hm Hm' Hown Hk Hsame Hoth.
  assert (live (set_waiters ws' (st x)) = live (st x)) as El by (by apply live_ext).
  split; simpl; try done.
  - split; [|exact Hs]. split; simpl; try done.
    + intros k v (u & Hu' & Eo & Eb & Ht)%Hsame. split; [done|]. intros p Hb. rewrite Eo. apply (Hwt k u Hu'). congruence.
    + intros j k v u p (v' & Hv & _ & Ev & _)%Hsame (u' & Hu' & _ & Eu & _)%Hsame H1 H2.
      apply (Hbi j k v' u' p); [exact Hv|exact Hu'|congruence|congruence].
    + exists m'. by rewrite El.
  - by left.
  - intros k Hne. apply Hoth. congruence.
  - intros k w Hne (m0 & Hm0 & Hreg). pose proof (set_rep_inj _ _ _ Hm Hm0) as <-. left. exists m'. simpl.
    rewrite El. split; [done|]. apply Hk; [congruence|done].
Qed.

(** A wait that is dropped leaves no registration behind. *)
Lemma wait_drop_spec f v x m :
  set_rep (waiters (st x)) m → owned (live_tokens x) m → waits x !! f = Some v →
  wp (wait_drop v) (st x) (λ _ s', ∃ m', s' = set_waiters (waiters s') (st x) ∧ set_rep (waiters s') m' ∧
    owned (delete f (live_tokens x)) m' ∧ keeps_others f (live_tokens x) m (delete f (live_tokens x)) m').
Proof.
  intros Hm Hown Hf.
  assert (live_tokens x !! f = Some (live (st x) v)) as Hl by (by rewrite lookup_fmap, Hf).
  assert (live (st x) v = None → ∃ m', st x = set_waiters (waiters (st x)) (st x) ∧ set_rep (waiters (st x)) m' ∧
    owned (delete f (live_tokens x)) m' ∧ keeps_others f (live_tokens x) m (delete f (live_tokens x)) m') as Hnone.
  { intros E. exists m. split_and!; [by destruct (st x)|done|apply owned_drop; [done|by rewrite Hl, E]|].
    eapply (keeps_others_delete _ _ _ _ _ None), keeps_others_insert. }
  unfold wait_drop, live in *. destruct (token v) as [t|] eqn:Et; wp_auto.
  - destruct (completion (observed v) (st x)) eqn:Ec; wp_auto; [by apply Hnone|].
    wp_apply unregister_owned; [done..|]. intros r s' (m' & _ & Hm' & Hown' & Hk). wp_auto. exists m'.
    split_and!; try done; [|by eapply keeps_others_delete].
    rewrite <-(delete_insert_eq (live_tokens x) f None). apply owned_drop; [done|apply lookup_insert_eq].
  - apply Hnone. by destruct (completion _ _).
Qed.

Lemma drop_wait_ok f x :
  phaser_ok x → is_Some (waits x !! f) → wp (exec (WaitDrop f)) x (effect (WaitDrop f) x).
Proof.
  intros Hok [v Hf]. pose proof (po_set _ (proj1 Hok)) as (m & Hm & Hown).
  simpl. unfold drop_wait. wp_auto. eapply wp_expect; [done|]. wp_auto. wp_apply wait_drop_spec; [done..|].
  intros _ s' (m' & Es & Hm' & Hown' & Hk). wp_auto. unfold set_waits, set_st. simpl. rewrite Es.
  apply (phaser_effect_wait _ x f _ _ m m'); rewrite ?fmap_delete; try done.
  - by apply same_delete, Hok.
  - intros k Hne. by rewrite lookup_delete_ne.
Qed.

Lemma alter_insert_eq {A : Type} (g : A → A) (m : gmap nat A) k a :
  m !! k = Some a → alter g k m = <[k:=g a]> m.
Proof.
  intros Hk. apply map_eq. intros j. rewrite lookup_insert. case_decide as E.
  - subst j. by rewrite lookup_alter_eq, Hk.
  - by rewrite lookup_alter_ne.
Qed.

(** A participant that is done with a past phase forgets it. *)
Lemma counted_clear x p q ph :
  counted x → idle p x → parts x !! p = Some q → pending q = Some ph → ph ≠ phase (st x) →
  counted (set_parts (<[p:=mkParticipant None (is_registered q)]> (parts x)) x).
Proof.
  intros Hx Hi Hp Hq Hne. pose proof Hx as [Hph Hmax Hr Hu Hpt Hit Hwt _ Hset]. apply counted_mid; try done.
  - rewrite (map_sum_update _ _ _ q) by done. unfold party at 2 3. lia.
  - rewrite (map_sum_update _ _ _ q) by done. unfold absent at 2 3. rewrite Hq. simpl.
    rewrite decide_False by congruence. lia.
  - intros p' q' [[_ <-]|[_ Hq']]%lookup_insert_Some; [|by eauto]. split; [by apply (Hpt p q Hp)|done].
  - eapply idle_kept; [done|]. intros p' Hp'. by rewrite lookup_insert_ne.
Qed.

Lemma finish_wait_ok f cx v x a :
  phaser_ok x → waits x !! f = Some v → live (st x) v = None →
  effect (WaitPoll f cx) x (mkObs a []) (set_waits (delete f (waits x)) x) ∧
  (∀ p, borrows v = Some p → observed v ≠ phase (st x) →
    effect (WaitPoll f cx) x (mkObs a []) (set_parts (alter (λ q, mkParticipant None (is_registered q)) p (parts x))
      (set_waits (delete f (waits x)) x))).
Proof.
  intros Hok Hf Hl. pose proof (proj1 Hok) as Hx. pose proof (po_set _ Hx) as (m & Hm & Hown).
  assert (live_tokens x !! f = Some None) as Hl' by (by rewrite lookup_fmap, Hf; simpl; rewrite Hl).
  assert (effect (WaitPoll f cx) x (mkObs a []) (mkSys (set_waiters (waiters (st x)) (st x)) (parts x) (iters x)
    (delete f (waits x)))) as Hef.
  { apply (phaser_effect_wait _ x f _ _ m m); rewrite ?fmap_delete; try done.
    - by apply owned_drop.
    - eapply (keeps_others_delete _ _ _ _ _ None), keeps_others_insert.
    - by apply same_delete.
    - intros k Hne. by rewrite lookup_delete_ne. }
  assert (set_waiters (waiters (st x)) (st x) = st x) as Es by (by destruct (st x)). rewrite Es in Hef.
  split; [exact Hef|]. intros p Hb Hne. destruct (po_waits _ Hx f v Hf) as [_ (q & Hp & Hq)%(λ H, H p Hb)].
  rewrite (alter_insert_eq _ _ p q) by done. apply effect_plain; try done.
  - destruct (ef_ok _ _ _ _ Hef) as [Hy Hsy]. split; [|exact Hsy].
    apply (counted_clear (mkSys (st x) (parts x) (iters x) (delete f (waits x))) p q (observed v)); try done.
    split; [by exists q|]. simpl. intros k u [Hne' Hk]%lookup_delete_Some Hbu.
    apply Hne'. by eapply (po_borrow _ Hx f k v u p).
  - intros k Hk. simpl. rewrite lookup_delete_ne; [done|]. intros ->. by apply Hk.
Qed.

Lemma poll_wait_ok f cx v x :
  phaser_ok x → waits x !! f = Some v → set_room (waiters (st x)) →
  wp (exec (WaitPoll f cx)) x (λ o x', effect (WaitPoll f cx) x o x' ∧
    answer o = match completion (observed v) (st x) with Ready r => Some r | Pending => None end ∧
    (answer o = None → parked f cx x' ∧ ∃ tk, waits x' !! f = Some (mkWait (observed v) tk (borrows v)))).
Proof.
  intros Hok Hf Hroom. pose proof (po_set _ (proj1 Hok)) as (m & Hm & Hown).
  assert (live_tokens x !! f = Some (live (st x) v)) as Hl by (by rewrite lookup_fmap, Hf).
  simpl. unfold poll_wait. wp_auto. eapply wp_expect; [done|]. wp_auto. unfold wait_poll. wp_auto.
  destruct (completion (observed v) (st x)) as [r|] eqn:Ec; wp_auto.
  - destruct (finish_wait_ok f cx v x (Some r) Hok Hf) as [H1 H2]; [unfold live; by rewrite Ec|].
    assert (set_st (st x) x = x) as Ex by (by destruct x). rewrite Ex. simpl.
    destruct (borrows v) as [p|]; [destruct r as [n|e]|]; wp_auto; (split_and!; [|done|done]); try done.
    apply H2; [done|]. unfold completion in Ec. case_bool_decide; [done|]. by destruct (closed (st x)).
  - assert (phase (st x) = observed v) as Ep.
    { unfold completion in Ec. case_bool_decide; [done|]. done. }
    assert (∀ tk, live (st x) (mkWait (observed v) tk (borrows v)) = tk) as Elive by (intros; unfold live; simpl; by rewrite Ec).
    unfold live in Hl. rewrite Ec in Hl. wp_apply register_owned; [done..|].
    intros [tk r] s' (t & m' & Ht & Hm' & Hown' & Hreg & Hk). simpl in Ht. subst tk. wp_auto.
    split_and!; [|done|].
    + apply (phaser_effect_wait _ x f _ _ m m'); simpl; rewrite ?fmap_insert, ?Elive; try done.
      * intros k u [[<- <-]|[_ Hk']]%lookup_insert_Some; [exists v; simpl; split_and!; try done; lia|].
        exists u. split_and!; try done. by apply (po_waits _ (proj1 Hok) k).
      * intros k Hne. by rewrite lookup_insert_ne.
    + intros _. split; [|exists (Some t); apply lookup_insert_eq]. exists m'. split; [done|]. simpl.
      rewrite (live_ext (st x)) by done. by rewrite fmap_insert, Elive.
Qed.

Lemma close_ok x : phaser_ok x → wp (exec Close) x (effect Close x).
Proof.
  intros [Hx Hs]. pose proof Hx as [Hph Hmax Hr Hu Hpt Hit Hwt Hbi (m & Hm & Hown)].
  simpl. unfold close. wp_auto. destruct (closed (st x)) eqn:Hc; wp_auto.
  - apply effect_plain; try done; by destruct x.
  - split; simpl; try done; [|by left|].
    + split; [|done]. split; simpl; try done. exists ∅. split; [apply wakerset_new_rep|]. apply owned_none.
      intros f o. rewrite lookup_fmap, fmap_Some. intros (v & _ & ->). unfold live, completion. simpl.
      by case_bool_decide.
    + intros f w _ (m0 & Hm0 & Hreg). right. eapply registered_taken; [done|]. by apply set_wake_all_spec.
Qed.

Lemma phaser_wait_new_ok f obs x :
  phaser_ok x → waits x !! f = None → wp (exec (WaitNew f obs)) x (effect (WaitNew f obs) x).
Proof.
  intros [Hx Hs] Hf. simpl. wp_auto. apply effect_plain; try done.
  - split; [|done]. by apply counted_add_wait.
  - intros g Hg. simpl. rewrite lookup_insert_ne; [done|]. intros ->. by apply Hg.
Qed.

Lemma phaser_exec_ok l x : phaser_ok x → enabled l x = true → wp (exec l) x (effect l x).
Proof.
  intros Hx He. pose proof He as [Hmax%bool_decide_eq_true He']%andb_true_iff.
  destruct l; try apply enabled_and in He' as [H1 H2]; try apply bool_decide_eq_true in He'.
  - apply register_ok; by eauto.
  - apply register_ok; by eauto.
  - by apply iter_next_ok.
  - by apply iter_drop_ok.
  - by apply part_arrive_ok.
  - by apply part_wait_ok.
  - by apply part_deregister_ok.
  - by apply part_drop_ok.
  - by apply phaser_wait_new_ok.
  - destruct H1 as [v Hv]. wp_apply poll_wait_ok; [done..|]. by intros o x' [].
  - by apply drop_wait_ok.
  - by apply close_ok.
Qed.

Lemma phaser_init_ok : phaser_ok init.
Proof.
  split; [|done]. split; try done. exists ∅. split; [apply wakerset_new_rep|]. by apply owned_none.
Qed.

Lemma phaser_run_ok x ls tr x' : phaser_ok x → returns (run enabled exec ls) x tr x' → phaser_ok x'.
Proof. apply run_invariant. intros y l Hy He. wp_apply phaser_exec_ok; [done..|]. by intros o y' []. Qed.

(** ** Theorems *)

(** The counts of a phaser are exact and never underflow: in every reachable state every
    permitted operation returns, the registered count is the number of participants plus the ones
    not yielded, and the unarrived count is the number of those that have not arrived. *)
Theorem phaser_counts_exact ls tr x l :
  returns (run enabled exec ls) init tr x → enabled l x = true →
  (∃ o x', returns (exec l) x o x') ∧
  registered (st x) = Z.of_nat (size (parts x)) + unyielded (iters x) ∧
  unarrived (st x) = Z.of_nat (size (filter (λ '(_, q), pending q ≠ Some (phase (st x))) (parts x))) +
    unyielded (iters x).
Proof.
  intros Hr He. pose proof (phaser_run_ok _ _ _ _ phaser_init_ok Hr) as Hx. split_and!.
  - pose proof (phaser_exec_ok l x Hx He) as (o & x' & H & _)%wp_returns. by exists o, x'.
  - rewrite (po_registered _ (proj1 Hx)). f_equal. clear.
    induction (parts x) as [|p q g Hq IH] using map_ind; [done|].
    rewrite map_sum_insert, map_size_insert_None, IH by done. unfold party. lia.
  - rewrite (po_unarrived _ (proj1 Hx)). f_equal. clear. generalize (phase (st x)) as ph. intros ph.
    induction (parts x) as [|p q g Hq IH] using map_ind; [done|]. rewrite map_sum_insert, IH by done.
    unfold absent. case_decide as E.
    + rewrite map_filter_insert_not'; [done|by intros []|]. intros y Hy. congruence.
    + rewrite map_filter_insert_True by done. rewrite map_size_insert_None; [lia|].
      apply map_lookup_filter_None. by left.
Qed.

(** C9: a phase ends exactly when everybody has arrived: a step changes the phase only by one, only
    while the phaser is open, and only when every party but the one acting has arrived; and an
    open phaser with registered parties is always waiting for at least one of them.  Closing is
    final and freezes the phase.  No operation panics. *)
Theorem phaser_advances_when_all_arrived ls tr x l :
  returns (run enabled exec ls) init tr x → enabled l x = true →
  ∃ o x', returns (exec l) x o x' ∧
  (phase (st x') ≠ phase (st x) →
    phase (st x') = phase (st x) + 1 ∧ closed (st x) = false ∧ others_arrived l x) ∧
  (closed (st x') = false → registered (st x') ≠ 0 → 0 < unarrived (st x')) ∧
  (closed (st x) = true → closed (st x') = true ∧ phase (st x') = phase (st x)).
Proof.
  intros Hr He. pose proof (phaser_run_ok _ _ _ _ phaser_init_ok Hr) as Hx.
  pose proof (phaser_exec_ok l x Hx He) as (o & x' & Hx' & [[Hc Hs] Hcl Hp _ _])%wp_returns. exists o, x'. split_and!; [done| | |exact Hcl].
  - intros Hne. by destruct Hp.
  - intros Hop Hreg. pose proof (unarrived_le _ Hc). unfold settled in Hs. destruct (decide (unarrived (st x') = 0)); [|lia].
    by rewrite Hs in Hreg.
Qed.

(** A wait is woken when it can complete: a wait that polled pending with a waker and has not
    been polled since is woken through it once the phase it observed has ended or the phaser was
    closed. *)
Theorem phaser_no_lost_wakeup ls tr x f v cx o x1 ls' tr' x' :
  returns (run enabled exec ls) init tr x → waits x !! f = Some v →
  enabled (WaitPoll f cx) x = true → returns (exec (WaitPoll f cx)) x o x1 → answer o = None →
  Forall (λ l, bool_decide (about l ≠ Some f) = true) ls' → returns (run enabled exec ls') x1 tr' x' →
  phase (st x') ≠ observed v ∨ closed (st x') = true → Exists (λ e, cx ∈ woken e.2) tr'.
Proof.
  intros Hr Hf He Hx1 Hco Hab Hr' Hend. pose proof (phaser_run_ok _ _ _ _ phaser_init_ok Hr) as Hx.
  pose proof He as [_ [_ Hroom]%enabled_and]%andb_true_iff.
  apply (wp_returns_elim _ _ _ _ _ (poll_wait_ok f cx v x Hx Hf Hroom)) in Hx1 as (Hef & _ & [Hp [tk Hv]]%(λ H, H Hco)).
  edestruct (run_promise enabled exec phaser_ok (λ y, parked f cx y ∧ waits y !! f = waits x1 !! f) (λ o, cx ∈ woken o)
    (λ l, bool_decide (about l ≠ Some f)) ls' x1) as [[H Hw]|H]; [|by destruct Hef|done|done|exact Hr'| |exact H].
  - intros y l Hy Hl Hab'%bool_decide_eq_true. wp_apply phaser_exec_ok; [done..|]. intros o' y' Hy'.
    split; [by destruct Hy'|]. intros [Hpy Hwy]. destruct (ef_parked _ _ _ _ Hy' f cx Hab' Hpy) as [?|?]; [left|by right].
    split; [done|]. by rewrite (ef_waits _ _ _ _ Hy' f Hab').
  - exfalso. destruct H as (m & _ & t & Ht & _). rewrite lookup_fmap, Hw, Hv in Ht. simpl in Ht. injection Ht as Ht.
    unfold live, completion in Ht. simpl in Ht. case_bool_decide as Hne; [done|].
    destruct (closed (st x')) eqn:Hcl; [done|]. destruct Hend; [|done]. by apply dec_stable in Hne || congruence.
Qed.

(** The outcome of a wait: it is pending exactly in the open phase it observed; an ended phase
    wins over a later close. *)
Theorem phaser_wait_outcome ls tr x f v cx :
  returns (run enabled exec ls) init tr x → waits x !! f = Some v → enabled (WaitPoll f cx) x = true →
  ∃ o x', returns (exec (WaitPoll f cx)) x o x' ∧
    answer o = if decide (phase (st x) = observed v) then (if closed (st x) then Some (Err mkClosed) else None)
               else Some (Ok (phase (st x))).
Proof.
  intros Hr Hf He. pose proof (phaser_run_ok _ _ _ _ phaser_init_ok Hr) as Hx.
  apply andb_true_iff in He as [_ [_ Hroom]%enabled_and].
  pose proof (poll_wait_ok f cx v x Hx Hf Hroom) as (o & x' & Hx' & _ & Ha & _)%wp_returns. exists o, x'.
  split; [done|]. rewrite Ha. unfold completion. case_decide as E; [rewrite bool_decide_eq_false_2 by congruence|].
  - by destruct (closed (st x)).
  - by rewrite bool_decide_eq_true_2 by congruence.
Qed.

(** A registration that would overflow the count panics and leaves the phaser as it was. *)
Theorem phaser_register_overflow x h n :
  closed (st x) = false → usize_max < registered (st x) + n →
  exec (Register h n) x = Panic "Phaser registered-party count overflow" x.
Proof.
  intros Hc Hn. simpl. unfold register_many, do_register, on_st, zoom, mbind, M_bind, get. rewrite Hc.
  unfold expect, checked_add. rewrite decide_False by lia. unfold panic. by destruct x.
Qed.

(** Three parties, one of which withdraws; a fourth joins in bulk; then the phaser is closed. *)
Definition rounds : list Label :=
  [RegisterOne 0; RegisterOne 1; Register 0 1; PartWait 0 0; WaitPoll 0 5%nat; WaitNew 1 0; WaitPoll 1 6%nat;
   Next 0 2; Arrive 2; ItersDrop 0].
Definition phaser_after (ls : list Label) : Sys :=
  match run enabled exec ls init with Ret _ x | Panic _ x => x end.

Lemma phaser_counts_exact_witness :
  (∃ o x', returns (exec (Deregister 1)) (phaser_after rounds) o x') ∧ registered (st (phaser_after rounds)) = 3 + 0 ∧
  unarrived (st (phaser_after rounds)) = 1 + 0.
Proof.
  unshelve epose proof (phaser_counts_exact rounds _ (phaser_after rounds) (Deregister 1) _ _) as (H1 & H2 & H3);
    [shelve|vm_compute; reflexivity|vm_compute; reflexivity|].
  split; [exact H1|]. split; [exact H2|exact H3].
Defined.

Lemma phaser_advances_when_all_arrived_witness :
  ∃ o x', returns (exec (Deregister 1)) (phaser_after rounds) o x' ∧ phase (st x') = 1 ∧
    others_arrived (Deregister 1) (phaser_after rounds).
Proof.
  destruct (phaser_advances_when_all_arrived rounds _ (phaser_after rounds) (Deregister 1) eq_refl eq_refl) as (o & x' & Hr & Hp & _).
  exists o, x'. split; [done|]. vm_compute in Hr. injection Hr as <- <-. split; [reflexivity|]. apply Hp. vm_compute. congruence.
Defined.

Lemma phaser_no_lost_wakeup_witness :
  ∃ tr x, returns (run enabled exec (drop 5 rounds ++ [Arrive 1])) (phaser_after (take 5 rounds)) tr x ∧
    Exists (λ e, 5%nat ∈ woken e.2) tr.
Proof.
  eexists _, _. split; [vm_compute; reflexivity|].
  eapply (phaser_no_lost_wakeup (take 4 rounds) _ _ 0 (mkWait 0 None (Some 0%nat)) 5%nat _ _ (drop 5 rounds ++ [Arrive 1]));
    [vm_compute; reflexivity|vm_compute; reflexivity|vm_compute; reflexivity|vm_compute; reflexivity|done| |vm_compute; reflexivity|].
  - repeat constructor.
  - left. vm_compute. congruence.
Defined.
