(* ===== verification/Oneshot.v ===== *)
(** * The oneshot channel

    [asyncband/src/oneshot/]: a lock-free channel for one message.  Sender and receiver share a heap
    allocation with an atomic state and two uninitialised slots, for the message and for the
    receiver's waker; who may touch a slot and who frees the allocation follows from the state
    transitions.  The model is a system of two threads whose steps are the atomic accesses and the
    slot accesses, interleaved sequentially consistently.  An access to freed memory, a read of an
    uninitialised slot, an initialised slot that is overwritten or freed with the channel, and the
    source's [unreachable!] arms are panics of the model. *)
From S2P Require Import Prelude.

Definition EMPTY : Z := 3.
Definition RECEIVING : Z := 0.
Definition AWAKING : Z := 1.
Definition MESSAGE : Z := 4.
Definition DISCONNECTED : Z := 2.

Section channel.
Context {T : Type}.
Implicit Types (v : T) (w : Waker).

(** [None] is an uninitialised slot. *)
Record Channel : Type := mkChannel {
  state : Z;
  message : option T;
  waker : option Waker;
}.
Implicit Types (c : Channel).

Definition new : Channel := mkChannel EMPTY None None.

Definition set_state (s : Z) c : Channel := mkChannel s (message c) (waker c).
Definition set_message (m : option T) c : Channel := mkChannel (state c) m (waker c).
Definition set_waker (k : option Waker) c : Channel := mkChannel (state c) (message c) k.

(** ** Slots *)

(** [take_message], [drop_message] and [SendError::into_inner] move the message out. *)
Definition take_message : M Channel T :=
  c ← get;
  v ← expect (message c) "message is not initialised";
  modify (set_message None);;
  mret v.

Definition message_ref : M Channel T :=
  c ← get;
  expect (message c) "message is not initialised".

Definition write_message v : M Channel unit :=
  c ← get;
  match message c with
  | None => modify (set_message (Some v))
  | Some _ => panic "an initialised message is overwritten"
  end.

Definition take_waker : M Channel Waker :=
  c ← get;
  w ← expect (waker c) "waker is not initialised";
  modify (set_waker None);;
  mret w.

Definition drop_waker : M Channel unit := take_waker;; mret tt.

(** The write of [register_waker]. *)
Definition write_waker w : M Channel unit :=
  c ← get;
  match waker c with
  | None => modify (set_waker (Some w))
  | Some _ => panic "an initialised waker is overwritten"
  end.

(** The slot part of [reregister_waker]. *)
Definition refresh_waker w : M Channel unit :=
  c ← get;
  k ← expect (waker c) "waker is not initialised";
  if will_wake k w then mret tt
  else drop_waker;; write_waker w.

(** ** The atomic state *)

Definition load : M Channel Z := gets state.
Definition store (s : Z) : M Channel unit := modify (set_state s).
Definition swap (s : Z) : M Channel Z := old ← gets state; store s;; mret old.
Definition fetch_add : M Channel Z :=
  old ← gets state; store (wrapping_add 255 old 1);; mret old.
Definition fetch_xor : M Channel Z := old ← gets state; store (Z.lxor old 1);; mret old.
Definition compare_exchange (current next : Z) : M Channel (result Z Z) :=
  old ← gets state;
  if bool_decide (old = current) then store next;; mret (Ok old) else mret (Err old).

(** ** Program points *)

(** The sender: between operations; in [send]; waking the receiver with the final state it is
    going to publish; freeing the channel, with or without a message; holding a [SendError]. *)
Inductive SPc : Type :=
| SIdle
| SWrite (v : T)
| SAdd
| STakeWaker (final_state : Z)
| SSwap (final_state : Z) (w : Waker)
| SFree (with_message : bool)
| SError
| SDone.

(** The receiver: a [Receiver] between operations and in [try_recv]; a [Recv] between polls, in a
    poll with its waker, and in its drop; freeing the channel. *)
Inductive RPc : Type :=
| RIdle
| RTryStore
| RTryTake
| FIdle
| FPoll (w : Waker)
| FWrite (w : Waker)
| FPublish (w : Waker)
| FDropWaker (message : bool)
| FStore
| FTake
| FReclaim (w : Waker)
| FRefresh (w : Waker)
| FDrop
| FDropCas (seen : Z)
| FDropReclaimed
| RFree (with_message : bool)
| RDone.
End channel.
Arguments Channel : clear implicits.
Arguments SPc : clear implicits.

(** Results of receiving. *)
Inductive RecvResult (T : Type) : Type :=
| Received (v : T)
| Empty
| Disconnected.
Arguments Received {T} v.
Arguments Empty {T}.
Arguments Disconnected {T}.

Record Sys (T : Type) : Type := mkSys {
  chan : option (Channel T);
  sender : SPc T;
  receiver : RPc;
}.
Arguments mkSys {T}.
Arguments chan {T}.
Arguments sender {T}.
Arguments receiver {T}.

(** What a step shows: the answer of a receive, [Pending] included as [None]; a message given back
    by a send error or dropped; a send that succeeded; tasks woken. *)
Record Obs (T : Type) : Type := mkObs {
  answer : option (RecvResult T);
  gone : option T;
  woken : list Waker;
}.
Arguments mkObs {T}.
Arguments answer {T}.
Arguments gone {T}.
Arguments woken {T}.

Section system.
Context {T : Type}.
Implicit Types (x : Sys T) (v : T) (w : Waker) (c : Channel T).

Definition silent : Obs T := mkObs None None [].

(** An access through the pointer to the channel. *)
Definition on_chan {A : Type} (m : M (Channel T) A) : M (Sys T) A := λ x,
  match chan x with
  | None => Panic "the channel has been freed" x
  | Some c =>
      match m c with
      | Ret a c' => Ret a (mkSys (Some c') (sender x) (receiver x))
      | Panic e c' => Panic e (mkSys (Some c') (sender x) (receiver x))
      end
  end.

(** [deallocate_empty_channel]: a slot that is still initialised would leak. *)
Definition deallocate_empty_channel : M (Sys T) unit :=
  x ← get;
  c ← expect (chan x) "the channel has been freed";
  match message c, waker c with
  | None, None => put (mkSys None (sender x) (receiver x))
  | _, _ => panic "an initialised slot leaks"
  end.

(** [drop_message_and_deallocate_channel]: the message dropped. *)
Definition drop_message_and_deallocate_channel : M (Sys T) T :=
  v ← on_chan take_message;
  deallocate_empty_channel;;
  mret v.

Definition sender_goto (s : SPc T) (o : Obs T) : M (Sys T) (Obs T) :=
  modify (λ x, mkSys (chan x) s (receiver x));; mret o.
Definition receiver_goto (r : RPc) (o : Obs T) : M (Sys T) (Obs T) :=
  modify (λ x, mkSys (chan x) (sender x) r);; mret o.

Definition unreachable {A : Type} : M (Sys T) A := panic "unexpected channel state".

(** ** The sender *)

(** The exchange of [send]: a direct publication, or the start of an awakening. *)
Definition send_add : M (Sys T) (Obs T) :=
  old ← on_chan fetch_add;
  if bool_decide (old = EMPTY) then sender_goto SDone silent
  else if bool_decide (old = RECEIVING) then sender_goto (STakeWaker MESSAGE) silent
  else if bool_decide (old = DISCONNECTED) then sender_goto SError silent
  else unreachable.

(** [Sender::drop]. *)
Definition sender_drop : M (Sys T) (Obs T) :=
  old ← on_chan fetch_xor;
  if bool_decide (old = EMPTY) then sender_goto SDone silent
  else if bool_decide (old = RECEIVING) then sender_goto (STakeWaker DISCONNECTED) silent
  else if bool_decide (old = DISCONNECTED) then sender_goto (SFree false) silent
  else unreachable.

(** [finish_sender_awakening] takes the waker, *)
Definition awakening_take (final_state : Z) : M (Sys T) (Obs T) :=
  w ← on_chan take_waker;
  sender_goto (SSwap final_state w) silent.

(** publishes the final state and, unless the receiver is gone, wakes it. *)
Definition awakening_swap (final_state : Z) w : M (Sys T) (Obs T) :=
  old ← on_chan (swap final_state);
  if bool_decide (old = AWAKING) then sender_goto SDone (mkObs None None [w])
  else
    assert_true (bool_decide (old = DISCONNECTED)) "previous_state == DISCONNECTED";;
    sender_goto (SFree (bool_decide (final_state = MESSAGE))) silent.

Definition sender_free (with_message : bool) : M (Sys T) (Obs T) :=
  if with_message then
    v ← drop_message_and_deallocate_channel;
    sender_goto SDone (mkObs None (Some v) [])
  else deallocate_empty_channel;; sender_goto SDone silent.

(** [SendError::into_inner] and [SendError::drop]. *)
Definition error_into_inner : M (Sys T) (Obs T) :=
  v ← on_chan take_message;
  deallocate_empty_channel;;
  sender_goto SDone (mkObs None (Some v) []).
Definition error_drop : M (Sys T) (Obs T) :=
  v ← drop_message_and_deallocate_channel;
  sender_goto SDone (mkObs None (Some v) []).

Definition sender_step : M (Sys T) (Obs T) :=
  x ← get;
  match sender x with
  | SWrite v => on_chan (write_message v);; sender_goto SAdd silent
  | SAdd => send_add
  | STakeWaker fs => awakening_take fs
  | SSwap fs w => awakening_swap fs w
  | SFree b => sender_free b
  | SIdle | SError | SDone => mret silent
  end.

(** ** The receiver *)

Definition ready (r : RPc) (a : RecvResult T) : M (Sys T) (Obs T) := receiver_goto r (mkObs (Some a) None []).

(** [try_recv]: the load. *)
Definition try_recv : M (Sys T) (Obs T) :=
  s ← on_chan load;
  if bool_decide (s = MESSAGE) then receiver_goto RTryStore silent
  else if bool_decide (s = EMPTY) then ready RIdle Empty
  else if bool_decide (s = DISCONNECTED) then ready RIdle Disconnected
  else unreachable.

(** [Receiver::drop]. *)
Definition receiver_drop : M (Sys T) (Obs T) :=
  old ← on_chan (swap DISCONNECTED);
  if bool_decide (old = EMPTY) then receiver_goto RDone silent
  else if bool_decide (old = MESSAGE) then receiver_goto (RFree true) silent
  else if bool_decide (old = DISCONNECTED) then receiver_goto (RFree false) silent
  else unreachable.

(** [Recv::poll]: the load. *)
Definition poll_load w : M (Sys T) (Obs T) :=
  s ← on_chan load;
  if bool_decide (s = EMPTY) then receiver_goto (FWrite w) silent
  else if bool_decide (s = MESSAGE) then receiver_goto FStore silent
  else if bool_decide (s = RECEIVING) then receiver_goto (FReclaim w) silent
  else if bool_decide (s = AWAKING) then receiver_goto FIdle (mkObs None None [w])
  else if bool_decide (s = DISCONNECTED) then ready FIdle Disconnected
  else unreachable.

(** The exchange of [publish_waker]. *)
Definition publish_waker : M (Sys T) (Obs T) :=
  r ← on_chan (compare_exchange EMPTY RECEIVING);
  match r with
  | Ok _ => receiver_goto FIdle silent
  | Err s =>
      if bool_decide (s = MESSAGE) then receiver_goto (FDropWaker true) silent
      else if bool_decide (s = DISCONNECTED) then receiver_goto (FDropWaker false) silent
      else unreachable
  end.

(** The exchange of a poll that finds its waker published. *)
Definition poll_reclaim w : M (Sys T) (Obs T) :=
  r ← on_chan (compare_exchange RECEIVING EMPTY);
  match r with
  | Ok _ => receiver_goto (FRefresh w) silent
  | Err s =>
      if bool_decide (s = MESSAGE) then receiver_goto FStore silent
      else if bool_decide (s = AWAKING) then receiver_goto FIdle (mkObs None None [w])
      else if bool_decide (s = DISCONNECTED) then ready FIdle Disconnected
      else unreachable
  end.

(** [Recv::drop]: the load at the top of its loop, and the exchange it leads to. *)
Definition recv_drop_load : M (Sys T) (Obs T) :=
  s ← on_chan load;
  if bool_decide (s = EMPTY ∨ s = RECEIVING ∨ s = AWAKING) then receiver_goto (FDropCas s) silent
  else if bool_decide (s = MESSAGE) then receiver_goto (RFree true) silent
  else if bool_decide (s = DISCONNECTED) then receiver_goto (RFree false) silent
  else unreachable.

Definition recv_drop_cas (seen : Z) : M (Sys T) (Obs T) :=
  r ← on_chan (compare_exchange seen (if bool_decide (seen = RECEIVING) then EMPTY else DISCONNECTED));
  match r with
  | Ok _ => if bool_decide (seen = RECEIVING) then receiver_goto FDropReclaimed silent
            else receiver_goto RDone silent
  | Err _ => receiver_goto FDrop silent
  end.

Definition receiver_free (with_message : bool) : M (Sys T) (Obs T) :=
  if with_message then
    v ← drop_message_and_deallocate_channel;
    receiver_goto RDone (mkObs None (Some v) [])
  else deallocate_empty_channel;; receiver_goto RDone silent.

Definition receiver_step : M (Sys T) (Obs T) :=
  x ← get;
  match receiver x with
  | RTryStore => on_chan (store DISCONNECTED);; receiver_goto RTryTake silent
  | RTryTake => v ← on_chan take_message; ready RIdle (Received v)
  | FPoll w => poll_load w
  | FWrite w => on_chan (write_waker w);; receiver_goto (FPublish w) silent
  | FPublish _ => publish_waker
  | FDropWaker true => on_chan drop_waker;; receiver_goto FStore silent
  | FDropWaker false => on_chan drop_waker;; ready FIdle Disconnected
  | FStore => on_chan (store DISCONNECTED);; receiver_goto FTake silent
  | FTake => v ← on_chan take_message; ready FIdle (Received v)
  | FReclaim w => poll_reclaim w
  | FRefresh w => on_chan (refresh_waker w);; receiver_goto (FPublish w) silent
  | FDrop => recv_drop_load
  | FDropCas s => recv_drop_cas s
  | FDropReclaimed => on_chan drop_waker;; receiver_goto FDrop silent
  | RFree b => receiver_free b
  | RIdle | FIdle | RDone => mret silent
  end.
End system.

(** ** The system *)

Inductive Label (T : Type) : Type :=
| Send (v : T)
| SenderDrop
| SenderIsDisconnected
| SStep
| ErrorAsInner
| ErrorIntoInner
| ErrorDrop
| TryRecv
| ReceiverIsDisconnected
| ReceiverHasMessage
| ReceiverDrop
| IntoFuture
| Poll (w : Waker)
| RecvDrop
| RStep.
Arguments Send {T} v.
Arguments SenderDrop {T}.
Arguments SenderIsDisconnected {T}.
Arguments SStep {T}.
Arguments ErrorAsInner {T}.
Arguments ErrorIntoInner {T}.
Arguments ErrorDrop {T}.
Arguments TryRecv {T}.
Arguments ReceiverIsDisconnected {T}.
Arguments ReceiverHasMessage {T}.
Arguments ReceiverDrop {T}.
Arguments IntoFuture {T}.
Arguments Poll {T} w.
Arguments RecvDrop {T}.
Arguments RStep {T}.

Section labelled.
Context {T : Type}.
Implicit Types (x : Sys T) (v : T) (w : Waker) (c : Channel T) (l : Label T) (s : SPc T) (r : RPc).

(** [is_disconnected] and [has_message]. *)
Definition is_disconnected : M (Sys T) bool := s ← on_chan load; mret (bool_decide (s = DISCONNECTED)).
Definition has_message : M (Sys T) bool := s ← on_chan load; mret (bool_decide (s = MESSAGE)).

Definition sender_busy s : bool :=
  match s with SIdle | SError | SDone => false | _ => true end.
Definition receiver_busy r : bool :=
  match r with RIdle | FIdle | RDone => false | _ => true end.

(** An endpoint is used by one thread at a time: an operation starts when the endpoint is idle. *)
Definition enabled l x : bool :=
  match l with
  | Send _ | SenderDrop | SenderIsDisconnected => match sender x with SIdle => true | _ => false end
  | SStep => sender_busy (sender x)
  | ErrorAsInner | ErrorIntoInner | ErrorDrop => match sender x with SError => true | _ => false end
  | TryRecv | ReceiverIsDisconnected | ReceiverHasMessage | ReceiverDrop | IntoFuture =>
      match receiver x with RIdle => true | _ => false end
  | Poll _ | RecvDrop => match receiver x with FIdle => true | _ => false end
  | RStep => receiver_busy (receiver x)
  end.

Definition exec l : M (Sys T) (Obs T) :=
  match l with
  | Send v => sender_goto (SWrite v) silent
  | SenderDrop => sender_drop
  | SenderIsDisconnected | ReceiverIsDisconnected => is_disconnected;; mret silent
  | SStep => sender_step
  | ErrorAsInner => on_chan message_ref;; mret silent
  | ErrorIntoInner => error_into_inner
  | ErrorDrop => error_drop
  | TryRecv => try_recv
  | ReceiverHasMessage => has_message;; mret silent
  | ReceiverDrop => receiver_drop
  | IntoFuture => receiver_goto FIdle silent
  | Poll w => receiver_goto (FPoll w) silent
  | RecvDrop => receiver_goto FDrop silent
  | RStep => receiver_step
  end.

Definition init : Sys T := mkSys (Some new) SIdle RIdle.

(** ** Invariant *)

Definition present {A : Type} (o : option A) : bool := match o with Some _ => true | None => false end.

(** The sender holds the message in the slot. *)
Definition s_message s : bool :=
  match s with
  | SAdd | SFree true | SError => true
  | STakeWaker fs | SSwap fs _ => bool_decide (fs = MESSAGE)
  | _ => false
  end.

(** The receiver holds the message, or the waker, in the slot. *)
Definition r_message r : bool := match r with RTryTake | FTake | RFree true => true | _ => false end.
Definition r_waker r : bool :=
  match r with FPublish _ | FDropWaker _ | FRefresh _ | FDropReclaimed => true | _ => false end.

(** The states a point of the receiver is reached in or may find. *)
Definition allows r (st : Z) : Prop :=
  match r with
  | RIdle | FWrite _ | FPublish _ | FRefresh _ | FDropReclaimed => st ≠ RECEIVING ∧ st ≠ AWAKING
  | RTryStore | FStore | FDropWaker true => st = MESSAGE
  | RTryTake | FTake | FDropWaker false | RFree false => st = DISCONNECTED
  | RFree true => st = MESSAGE ∨ st = DISCONNECTED
  | FReclaim _ => st ≠ EMPTY
  | FDropCas seen => (seen = EMPTY ∧ st ≠ RECEIVING ∧ st ≠ AWAKING) ∨ (seen = RECEIVING ∧ st ≠ EMPTY) ∨
      (seen = AWAKING ∧ st ≠ EMPTY ∧ st ≠ RECEIVING)
  | FIdle | FPoll _ | FDrop => True
  | RDone => False
  end.

(** The sender's part of the invariant, for a receiver that is alive. *)
Definition both_ok c s r : Prop :=
  match s with
  | SIdle | SWrite _ | SAdd => present (message c) = s_message s ∧
      ((state c = EMPTY ∧ present (waker c) = r_waker r) ∨ (state c = RECEIVING ∧ present (waker c) = true))
  | STakeWaker fs => (fs = MESSAGE ∨ fs = DISCONNECTED) ∧ state c = AWAKING ∧
      present (waker c) = true ∧ present (message c) = s_message s
  | SSwap fs _ => (fs = MESSAGE ∨ fs = DISCONNECTED) ∧ state c = AWAKING ∧
      waker c = None ∧ present (message c) = s_message s
  | SFree _ | SError => False
  | SDone => present (waker c) = r_waker r ∧
      ((state c = MESSAGE ∧ present (message c) = true) ∨
       (state c = DISCONNECTED ∧ present (message c) = r_message r))
  end.

(** The same for a receiver that is gone: the sender cleans up. *)
Definition alone_ok c s : Prop :=
  present (message c) = s_message s ∧
  match s with
  | SIdle | SWrite _ | SAdd => state c = DISCONNECTED ∧ waker c = None
  | STakeWaker fs => (fs = MESSAGE ∨ fs = DISCONNECTED) ∧ state c = DISCONNECTED ∧ present (waker c) = true
  | SSwap fs _ => (fs = MESSAGE ∨ fs = DISCONNECTED) ∧ state c = DISCONNECTED ∧ waker c = None
  | SFree _ | SError => waker c = None
  | SDone => False
  end.

Definition oneshot_ok x : Prop :=
  match chan x, receiver x with
  | None, RDone => match sender x with SDone => True | _ => False end
  | None, _ => False
  | Some c, RDone => alone_ok c (sender x)
  | Some c, r => allows r (state c) ∧ both_ok c (sender x) r ∧
      match r with FPublish w => waker c = Some w | _ => True end
  end.

(** The message on its way: in the sender's hand or in the slot. *)
Definition held x : list T :=
  match sender x, chan x with
  | SWrite v, _ => [v]
  | _, Some c => option_list (message c)
  | _, None => []
  end.

(** Messages put in, and messages that left: received, given back or dropped. *)
Definition put_in l : list T := match l with Send v => [v] | _ => [] end.
Definition taken_out (o : Obs T) : list T :=
  match answer o with Some (Received v) => [v] | _ => [] end ++ option_list (gone o).
End labelled.

Section preservation.
Context {T : Type}.
Implicit Types (x : Sys T) (l : Label T).

(** What an operation or a step does: the invariant is kept and the message is conserved. *)
Definition effect l x (o : Obs T) x' : Prop :=
  oneshot_ok x' ∧ taken_out o ++ held x' = held x ++ put_in l ∧
  match sender x' with SIdle => sender x = SIdle ∧ put_in l = [] | _ => True end.
End preservation.

(** Case analysis over the program points and the states the invariant allows there. *)
Ltac split_cases :=
  repeat match goal with
  | H : _ ∧ _ |- _ => destruct H
  | H : _ ∨ _ |- _ => destruct H
  | H : present ?o = _ |- _ => is_var o; destruct o; simpl in H
  | H : false = true |- _ => discriminate H
  | H : true = false |- _ => discriminate H
  | H : False |- _ => destruct H
  | H : ?a = ?a |- _ => clear H
  | H : ?y = _ |- _ => is_var y; subst y
  | |- context [bool_decide _] => case_bool_decide
  | H : context [bool_decide _] |- _ => case_bool_decide
  | |- context [will_wake _ _] => unfold will_wake
  | |- _ => progress simpl in *
  end.

Ltac close_case :=
  unfold wp, effect, oneshot_ok, alone_ok, both_ok, held, taken_out, wrapping_add in *; simpl in *;
  split_cases;
  unfold EMPTY, RECEIVING, AWAKING, MESSAGE, DISCONNECTED in *;
  repeat match goal with |- context [Z.lxor ?a ?b] => let z := eval vm_compute in (Z.lxor a b) in change (Z.lxor a b) with z end;
  repeat match goal with |- context [?a mod ?b] => let z := eval vm_compute in (a mod b) in change (a mod b) with z end;
  try (exfalso; lia); intuition (try lia; try done).

(** Every point of the receiver. *)
Ltac each_receiver r := destruct r as [| | | |?w|?w|?w|[]| | |?w|?w| |?sn| |[]|].

Section steps.
Context {T : Type}.
Implicit Types (x : Sys T) (v : T) (w : Waker) (c : Channel T) (l : Label T) (s : SPc T) (r : RPc).

Lemma sender_drop_ok x : oneshot_ok x → sender x = SIdle → wp (exec SenderDrop) x (effect SenderDrop x).
Proof.
  destruct x as [[[st m k]|] s r]; intros Hx Hs; simpl in Hs; subst s; unfold oneshot_ok in Hx; simpl in Hx;
    each_receiver r; try done; unfold alone_ok, both_ok in Hx; split_cases; close_case.
Qed.

(** The sender's operations and steps, whatever the receiver is doing. *)
Lemma sender_ops_ok l x :
  oneshot_ok x → enabled l x = true →
  match l with Send _ | SenderIsDisconnected | ErrorAsInner | ErrorIntoInner | ErrorDrop => True | _ => False end →
  wp (exec l) x (effect l x).
Proof.
  destruct x as [[[st m k]|] s r]; intros Hx He Hl; destruct l; try done; destruct s; try done;
    unfold oneshot_ok in Hx; simpl in Hx; each_receiver r; try done; unfold alone_ok, both_ok in Hx;
    split_cases; close_case.
Qed.

Lemma sender_step_ok x : oneshot_ok x → sender_busy (sender x) = true → wp (exec SStep) x (effect SStep x).
Proof.
  destruct x as [[[st m k]|] s r]; intros Hx He; destruct s as [|v| |fs|fs w|[]| |]; try done;
    unfold oneshot_ok in Hx; simpl in Hx; each_receiver r; try done; unfold alone_ok, both_ok in Hx;
    split_cases; close_case.
Qed.

(** The receiver's, whatever the sender is doing. *)
Lemma receiver_ops_ok l x :
  oneshot_ok x → enabled l x = true →
  match l with
  | TryRecv | ReceiverIsDisconnected | ReceiverHasMessage | ReceiverDrop | IntoFuture | Poll _ | RecvDrop => True
  | _ => False
  end → wp (exec l) x (effect l x).
Proof.
  destruct x as [[[st m k]|] s r]; intros Hx He Hl; destruct l; try done; each_receiver r; try done;
    unfold oneshot_ok in Hx; simpl in Hx; destruct s as [|v'| |fs|fs w'|[]| |]; try done; unfold both_ok in Hx;
    split_cases; close_case.
Qed.

Lemma refresh_waker_eq (st : Z) (m : option T) (k w : Waker) :
  refresh_waker w (mkChannel st m (Some k)) = Ret tt (mkChannel st m (Some w)).
Proof.
  unfold refresh_waker, will_wake, mbind, M_bind, get, expect. simpl. unfold mret, M_ret. by case_bool_decide; subst.
Qed.

(** The step that refreshes a reclaimed waker. *)
Lemma refresh_step st m k s w :
  receiver_step (mkSys (T:=T) (Some (mkChannel st m (Some k))) s (FRefresh w)) =
  Ret silent (mkSys (Some (mkChannel st m (Some w))) s (FPublish w)).
Proof. unfold receiver_step, mbind, M_bind, get, on_chan. simpl. by rewrite refresh_waker_eq. Qed.

Lemma receiver_step_ok x : oneshot_ok x → receiver_busy (receiver x) = true → wp (exec RStep) x (effect RStep x).
Proof.
  destruct x as [[[st m k]|] s r]; intros Hx He; each_receiver r; try done;
    unfold oneshot_ok in Hx; simpl in Hx; destruct s as [|v'| |fs|fs w'|[]| |]; try done; unfold both_ok in Hx;
    split_cases; try (unfold wp; rewrite refresh_step); close_case.
Qed.

Lemma oneshot_exec_ok l x : oneshot_ok x → enabled l x = true → wp (exec l) x (effect l x).
Proof.
  intros Hx He. destruct l; try (by apply sender_ops_ok); try (by apply receiver_ops_ok).
  - apply sender_drop_ok; [done|]. simpl in He. by destruct (sender x).
  - by apply sender_step_ok.
  - by apply receiver_step_ok.
Qed.

Lemma oneshot_init_ok : oneshot_ok (init (T:=T)).
Proof. unfold oneshot_ok. simpl. split; [done|]. split; [|done]. split; [done|]. by left. Qed.

Lemma oneshot_run_ok x ls tr x' : oneshot_ok x → returns (run enabled exec ls) x tr x' → oneshot_ok x'.
Proof. apply run_invariant. intros y l Hy He. wp_apply oneshot_exec_ok; [done..|]. by intros o y' []. Qed.

(** ** Theorems *)

(** C7: the channel is memory safe: in every reachable state every operation and every step
    returns, so that no freed channel is accessed, no uninitialised slot read, no slot overwritten
    or leaked and no [unreachable!] reached; and the allocation is freed exactly when both
    endpoints are done with it. *)
Theorem oneshot_memory_safe ls tr x l :
  returns (run enabled exec ls) (init (T:=T)) tr x → enabled l x = true →
  (∃ o x', returns (exec l) x o x') ∧ (chan x = None ↔ sender x = SDone ∧ receiver x = RDone).
Proof.
  intros Hr He. pose proof (oneshot_run_ok _ _ _ _ oneshot_init_ok Hr) as Hx. split.
  - pose proof (oneshot_exec_ok l x Hx He) as (o & x' & H & _)%wp_returns. by exists o, x'.
  - destruct x as [[c|] s r]; unfold oneshot_ok, alone_ok in Hx; simpl in *.
    + split; [done|]. intros [-> ->]. tauto.
    + destruct r; try done. by destruct s.
Qed.

Definition all_put (ls : list (Label T)) : list T := concat (put_in <$> ls).
Definition all_taken (tr : list (Label T * Obs T)) : list T := concat ((λ e, taken_out e.2) <$> tr).

(** C8: the message is conserved: over every run at most one message is put in, and it is either
    still on its way or has left exactly once, as received, given back by the error or dropped. *)
Theorem oneshot_message_conserved ls tr x :
  returns (run enabled exec ls) (init (T:=T)) tr x →
  all_put ls = all_taken tr ++ held x ∧ (length (all_put ls) ≤ 1)%nat.
Proof.
  intros Hr. rewrite <-(run_labels _ _ _ _ _ _ Hr).
  cut (oneshot_ok x ∧ all_put ([] ++ tr).*1 = all_taken ([] ++ tr) ++ held x ∧ (length (all_put ([] ++ tr).*1) ≤ 1)%nat ∧
    match sender x with SIdle => all_put ([] ++ tr).*1 = [] | _ => True end); [tauto|].
  eapply (run_trace_invariant enabled exec (λ tr x, oneshot_ok x ∧ all_put tr.*1 = all_taken tr ++ held x ∧
    (length (all_put tr.*1) ≤ 1)%nat ∧ match sender x with SIdle => all_put tr.*1 = [] | _ => True end)); [| |done].
  - clear. intros tr x l (Hx & Hc & Hn & Hi) He. wp_apply oneshot_exec_ok; [done..|]. intros o x' (Hx' & Hh & Hs).
    assert (all_put (tr ++ [(l, o)]).*1 = all_put tr.*1 ++ put_in l) as Ep.
    { unfold all_put. rewrite fmap_app, fmap_app, concat_app. csimpl. by rewrite app_nil_r. }
    assert (all_taken (tr ++ [(l, o)]) = all_taken tr ++ taken_out o) as Et.
    { unfold all_taken. rewrite fmap_app, concat_app. csimpl. by rewrite app_nil_r. }
    rewrite Ep, Et. split_and!; [done|by rewrite Hc, <-!app_assoc, Hh| |].
    + destruct (decide (put_in l = [])) as [->|Hp]; [by rewrite app_nil_r|]. destruct l; try done. simpl in *.
      destruct (sender x); try done. rewrite Hi. simpl. lia.
    + destruct (sender x'); try done. destruct Hs as [Hs ->]. rewrite Hs in Hi. by rewrite Hi.
  - split_and!; [apply oneshot_init_ok|done|simpl; lia|done].
Qed.
End steps.

(** ** Wake-ups *)
Section wakeups.
Context {T : Type}.
Implicit Types (x : Sys T) (w : Waker) (l : Label T) (r : RPc).

(** The waker of the poll in progress. *)
Definition poll_waker r : option Waker :=
  match r with
  | FPoll w | FWrite w | FPublish w | FReclaim w | FRefresh w => Some w
  | _ => None
  end.

(** The waker [w] is published, or the sender has it and is going to wake it. *)
Definition pledged w x : Prop :=
  match chan x with
  | None => False
  | Some c =>
      (state c = RECEIVING ∧ waker c = Some w) ∨
      (state c = AWAKING ∧ match sender x with
                            | STakeWaker _ => waker c = Some w
                            | SSwap _ w' => w' = w
                            | _ => False
                            end)
  end.

Definition sender_label l : bool :=
  match l with
  | Send _ | SenderDrop | SenderIsDisconnected | SStep | ErrorAsInner | ErrorIntoInner | ErrorDrop => true
  | _ => false
  end.

(** A poll that ends pending has published its waker, or wakes it itself. *)
Lemma poll_end_pledged x w :
  oneshot_ok x → poll_waker (receiver x) = Some w →
  wp (exec RStep) x (λ o x', receiver x' = FIdle → answer o = None → w ∈ woken o ∨ pledged w x').
Proof.
  destruct x as [[[st m k]|] s r]; intros Hx Hw; each_receiver r; try done; simpl in Hw; injection Hw as ->;
    unfold oneshot_ok in Hx; simpl in Hx; destruct s as [|v'| |fs|fs w'|[]| |]; try done; unfold both_ok in Hx;
    split_cases; try (unfold wp; rewrite refresh_step); unfold pledged; close_case; simplify_eq; set_solver.
Qed.

(** The sender keeps the promise. *)
Lemma pledged_step w l x :
  oneshot_ok x → enabled l x = true → sender_label l = true → pledged w x →
  wp (exec l) x (λ o x', pledged w x' ∨ w ∈ woken o).
Proof.
  destruct x as [[[st m k]|] s r]; intros Hx He Hl Hp; [|done]. unfold pledged in Hp; simpl in Hp.
  destruct l; try done; simpl in He; destruct s as [|v'| |fs|fs w'|[]| |]; try done;
    unfold oneshot_ok in Hx; simpl in Hx; each_receiver r; try done; unfold alone_ok, both_ok in Hx;
    split_cases; unfold pledged; close_case; simplify_eq; set_solver.
Qed.

(** C22: the receiver is not left asleep: once a poll has ended pending, the sender's completion or
    drop, however its steps interleaved with the poll, wakes the task of that poll. *)
Theorem oneshot_no_lost_wakeup ls tr x w o x1 ls' tr' x' :
  returns (run enabled exec ls) (init (T:=T)) tr x → poll_waker (receiver x) = Some w →
  returns (exec RStep) x o x1 → receiver x1 = FIdle → answer o = None →
  Forall (λ l, sender_label l = true) ls' → returns (run enabled exec ls') x1 tr' x' → sender x' = SDone →
  w ∈ woken o ∨ Exists (λ e, w ∈ woken e.2) tr'.
Proof.
  intros Hr Hw Hx1 Hf Ha Hls Hr' Hd. pose proof (oneshot_run_ok _ _ _ _ oneshot_init_ok Hr) as Hx.
  assert (receiver_busy (receiver x) = true) as Hb by (by destruct (receiver x)).
  pose proof (wp_returns_elim _ _ _ _ _ (receiver_step_ok x Hx Hb) Hx1) as [Hok1 _].
  apply (wp_returns_elim _ _ _ _ _ (poll_end_pledged x w Hx Hw)) in Hx1 as [?|Hp]; [by left| |done..]. right.
  edestruct (run_promise enabled exec oneshot_ok (pledged w) (λ o, w ∈ woken o) sender_label ls' x1)
    as [H|H]; [|done|exact Hp|done|exact Hr'| |exact H].
  - intros y l Hy Hl Hs. apply wp_returns. pose proof (oneshot_exec_ok l y Hy Hl) as (o' & y' & Hy' & Hok & _)%wp_returns.
    exists o', y'. split_and!; [done|done|]. intros Hpy.
    by apply (wp_returns_elim _ _ _ _ _ (pledged_step w l y Hy Hl Hs Hpy)).
  - exfalso. pose proof (oneshot_run_ok _ _ _ _ Hok1 Hr') as Hx'. destruct x' as [[c|] s r]; [|done]. simpl in Hd.
    subst s. unfold pledged, oneshot_ok in *. simpl in *. unfold RECEIVING, AWAKING, MESSAGE, DISCONNECTED in *.
    destruct r; unfold alone_ok, both_ok in Hx'; simpl in Hx';
      unfold RECEIVING, AWAKING, MESSAGE, DISCONNECTED in *; intuition lia.
Qed.

(** ** The drop of a receiving future *)

(** The loop of [Recv::drop], and a bound on the receiver steps it has left: an exchange fails only
    if the sender has moved the state on. *)
Definition dropping r : bool :=
  match r with FDrop | FDropCas _ | FDropReclaimed | RFree _ | RDone => true | _ => false end.
Definition level (st : Z) : nat :=
  if bool_decide (st = RECEIVING) then 3
  else if bool_decide (st = EMPTY) then 2
  else if bool_decide (st = AWAKING) then 1 else 0.
Definition drop_left x : nat :=
  match receiver x, chan x with
  | FDrop, Some c => 3 * level (state c) + 2
  | FDropCas seen, Some c => 3 * level (state c) + if bool_decide (seen = state c) then 1 else 3
  | FDropReclaimed, Some c => 3 * level (state c) + 3
  | RFree _, _ => 1
  | _, _ => 0
  end%nat.
Definition receiver_steps l : nat := match l with RStep => 1 | _ => 0 end.

Lemma drop_progress l x :
  oneshot_ok x → enabled l x = true → dropping (receiver x) = true →
  wp (exec l) x (λ _ x', dropping (receiver x') = true ∧ (drop_left x' + receiver_steps l ≤ drop_left x)%nat).
Proof.
  destruct x as [[[st m k]|] s r]; intros Hx He Hd; destruct l; try done;
    each_receiver r; try done; simpl in He; destruct s as [|v'| |fs|fs w'|[]| |]; try done;
    unfold oneshot_ok in Hx; simpl in Hx; unfold alone_ok, both_ok in Hx; split_cases;
    unfold drop_left, level; close_case.
Qed.

Definition steps_of (ls : list (Label T)) : nat := sum_list (receiver_steps <$> ls).

(** C28: dropping a receiving future terminates: whatever the sender does meanwhile, the loop takes
    at most eleven steps, and until it is finished its next step is always possible. *)
Theorem oneshot_drop_terminates ls tr x ls' tr' x' :
  returns (run enabled exec ls) (init (T:=T)) tr x → receiver x = FDrop →
  returns (run enabled exec ls') x tr' x' →
  (steps_of ls' ≤ 11)%nat ∧ (receiver x' = RDone ∨ enabled RStep x' = true).
Proof.
  intros Hr Hd Hr'. pose proof (oneshot_run_ok _ _ _ _ oneshot_init_ok Hr) as Hx.
  assert (dropping (receiver x) = true) as Hdx by (by rewrite Hd).
  assert (drop_left x ≤ 11)%nat as Hle.
  { unfold drop_left, level. rewrite Hd. destruct (chan x); [|lia]. repeat case_bool_decide; lia. }
  clear Hr Hd tr. cut ((drop_left x' + steps_of ls' ≤ drop_left x)%nat ∧ dropping (receiver x') = true).
  { intros [H1 H2]. split; [lia|]. simpl. destruct (receiver x'); auto. }
  clear Hle. revert x tr' Hx Hdx Hr'. induction ls' as [|l ls' IH]; intros x tr' Hx Hdx Hr'.
  { injection Hr' as <- <-. unfold steps_of. simpl. split; [lia|done]. }
  apply run_cons_inv in Hr' as (He & o & x1 & tr1 & Hx1 & Hr' & _).
  pose proof (wp_returns_elim _ _ _ _ _ (oneshot_exec_ok l x Hx He) Hx1) as [Hok1 _].
  apply (wp_returns_elim _ _ _ _ _ (drop_progress l x Hx He Hdx)) in Hx1 as [Hd1 Hle1].
  destruct (IH x1 tr1 Hok1 Hd1 Hr') as [H1 H2]. split; [|done]. unfold steps_of in *. csimpl. lia.
Qed.
End wakeups.

(** A send races with the second poll of the receiver, which is cancelled during the awakening. *)
Definition race : list (Label nat) :=
  [IntoFuture; Poll 7%nat; RStep; RStep; RStep; Send 42%nat; SStep; Poll 8%nat; RStep; SStep; RStep; RecvDrop; RStep;
   SStep; RStep; SStep; SStep].
Definition oneshot_after (ls : list (Label nat)) : Sys nat :=
  match run enabled exec ls init with Ret _ x | Panic _ x => x end.

Lemma oneshot_memory_safe_witness :
  (∃ o x', returns (exec SStep) (oneshot_after (take 15 race)) o x') ∧
  (chan (oneshot_after (take 15 race)) = None ↔
    sender (oneshot_after (take 15 race)) = SDone ∧ receiver (oneshot_after (take 15 race)) = RDone).
Proof. eapply (oneshot_memory_safe (take 15 race) _ _ SStep); vm_compute; reflexivity. Defined.

Lemma oneshot_message_conserved_witness :
  ∃ tr x, returns (run enabled exec race) init tr x ∧ chan x = None ∧ all_put race = all_taken tr ++ held x ∧
    (length (all_put race) ≤ 1)%nat.
Proof.
  eexists _, _. split; [vm_compute; reflexivity|]. split; [reflexivity|].
  eapply (oneshot_message_conserved race); vm_compute; reflexivity.
Defined.

Lemma oneshot_no_lost_wakeup_witness :
  ∃ o x1 tr' x', returns (exec RStep) (oneshot_after (take 4 race)) o x1 ∧
    returns (run enabled exec [Send 42%nat; SStep; SStep; SStep; SStep]) x1 tr' x' ∧
    (7%nat ∈ woken o ∨ Exists (λ e, 7%nat ∈ woken e.2) tr').
Proof.
  eexists _, _, _, _. split; [vm_compute; reflexivity|]. split; [vm_compute; reflexivity|].
  eapply (oneshot_no_lost_wakeup (take 4 race) _ _ 7%nat _ _ [Send 42%nat; SStep; SStep; SStep; SStep]);
    [vm_compute; reflexivity|vm_compute; reflexivity|vm_compute; reflexivity|vm_compute; reflexivity|done| |
     vm_compute; reflexivity|vm_compute; reflexivity].
  repeat constructor.
Defined.

Lemma oneshot_drop_terminates_witness :
  (steps_of (drop 12 race) ≤ 11)%nat ∧
  (receiver (oneshot_after race) = RDone ∨ enabled RStep (oneshot_after race) = true).
Proof.
  eapply (oneshot_drop_terminates (take 12 race) _ _ (drop 12 race)); vm_compute; reflexivity.
Defined.
