(* ===== verification/Watch.v ===== *)
(** * The watch channel

    [asyncband/src/watch/mod.rs]: the latest value and its version.  A receiver remembers the version it
    has seen; its future is registered until a newer version is published or the last sender is
    gone, both of which detach every registration under the lock. *)
From S2P Require Import Prelude Arena WakerBatch WakerSet.

Section state.
Context {T : Type}.

Record State : Type := mkState {
  value : T;
  version : Z;
  senders : Z;
  receivers : Z;
  waiters : WakerSet;
}.
Implicit Types (s : State) (v : T).

Definition set_senders (n : Z) s : State := mkState (value s) (version s) n (receivers s) (waiters s).
Definition set_receivers (n : Z) s : State := mkState (value s) (version s) (senders s) n (waiters s).
Definition set_waiters (w : WakerSet) s : State := mkState (value s) (version s) (senders s) (receivers s) w.
Definition in_waiters {A : Type} (m : M WakerSet A) : M State A := zoom waiters set_waiters m.

Definition channel (initial : T) : State := mkState initial 0 1 1 wakerset_new.

(** [Sender::clone]; [Sender::subscribe] and [Receiver::clone]. *)
Definition sender_clone : M State unit :=
  s ← get;
  n ← expect (checked_add usize_max (senders s) 1) "watch sender count overflowed";
  put (set_senders n s).
Definition receiver_add : M State unit :=
  s ← get;
  n ← expect (checked_add usize_max (receivers s) 1) "watch receiver count overflowed";
  put (set_receivers n s).
Definition subscribe : M State Z := receiver_add;; gets version.

(** [Sender::drop]: the last one wakes everybody. *)
Definition sender_drop : M State (list Waker) :=
  s ← get;
  n ← sub_int (senders s) 1;
  put (set_senders n s);;
  if bool_decide (n ≠ 0) then mret []
  else
    modify (set_waiters wakerset_new);;
    mret (set_wake_all (waiters s)).

(** [Receiver::drop]. *)
Definition receiver_drop : M State unit :=
  s ← get;
  n ← sub_int (receivers s) 1;
  put (set_receivers n s).

(** The publication shared by [send] and [send_replace]: the replaced value and the tasks woken. *)
Definition publish v : M State (T * list Waker) :=
  s ← get;
  n ← expect (checked_add u64_max (version s) 1) "watch channel version counter overflowed";
  put (mkState v n (senders s) (receivers s) (waiters s));;
  wakers ← in_waiters set_take_all;
  ws ← batch_wake wakers;
  mret (value s, ws).

Definition send v : M State (result unit T * list Waker) :=
  s ← get;
  if bool_decide (receivers s = 0) then mret (Err v, [])
  else '(_, ws) ← publish v; mret (Ok tt, ws).

Definition send_replace v : M State (T * list Waker) := publish v.

(** [RecvError::Disconnected]. *)
Inductive RecvError : Type := Disconnected.

(** What a receiver that has seen version [seen] finds. *)
Definition observe (seen : Z) s : Poll (result Z RecvError) :=
  if bool_decide (version s ≠ seen) then Ready (Ok (version s))
  else if bool_decide (senders s = 0) then Ready (Err Disconnected)
  else Pending.

Definition has_changed (seen : Z) s : result bool RecvError :=
  if bool_decide (version s ≠ seen) then Ok true
  else if bool_decide (senders s = 0) then Err Disconnected
  else Ok false.

Definition is_disconnected s : bool := bool_decide (senders s = 0).

(** A [Change] future, with the receiver it borrows and whether it belongs to [recv]. *)
Record Change : Type := mkChange {
  borrows : nat;
  seen : Z;
  token : option WakerToken;
  is_recv : bool;
}.

(** [Change::poll]. *)
Definition change_poll (c : Change) (cx : Waker) : M State (Change * Poll (result Z RecvError)) :=
  s ← get;
  match observe (seen c) s with
  | Ready r => mret (mkChange (borrows c) (seen c) None (is_recv c), Ready r)
  | Pending =>
      '(tk, _) ← in_waiters (register (token c) cx);
      mret (mkChange (borrows c) (seen c) tk (is_recv c), Pending)
  end.

(** [Change::drop]. *)
Definition change_drop (c : Change) : M State unit :=
  match token c with
  | None => mret tt
  | Some _ =>
      s ← get;
      if bool_decide (version s ≠ seen c) || bool_decide (senders s = 0) then mret tt
      else in_waiters (unregister (token c));; mret tt
  end.
End state.
Arguments State : clear implicits.

#[export] Hint Unfold in_waiters : band_zoom.

(** ** The system: senders, receivers and their futures *)

(** [fetching] are the receivers whose [recv] has seen a change and is about to read the value. *)
Record Sys (T : Type) : Type := mkSys {
  st : State T;
  tx : gset nat;
  rx : gmap nat Z;
  changes : gmap nat Change;
  fetching : gset nat;
}.
Arguments mkSys {T}.
Arguments st {T}.
Arguments tx {T}.
Arguments rx {T}.
Arguments changes {T}.
Arguments fetching {T}.

Inductive Label (T : Type) : Type :=
| SenderClone (h h' : nat)
| SenderDrop (h : nat)
| Send (h : nat) (v : T)
| SendReplace (h : nat) (v : T)
| Subscribe (h r : nat)
| ReceiverClone (r r' : nat)
| ReceiverDrop (r : nat)
| Get (r : nat)
| Changed (r f : nat)
| Recv (r f : nat)
| ChangePoll (f : nat) (cx : Waker)
| ChangeDrop (f : nat)
| RecvFetch (r : nat)
| RecvCancel (r : nat).
Arguments SenderClone {T} h h'.
Arguments SenderDrop {T} h.
Arguments Send {T} h v.
Arguments SendReplace {T} h v.
Arguments Subscribe {T} h r.
Arguments ReceiverClone {T} r r'.
Arguments ReceiverDrop {T} r.
Arguments Get {T} r.
Arguments Changed {T} r f.
Arguments Recv {T} r f.
Arguments ChangePoll {T} f cx.
Arguments ChangeDrop {T} f.
Arguments RecvFetch {T} r.
Arguments RecvCancel {T} r.

(** The answer of a change future, the value read, a value given back, and the tasks woken. *)
Record Obs (T : Type) : Type := mkObs {
  answer : option (result Z RecvError);
  got : option T;
  returned : option T;
  woken : list Waker;
}.
Arguments mkObs {T}.
Arguments answer {T}.
Arguments got {T}.
Arguments returned {T}.
Arguments woken {T}.

Section system.
Context {T : Type}.
Implicit Types (x : Sys T) (l : Label T) (s : State T) (v : T) (h r f : nat) (w : Waker).

Definition silent : Obs T := mkObs None None None [].

Definition set_st s x : Sys T := mkSys s (tx x) (rx x) (changes x) (fetching x).
Definition set_tx (g : gset nat) x : Sys T := mkSys (st x) g (rx x) (changes x) (fetching x).
Definition set_rx (g : gmap nat Z) x : Sys T := mkSys (st x) (tx x) g (changes x) (fetching x).
Definition set_changes (g : gmap nat Change) x : Sys T := mkSys (st x) (tx x) (rx x) g (fetching x).
Definition set_fetching (g : gset nat) x : Sys T := mkSys (st x) (tx x) (rx x) (changes x) g.
Definition on_st {A : Type} (m : M (State T) A) : M (Sys T) A := zoom st set_st m.

(** A receiver is borrowed by its future and while it fetches. *)
Definition idle r x : Prop :=
  is_Some (rx x !! r) ∧ map_Forall (λ _ c, borrows c ≠ r) (changes x) ∧ r ∉ fetching x.

(** Handles own references, so their counts stay below [isize::MAX]; versions do not run out. *)
Definition enabled l x : bool :=
  match l with
  | SenderClone h h' =>
      bool_decide (h ∈ tx x ∧ h' ∉ tx x) && bool_decide (Z.of_nat (size (tx x)) < isize_max)
  | SenderDrop h => bool_decide (h ∈ tx x)
  | Send h _ | SendReplace h _ => bool_decide (h ∈ tx x) && bool_decide (version (st x) < u64_max)
  | Subscribe h r =>
      bool_decide (h ∈ tx x ∧ rx x !! r = None) && bool_decide (Z.of_nat (size (rx x)) < isize_max)
  | ReceiverClone r r' =>
      bool_decide (idle r x ∧ rx x !! r' = None) && bool_decide (Z.of_nat (size (rx x)) < isize_max)
  | ReceiverDrop r | Get r => bool_decide (idle r x)
  | Changed r f | Recv r f => bool_decide (idle r x) && bool_decide (changes x !! f = None)
  | ChangePoll f _ => bool_decide (is_Some (changes x !! f)) && bool_decide (set_room (waiters (st x)))
  | ChangeDrop f => bool_decide (is_Some (changes x !! f))
  | RecvFetch r | RecvCancel r => bool_decide (r ∈ fetching x)
  end.

(** [changed] and [recv] up to their await. *)
Definition change_new r f (recv : bool) : M (Sys T) (Obs T) :=
  x ← get;
  sn ← expect (rx x !! r) "no such receiver";
  put (set_changes (<[f:=mkChange r sn None recv]> (changes x)) x);;
  mret silent.

(** The future is gone once it is ready; [changed] then stores the version it returned, [recv] goes
    on to read the value. *)
Definition poll_change f (cx : Waker) : M (Sys T) (Obs T) :=
  x ← get;
  c ← expect (changes x !! f) "no such future";
  '(c, a) ← on_st (change_poll c cx);
  match a with
  | Pending => modify (set_changes (<[f:=c]> (changes x)));; mret silent
  | Ready a =>
      modify (set_changes (delete f (changes x)));;
      match a with
      | Ok n => if is_recv c then modify (set_fetching ({[borrows c]} ∪ fetching x))
                else modify (set_rx (<[borrows c:=n]> (rx x)))
      | Err _ => mret tt
      end;;
      mret (mkObs (Some a) None None [])
  end.

(** The second critical section of [recv]. *)
Definition recv_fetch r : M (Sys T) (Obs T) :=
  x ← get;
  put (mkSys (st x) (tx x) (<[r:=version (st x)]> (rx x)) (changes x) (fetching x ∖ {[r]}));;
  mret (mkObs None (Some (value (st x))) None []).

Definition exec l : M (Sys T) (Obs T) :=
  x ← get;
  match l with
  | SenderClone _ h' => on_st sender_clone;; modify (set_tx ({[h']} ∪ tx x));; mret silent
  | SenderDrop h => ws ← on_st sender_drop; modify (set_tx (tx x ∖ {[h]}));; mret (mkObs None None None ws)
  | Send _ v =>
      '(r, ws) ← on_st (send v);
      mret (mkObs None None (match r with Ok _ => None | Err v => Some v end) ws)
  | SendReplace _ v => '(old, ws) ← on_st (send_replace v); mret (mkObs None None (Some old) ws)
  | Subscribe _ r => sn ← on_st subscribe; modify (set_rx (<[r:=sn]> (rx x)));; mret silent
  | ReceiverClone r r' =>
      sn ← expect (rx x !! r) "no such receiver";
      on_st receiver_add;; modify (set_rx (<[r':=sn]> (rx x)));; mret silent
  | ReceiverDrop r => on_st receiver_drop;; modify (set_rx (delete r (rx x)));; mret silent
  | Get _ => mret (mkObs None (Some (value (st x))) None [])
  | Changed r f => change_new r f false
  | Recv r f => change_new r f true
  | ChangePoll f cx => poll_change f cx
  | ChangeDrop f =>
      c ← expect (changes x !! f) "no such future";
      on_st (change_drop c);;
      modify (set_changes (delete f (changes x)));;
      mret silent
  | RecvFetch r => recv_fetch r
  | RecvCancel r => modify (set_fetching (fetching x ∖ {[r]}));; mret silent
  end.

(** A sender 0 and a receiver 0. *)
Definition init (v : T) : Sys T := mkSys (channel v) {[0%nat]} {[0%nat := 0]} ∅ ∅.
End system.

#[export] Hint Unfold on_st : band_zoom.

(** ** Invariant *)
Section invariant.
Context {T : Type}.
Implicit Types (x : Sys T) (l : Label T) (s : State T) (v : T) (h r f : nat) (w : Waker) (c : Change).

(** The token a future may use: void once the future can complete. *)
Definition live s c : option WakerToken :=
  match observe (seen c) s with Pending => token c | Ready _ => None end.

Record watch_ok x : Prop := {
  wo_tx : senders (st x) = Z.of_nat (size (tx x));
  wo_rx : receivers (st x) = Z.of_nat (size (rx x));
  wo_version : 0 <= version (st x) <= u64_max;
  wo_seen : ∀ r n, rx x !! r = Some n → 0 <= n <= version (st x);
  wo_changes : ∀ f c, changes x !! f = Some c → seen c <= version (st x) ∧ is_Some (rx x !! borrows c);
  wo_fetching : ∀ r, r ∈ fetching x → is_Some (rx x !! r);
  wo_set : ∃ m, set_rep (waiters (st x)) m ∧ owned (live (st x) <$> changes x) m;
}.

Definition parked f w x : Prop :=
  ∃ m, set_rep (waiters (st x)) m ∧ registered (live (st x) <$> changes x) m f w.

Definition about l : option nat :=
  match l with
  | Changed _ f | Recv _ f | ChangePoll f _ | ChangeDrop f => Some f
  | _ => None
  end.

(** The value an operation has published. *)
Definition published l (o : Obs T) : option T :=
  match l with
  | Send _ v => match returned o with None => Some v | Some _ => None end
  | SendReplace _ v => Some v
  | _ => None
  end.

Record effect l x (o : Obs T) x' : Prop := {
  ef_ok : watch_ok x';
  ef_value : value (st x') = default (value (st x)) (published l o);
  ef_version : version (st x') = version (st x) + match published l o with Some _ => 1 | None => 0 end;
  ef_got : ∀ v, got o = Some v → v = value (st x);
  ef_changes : ∀ f, about l ≠ Some f → changes x' !! f = changes x !! f;
  ef_parked : ∀ f w, about l ≠ Some f → parked f w x → parked f w x' ∨ w ∈ woken o;
}.

Lemma watch_live_ext s s' :
  version s' = version s → (senders s' = 0 ↔ senders s = 0) → live s' = live s.
Proof.
  intros Hv Hn. unfold live, observe. rewrite Hv. by rewrite (bool_decide_ext _ _ Hn).
Qed.

(** An operation that leaves the futures and the set alone. *)
Lemma effect_handles l x s' g i ft o :
  watch_ok x → value s' = value (st x) → version s' = version (st x) → waiters s' = waiters (st x) →
  (senders s' = 0 ↔ senders (st x) = 0) → senders s' = Z.of_nat (size g) → receivers s' = Z.of_nat (size i) →
  (∀ r n, i !! r = Some n → 0 <= n <= version (st x)) →
  (∀ f c, changes x !! f = Some c → is_Some (i !! borrows c)) → (∀ r, r ∈ ft → is_Some (i !! r)) →
  published l o = None → (∀ v, got o = Some v → v = value (st x)) →
  effect l x o (mkSys s' g i (changes x) ft).
Proof.
  intros [Htx Hrx Hv Hsn Hch Hft (m & Hm & Hown)] Ev En Ew Hs Hg Hi Hin Hchi Hfti Hp Hgot.
  pose proof (watch_live_ext _ _ En Hs) as El. split; simpl; rewrite ?Hp, ?Ev, ?En; simpl; try done; try lia.
  - split; simpl; rewrite ?En; try done.
    + intros f c Hf. split; [by eapply Hch|by eapply Hchi].
    + exists m. by rewrite Ew, El.
  - intros f w _ (m0 & Hm0 & Hr). left. exists m0. simpl. by rewrite Ew, El.
Qed.

Lemma effect_same l x o :
  watch_ok x → published l o = None → (∀ v, got o = Some v → v = value (st x)) → effect l x o x.
Proof.
  intros Hx Hp Hg. destruct x as [s g i ch ft]. apply (effect_handles l (mkSys s g i ch ft)); try done; apply Hx.
Qed.

(** An operation of the future [f]. *)
Lemma effect_change l x f (w' : WakerSet) g' m m' i ft o :
  watch_ok x → about l = Some f → published l o = None → got o = None →
  set_rep (waiters (st x)) m → set_rep w' m' → owned (live (st x) <$> g') m' →
  keeps_others f (live (st x) <$> changes x) m (live (st x) <$> g') m' →
  (∀ k, k ≠ f → g' !! k = changes x !! k) →
  (∀ c, g' !! f = Some c → seen c <= version (st x) ∧ is_Some (i !! borrows c)) →
  (∀ r, is_Some (rx x !! r) → is_Some (i !! r)) → size i = size (rx x) →
  (∀ r n, i !! r = Some n → 0 <= n <= version (st x)) → (∀ r, r ∈ ft → is_Some (i !! r)) →
  effect l x o (mkSys (set_waiters w' (st x)) (tx x) i g' ft).
Proof.
  intros [Htx Hrx Hv Hsn Hch Hft _] Hl Hp Hgot Hm Hm' Hown Hk Hoth Hf Hi Hsz Hin Hfti.
  assert (live (set_waiters w' (st x)) = live (st x)) as El by (by apply watch_live_ext).
  split; simpl; rewrite ?Hp, ?Hgot; simpl; try done; try lia.
  - split; simpl; try done; [by rewrite Hsz| |exists m'; by rewrite El].
    intros k c Hk'. destruct (decide (k = f)) as [->|Hne]; [by apply Hf|]. rewrite Hoth in Hk' by done.
    destruct (Hch k c Hk') as [? ?]. split; [done|by apply Hi].
  - intros k Hne. apply Hoth. congruence.
  - intros k w Hne (m0 & Hm0 & Hr). pose proof (set_rep_inj _ _ _ Hm Hm0) as <-. left. exists m'. simpl.
    rewrite El. split; [done|]. apply Hk; [congruence|done].
Qed.

(** Handles of senders. *)
Lemma sender_handles_ok l x :
  (∃ h h', l = SenderClone h h') ∨ (∃ h, l = SenderDrop h) →
  watch_ok x → enabled l x = true → wp (exec l) x (effect l x).
Proof.
  intros Hl Hx He. pose proof Hx as [Htx Hrx Hv Hsn Hch Hft (m & Hm & Hown)].
  destruct Hl as [(h & h' & ->)|(h & ->)]; simpl in He; unfold exec; wp_auto.
  - apply enabled_and in He as [[Hh Hh'] Hlt]. unfold sender_clone. wp_auto. pose proof (size_pos_elem _ _ Hh) as Hpos.
    eapply wp_expect; [unfold checked_add; rewrite decide_True; [done|]|wp_auto; simpl].
    { unfold isize_max, usize_max in *. lia. }
    assert (size ({[h']} ∪ tx x) = S (size (tx x))) as Hsz by (rewrite size_union, size_singleton by set_solver; lia).
    apply (effect_handles _ x); simpl; try done; [lia|rewrite Hsz; lia|intros f c Hf; by eapply Hch].
  - apply bool_decide_eq_true in He. pose proof (size_pos_elem _ _ He) as Hpos. unfold sender_drop. wp_auto.
    assert (size (tx x ∖ {[h]}) = size (tx x) - 1)%nat as Hsz.
    { rewrite size_difference by set_solver. by rewrite size_singleton. }
    apply wp_sub_int; [lia|]. wp_auto. case_bool_decide as E; wp_auto; simpl.
    + apply (effect_handles _ x); simpl; try done; [lia|lia|intros f c Hf; by eapply Hch].
    + apply dec_stable in E || idtac. split; simpl; try done; try lia.
      * split; simpl; try done; [lia|]. exists ∅. split; [apply wakerset_new_rep|]. apply owned_none.
        intros f o. rewrite lookup_fmap, fmap_Some. intros (c & Hc & ->). unfold live, observe. simpl.
        case_bool_decide; [done|]. rewrite bool_decide_eq_true_2; [done|]. lia.
      * intros f w _ (m0 & Hm0 & Hr). right. eapply registered_taken; [done|]. by apply set_wake_all_spec.
Qed.

(** Handles of receivers. *)
Lemma receiver_handles_ok l x :
  (∃ h r, l = Subscribe h r) ∨ (∃ r r', l = ReceiverClone r r') ∨ (∃ r, l = ReceiverDrop r) ∨ (∃ r, l = Get r) →
  watch_ok x → enabled l x = true → wp (exec l) x (effect l x).
Proof.
  intros Hl Hx He. pose proof Hx as [Htx Hrx Hv Hsn Hch Hft Hset].
  assert (∀ r n, rx x !! r = None → 0 <= n <= version (st x) → receivers (st x) < isize_max →
    wp receiver_add (st x) (λ _ s', version s' = version (st x) ∧
      effect l x silent (mkSys s' (tx x) (<[r:=n]> (rx x)) (changes x) (fetching x)))) as Hadd.
  { intros r n Hr Hn Hlt. unfold receiver_add. wp_auto. eapply wp_expect; [unfold checked_add; rewrite decide_True; [done|]|wp_auto].
    { unfold isize_max, usize_max in *. lia. }
    split; [done|]. apply (effect_handles _ x); simpl; try done.
    - rewrite map_size_insert_None by done. lia.
    - intros r' n' [[_ <-]|[_ ?]]%lookup_insert_Some; [lia|by eauto].
    - intros f c [_ Hb]%Hch. rewrite lookup_insert. by case_decide.
    - intros r' Hr'%Hft. rewrite lookup_insert. by case_decide.
    - by destruct Hl as [(?&?&->)|[(?&?&->)|[(?&->)|(?&->)]]]. }
  destruct Hl as [(h & r & ->)|[(r & r' & ->)|[(r & ->)|(r & ->)]]]; simpl in He; unfold exec; wp_auto.
  - apply enabled_and in He as [[_ Hr] Hlt]. unfold subscribe. wp_auto.
    wp_apply (Hadd r (version (st x))); [done|lia|lia|]. intros _ s' [Ev Hef]. wp_auto. simpl. by rewrite Ev.
  - apply enabled_and in He as [[[[n Hn] _] Hr] Hlt]. eapply wp_expect; [done|]. wp_auto.
    wp_apply (Hadd r' n); [done|by eapply Hsn|lia|]. intros _ s' [_ Hef]. by wp_auto.
  - apply bool_decide_eq_true in He as ([n Hn] & Hb & Hnf). pose proof (map_size_pos _ _ _ Hn) as Hpos.
    unfold receiver_drop. wp_auto. apply wp_sub_int; [lia|]. wp_auto. apply (effect_handles _ x); simpl; try done.
    + rewrite map_size_delete_Some by eauto. lia.
    + intros r' n' [_ ?]%lookup_delete_Some. by eauto.
    + intros f c Hf. rewrite lookup_delete_ne; [by eapply Hch|]. intros E. by apply (Hb f c Hf).
    + intros r' Hr'. rewrite lookup_delete_ne; [by apply Hft|]. intros ->. done.
  - apply effect_same; [done|done|]. by intros v [= <-].
Qed.

Lemma publish_ok l x v :
  watch_ok x → version (st x) < u64_max →
  wp (publish v) (st x) (λ p s', p.1 = value (st x) ∧ ∀ o, woken o = p.2 → got o = None → published l o = Some v →
    about l = None → effect l x o (set_st s' x)).
Proof.
  intros [Htx Hrx Hv Hsn Hch Hft (m & Hm & Hown)] Hlt. unfold publish. wp_auto.
  eapply wp_expect; [unfold checked_add; by rewrite decide_True by lia|]. wp_auto. simpl.
  wp_apply set_take_all_spec; [done|]. intros b ws' (us & Hb & Hp & Hm'). wp_auto. wp_apply batch_wake_spec; [done|].
  intros us' s' [-> ->]. wp_auto. split; [done|]. intros o Ho Hgot Hpub Hab. split; simpl; rewrite ?Hpub, ?Hgot; simpl; try done.
  - split; simpl; try done; [lia|intros r n Hr; apply Hsn in Hr; lia| |].
    + intros f c Hf. destruct (Hch f c Hf). split; [lia|done].
    + exists ∅. split; [done|]. apply owned_none. intros f o'. rewrite lookup_fmap, fmap_Some. intros (c & Hc & ->).
      unfold live, observe. simpl. rewrite bool_decide_eq_true_2; [done|]. destruct (Hch f c Hc). lia.
  - intros f w _ (m0 & Hm0 & Hr). pose proof (set_rep_inj _ _ _ Hm Hm0) as <-. right. rewrite Ho.
    by eapply registered_taken.
Qed.

Lemma sends_ok l x :
  (∃ h v, l = Send h v) ∨ (∃ h v, l = SendReplace h v) →
  watch_ok x → enabled l x = true → wp (exec l) x (effect l x).
Proof.
  intros Hl Hx He. destruct Hl as [(h & v & ->)|(h & v & ->)]; apply enabled_and in He as [_ Hlt]; unfold exec; wp_auto.
  - unfold send. wp_auto. case_bool_decide as E; wp_auto.
    + assert (set_st (st x) x = x) as -> by (by destruct x). by apply effect_same.
    + wp_apply (publish_ok (Send h v)); [done..|]. intros [old ws] s' [_ Hef]. wp_auto. by apply Hef.
  - unfold send_replace. wp_apply (publish_ok (SendReplace h v)); [done..|]. intros [old ws] s' [_ Hef]. wp_auto.
    by apply Hef.
Qed.

Lemma change_new_ok l x r f recv :
  watch_ok x → idle r x → changes x !! f = None → about l = Some f → published l silent = None →
  wp (change_new r f recv) x (effect l x).
Proof.
  intros Hx [[n Hr] _] Hf Hl Hp. pose proof (wo_set _ Hx) as (m & Hm & Hown).
  unfold change_new. wp_auto. eapply wp_expect; [done|]. wp_auto. unfold set_changes.
  assert (st x = set_waiters (waiters (st x)) (st x)) as Es by (by destruct (st x)). rewrite Es at 1.
  assert (live (st x) (mkChange r n None recv) = None) as El by (unfold live; by destruct (observe _ _)).
  apply (effect_change _ x f _ _ m m); rewrite ?fmap_insert, ?El; try done; try apply Hx.
  - apply owned_new; [done|]. by rewrite lookup_fmap, Hf.
  - apply keeps_others_insert.
  - intros k Hne. by rewrite lookup_insert_ne.
  - intros c. rewrite lookup_insert_eq. intros [= <-]. simpl. split; [by eapply (wo_seen _ Hx)|by exists n].
Qed.

(** The completed future is gone; its receiver may have moved on to the current version. *)
Lemma finish_change_ok x f cx c a i ft :
  watch_ok x → changes x !! f = Some c → live (st x) c = None →
  (i = rx x ∨ ∃ n, i = <[borrows c:=n]> (rx x) ∧ n = version (st x)) → (ft = fetching x ∨ ft = {[borrows c]} ∪ fetching x) →
  effect (ChangePoll f cx) x (mkObs (Some a) None None []) (mkSys (st x) (tx x) i (delete f (changes x)) ft).
Proof.
  intros Hx Hf Hl Hi Hft. pose proof (wo_set _ Hx) as (m & Hm & Hown). destruct (wo_changes _ Hx f c Hf) as [_ Hb].
  assert (st x = set_waiters (waiters (st x)) (st x)) as Es by (by destruct (st x)). rewrite Es at 1.
  assert (∀ r, is_Some (rx x !! r) → is_Some (i !! r)) as Hsub.
  { intros r Hr. destruct Hi as [->|(n & -> & _)]; [done|]. rewrite lookup_insert. by case_decide. }
  apply (effect_change _ x f _ _ m m); rewrite ?fmap_delete; try done.
  - apply owned_drop; [done|]. by rewrite lookup_fmap, Hf; simpl; rewrite Hl.
  - eapply (keeps_others_delete _ _ _ _ _ None), keeps_others_insert.
  - intros k Hne. by rewrite lookup_delete_ne.
  - intros c'. by rewrite lookup_delete_eq.
  - destruct Hi as [->|(n & -> & _)]; [done|]. by rewrite map_size_insert_Some.
  - intros r n Hr. destruct Hi as [->|(n' & -> & ->)]; [by eapply (wo_seen _ Hx)|].
    apply lookup_insert_Some in Hr as [[_ <-]|[_ Hr]]; [|by eapply (wo_seen _ Hx)]. pose proof (wo_version _ Hx). lia.
  - intros r Hr. apply Hsub. destruct Hft as [->| ->]; [by apply (wo_fetching _ Hx)|].
    apply elem_of_union in Hr as [->%elem_of_singleton|Hr]; [done|by apply (wo_fetching _ Hx)].
Qed.

Lemma poll_change_ok f cx c x :
  watch_ok x → changes x !! f = Some c → set_room (waiters (st x)) →
  wp (exec (ChangePoll f cx)) x (λ o x', effect (ChangePoll f cx) x o x' ∧
    answer o = match observe (seen c) (st x) with Ready a => Some a | Pending => None end ∧
    (answer o = None → parked f cx x' ∧ ∃ tk, changes x' !! f = Some (mkChange (borrows c) (seen c) tk (is_recv c)))).
Proof.
  intros Hx Hf Hroom. pose proof (wo_set _ Hx) as (m & Hm & Hown). pose proof (wo_changes _ Hx f c Hf) as [Hsn Hb].
  assert ((live (st x) <$> changes x) !! f = Some (live (st x) c)) as Hl by (by rewrite lookup_fmap, Hf).
  unfold exec. wp_auto. unfold poll_change. wp_auto. eapply wp_expect; [done|]. wp_auto. unfold change_poll. wp_auto.
  destruct (observe (seen c) (st x)) as [a|] eqn:Ec; wp_auto.
  - assert (live (st x) c = None) as Hnone by (unfold live; by rewrite Ec).
    destruct a as [n|e]; [|wp_auto; split_and!; [|done|done]; apply (finish_change_ok _ _ _ _ _ _ _ Hx Hf Hnone); by left].
    assert (n = version (st x)) as ->.
    { unfold observe in Ec. repeat case_bool_decide; congruence. }
    simpl. destruct (is_recv c); wp_auto; (split_and!; [|done|done]);
      apply (finish_change_ok _ _ _ _ _ _ _ Hx Hf Hnone); eauto.
  - assert (∀ tk, live (st x) (mkChange (borrows c) (seen c) tk (is_recv c)) = tk) as Elive
      by (intros; unfold live; simpl; by rewrite Ec).
    unfold live in Hl at 2. rewrite Ec in Hl. wp_apply (register_owned _ m _ f); [done|exact Hown|done|exact Hl|].
    intros [tk r] s' (t & m' & Ht & Hm' & Hown' & Hreg & Hk). simpl in Ht. subst tk. wp_auto.
    split_and!; [|done|].
    + apply (effect_change _ x f _ _ m m'); simpl; rewrite ?fmap_insert, ?Elive; try done; try apply Hx.
      * intros k Hne. by rewrite lookup_insert_ne.
      * intros c'. rewrite lookup_insert_eq. by intros [= <-].
    + intros _. split; [|exists (Some t); apply lookup_insert_eq]. exists m'. split; [done|]. simpl.
      rewrite (watch_live_ext (st x)) by done. by rewrite fmap_insert, Elive.
Qed.

Lemma drop_change_ok f x :
  watch_ok x → is_Some (changes x !! f) → wp (exec (ChangeDrop f)) x (effect (ChangeDrop f) x).
Proof.
  intros Hx [c Hf]. pose proof (wo_set _ Hx) as (m & Hm & Hown).
  assert ((live (st x) <$> changes x) !! f = Some (live (st x) c)) as Hl by (by rewrite lookup_fmap, Hf).
  assert (∀ (w' : WakerSet) m', set_rep w' m' → owned (delete f (live (st x) <$> changes x)) m' →
    keeps_others f (live (st x) <$> changes x) m (delete f (live (st x) <$> changes x)) m' →
    effect (ChangeDrop f) x silent (mkSys (set_waiters w' (st x)) (tx x) (rx x) (delete f (changes x)) (fetching x))) as Hef.
  { intros w' m' Hm' Hown' Hk. apply (effect_change _ x f _ _ m m'); rewrite ?fmap_delete; try done; try apply Hx.
    - intros k Hne. by rewrite lookup_delete_ne.
    - intros c'. by rewrite lookup_delete_eq. }
  assert (live (st x) c = None →
    effect (ChangeDrop f) x silent (mkSys (st x) (tx x) (rx x) (delete f (changes x)) (fetching x))) as Hnone.
  { intros E. assert (st x = set_waiters (waiters (st x)) (st x)) as Es by (by destruct (st x)). rewrite Es at 1.
    apply (Hef _ m); [done|apply owned_drop; [done|by rewrite Hl, E]|].
    eapply (keeps_others_delete _ _ _ _ _ None), keeps_others_insert. }
  unfold exec. wp_auto. eapply wp_expect; [done|]. wp_auto. unfold change_drop.
  unfold live at 1 in Hnone. unfold live at 2 in Hl. unfold observe in Hnone, Hl. destruct (token c) as [t|] eqn:Et; wp_auto;
    [|apply Hnone; repeat case_bool_decide; done].
  destruct (bool_decide (version (st x) ≠ seen c)); cbn [orb]; [wp_auto; by apply Hnone|].
  destruct (bool_decide (senders (st x) = 0)); [wp_auto; by apply Hnone|]. apply wp_bind, wp_zoom.
  wp_apply (unregister_owned _ m _ f); [done|exact Hown|exact Hl|]. intros r s' (m' & _ & Hm' & Hown' & Hk). wp_auto.
  apply (Hef _ m'); [done| |by eapply keeps_others_delete].
  rewrite <-(delete_insert_eq _ f None). apply owned_drop; [done|apply lookup_insert_eq].
Qed.

Lemma watch_exec_ok l x : watch_ok x → enabled l x = true → wp (exec l) x (effect l x).
Proof.
  intros Hx He. destruct l as [h h'|h|h v|h v|h r|r r'|r|r|r f|r f|f cx|f|r|r].
  - apply sender_handles_ok; by eauto.
  - apply sender_handles_ok; by eauto.
  - apply sends_ok; by eauto.
  - apply sends_ok; by eauto.
  - apply receiver_handles_ok; by eauto.
  - apply receiver_handles_ok; by eauto 6.
  - apply receiver_handles_ok; by eauto 6.
  - apply receiver_handles_ok; by eauto 6.
  - apply enabled_and in He as [??]. unfold exec. wp_auto. by apply change_new_ok.
  - apply enabled_and in He as [??]. unfold exec. wp_auto. by apply change_new_ok.
  - apply enabled_and in He as [[c Hc] ?]. wp_apply poll_change_ok; [done..|]. by intros o x' [].
  - apply bool_decide_eq_true in He. by apply drop_change_ok.
  - apply bool_decide_eq_true in He. destruct (wo_fetching _ Hx r He) as [n Hn]. unfold exec. wp_auto.
    unfold recv_fetch. wp_auto. apply (effect_handles _ x); try done; try apply Hx.
    + rewrite map_size_insert_Some by eauto. apply Hx.
    + intros r' n' [[_ <-]|[_ ?]]%lookup_insert_Some; [pose proof (wo_version _ Hx); lia|by eapply (wo_seen _ Hx)].
    + intros f c [_ Hb]%(wo_changes _ Hx). rewrite lookup_insert. by case_decide.
    + intros r' Hr'. rewrite lookup_insert. case_decide; [done|]. apply (wo_fetching _ Hx). set_solver.
    + by intros v [= <-].
  - apply bool_decide_eq_true in He. unfold exec. wp_auto. apply (effect_handles _ x); try done; try apply Hx.
    intros r' Hr'. apply (wo_fetching _ Hx). set_solver.
Qed.

Lemma watch_init_ok v : watch_ok (init v).
Proof.
  split; try done.
  - simpl. intros r n [<- <-]%lookup_singleton_Some. lia.
  - exists ∅. split; [apply wakerset_new_rep|]. by apply owned_none.
Qed.

Lemma watch_run_ok x ls tr x' : watch_ok x → returns (run enabled exec ls) x tr x' → watch_ok x'.
Proof. apply run_invariant. intros y l Hy He. wp_apply watch_exec_ok; [done..|]. by intros o y' []. Qed.

(** ** Theorems *)

(** The values published in a trace, oldest first. *)
Definition history (tr : list (Label T * Obs T)) : list T := omap (λ e, published e.1 e.2) tr.

(** A watch channel shows the latest value: after every run the value stored is the last one
    published (or the initial one), the version counts the publications, every read returns the
    stored value, and a receive marks exactly the version it read as seen. *)
Theorem watch_shows_latest v ls tr x l o x' :
  returns (run enabled exec ls) (init v) tr x → enabled l x = true → returns (exec l) x o x' →
  value (st x) = List.last (history tr) v ∧ version (st x) = Z.of_nat (length (history tr)) ∧
  (∀ u, got o = Some u → u = List.last (history tr) v) ∧
  (∀ r, l = RecvFetch r → rx x' !! r = Some (Z.of_nat (length (history tr)))).
Proof.
  intros Hr He Hx'.
  assert (watch_ok x ∧ value (st x) = List.last (history ([] ++ tr)) v ∧
    version (st x) = Z.of_nat (length (history ([] ++ tr)))) as (Hx & Hv & Hn).
  { eapply (run_trace_invariant enabled exec (λ tr x, watch_ok x ∧ value (st x) = List.last (history tr) v ∧
      version (st x) = Z.of_nat (length (history tr)))); [|by split; [apply watch_init_ok|]|done].
    clear. intros tr x l (Hx & Hv & Hn) He. wp_apply watch_exec_ok; [done..|]. intros o x' Ho.
    assert (history (tr ++ [(l, o)]) = history tr ++ option_list (published l o)) as Eh.
    { unfold history. rewrite omap_app. csimpl. by destruct (published l o). }
    split; [by destruct Ho|]. rewrite Eh, (ef_value _ _ _ _ Ho), (ef_version _ _ _ _ Ho), Hv, Hn, length_app.
    destruct (published l o) as [u|]; simpl; [rewrite last_last|rewrite app_nil_r]; split; try done; lia. }
  simpl in Hv, Hn. pose proof (wp_returns_elim _ _ _ _ _ (watch_exec_ok l x Hx He) Hx') as Hef.
  split_and!; [done|done|intros u Hu; rewrite <-Hv; by apply (ef_got _ _ _ _ Hef)|].
  intros r ->. unfold exec, recv_fetch in Hx'. injection Hx' as <- <-. simpl. rewrite lookup_insert_eq. by rewrite Hn.
Qed.

(** A receiver is never left behind: its future is ready exactly when a version it has not seen
    was published or every sender is gone, and a future that polled pending with a waker and has
    not been polled since is woken through it once that is the case. *)
Theorem watch_no_lost_wakeup v ls tr x f c cx o x1 ls' tr' x' :
  returns (run enabled exec ls) (init v) tr x → changes x !! f = Some c →
  enabled (ChangePoll f cx) x = true → returns (exec (ChangePoll f cx)) x o x1 →
  (answer o = if decide (version (st x) = seen c) then (if decide (tx x = ∅) then Some (Err Disconnected) else None)
              else Some (Ok (version (st x)))) ∧
  (answer o = None → Forall (λ l, bool_decide (about l ≠ Some f) = true) ls' →
    returns (run enabled exec ls') x1 tr' x' → version (st x') ≠ seen c ∨ tx x' = ∅ →
    Exists (λ e, cx ∈ woken e.2) tr').
Proof.
  intros Hr Hf He Hx1. pose proof (watch_run_ok _ _ _ _ (watch_init_ok v) Hr) as Hx.
  apply enabled_and in He as [_ Hroom].
  apply (wp_returns_elim _ _ _ _ _ (poll_change_ok f cx c x Hx Hf Hroom)) in Hx1 as (Hef & Ha & Hpend).
  assert (∀ y, watch_ok y → senders (st y) = 0 ↔ tx y = ∅) as Hz.
  { intros y Hy. rewrite (wo_tx _ Hy). split; [|intros ->; by rewrite size_empty]. intros E.
    apply leibniz_equiv, size_empty_iff. lia. }
  split.
  - rewrite Ha. unfold observe. specialize (Hz x Hx). repeat case_bool_decide; repeat case_decide; try done; tauto.
  - intros Hnone Hab Hr' Hend. destruct (Hpend Hnone) as [Hp [tk Hv]].
    edestruct (run_promise enabled exec watch_ok (λ y, parked f cx y ∧ changes y !! f = changes x1 !! f) (λ o, cx ∈ woken o)
      (λ l, bool_decide (about l ≠ Some f)) ls' x1) as [[H Hw]|H]; [|by destruct Hef|done|done|exact Hr'| |exact H].
    + intros y l Hy Hl Hab'%bool_decide_eq_true. wp_apply watch_exec_ok; [done..|]. intros o' y' Hy'.
      split; [by destruct Hy'|]. intros [Hpy Hwy].
      destruct (ef_parked _ _ _ _ Hy' f cx Hab' Hpy) as [?|?]; [left|by right].
      split; [done|]. by rewrite (ef_changes _ _ _ _ Hy' f Hab').
    + exfalso. pose proof (watch_run_ok x1 ls' tr' x' (ef_ok _ _ _ _ Hef) Hr') as Hx'. specialize (Hz x' Hx').
      destruct H as (m & _ & t & Ht & _). rewrite lookup_fmap, Hw, Hv in Ht. simpl in Ht. injection Ht as Ht.
      unfold live, observe in Ht. simpl in Ht. repeat case_bool_decide; try done; tauto.
Qed.
End invariant.

(** Two values are published while a receiver waits; it reads the second one. *)
Definition publishing : list (Label nat) :=
  [Recv 0 0; ChangePoll 0 9%nat; SenderClone 0 1; Send 1 10%nat; ChangePoll 0 9%nat; SendReplace 0 11%nat].
Definition watch_after (ls : list (Label nat)) : Sys nat :=
  match run enabled exec ls (init 5%nat) with Ret _ x | Panic _ x => x end.

Lemma watch_shows_latest_witness :
  ∃ tr x o x', returns (run enabled exec publishing) (init 5%nat) tr x ∧ returns (exec (RecvFetch 0)) x o x' ∧
    value (st x) = List.last (history tr) 5%nat ∧ version (st x) = Z.of_nat (length (history tr)) ∧
    (∀ u, got o = Some u → u = List.last (history tr) 5%nat) ∧
    (∀ r, RecvFetch (T:=nat) 0 = RecvFetch r → rx x' !! r = Some (Z.of_nat (length (history tr)))).
Proof.
  eexists _, _, _, _. split; [vm_compute; reflexivity|]. split; [vm_compute; reflexivity|].
  eapply (watch_shows_latest 5%nat publishing _ _ (RecvFetch 0)); vm_compute; reflexivity.
Defined.

Lemma watch_no_lost_wakeup_witness :
  ∃ o x1 tr' x', returns (exec (ChangePoll 0 9%nat)) (watch_after (take 1 publishing)) o x1 ∧
    returns (run enabled exec [SenderClone 0 1; Send 1 10%nat]) x1 tr' x' ∧ Exists (λ e, 9%nat ∈ woken e.2) tr'.
Proof.
  eexists _, _, _, _. split; [vm_compute; reflexivity|]. split; [vm_compute; reflexivity|].
  eapply (watch_no_lost_wakeup 5%nat (take 1 publishing) _ _ 0 (mkChange 0 0 None true) 9%nat _ _
    [SenderClone 0 1; Send 1 10%nat]);
    [vm_compute; reflexivity|vm_compute; reflexivity|vm_compute; reflexivity|vm_compute; reflexivity|done| |
     vm_compute; reflexivity|].
  - repeat constructor.
  - left. vm_compute. congruence.
Defined.
