(* ===== verification/Backlog.v ===== *)
(** * The backlog of a broadcast channel

    [asyncband/src/broadcast/mpmc/common.rs]: the messages some receiver has not read yet, with the
    cursor of every receiver in an arena.  A slot counts the cursors that point at it, so that a
    message is reclaimed as soon as nobody will read it, without scanning the receivers.  The file
    models the backlog and shows that it implements an append-only log with a cursor per
    subscription. *)
From S2P Require Import Prelude Arena.

Definition MIN_RETAINED_CAPACITY : Z := 64.

(** What an operation hands out: a message with whether its slot was freed, and the messages a
    dropped receiver has released. *)
Record Received (T : Type) : Type := mkReceived { msg : T; reclaimed : bool }.
Arguments mkReceived {T}.
Arguments msg {T}.
Arguments reclaimed {T}.

Record Reclaimed (T : Type) : Type := mkReclaimed { first : option T; rest : list T }.
Arguments mkReclaimed {T}.
Arguments first {T}.
Arguments rest {T}.

Inductive Retention : Type :=
| Elastic (peak_len : Z)
| Fixed.

Record Slot (T : Type) : Type := mkSlot { slot_msg : T; cursors : Z }.
Arguments mkSlot {T}.
Arguments slot_msg {T}.
Arguments cursors {T}.

(** [capacity] is the capacity of the [VecDeque] [buffer]. *)
Record Backlog (T : Type) : Type := mkBacklog {
  buffer : list (Slot T);
  capacity : Z;
  head : Z;
  at_tail : Z;
  tail : Z;
  receivers : Arena Z;
  retention : Retention;
}.
Arguments mkBacklog {T}.
Arguments buffer {T}.
Arguments capacity {T}.
Arguments head {T}.
Arguments at_tail {T}.
Arguments tail {T}.
Arguments receivers {T}.
Arguments retention {T}.

Section operations.
Context {T : Type}.
Implicit Types (b : Backlog T) (m : T) (key : SlotId).

Definition reclaimed_empty : Reclaimed T := mkReclaimed None [].
Definition reclaimed_len (r : Reclaimed T) : Z :=
  (match first r with Some _ => 1 | None => 0 end) + Z.of_nat (length (rest r)).

Definition set_head (h : Z) b : Backlog T :=
  mkBacklog (buffer b) (capacity b) h (at_tail b) (tail b) (receivers b) (retention b).
Definition set_at_tail (n : Z) b : Backlog T :=
  mkBacklog (buffer b) (capacity b) (head b) n (tail b) (receivers b) (retention b).
Definition set_tail (t : Z) b : Backlog T :=
  mkBacklog (buffer b) (capacity b) (head b) (at_tail b) t (receivers b) (retention b).
Definition set_receivers (a : Arena Z) b : Backlog T :=
  mkBacklog (buffer b) (capacity b) (head b) (at_tail b) (tail b) a (retention b).
Definition set_buffer (l : list (Slot T)) b : Backlog T :=
  mkBacklog l (capacity b) (head b) (at_tail b) (tail b) (receivers b) (retention b).
Definition set_capacity (c : Z) b : Backlog T :=
  mkBacklog (buffer b) c (head b) (at_tail b) (tail b) (receivers b) (retention b).
Definition set_retention (r : Retention) b : Backlog T :=
  mkBacklog (buffer b) (capacity b) (head b) (at_tail b) (tail b) (receivers b) r.
Definition in_receivers {A : Type} (c : M (Arena Z) A) : M (Backlog T) A := zoom receivers set_receivers c.

(** [VecDeque]: a full buffer doubles on [push_back], at least to four slots, up to the largest
    allocation (a slot takes 16 bytes); [shrink_to] reduces the capacity to its argument, or to
    the length if that is larger. *)
Definition max_slots : Z := isize_max / 16.
Definition push_back (sl : Slot T) : M (Backlog T) unit :=
  b ← get;
  c ← (if bool_decide (Z.of_nat (length (buffer b)) = capacity b)
       then let c := Z.max (2 * capacity b) 4 in assert_true (bool_decide (c <= max_slots)) "capacity overflow";; mret c
       else mret (capacity b));
  put (set_capacity c (set_buffer (buffer b ++ [sl]) b)).
Definition shrink_to (c : Z) b : Backlog T :=
  set_capacity (Z.min (capacity b) (Z.max c (Z.of_nat (length (buffer b))))) b.

Definition new (c : Z) (r : Retention) : Backlog T := mkBacklog [] c 0 0 0 arena_new r.
Definition elastic : Backlog T := new 0 (Elastic 0).
Definition fixed (c : Z) : Backlog T := new c Fixed.

Definition retained b : Z := Z.of_nat (length (buffer b)).
Definition has_receivers b : bool := negb (is_empty (receivers b)).

Definition unread key : M (Backlog T) Z :=
  b ← get;
  head ← expect (get_slot (receivers b) key) "active broadcast receiver must be registered";
  sub_int (tail b) head.

Definition advance_tail : M (Backlog T) unit :=
  b ← get;
  t ← expect (checked_add u64_max (tail b) 1) "broadcast channel version counter overflowed";
  put (set_tail t b).

Definition publish_discarded : M (Backlog T) unit :=
  b ← get;
  assert_true (negb (has_receivers b)) "assertion failed: !self.has_receivers()";;
  assert_true (bool_decide (retained b = 0)) "assertion failed: self.buffer.is_empty()";;
  assert_true (bool_decide (at_tail b = 0)) "assertion failed: self.at_tail == 0";;
  advance_tail;;
  modify (λ b, set_head (tail b) b).

Definition publish_retained m : M (Backlog T) unit :=
  b ← get;
  assert_true (has_receivers b) "assertion failed: self.has_receivers()";;
  advance_tail;;
  b ← get;
  put (set_at_tail 0 b);;
  push_back (mkSlot m (at_tail b));;
  b ← get;
  match retention b with
  | Elastic peak_len => put (set_retention (Elastic (Z.max peak_len (retained b))) b)
  | Fixed => mret tt
  end.

(** The message comes back when nobody is subscribed. *)
Definition publish m : M (Backlog T) (option T) :=
  b ← get;
  if has_receivers b then publish_retained m;; mret None
  else publish_discarded;; mret (Some m).

Definition subscribe : M (Backlog T) SlotId :=
  b ← get;
  n ← add_int usize_max (at_tail b) 1;
  put (set_at_tail n b);;
  in_receivers (insert_slot (tail b)).

Definition shrink_buffer : M (Backlog T) unit :=
  b ← get;
  match retention b with
  | Fixed => mret tt
  | Elastic peak =>
      if bool_decide (retained b ≠ 0) then mret tt
      else
        put (set_retention (Elastic 0) b);;
        if bool_decide (MIN_RETAINED_CAPACITY < capacity b) && bool_decide (peak <= capacity b / 4)
        then
          n ← mul_int usize_max peak 2;
          modify (shrink_to (Z.max MIN_RETAINED_CAPACITY n))
        else mret tt
  end.

(** The slots at the front that nobody points at. *)
Fixpoint vacated (l : list (Slot T)) : nat :=
  match l with
  | sl :: l => if bool_decide (cursors sl = 0) then S (vacated l) else 0
  | [] => 0
  end.

Definition reclaim_vacated : M (Backlog T) (Reclaimed T) :=
  b ← get;
  assert_true (match buffer b with sl :: _ => bool_decide (cursors sl = 0) | [] => false end)
    "assertion failed: self.buffer.front().is_some_and(|slot| slot.cursors == 0)";;
  let front := slot_msg <$> List.hd_error (buffer b) in
  let l := List.tl (buffer b) in
  let extra := vacated l in
  let r := mkReclaimed front (slot_msg <$> take extra l) in
  put (set_buffer (drop extra l) b);;
  b ← get;
  h ← add_int u64_max (head b) (reclaimed_len r);
  put (set_head h b);;
  assert_true (bool_decide (h <= tail b)) "assertion failed: self.head <= self.tail";;
  shrink_buffer;;
  mret r.

Definition remove_receiver key : M (Backlog T) (Reclaimed T) :=
  cursor ← in_receivers (remove_slot key);
  b ← get;
  if bool_decide (cursor = tail b) then
    n ← sub_int (at_tail b) 1;
    put (set_at_tail n b);;
    mret reclaimed_empty
  else
    offset ← sub_int cursor (head b);
    slot ← expect (buffer b !! Z.to_nat offset) "Out of bounds access";
    n ← sub_int (cursors slot) 1;
    put (set_buffer (<[Z.to_nat offset := mkSlot (slot_msg slot) n]> (buffer b)) b);;
    if bool_decide (offset = 0) && bool_decide (n = 0) then reclaim_vacated
    else mret reclaimed_empty.

(** The cursor is counted at the next version before it leaves this one. *)
Definition enter_next (version offset : Z) : M (Backlog T) unit :=
  b ← get;
  next ← add_int u64_max version 1;
  if bool_decide (next = tail b) then
    n ← add_int usize_max (at_tail b) 1;
    put (set_at_tail n b)
  else
    i ← add_int usize_max offset 1;
    slot ← expect (buffer b !! Z.to_nat i) "Out of bounds access";
    n ← add_int usize_max (cursors slot) 1;
    put (set_buffer (<[Z.to_nat i := mkSlot (slot_msg slot) n]> (buffer b)) b).

Definition leave_slot (offset : Z) : M (Backlog T) (Received T) :=
  b ← get;
  slot ← expect (buffer b !! Z.to_nat offset) "Out of bounds access";
  n ← sub_int (cursors slot) 1;
  put (set_buffer (<[Z.to_nat offset := mkSlot (slot_msg slot) n]> (buffer b)) b);;
  if bool_decide (offset = 0) && bool_decide (n = 0) then
    b ← get;
    front ← expect (List.hd_error (buffer b)) "head slot must exist";
    put (set_buffer (List.tl (buffer b)) b);;
    h ← add_int u64_max (head b) 1;
    modify (set_head h);;
    assert_true (bool_decide (h <= tail b)) "assertion failed: self.head <= self.tail";;
    shrink_buffer;;
    mret (mkReceived (slot_msg front) true)
  else mret (mkReceived (slot_msg slot) false).

Definition receive key : M (Backlog T) (option (Received T)) :=
  b ← get;
  version ← expect (get_slot (receivers b) key) "active broadcast receiver must be registered";
  if bool_decide (tail b <= version) then mret None
  else
    next ← add_int u64_max version 1;
    put (set_receivers (write_slot key next (receivers b)) b);;
    assert_true (bool_decide (head b <= version)) "assertion failed: version >= self.head";;
    offset ← sub_int version (head b);
    enter_next version offset;;
    received ← leave_slot offset;
    mret (Some received).

(** [take_msg]: [unique] says whether the reference is the last one to the message. *)
Definition take_msg (clone : T → T) (unique : bool) (r : Received T) : T :=
  if negb (reclaimed r) then clone (msg r)
  else if unique then msg r else clone (msg r).
End operations.

#[export] Hint Unfold in_receivers : band_zoom.

(** ** Abstraction: a log and cursors

    [hist] is every message published so far, [subs] the version each subscription reads next. *)
Section abstraction.
Context {T : Type}.
Implicit Types (b : Backlog T) (m : T) (key : SlotId) (hist : list T) (subs : gmap SlotId Z) (v : Z).

(** The cursors at a version. *)
Definition at_version v subs : Z := map_sum (λ c, if decide (c = v) then 1 else 0) subs.

Lemma at_version_insert v subs key c :
  subs !! key = None → at_version v (<[key:=c]> subs) = at_version v subs + if decide (c = v) then 1 else 0.
Proof. intros Hk. unfold at_version. rewrite map_sum_insert by done. lia. Qed.

Lemma at_version_delete v subs key c :
  subs !! key = Some c → at_version v (delete key subs) = at_version v subs - if decide (c = v) then 1 else 0.
Proof. intros Hk. unfold at_version. by rewrite (map_sum_delete _ _ _ c). Qed.

Lemma at_version_update v subs key c c' :
  subs !! key = Some c →
  at_version v (<[key:=c']> subs) =
    at_version v subs - (if decide (c = v) then 1 else 0) + (if decide (c' = v) then 1 else 0).
Proof. intros Hk. unfold at_version. by rewrite (map_sum_update _ _ _ c). Qed.

Lemma at_version_nonneg v subs : 0 <= at_version v subs.
Proof. apply map_sum_nonneg. intros k c _. case_decide; lia. Qed.

Lemma at_version_pos subs key c : subs !! key = Some c → 0 < at_version c subs.
Proof.
  intros Hk. pose proof (map_sum_elem (λ c', if decide (c' = c) then 1 else 0) subs key c) as H.
  simpl in H. rewrite decide_True in H by done. unfold at_version. apply Z.lt_le_trans with 1; [lia|].
  apply H; [|done]. intros j d _. simpl. case_decide; lia.
Qed.

Lemma at_version_exists v subs : at_version v subs ≠ 0 → ∃ key, subs !! key = Some v.
Proof.
  induction subs as [|k c subs Hk IH] using map_ind; [done|]. rewrite at_version_insert by done.
  case_decide as E; [subst; exists k; apply lookup_insert_eq|]. intros H. destruct IH as [j Hj]; [lia|].
  exists j. rewrite lookup_insert_ne; [done|]. congruence.
Qed.

Lemma at_version_zero v subs : (∀ key, subs !! key ≠ Some v) → at_version v subs = 0.
Proof.
  intros H. destruct (decide (at_version v subs = 0)) as [|[k Hk]%at_version_exists]; [done|]. by destruct (H k).
Qed.

Lemma at_version_size v subs : at_version v subs <= Z.of_nat (size subs).
Proof.
  induction subs as [|k c subs Hk IH] using map_ind; [done|].
  rewrite at_version_insert, map_size_insert_None by done. case_decide; lia.
Qed.

Lemma at_version_other v subs key c : subs !! key = Some c → v ≠ c → at_version v subs < Z.of_nat (size subs).
Proof.
  intros Hk Hv. pose proof (at_version_size v (delete key subs)) as H. rewrite (at_version_delete _ _ _ c) in H by done.
  rewrite decide_False, map_size_delete_Some in H by eauto. pose proof (map_size_pos _ _ _ Hk). lia.
Qed.

(** The slot of version [v], given the number of cursors at each version. *)
Definition slot_at hist (count : Z → Z) v : option (Slot T) := (λ m, mkSlot m (count v)) <$> hist !! Z.to_nat v.

(** The backlog up to what keeps its head at the oldest cursor. *)
Record backlog_pre b hist subs : Prop := {
  bp_arena : arena_rep (receivers b) subs;
  bp_tail : tail b = Z.of_nat (length hist);
  bp_max : tail b <= u64_max;
  bp_head : 0 <= head b <= tail b;
  bp_buffer : ∀ i : nat, buffer b !! i = slot_at hist (λ v, at_version v subs) (head b + Z.of_nat i);
  bp_at_tail : at_tail b = at_version (tail b) subs;
  bp_subs : ∀ key c, subs !! key = Some c → head b <= c <= tail b;
  bp_count : Z.of_nat (size subs) <= usize_max;
  bp_capacity : retained b <= capacity b <= max_slots;
  bp_peak : match retention b with Elastic p => retained b <= p <= capacity b | Fixed => True end;
}.

Record backlog_rep b hist subs : Prop := {
  br_pre :> backlog_pre b hist subs;
  br_front : head b = tail b ∨ ∃ key, subs !! key = Some (head b);
}.

(** The oldest version some subscription has not read, or the next version to be published. *)
Definition oldest (t : Z) subs : Z := map_fold (λ _ c acc, Z.min c acc) t subs.

Lemma oldest_insert t subs key c : subs !! key = None → oldest t (<[key:=c]> subs) = Z.min c (oldest t subs).
Proof. intros Hk. unfold oldest. rewrite map_fold_insert_L; [done|intros; lia|done]. Qed.

Lemma oldest_spec t subs h :
  h <= t → (∀ key c, subs !! key = Some c → h <= c) → (h = t ∨ ∃ key, subs !! key = Some h) → oldest t subs = h.
Proof.
  intros Ht Hlow Hmin.
  assert (∀ s : gmap SlotId Z, (∀ key c, s !! key = Some c → h <= c) →
    h <= oldest t s ∧ oldest t s <= t ∧ ∀ key c, s !! key = Some c → oldest t s <= c) as Hgen.
  { clear -Ht. intros s. induction s as [|k c s Hk IH] using map_ind; intros Hlow.
    - split_and!; [done|done|]. intros key c. by rewrite lookup_empty.
    - rewrite oldest_insert by done. pose proof (Hlow k c (lookup_insert_eq _ _ _)).
      destruct IH as (? & ? & Hle); [|split_and!; [lia|lia|]].
      + intros key d Hd. apply (Hlow key). rewrite lookup_insert_ne; [done|]. congruence.
      + intros key d [[-> ->]|[_ Hd]]%lookup_insert_Some; [lia|]. specialize (Hle _ _ Hd). lia. }
  destruct (Hgen subs Hlow) as (? & ? & Hle). destruct Hmin as [->|[key Hk]]; [lia|]. specialize (Hle _ _ Hk). lia.
Qed.

Lemma rep_head b hist subs : backlog_rep b hist subs → head b = oldest (Z.of_nat (length hist)) subs.
Proof.
  intros [Hp Hf]. symmetry. rewrite (bp_tail _ _ _ Hp) in Hf. pose proof (bp_head _ _ _ Hp).
  rewrite (bp_tail _ _ _ Hp) in *. apply oldest_spec; [lia| |done]. intros key c Hc. by apply (bp_subs _ _ _ Hp) in Hc as [? _].
Qed.

(** The buffer holds the messages from the head on. *)
Lemma pre_retained b hist subs : backlog_pre b hist subs → retained b = tail b - head b.
Proof.
  intros Hp. pose proof (bp_tail _ _ _ Hp). pose proof (bp_head _ _ _ Hp).
  pose proof (bp_buffer _ _ _ Hp (length (buffer b))) as H1. rewrite lookup_ge_None_2 in H1 by lia.
  symmetry in H1. apply fmap_None, lookup_ge_None_1 in H1. unfold retained.
  destruct (decide (Z.of_nat (length (buffer b)) = tail b - head b)) as [|Hne]; [done|]. exfalso.
  pose proof (bp_buffer _ _ _ Hp (Z.to_nat (tail b - head b))) as H2.
  unfold slot_at in H2. rewrite (lookup_ge_None_2 hist) in H2 by lia. simpl in H2. apply lookup_ge_None_1 in H2. lia.
Qed.

Lemma rep_unread b hist : backlog_rep b hist ∅ → retained b = 0.
Proof. intros [Hp [Hf|[k Hk]]]; [rewrite (pre_retained _ _ _ Hp); lia|by rewrite lookup_empty in Hk]. Qed.

Lemma pre_messages b hist subs : backlog_pre b hist subs → slot_msg <$> buffer b = drop (Z.to_nat (head b)) hist.
Proof.
  intros Hp. apply list_eq. intros i. rewrite list_lookup_fmap, (bp_buffer _ _ _ Hp), lookup_drop. unfold slot_at.
  pose proof (bp_head _ _ _ Hp). replace (Z.to_nat (head b + Z.of_nat i)) with (Z.to_nat (head b) + i)%nat by lia.
  by destruct (hist !! _).
Qed.

Lemma slot_at_ext hist f g v : f v = g v → slot_at hist f v = slot_at hist g v.
Proof. intros E. unfold slot_at. by rewrite E. Qed.

(** Writing the count of one slot. *)
Lemma slots_insert hist (l : list (Slot T)) h f v m n :
  0 <= h <= v → (∀ i : nat, l !! i = slot_at hist f (h + Z.of_nat i)) → hist !! Z.to_nat v = Some m →
  ∀ i : nat, <[Z.to_nat (v - h) := mkSlot m n]> l !! i =
    slot_at hist (λ u, if decide (u = v) then n else f u) (h + Z.of_nat i).
Proof.
  intros Hh Hl Hm i. destruct (decide (i = Z.to_nat (v - h))) as [->|Hne].
  - rewrite list_lookup_insert_eq.
    + unfold slot_at. replace (h + Z.of_nat (Z.to_nat (v - h))) with v by lia. by rewrite Hm, decide_True.
    + apply lookup_lt_is_Some. rewrite Hl. replace (h + Z.of_nat (Z.to_nat (v - h))) with v by lia.
      unfold slot_at. rewrite Hm. by eexists.
  - rewrite list_lookup_insert_ne, Hl by done. apply slot_at_ext. by rewrite decide_False by lia.
Qed.

Lemma slots_lookup hist (l : list (Slot T)) h f v m :
  0 <= h <= v → (∀ i : nat, l !! i = slot_at hist f (h + Z.of_nat i)) → hist !! Z.to_nat v = Some m →
  l !! Z.to_nat (v - h) = Some (mkSlot m (f v)).
Proof.
  intros Hh Hl Hm. rewrite Hl. replace (h + Z.of_nat (Z.to_nat (v - h))) with v by lia. unfold slot_at. by rewrite Hm.
Qed.
End abstraction.

(** ** Specifications of the operations *)
Section specifications.
Context {T : Type}.
Implicit Types (b : Backlog T) (m : T) (key : SlotId) (hist : list T) (subs : gmap SlotId Z) (v : Z).

Lemma backlog_new_rep c r :
  0 <= c <= max_slots → match r with Elastic p => p = 0 | Fixed => True end → backlog_rep (new (T:=T) c r) [] ∅.
Proof.
  intros Hc Hr. split; [|by left]. split; simpl; try done.
  - apply arena_new_rep.
  - destruct r; [subst|done]. unfold retained. simpl. lia.
Qed.

Lemma has_receivers_spec b hist subs : backlog_pre b hist subs → has_receivers b = bool_decide (subs ≠ ∅).
Proof.
  intros Hp. unfold has_receivers. pose proof (is_empty_spec _ _ (bp_arena _ _ _ Hp)) as H.
  destruct (is_empty (receivers b)), (bool_decide_reflect (subs ≠ ∅)); simpl; try done; exfalso; naive_solver.
Qed.

Lemma get_receiver b hist subs key : backlog_pre b hist subs → get_slot (receivers b) key = subs !! key.
Proof. intros Hp. symmetry. apply (rep_lookup _ _ (bp_arena _ _ _ Hp)). Qed.

Lemma unread_spec b hist subs key c :
  backlog_pre b hist subs → subs !! key = Some c →
  wp (unread key) b (λ n b', n = Z.of_nat (length hist) - c ∧ b' = b).
Proof.
  intros Hp Hk. pose proof (bp_subs _ _ _ Hp _ _ Hk) as [_ Hc]. unfold unread. wp_auto.
  rewrite (get_receiver _ _ _ _ Hp). eapply wp_expect; [done|]. apply wp_sub_int; [done|].
  by rewrite (bp_tail _ _ _ Hp).
Qed.

(** A fixed buffer is never reallocated to a smaller one. *)
Definition keeps_fixed b b' : Prop := retention b = Fixed → retention b' = Fixed ∧ capacity b <= capacity b'.

Lemma publish_discarded_spec b hist m :
  backlog_rep b hist ∅ → tail b < u64_max →
  wp publish_discarded b (λ _ b', backlog_rep b' (hist ++ [m]) ∅ ∧ receivers b' = receivers b ∧ capacity b' = capacity b ∧
    keeps_fixed b b').
Proof.
  intros [Hp Hf] Hmax. pose proof (pre_retained _ _ _ Hp) as Hr. pose proof (bp_head _ _ _ Hp) as Hh.
  assert (head b = tail b) as Eh by (destruct Hf as [?|[k Hk]]; [done|by rewrite lookup_empty in Hk]).
  unfold publish_discarded. wp_auto. apply wp_assert; [rewrite (has_receivers_spec _ _ _ Hp); by rewrite bool_decide_false by naive_solver|].
  wp_auto. apply wp_assert; [apply bool_decide_eq_true; lia|]. wp_auto.
  apply wp_assert; [apply bool_decide_eq_true; by rewrite (bp_at_tail _ _ _ Hp)|]. wp_auto.
  unfold advance_tail. wp_auto. eapply wp_expect; [unfold checked_add; by rewrite decide_True by lia|]. wp_auto.
  assert (buffer b = []) as Eb by (destruct (buffer b) eqn:E; [done|]; unfold retained in Hr; rewrite E in Hr; simpl in Hr; lia).
  split_and!; [|done|done|by split]. pose proof (bp_tail _ _ _ Hp) as Ht. split; [|by left].
  split; simpl; try apply Hp; try done; try lia.
  - rewrite length_app. simpl. lia.
  - intros i. rewrite Eb. unfold slot_at. rewrite (lookup_ge_None_2 (hist ++ [m])); [done|]. rewrite length_app. simpl. lia.
Qed.

(** The buffer can take one more slot. *)
Definition buffer_room b : Prop := retained b < capacity b ∨ 2 * capacity b <= max_slots.

Lemma max_slots_bounds : 4 <= max_slots ∧ 2 * max_slots <= usize_max ∧ usize_max = u64_max.
Proof. by vm_compute. Qed.

Lemma slot_push_spec b sl :
  retained b <= capacity b <= max_slots → buffer_room b →
  wp (push_back sl) b (λ _ b', ∃ c, b' = set_capacity c (set_buffer (buffer b ++ [sl]) b) ∧
    capacity b <= c <= max_slots ∧ retained b + 1 <= c ∧ c <= Z.max (capacity b) (Z.max 4 (2 * retained b))).
Proof.
  intros Hc Hroom. pose proof max_slots_bounds. unfold push_back. wp_auto. unfold buffer_room, retained in *. case_bool_decide as E; wp_auto.
  - apply wp_assert; [apply bool_decide_eq_true; lia|]. wp_auto. eexists. split; [done|]. lia.
  - eexists. split; [done|]. lia.
Qed.

Lemma publish_retained_spec b hist subs m :
  backlog_rep b hist subs → subs ≠ ∅ → tail b < u64_max → buffer_room b →
  wp (publish_retained m) b (λ _ b', backlog_rep b' (hist ++ [m]) subs ∧ receivers b' = receivers b ∧
    capacity b' <= Z.max (capacity b) (Z.max 4 (2 * retained b)) ∧ keeps_fixed b b' ∧ retained b' = retained b + 1).
Proof.
  intros [Hp Hf] Hne Hmax Hroom. pose proof (pre_retained _ _ _ Hp) as Hr. pose proof (bp_head _ _ _ Hp) as Hh.
  pose proof (bp_tail _ _ _ Hp) as Ht. unfold publish_retained. wp_auto.
  apply wp_assert; [rewrite (has_receivers_spec _ _ _ Hp); by apply bool_decide_eq_true|]. wp_auto. unfold advance_tail. wp_auto.
  eapply wp_expect; [unfold checked_add; by rewrite decide_True by lia|]. wp_auto.
  wp_apply slot_push_spec; [by apply Hp|done|]. intros [] b' (c & -> & Hc & Hrc & Hcm). wp_auto. unfold retained in Hrc, Hcm.
  simpl in *. fold (retained b) in Hrc, Hcm.
  assert (∀ r, match r with Elastic p => retained b + 1 <= p <= c | Fixed => True end →
    backlog_rep (mkBacklog (buffer b ++ [mkSlot m (at_tail b)]) c (head b) 0 (tail b + 1) (receivers b) r) (hist ++ [m]) subs) as Hrep.
  { intros r Hpk. split.
    - split; simpl; try apply Hp; try lia.
      + rewrite length_app. simpl. lia.
      + intros i. unfold slot_at. destruct (decide (i < length (buffer b))%nat) as [Hi|Hi]; unfold retained in Hr.
        * rewrite !lookup_app_l by lia. apply (bp_buffer _ _ _ Hp).
        * rewrite !lookup_app_r by lia.
          replace (Z.to_nat (head b + Z.of_nat i) - length hist)%nat with (i - length (buffer b))%nat by lia.
          destruct (i - length (buffer b))%nat eqn:Ei; simpl; [|by rewrite lookup_nil].
          rewrite (bp_at_tail _ _ _ Hp). repeat f_equal. lia.
      + symmetry. apply at_version_zero. intros k Hk. apply (bp_subs _ _ _ Hp) in Hk. lia.
      + intros k d Hk. apply (bp_subs _ _ _ Hp) in Hk. lia.
      + unfold retained in *. simpl. rewrite length_app. simpl. lia.
      + unfold retained in *. simpl. rewrite length_app. simpl. destruct r; [lia|done].
    - right. simpl. destruct Hf as [Hf|Hf]; [|done]. destruct (map_choose _ Hne) as (k & d & Hk). exists k.
      rewrite Hk. apply (bp_subs _ _ _ Hp) in Hk. f_equal. lia. }
  pose proof (bp_peak _ _ _ Hp) as Hpk. destruct (retention b) as [p|] eqn:Er; wp_auto; 
    (split_and!; [|done|simpl; lia|unfold keeps_fixed; simpl; rewrite Er; intros; first [done|split; [done|lia]]|
      unfold retained; simpl; rewrite length_app; simpl; lia]).
  - apply Hrep. unfold retained in *. simpl. rewrite length_app. simpl. lia.
  - unfold set_capacity, set_buffer. simpl. rewrite Er. by apply Hrep.
Qed.

Lemma publish_spec b hist subs m :
  backlog_rep b hist subs → tail b < u64_max → buffer_room b →
  wp (publish m) b (λ r b', r = (if decide (subs = ∅) then Some m else None) ∧ backlog_rep b' (hist ++ [m]) subs ∧
    receivers b' = receivers b ∧ capacity b' <= Z.max (capacity b) (Z.max 4 (2 * retained b)) ∧ keeps_fixed b b').
Proof.
  intros Hb Hmax Hroom. unfold publish. wp_auto. rewrite (has_receivers_spec _ _ _ Hb).
  case_bool_decide as E; wp_auto; [rewrite decide_False by done|rewrite decide_True by done].
  - wp_apply publish_retained_spec; [done..|]. intros [] b' (? & ? & ? & ? & _). by wp_auto.
  - subst subs. wp_apply (publish_discarded_spec _ _ m); [done..|]. intros [] b' (? & ? & ? & ?). wp_auto. split_and!; [done..|lia|done].
Qed.

Lemma subscribe_spec b hist subs :
  backlog_rep b hist subs → arena_room (receivers b) →
  wp subscribe b (λ key b', subs !! key = None ∧ backlog_rep b' hist (<[key:=Z.of_nat (length hist)]> subs) ∧
    capacity b' = capacity b ∧ retention b' = retention b ∧ (length (slots (receivers b')) <= S (length (slots (receivers b))))%nat).
Proof.
  intros [Hp Hf] Hroom. pose proof (rep_size _ _ (bp_arena _ _ _ Hp)) as Hsz.
  pose proof (at_version_size (tail b) subs) as Hat. pose proof (bp_at_tail _ _ _ Hp) as Eat.
  unfold subscribe. wp_auto. apply wp_add_int; [unfold arena_room in Hroom; lia|]. wp_auto.
  wp_apply insert_slot_spec; [by apply Hp|done|]. intros key a (Hk & Ha & Hl). simpl in Hl.
  rewrite <-(bp_tail _ _ _ Hp). split_and!; [done| |done|done|simpl; lia]. split.
  - split; simpl; try apply Hp; try done.
    + intros i. rewrite (bp_buffer _ _ _ Hp). unfold slot_at. destruct (hist !! _) as [m|] eqn:E; [|done]. simpl.
      apply lookup_lt_Some in E. rewrite at_version_insert by done. pose proof (bp_tail _ _ _ Hp). pose proof (bp_head _ _ _ Hp).
      rewrite decide_False by lia. do 2 f_equal. lia.
    + rewrite at_version_insert, decide_True by done. lia.
    + intros k d. rewrite lookup_insert_Some. pose proof (bp_head _ _ _ Hp).
      intros [[_ <-]|[_ Hd]]; [lia|by apply (bp_subs _ _ _ Hp) in Hd].
    + rewrite map_size_insert_None by done. unfold arena_room in Hroom. lia.
  - destruct Hf as [?|[k Hk']]; [by left|right]. exists k. simpl. rewrite lookup_insert_ne; [done|]. congruence.
Qed.

(** What the operations that release slots leave alone. *)
Definition shrinks b b' : Prop :=
  capacity b' <= capacity b ∧ length (slots (receivers b')) = length (slots (receivers b)) ∧ keeps_fixed b b'.

(** An emptied elastic buffer keeps room for four times its largest recent backlog, or
    [MIN_RETAINED_CAPACITY] slots. *)
Lemma shrink_buffer_spec b hist subs :
  backlog_pre b hist subs →
  wp shrink_buffer b (λ _ b', backlog_pre b' hist subs ∧ head b' = head b ∧ tail b' = tail b ∧ shrinks b b' ∧
    ∀ p, retention b = Elastic p → retained b = 0 →
      retention b' = Elastic 0 ∧ capacity b' <= Z.max MIN_RETAINED_CAPACITY (4 * p + 3)).
Proof.
  intros Hp. pose proof (bp_capacity _ _ _ Hp) as Hc. pose proof (bp_peak _ _ _ Hp) as Hpk. pose proof max_slots_bounds.
  unfold shrink_buffer, shrinks. wp_auto. destruct (retention b) as [p|] eqn:Er; [|wp_auto; by split_and!].
  assert (∀ b', keeps_fixed b b') as Hkf by (intros b'; unfold keeps_fixed; by rewrite Er).
  case_bool_decide as E; wp_auto; [split_and!; try done; lia|].
  assert (∀ c, 0 <= c <= capacity b → backlog_pre (set_capacity c (set_retention (Elastic 0) b)) hist subs) as Hpre.
  { intros c Hcc. split; simpl; try apply Hp; unfold retained in *; simpl; lia. }
  unfold retained in *. pose proof (Z.mul_div_le (capacity b) 4). pose proof (Z.mul_succ_div_gt (capacity b) 4).
  case_bool_decide as E1; [case_bool_decide as E2|]; cbn [andb]; wp_auto.
  - apply wp_mul_int; [lia|]. wp_auto. unfold MIN_RETAINED_CAPACITY in *. unfold shrink_to. simpl.
    split_and!; try done; [apply Hpre; lia|lia|]. intros q [= <-] _. split; [done|lia].
  - split_and!; try done; [apply (Hpre (capacity b)); lia|]. intros q [= <-] _. split; [done|simpl; lia].
  - unfold MIN_RETAINED_CAPACITY in *.
    split_and!; try done; [apply (Hpre (capacity b)); lia|]. intros q [= <-] _. split; [done|simpl; lia].
Qed.

(** The head moves over [n] slots that nobody points at. *)
Lemma advance_head b hist subs n :
  backlog_pre b hist subs → Z.of_nat n <= retained b →
  (∀ key c, subs !! key = Some c → head b + Z.of_nat n <= c) →
  backlog_pre (set_head (head b + Z.of_nat n) (set_buffer (drop n (buffer b)) b)) hist subs.
Proof.
  intros Hp Hn Hlow. pose proof (pre_retained _ _ _ Hp). pose proof (bp_head _ _ _ Hp). pose proof (bp_capacity _ _ _ Hp).
  pose proof (bp_peak _ _ _ Hp) as Hpk.
  split; simpl; try apply Hp; try lia.
  - intros i. rewrite lookup_drop, (bp_buffer _ _ _ Hp). f_equal. lia.
  - intros key c Hc. split; [by eapply Hlow|]. by apply (bp_subs _ _ _ Hp) in Hc as [_ ?].
  - unfold retained in *. simpl. rewrite length_drop. lia.
  - unfold retained in *. simpl. rewrite length_drop. destruct (retention b); [lia|done].
Qed.

Lemma vacated_spec (l : list (Slot T)) :
  (∀ i sl, (i < vacated l)%nat → l !! i = Some sl → cursors sl = 0) ∧ (vacated l <= length l)%nat ∧
  ∀ sl, l !! vacated l = Some sl → cursors sl ≠ 0.
Proof.
  induction l as [|s l (IH1 & IH2 & IH3)]; simpl; [split_and!; [intros; lia|lia|done]|].
  case_bool_decide as E; simpl.
  - split_and!; [|lia|done]. intros [|i] sl Hi; simpl; [by intros [= <-]|]. apply IH1. lia.
  - split_and!; [intros; lia|lia|]. by intros sl [= <-].
Qed.

(** A vacated slot is nobody's next. *)
Lemma pre_vacant b hist subs i sl key c :
  backlog_pre b hist subs → buffer b !! i = Some sl → cursors sl = 0 → subs !! key = Some c → c ≠ head b + Z.of_nat i.
Proof.
  intros Hp Hi Hz Hk ->. rewrite (bp_buffer _ _ _ Hp) in Hi. unfold slot_at in Hi.
  destruct (hist !! _) as [m|]; [|done]. injection Hi as <-. simpl in Hz. apply at_version_pos in Hk. lia.
Qed.

Lemma pre_vacant_prefix b hist subs n :
  backlog_pre b hist subs → (∀ i sl, (i < n)%nat → buffer b !! i = Some sl → cursors sl = 0) →
  (n <= length (buffer b))%nat → ∀ key c, subs !! key = Some c → head b + Z.of_nat n <= c.
Proof.
  intros Hp Hz Hn key c Hk. destruct (bp_subs _ _ _ Hp _ _ Hk) as [Hc _].
  destruct (decide (head b + Z.of_nat n <= c)) as [|Hlt]; [done|]. exfalso.
  destruct (lookup_lt_is_Some_2 (buffer b) (Z.to_nat (c - head b))) as [sl Hsl]; [lia|].
  apply (pre_vacant b hist subs _ _ key c Hp Hsl); [eapply Hz; [|done]; lia|done|lia].
Qed.

Definition released (r : Reclaimed T) : list T := option_list (first r) ++ rest r.

Lemma reclaim_vacated_spec b hist subs :
  backlog_pre b hist subs → (∃ sl l, buffer b = sl :: l ∧ cursors sl = 0) →
  wp reclaim_vacated b (λ r b', backlog_rep b' hist subs ∧ head b < head b' ∧ shrinks b b' ∧
    released r = take (Z.to_nat (head b' - head b)) (drop (Z.to_nat (head b)) hist)).
Proof.
  intros Hp (sl & l & Eb & Hz). destruct (vacated_spec l) as (Hv & Hle & Hstop). unfold reclaim_vacated. wp_auto. rewrite Eb.
  apply wp_assert; [by apply bool_decide_eq_true|]. simpl. wp_auto. unfold reclaimed_len. simpl.
  set (n := S (vacated l)). pose proof (pre_retained _ _ _ Hp) as Hr. pose proof (bp_head _ _ _ Hp). pose proof (bp_max _ _ _ Hp).
  assert (1 + Z.of_nat (length (slot_msg <$> take (vacated l) l)) = Z.of_nat n) as Elen.
  { rewrite length_fmap, length_take. unfold n. lia. }
  assert (Z.of_nat n <= retained b) as Hn by (unfold retained; rewrite Eb; simpl; lia).
  rewrite Elen. apply wp_add_int; [lia|]. wp_auto. apply wp_assert; [apply bool_decide_eq_true; lia|]. wp_auto.
  assert (backlog_pre (set_head (head b + Z.of_nat n) (set_buffer (drop n (buffer b)) b)) hist subs) as Hpre.
  { apply advance_head; [done|done|]. apply (pre_vacant_prefix _ hist); [done| |rewrite Eb; simpl; lia].
    rewrite Eb. intros [|i] s Hi; simpl; [by intros [= <-]|]. apply Hv. lia. }
  rewrite Eb in Hpre. simpl in Hpre. wp_apply shrink_buffer_spec; [exact Hpre|].
  intros [] b' (Hpre' & Hh & Ht & Hs & _). wp_auto. simpl in *.
  split_and!; [|lia|done|].
  - split; [done|]. rewrite Hh, Ht. pose proof (pre_retained _ _ _ Hpre) as Hr'. unfold retained in Hr'. simpl in Hr'.
    destruct (drop (vacated l) l) as [|s' l'] eqn:Ed; [left; simpl in Hr'; lia|right].
    assert (l !! vacated l = Some s') as Hs' by (rewrite <-(Nat.add_0_r (vacated l)), <-lookup_drop, Ed; done).
    apply at_version_exists. pose proof (bp_buffer _ _ _ Hpre 0) as Hb0. simpl in Hb0. unfold slot_at in Hb0.
    destruct (hist !! _); [|done]. injection Hb0 as Hb0. apply Hstop in Hs'. rewrite Hb0 in Hs'. simpl in Hs'.
    by rewrite Z.add_0_r in Hs'.
  - rewrite Hh. replace (Z.to_nat (head b + Z.of_nat n - head b)) with n by lia.
    rewrite <-(pre_messages _ _ _ Hp), Eb. unfold n. simpl. by rewrite fmap_take.
Qed.

(** Cursors change without the head or the tail moving. *)
Lemma pre_move_cursors b hist subs subs' (a : Arena Z) l n :
  backlog_pre b hist subs → arena_rep a subs' → (∀ key c, subs' !! key = Some c → head b <= c <= tail b) →
  (size subs' <= size subs)%nat → length l = length (buffer b) →
  (∀ i : nat, l !! i = slot_at hist (λ v, at_version v subs') (head b + Z.of_nat i)) →
  n = at_version (tail b) subs' →
  backlog_pre (set_receivers a (set_at_tail n (set_buffer l b))) hist subs'.
Proof.
  intros Hp Ha Hs Hsz Hlen Hl Hn. pose proof (bp_count _ _ _ Hp). pose proof (bp_capacity _ _ _ Hp) as Hc. pose proof (bp_peak _ _ _ Hp) as Hpk.
  unfold retained in *.
  split; simpl; try apply Hp; try done; unfold retained; simpl; try lia; by rewrite Hlen.
Qed.

Lemma remove_receiver_spec b hist subs key c :
  backlog_rep b hist subs → subs !! key = Some c →
  wp (remove_receiver key) b (λ r b', backlog_rep b' hist (delete key subs) ∧ shrinks b b' ∧ head b <= head b' ∧
    released r = take (Z.to_nat (head b' - head b)) (drop (Z.to_nat (head b)) hist)).
Proof.
  intros [Hp Hf] Hk. destruct (bp_subs _ _ _ Hp _ _ Hk) as [Hhc Hct]. pose proof (bp_head _ _ _ Hp) as Hh.
  pose proof (bp_tail _ _ _ Hp) as Ht. pose proof (at_version_pos _ _ _ Hk) as Hpos.
  assert (∀ j d, delete key subs !! j = Some d → head b <= d <= tail b) as Hsubs.
  { intros j d [_ Hd]%lookup_delete_Some. by apply (bp_subs _ _ _ Hp) in Hd. }
  assert (size (delete key subs) <= size subs)%nat as Hsz by (rewrite map_size_delete_Some by eauto; lia).
  unfold remove_receiver. wp_auto. wp_apply remove_slot_spec; [by apply Hp|done|]. intros ? a (-> & Ha & _ & Hla). wp_auto.
  simpl in *. case_bool_decide as Ec; wp_auto.
  - subst c. apply wp_sub_int; [rewrite (bp_at_tail _ _ _ Hp); lia|]. wp_auto. simpl.
    split_and!; [|done|done|by rewrite Z.sub_diag]. split.
    + apply (pre_move_cursors b hist subs); try done.
      * intros i. rewrite (bp_buffer _ _ _ Hp). unfold slot_at. destruct (hist !! _) as [m|] eqn:E; [|done]. simpl.
        apply lookup_lt_Some in E. rewrite (at_version_delete _ _ _ (tail b)), decide_False by (done || lia). do 2 f_equal. lia.
      * rewrite (at_version_delete _ _ _ (tail b)), decide_True, (bp_at_tail _ _ _ Hp) by done. done.
    + simpl. destruct Hf as [?|[j Hj]]; [by left|]. destruct (decide (j = key)) as [->|]; [left; congruence|right].
      exists j. by rewrite lookup_delete_ne.
  - destruct (lookup_lt_is_Some_2 hist (Z.to_nat c)) as [m Hm]; [lia|].
    apply wp_sub_int; [done|]. wp_auto.
    eapply wp_expect; [apply (slots_lookup hist _ (head b) (λ v, at_version v subs)); [lia|apply Hp|done]|]. wp_auto. simpl.
    apply wp_sub_int; [lia|]. wp_auto. set (l := <[_ := _]> (buffer b)).
    assert (backlog_pre (set_receivers a (set_at_tail (at_tail b) (set_buffer l b))) hist (delete key subs)) as Hpre.
    { apply (pre_move_cursors b hist subs); try done; [apply length_insert| |].
      - intros i. unfold l. rewrite (slots_insert hist _ _ (λ v, at_version v subs)); [|lia|apply Hp|done].
        apply slot_at_ext. rewrite (at_version_delete _ _ _ c) by done.
        case_decide as E1; [rewrite E1, decide_True by done|rewrite decide_False by congruence]; lia.
      - rewrite (at_version_delete _ _ _ c), decide_False, (bp_at_tail _ _ _ Hp) by (done || lia). lia. }
    unfold set_buffer, set_receivers, set_at_tail in *. simpl in *.
    case_bool_decide as Eo; [case_bool_decide as En|]; cbn [andb]; wp_auto.
    + wp_apply reclaim_vacated_spec; [exact Hpre| |].
      * simpl. unfold l. rewrite Eo. pose proof (slots_lookup hist _ _ _ _ _ (conj (proj1 Hh) Hhc) (bp_buffer _ _ _ Hp) Hm) as Hlk.
        rewrite Eo in Hlk. destruct (buffer b) as [|sl l0]; [done|]. eexists _, _. split; [done|]. done.
      * intros r b' (Hrep & Hlt & (Hc1 & Hc2 & Hc3) & Hr). simpl in *.
        split_and!; [done|split_and!; [done|congruence|done]|lia|done].
    + split_and!; [|done|done|by rewrite Z.sub_diag]. split; [done|]. simpl. right. apply at_version_exists.
      rewrite (at_version_delete _ _ _ c) by done. rewrite decide_True by lia. replace (head b) with c by lia. done.
    + split_and!; [|done|done|by rewrite Z.sub_diag]. split; [done|]. simpl. destruct Hf as [?|[j Hj]]; [by left|right].
      exists j. rewrite lookup_delete_ne; [done|]. intros ->. rewrite Hk in Hj. injection Hj. lia.
Qed.

(** The two writes of a receive leave the counts of the moved cursor. *)
Lemma enter_next_spec b hist (f : Z → Z) c :
  tail b = Z.of_nat (length hist) → 0 <= head b <= c → c < tail b <= u64_max →
  (∀ i : nat, buffer b !! i = slot_at hist f (head b + Z.of_nat i)) → at_tail b < usize_max →
  f (c + 1) < usize_max →
  wp (enter_next c (c - head b)) b (λ _ b', ∃ l, b' =
    set_at_tail (at_tail b + if decide (c + 1 = tail b) then 1 else 0) (set_buffer l b) ∧ length l = length (buffer b) ∧
    ∀ i : nat, l !! i = slot_at hist (λ v, f v + if decide (c + 1 = v) then 1 else 0) (head b + Z.of_nat i)).
Proof.
  intros Ht Hh Hc Hl Hat Hf. unfold enter_next. wp_auto. apply wp_add_int; [lia|]. wp_auto. case_bool_decide as E; wp_auto.
  - apply wp_add_int; [lia|]. wp_auto. exists (buffer b). rewrite decide_True by done. split_and!; [done|done|].
    intros i. rewrite Hl. unfold slot_at. destruct (hist !! _) eqn:Ei; [|done]. apply lookup_lt_Some in Ei. simpl.
    rewrite decide_False by lia. by rewrite Z.add_0_r.
  - assert (c - head b + 1 <= usize_max) by (unfold usize_max, u64_max in *; lia). apply wp_add_int; [done|]. wp_auto.
    destruct (lookup_lt_is_Some_2 hist (Z.to_nat (c + 1))) as [m Hm]; [lia|].
    replace (c - head b + 1) with (c + 1 - head b) by lia.
    eapply wp_expect; [apply (slots_lookup hist _ (head b) f); [lia|done|done]|]. wp_auto. simpl.
    apply wp_add_int; [lia|]. wp_auto. eexists. rewrite decide_False by done.
    split_and!; [by rewrite Z.add_0_r|apply length_insert|]. intros i.
    rewrite (slots_insert hist _ _ f) by (done || lia). apply slot_at_ext.
    case_decide as E1; [rewrite E1, decide_True by done|rewrite decide_False by congruence]; lia.
Qed.

Lemma leave_slot_spec b hist subs c m :
  backlog_pre b hist subs → head b <= c < tail b → hist !! Z.to_nat c = Some m →
  (∃ key, subs !! key = Some (c + 1)) → (c ≠ head b → ∃ key, subs !! key = Some (head b)) →
  ∀ l f, length l = length (buffer b) → (∀ i : nat, l !! i = slot_at hist f (head b + Z.of_nat i)) →
  (∀ v, f v = at_version v subs + if decide (c = v) then 1 else 0) →
  wp (leave_slot (c - head b)) (set_buffer l b) (λ r b', backlog_rep b' hist subs ∧ shrinks b b' ∧ head b <= head b' ∧
    r = mkReceived m (bool_decide (head b' ≠ head b))).
Proof.
  intros Hp Hc Hm Hnext Hfront l f Hlen Hl Hf. pose proof (bp_head _ _ _ Hp) as Hh. pose proof (at_version_nonneg c subs).
  unfold leave_slot. wp_auto. simpl. eapply wp_expect; [apply (slots_lookup hist _ (head b) f); [lia|done|done]|]. wp_auto. simpl.
  pose proof (Hf c) as Hfc. rewrite decide_True in Hfc by done. apply wp_sub_int; [lia|]. wp_auto. set (l' := <[_ := _]> l).
  assert (l' = buffer b) as El.
  { apply list_eq. intros i. unfold l'. rewrite (slots_insert hist _ _ f) by (done || lia). rewrite (bp_buffer _ _ _ Hp).
    apply slot_at_ext. case_decide as E1; [rewrite <-E1 in Hfc|rewrite Hf, decide_False by congruence]; subst; lia. }
  rewrite El. clear l' El. unfold set_buffer. simpl.
  assert (∀ cond, cond = bool_decide (c - head b = 0) && bool_decide (f c - 1 = 0) → cond = false →
    backlog_rep b hist subs) as Hkeep.
  { intros cond -> Ecd. split; [done|right]. destruct (decide (c = head b)) as [->|Hne]; [|by apply Hfront].
    apply at_version_exists. rewrite bool_decide_true in Ecd by lia. cbn [andb] in Ecd. apply bool_decide_eq_false in Ecd. lia. }
  destruct (bool_decide _ && bool_decide _) eqn:Ecd; wp_auto.
  - apply andb_true_iff in Ecd as [E1%bool_decide_eq_true E2%bool_decide_eq_true]. assert (c = head b) as -> by lia. simpl.
    pose proof (bp_buffer _ _ _ Hp 0) as Hb0. rewrite Z.add_0_r in Hb0. unfold slot_at in Hb0. rewrite Hm in Hb0. simpl in Hb0.
    destruct (buffer b) as [|sl l0] eqn:Eb; [done|]. injection Hb0 as ->. simpl. wp_auto.
    pose proof (bp_max _ _ _ Hp). apply wp_add_int; [lia|]. wp_auto. apply wp_assert; [apply bool_decide_eq_true; simpl; lia|]. wp_auto.
    wp_apply (shrink_buffer_spec _ hist subs).
    { pose proof (advance_head b hist subs 1 Hp) as Ha. rewrite Eb in Ha. simpl in Ha. apply Ha.
      - unfold retained. rewrite Eb. simpl. lia.
      - intros key d Hd. pose proof (bp_subs _ _ _ Hp _ _ Hd) as [? _]. destruct (decide (d = head b)) as [->|]; [|lia].
        apply at_version_pos in Hd. lia. }
    intros [] b' (Hpre & Hhd & Htl & Hs & _). wp_auto. simpl in *. rewrite Hhd. split_and!; [|done|lia|].
    + split; [done|]. rewrite Hhd. by right.
    + by rewrite bool_decide_true by lia.
  - assert (backlog_rep b hist subs) as Hrep by (by eapply Hkeep). destruct b as [bu ca hd at_ ta re rt]. simpl in *.
    split_and!; [done|done|done|by rewrite bool_decide_false by naive_solver].
Qed.

Lemma receive_spec b hist subs key c :
  backlog_rep b hist subs → subs !! key = Some c →
  wp (receive key) b (λ r b',
    match hist !! Z.to_nat c with
    | None => r = None ∧ b' = b
    | Some m => r = Some (mkReceived m (bool_decide (head b' ≠ head b))) ∧
        backlog_rep b' hist (<[key:=c + 1]> subs) ∧ shrinks b b' ∧ head b <= head b'
    end).
Proof.
  intros [Hp Hf] Hk. destruct (bp_subs _ _ _ Hp _ _ Hk) as [Hhc Hct]. pose proof (bp_head _ _ _ Hp) as Hh.
  pose proof (bp_tail _ _ _ Hp) as Ht. pose proof (bp_max _ _ _ Hp) as Hmax. pose proof (bp_count _ _ _ Hp) as Hcnt.
  unfold receive. wp_auto. rewrite (get_receiver _ _ _ _ Hp). eapply wp_expect; [done|]. wp_auto. case_bool_decide as Ec; wp_auto.
  { by rewrite (lookup_ge_None_2 hist) by lia. }
  destruct (lookup_lt_is_Some_2 hist (Z.to_nat c)) as [m Hm]; [lia|]. rewrite Hm.
  apply wp_add_int; [lia|]. wp_auto. apply wp_assert; [by apply bool_decide_eq_true|]. wp_auto. apply wp_sub_int; [done|]. wp_auto.
  set (a := write_slot key (c + 1) (receivers b)).
  assert (arena_rep a (<[key:=c + 1]> subs)) as Ha by (apply write_slot_rep; [apply Hp|by eexists]).
  wp_apply (enter_next_spec (set_receivers a b) hist (λ v, at_version v subs) c); [exact Ht|simpl; lia|simpl; lia|exact (bp_buffer _ _ _ Hp)| | |]; simpl.
  { rewrite (bp_at_tail _ _ _ Hp). pose proof (at_version_other (tail b) _ _ _ Hk). lia. }
  { pose proof (at_version_other (c + 1) _ _ _ Hk). lia. }
  intros [] b' (l & -> & Hlen & Hl). wp_auto. simpl in *.
  set (n := at_tail b + _). set (b1 := set_at_tail n (set_receivers a b)).
  assert (∀ v, at_version v subs + (if decide (c + 1 = v) then 1 else 0) =
    at_version v (<[key:=c + 1]> subs) + if decide (c = v) then 1 else 0) as Hcounts.
  { intros v. rewrite (at_version_update _ _ _ c) by done. lia. }
  set (l1 := <[Z.to_nat (c - head b) := mkSlot m (at_version c (<[key:=c + 1]> subs))]> l).
  assert (backlog_pre (set_receivers a (set_at_tail n (set_buffer l1 b))) hist (<[key:=c + 1]> subs)) as Hpre.
  { apply (pre_move_cursors b hist subs); try done.
    - intros j d [[_ <-]|[_ Hd]]%lookup_insert_Some; [lia|by apply (bp_subs _ _ _ Hp) in Hd].
    - rewrite map_size_insert_Some by eauto. lia.
    - unfold l1. by rewrite length_insert.
    - intros i. unfold l1. rewrite (slots_insert hist _ _ (λ v, at_version v subs + if decide (c + 1 = v) then 1 else 0)) by (done || lia).
      apply slot_at_ext. case_decide as E1; [by rewrite E1|]. rewrite Hcounts, decide_False by congruence. lia.
    - rewrite (at_version_update _ _ _ c) by done. unfold n. rewrite (bp_at_tail _ _ _ Hp), (decide_False (P:=c = tail b)) by lia. lia. }
  wp_apply (leave_slot_spec _ hist (<[key:=c + 1]> subs) c m Hpre); [simpl; lia|done| | | |exact Hl|exact Hcounts|].
  - exists key. apply lookup_insert_eq.
  - simpl. intros Hne. destruct Hf as [?|[j Hj]]; [lia|]. exists j. rewrite lookup_insert_ne; [done|]. congruence.
  - simpl. unfold l1. by rewrite length_insert, Hlen.
  - intros r b' (Hrep & (Hs1 & Hs2 & Hs3) & Hle & ->). wp_auto. simpl in *. split_and!; [done|done| |done].
    split_and!; [done| |done]. rewrite Hs2. unfold a. simpl. apply length_insert.
Qed.
End specifications.

(** ** The backlog as a log

    Commands, what they do to an append-only log with a cursor per subscription, and the
    simulation between the two. *)
Section refinement.
Context {T : Type}.

Inductive backlog_cmd : Type :=
| CPublish (m : T)
| CSubscribe
| CRemove (key : SlotId)
| CReceive (key : SlotId)
| CUnread (key : SlotId)
| CRetained.

Inductive backlog_res : Type :=
| RPublished (unretained : option T)
| RKey (key : SlotId)
| RReclaimed (ms : list T)
| RReceived (r : option (T * bool))
| RCount (n : Z).

Definition run_backlog_cmd (c : backlog_cmd) : M (Backlog T) backlog_res :=
  match c with
  | CPublish m => r ← publish m; mret (RPublished r)
  | CSubscribe => k ← subscribe; mret (RKey k)
  | CRemove k => r ← remove_receiver k; mret (RReclaimed (released r))
  | CReceive k => r ← receive k; mret (RReceived ((λ r, (msg r, reclaimed r)) <$> r))
  | CUnread k => n ← unread k; mret (RCount n)
  | CRetained => n ← gets retained; mret (RCount n)
  end.

(** The specification: everything published, and the version each subscription reads next. *)
Record Log : Type := mkLog {
  history : list T;
  cursors_of : gmap SlotId Z;
}.
Implicit Types (g : Log) (b : Backlog T) (c : backlog_cmd).

Definition length_of g : Z := Z.of_nat (length (history g)).
Definition oldest_of g : Z := oldest (length_of g) (cursors_of g).
Definition between (h h' : Z) (l : list T) : list T := take (Z.to_nat (h' - h)) (drop (Z.to_nat h) l).

(** A message is handed out with its slot exactly when it was the last reading of the oldest
    message; a removal releases exactly the messages that only the removed subscription had still
    to read before all others. *)
Inductive log_step g : backlog_cmd → backlog_res → Log → Prop :=
| LPublish m :
    log_step g (CPublish m) (RPublished (if decide (cursors_of g = ∅) then Some m else None))
      (mkLog (history g ++ [m]) (cursors_of g))
| LSubscribe k : cursors_of g !! k = None →
    log_step g CSubscribe (RKey k) (mkLog (history g) (<[k:=length_of g]> (cursors_of g)))
| LRemove k i g' : cursors_of g !! k = Some i → g' = mkLog (history g) (delete k (cursors_of g)) →
    log_step g (CRemove k) (RReclaimed (between (oldest_of g) (oldest_of g') (history g))) g'
| LReceive k i m g' : cursors_of g !! k = Some i → history g !! Z.to_nat i = Some m →
    g' = mkLog (history g) (<[k:=i + 1]> (cursors_of g)) →
    log_step g (CReceive k) (RReceived (Some (m, bool_decide (oldest_of g' ≠ oldest_of g)))) g'
| LCaughtUp k : cursors_of g !! k = Some (length_of g) → log_step g (CReceive k) (RReceived None) g
| LUnread k i : cursors_of g !! k = Some i → log_step g (CUnread k) (RCount (length_of g - i)) g
| LRetained : log_step g CRetained (RCount (length_of g - oldest_of g)) g.

Inductive log_trace : Log → list backlog_cmd → list backlog_res → Log → Prop :=
| log_nil g : log_trace g [] [] g
| log_cons g c r g' cs rs g'' :
    log_step g c r g' → log_trace g' cs rs g'' → log_trace g (c :: cs) (r :: rs) g''.

(** The key a command uses. *)
Definition uses c : option SlotId :=
  match c with
  | CRemove k | CReceive k | CUnread k => Some k
  | _ => None
  end.
Definition unregistered g c : Prop := ∃ k, uses c = Some k ∧ cursors_of g !! k = None.

Definition log_rep b g : Prop := backlog_rep b (history g) (cursors_of g).

(** [n] commands have run: enough to bound versions, slots and capacity. *)
Definition small (n : nat) b : Prop :=
  tail b <= Z.of_nat n ∧ (length (slots (receivers b)) <= n)%nat ∧ capacity b <= Z.max 4 (2 * Z.of_nat n).

Lemma log_rep_head b g : log_rep b g → head b = oldest_of g.
Proof. apply rep_head. Qed.
Lemma log_rep_tail b g : log_rep b g → tail b = length_of g.
Proof. intros Hb. apply (bp_tail _ _ _ (br_pre _ _ _ Hb)). Qed.

Lemma unregistered_panics b g c : log_rep b g → unregistered g c → ∃ e, run_backlog_cmd c b = Panic e b.
Proof.
  intros [Hp _] (k & Hu & Hk).
  destruct c as [m| |j|j|j|]; try done; injection Hu as ->; simpl;
    unfold remove_receiver, receive, unread, in_receivers, zoom, mbind, M_bind, get; simpl.
  - destruct (remove_slot_panics _ _ _ (bp_arena _ _ _ Hp) Hk) as [e ->]. eexists. f_equal. by destruct b.
  - rewrite (get_receiver _ _ _ _ Hp), Hk. by eexists.
  - rewrite (get_receiver _ _ _ _ Hp), Hk. by eexists.
Qed.

Lemma uses_registered b g c :
  log_rep b g → ¬ unregistered g c → match uses c with Some k => is_Some (cursors_of g !! k) | None => True end.
Proof.
  intros Hb Hn. destruct (uses c) as [k|] eqn:Hu; [|done].
  destruct (cursors_of g !! k) eqn:Hk; [by eexists|]. destruct Hn. by exists k.
Qed.

Lemma run_backlog_cmd_ok b g c n :
  log_rep b g → small n b → 4 * Z.of_nat n <= max_slots → ¬ unregistered g c →
  wp (run_backlog_cmd c) b (λ r b', ∃ g', log_step g c r g' ∧ log_rep b' g' ∧ small (S n) b').
Proof.
  intros Hb (Ht & Hl & Hc) Hn Hreg%(uses_registered b); [|done]. pose proof max_slots_bounds as (? & ? & ?).
  pose proof (pre_retained _ _ _ (br_pre _ _ _ Hb)). pose proof (bp_head _ _ _ (br_pre _ _ _ Hb)).
  pose proof (log_rep_head b g Hb) as Hh. pose proof (log_rep_tail b g Hb) as Htl. assert (8 <= max_slots) by (vm_compute; discriminate).
  assert (∀ b' g', log_rep b' g' → length_of g' = length_of g → shrinks b b' → small (S n) b') as Hsmall.
  { intros b' g' Hb' E (? & E' & _). unfold small. rewrite (log_rep_tail b' g' Hb'), E', E. lia. }
  destruct c as [m| |k|k|k|]; simpl in *; wp_auto.
  - wp_apply publish_spec; [done|lia|right; lia|]. intros r b' (-> & Hb' & Hr & Hc' & _). wp_auto.
    eexists. split; [apply LPublish|]. split; [done|]. pose proof (log_rep_tail b' (mkLog _ _) Hb') as Ht'.
    unfold length_of in *. simpl in Ht'. rewrite length_app in Ht'. simpl in Ht'. unfold small. rewrite Hr. lia.
  - wp_apply subscribe_spec; [done|unfold arena_room; lia|]. intros k b' (Hk & Hb' & Hc' & _ & Hl'). wp_auto.
    eexists. split; [by apply LSubscribe|]. split; [done|]. unfold small. rewrite (log_rep_tail b' (mkLog _ _) Hb').
    unfold length_of in *. simpl in *. lia.
  - destruct Hreg as [i Hi]. wp_apply remove_receiver_spec; [done..|]. intros r b' (Hb' & Hs & _ & ->). wp_auto.
    set (g' := mkLog (history g) (delete k (cursors_of g))). exists g'. rewrite Hh, (log_rep_head b' g' Hb').
    split; [by eapply LRemove|]. split; [done|]. by apply (Hsmall _ g').
  - destruct Hreg as [i Hi]. wp_apply receive_spec; [done..|]. intros r b'. destruct (history g !! Z.to_nat i) as [m|] eqn:Em.
    + intros (-> & Hb' & Hs & _). wp_auto. simpl. set (g' := mkLog (history g) (<[k:=i + 1]> (cursors_of g))). exists g'.
      rewrite Hh, (log_rep_head b' g' Hb'). split; [by eapply LReceive|]. split; [done|]. by apply (Hsmall _ g').
    + intros [-> ->]. wp_auto. simpl. exists g. split; [|split; [done|by apply (Hsmall b g)]]. apply LCaughtUp. rewrite Hi. f_equal.
      apply lookup_ge_None_1 in Em. pose proof (bp_subs _ _ _ (br_pre _ _ _ Hb) _ _ Hi). unfold length_of in *. lia.
  - destruct Hreg as [i Hi]. wp_apply unread_spec; [by apply Hb|done|]. intros ? b' [-> ->]. wp_auto. exists g.
    split; [by apply LUnread|]. split; [done|by apply (Hsmall b g)].
  - exists g. rewrite (pre_retained _ _ _ (br_pre _ _ _ Hb)), Hh, Htl. split; [apply LRetained|]. split; [done|by apply (Hsmall b g)].
Qed.

Lemma run_backlog_spec cs b g n :
  log_rep b g → small n b → 4 * Z.of_nat (n + length cs) <= max_slots →
  match mapM run_backlog_cmd cs b with
  | Ret rs b' => ∃ g', log_trace g cs rs g' ∧ log_rep b' g'
  | Panic _ b' => ∃ pre c post rs g', cs = pre ++ c :: post ∧ log_trace g pre rs g' ∧ unregistered g' c ∧ log_rep b' g'
  end.
Proof.
  revert b g n. induction cs as [|c cs IH]; intros b g n Hb Hs Hn; simpl.
  { exists g. split; [constructor|done]. }
  simpl in Hn. unfold mbind, M_bind.
  assert (unregistered g c ∨ ¬ unregistered g c) as [Hu|Hu].
  { unfold unregistered. destruct (uses c) as [k|]; [|right; by intros (? & ? & _)].
    destruct (cursors_of g !! k) eqn:E; [right; intros (? & [= <-] & ?); congruence|left; by exists k]. }
  - destruct (unregistered_panics b g c Hb Hu) as [e ->]. exists [], c, cs, [], g. split_and!; [done|constructor|done|done].
  - pose proof (wp_elim _ _ _ (λ _ _, False) (run_backlog_cmd_ok b g c n Hb Hs ltac:(lia) Hu)) as H1.
    destruct (run_backlog_cmd c b) as [r b1|e b1]; [|done]. destruct H1 as (g1 & Hst & Hb1 & Hs1).
    specialize (IH b1 g1 (S n) Hb1 Hs1 ltac:(lia)). destruct (mapM run_backlog_cmd cs b1) as [rs b2|e b2]; simpl.
    + destruct IH as (g2 & Htr & Hb2). exists g2. split; [by econstructor|done].
    + destruct IH as (pre & d & post & rs & g2 & -> & Htr & Hd & Hb2). exists (c :: pre), d, post, (r :: rs), g2.
      split_and!; [done|by econstructor|done|done].
Qed.
End refinement.
Arguments backlog_cmd : clear implicits.
Arguments backlog_res : clear implicits.
Arguments Log : clear implicits.

(** ** Properties *)

(** C6: the backlog refines an append-only log with a cursor per subscription.  Any sequence of
    publications, subscriptions, receives, removals and counts on a fresh elastic backlog returns
    what the log returns: every subscription reads every message published since it was made, in
    order; a message is released exactly when no subscription will read it again; the counts of
    unread and retained messages are those of the log.  The only panic is the use of a
    subscription that is not registered, and it leaves the backlog as it was. *)
Theorem backlog_refines_log {T : Type} (cs : list (backlog_cmd T)) :
  4 * Z.of_nat (length cs) <= max_slots →
  match mapM run_backlog_cmd cs elastic with
  | Ret rs b => ∃ g, log_trace (mkLog [] ∅) cs rs g ∧ log_rep b g
  | Panic _ b => ∃ pre c post rs g, cs = pre ++ c :: post ∧ log_trace (mkLog [] ∅) pre rs g ∧ unregistered g c ∧ log_rep b g
  end.
Proof.
  intros Hn. apply (run_backlog_spec cs elastic (mkLog [] ∅) 0); [|split_and!; [done|simpl; lia|done]|done].
  apply backlog_new_rep; [by vm_compute|done].
Qed.

(** Two receivers, one of which lags behind and is dropped. *)
Definition lagging : list (backlog_cmd nat) :=
  [CSubscribe; CSubscribe; CPublish 10%nat; CPublish 20%nat; CReceive 1; CReceive 1; CRetained; CRemove 2; CPublish 30%nat; CReceive 1; CReceive 1].

Lemma backlog_refines_log_witness :
  ∃ b, mapM run_backlog_cmd lagging elastic =
    Ret [RKey 1; RKey 2; RPublished None; RPublished None; RReceived (Some (10%nat, false)); RReceived (Some (20%nat, false));
         RCount 2; RReclaimed [10; 20]%nat; RPublished None; RReceived (Some (30%nat, true)); RReceived None] b ∧
    match mapM run_backlog_cmd lagging elastic with
    | Ret rs b => ∃ g, log_trace (mkLog [] ∅) lagging rs g ∧ log_rep b g
    | Panic _ b => ∃ pre c post rs g, lagging = pre ++ c :: post ∧ log_trace (mkLog [] ∅) pre rs g ∧ unregistered g c ∧ log_rep b g
    end.
Proof.
  eexists. split; [vm_compute; reflexivity|]. apply (backlog_refines_log lagging). vm_compute. discriminate.
Defined.
