(* ===== verification/Broadcast.v ===== *)
(** * The broadcast channel

    [asyncband/src/broadcast/mpmc/]: the state both flavours share ([common.rs]), the unbounded
    channel ([unbounded/mod.rs]) and the parts of the bounded one ([bounded/mod.rs]) that work
    on the log; the producers that wait for capacity are in BroadcastBounded.  Every receiver has
    a cursor of its own in the backlog; receivers that are caught up wait in a waker set, which
    publications and the last sender empty. *)
From S2P Require Import Prelude Arena WakerBatch WakerSet Backlog.

(** ** The shared state *)
Record Inner (T : Type) : Type := mkInner {
  log : Backlog T;
  waiters : WakerSet;
}.
Arguments mkInner {T}.
Arguments log {T}.
Arguments waiters {T}.

Inductive RecvError : Type := Disconnected.
Inductive TryRecvError : Type := TryEmpty | TryDisconnected.

Section inner.
Context {T : Type}.
Implicit Types (s : Inner T) (key : SlotId) (token : option WakerToken) (m : T) (senders : Z).

Definition set_log (b : Backlog T) s : Inner T := mkInner b (waiters s).
Definition set_waiters (w : WakerSet) s : Inner T := mkInner (log s) w.
Definition in_log {A : Type} (c : M (Backlog T) A) : M (Inner T) A := zoom log set_log c.
Definition in_waiters {A : Type} (c : M WakerSet A) : M (Inner T) A := zoom waiters set_waiters c.

(** [Inner::with_first_subscription]. *)
Definition with_first_subscription (b : Backlog T) : outcome (Backlog T) (Inner T * SlotId) :=
  match Backlog.subscribe b with
  | Ret key b' => Ret (mkInner b' wakerset_new, key) b'
  | Panic e b' => Panic e b'
  end.

(** [disconnect]: the tasks woken. *)
Definition disconnect : M (Inner T) (list Waker) :=
  s ← get;
  put (set_waiters wakerset_new s);;
  mret (set_wake_all (waiters s)).

(** [unregister] reads the sender count inside the critical section; the token it leaves is gone
    in every case. *)
Definition unregister senders key token : M (Inner T) unit :=
  n ← in_log (unread key);
  if bool_decide (n ≠ 0) || bool_decide (senders = 0) then mret tt
  else in_waiters (WakerSet.unregister token);; mret tt.

Definition try_receive senders key : M (Inner T) (result (Received T) TryRecvError) :=
  r ← in_log (receive key);
  match r with
  | Some received => mret (Ok received)
  | None => if bool_decide (senders = 0) then mret (Err TryDisconnected) else mret (Err TryEmpty)
  end.

(** [poll_receive] returns the token with the answer. *)
Definition poll_receive senders key token (cx : Waker) :
    M (Inner T) (option WakerToken * Poll (result (Received T) RecvError)) :=
  r ← in_log (receive key);
  match r with
  | Some received => mret (None, Ready (Ok received))
  | None =>
      if bool_decide (senders = 0) then mret (None, Ready (Err Disconnected))
      else '(tk, _) ← in_waiters (WakerSet.register token cx); mret (tk, Pending)
  end.

(** After a publication every registered receiver is woken. *)
Definition wake_receivers : M (Inner T) (list Waker) :=
  wakers ← in_waiters set_take_all;
  batch_wake wakers.

(** [UnboundedSender::send]. *)
Definition unbounded_send m : M (Inner T) (list Waker) :=
  in_log (Backlog.publish m);;
  wake_receivers.

(** [BoundedSender::publish]: the message comes back when the channel is full. *)
Definition bounded_publish (cap : Z) m : M (Inner T) (result unit T * list Waker) :=
  s ← get;
  if negb (has_receivers (log s)) then
    in_log publish_discarded;;
    ws ← wake_receivers;
    mret (Ok tt, ws)
  else if bool_decide (retained (log s) = cap) then mret (Err m, [])
  else
    in_log (publish_retained m);;
    ws ← wake_receivers;
    mret (Ok tt, ws).
End inner.

#[export] Hint Unfold in_log in_waiters : band_zoom.

(** ** The system: senders, receivers and their futures *)

(** A [Recv] future and the receiver it borrows. *)
Record Recv : Type := mkRecv {
  borrows : nat;
  token : option WakerToken;
}.

(** [disconnecting]: the last sender has left the count and is about to wake the receivers. *)
Record Sys (T : Type) : Type := mkSys {
  inner : Inner T;
  senders : Z;
  tx : gset nat;
  disconnecting : bool;
  rx : gmap nat SlotId;
  recvs : gmap nat Recv;
}.
Arguments mkSys {T}.
Arguments inner {T}.
Arguments senders {T}.
Arguments tx {T}.
Arguments disconnecting {T}.
Arguments rx {T}.
Arguments recvs {T}.

Inductive Label (T : Type) : Type :=
| SenderClone (h h' : nat)
| SenderDrop (h : nat)
| Disconnect
| Send (h : nat) (m : T)
| Subscribe (h r : nat)
| Resubscribe (r r' : nat)
| ReceiverDrop (r : nat)
| TryRecv (r : nat)
| RecvStart (r f : nat)
| RecvPoll (f : nat) (cx : Waker)
| RecvDrop (f : nat)
| UnreadCount (r : nat)
| RetainedCount (h : nat).
Arguments SenderClone {T} h h'.
Arguments SenderDrop {T} h.
Arguments Disconnect {T}.
Arguments Send {T} h m.
Arguments Subscribe {T} h r.
Arguments Resubscribe {T} r r'.
Arguments ReceiverDrop {T} r.
Arguments TryRecv {T} r.
Arguments RecvStart {T} r f.
Arguments RecvPoll {T} f cx.
Arguments RecvDrop {T} f.
Arguments UnreadCount {T} r.
Arguments RetainedCount {T} h.

(** The receiver and its message with whether the slot was freed, a failed receive, a message given back
    by a full channel, the messages released by a dropped receiver, a count, the tasks woken. *)
Record Obs (T : Type) : Type := mkObs {
  got : option (nat * Received T);
  failed : option TryRecvError;
  full : option T;
  dropped : list T;
  counted : option Z;
  woken : list Waker;
}.
Arguments mkObs {T}.
Arguments got {T}.
Arguments failed {T}.
Arguments full {T}.
Arguments dropped {T}.
Arguments counted {T}.
Arguments woken {T}.

Section system.
Context {T : Type} (cap : option Z).
Implicit Types (x : Sys T) (l : Label T) (h r f : nat) (m : T).

Definition silent : Obs T := mkObs None None None [] None [].
Definition wakes (ws : list Waker) : Obs T := mkObs None None None [] None ws.

Definition set_inner (s : Inner T) x : Sys T := mkSys s (senders x) (tx x) (disconnecting x) (rx x) (recvs x).
Definition set_rx (g : gmap nat SlotId) x : Sys T := mkSys (inner x) (senders x) (tx x) (disconnecting x) g (recvs x).
Definition set_recvs (g : gmap nat Recv) x : Sys T := mkSys (inner x) (senders x) (tx x) (disconnecting x) (rx x) g.
Definition on_inner {A : Type} (c : M (Inner T) A) : M (Sys T) A := zoom inner set_inner c.

(** A receiver is borrowed by its future. *)
Definition idle r x : Prop := is_Some (rx x !! r) ∧ map_Forall (λ _ v, borrows v ≠ r) (recvs x).

(** Handles own references, so their counts stay below [isize::MAX]; versions do not run out; the
    unbounded buffer and the arenas can grow by a slot. *)
Definition enabled l x : bool :=
  match l with
  | SenderClone h h' =>
      bool_decide (h ∈ tx x ∧ h' ∉ tx x) && bool_decide (Z.of_nat (size (tx x)) < isize_max)
  | SenderDrop h => bool_decide (h ∈ tx x)
  | Disconnect => disconnecting x
  | Send h _ =>
      bool_decide (h ∈ tx x ∧ tail (log (inner x)) < u64_max) &&
      match cap with None => bool_decide (2 * capacity (log (inner x)) <= max_slots) | Some _ => true end
  | Subscribe h r =>
      bool_decide (h ∈ tx x ∧ rx x !! r = None) && bool_decide (arena_room (receivers (log (inner x))))
  | Resubscribe r r' =>
      bool_decide (is_Some (rx x !! r) ∧ rx x !! r' = None) && bool_decide (arena_room (receivers (log (inner x))))
  | ReceiverDrop r | TryRecv r => bool_decide (idle r x)
  | RecvStart r f => bool_decide (idle r x) && bool_decide (recvs x !! f = None)
  | RecvPoll f _ => bool_decide (is_Some (recvs x !! f)) && bool_decide (set_room (waiters (inner x)))
  | RecvDrop f => bool_decide (is_Some (recvs x !! f))
  | UnreadCount r => bool_decide (is_Some (rx x !! r))
  | RetainedCount h => bool_decide (h ∈ tx x)
  end.

(** [Sender::drop] up to its decrement; the last one goes on to [disconnect]. *)
Definition sender_drop h : M (Sys T) (Obs T) :=
  x ← get;
  let n := senders x in
  put (mkSys (inner x) (wrapping_add usize_max n (-1)) (tx x ∖ {[h]}) (bool_decide (n = 1) || disconnecting x) (rx x) (recvs x));;
  mret silent.

(** [unbounded::UnboundedSender::send] or [bounded::BoundedSender::try_send]. *)
Definition send m : M (Sys T) (Obs T) :=
  match cap with
  | None => ws ← on_inner (unbounded_send m); mret (wakes ws)
  | Some c =>
      '(r, ws) ← on_inner (bounded_publish c m);
      mret (mkObs None None (match r with Ok _ => None | Err m => Some m end) [] None ws)
  end.

Definition subscribe r : M (Sys T) (Obs T) :=
  x ← get;
  key ← on_inner (in_log Backlog.subscribe);
  modify (set_rx (<[r:=key]> (rx x)));;
  mret silent.

Definition receiver_drop r : M (Sys T) (Obs T) :=
  x ← get;
  key ← expect (rx x !! r) "no such receiver";
  ms ← on_inner (in_log (remove_receiver key));
  modify (set_rx (delete r (rx x)));;
  mret (mkObs None None None (released ms) None []).

Definition try_recv r : M (Sys T) (Obs T) :=
  x ← get;
  key ← expect (rx x !! r) "no such receiver";
  a ← on_inner (try_receive (senders x) key);
  mret (match a with
        | Ok m => mkObs (Some (r, m)) None None [] None []
        | Err e => mkObs None (Some e) None [] None []
        end).

(** [Recv::poll]; the future is gone once it is ready. *)
Definition poll_recv f (cx : Waker) : M (Sys T) (Obs T) :=
  x ← get;
  v ← expect (recvs x !! f) "no such future";
  key ← expect (rx x !! borrows v) "no such receiver";
  '(tk, a) ← on_inner (poll_receive (senders x) key (token v) cx);
  match a with
  | Pending => modify (set_recvs (<[f:=mkRecv (borrows v) tk]> (recvs x)));; mret silent
  | Ready (Ok m) => modify (set_recvs (delete f (recvs x)));; mret (mkObs (Some (borrows v, m)) None None [] None [])
  | Ready (Err _) => modify (set_recvs (delete f (recvs x)));; mret (mkObs None (Some TryDisconnected) None [] None [])
  end.

(** [Recv::drop]. *)
Definition recv_drop f : M (Sys T) (Obs T) :=
  x ← get;
  v ← expect (recvs x !! f) "no such future";
  key ← expect (rx x !! borrows v) "no such receiver";
  match token v with
  | None => mret tt
  | Some _ => on_inner (unregister (senders x) key (token v))
  end;;
  modify (set_recvs (delete f (recvs x)));;
  mret silent.

Definition exec l : M (Sys T) (Obs T) :=
  x ← get;
  match l with
  | SenderClone _ h' =>
      put (mkSys (inner x) (wrapping_add usize_max (senders x) 1) ({[h']} ∪ tx x) (disconnecting x) (rx x) (recvs x));;
      mret silent
  | SenderDrop h => sender_drop h
  | Disconnect =>
      ws ← on_inner disconnect;
      modify (λ x, mkSys (inner x) (senders x) (tx x) false (rx x) (recvs x));;
      mret (wakes ws)
  | Send _ m => send m
  | Subscribe _ r | Resubscribe _ r => subscribe r
  | ReceiverDrop r => receiver_drop r
  | TryRecv r => try_recv r
  | RecvStart r f => put (set_recvs (<[f:=mkRecv r None]> (recvs x)) x);; mret silent
  | RecvPoll f cx => poll_recv f cx
  | RecvDrop f => recv_drop f
  | UnreadCount r =>
      key ← expect (rx x !! r) "no such receiver";
      n ← on_inner (in_log (unread key));
      mret (mkObs None None None [] (Some n) [])
  | RetainedCount _ => mret (mkObs None None None [] (Some (retained (log (inner x)))) [])
  end.

(** [unbounded] and [bounded]: sender 0 and receiver 0.  Capacity zero is refused, and so is one that
    [VecDeque::with_capacity] cannot allocate. *)
Definition channel : option (Sys T) :=
  b ← match cap with
      | None => Some elastic
      | Some c => if bool_decide (0 < c <= max_slots) then Some (fixed c) else None
      end;
  match with_first_subscription b with
  | Ret (s, key) _ => Some (mkSys s 1 {[0%nat]} false {[0%nat := key]} ∅)
  | Panic _ _ => None
  end.
End system.

#[export] Hint Unfold on_inner : band_zoom.

(** ** Invariant *)
Section invariant.
Context {T : Type} (cap : option Z).
Implicit Types (x : Sys T) (l : Label T) (hist : list T) (subs : gmap SlotId Z) (g : gmap nat SlotId) (r f : nat) (w : Waker)
  (o : Obs T) (v : Recv).

(** The version a receiver reads next. *)
Definition cursor subs g r : option Z := g !! r ≫= λ k, subs !! k.

(** The token a future may use: void once there is something to read. *)
Definition live hist subs g v : option WakerToken :=
  c ← cursor subs g (borrows v); if decide (c = Z.of_nat (length hist)) then token v else None.
Definition tokens_of hist subs x : tokens := live hist subs (rx x) <$> recvs x.

Record chan_ok hist subs x : Prop := {
  co_log : backlog_rep (log (inner x)) hist subs;
  co_rx : ∀ r k, rx x !! r = Some k → is_Some (subs !! k);
  co_inj : ∀ r r' k, rx x !! r = Some k → rx x !! r' = Some k → r = r';
  co_all : ∀ k, is_Some (subs !! k) → ∃ r, rx x !! r = Some k;
  co_tx : senders x = Z.of_nat (size (tx x));
  co_max : senders x <= isize_max;
  co_last : disconnecting x = true → senders x = 0;
  co_recvs : ∀ f v, recvs x !! f = Some v → is_Some (rx x !! borrows v);
  co_borrow : ∀ f f' v v', recvs x !! f = Some v → recvs x !! f' = Some v' → borrows v = borrows v' → f = f';
  co_set : terminal_ok (bool_decide (senders x = 0)) (waiters (inner x)) (tokens_of hist subs x) (disconnecting x = true);
  co_cap : match cap with
           | None => True
           | Some c => retained (log (inner x)) <= c <= capacity (log (inner x)) ∧ retention (log (inner x)) = Fixed
           end;
}.

Definition parked hist subs f w x : Prop := set_parked (waiters (inner x)) (tokens_of hist subs x) f w.

Definition about l : option nat :=
  match l with
  | RecvStart _ f | RecvPoll f _ | RecvDrop f => Some f
  | _ => None
  end.

(** The message an operation has published and the receiver it has made. *)
Definition published l o : option T :=
  match l with
  | Send _ m => match full o with None => Some m | Some _ => None end
  | _ => None
  end.
Definition created l : option nat :=
  match l with
  | Subscribe _ r | Resubscribe _ r => Some r
  | _ => None
  end.

(** The messages receiver [r] is handed. *)
Definition receives r o : list T :=
  match got o with
  | Some (r', m) => if decide (r' = r) then [msg m] else []
  | None => []
  end.

Record moves hist subs l x o hist' subs' x' : Prop := {
  mo_ok : chan_ok hist' subs' x';
  mo_hist : hist' = hist ++ option_list (published l o);
  mo_cursor : ∀ r, is_Some (rx x' !! r) → cursor subs' (rx x') r =
    if decide (created l = Some r) then Some (Z.of_nat (length hist))
    else (λ c, c + Z.of_nat (length (receives r o))) <$> cursor subs (rx x) r;
  mo_got : ∀ r m, got o = Some (r, m) → ∃ c, cursor subs (rx x) r = Some c ∧ hist !! Z.to_nat c = Some (msg m);
  mo_recvs : ∀ f, about l ≠ Some f → recvs x' !! f = recvs x !! f;
  mo_parked : ∀ f w, about l ≠ Some f → parked hist subs f w x → parked hist' subs' f w x' ∨ w ∈ woken o;
}.
Definition effect hist subs l x o x' : Prop := ∃ hist' subs', moves hist subs l x o hist' subs' x'.

Lemma live_readers_ext hist subs g subs' g' (R : gmap nat Recv) :
  (∀ f v, R !! f = Some v → cursor subs' g' (borrows v) = cursor subs g (borrows v)) →
  live hist subs' g' <$> R = live hist subs g <$> R.
Proof. intros H. apply map_fmap_ext. intros f v Hf. unfold live. by rewrite (H f v Hf). Qed.

Lemma tokens_lookup hist subs x f v : recvs x !! f = Some v → tokens_of hist subs x !! f = Some (live hist subs (rx x) v).
Proof. intros Hf. unfold tokens_of. by rewrite lookup_fmap, Hf. Qed.

Lemma cursor_some hist subs x r k : chan_ok hist subs x → rx x !! r = Some k →
  ∃ c, subs !! k = Some c ∧ cursor subs (rx x) r = Some c ∧ c <= Z.of_nat (length hist).
Proof.
  intros Hx Hr. destruct (co_rx _ _ _ Hx r k Hr) as [c Hc]. exists c. unfold cursor. rewrite Hr. simpl. split_and!; [done|done|].
  pose proof (br_pre _ _ _ (co_log _ _ _ Hx)) as Hp. apply (bp_subs _ _ _ Hp) in Hc as [_ Hc]. by rewrite <-(bp_tail _ _ _ Hp).
Qed.

(** Moving the cursor of one subscription leaves the others. *)
Lemma cursor_other hist subs x r r' k (d : option Z) :
  chan_ok hist subs x → rx x !! r = Some k → r' ≠ r →
  cursor (match d with Some c => <[k:=c]> subs | None => delete k subs end) (rx x) r' = cursor subs (rx x) r'.
Proof.
  intros Hx Hr Hne. unfold cursor. destruct (rx x !! r') as [k'|] eqn:Hr'; [|done]. simpl.
  assert (k' ≠ k) by (intros ->; by apply Hne, (co_inj _ _ _ Hx r' r k)).
  destruct d; [by rewrite lookup_insert_ne|by rewrite lookup_delete_ne].
Qed.

(** Only the senders change. *)
Lemma effect_senders hist subs l x n t d o :
  chan_ok hist subs x → published l o = None → created l = None → got o = None →
  n = Z.of_nat (size t) → n <= isize_max → (d = true → n = 0) → (disconnecting x = true → d = true) →
  (senders x = 0 → n = 0) → (n = 0 → senders x = 0 ∨ d = true) →
  effect hist subs l x o (mkSys (inner x) n t d (rx x) (recvs x)).
Proof.
  intros Hx Hp Hc Hg Hn Hmax Hd Hdd Hz Hz'. exists hist, subs. split; simpl; try done.
  - split; simpl; try apply Hx; try done. pose proof (co_set _ _ _ Hx) as Hset.
    destruct (bool_decide_reflect (senders x = 0)) as [E|E].
    + rewrite bool_decide_true by auto. apply (terminal_notifying _ _ _ (disconnecting x = true)); [exact Hset|auto].
    + destruct (bool_decide_reflect (n = 0)) as [En|En].
      * destruct (Hz' En) as [?|Hd']; [done|]. by eapply terminal_close.
      * eapply terminal_notifying; [exact Hset|done].
  - by rewrite Hp, app_nil_r.
  - intros r _. unfold receives. rewrite decide_False, Hg by congruence. simpl. destruct (cursor _ _ _); simpl; [|done].
    f_equal. lia.
  - rewrite Hg. done.
  - intros f w _ Hpk. by left.
Qed.

Lemma effect_quiet hist subs l x o :
  chan_ok hist subs x → published l o = None → created l = None → got o = None → effect hist subs l x o x.
Proof.
  intros Hx Hp Hc Hg. destruct x as [s n t d g R]. eapply (effect_senders hist subs l (mkSys s n t d g R)); try done.
  - apply (co_tx _ _ _ Hx).
  - apply (co_max _ _ _ Hx).
  - apply (co_last _ _ _ Hx).
  - by left.
Qed.

(** Only the future [f] and the set change. *)
Lemma moves_future hist subs l x f (ws : WakerSet) (R : gmap nat Recv) o :
  chan_ok hist subs x → about l = Some f → published l o = None → created l = None → got o = None →
  (∀ k, k ≠ f → R !! k = recvs x !! k) →
  (∀ v, R !! f = Some v → is_Some (rx x !! borrows v) ∧
    ∀ k u, k ≠ f → recvs x !! k = Some u → borrows u ≠ borrows v) →
  terminal_ok (bool_decide (senders x = 0)) ws (live hist subs (rx x) <$> R) (disconnecting x = true) →
  parked_kept f (waiters (inner x)) (tokens_of hist subs x) ws (live hist subs (rx x) <$> R) →
  moves hist subs l x o hist subs (mkSys (mkInner (log (inner x)) ws) (senders x) (tx x) (disconnecting x) (rx x) R).
Proof.
  intros Hx Hl Hp Hc Hg Hoth Hf Hset Hkept. split; simpl; try done.
  - split; simpl; try apply Hx; try done.
    + intros k v Hk. destruct (decide (k = f)) as [->|Hne]; [by apply Hf|]. rewrite Hoth in Hk by done.
      by eapply (co_recvs _ _ _ Hx).
    + intros k k' v v' Hk Hk' E.
      destruct (decide (k = f)) as [->|Hne], (decide (k' = f)) as [->|Hne']; [done| | |];
        rewrite ?Hoth in Hk by done; rewrite ?Hoth in Hk' by done.
      * destruct (Hf v Hk) as [_ H]. by destruct (H k' v' Hne' Hk').
      * destruct (Hf v' Hk') as [_ H]. by destruct (H k v Hne Hk).
      * by eapply (co_borrow _ _ _ Hx).
  - by rewrite Hp, app_nil_r.
  - intros r _. unfold receives. rewrite decide_False, Hg by congruence. destruct (cursor _ _ _); simpl; [|done]. f_equal. lia.
  - by rewrite Hg.
  - intros k Hne. apply Hoth. congruence.
  - intros k w Hne Hpk. left. apply Hkept; [congruence|done].
Qed.

(** A message is handed to receiver [r]: the futures stay, or the one that borrows [r] is done. *)
Lemma effect_receive hist subs l x r k c m fl (b : Backlog T) (R : gmap nat Recv) o :
  chan_ok hist subs x → rx x !! r = Some k → subs !! k = Some c → hist !! Z.to_nat c = Some m →
  backlog_rep b hist (<[k:=c + 1]> subs) → shrinks (log (inner x)) b → head (log (inner x)) <= head b →
  published l o = None → created l = None → got o = Some (r, mkReceived m fl) →
  (R = recvs x ∧ map_Forall (λ _ v, borrows v ≠ r) (recvs x)) ∨
    (∃ f v, about l = Some f ∧ recvs x !! f = Some v ∧ borrows v = r ∧ R = delete f (recvs x)) →
  effect hist subs l x o (mkSys (mkInner b (waiters (inner x))) (senders x) (tx x) (disconnecting x) (rx x) R).
Proof.
  intros Hx Hr Hk Hm Hb (_ & _ & Hfix) Hh Hp Hc Hg HR. set (subs' := <[k:=c + 1]> subs).
  assert (∀ r', r' ≠ r → cursor subs' (rx x) r' = cursor subs (rx x) r') as Hother.
  { intros r' Hne. by apply (cursor_other hist subs x r r' k (Some (c + 1))). }
  assert (∀ f v, R !! f = Some v → recvs x !! f = Some v ∧ borrows v ≠ r) as HRs.
  { destruct HR as [[-> Hi]|(f & v & _ & Hf & Hv & ->)]; intros f' v' Hf'; [split; [done|by apply (Hi f')]|].
    apply lookup_delete_Some in Hf' as [Hne Hf']. split; [done|]. intros E. apply Hne. by apply (co_borrow _ _ _ Hx f f' v v' Hf Hf'); congruence. }
  assert (live hist subs' (rx x) <$> R = live hist subs (rx x) <$> R) as Elive.
  { apply live_readers_ext. intros f v Hf. apply Hother. by apply (HRs f v Hf). }
  assert (terminal_ok (bool_decide (senders x = 0)) (waiters (inner x)) (live hist subs (rx x) <$> R) (disconnecting x = true) ∧
    ∀ f w, about l ≠ Some f → parked hist subs f w x → set_parked (waiters (inner x)) (live hist subs (rx x) <$> R) f w) as [Hset Hpk].
  { destruct HR as [[-> _]|(f & v & Hl & Hf & Hv & ->)]; [by split; [apply Hx|]|]. rewrite fmap_delete. split.
    - apply terminal_drop; [apply Hx|]. change (live hist subs (rx x) <$> recvs x) with (tokens_of hist subs x).
      rewrite (tokens_lookup _ _ _ _ _ Hf). unfold live, cursor. rewrite Hv, Hr. simpl. rewrite Hk. simpl.
      apply lookup_lt_Some in Hm. rewrite decide_False; [done|lia].
    - intros f' w Hne. apply (parked_kept_same f); [|congruence]. intros j Hj. unfold tokens_of. by rewrite lookup_delete_ne. }
  exists hist, subs'. split; simpl; try done.
  - unfold subs'. split; simpl; try apply Hx; try done.
    + intros r' k' Hr'. apply lookup_insert_is_Some'. right. by apply (co_rx _ _ _ Hx r').
    + intros k' [<-|Hk']%lookup_insert_is_Some'; [by exists r|by apply (co_all _ _ _ Hx)].
    + intros f v Hf. apply HRs in Hf as [Hf _]. by apply (co_recvs _ _ _ Hx f).
    + intros f f' v v' Hf Hf'. apply HRs in Hf as [Hf _]. apply HRs in Hf' as [Hf' _]. by apply (co_borrow _ _ _ Hx).
    + unfold tokens_of. simpl. fold subs'. by rewrite Elive.
    + pose proof (co_cap _ _ _ Hx) as Hcap. destruct cap as [cp|]; [|done]. destruct Hcap as [Hcp Hfx]. destruct (Hfix Hfx) as [? ?].
      split; [|done]. pose proof (co_log _ _ _ Hx) as Hl0. rewrite (pre_retained _ _ _ (br_pre _ _ _ Hb)).
      rewrite (pre_retained _ _ _ (br_pre _ _ _ Hl0)) in Hcp. rewrite (bp_tail _ _ _ (br_pre _ _ _ Hb)).
      rewrite (bp_tail _ _ _ (br_pre _ _ _ Hl0)) in Hcp. lia.
  - by rewrite Hp, app_nil_r.
  - intros r' _. unfold receives. rewrite decide_False, Hg by congruence. destruct (decide (r = r')) as [<-|E]; simpl.
    + unfold cursor. rewrite Hr. simpl. unfold subs'. by rewrite lookup_insert_eq, Hk.
    + rewrite Hother by done. destruct (cursor _ _ _); simpl; [|done]. f_equal. lia.
  - rewrite Hg. intros r' m' [= <- <-]. exists c. split; [|done]. unfold cursor. by rewrite Hr.
  - intros f Hne. destruct HR as [[-> _]|(f' & v & Hl & _ & _ & ->)]; [done|]. rewrite lookup_delete_ne; [done|congruence].
  - intros f w Hne Hf. left. unfold parked, tokens_of. simpl. rewrite Elive. by apply Hpk.
Qed.

(** A publication: nobody is caught up any more, and everybody registered is woken. *)
Lemma effect_publish hist subs l x (b : Backlog T) (s : WakerSet) reg m o :
  chan_ok hist subs x → senders x ≠ 0 → backlog_rep b (hist ++ [m]) subs → keeps_fixed (log (inner x)) b →
  match cap with None => True | Some c => retained b <= c end →
  set_rep (waiters (inner x)) reg → woken o ≡ₚ (map_to_list reg).*2 → set_rep s ∅ →
  published l o = Some m → created l = None → got o = None →
  effect hist subs l x o (mkSys (mkInner b s) (senders x) (tx x) (disconnecting x) (rx x) (recvs x)).
Proof.
  intros Hx Hn Hb Hfix Hcap Hreg Hw Hs Hp Hc Hg. exists (hist ++ [m]), subs. split; simpl; try done.
  - split; simpl; try apply Hx; try done.
    + rewrite bool_decide_false by done. exists ∅. split_and!; [done| |done]. intros _. apply owned_none.
      intros f t. unfold tokens_of. simpl. rewrite lookup_fmap, fmap_Some. intros (v & Hv & ->).
      destruct (co_recvs _ _ _ Hx f v Hv) as [k Hk]. destruct (cursor_some _ _ _ _ _ Hx Hk) as (c & _ & Hcu & Hle).
      unfold live. rewrite Hcu. simpl. rewrite decide_False; [done|]. rewrite length_app. simpl. lia.
    + pose proof (co_cap _ _ _ Hx) as Hc0. destruct cap as [c|]; [|done]. destruct Hc0 as [Hc0 Hfx]. destruct (Hfix Hfx). split; [lia|done].
  - by rewrite Hp.
  - intros r _. unfold receives. rewrite decide_False, Hg by congruence. destruct (cursor _ _ _); simpl; [|done]. f_equal. lia.
  - by rewrite Hg.
  - intros f w _ (reg' & Hreg' & Hr). right. pose proof (set_rep_inj _ _ _ Hreg Hreg') as <-. by eapply registered_taken.
Qed.

(** The receivers change and the futures keep their cursors. *)
Lemma effect_receivers hist subs l x (b : Backlog T) subs' g o :
  chan_ok hist subs x → backlog_rep b hist subs' → keeps_fixed (log (inner x)) b → retained b <= retained (log (inner x)) →
  (∀ r k, g !! r = Some k → is_Some (subs' !! k)) → (∀ r r' k, g !! r = Some k → g !! r' = Some k → r = r') →
  (∀ k, is_Some (subs' !! k) → ∃ r, g !! r = Some k) →
  (∀ f v, recvs x !! f = Some v → is_Some (g !! borrows v) ∧ created l ≠ Some (borrows v)) →
  (∀ r, is_Some (g !! r) → cursor subs' g r = if decide (created l = Some r) then Some (Z.of_nat (length hist)) else cursor subs (rx x) r) →
  published l o = None → got o = None →
  effect hist subs l x o (mkSys (mkInner b (waiters (inner x))) (senders x) (tx x) (disconnecting x) g (recvs x)).
Proof.
  intros Hx Hb Hfix Hret Hrx Hinj Hall Hrv Hcur Hp Hg.
  assert (live hist subs' g <$> recvs x = live hist subs (rx x) <$> recvs x) as Elive.
  { apply live_readers_ext. intros f v Hf. destruct (Hrv f v Hf) as [Hi Hne]. rewrite Hcur by done. by rewrite decide_False. }
  exists hist, subs'. split; simpl; try done.
  - split; simpl; try apply Hx; try done; [intros f v Hf; by apply (Hrv f v)|unfold tokens_of; simpl; rewrite Elive; apply Hx|].
    pose proof (co_cap _ _ _ Hx) as Hc0. destruct cap as [c|]; [|done]. destruct Hc0 as [Hc0 Hfx]. destruct (Hfix Hfx). split; [lia|done].
  - by rewrite Hp, app_nil_r.
  - intros r Hr. rewrite Hcur by done. case_decide; [done|]. unfold receives. rewrite Hg. simpl. destruct (cursor _ _ _); simpl; [|done].
    f_equal. lia.
  - by rewrite Hg.
  - intros f w _ Hpk. left. unfold parked, tokens_of. simpl. by rewrite Elive.
Qed.

Lemma subscribe_ok hist subs l x r :
  chan_ok hist subs x → rx x !! r = None → arena_room (receivers (log (inner x))) → created l = Some r → published l silent = None →
  wp (subscribe r) x (effect hist subs l x).
Proof.
  intros Hx Hr Hroom Hc Hp. unfold subscribe. wp_auto. wp_apply subscribe_spec; [by apply Hx|done|].
  intros k b (Hk & Hb & Hcp & Hrt & _). wp_auto. unfold set_rx, set_inner, set_log. simpl.
  assert (∀ r', is_Some (<[r:=k]> (rx x) !! r') → r' = r ∨ (r' ≠ r ∧ <[r:=k]> (rx x) !! r' = rx x !! r' ∧ rx x !! r' ≠ Some k)) as Hcases.
  { intros r' Hr'. destruct (decide (r' = r)) as [->|Hne]; [by left|right]. rewrite lookup_insert_ne by done. split_and!; [done|done|].
    intros E. apply (co_rx _ _ _ Hx) in E as [? ?]. congruence. }
  apply (effect_receivers hist subs _ x _ (<[k:=Z.of_nat (length hist)]> subs)); try done.
  - intros Hfx. rewrite Hrt, Hcp. done.
  - rewrite (pre_retained _ _ _ (br_pre _ _ _ Hb)). pose proof (co_log _ _ _ Hx) as Hl. rewrite (pre_retained _ _ _ (br_pre _ _ _ Hl)).
    rewrite (rep_head _ _ _ Hb), (rep_head _ _ _ Hl), (bp_tail _ _ _ (br_pre _ _ _ Hb)), (bp_tail _ _ _ (br_pre _ _ _ Hl)).
    rewrite oldest_insert by done. rewrite <-(rep_head _ _ _ Hl). pose proof (bp_head _ _ _ (br_pre _ _ _ Hl)) as Hh.
    rewrite (bp_tail _ _ _ (br_pre _ _ _ Hl)) in Hh. lia.
  - intros r' k' Hr'. apply lookup_insert_is_Some'. apply lookup_insert_Some in Hr' as [[_ <-]|[_ Hr']]; [by left|right].
    by apply (co_rx _ _ _ Hx r').
  - intros r1 r2 k' H1 H2. destruct (Hcases r1) as [->|(Hn1 & E1 & Hk1)]; [by eexists| |];
      (destruct (Hcases r2) as [->|(Hn2 & E2 & Hk2)]; [by eexists| |]); [done| | |].
    + rewrite lookup_insert_eq in H1. injection H1 as <-. congruence.
    + rewrite lookup_insert_eq in H2. injection H2 as <-. congruence.
    + rewrite E1 in H1. rewrite E2 in H2. by eapply (co_inj _ _ _ Hx).
  - intros k' [<-|Hk']%lookup_insert_is_Some'; [exists r; apply lookup_insert_eq|]. destruct (co_all _ _ _ Hx k' Hk') as [r' Hr'].
    exists r'. rewrite lookup_insert_ne; [done|congruence].
  - intros f v Hf. destruct (co_recvs _ _ _ Hx f v Hf) as [k' Hk']. rewrite lookup_insert_ne by congruence. split; [by eexists|congruence].
  - intros r' Hr'. destruct (Hcases r' Hr') as [->|(Hne & E & Hk')].
    + rewrite decide_True by done. unfold cursor. rewrite lookup_insert_eq. simpl. by rewrite lookup_insert_eq.
    + rewrite decide_False by congruence. unfold cursor. rewrite E. destruct (rx x !! r') as [k'|] eqn:Er; [|done]. simpl.
      rewrite lookup_insert_ne; [done|congruence].
Qed.

Lemma receiver_drop_ok hist subs x r :
  chan_ok hist subs x → idle r x → wp (receiver_drop r) x (effect hist subs (ReceiverDrop r) x).
Proof.
  intros Hx [[k Hr] Hidle]. destruct (cursor_some _ _ _ _ _ Hx Hr) as (c & Hk & _ & _). unfold receiver_drop. wp_auto.
  eapply wp_expect; [done|]. wp_auto. wp_apply remove_receiver_spec; [by apply Hx|done|]. intros ms b (Hb & (_ & _ & Hfix) & Hh & _). wp_auto.
  unfold set_rx, set_inner, set_log. simpl. apply (effect_receivers hist subs _ x _ (delete k subs)); try done.
  - pose proof (co_log _ _ _ Hx) as Hl. rewrite (pre_retained _ _ _ (br_pre _ _ _ Hb)), (pre_retained _ _ _ (br_pre _ _ _ Hl)).
    rewrite (bp_tail _ _ _ (br_pre _ _ _ Hb)), (bp_tail _ _ _ (br_pre _ _ _ Hl)). lia.
  - intros r' k' [Hne Hr']%lookup_delete_Some. rewrite lookup_delete_ne; [by apply (co_rx _ _ _ Hx r')|].
    intros <-. by apply Hne, (co_inj _ _ _ Hx r r' k).
  - intros r1 r2 k' [_ H1]%lookup_delete_Some [_ H2]%lookup_delete_Some. by eapply (co_inj _ _ _ Hx).
  - intros k' [c' [Hne Hk']%lookup_delete_Some]. destruct (co_all _ _ _ Hx k') as [r' Hr']; [by eexists|]. exists r'.
    rewrite lookup_delete_ne; [done|]. congruence.
  - intros f v Hf. split; [|done]. rewrite lookup_delete_ne; [by apply (co_recvs _ _ _ Hx f)|]. intros E. by apply (Hidle f v Hf).
  - intros r' [k' [Hne Hr']%lookup_delete_Some]. rewrite decide_False by done.
    rewrite <-(cursor_other hist subs x r r' k None Hx Hr) by done. unfold cursor. by rewrite lookup_delete_ne.
Qed.

(** The rest of a publication once the log has the message. *)
Lemma wake_receivers_ok hist subs l x (b : Backlog T) m :
  chan_ok hist subs x → senders x ≠ 0 → backlog_rep b (hist ++ [m]) subs → keeps_fixed (log (inner x)) b →
  match cap with None => True | Some c => retained b <= c end →
  wp wake_receivers (set_log b (inner x)) (λ ws s', ∀ o,
    woken o = ws → published l o = Some m → created l = None → got o = None → effect hist subs l x o (set_inner s' x)).
Proof.
  intros Hx Hn Hb Hfix Hcap. destruct (co_set _ _ _ Hx) as (reg & Hreg & _). unfold wake_receivers. wp_auto.
  wp_apply set_take_all_spec; [exact Hreg|]. intros bt s' (us & Hbt & Hp & Hs'). wp_auto. wp_apply batch_wake_spec; [done|].
  intros us' s'' [-> ->] o Ho Hpub Hc Hg. by apply (effect_publish hist subs l x b s' reg m o); rewrite ?Ho.
Qed.

Lemma send_ok hist subs x h m :
  chan_ok hist subs x → enabled cap (Send h m) x = true →
  wp (send cap m) x (λ o x', effect hist subs (Send h m) x o x' ∧
    full o = match cap with
             | Some c => if decide (subs ≠ ∅ ∧ retained (log (inner x)) = c) then Some m else None
             | None => None
             end).
Proof.
  intros Hx He. apply andb_true_iff in He as [[Hh Ht]%bool_decide_eq_true Hc].
  assert (senders x ≠ 0) as Hn.
  { rewrite (co_tx _ _ _ Hx). intros E. assert (size (tx x) = 0)%nat as E' by lia. apply size_empty_inv in E'. set_solver. }
  pose proof (co_log _ _ _ Hx) as Hl. pose proof (co_cap _ _ _ Hx) as Hcp.
  pose proof (λ b Hb Hf Hcb, wake_receivers_ok hist subs (Send h m) x b m Hx Hn Hb Hf Hcb) as Hwake.
  unfold send. destruct cap as [c|]; wp_auto.
  - destruct Hcp as [Hcp Hfx]. unfold bounded_publish. wp_auto. rewrite (has_receivers_spec _ _ _ Hl).
    destruct (bool_decide_reflect (subs ≠ ∅)) as [Hne|Hne]; cbn [negb].
    + case_bool_decide as Er.
      * wp_auto. assert (set_inner (inner x) x = x) as -> by (by destruct x).
        split; [by apply effect_quiet|]. simpl. by rewrite decide_True.
      * wp_auto. wp_apply publish_retained_spec; [done|done|done|left; lia|]. intros _ b (Hb & _ & _ & Hf & Hr). apply wp_bind.
        eapply wp_mono; [eapply Hwake; [exact Hb|done|lia]|]. intros ws s' Hef. wp_auto. split; [by apply Hef|]. simpl.
        rewrite decide_False; naive_solver.
    + apply dec_stable in Hne as ->. wp_auto. wp_apply (publish_discarded_spec _ _ m); [done|done|]. intros _ b (Hb & _ & _ & Hf).
      apply wp_bind. eapply wp_mono; [eapply Hwake; [exact Hb|done|]|].
      { rewrite (rep_unread _ _ Hb). unfold retained in Hcp. lia. }
      intros ws s' Hef. wp_auto. split; [by apply Hef|]. simpl. rewrite decide_False; naive_solver.
  - apply bool_decide_eq_true in Hc. unfold unbounded_send. wp_auto. wp_apply publish_spec; [done|done|by right|].
    intros r b (_ & Hb & _ & _ & Hf). eapply wp_mono; [eapply Hwake; [exact Hb|done|done]|]. intros ws s' Hef. wp_auto.
    split; [by apply Hef|done].
Qed.

Lemma try_recv_ok hist subs x r :
  chan_ok hist subs x → idle r x →
  wp (try_recv r) x (λ o x', effect hist subs (TryRecv r) x o x' ∧
    match cursor subs (rx x) r ≫= (λ c, hist !! Z.to_nat c) with
    | Some m => failed o = None ∧ ∃ fl, got o = Some (r, mkReceived m fl)
    | None => got o = None ∧ failed o = Some (if decide (senders x = 0) then TryDisconnected else TryEmpty)
    end).
Proof.
  intros Hx [[k Hr] Hidle]. destruct (cursor_some _ _ _ _ _ Hx Hr) as (c & Hk & Hcu & _). rewrite Hcu. simpl.
  unfold try_recv. wp_auto. eapply wp_expect; [done|]. wp_auto. unfold try_receive. wp_auto.
  wp_apply receive_spec; [by apply Hx|done|]. intros a b. destruct (hist !! Z.to_nat c) as [m|] eqn:Em.
  - intros (-> & Hb & Hs & Hh). wp_auto. split; [|split; [done|by eexists]].
    eapply (effect_receive hist subs (TryRecv r) x r k c m); try done. by left.
  - intros [-> ->]. assert (set_inner (set_log (log (inner x)) (inner x)) x = x) as Ex by (destruct x as [[]]; done).
    case_bool_decide as E; wp_auto; rewrite Ex; (split; [by apply effect_quiet|]); simpl;
      [by rewrite decide_True|by rewrite decide_False].
Qed.

Lemma poll_recv_ok hist subs x f v cx :
  chan_ok hist subs x → recvs x !! f = Some v → set_room (waiters (inner x)) →
  wp (poll_recv f cx) x (λ o x', effect hist subs (RecvPoll f cx) x o x' ∧
    match cursor subs (rx x) (borrows v) ≫= (λ c, hist !! Z.to_nat c) with
    | Some m => failed o = None ∧ ∃ fl, got o = Some (borrows v, mkReceived m fl)
    | None => got o = None ∧
        if decide (senders x = 0) then failed o = Some TryDisconnected
        else failed o = None ∧ parked hist subs f cx x' ∧ chan_ok hist subs x' ∧
          (∃ tk, recvs x' !! f = Some (mkRecv (borrows v) tk)) ∧ rx x' = rx x
    end).
Proof.
  intros Hx Hf Hroom. destruct (co_recvs _ _ _ Hx f v Hf) as [k Hr].
  destruct (cursor_some _ _ _ _ _ Hx Hr) as (c & Hk & Hcu & Hle). rewrite Hcu. simpl.
  pose proof (tokens_lookup hist subs x f v Hf) as Htk.
  unfold poll_recv. wp_auto. eapply wp_expect; [done|]. wp_auto. eapply wp_expect; [done|]. wp_auto. unfold poll_receive. wp_auto.
  wp_apply receive_spec; [by apply Hx|done|]. intros a b. destruct (hist !! Z.to_nat c) as [m|] eqn:Em.
  { intros (-> & Hb & Hs & Hh). wp_auto. split; [|split; [done|by eexists]].
    eapply (effect_receive hist subs (RecvPoll f cx) x (borrows v) k c m); try done. right. by exists f, v. }
  intros [-> ->]. assert (c = Z.of_nat (length hist)) as Ec.
  { apply lookup_ge_None_1 in Em. pose proof (bp_subs _ _ _ (br_pre _ _ _ (co_log _ _ _ Hx)) _ _ Hk).
    pose proof (bp_head _ _ _ (br_pre _ _ _ (co_log _ _ _ Hx))). lia. }
  assert (∀ tk, live hist subs (rx x) (mkRecv (borrows v) tk) = tk) as Elive.
  { intros tk. unfold live. simpl. rewrite Hcu. simpl. by rewrite decide_True. }
  assert (live hist subs (rx x) v = token v) as Elv by (destruct v; apply Elive).
  pose proof (co_set _ _ _ Hx) as Hset. case_bool_decide as En; wp_auto.
  - rewrite decide_True by done. split; [|done]. unfold set_recvs, set_inner, set_log. simpl.
    exists hist, subs. apply (moves_future hist subs (RecvPoll f cx) x f); try done.
    + intros j Hj. by rewrite lookup_delete_ne.
    + intros u. by rewrite lookup_delete_eq.
    + rewrite fmap_delete, bool_decide_true by done. by eapply terminal_void.
    + apply parked_kept_same. intros j Hj. unfold tokens_of. by rewrite !lookup_fmap, lookup_delete_ne.
  - rewrite Elv in Htk.
    wp_apply terminal_register; [exact Hset|done|exact Htk|]. intros [tk ?] s' (Hset' & Hpk & Hkept). wp_auto.
    rewrite decide_False by done. simpl in *.
    assert (live hist subs (rx x) <$> <[f:=mkRecv (borrows v) tk]> (recvs x) = <[f:=tk]> (tokens_of hist subs x)) as El
      by (by rewrite fmap_insert, Elive).
    assert (moves hist subs (RecvPoll f cx) x silent hist subs
      (mkSys (mkInner (log (inner x)) s') (senders x) (tx x) (disconnecting x) (rx x) (<[f:=mkRecv (borrows v) tk]> (recvs x)))) as Hef.
    { apply (moves_future hist subs (RecvPoll f cx) x f); try done.
      - intros j Hj. by rewrite lookup_insert_ne.
      - intros u. rewrite lookup_insert_eq. intros [= <-]. simpl. split; [by eexists|]. intros j u Hne Hj E. apply Hne.
        by apply (co_borrow _ _ _ Hx j f u v).
      - rewrite El, bool_decide_false by done. done.
      - by rewrite El. }
    split; [by exists hist, subs|]. split_and!; [done|done| |by apply Hef|exists tk; apply lookup_insert_eq|done].
    + unfold parked, tokens_of. simpl. by rewrite El.
Qed.

Lemma recv_drop_ok hist subs x f v :
  chan_ok hist subs x → recvs x !! f = Some v → wp (recv_drop f) x (effect hist subs (RecvDrop f) x).
Proof.
  intros Hx Hf. destruct (co_recvs _ _ _ Hx f v Hf) as [k Hr]. destruct (cursor_some _ _ _ _ _ Hx Hr) as (c & Hk & Hcu & Hle).
  pose proof (tokens_lookup hist subs x f v Hf) as Htk. pose proof (co_set _ _ _ Hx) as Hset.
  assert (∀ ws, terminal_ok (bool_decide (senders x = 0)) ws (delete f (tokens_of hist subs x)) (disconnecting x = true) →
    parked_kept f (waiters (inner x)) (tokens_of hist subs x) ws (delete f (tokens_of hist subs x)) →
    effect hist subs (RecvDrop f) x silent (mkSys (mkInner (log (inner x)) ws) (senders x) (tx x) (disconnecting x) (rx x) (delete f (recvs x))))
    as Hef.
  { intros ws H1 H2. exists hist, subs. apply (moves_future hist subs (RecvDrop f) x f); rewrite ?fmap_delete; try done.
    - intros j Hj. by rewrite lookup_delete_ne.
    - intros u. by rewrite lookup_delete_eq. }
  assert (live hist subs (rx x) v = None ∨ senders x = 0 →
    effect hist subs (RecvDrop f) x silent (set_recvs (delete f (recvs x)) x)) as Hvoid.
  { intros Hv. destruct x as [[b ws] n t d g R]. apply Hef.
    - destruct Hv as [Hv|Hv]; [apply terminal_drop; [done|by rewrite Htk, Hv]|]. rewrite bool_decide_true in * by done.
      by eapply terminal_void.
    - apply parked_kept_same. intros j Hj. by rewrite lookup_delete_ne. }
  unfold recv_drop. wp_auto. eapply wp_expect; [done|]. wp_auto. eapply wp_expect; [done|]. wp_auto.
  destruct (token v) as [t|] eqn:Et; wp_auto.
  - unfold unregister. wp_auto. wp_apply unread_spec; [by apply (co_log _ _ _ Hx)|done|]. intros n b [-> ->].
    assert (set_log (log (inner x)) (inner x) = inner x) as -> by (by destruct (inner x)).
    assert (set_inner (inner x) x = x) as Ex by (by destruct x).
    destruct (bool_decide_reflect (Z.of_nat (length hist) - c ≠ 0)) as [Hu|Hu]; cbn [orb].
    { wp_auto. rewrite Ex. apply Hvoid. left. unfold live. rewrite Hcu. simpl. rewrite decide_False; [done|lia]. }
    destruct (bool_decide_reflect (senders x = 0)) as [Hz|Hz]; wp_auto; [rewrite Ex; apply Hvoid; by right|].
    assert (live hist subs (rx x) v = Some t) as El by (unfold live; rewrite Hcu; simpl; rewrite decide_True; [done|lia]).
    rewrite El in Htk. wp_apply terminal_unregister; [exact Hset|exact Htk|]. intros r s' [H1 H2]. wp_auto. by apply Hef.
  - apply Hvoid. left. unfold live. rewrite Hcu, Et. simpl. by destruct (decide _).
Qed.

Lemma senders_ok hist subs l x :
  (∃ h h', l = SenderClone h h') ∨ (∃ h, l = SenderDrop h) ∨ l = Disconnect →
  chan_ok hist subs x → enabled cap l x = true → wp (exec cap l) x (effect hist subs l x).
Proof.
  intros Hl Hx He. pose proof (co_tx _ _ _ Hx) as Htx. pose proof (co_max _ _ _ Hx) as Hmax. pose proof (co_last _ _ _ Hx) as Hlast.
  destruct Hl as [(h & h' & ->)|[(h & ->)| ->]]; simpl in He; unfold exec; wp_auto.
  - apply enabled_and in He as [[Hh Hh'] Hlt].
    assert (size ({[h']} ∪ tx x) = S (size (tx x))) as Hsz by (rewrite size_union, size_singleton by set_solver; lia).
    assert (0 < size (tx x))%nat by (by eapply size_pos_elem).
    unfold wrapping_add. rewrite Z.mod_small by (unfold isize_max, usize_max in *; lia).
    apply (effect_senders hist subs _ x); try done; try lia. intros E%Hlast. lia.
  - apply bool_decide_eq_true in He. assert (0 < size (tx x))%nat as Hpos by (by eapply size_pos_elem).
    assert (size (tx x ∖ {[h]}) = size (tx x) - 1)%nat as Hsz by (rewrite size_difference by set_solver; by rewrite size_singleton).
    unfold sender_drop. wp_auto. unfold wrapping_add. rewrite Z.mod_small by (unfold isize_max, usize_max in *; lia).
    apply (effect_senders hist subs _ x); try done; try lia.
    + intros [E%bool_decide_eq_true|E]%orb_true_iff; [lia|apply Hlast in E; lia].
    + intros ->. by rewrite orb_true_r.
    + intros E. right. rewrite bool_decide_true by lia. done.
  - unfold disconnect. wp_auto. simpl. exists hist, subs. split; simpl; try done.
    + split; simpl; try apply Hx; try done. rewrite bool_decide_true by auto. apply terminal_notified.
    + by rewrite app_nil_r.
    + intros r _. unfold receives. simpl. destruct (cursor _ _ _); simpl; [|done]. f_equal. lia.
    + intros f w _ Hpk. right. by eapply parked_woken.
Qed.

Lemma broadcast_exec_ok hist subs l x :
  chan_ok hist subs x → enabled cap l x = true → wp (exec cap l) x (effect hist subs l x).
Proof.
  intros Hx He. destruct l as [h h'|h| |h m|h r|r r'|r|r|r f|f cx|f|r|h].
  - apply senders_ok; by eauto.
  - apply senders_ok; by eauto.
  - apply senders_ok; by eauto.
  - unfold exec. wp_auto. wp_apply send_ok; [done|done|]. by intros o x' [].
  - apply enabled_and in He as [[_ Hr] Hroom]. unfold exec. wp_auto. by apply subscribe_ok.
  - apply enabled_and in He as [[_ Hr] Hroom]. unfold exec. wp_auto. by apply subscribe_ok.
  - apply bool_decide_eq_true in He. unfold exec. wp_auto. by apply receiver_drop_ok.
  - apply bool_decide_eq_true in He. unfold exec. wp_auto. wp_apply try_recv_ok; [done|done|]. by intros o x' [].
  - apply enabled_and in He as [[Hr Hi] Hf]. unfold exec. wp_auto. destruct x as [[b ws] n t d g R]. simpl in *.
    exists hist, subs. apply (moves_future hist subs _ (mkSys (mkInner b ws) n t d g R) f); try done.
    + intros j Hj. by rewrite lookup_insert_ne.
    + intros u. rewrite lookup_insert_eq. intros [= <-]. simpl. split; [done|]. intros j u _ Hj. by apply (Hi j u).
    + simpl. rewrite fmap_insert.
      assert (live hist subs g (mkRecv r None) = None) as -> by (unfold live; destruct (cursor _ _ _); [simpl; by case_decide|done]).
      apply terminal_fresh; [apply Hx|]. by rewrite lookup_fmap, Hf.
    + apply parked_kept_same. intros j Hj. unfold tokens_of. simpl. by rewrite !lookup_fmap, lookup_insert_ne.
  - apply enabled_and in He as [[v Hv] ?]. unfold exec. wp_auto. wp_apply poll_recv_ok; [done..|]. by intros o x' [].
  - apply bool_decide_eq_true in He as [v Hv]. unfold exec. wp_auto. by eapply recv_drop_ok.
  - apply bool_decide_eq_true in He as [k Hk]. destruct (cursor_some _ _ _ _ _ Hx Hk) as (c & Hc & _). unfold exec. wp_auto.
    eapply wp_expect; [done|]. wp_auto. wp_apply unread_spec; [by apply (co_log _ _ _ Hx)|done|]. intros n b [-> ->]. wp_auto.
    assert (set_inner (set_log (log (inner x)) (inner x)) x = x) as -> by (destruct x as [[]]; done). by apply effect_quiet.
  - unfold exec. wp_auto. by apply effect_quiet.
Qed.
End invariant.

(** ** Theorems *)
Section theorems.
Context {T : Type} (cap : option Z).
Implicit Types (x : Sys T) (l : Label T) (hist : list T) (subs : gmap SlotId Z) (r f : nat) (w : Waker) (o : Obs T) (v : Recv).

Lemma channel_ok x : channel cap = Some x → chan_ok cap [] {[1%positive := 0]} x.
Proof.
  pose proof max_slots_bounds as (H4 & _).
  assert (∀ (b : Backlog T) y, backlog_rep b [] ∅ → receivers b = arena_new →
    match cap with None => True | Some c => 0 < c <= capacity b ∧ retention b = Fixed end →
    match with_first_subscription b with
    | Ret (s, key) _ => Some (mkSys s 1 {[0%nat]} false {[0%nat := key]} ∅)
    | Panic _ _ => None
    end = Some y → chan_ok cap [] {[1%positive := 0]} y) as Hopen.
  { intros b y Hb Ha Hcap. assert (arena_room (receivers b)) as Hroom by (by rewrite Ha).
    pose proof (wp_elim _ _ _ (λ _ _, False) (subscribe_spec _ _ _ Hb Hroom)) as Hsub.
    unfold with_first_subscription. destruct (Backlog.subscribe b) as [k b'|e b'] eqn:Es; [|done]. intros [= <-].
    assert (k = 1%positive) as ->.
    { unfold Backlog.subscribe in Es. unfold mbind, M_bind, get, put, in_receivers, zoom in Es. simpl in Es.
      destruct (add_int _ _ _ _) as [n b0|] eqn:Ea in Es; [|done]. simpl in Es. rewrite Ha in Es. by injection Es. }
    destruct Hsub as (_ & Hb' & Hc' & Hr' & _). simpl in Hb'. split; simpl; try done.
    - intros r k [<- <-]%lookup_singleton_Some. rewrite lookup_singleton_eq. by eexists.
    - intros r r' k [<- <-]%lookup_singleton_Some [<- _]%lookup_singleton_Some. done.
    - intros k [d [<- _]%lookup_singleton_Some]. exists 0%nat. apply lookup_singleton_eq.
    - apply terminal_new.
    - destruct cap as [c|]; [|done]. rewrite Hc', Hr'. split; [|apply Hcap].
      rewrite (pre_retained _ _ _ (br_pre _ _ _ Hb')). pose proof (bp_tail _ _ _ (br_pre _ _ _ Hb')).
      pose proof (bp_head _ _ _ (br_pre _ _ _ Hb')). simpl in *. lia. }
  unfold channel. destruct cap as [c|]; simpl.
  - case_bool_decide as Hc; [|done]. apply (Hopen (fixed c)); [apply backlog_new_rep; [lia|done]|done|]. simpl. split; [lia|done].
  - apply (Hopen elastic); [|done|done]. apply backlog_new_rep; [lia|done].
Qed.

(** What receiver [r] could read at most and what it has read, since it was made. *)
Definition view_step r (p : list T * list T) (e : Label T * Obs T) : list T * list T :=
  if decide (created e.1 = Some r) then ([], [])
  else (p.1 ++ option_list (published e.1 e.2), p.2 ++ receives r e.2).
Definition view r (tr : list (Label T * Obs T)) : list T * list T := foldl (view_step r) ([], []) tr.

(** The unread messages of a receiver. *)
Definition unread_of x r : option Z :=
  k ← rx x !! r; c ← get_slot (receivers (log (inner x))) k; Some (tail (log (inner x)) - c).

Definition view_ok tr x : Prop := ∃ hist subs, chan_ok cap hist subs x ∧
  ∀ r c, cursor subs (rx x) r = Some c → ∃ start, 0 <= start <= c ∧ (view r tr).1 = drop (Z.to_nat start) hist ∧
    (view r tr).2 = take (Z.to_nat (c - start)) (drop (Z.to_nat start) hist).

Lemma unread_of_cursor hist subs x r :
  chan_ok cap hist subs x → unread_of x r = (λ c, Z.of_nat (length hist) - c) <$> cursor subs (rx x) r.
Proof.
  intros Hx. unfold unread_of, cursor. destruct (rx x !! r) as [k|]; [|done]. simpl.
  pose proof (br_pre _ _ _ (co_log _ _ _ _ Hx)) as Hp. rewrite (get_receiver _ _ _ _ Hp), (bp_tail _ _ _ Hp). by destruct (subs !! k).
Qed.

Lemma cursor_range hist subs x r c :
  chan_ok cap hist subs x → cursor subs (rx x) r = Some c → 0 <= c <= Z.of_nat (length hist).
Proof.
  intros Hx. unfold cursor. destruct (rx x !! r) as [k|]; [|done]. simpl. intros Hk.
  pose proof (br_pre _ _ _ (co_log _ _ _ _ Hx)) as Hp. apply (bp_subs _ _ _ Hp) in Hk. pose proof (bp_head _ _ _ Hp).
  pose proof (bp_tail _ _ _ Hp). lia.
Qed.

Lemma view_step_ok tr x l :
  view_ok tr x → enabled cap l x = true → wp (exec cap l) x (λ o x', view_ok (tr ++ [(l, o)]) x').
Proof.
  intros (hist & subs & Hx & Hv) He. wp_apply broadcast_exec_ok; [done|done|]. intros o x' (hist' & subs' & Hm).
  exists hist', subs'. split; [by apply Hm|]. intros r c' Hc'. pose proof (mo_hist _ _ _ _ _ _ _ _ _ Hm) as ->.
  assert (is_Some (rx x' !! r)) as Hr.
  { unfold cursor in Hc'. destruct (rx x' !! r); [by eexists|done]. }
  rewrite (mo_cursor _ _ _ _ _ _ _ _ _ Hm r Hr) in Hc'. unfold view. rewrite foldl_snoc. fold (view r tr).
  unfold view_step. simpl. case_decide as Ecr; simpl.
  - injection Hc' as <-. exists (Z.of_nat (length hist)). rewrite Z.sub_diag, take_0, Nat2Z.id.
    assert (published l o = None) as -> by (by destruct l). rewrite app_nil_r, drop_all. split_and!; [lia|done..].
  - apply fmap_Some in Hc' as (c & Hc & ->). destruct (Hv r c Hc) as (start & Hs & -> & ->).
    pose proof (cursor_range _ _ _ _ _ Hx Hc). exists start. split; [lia|]. rewrite drop_app_le by lia. split; [done|].
    unfold receives. destruct (got o) as [[r' m]|] eqn:Eg; simpl.
    + destruct (mo_got _ _ _ _ _ _ _ _ _ Hm r' m Eg) as (c0 & Hc0 & Hm0). case_decide as Er; simpl.
      * subst r'. rewrite Hc in Hc0. injection Hc0 as <-. rewrite take_app_le by (apply lookup_lt_Some in Hm0; rewrite length_drop; lia).
        replace (Z.to_nat (c + Z.of_nat 1 - start)) with (S (Z.to_nat (c - start))) by lia. symmetry. apply take_S_r.
        rewrite lookup_drop. by replace (Z.to_nat start + Z.to_nat (c - start))%nat with (Z.to_nat c) by lia.
      * rewrite app_nil_r, Z.add_0_r, take_app_le; [done|]. rewrite length_drop. lia.
    + rewrite app_nil_r, Z.add_0_r, take_app_le; [done|]. rewrite length_drop. lia.
Qed.

Lemma view_run_ok x0 ls tr x :
  channel cap = Some x0 → returns (run (enabled cap) (exec cap) ls) x0 tr x → view_ok tr x.
Proof.
  intros H0 Hr. change tr with ([] ++ tr). eapply (run_trace_invariant (enabled cap) (exec cap)); [|..|exact Hr].
  - intros tr' y l. apply view_step_ok.
  - exists [], {[1%positive := 0]}. split; [by apply channel_ok|]. intros r c Hc. exists 0.
    apply (cursor_range [] _ x0) in Hc; [|by apply channel_ok]. simpl in Hc. split; [lia|]. unfold view. simpl.
    by rewrite ?drop_nil, ?take_nil.
Qed.

Lemma senders_gone hist subs x : chan_ok cap hist subs x → senders x = 0 ↔ tx x = ∅.
Proof.
  intros Hx. rewrite (co_tx _ _ _ _ Hx). split; [|intros ->; by rewrite size_empty]. intros E.
  apply leibniz_equiv, size_empty_iff. lia.
Qed.

(** C4: every receiver reads exactly the messages sent since it subscribed, in the order of the
    sends, none lost and none twice: at any time what it has read is a prefix of what was sent, the
    unread count is the rest, and its next receive returns the first message of the rest; with
    nothing left it reports an empty channel while a sender lives and a disconnected one
    afterwards.  No operation panics. *)
Theorem broadcast_delivers_in_order x0 ls tr x r o x' :
  channel cap = Some x0 → returns (run (enabled cap) (exec cap) ls) x0 tr x →
  enabled cap (TryRecv r) x = true → returns (exec cap (TryRecv r)) x o x' →
  no_panic (enabled cap) (exec cap) x ∧ ∃ pending, (view r tr).1 = (view r tr).2 ++ pending ∧ unread_of x r = Some (Z.of_nat (length pending)) ∧
    match pending with
    | m :: _ => failed o = None ∧ ∃ fl, got o = Some (r, mkReceived m fl)
    | [] => got o = None ∧ failed o = Some (if decide (tx x = ∅) then TryDisconnected else TryEmpty)
    end.
Proof.
  intros H0 Hr He Hx'. destruct (view_run_ok _ _ _ _ H0 Hr) as (hist & subs & Hx & Hv).
  split; [apply (no_panic_wp _ _ _ _ (λ l, broadcast_exec_ok cap hist subs l x Hx))|]. apply bool_decide_eq_true in He. assert (wp (exec cap (TryRecv r)) x (λ o _,
    match cursor subs (rx x) r ≫= (λ c, hist !! Z.to_nat c) with
    | Some m => failed o = None ∧ ∃ fl, got o = Some (r, mkReceived m fl)
    | None => got o = None ∧ failed o = Some (if decide (senders x = 0) then TryDisconnected else TryEmpty)
    end)) as Hwp.
  { unfold exec. wp_auto. wp_apply try_recv_ok; [exact Hx|done|]. by intros ? ? []. }
  apply (wp_returns_elim _ _ _ _ _ Hwp) in Hx'. destruct He as [[k Hk] _].
  destruct (cursor_some _ _ _ _ _ _ Hx Hk) as (c & _ & Hc & Hle). destruct (Hv r c Hc) as (start & Hs & E1 & E2).
  rewrite (unread_of_cursor _ _ _ _ Hx), Hc in *. simpl in *. exists (drop (Z.to_nat c) hist). rewrite E1, E2. split_and!.
  - rewrite <-(take_drop (Z.to_nat (c - start)) (drop (Z.to_nat start) hist)) at 1. rewrite drop_drop. do 2 f_equal. lia.
  - rewrite length_drop. f_equal. lia.
  - destruct (hist !! Z.to_nat c) as [m|] eqn:Em; [by rewrite (drop_S _ _ _ Em)|]. rewrite drop_ge by (by apply lookup_ge_None).
    destruct Hx' as [-> ->]. split; [done|]. f_equal. apply decide_ext. by eapply senders_gone.
Qed.

(** A receiver is never left waiting: its future is ready exactly when it has an unread message
    or every sender is gone, and a future that polled pending with a waker and has not been polled
    since is woken through it once a message was sent or the last sender has disconnected. *)
Theorem broadcast_no_lost_wakeup x0 ls tr x f v cx o x1 ls' tr' x' :
  channel cap = Some x0 → returns (run (enabled cap) (exec cap) ls) x0 tr x → recvs x !! f = Some v →
  enabled cap (RecvPoll f cx) x = true → returns (exec cap (RecvPoll f cx)) x o x1 →
  (is_Some (got o) ↔ unread_of x (borrows v) ≠ Some 0) ∧
  (failed o = if decide (unread_of x (borrows v) = Some 0 ∧ tx x = ∅) then Some TryDisconnected else None) ∧
  (got o = None → failed o = None → Forall (λ l, bool_decide (about l ≠ Some f) = true) ls' →
    returns (run (enabled cap) (exec cap) ls') x1 tr' x' →
    unread_of x' (borrows v) ≠ Some 0 ∨ (tx x' = ∅ ∧ disconnecting x' = false) → Exists (λ e, cx ∈ woken e.2) tr').
Proof.
  intros H0 Hr Hf He Hx1. destruct (view_run_ok _ _ _ _ H0 Hr) as (hist & subs & Hx & _). apply enabled_and in He as [_ Hroom].
  assert (wp (exec cap (RecvPoll f cx)) x (λ o x', effect cap hist subs (RecvPoll f cx) x o x' ∧
    match cursor subs (rx x) (borrows v) ≫= (λ c, hist !! Z.to_nat c) with
    | Some m => failed o = None ∧ ∃ fl, got o = Some (borrows v, mkReceived m fl)
    | None => got o = None ∧
        if decide (senders x = 0) then failed o = Some TryDisconnected
        else failed o = None ∧ parked hist subs f cx x' ∧ chan_ok cap hist subs x' ∧
          (∃ tk, recvs x' !! f = Some (mkRecv (borrows v) tk)) ∧ rx x' = rx x
    end)) as Hwp.
  { unfold exec. wp_auto. by apply poll_recv_ok. }
  pose proof (wp_returns_elim _ _ _ _ _ Hwp Hx1) as Ha. destruct Ha as [_ Ha]. clear Hwp Hx1. destruct (co_recvs _ _ _ _ Hx f v Hf) as [k Hk].
  destruct (cursor_some _ _ _ _ _ _ Hx Hk) as (c & _ & Hc & Hle). pose proof (cursor_range _ _ _ _ _ Hx Hc).
  rewrite Hc in Ha. simpl in Ha. rewrite (unread_of_cursor _ _ _ _ Hx), Hc. simpl. pose proof (senders_gone _ _ _ Hx) as Hsg.
  destruct (hist !! Z.to_nat c) as [m|] eqn:Em.
  { destruct Ha as [-> [fl ->]]. apply lookup_lt_Some in Em. split_and!; [|rewrite decide_False; [done|]|done].
    - split; [intros _ [= ?]; lia|by eexists].
    - intros [[= ?] _]. lia. }
  apply lookup_ge_None in Em. destruct Ha as [-> Ha]. split; [split; [by intros [? ?]|intros []; f_equal; lia]|].
  case_decide as Ez; [rewrite Ha; split; [rewrite decide_True; [done|]; split; [f_equal; lia|tauto]|done]|].
  destruct Ha as (-> & Hpk & Hx1 & (tk & Htk) & Erx). split; [rewrite decide_False; [done|]; tauto|].
  intros _ _ Hab Hr' Hend.
  edestruct (run_promise (enabled cap) (exec cap) (λ y, ∃ hist subs, chan_ok cap hist subs y)
    (λ y, ∃ hist subs, chan_ok cap hist subs y ∧ parked hist subs f cx y ∧ recvs y !! f = Some (mkRecv (borrows v) tk)) (λ o, cx ∈ woken o)
    (λ l, bool_decide (about l ≠ Some f)) ls' x1) as [(hist' & subs' & Hx' & Hpk' & Hf')|H']; [|by eauto|by eauto|done|exact Hr'| |exact H'].
  - intros y l (h & sb & Hy) Hl Hab'%bool_decide_eq_true. apply wp_impl.
    + wp_apply broadcast_exec_ok; [exact Hy|done|]. intros o' y' (h' & sb' & Hm). exists h', sb'. apply Hm.
    + intros (h0 & sb0 & Hy0 & Hp0 & Hf0). wp_apply broadcast_exec_ok; [exact Hy0|done|]. intros o' y' (h' & sb' & Hm).
      destruct (mo_parked _ _ _ _ _ _ _ _ _ Hm f cx Hab' Hp0) as [Hp'|Hw]; [left|by right]. exists h', sb'.
      split_and!; [by apply Hm|done|]. by rewrite (mo_recvs _ _ _ _ _ _ _ _ _ Hm f Hab').
  - exfalso. rewrite (unread_of_cursor _ _ _ _ Hx') in Hend. destruct Hend as [Hne|[Htx Hd]].
    + destruct Hpk' as (reg & Hreg & t & Ht & Hw). rewrite (tokens_lookup _ _ _ _ _ Hf') in Ht. injection Ht as Ht.
      unfold live in Ht. simpl in Ht. destruct (cursor subs' (rx x') (borrows v)) as [c'|]; [|done]. simpl in Ht, Hne.
      case_decide; [|done]. apply Hne. f_equal. lia.
    + pose proof (co_set _ _ _ _ Hx') as Hset. rewrite bool_decide_true in Hset by (by eapply senders_gone).
      apply (terminal_none_parked _ _ _ _ _ Hset) in Hpk'; [done|congruence].
Qed.

(** C29: the backlog never holds more than it must: the messages retained are those the slowest
    receiver has not read; a bounded channel never retains more than its capacity, and a send is
    refused exactly when somebody is subscribed and the capacity is used up, with the message given
    back. *)
Theorem broadcast_retains_unread x0 ls tr x h m o x' :
  channel cap = Some x0 → returns (run (enabled cap) (exec cap) ls) x0 tr x →
  enabled cap (Send h m) x = true → returns (exec cap (Send h m)) x o x' →
  let n := retained (log (inner x)) in
  (∀ r k, unread_of x r = Some k → 0 <= k <= n) ∧ (n = 0 ∨ ∃ r, unread_of x r = Some n) ∧
  match cap with
  | None => full o = None
  | Some c => n <= c ∧ full o = if decide (rx x ≠ ∅ ∧ n = c) then Some m else None
  end.
Proof.
  intros H0 Hr He Hx' n. destruct (view_run_ok _ _ _ _ H0 Hr) as (hist & subs & Hx & _).
  pose proof (co_log _ _ _ _ Hx) as Hl. pose proof (br_pre _ _ _ Hl) as Hp. pose proof (pre_retained _ _ _ Hp) as Hn. fold n in Hn.
  pose proof (bp_tail _ _ _ Hp) as Ht. split_and!.
  - intros r k. rewrite (unread_of_cursor _ _ _ _ Hx). intros (c & Hc & ->)%fmap_Some. unfold cursor in Hc.
    destruct (rx x !! r) as [j|]; [|done]. simpl in Hc. apply (bp_subs _ _ _ Hp) in Hc. lia.
  - destruct (br_front _ _ _ Hl) as [?|[j Hj]]; [left; lia|right]. destruct (co_all _ _ _ _ Hx j) as [r Hr']; [by eexists|].
    exists r. rewrite (unread_of_cursor _ _ _ _ Hx). unfold cursor. rewrite Hr'. simpl. rewrite Hj. simpl. f_equal. lia.
  - assert (wp (exec cap (Send h m)) x (λ o _, full o = match cap with
      | Some c => if decide (subs ≠ ∅ ∧ retained (log (inner x)) = c) then Some m else None | None => None end)) as Hwp.
    { unfold exec. wp_auto. wp_apply (send_ok cap hist subs x h m); [done|done|]. by intros ? ? []. }
    apply (wp_returns_elim _ _ _ _ _ Hwp) in Hx'. rewrite Hx'. pose proof (co_cap _ _ _ _ Hx) as Hc. destruct cap as [c|]; [|done].
    split; [apply Hc|]. apply decide_ext. fold n. assert (subs ≠ ∅ ↔ rx x ≠ ∅) as ->; [|done]. split; intros H E; apply H.
    + apply map_empty. intros j. destruct (subs !! j) eqn:Ej; [|done]. destruct (co_all _ _ _ _ Hx j) as [r Hr']; [by eexists|].
      by rewrite E, lookup_empty in Hr'.
    + apply map_empty. intros r. destruct (rx x !! r) as [j|] eqn:Er; [|done]. apply (co_rx _ _ _ _ Hx) in Er as [? Er].
      by rewrite E, lookup_empty in Er.
Qed.
End theorems.

(** A late subscriber reads the second message only. *)
Definition two_readers : list (Label nat) :=
  [Send 0 10%nat; Subscribe 0 1; Send 0 20%nat; TryRecv 0; RecvStart 0 7; RecvPoll 7 70%nat].
Definition chan_after (cap : option Z) (ls : list (Label nat)) : Sys nat :=
  match channel (T:=nat) cap with
  | Some x => match run (enabled cap) (exec cap) ls x with Ret _ x | Panic _ x => x end
  | None => mkSys (mkInner elastic wakerset_new) 0 ∅ false ∅ ∅
  end.

Lemma broadcast_delivers_in_order_witness :
  ∃ tr x o x', returns (run (enabled None) (exec None) two_readers) (chan_after None []) tr x ∧
    returns (exec None (TryRecv 1)) x o x' ∧
    no_panic (enabled None) (exec None) x ∧ ∃ pending, (view 1 tr).1 = (view 1 tr).2 ++ pending ∧ unread_of x 1 = Some (Z.of_nat (length pending)) ∧
      match pending with
      | m :: _ => failed o = None ∧ ∃ fl, got o = Some (1%nat, mkReceived m fl)
      | [] => got o = None ∧ failed o = Some (if decide (tx x = ∅) then TryDisconnected else TryEmpty)
      end.
Proof.
  eexists _, _, _, _. split; [vm_compute; reflexivity|]. split; [vm_compute; reflexivity|].
  eapply (broadcast_delivers_in_order None (chan_after None []) two_readers _ _ 1); vm_compute; reflexivity.
Defined.

(** The only receiver waits on a channel of capacity one; a clone of the sender sends. *)
Lemma broadcast_no_lost_wakeup_witness :
  ∃ tr x o x1 tr' x', returns (run (enabled (Some 1)) (exec (Some 1)) [RecvStart 0 7]) (chan_after (Some 1) []) tr x ∧
    returns (exec (Some 1) (RecvPoll 7 70%nat)) x o x1 ∧
    returns (run (enabled (Some 1)) (exec (Some 1)) [SenderClone 0 1; Send 1 5%nat]) x1 tr' x' ∧
    Exists (λ e, 70%nat ∈ woken e.2) tr'.
Proof.
  eexists _, _, _, _, _, _. split; [vm_compute; reflexivity|]. split; [vm_compute; reflexivity|]. split; [vm_compute; reflexivity|].
  eapply (broadcast_no_lost_wakeup (Some 1) (chan_after (Some 1) []) [RecvStart 0 7] _ _ 7 (mkRecv 0 None) 70%nat _ _
    [SenderClone 0 1; Send 1 5%nat]);
    [vm_compute; reflexivity|vm_compute; reflexivity|vm_compute; reflexivity|vm_compute; reflexivity|vm_compute; reflexivity|
     reflexivity|reflexivity| |vm_compute; reflexivity|].
  - repeat constructor.
  - left. vm_compute. congruence.
Defined.

Lemma broadcast_retains_unread_witness :
  ∃ tr x o x', returns (run (enabled (Some 2)) (exec (Some 2)) two_readers) (chan_after (Some 2) []) tr x ∧
    returns (exec (Some 2) (Send 0 30%nat)) x o x' ∧
    let n := retained (log (inner x)) in
    (∀ r k, unread_of x r = Some k → 0 <= k <= n) ∧ (n = 0 ∨ ∃ r, unread_of x r = Some n) ∧
    n <= 2 ∧ full o = if decide (rx x ≠ ∅ ∧ n = 2) then Some 30%nat else None.
Proof.
  eexists _, _, _, _. split; [vm_compute; reflexivity|]. split; [vm_compute; reflexivity|].
  eapply (broadcast_retains_unread (Some 2) (chan_after (Some 2) []) two_readers _ _ 0 30%nat); vm_compute; reflexivity.
Defined.
