(* ===== verification/BroadcastBounded.v ===== *)
(** * Producers that wait for capacity

    [asyncband/src/broadcast/mpmc/bounded/mod.rs]: the [send] futures of a bounded broadcast channel
    and the wake-ups receivers owe them.  A producer that finds the channel full announces itself in a
    counter, queues on a semaphore and tries again before it sleeps; a receiver that frees slots reads
    the counter and then releases permits, both after it has unlocked the log.  Every access to the
    counter, every locked section of the semaphore and of the log is a step.  The log, the receivers
    and the senders are the system of Broadcast; the semaphore is the specification UnitSemaphore. *)
From S2P Require Import Prelude Arena WakerBatch WakerSet UnitSemaphore Backlog Broadcast.

(** ** Producers and receivers in flight *)

(** A [send] that found the channel full: before it announces itself; not being polled; before it
    polls its acquisition; before it tries to publish again; its [SendState] dropped, then its
    acquisition. *)
Inductive Producer (T : Type) : Type :=
| Announce (h : nat) (m : T)
| Resting (h : nat) (m : T)
| Acquiring (h : nat) (m : T) (cx : Waker)
| Recheck (h : nat) (m : T) (cx : Waker) (ready : bool)
| Leaving
| Releasing.
Arguments Announce {T} h m.
Arguments Resting {T} h m.
Arguments Acquiring {T} h m cx.
Arguments Recheck {T} h m cx ready.
Arguments Leaving {T}.
Arguments Releasing {T}.

(** A receiver that has freed slots: [release_reclaimed] before it reads the counter, before and
    between the locked sections of the semaphore; [release_all] before and after its read. *)
Inductive Reclaimer : Type :=
| CountBlocked (freed : Z)
| ReleaseIfWaiters (n : Z)
| Distribute (n : Z)
| CountAll
| NotifyAll.

Record Sys (T : Type) : Type := mkSys {
  chan : Broadcast.Sys T;
  tx_permits : TxPermits;
  blocked_senders : Z;
  producers : gmap nat (Producer T);
  reclaimers : gmap nat Reclaimer;
}.
Arguments mkSys {T}.
Arguments chan {T}.
Arguments tx_permits {T}.
Arguments blocked_senders {T}.
Arguments producers {T}.
Arguments reclaimers {T}.

(** [Chan t l]: an operation of Broadcast by the thread [t], which goes on to release what it freed;
    [SendStart]: the first attempt of [send]. *)
Inductive Label (T : Type) : Type :=
| Chan (t : nat) (l : Broadcast.Label T)
| SendStart (f h : nat) (m : T)
| SendPoll (f : nat) (cx : Waker)
| SendCancel (f : nat)
| ProducerStep (f : nat)
| ReclaimerStep (t : nat).
Arguments Chan {T} t l.
Arguments SendStart {T} f h m.
Arguments SendPoll {T} f cx.
Arguments SendCancel {T} f.
Arguments ProducerStep {T} f.
Arguments ReclaimerStep {T} t.

Section system.
Context {T : Type} (c : Z).
Implicit Types (x : Sys T) (l : Label T) (f h t : nat) (m : T).

Definition set_chan (y : Broadcast.Sys T) x : Sys T := mkSys y (tx_permits x) (blocked_senders x) (producers x) (reclaimers x).
Definition set_tx s x : Sys T := mkSys (chan x) s (blocked_senders x) (producers x) (reclaimers x).
Definition set_blocked n x : Sys T := mkSys (chan x) (tx_permits x) n (producers x) (reclaimers x).
Definition set_producers g x : Sys T := mkSys (chan x) (tx_permits x) (blocked_senders x) g (reclaimers x).
Definition set_reclaimers g x : Sys T := mkSys (chan x) (tx_permits x) (blocked_senders x) (producers x) g.
Definition on_chan {A : Type} (a : M (Broadcast.Sys T) A) : M (Sys T) A := zoom chan set_chan a.

Definition move f (p : Producer T) : M (Sys T) unit := modify (λ x, set_producers (<[f:=p]> (producers x)) x).

(** The slots an operation of the channel has freed. *)
Definition freed (o : Broadcast.Obs T) : Z :=
  Z.of_nat (length (dropped o)) + match got o with Some (_, r) => if reclaimed r then 1 else 0 | None => 0 end.

(** What the thread goes on to do: [BoundedReceiver::drop], [receive_released] and [Recv::poll]. *)
Definition follow_up (l : Broadcast.Label T) (o : Broadcast.Obs T) (y : Broadcast.Sys T) : option Reclaimer :=
  match l with
  | ReceiverDrop _ =>
      if negb (has_receivers (log (inner y))) then Some CountAll
      else if bool_decide (freed o = 0) then None else Some (CountBlocked (freed o))
  | _ => if bool_decide (freed o = 0) then None else Some (CountBlocked (freed o))
  end.

Definition chan_step t (l : Broadcast.Label T) : M (Sys T) (list Waker) :=
  o ← on_chan (Broadcast.exec (Some c) l);
  x ← get;
  put (set_reclaimers (match follow_up l o (chan x) with Some r => <[t:=r]> (reclaimers x) | None => reclaimers x end) x);;
  mret (woken o).

(** [send] up to its first attempt, which is a [try_send]. *)
Definition send_start f h m : M (Sys T) (list Waker) :=
  o ← on_chan (Broadcast.exec (Some c) (Send h m));
  match full o with
  | None => mret (woken o)
  | Some m => move f (Announce h m);; mret (woken o)
  end.

(** The next access of a producer: [send] and [SendState]. *)
Definition producer_step f : M (Sys T) (list Waker) :=
  x ← get;
  p ← expect (producers x !! f) "no such producer";
  match p with
  | Announce h m => modify (set_blocked (wrapping_add usize_max (blocked_senders x) 1));; move f (Resting h m);; mret []
  | Resting _ _ => panic "not being polled"
  | Acquiring h m cx =>
      let (s, ready) := acquire_poll f cx (tx_permits x) in
      modify (set_tx s);; move f (Recheck h m cx ready);; mret []
  | Recheck h m cx ready =>
      o ← on_chan (Broadcast.exec (Some c) (Send h m));
      match full o with
      | None => move f Leaving
      | Some m => if (ready : bool) then move f (Acquiring h m cx) else move f (Resting h m)
      end;;
      mret (woken o)
  | Leaving => modify (set_blocked (wrapping_add usize_max (blocked_senders x) (-1)));; move f Releasing;; mret []
  | Releasing =>
      let (s, ws) := acquire_drop f (tx_permits x) in
      modify (set_tx s);; modify (set_producers (delete f (producers x)));; mret ws
  end.

(** The next access of [release_reclaimed] or [release_all]. *)
Definition reclaimer_step t : M (Sys T) (list Waker) :=
  x ← get;
  r ← expect (reclaimers x !! t) "no such receiver";
  let go r := modify (set_reclaimers (<[t:=r]> (reclaimers x))) in
  let stop := modify (set_reclaimers (delete t (reclaimers x))) in
  match r with
  | CountBlocked freed =>
      (if bool_decide (0 < blocked_senders x) then go (ReleaseIfWaiters (Z.min freed (blocked_senders x))) else stop);; mret []
  | ReleaseIfWaiters n =>
      if bool_decide (queue (tx_permits x) = []) then stop;; mret []
      else
        let '(s, ws, rest) := distribute n (tx_permits x) in
        modify (set_tx s);; (if bool_decide (rest = 0) then stop else go (Distribute rest));; mret ws
  | Distribute n =>
      let '(s, ws, rest) := distribute n (tx_permits x) in
      modify (set_tx s);; (if bool_decide (rest = 0) then stop else go (Distribute rest));; mret ws
  | CountAll => (if bool_decide (0 < blocked_senders x) then go NotifyAll else stop);; mret []
  | NotifyAll => let (s, ws) := notify_all (tx_permits x) in modify (set_tx s);; stop;; mret ws
  end.

(** A producer borrows its sender. *)
Definition borrowed h x : Prop :=
  map_Exists (λ _ p, match p with Announce h' _ | Resting h' _ | Acquiring h' _ _ | Recheck h' _ _ _ => h' = h | _ => False end) (producers x).
#[export] Instance borrowed_dec h x : Decision (borrowed h x).
Proof. apply map_Exists_dec. intros _ []; apply _. Defined.

(** Counters of machine width do not run out, and neither do versions. *)
Definition enabled l x : bool :=
  match l with
  | Chan t l =>
      Broadcast.enabled (Some c) l (chan x) && bool_decide (reclaimers x !! t = None) &&
      match l with SenderDrop h => negb (bool_decide (borrowed h x)) | _ => true end
  | SendStart f h m => Broadcast.enabled (Some c) (Send h m) (chan x) && bool_decide (producers x !! f = None)
  | SendPoll f _ | SendCancel f => match producers x !! f with Some (Resting _ _) => true | _ => false end
  | ProducerStep f =>
      match producers x !! f with
      | Some (Announce _ _) => bool_decide (blocked_senders x < usize_max)
      | Some (Recheck h m _ _) => Broadcast.enabled (Some c) (Send h m) (chan x)
      | Some Releasing => bool_decide (permits (tx_permits x) < usize_max)
      | Some (Resting _ _) | None => false
      | _ => true
      end
  | ReclaimerStep t =>
      match reclaimers x !! t with
      | Some (ReleaseIfWaiters n) | Some (Distribute n) => bool_decide (permits (tx_permits x) + n <= usize_max)
      | Some _ => true
      | None => false
      end
  end.

Definition exec l : M (Sys T) (list Waker) :=
  match l with
  | Chan t l => chan_step t l
  | SendStart f h m => send_start f h m
  | SendPoll f cx =>
      x ← get;
      match producers x !! f with
      | Some (Resting h m) => move f (Acquiring h m cx);; mret []
      | _ => mret []
      end
  | SendCancel f => move f Leaving;; mret []
  | ProducerStep f => producer_step f
  | ReclaimerStep t => reclaimer_step t
  end.

(** [bounded]. *)
Definition bounded : option (Sys T) := (λ y, mkSys y tx_new 0 ∅ ∅) <$> channel (Some c).
End system.

#[export] Hint Unfold on_chan : band_zoom.

(** ** The slots of the channel *)
Section slots.
Context {T : Type} (c : Z).
Implicit Types (l : Broadcast.Label T) (y : Broadcast.Sys T) (o : Broadcast.Obs T) (hist : list T) (subs : gmap SlotId Z).

Definition free y : Z := c - retained (log (inner y)).

(** What an operation of the channel does to the slots. *)
Record account l y o y' : Prop := {
  ac_free : free y' = free y + freed o - (match l with Send _ _ => if bool_decide (full o = None) && has_receivers (log (inner y)) then 1 else 0 | _ => 0 end);
  ac_full : ∀ m, full o = Some m → has_receivers (log (inner y)) = true ∧ free y = 0;
  ac_receivers : (∀ r, l ≠ ReceiverDrop r) → has_receivers (log (inner y)) = true → has_receivers (log (inner y')) = true;
  ac_send : ∀ h m, l = Send h m → freed o = 0;
}.

Lemma account_quiet l y o y' :
  log (inner y') = log (inner y) → freed o = 0 → full o = None → (∀ h m, l ≠ Send h m) → account l y o y'.
Proof.
  intros El Ef Eu Hl. unfold free. split; unfold free; rewrite ?El; [|by rewrite Eu|done|by intros]. rewrite Ef. destruct l; try lia. by destruct (Hl h m).
Qed.

(** A receive frees at most one slot. *)
Lemma receive_frees (b b' : Backlog T) hist subs key n :
  backlog_rep b hist subs → backlog_rep b' hist (<[key:=n + 1]> subs) → subs !! key = Some n → head b <= head b' →
  retained b' = retained b - (if bool_decide (head b' ≠ head b) then 1 else 0).
Proof.
  intros Hb Hb' Hk Hle. pose proof (br_pre _ _ _ Hb) as Hp. pose proof (br_pre _ _ _ Hb') as Hp'.
  rewrite (pre_retained _ _ _ Hp), (pre_retained _ _ _ Hp'). assert (tail b' = tail b) as -> by (by rewrite (bp_tail _ _ _ Hp), (bp_tail _ _ _ Hp')).
  assert (head b' <= head b + 1) as Hone; [|case_bool_decide; lia].
  destruct (bp_subs _ _ _ Hp _ _ Hk) as [Hn _].
  assert (head b' <= n + 1) as Hn' by (by apply (bp_subs _ _ _ Hp' key), lookup_insert_eq).
  destruct (decide (n = head b)) as [-> |Hne]; [done|].
  destruct (br_front _ _ _ Hb) as [Ht|[k Hk']].
  - pose proof (bp_subs _ _ _ Hp _ _ Hk). lia.
  - assert (head b' <= head b); [|lia]. apply (bp_subs _ _ _ Hp' k). rewrite lookup_insert_ne; [done|]. intros <-. congruence.
Qed.

Lemma has_receivers_insert (b : Backlog T) hist subs key n : backlog_rep b hist (<[key:=n]> subs) → has_receivers b = true.
Proof.
  intros Hb. rewrite (has_receivers_spec _ _ _ (br_pre _ _ _ Hb)). apply bool_decide_eq_true. intros E.
  pose proof (lookup_insert_eq subs key n) as H. by rewrite E, lookup_empty in H.
Qed.

(** A receive, whatever is done with the waiters afterwards. *)
Lemma receive_account l hist subs y key n r b o y' :
  chan_ok (Some c) hist subs y → subs !! key = Some n → returns (receive key) (log (inner y)) r b → log (inner y') = b →
  (∀ h m, l ≠ Send h m) → full o = None → dropped o = [] → (snd <$> got o) = r → account l y o y'.
Proof.
  intros Hy Hk Hr El Hl Hfull Hdrop Hgot. pose proof (co_log _ _ _ _ Hy) as Hb.
  pose proof (wp_returns_elim _ _ _ _ _ (receive_spec _ _ _ _ _ Hb Hk) Hr) as Hs. simpl in Hs.
  destruct (hist !! Z.to_nat n) as [m|].
  - destruct Hs as (-> & Hb' & _ & Hh). pose proof (receive_frees _ _ _ _ _ _ Hb Hb' Hk Hh) as Hret.
    destruct (got o) as [[? g]|] eqn:Eg; [|done]. simpl in Hgot. injection Hgot as ->.
    unfold free. split; unfold free; rewrite ?El, ?Hfull; [|done|intros _ _; by eapply has_receivers_insert|intros h m' ->; by destruct (Hl h m')].
    unfold freed. rewrite Eg, Hdrop. simpl. destruct l; try lia. by destruct (Hl h m0).
  - destruct Hs as [-> ->]. apply account_quiet; try done. unfold freed. rewrite Hdrop. destruct (got o) as [[]|]; done.
Qed.

Lemma try_recv_account hist subs y r o y' :
  chan_ok (Some c) hist subs y → idle r y → returns (Broadcast.try_recv r) y o y' → account (TryRecv r) y o y'.
Proof.
  intros Hy [[k Hr] _] H. destruct (cursor_some _ _ _ _ _ _ Hy Hr) as (n & Hk & _). unfold Broadcast.try_recv in H. split_return H.
  injection R as <- <-. apply returns_expect in R0 as [Ek ->]. rewrite Hr in Ek. injection Ek as <-. injection H as <- <-.
  apply returns_zoom in R1 as (u & R1 & ->). unfold try_receive in R1. split_return R1. apply returns_zoom in R as (b & R & ->).
  eapply (receive_account _ hist subs y k n); try done; destruct a as [g|]; [by injection R1 as <- <-| |by injection R1 as <- <-| |by injection R1 as <- <-| |by injection R1 as <- <-|];
    case_bool_decide; by injection R1 as <- <-.
Qed.

Lemma poll_recv_account hist subs y f cx o y' :
  chan_ok (Some c) hist subs y → returns (Broadcast.poll_recv f cx) y o y' → account (RecvPoll f cx) y o y'.
Proof.
  intros Hy H. unfold Broadcast.poll_recv in H. split_return H. injection R as <- <-. apply returns_expect in R0 as [Ev ->].
  apply returns_expect in R1 as [Ek ->]. destruct (cursor_some _ _ _ _ _ _ Hy Ek) as (n & Hk & _).
  destruct a2 as [tk a]. apply returns_zoom in R2 as (u & R2 & ->). unfold poll_receive in R2. split_return R2. apply returns_zoom in R as (b & R & ->).
  destruct a2 as [g|]; [|case_bool_decide as Es].
  - injection R2 as <- <- <-. split_return H. injection R0 as _ <-. injection H as <- <-. by eapply (receive_account _ hist subs y a1 n).
  - injection R2 as <- <- <-. split_return H. injection R0 as _ <-. injection H as <- <-. by eapply (receive_account _ hist subs y a1 n).
  - split_return R2. destruct a2 as [tk' old]. injection R2 as <- <- <-. apply returns_zoom in R0 as (w & _ & ->). split_return H. injection R0 as _ <-.
    injection H as <- <-. by eapply (receive_account _ hist subs y a1 n).
Qed.

Lemma receiver_drop_account hist subs y r o y' :
  chan_ok (Some c) hist subs y → idle r y → returns (Broadcast.receiver_drop r) y o y' → account (ReceiverDrop r) y o y'.
Proof.
  intros Hy [[k Hr] _] H. destruct (cursor_some _ _ _ _ _ _ Hy Hr) as (n & Hk & _). pose proof (co_log _ _ _ _ Hy) as Hb.
  unfold Broadcast.receiver_drop in H. split_return H. injection R as <- <-. apply returns_expect in R0 as [Ek ->]. rewrite Hr in Ek. injection Ek as <-.
  injection R2 as _ <-. injection H as <- <-. apply returns_zoom in R1 as (u & R1 & ->). apply returns_zoom in R1 as (b & R1 & ->).
  destruct (wp_returns_elim _ _ _ _ _ (remove_receiver_spec _ _ _ _ _ Hb Hk) R1) as (Hb' & _ & Hh & Hrel).
  split; simpl; [|done|intros Hne; by destruct (Hne r)|done].
  pose proof (br_pre _ _ _ Hb) as Hp. pose proof (br_pre _ _ _ Hb') as Hp'. unfold free, freed. simpl. rewrite Hrel, length_take, length_drop.
  rewrite (pre_retained _ _ _ Hp), (pre_retained _ _ _ Hp'). pose proof (bp_tail _ _ _ Hp). pose proof (bp_tail _ _ _ Hp').
  pose proof (bp_head _ _ _ Hp). pose proof (bp_head _ _ _ Hp'). lia.
Qed.

Lemma subscribe_account l hist subs y r o y' :
  (∃ h, l = Subscribe h r) ∨ (∃ r', l = Resubscribe r' r) → chan_ok (Some c) hist subs y → arena_room (receivers (log (inner y))) →
  returns (Broadcast.subscribe r) y o y' → account l y o y'.
Proof.
  intros Hl Hy Hroom H. pose proof (co_log _ _ _ _ Hy) as Hb. unfold Broadcast.subscribe in H. split_return H. injection R as <- <-.
  injection R1 as _ <-. injection H as <- <-. apply returns_zoom in R0 as (u & R0 & ->). apply returns_zoom in R0 as (b & R0 & ->).
  destruct (wp_returns_elim _ _ _ _ _ (subscribe_spec _ _ _ Hb Hroom) R0) as (Hk & Hb' & _).
  pose proof (br_pre _ _ _ Hb) as Hp. pose proof (br_pre _ _ _ Hb') as Hp'.
  assert (retained b = retained (log (inner y))) as Er.
  { rewrite (pre_retained _ _ _ Hp), (pre_retained _ _ _ Hp'), (rep_head _ _ _ Hb), (rep_head _ _ _ Hb'), oldest_insert by done.
    rewrite (bp_tail _ _ _ Hp), (bp_tail _ _ _ Hp'). pose proof (bp_head _ _ _ Hp). rewrite (rep_head _ _ _ Hb), (bp_tail _ _ _ Hp) in *. lia. }
  split; simpl; [|done|intros _ _; by eapply has_receivers_insert|intros h m ->; by destruct Hl as [[]|[]]]. unfold free, freed. simpl. rewrite Er.
  destruct Hl as [[? ->]|[? ->]]; lia.
Qed.

Lemma send_account hist subs y h m o y' :
  chan_ok (Some c) hist subs y → Broadcast.enabled (Some c) (Send h m) y = true → returns (Broadcast.send (Some c) m) y o y' → account (Send h m) y o y'.
Proof.
  intros Hy He H. pose proof (co_log _ _ _ _ Hy) as Hb. pose proof (has_receivers_spec _ _ _ (br_pre _ _ _ Hb)) as Hrc.
  apply andb_true_iff in He as [[_ Ht]%bool_decide_eq_true _]. destruct (co_cap _ _ _ _ Hy) as [Hcap _].
  assert (∀ ws s s', returns wake_receivers s ws s' → log (s' : Inner T) = log s) as Hwk.
  { intros ws s s' Hw. unfold wake_receivers in Hw. split_return Hw. apply returns_zoom in R as (u & _ & ->).
    unfold batch_wake in Hw. unfold returns, run_local in Hw. destruct (wake_all a); [|done]. by injection Hw as <- <-. }
  unfold Broadcast.send in H. split_return H. apply returns_zoom in R as (u & R & ->). destruct a as [res ws]. injection H as <- <-.
  unfold bounded_publish in R. split_return R. injection R0 as <- <-. destruct (has_receivers (log (inner y))) eqn:Eh; cbn [negb] in R.
  - destruct (bool_decide_reflect (retained (log (inner y)) = c)) as [Er|Er].
    + injection R as <- <- <-. split; simpl; [unfold free, freed; simpl; lia|intros ? _; unfold free; split; [done|lia]|done|done].
    + split_return R. injection R as <- <- <-. apply returns_zoom in R0 as (b & R0 & ->). apply Hwk in R1. simpl in R1.
      symmetry in Hrc. apply bool_decide_eq_true in Hrc.
      destruct (wp_returns_elim _ _ _ _ _ (publish_retained_spec _ _ _ m Hb Hrc Ht ltac:(left; lia)) R0) as (Hb' & Erc & _ & _ & Eret).
      split; simpl; [|done| |done].
      * unfold free, freed. simpl. rewrite R1, Eret, Eh. simpl. lia.
      * intros _ _. rewrite R1. unfold has_receivers in *. by rewrite Erc.
  - split_return R. injection R as <- <- <-. apply returns_zoom in R0 as (b & R0 & ->). apply Hwk in R1. simpl in R1.
    symmetry in Hrc. apply bool_decide_eq_false, dec_stable in Hrc as ->.
    destruct (wp_returns_elim _ _ _ _ _ (publish_discarded_spec _ _ m Hb Ht) R0) as (Hb' & _).
    split; simpl; [|done|by rewrite Eh|done]. unfold free, freed. simpl. rewrite R1, Eh, (rep_unread _ _ Hb), (rep_unread _ _ Hb'). simpl. lia.
Qed.

Lemma slot_account hist subs l y o y' :
  chan_ok (Some c) hist subs y → Broadcast.enabled (Some c) l y = true → returns (Broadcast.exec (Some c) l) y o y' → account l y o y'.
Proof.
  intros Hy He H. unfold Broadcast.exec in H. split_return H. injection R as <- <-.
  destruct l as [h h'|h| |h m|h r|r r'|r|r|r f|f cx|f|r|h]; simpl in He.
  - split_return H. injection R as _ <-. injection H as <- <-. by apply account_quiet.
  - unfold sender_drop in H. split_return H. injection R as <- <-. injection R0 as _ <-. injection H as <- <-. by apply account_quiet.
  - split_return H. apply returns_zoom in R as (u & R & ->). injection R0 as _ <-. injection H as <- <-. unfold disconnect in R. split_return R.
    injection R0 as <- <-. injection R1 as _ <-. injection R as _ <-. by apply account_quiet.
  - by eapply send_account.
  - apply enabled_and in He as [_ Hroom]. eapply subscribe_account; eauto.
  - apply enabled_and in He as [_ Hroom]. eapply subscribe_account; eauto.
  - apply bool_decide_eq_true in He. by eapply receiver_drop_account.
  - apply bool_decide_eq_true in He. by eapply try_recv_account.
  - split_return H. injection R as _ <-. injection H as <- <-. by apply account_quiet.
  - by eapply poll_recv_account.
  - unfold Broadcast.recv_drop in H. split_return H. injection R as <- <-. apply returns_expect in R0 as [_ ->]. apply returns_expect in R1 as [Hkey ->].
    injection R3 as _ <-. injection H as <- <-. apply account_quiet; try done. simpl. destruct (token a0); [|by injection R2 as _ <-].
    apply returns_zoom in R2 as (u & R2 & ->). unfold Broadcast.unregister in R2. split_return R2. apply returns_zoom in R as (b & R & ->).
    destruct (cursor_some _ _ _ _ _ _ Hy Hkey) as (n & Hk & _).
    destruct (wp_returns_elim _ _ _ _ _ (unread_spec _ _ _ _ _ (br_pre _ _ _ (co_log _ _ _ _ Hy)) Hk) R) as [_ ->].
    destruct (bool_decide (a ≠ 0) || bool_decide (senders y = 0)); [by injection R2 as _ <-|]. split_return R2.
    apply returns_zoom in R0 as (w & _ & ->). by injection R2 as _ <-.
  - split_return H. apply returns_expect in R as [Hkey ->]. apply returns_zoom in R0 as (u & R0 & ->). apply returns_zoom in R0 as (b & R0 & ->).
    injection H as <- <-. destruct (cursor_some _ _ _ _ _ _ Hy Hkey) as (n & Hk & _).
    destruct (wp_returns_elim _ _ _ _ _ (unread_spec _ _ _ _ _ (br_pre _ _ _ (co_log _ _ _ _ Hy)) Hk) R0) as [_ ->]. by apply account_quiet.
  - injection H as <- <-. by apply account_quiet.
Qed.
End slots.

(** ** The wake-ups producers are owed *)
Section debts.
Context {T : Type}.
Implicit Types (P : gmap nat (Producer T)) (p : Producer T) (s : TxPermits) (q : list nat) (g : gset nat) (f : nat) (R fr : Z) (hr : bool) (late : Prop).

Definition gone p : bool := match p with Leaving | Releasing => true | _ => false end.
Definition checking p : bool := match p with Recheck _ _ _ _ => true | _ => false end.
Definition announced p : bool := match p with Resting _ _ | Acquiring _ _ _ | Recheck _ _ _ _ | Leaving => true | _ => false end.
Definition started p : bool := match p with Announce _ _ => false | _ => true end.

Definition holds_at (b : Producer T → bool) P f : bool := from_option b false (P !! f).
Definition tally (b : Producer T → bool) P : Z := map_sum (λ p, if b p then 1 else 0) P.

(** Those in a queue who still want a slot, and the grants that will be passed on. *)
Definition unserved P q : Z := Z.of_nat (length (filter (λ f, holds_at gone P f = false) q)).
Definition passing P g : Z := Z.of_nat (size (filter (λ f, holds_at gone P f = true) g)).

(** The queue without repetition, apart from the grants, its members past their announcement. *)
Record tx_ok P s : Prop := {
  tx_nodup : NoDup (queue s).*1;
  tx_apart : ∀ f, f ∈ (queue s).*1 → f ∉ granted s;
  tx_known : ∀ f, f ∈ (queue s).*1 ∨ f ∈ granted s → holds_at started P f = true;
}.

(** Every waiting producer is provided for: the free slots are matched by grants, by permits that
    receivers are about to release and by producers about to try again; or those queued are, but for
    a tail of producers about to try again or gone; or everybody is about to be woken. *)
Definition matched P s R hr fr : Prop := hr = true ∧ fr <= Z.of_nat (size (granted s)) + R + tally checking P.
Definition provided P s R : Prop :=
  ∃ cov fresh, (queue s).*1 = cov ++ fresh ∧ Forall (λ f, holds_at gone P f || holds_at checking P f = true) fresh ∧
    unserved P cov <= R + passing P (granted s).
Definition settled P s R hr fr late : Prop := matched P s R hr fr ∨ provided P s R ∨ late.

Lemma passing_nonneg P g : 0 <= passing P g.
Proof. unfold passing. lia. Qed.
Lemma tally_nonneg b P : 0 <= tally b P.
Proof. apply map_sum_nonneg. intros ? p _. by destruct (b p). Qed.
#[local] Hint Resolve passing_nonneg tally_nonneg : core.

Lemma passing_add P g f : f ∉ g → passing P ({[f]} ∪ g) = passing P g + (if holds_at gone P f then 1 else 0).
Proof.
  intros Hf. unfold passing. rewrite filter_union_L, filter_singleton_L by apply _. case_decide as E; simpl in E.
  - rewrite E, size_union by set_solver. rewrite size_singleton. lia.
  - apply not_true_is_false in E. rewrite E, union_empty_l_L. lia.
Qed.
Lemma passing_remove P g f : f ∈ g → passing P (g ∖ {[f]}) = passing P g - (if holds_at gone P f then 1 else 0).
Proof.
  intros Hf. rewrite (union_difference_singleton_L f g) at 2 by done. rewrite passing_add by set_solver. lia.
Qed.
Lemma grants_size_remove g f : f ∈ g → Z.of_nat (size (g ∖ {[f]})) = Z.of_nat (size g) - 1.
Proof.
  intros Hf. rewrite (union_difference_singleton_L f g) at 2 by done.
  rewrite (size_union {[f]} (g ∖ {[f]})), size_singleton by set_solver. lia.
Qed.

(** An empty queue owes nothing. *)
Lemma provided_empty P s R : queue s = [] → 0 <= R → provided P s R.
Proof. intros E HR. exists [], []. rewrite E. split_and!; [done|by constructor|]. unfold unserved. simpl. pose proof (passing_nonneg P (granted s)). lia. Qed.

(** A grant to the oldest. *)
Lemma grant_one P s R hr fr late f wk (l : list (nat * Waker)) :
  tx_ok P s → queue s = (f, wk) :: l → 1 <= R → settled P s R hr fr late →
  tx_ok P (mkTx (permits s) l ({[f]} ∪ granted s)) ∧ settled P (mkTx (permits s) l ({[f]} ∪ granted s)) (R - 1) hr fr late.
Proof.
  intros [H1 H2 H3] Eq HR Hs. rewrite Eq in *. simpl in *. apply NoDup_cons in H1 as [Hf H1]. assert (f ∉ granted s) as Hg by (apply H2; set_solver).
  split.
  - split; simpl; [done|intros j Hj; assert (j ∉ granted s) by (apply H2; set_solver); set_solver|]. intros j Hj. apply H3. set_solver.
  - destruct Hs as [[Hr Hfr]|[(cov & fresh & Ec & Hfresh & Hc)|?]]; [left|right; left|by right; right].
    + split; [done|]. simpl. rewrite size_union by set_solver. rewrite size_singleton. lia.
    + rewrite Eq in Ec. simpl in Ec. destruct cov as [|f' cov]; simpl in Ec.
      * subst fresh. apply Forall_cons in Hfresh as [_ Hfresh]. exists [], l.*1. split_and!; [done|done|].
        unfold unserved. simpl. pose proof (passing_nonneg P ({[f]} ∪ granted s)). lia.
      * injection Ec as <- Ec. exists cov, fresh. split_and!; [done|done|]. simpl. rewrite passing_add by done.
        unfold unserved in *. rewrite filter_cons in Hc. destruct (holds_at gone P f); case_decide; try done; simpl in Hc; lia.
Qed.

(** Members of the queue stay or are woken. *)
Definition kept s s' (ws : list Waker) : Prop := ∀ e, e ∈ queue s → e ∈ queue s' ∨ e.2 ∈ ws.

Lemma grant_ok P n s R hr fr late :
  tx_ok P s → Z.of_nat n <= R → settled P s R hr fr late →
  let (s', ws) := grant n s in
  tx_ok P s' ∧ settled P s' (R - Z.of_nat (length ws)) hr fr late ∧ kept s s' ws ∧ (length ws <= n)%nat ∧ (length ws = n ∨ queue s' = []) ∧ permits s' = permits s.
Proof.
  revert s R. induction n as [|n IH]; intros s R Hs HR Hd; simpl.
  { rewrite Z.sub_0_r. split_and!; try done; [by intros e He; left|by left]. }
  destruct (queue s) as [|[f wk] q] eqn:Eq. { rewrite Z.sub_0_r. split_and!; try done; [by intros e He; left|simpl; lia|by right]. }
  destruct (grant_one P s R hr fr late f wk q Hs Eq ltac:(lia) Hd) as [Hs1 Hd1].
  specialize (IH _ (R - 1) Hs1 ltac:(lia) Hd1). destruct (grant n _) as [s' ws]. destruct IH as (Hs' & Hd' & Hk & Hl & Hl' & Hp).
  split_and!; [done| |intros e He; rewrite Eq in He|simpl; lia|destruct Hl' as [?|?]; [left; simpl; lia|by right]|done].
  - simpl. by replace (R - Z.of_nat (S (length ws))) with (R - 1 - Z.of_nat (length ws)) by lia.
  - apply elem_of_cons in He as [-> |He]; [right; set_solver|]. destruct (Hk e He) as [?|?]; [by left|right; set_solver].
Qed.

(** A turn of [distribute_permits] uses up what it does not return. *)
Lemma distribute_ok P n s R hr fr late :
  tx_ok P s → 0 <= n <= R → settled P s R hr fr late →
  let '(s', ws, rest) := distribute n s in
  tx_ok P s' ∧ settled P s' (R - n + rest) hr fr late ∧ kept s s' ws ∧ 0 <= rest <= n ∧ (n <= Z.of_nat STACK_SIZE → rest = 0).
Proof.
  intros Hs Hn Hd. unfold distribute. pose proof (grant_ok P (Nat.min (Z.to_nat n) STACK_SIZE) s R hr fr late Hs ltac:(lia) Hd) as Hg.
  destruct (grant _ s) as [s' ws]. destruct Hg as (Hs' & Hd' & Hk & Hl & Hl' & _). case_bool_decide as Eq.
  - split_and!; [|right; left; apply provided_empty; [done|lia]|intros e He; destruct (Hk e He) as [Hin|?]; [rewrite Eq in Hin; by apply elem_of_nil in Hin|by right]|lia|lia|done].
    destruct Hs' as [? ? H3]. split; simpl; [constructor|set_solver|]. intros f [?|?]; [set_solver|]. apply H3. by right.
  - split_and!; [done| |done|lia|lia|destruct Hl' as [?|?]; [lia|done]]. by replace (R - n + (n - Z.of_nat (length ws))) with (R - Z.of_nat (length ws)) by lia.
Qed.

(** *** Moves of the producers *)
Lemma holds_at_insert b P f p j : holds_at b (<[f:=p]> P) j = if decide (j = f) then b p else holds_at b P j.
Proof. unfold holds_at. rewrite lookup_insert. repeat case_decide; by try congruence. Qed.
Lemma holds_at_delete b P f j : holds_at b (delete f P) j = if decide (j = f) then false else holds_at b P j.
Proof. unfold holds_at. rewrite lookup_delete. repeat case_decide; by try congruence. Qed.
Lemma holds_at_some b P f p : P !! f = Some p → holds_at b P f = b p.
Proof. unfold holds_at. by intros ->. Qed.

Lemma tally_update b P f p p' : P !! f = Some p → tally b (<[f:=p']> P) = tally b P - (if b p then 1 else 0) + (if b p' then 1 else 0).
Proof. intros Hf. unfold tally. by rewrite (map_sum_update _ _ _ p). Qed.
Lemma tally_delete b P f p : P !! f = Some p → tally b (delete f P) = tally b P - (if b p then 1 else 0).
Proof. intros Hf. unfold tally. by rewrite (map_sum_delete _ _ _ p). Qed.

Lemma tally_elem b P f p : P !! f = Some p → b p = true → 0 < tally b P.
Proof. intros Hf Hp. pose proof (tally_delete b P f p Hf) as Hd. rewrite Hp in Hd. pose proof (tally_nonneg b (delete f P)). lia. Qed.

Lemma tally_none b P : ¬ map_Exists (λ _ p, b p = true) P → tally b P = 0.
Proof.
  unfold tally. induction P as [|f p P Hf IH] using map_ind; intros Hno; [done|]. rewrite map_sum_insert by done. simpl.
  destruct (b p) eqn:Hp; [destruct Hno; exists f, p; by rewrite lookup_insert_eq|]. rewrite IH; [done|]. intros (j & p' & Hj & Hp').
  apply Hno. exists j, p'. rewrite lookup_insert_ne; [done|congruence].
Qed.

(** As many as are listed, at least. *)
Lemma tally_listed b P q : NoDup q → (∀ f, f ∈ q → holds_at b P f = true) → Z.of_nat (length q) <= tally b P.
Proof.
  revert P. induction q as [|f q IH]; intros P Hq Hall; [apply tally_nonneg|]. apply NoDup_cons in Hq as [Hf Hq].
  assert (holds_at b P f = true) as Hb by (apply Hall; set_solver). unfold holds_at in Hb. destruct (P !! f) as [p|] eqn:Ef; [|done]. simpl in Hb.
  pose proof (tally_delete b P f p Ef) as Ht. rewrite Hb in Ht. assert (Z.of_nat (length q) <= tally b (delete f P)); [|simpl; lia].
  apply IH; [done|]. intros j Hj. rewrite holds_at_delete. rewrite decide_False by (intros ->; done). apply Hall. set_solver.
Qed.

Lemma unserved_announced P s : tx_ok P s → unserved P (queue s).*1 <= tally announced P.
Proof.
  intros [H1 _ H3]. apply tally_listed; [by apply NoDup_filter|]. intros f [Hg Hf]%list_elem_of_filter.
  specialize (H3 f (or_introl Hf)). unfold holds_at in *. destruct (P !! f) as [[]|]; simpl in *; done.
Qed.

Lemma unserved_mono P P' q : (∀ f, f ∈ q → holds_at gone P f = true → holds_at gone P' f = true) → unserved P' q <= unserved P q.
Proof.
  intros H. unfold unserved. induction q as [|f q IH]; [done|]. rewrite !filter_cons. specialize (IH (λ j Hj, H j (list_elem_of_further _ _ _ Hj))).
  pose proof (H f (list_elem_of_here _ _)). repeat case_decide; simpl; try lia. destruct (holds_at gone P f); naive_solver.
Qed.
Lemma passing_mono P P' g : (∀ f, f ∈ g → holds_at gone P f = true → holds_at gone P' f = true) → passing P g <= passing P' g.
Proof. intros H. unfold passing. apply Nat2Z.inj_le, subseteq_size. set_solver. Qed.

Lemma tx_ok_mono P P' s : (∀ f, holds_at started P f = true → holds_at started P' f = true) → tx_ok P s → tx_ok P' s.
Proof. intros H [? ? H3]. split; [done|done|]. intros f Hf. by apply H, H3. Qed.

(** Producers that come closer to leaving or to trying again. *)
Lemma provided_mono P P' s s' R R' :
  (queue s').*1 = (queue s).*1 → granted s' = granted s → R <= R' →
  (∀ f, f ∈ (queue s).*1 ∨ f ∈ granted s → holds_at gone P f = true → holds_at gone P' f = true) →
  (∀ f, f ∈ (queue s).*1 → holds_at checking P f = true → holds_at gone P' f || holds_at checking P' f = true) →
  provided P s R → provided P' s' R'.
Proof.
  intros Eq Eg HR Hg Hc (cov & fresh & E & Hf & Hn). rewrite E in *. exists cov, fresh. split_and!; [by rewrite Eq| |].
  - apply Forall_forall. intros f Hin. rewrite Forall_forall in Hf. specialize (Hf f Hin). apply orb_true_iff in Hf as [Hf|Hf]; [|apply Hc; set_solver].
    rewrite (Hg f) by set_solver. done.
  - rewrite Eg. pose proof (unserved_mono P P' cov ltac:(intros; apply Hg; set_solver)). pose proof (passing_mono P P' (granted s) ltac:(intros; apply Hg; set_solver)). lia.
Qed.

(** *** Operations of the semaphore by a producer *)
Lemma acquire_poll_ok P s R hr fr late f h m cx :
  tx_ok P s → P !! f = Some (Acquiring h m cx) → settled P s R hr fr late →
  let (s', ready) := acquire_poll f cx s in
  tx_ok (<[f:=Recheck h m cx ready]> P) s' ∧ settled (<[f:=Recheck h m cx ready]> P) s' R hr fr late ∧
  ∀ e, e.1 ≠ f → e ∈ queue s → e ∈ queue s'.
Proof.
  intros Hs Hf Hd. unfold acquire_poll.
  assert (∀ ready, tx_ok (<[f:=Recheck h m cx ready]> P) s) as Htx.
  { intros ready. eapply tx_ok_mono; [|exact Hs]. intros j. rewrite holds_at_insert. by case_decide. }
  assert (∀ ready j, holds_at gone P j = true → holds_at gone (<[f:=Recheck h m cx ready]> P) j = true) as Hgone.
  { intros ready j. rewrite holds_at_insert. case_decide as E; [|done]. by rewrite E, (holds_at_some _ _ _ _ Hf). }
  assert (∀ ready j, holds_at checking P j = true → holds_at checking (<[f:=Recheck h m cx ready]> P) j = true) as Hck.
  { intros ready j. rewrite holds_at_insert. by case_decide. }
  assert (∀ ready s', (queue s').*1 = (queue s).*1 → granted s' = granted s → settled (<[f:=Recheck h m cx ready]> P) s' R hr fr late) as Hsame.
  { intros ready s' Eq Eg. destruct Hd as [[Hr Hfr]|[Hp|?]]; [left|right; left|by right; right].
    - split; [done|]. rewrite Eg, (tally_update _ _ _ _ _ Hf). simpl. lia.
    - eapply provided_mono; [done..|apply Z.le_refl| | |exact Hp]; [by auto|]. intros j _ Hj. rewrite (Hck _ _ Hj). apply orb_true_r. }
  case_bool_decide as Hg; [|case_bool_decide as Hq; [|case_bool_decide]].
  - destruct (Htx true) as [H1 H2 H3]. split_and!; [split; simpl; [done|set_solver|]; intros j Hj; apply H3; set_solver| |done].
    destruct Hd as [[Hr Hfr]|[(cov & fresh & E & Hfr & Hn)|?]]; [left|right; left|by right; right].
    + split; [done|]. simpl. rewrite grants_size_remove, (tally_update _ _ _ _ _ Hf) by done. simpl. lia.
    + exists cov, fresh. split_and!; [done| |].
      * eapply Forall_impl; [exact Hfr|]. intros j [Hj|Hj]%orb_true_iff; [by rewrite (Hgone _ _ Hj)|rewrite (Hck _ _ Hj); apply orb_true_r].
      * pose proof (unserved_mono P (<[f:=Recheck h m cx true]> P) cov (λ j _, Hgone true j)). pose proof (passing_mono P (<[f:=Recheck h m cx true]> P) (granted s ∖ {[f]}) (λ j _, Hgone true j)) as Hp.
        rewrite passing_remove, (holds_at_some _ _ _ _ Hf) in Hp by done. simpl in *. lia.
  - assert (((λ e, if bool_decide (e.1 = f) then (f, cx) else e) <$> queue s).*1 = (queue s).*1) as Eq.
    { rewrite <-list_fmap_compose. apply list_fmap_ext. intros ? [j w] _. simpl. by case_bool_decide. }
    split_and!; [destruct (Htx false) as [H1 H2 H3]; split; simpl; by rewrite Eq|by apply Hsame|].
    intros e He Hin. simpl. apply list_elem_of_fmap. exists e. by rewrite bool_decide_eq_false_2.
  - split_and!; [destruct (Htx true) as [H1 H2 H3]; by split|by apply Hsame|done].
  - destruct (Htx false) as [H1 H2 H3]. split_and!; [| |simpl; set_solver].
    + split; simpl; rewrite fmap_app; simpl.
      * apply NoDup_app. split_and!; [done| |by apply NoDup_singleton]. set_solver.
      * set_solver.
      * intros j [[Hj|Hj]%elem_of_app|Hj]; [by apply H3; left| |by apply H3; right]. apply list_elem_of_singleton in Hj as ->.
        rewrite holds_at_insert. by rewrite decide_True.
    + destruct Hd as [[Hr Hfr]|[Hp|?]]; [left|right; left|by right; right].
      * split; [done|]. simpl. rewrite (tally_update _ _ _ _ _ Hf). simpl. lia.
      * apply (provided_mono P (<[f:=Recheck h m cx false]> P) s s R R) in Hp as (cov & fresh & E & Hfr & Hn); [|done|done|lia|by auto|intros j _ Hj; rewrite (Hck _ _ Hj); apply orb_true_r].
        exists cov, (fresh ++ [f]). split_and!; [simpl; by rewrite fmap_app, E, (assoc_L (++))| |done]. apply Forall_app. split; [done|].
        apply Forall_singleton. rewrite (holds_at_insert checking), decide_True by done. apply orb_true_r.
Qed.

Lemma filter_keys (l : list (nat * Waker)) f : (filter (λ e, e.1 ≠ f) l).*1 = filter (λ j, j ≠ f) l.*1.
Proof.
  induction l as [|[j w] l IH]; [done|]. rewrite fmap_cons. destruct (decide (j = f)) as [-> |Hne].
  - rewrite !filter_cons_False by (simpl; tauto). apply IH.
  - rewrite !filter_cons_True by done. by rewrite fmap_cons, IH.
Qed.
Lemma unserved_filter P q f : unserved P (filter (λ j, j ≠ f) q) <= unserved P q.
Proof. unfold unserved. induction q as [|j q IH]; [done|]. rewrite !filter_cons. repeat case_decide; rewrite ?filter_cons; repeat case_decide; simpl; by try lia. Qed.

Lemma acquire_drop_ok P s R hr fr late f :
  tx_ok P s → 0 <= R → P !! f = Some Releasing → settled P s R hr fr late →
  let (s', ws) := acquire_drop f s in
  tx_ok (delete f P) s' ∧ settled (delete f P) s' R hr fr late ∧ ∀ e, e.1 ≠ f → e ∈ queue s → e ∈ queue s' ∨ e.2 ∈ ws.
Proof.
  intros Hs HR Hf Hd. pose proof Hs as [H1 H2 H3]. unfold acquire_drop.
  assert (∀ b j, j ≠ f → holds_at b (delete f P) j = holds_at b P j) as Hother by (intros; by rewrite holds_at_delete, decide_False).
  assert (∀ b, b Releasing = false → tally b (delete f P) = tally b P) as Ht by (intros b Hb; rewrite (tally_delete _ _ _ _ Hf), Hb; lia).
  case_bool_decide as Hg.
  - assert (f ∉ (queue s).*1) as Hq by (intros Hq; by apply (H2 f)). set (s1 := mkTx _ _ _).
    assert (tx_ok (delete f P) s1) as Hs1.
    { split; simpl; [done|set_solver|]. intros j Hj. rewrite Hother by set_solver. apply H3. set_solver. }
    assert (settled (delete f P) s1 (R + 1) hr fr late) as Hd1.
    { destruct Hd as [[Hr Hfr]|[(cov & fresh & E & Hfr & Hn)|?]]; [left|right; left|by right; right].
      - split; [done|]. simpl. rewrite grants_size_remove, Ht by done. lia.
      - exists cov, fresh. rewrite E in Hq. split_and!; [done| |].
        + apply Forall_forall. rewrite Forall_forall in Hfr. intros j Hj. rewrite !Hother by set_solver. by apply Hfr.
        + pose proof (unserved_mono P (delete f P) cov ltac:(intros; rewrite Hother by set_solver; done)). simpl.
          pose proof (passing_mono P (delete f P) (granted s ∖ {[f]}) ltac:(intros; rewrite Hother by set_solver; done)) as Hp.
          rewrite passing_remove, (holds_at_some _ _ _ _ Hf) in Hp by done. simpl in Hp. lia. }
    pose proof (distribute_ok _ 1 s1 (R + 1) hr fr late Hs1 ltac:(lia) Hd1) as Hx. destruct (distribute 1 s1) as [[s' ws] rest].
    destruct Hx as (Hs' & Hd' & Hk & _ & Hrest). rewrite Hrest in Hd' by (by vm_compute). split_and!; [done| |intros e _ He; by apply Hk].
    by replace (R + 1 - 1 + 0) with R in Hd' by lia.
  - set (l := filter _ _). assert (l.*1 = filter (λ j, j ≠ f) (queue s).*1) as El by apply filter_keys.
    split_and!; [| |intros e He Hin; left; simpl; by apply list_elem_of_filter].
    + split; simpl; rewrite El; [by apply NoDup_filter|intros j [_ Hj]%list_elem_of_filter; by apply H2|].
      intros j Hj. assert (j ≠ f ∧ (j ∈ (queue s).*1 ∨ j ∈ granted s)) as [Hne Hin]; [|rewrite Hother by done; by apply H3].
      destruct Hj as [[? ?]%list_elem_of_filter|Hj]; [by auto|]. split; [by intros ->|by right].
    + destruct Hd as [[Hr Hfr]|[(cov & fresh & E & Hfr & Hn)|?]]; [left|right; left|by right; right].
      * split; [done|]. simpl. by rewrite Ht.
      * exists (filter (λ j, j ≠ f) cov), (filter (λ j, j ≠ f) fresh). split_and!; [simpl; by rewrite El, E, filter_app| |].
        -- apply Forall_forall. intros j [Hj Hin]%list_elem_of_filter. rewrite Forall_forall in Hfr. rewrite !Hother by done. by apply Hfr.
        -- pose proof (passing_mono P (delete f P) (granted s) ltac:(intros; rewrite Hother by set_solver; done)).
           assert (unserved (delete f P) (filter (λ j, j ≠ f) cov) <= unserved P cov); [|simpl; lia].
           etrans; [apply (unserved_mono P); intros j [Hj _]%list_elem_of_filter; by rewrite Hother|]. apply unserved_filter.
Qed.

Lemma producers_notified P s R hr fr late :
  tx_ok P s → 0 <= R → let (s', ws) := notify_all s in tx_ok P s' ∧ settled P s' R hr fr late ∧ kept s s' ws.
Proof.
  intros [H1 H2 H3] HR. simpl. split_and!; [|right; left; by apply provided_empty|intros e He; right; by apply list_elem_of_fmap_2].
  split; simpl; [constructor|set_solver|]. intros f Hf. apply H3. set_solver.
Qed.
End debts.

(** ** Invariant *)
Section invariant.
Context {T : Type} (c : Z).
Implicit Types (x : Sys T) (l : Label T) (f h t : nat) (m : T) (ws : list Waker) (cx : Waker) (rs : gmap nat Reclaimer).

(** The permits a receiver is about to release, and whether it wakes everybody. *)
Definition owed (r : Reclaimer) : Z := match r with CountBlocked n | ReleaseIfWaiters n | Distribute n => n | _ => 0 end.
Definition wakes_all (r : Reclaimer) : Prop := r = CountAll ∨ r = NotifyAll.
Definition late rs : Prop := map_Exists (λ _ r, wakes_all r) rs.

Record sys_ok x : Prop := {
  so_chan : ∃ hist subs, chan_ok (Some c) hist subs (chan x);
  so_blocked : blocked_senders x = tally announced (producers x);
  so_max : blocked_senders x <= usize_max;
  so_owed : ∀ t r, reclaimers x !! t = Some r → 0 <= owed r;
  so_tx : tx_ok (producers x) (tx_permits x);
  so_settled : settled (producers x) (tx_permits x) (map_sum owed (reclaimers x)) (has_receivers (log (inner (chan x)))) (free c (chan x))
    (late (reclaimers x));
}.

(** The future [f] sleeps and has left a waker in the queue. *)
Definition parked f cx x : Prop := (∃ h m, producers x !! f = Some (Resting h m)) ∧ (f, cx) ∈ queue (tx_permits x).

Definition about l : option nat :=
  match l with
  | SendStart f _ _ | SendPoll f _ | SendCancel f | ProducerStep f => Some f
  | _ => None
  end.

Definition effect l x ws x' : Prop :=
  sys_ok x' ∧ ∀ f cx, about l ≠ Some f → parked f cx x → parked f cx x' ∨ cx ∈ ws.

Lemma parked_kept x x' ws : producers x' = producers x → kept (tx_permits x) (tx_permits x') ws →
  ∀ f cx, parked f cx x → parked f cx x' ∨ cx ∈ ws.
Proof. intros Ep Hk f cx [Hp Hq]. destruct (Hk _ Hq) as [?|?]; [left|by right]. split; [by rewrite Ep|done]. Qed.

Lemma parked_other x x' ws f : (∀ j, j ≠ f → producers x' !! j = producers x !! j) →
  (∀ e, e.1 ≠ f → e ∈ queue (tx_permits x) → e ∈ queue (tx_permits x') ∨ e.2 ∈ ws) →
  ∀ j cx, Some f ≠ Some j → parked j cx x → parked j cx x' ∨ cx ∈ ws.
Proof.
  intros Ho Hk j cx Hne [Hp Hq]. destruct (Hk (j, cx)) as [?|?]; [simpl; congruence|done|left|by right]. split; [|done]. by rewrite Ho by congruence.
Qed.

Lemma owed_nonneg x : sys_ok x → 0 <= map_sum owed (reclaimers x).
Proof. intros Hx. apply map_sum_nonneg, Hx. Qed.

(** An operation of the channel: the state and what happened to the slots. *)
Lemma chan_wp x lc : sys_ok x → Broadcast.enabled (Some c) lc (chan x) = true →
  wp (Broadcast.exec (Some c) lc) (chan x) (λ o y, (∃ hist subs, chan_ok (Some c) hist subs y) ∧ account c lc (chan x) o y).
Proof.
  intros Hx He. destruct (so_chan _ Hx) as (hist & subs & Hy). apply wp_returns.
  destruct (proj1 (wp_returns _ _ _) (broadcast_exec_ok (Some c) hist subs lc (chan x) Hy He)) as (o & y & Hr & hist' & subs' & Hm).
  exists o, y. split; [done|]. split; [exists hist', subs'; apply Hm|by eapply slot_account].
Qed.

(** A receiver moves on; what it owes is accounted for. *)
Lemma reclaimer_moves x s rs :
  sys_ok x → (∀ t r, rs !! t = Some r → 0 <= owed r) → tx_ok (producers x) s →
  settled (producers x) s (map_sum owed rs) (has_receivers (log (inner (chan x)))) (free c (chan x)) (late rs) →
  sys_ok (mkSys (chan x) s (blocked_senders x) (producers x) rs).
Proof. intros [H1 H2 H3 H4 H5 H6] Ho Hs Hd. by split. Qed.

Lemma late_insert rs t r : rs !! t = None → late rs → late (<[t:=r]> rs).
Proof. intros Ht (j & r' & Hj & Hr). exists j, r'. rewrite lookup_insert_ne; [done|congruence]. Qed.
Lemma late_update rs t r r' : rs !! t = Some r → ¬ wakes_all r → late rs → late (<[t:=r']> rs) ∧ late (delete t rs).
Proof.
  intros Ht Hr (j & r1 & Hj & Hr1). assert (j ≠ t) by (intros ->; naive_solver). split; exists j, r1;
    [by rewrite lookup_insert_ne|by rewrite lookup_delete_ne].
Qed.

Lemma settled_late {P : gmap nat (Producer T)} {s R hr fr} {a b : Prop} : (a → b) → settled P s R hr fr a → settled P s R hr fr b.
Proof. intros H [?|[?|?]]; [by left|by right; left|right; right; auto]. Qed.
Lemma provided_more {P : gmap nat (Producer T)} {s R R'} : provided P s R → R <= R' → provided P s R'.
Proof. intros (cov & fresh & ? & ? & ?) HR. exists cov, fresh. split_and!; [done|done|lia]. Qed.

(** *** Steps of the receivers *)
Lemma freed_nonneg (o : Broadcast.Obs T) : 0 <= freed o.
Proof. unfold freed. destruct (got o) as [[? [? [] ]]|]; simpl; lia. Qed.

(** Once it has unlocked the log a receiver is going to wake everybody, or to release what it freed. *)
Lemma follow_up_ok lc (o : Broadcast.Obs T) y y' rs t :
  account c lc y o y' → rs !! t = None →
  let rs' := match follow_up lc o y' with Some r => <[t:=r]> rs | None => rs end in
  (late rs' ∧ map_sum owed rs' = map_sum owed rs) ∨
  (map_sum owed rs' = map_sum owed rs + freed o ∧ (late rs → late rs') ∧ (has_receivers (log (inner y)) = true → has_receivers (log (inner y')) = true)).
Proof.
  intros Ha Ht. pose proof (ac_receivers _ _ _ _ _ Ha) as Hr.
  assert (let rs' := match (if bool_decide (freed o = 0) then None else Some (CountBlocked (freed o))) with Some r => <[t:=r]> rs | None => rs end in
    map_sum owed rs' = map_sum owed rs + freed o ∧ (late rs → late rs')) as [Hs Hl].
  { case_bool_decide as E; simpl; [split; [lia|done]|]. rewrite map_sum_insert by done. simpl. split; [lia|by apply late_insert]. }
  destruct lc; simpl; try (right; split_and!; [done|done|by apply Hr]).
  destruct (has_receivers (log (inner y'))) eqn:E; simpl; [by right|]. left. rewrite map_sum_insert by done. split; [|done].
  exists t, CountAll. rewrite lookup_insert_eq. split; [done|by left].
Qed.

Lemma chan_step_ok t lc x :
  sys_ok x → enabled c (Chan t lc) x = true → wp (exec c (Chan t lc)) x (effect (Chan t lc) x).
Proof.
  intros Hx He. simpl in He. apply andb_true_iff in He as [[He Ht]%andb_true_iff _]. apply bool_decide_eq_true in Ht. simpl. unfold chan_step. wp_auto.
  wp_apply (chan_wp x lc); [done|done|]. intros o y [Hy Ha]. wp_auto. split; [|intros f cx _ Hp; by left].
  destruct Hx as [H1 H2 H3 H4 H5 H6]. pose proof (ac_free _ _ _ _ _ Ha) as Hfree. pose proof (freed_nonneg o).
  assert (free c y <= free c (chan x) + freed o) as Hle by (destruct lc; simpl in Hfree; repeat case_match; lia).
  pose proof (follow_up_ok lc o (chan x) y (reclaimers x) t Ha Ht) as Hf. simpl in Hf. split; simpl; try done.
  - intros j r. destruct (follow_up lc o y) as [r'|] eqn:E; [|apply H4]. rewrite lookup_insert. case_decide; [|apply H4]. intros [= <-].
    unfold follow_up in E. repeat case_match; simplify_eq; simpl; done.
  - destruct Hf as [[Hl _]|(Hs & Hl & Hr)]; [by right; right|]. rewrite Hs. destruct H6 as [[Hh Hm]|[Hp|Hlt]]; [left|right; left|right; right; auto].
    + split; [auto|lia].
    + apply (provided_more Hp). lia.
Qed.

(** A turn of the release loop. *)
Lemma release_turn t x r n :
  sys_ok x → reclaimers x !! t = Some r → owed r = n → ¬ wakes_all r →
  let '(s, ws, rest) := distribute n (tx_permits x) in
  ∀ rs, rs = (if bool_decide (rest = 0) then delete t (reclaimers x) else <[t:=Distribute rest]> (reclaimers x)) →
  sys_ok (mkSys (chan x) s (blocked_senders x) (producers x) rs) ∧ ∀ f cx, parked f cx x → parked f cx (mkSys (chan x) s (blocked_senders x) (producers x) rs) ∨ cx ∈ ws.
Proof.
  intros Hx Ht Hn Hw. pose proof (so_owed _ Hx t r Ht) as H0. pose proof (map_sum_elem owed _ _ _ (so_owed _ Hx) Ht) as Hle.
  assert (0 <= n <= map_sum owed (reclaimers x)) as Hb by (rewrite <-Hn; lia).
  pose proof (distribute_ok _ n (tx_permits x) _ _ _ _ (so_tx _ Hx) Hb (so_settled _ Hx)) as Hd.
  destruct (distribute n (tx_permits x)) as [[s ws] rest]. destruct Hd as (Hs & Hd & Hk & Hr & _). intros rs ->. split; [|by apply parked_kept].
  apply reclaimer_moves; [done| |done|].
  - intros j r' Hj. case_bool_decide; [apply lookup_delete_Some in Hj as [_ Hj]; by apply (so_owed _ Hx j)|].
    apply lookup_insert_Some in Hj as [[_ <-]|[_ Hj]]; [simpl; lia|by apply (so_owed _ Hx j)].
  - case_bool_decide as E.
    + rewrite (map_sum_delete _ _ _ r), Hn by done. eapply settled_late; [by eapply late_update|]. by replace (_ - n) with (map_sum owed (reclaimers x) - n + rest) by lia.
    + rewrite (map_sum_update _ _ _ r), Hn by done. simpl. eapply settled_late; [by eapply late_update|done].
Qed.

(** Receivers read the number of waiting producers: none of them needs a permit beyond it. *)
Lemma count_blocked_ok t n x :
  sys_ok x → reclaimers x !! t = Some (CountBlocked n) →
  sys_ok (set_reclaimers (if bool_decide (0 < blocked_senders x) then <[t:=ReleaseIfWaiters (Z.min n (blocked_senders x))]> (reclaimers x)
    else delete t (reclaimers x)) x).
Proof.
  intros Hx Ht. pose proof (so_owed _ Hx t _ Ht) as H0. simpl in H0. pose proof (unserved_announced _ _ (so_tx _ Hx)) as Hu. rewrite <-(so_blocked _ Hx) in Hu.
  pose proof (passing_nonneg (producers x) (granted (tx_permits x))). pose proof (map_sum_elem owed _ _ _ (so_owed _ Hx) Ht) as Hle. simpl in Hle.
  assert (¬ wakes_all (CountBlocked n)) as Hw by (by intros [|]).
  apply reclaimer_moves; [done| |apply Hx|].
  - intros j r' Hj. case_bool_decide; [|apply lookup_delete_Some in Hj as [_ Hj]; by apply (so_owed _ Hx j)].
    apply lookup_insert_Some in Hj as [[_ <-]|[_ Hj]]; [simpl; lia|by apply (so_owed _ Hx j)].
  - destruct (decide (n <= blocked_senders x)) as [Hn|Hn].
    + case_bool_decide.
      * rewrite (map_sum_update _ _ _ _ _ Ht), Z.min_l by done. simpl. eapply settled_late; [by eapply (late_update _ t)|].
        replace (_ - n + n) with (map_sum owed (reclaimers x)) by lia. apply Hx.
      * rewrite (map_sum_delete _ _ _ _ Ht). simpl. eapply settled_late; [by eapply (late_update _ t _ CountAll)|].
        replace (_ - n) with (map_sum owed (reclaimers x)) by lia. apply Hx.
    + right; left. exists (queue (tx_permits x)).*1, []. split_and!; [by rewrite app_nil_r|constructor|].
      case_bool_decide; [rewrite (map_sum_update _ _ _ _ _ Ht)|rewrite (map_sum_delete _ _ _ _ Ht)]; simpl; lia.
Qed.

(** With no producer waiting the last receiver has nobody to wake. *)
Lemma count_all_ok t x :
  sys_ok x → reclaimers x !! t = Some CountAll →
  sys_ok (set_reclaimers (if bool_decide (0 < blocked_senders x) then <[t:=NotifyAll]> (reclaimers x) else delete t (reclaimers x)) x).
Proof.
  intros Hx Ht. pose proof (unserved_announced _ _ (so_tx _ Hx)) as Hu. rewrite <-(so_blocked _ Hx) in Hu.
  pose proof (passing_nonneg (producers x) (granted (tx_permits x))). pose proof (owed_nonneg x Hx).
  apply reclaimer_moves; [done| |apply Hx|].
  - intros j r' Hj. case_bool_decide; [|apply lookup_delete_Some in Hj as [_ Hj]; by apply (so_owed _ Hx j)].
    apply lookup_insert_Some in Hj as [[_ <-]|[_ Hj]]; [done|by apply (so_owed _ Hx j)].
  - case_bool_decide.
    + right; right. exists t, NotifyAll. rewrite lookup_insert_eq. split; [done|by right].
    + right; left. exists (queue (tx_permits x)).*1, []. split_and!; [by rewrite app_nil_r|constructor|]. rewrite (map_sum_delete _ _ _ _ Ht). simpl. lia.
Qed.

Lemma reclaimer_stops t x s r :
  sys_ok x → reclaimers x !! t = Some r → tx_ok (producers x) s → queue s = [] →
  sys_ok (mkSys (chan x) s (blocked_senders x) (producers x) (delete t (reclaimers x))).
Proof.
  intros Hx Ht Hs Eq. apply reclaimer_moves; [done|intros j r' [_ Hj]%lookup_delete_Some; by apply (so_owed _ Hx j)|done|].
  right; left. apply provided_empty; [done|]. apply map_sum_nonneg. intros j r' [_ Hj]%lookup_delete_Some. by apply (so_owed _ Hx j).
Qed.

Lemma reclaimer_step_ok t x :
  sys_ok x → enabled c (ReclaimerStep t) x = true → wp (exec c (ReclaimerStep t)) x (effect (ReclaimerStep t) x).
Proof.
  intros Hx He. simpl. unfold reclaimer_step. wp_auto. simpl in He. destruct (reclaimers x !! t) as [r|] eqn:Et; [|done]. eapply wp_expect; [done|].
  assert (∀ y, producers y = producers x → tx_permits y = tx_permits x → ∀ f cx, parked f cx x → parked f cx y ∨ cx ∈ []) as Hsame.
  { intros y Ep Es. apply parked_kept; [done|]. rewrite Es. by intros e; left. }
  clear He. destruct r as [n|n|n| |].
  - pose proof (count_blocked_ok t n x Hx Et) as Hok. case_bool_decide; wp_auto; (split; [exact Hok|intros f cx _; by apply Hsame]).
  - case_bool_decide as Eq; wp_auto.
    { split; [exact (reclaimer_stops t x (tx_permits x) _ Hx Et (so_tx _ Hx) Eq)|intros f cx _; by apply Hsame]. }
    pose proof (release_turn t x _ n Hx Et eq_refl ltac:(by intros [|])) as Hok. destruct (distribute n (tx_permits x)) as [[s ws] rest].
    destruct (Hok _ eq_refl) as [Hs Hp]. wp_auto. case_bool_decide; wp_auto; (split; [exact Hs|intros f cx _; apply Hp]).
  - pose proof (release_turn t x _ n Hx Et eq_refl ltac:(by intros [|])) as Hok. destruct (distribute n (tx_permits x)) as [[s ws] rest].
    destruct (Hok _ eq_refl) as [Hs Hp]. wp_auto. case_bool_decide; wp_auto; (split; [exact Hs|intros f cx _; apply Hp]).
  - pose proof (count_all_ok t x Hx Et) as Hok. case_bool_decide; wp_auto; (split; [exact Hok|intros f cx _; by apply Hsame]).
  - destruct (producers_notified _ _ 0 true 0 False (so_tx _ Hx) ltac:(lia)) as (Hs & _ & Hk). wp_auto. simpl. wp_auto.
    split; [exact (reclaimer_stops t x _ _ Hx Et Hs eq_refl)|intros f cx _; by apply parked_kept].
Qed.

(** *** Steps of the producers *)
Lemma advance x f p p' b :
  sys_ok x → producers x !! f = Some p → checking p = false → checking p' = false → (gone p = true → gone p' = true) → started p' = true →
  b = blocked_senders x - (if announced p then 1 else 0) + (if announced p' then 1 else 0) → b <= usize_max →
  sys_ok (mkSys (chan x) (tx_permits x) b (<[f:=p']> (producers x)) (reclaimers x)).
Proof.
  intros [H1 H2 H3 H4 H5 H6] Hf Hc Hc' Hg Hs -> Hb. split; simpl; try done.
  - by rewrite H2, (tally_update _ _ _ _ _ Hf).
  - eapply tx_ok_mono; [|exact H5]. intros j. rewrite holds_at_insert. by case_decide.
  - destruct H6 as [[Hr Hm]|[Hp|?]]; [left|right; left|by right; right].
    + split; [done|]. rewrite (tally_update _ _ _ _ _ Hf), Hc, Hc'. lia.
    + eapply provided_mono; [done|done|apply Z.le_refl| | |exact Hp]; intros j _; rewrite !holds_at_insert; case_decide as E.
      * subst j. by rewrite (holds_at_some _ _ _ _ Hf).
      * done.
      * subst j. by rewrite (holds_at_some _ _ _ _ Hf), Hc.
      * intros ->. apply orb_true_r.
Qed.

Lemma wrap_down n : 0 < n <= usize_max → wrapping_add usize_max n (-1) = n - 1.
Proof. intros H. unfold wrapping_add. rewrite Z.mod_small; lia. Qed.
Lemma wrap_up n : 0 <= n < usize_max → wrapping_add usize_max n 1 = n + 1.
Proof. intros H. unfold wrapping_add. rewrite Z.mod_small; lia. Qed.

(** The producers after an attempt to publish: done, or the channel is full. *)
Lemma attempt_ok x f h m cx ready o y p :
  sys_ok x → producers x !! f = Some (Recheck h m cx ready) → (∃ hist subs, chan_ok (Some c) hist subs y) → account c (Send h m) (chan x) o y →
  match full o with Some _ => checking p = false ∧ announced p = true ∧ started p = true | None => p = Leaving end →
  sys_ok (mkSys y (tx_permits x) (blocked_senders x) (<[f:=p]> (producers x)) (reclaimers x)).
Proof.
  intros Hx Hf Hy Ha Hp. pose proof (owed_nonneg x Hx). destruct Hx as [H1 H2 H3 H4 H5 H6]. pose proof (ac_free _ _ _ _ _ Ha) as Hfree.
  pose proof (ac_receivers _ _ _ _ _ Ha ltac:(done)) as Hr. pose proof (ac_full _ _ _ _ _ Ha) as Hfull. rewrite (ac_send _ _ _ _ _ Ha h m eq_refl) in Hfree.
  assert (announced p = true ∧ started p = true) as [Hp1 Hp2] by (destruct (full o); [tauto|by subst p]). split; simpl; try done.
  - rewrite H2, (tally_update _ _ _ _ _ Hf), Hp1. simpl. lia.
  - eapply tx_ok_mono; [|exact H5]. intros j. rewrite holds_at_insert. by case_decide.
  - destruct (full o) as [m'|].
    + destruct (Hfull m' eq_refl) as [Hrec H0]. left. split; [auto|]. rewrite bool_decide_eq_false_2 in Hfree by done. simpl in Hfree.
      pose proof (tally_nonneg checking (<[f:=p]> (producers x))). lia.
    + subst p. rewrite bool_decide_eq_true_2 in Hfree by done. simpl in Hfree. destruct H6 as [[Hrec Hm]|[Hpr|?]]; [left|right; left|by right; right].
      * split; [auto|]. rewrite Hrec in Hfree. rewrite (tally_update _ _ _ _ _ Hf). simpl. lia.
      * eapply provided_mono; [done|done|apply Z.le_refl| | |exact Hpr]; intros j _; rewrite !holds_at_insert; case_decide as E; [done|done|done|].
        intros ->. apply orb_true_r.
Qed.

Lemma send_start_ok f h m x :
  sys_ok x → enabled c (SendStart f h m) x = true → wp (exec c (SendStart f h m)) x (effect (SendStart f h m) x).
Proof.
  intros Hx [He Hf%bool_decide_eq_true]%andb_true_iff. cbn [exec]. unfold send_start, move. wp_auto. wp_apply (chan_wp x (Send h m)); [done|exact He|].
  intros o y [Hy Ha]. pose proof (ac_free _ _ _ _ _ Ha) as Hfree. rewrite (ac_send _ _ _ _ _ Ha h m eq_refl) in Hfree.
  pose proof (ac_receivers _ _ _ _ _ Ha ltac:(done)) as Hr. assert (free c y <= free c (chan x)) as Hle by (simpl in Hfree; case_match; lia).
  destruct Hx as [H1 H2 H3 H4 H5 H6].
  assert (∀ P, (∀ b, (∀ m, b (Announce h m) = false) → tally b P = tally b (producers x)) → (∀ b j, j ≠ f → holds_at b P j = holds_at b (producers x) j) →
    sys_ok (mkSys y (tx_permits x) (blocked_senders x) P (reclaimers x))) as Hok.
  { intros P Ht Ho. assert (∀ j, holds_at started (producers x) j = true → j ≠ f) as Hne by (intros j Hj ->; unfold holds_at in Hj; by rewrite Hf in Hj).
    split; simpl; try done; [by rewrite Ht|eapply tx_ok_mono; [|exact H5]; intros j Hj; rewrite Ho by auto; done|].
    destruct H6 as [[Hrec Hm]|[Hp|?]]; [left; split; [auto|]; rewrite Ht by done; lia|right; left|by right; right].
    eapply provided_mono; [done|done|apply Z.le_refl| | |exact Hp]; intros j Hj; rewrite !Ho by (apply Hne, H5; tauto); [done|]. intros ->. apply orb_true_r. }
  destruct (full o) as [m'|]; wp_auto.
  - split; [|apply parked_other; [intros; simpl; by rewrite lookup_insert_ne|by intros e; left]].
    apply Hok; [intros b Hb; unfold tally; rewrite map_sum_insert by done; simpl; rewrite Hb; lia|]. intros b j Hj. by rewrite holds_at_insert, decide_False.
  - split; [by apply Hok|]. intros j cx _ Hp. by left.
Qed.

Lemma producer_step_ok f x :
  sys_ok x → enabled c (ProducerStep f) x = true → wp (exec c (ProducerStep f)) x (effect (ProducerStep f) x).
Proof.
  intros Hx He. cbn [exec]. unfold producer_step, move. wp_auto. simpl in He. destruct (producers x !! f) as [p|] eqn:Ef; [|done]. eapply wp_expect; [done|].
  pose proof (so_blocked _ Hx) as Hb. pose proof (so_max _ Hx) as Hmax. pose proof (tally_nonneg announced (producers x)).
  assert (∀ y s b p rs, (∀ e, e.1 ≠ f → e ∈ queue (tx_permits x) → e ∈ queue s) → ∀ ws j cx, Some f ≠ Some j → parked j cx x →
    parked j cx (mkSys y s b (<[f:=p]> (producers x)) rs) ∨ cx ∈ ws) as Hpk.
  { intros y s b p' rs Hq ws. apply parked_other; [intros; simpl; by rewrite lookup_insert_ne|]. intros e He' Hin. left. by apply Hq. }
  destruct p as [h m|h m|h m cx|h m cx ready| |]; try done; wp_auto.
  - apply bool_decide_eq_true in He. rewrite wrap_up by lia. split; [|by apply Hpk]. apply (advance x f _ _ _ Hx Ef); try done; simpl; lia.
  - pose proof (acquire_poll_ok _ _ _ _ _ _ f h m cx (so_tx _ Hx) Ef (so_settled _ Hx)) as Ha. destruct (acquire_poll f cx (tx_permits x)) as [s ready].
    destruct Ha as (Hs & Hd & Hq). wp_auto. split; [|by apply Hpk]. destruct Hx. split; simpl; try done. rewrite (tally_update _ _ _ _ _ Ef). simpl. lia.
  - wp_apply (chan_wp x (Send h m)); [done|exact He|]. intros o y [Hy Ha]. pose proof (attempt_ok x f h m cx ready o y) as Hat.
    destruct (full o) as [m'|]; [destruct ready|]; wp_auto; (split; [|by apply Hpk]); by apply Hat.
  - assert (0 < blocked_senders x) by (rewrite Hb; by eapply tally_elem).
    rewrite wrap_down by lia. split; [|by apply Hpk]. apply (advance x f _ _ _ Hx Ef); try done; simpl; lia.
  - pose proof (acquire_drop_ok _ _ _ _ _ _ f (so_tx _ Hx) (owed_nonneg x Hx) Ef (so_settled _ Hx)) as Ha. destruct (acquire_drop f (tx_permits x)) as [s ws].
    destruct Ha as (Hs & Hd & Hq). wp_auto. split; [|apply parked_other; [intros; simpl; by rewrite lookup_delete_ne|done]].
    destruct Hx. split; simpl; try done. rewrite (tally_delete _ _ _ _ Ef). simpl. lia.
Qed.

Lemma sys_exec_ok l x : sys_ok x → enabled c l x = true → wp (exec c l) x (effect l x).
Proof.
  intros Hx He. destruct l as [t lc|f h m|f cx|f|f|t]; [by apply chan_step_ok|by apply send_start_ok| | |by apply producer_step_ok|by apply reclaimer_step_ok];
    simpl in He; destruct (producers x !! f) as [[| h m| | | |]|] eqn:Ef; try done; simpl; unfold move; wp_auto.
  - rewrite Ef. wp_auto. split; [|apply parked_other; [intros; simpl; by rewrite lookup_insert_ne|by intros e; left]].
    apply (advance x f _ _ _ Hx Ef); try done; [simpl; lia|apply Hx].
  - split; [|apply parked_other; [intros; simpl; by rewrite lookup_insert_ne|by intros e; left]].
    apply (advance x f _ _ _ Hx Ef); try done; [simpl; lia|apply Hx].
Qed.

Lemma bounded_ok x : bounded c = Some x → sys_ok x.
Proof.
  unfold bounded. intros (y & Hy & ->)%fmap_Some. split; simpl; try done; [eexists _, _; by apply channel_ok|..].
  - split; simpl; [constructor|set_solver|set_solver].
  - right; left. by apply provided_empty.
Qed.

Lemma sys_reachable x0 ls tr x : bounded c = Some x0 → returns (run (enabled c) (exec c) ls) x0 tr x → sys_ok x.
Proof.
  intros H0. apply (run_invariant (enabled c) (exec c) sys_ok); [|by apply bounded_ok].
  intros y l Hy He. eapply wp_mono; [by apply sys_exec_ok|]. by intros ? y' [? _].
Qed.

End invariant.

(** ** Properties *)
Section properties.
Context {T : Type} (c : Z).
Implicit Types (x : Sys T) (l : Label T) (f : nat) (cx : Waker).

(** Whoever is parked is provided for. *)
Lemma parked_provided f cx x :
  sys_ok c x → parked f cx x →
  (has_receivers (log (inner (chan x))) = true ∧ retained (log (inner (chan x))) = c) ∨
  reclaimers x ≠ ∅ ∨ granted (tx_permits x) ≠ ∅ ∨ map_Exists (λ _ p, checking p = true) (producers x).
Proof.
  intros Hx [(h & m & Hf) Hq]. apply (list_elem_of_fmap_2 fst) in Hq. simpl in Hq.
  destruct (decide (reclaimers x = ∅)) as [Er|?]; [|by right; left]. destruct (decide (granted (tx_permits x) = ∅)) as [Eg|?]; [|by right; right; left].
  destruct (so_settled _ _ Hx) as [[Hr Hm]|[(cov & fresh & E & Hfr & Hn)|(t & r & Ht & _)]]; [| |by rewrite Er, lookup_empty in Ht].
  - rewrite Er, Eg, size_empty in Hm. unfold free in Hm. simpl in Hm. destruct (so_chan _ _ Hx) as (hist & subs & Hy). destruct (co_cap _ _ _ _ Hy) as [Hcap _].
    destruct (decide (map_Exists (λ _ p, checking p = true) (producers x))) as [?|Hno]; [by right; right; right|left]. split; [done|].
    rewrite map_sum_empty, (tally_none _ _ Hno) in Hm. lia.
  - exfalso. rewrite E in Hq. apply elem_of_app in Hq as [Hq|Hq].
    + rewrite Er, Eg, map_sum_empty in Hn. unfold passing in Hn. rewrite filter_empty_L, size_empty in Hn by apply _. unfold unserved in Hn.
      assert (f ∈ filter (λ j, holds_at gone (producers x) j = false) cov) as Hin by (apply list_elem_of_filter; by rewrite (holds_at_some _ _ _ _ Hf)).
      destruct (filter _ cov); [by apply elem_of_nil in Hin|simpl in Hn; lia].
    + rewrite Forall_forall in Hfr. specialize (Hfr f Hq). by rewrite !(holds_at_some _ _ _ _ Hf) in Hfr.
Qed.

(** C5: a producer that waits for capacity is not forgotten: until it is polled or dropped, its task is
    woken, or there is a receiver and the channel is full, or a receiver is about to release or to wake,
    or a grant is about to be used or passed on, or a producer is about to try again.  In particular,
    once every operation in flight has finished, a producer sleeps only while the channel is full.  No
    operation panics. *)
Theorem bounded_send_not_forgotten x0 ls tr x f cx ls' tr' x' :
  bounded c = Some x0 → returns (run (enabled c) (exec c) ls) x0 tr x → parked f cx x →
  Forall (λ l, about l ≠ Some f) ls' → returns (run (enabled c) (exec c) ls') x tr' x' →
  no_panic (enabled c) (exec c) x' ∧
  (Exists (λ e, cx ∈ e.2) tr' ∨
  (parked f cx x' ∧
   ((has_receivers (log (inner (chan x'))) = true ∧ retained (log (inner (chan x'))) = c) ∨
    reclaimers x' ≠ ∅ ∨ granted (tx_permits x') ≠ ∅ ∨ map_Exists (λ _ p, checking p = true) (producers x')))).
Proof.
  intros H0 Hr Hp Hab Hr'. pose proof (sys_reachable c _ _ _ _ H0 Hr) as Hx.
  assert (sys_ok c x') as Hx'.
  { refine (run_invariant (enabled c) (exec c) (sys_ok c) ls' x tr' x' _ Hx Hr'). intros y l Hy He. eapply wp_mono; [by apply sys_exec_ok|]. by intros ? y' [? _]. }
  split; [apply (no_panic_wp _ _ _ _ (λ l, sys_exec_ok c l x' Hx'))|].
  destruct (run_promise (enabled c) (exec c) (sys_ok c) (parked f cx) (λ ws, cx ∈ ws) (λ l, bool_decide (about l ≠ Some f)) ls' x tr' x') as [Hp'|?];
    [|done|done| |done| |by left].
  - intros y l Hy He Hl%bool_decide_eq_true. eapply wp_mono; [by apply sys_exec_ok|]. intros ws y' [Hok Hk]. split; [done|]. by apply Hk.
  - eapply Forall_impl; [exact Hab|]. intros l Hl. by apply bool_decide_eq_true.
  - right. split; [done|]. by eapply parked_provided.
Qed.

(** The counter that receivers read is the number of producers between their announcement and their
    departure, and the queue of the semaphore holds each of them once. *)
Theorem bounded_blocked_counted x0 ls tr x :
  bounded c = Some x0 → returns (run (enabled c) (exec c) ls) x0 tr x →
  blocked_senders x = tally announced (producers x) ∧ NoDup (queue (tx_permits x)).*1 ∧ unserved (producers x) (queue (tx_permits x)).*1 <= blocked_senders x.
Proof.
  intros H0 Hr. pose proof (sys_reachable c _ _ _ _ H0 Hr) as Hx. split_and!; [apply Hx|apply (so_tx _ _ Hx)|].
  rewrite (so_blocked _ _ Hx). apply unserved_announced, Hx.
Qed.
End properties.

(** A channel of capacity one is full; a second producer waits until the receiver frees the slot. *)
Definition waiting_run : list (Label nat) :=
  [Chan 0 (Send 0 7%nat); SendStart 5 0 8%nat; ProducerStep 5; SendPoll 5 100%nat; ProducerStep 5; ProducerStep 5].
Definition freeing_run : list (Label nat) := [Chan 1 (TryRecv 0); ReclaimerStep 1; ReclaimerStep 1].

Lemma bounded_send_not_forgotten_witness :
  ∃ x0 tr x tr' x', bounded 1 = Some x0 ∧ returns (run (enabled 1) (exec 1) waiting_run) x0 tr x ∧ parked 5 100%nat x ∧
    returns (run (enabled 1) (exec 1) freeing_run) x tr' x' ∧ no_panic (enabled 1) (exec 1) x' ∧
    (Exists (λ e, 100%nat ∈ e.2) tr' ∨
     (parked 5 100%nat x' ∧
      ((has_receivers (log (inner (chan x'))) = true ∧ retained (log (inner (chan x'))) = 1) ∨
       reclaimers x' ≠ ∅ ∨ granted (tx_permits x') ≠ ∅ ∨ map_Exists (λ _ p, checking p = true) (producers x')))).
Proof.
  eexists _, _, _, _, _. split; [vm_compute; reflexivity|]. split; [vm_compute; reflexivity|].
  split; [split; [eexists _, _; vm_compute; reflexivity|vm_compute; constructor]|]. split; [vm_compute; reflexivity|].
  eapply (bounded_send_not_forgotten 1 _ waiting_run _ _ 5 100%nat freeing_run);
    [vm_compute; reflexivity|vm_compute; reflexivity|split; [eexists _, _; vm_compute; reflexivity|vm_compute; constructor]|by repeat constructor|vm_compute; reflexivity].
Defined.

Lemma bounded_blocked_counted_witness :
  ∃ x0 tr x, bounded 1 = Some x0 ∧ returns (run (enabled 1) (exec 1) waiting_run) x0 tr x ∧
    blocked_senders x = tally announced (producers x) ∧ NoDup (queue (tx_permits x)).*1 ∧ unserved (producers x) (queue (tx_permits x)).*1 <= blocked_senders x.
Proof.
  eexists _, _, _. split; [vm_compute; reflexivity|]. split; [vm_compute; reflexivity|].
  refine (bounded_blocked_counted 1 _ waiting_run _ _ _ _); [vm_compute; reflexivity|vm_compute; reflexivity].
Defined.
