(* ===== verification/Once.v ===== *)
(** * Once

    [asyncband/src/once/once/mod.rs]: a countdown of one and a semaphore of one permit.  A call of
    [call_once] checks the countdown, takes the permit, checks again, runs the closure and counts
    down; a cancelled call gives the permit back without counting down.  The semaphore is any
    permit pool, the countdown is the system of Countdown. *)
From S2P Require Import Prelude Arena WakerBatch WakerSet Countdown PermitPool.

(** The points of a call: waiting for the permit; holding it before the second check; running the
    closure; counting down and waking. *)
Inductive Call : Type :=
| Acquiring
| Checking
| Running
| Finishing.

Record Once (P : Type) : Type := mkOnce {
  done : Latch;
  semaphore : P;
  calls : gmap nat Call;
  (** How often the closure of a call has run to completion. *)
  runs : Z;
}.
Arguments mkOnce {P}.
Arguments done {P}.
Arguments semaphore {P}.
Arguments calls {P}.
Arguments runs {P}.

Section once.
Context {P : Type} `{!PermitPool P}.
Implicit Types (x : Once P) (i : nat).

Definition once_new (p : P) : Once P := mkOnce (latch_new 1) p ∅ 0.

Definition is_completed x : bool := match try_wait (latch_state (done x)) with Ok _ => true | Err _ => false end.

Definition set_calls (g : gmap nat Call) x : Once P := mkOnce (done x) (semaphore x) g (runs x).

(** [call_once] that does not return at its first check. *)
Definition call_once i x x' : Prop :=
  calls x !! i = None ∧ is_completed x = false ∧ x' = set_calls (<[i:=Acquiring]> (calls x)) x.

Definition acquire i x x' : Prop :=
  calls x !! i = Some Acquiring ∧ ∃ p', pp_take 1 (semaphore x) p' ∧
    x' = mkOnce (done x) p' (<[i:=Checking]> (calls x)) (runs x).

(** The permit goes back when the call returns or is cancelled. *)
Definition release i x x' : Prop :=
  ∃ p', pp_give 1 (semaphore x) p' ∧ x' = mkOnce (done x) p' (delete i (calls x)) (runs x).

Definition recheck i x x' : Prop :=
  calls x !! i = Some Checking ∧
  if is_completed x then release i x x' else x' = set_calls (<[i:=Running]> (calls x)) x.

(** The closure returns and [decrement] starts. *)
Definition closure_done i x x' : Prop :=
  calls x !! i = Some Running ∧ ∃ o d', returns (count_down i) (done x) o d' ∧
    x' = mkOnce d' (semaphore x) (<[i:=Finishing]> (calls x)) (runs x + 1).

(** A step of [decrement] or of [wake_all]; the call returns after the latter. *)
Definition finish_step i x x' : Prop :=
  calls x !! i = Some Finishing ∧ ∃ b o d', returns (arrive_step b i) (done x) o d' ∧
    if decide (is_Some (threads d' !! i)) then x' = mkOnce d' (semaphore x) (calls x) (runs x)
    else release i (mkOnce d' (semaphore x) (calls x) (runs x)) x'.

(** [call_once] dropped at one of its awaits. *)
Definition cancel i x x' : Prop :=
  (calls x !! i = Some Acquiring ∧ x' = set_calls (delete i (calls x)) x) ∨
  (calls x !! i = Some Running ∧ release i x x').

(** [wait] and its future. *)
Definition wait_step x x' : Prop :=
  ∃ l o d', is_Some (about l) ∧ enabled l (done x) = true ∧ returns (exec l) (done x) o d' ∧
    x' = mkOnce d' (semaphore x) (calls x) (runs x).

Inductive step : Once P → Once P → Prop :=
| step_call i x x' : call_once i x x' → step x x'
| step_acquire i x x' : acquire i x x' → step x x'
| step_recheck i x x' : recheck i x x' → step x x'
| step_closure i x x' : closure_done i x x' → step x x'
| step_finish i x x' : finish_step i x x' → step x x'
| step_cancel i x x' : cancel i x x' → step x x'
| step_wait x x' : wait_step x x' → step x x'
| step_pool x p' : pp_internal (semaphore x) p' → step x (mkOnce (done x) p' (calls x) (runs x)).

(** ** Invariant *)

(** The permit a call holds. *)
Definition permit (c : Call) : Z := match c with Acquiring => 0 | _ => 1 end.

(** Before completion no closure has returned, unless its call is counting down; afterwards exactly
    one has and none is running. *)
Record once_ok x : Prop := {
  oo_pool : pp_ok (semaphore x);
  oo_permits : pp_free (semaphore x) + map_sum permit (calls x) <= 1;
  oo_latch : latch_ok (done x);
  oo_threads : ∀ i, is_Some (threads (done x) !! i) ↔ calls x !! i = Some Finishing;
  oo_amount : ∀ i n cnt, threads (done x) !! i = Some (Decrement n cnt) → n = 1 ∧ count (done x) = 1;
  oo_count : count (done x) = 0 ∨ count (done x) = 1;
  oo_open : count (done x) = 1 →
    (runs x = 0 ∧ ∀ i, calls x !! i ≠ Some Finishing) ∨ (runs x = 1 ∧ ∃ i, calls x !! i = Some Finishing);
  oo_closed : count (done x) = 0 → runs x = 1;
  oo_running : ∀ i, calls x !! i = Some Running → count (done x) = 1;
}.

Lemma is_completed_spec x : is_completed x = bool_decide (count (done x) = 0).
Proof. unfold is_completed, try_wait. fold (count (done x)). by case_bool_decide. Qed.

(** At most one call is past the permit. *)
Lemma one_holder x i j c d :
  once_ok x → calls x !! i = Some c → calls x !! j = Some d → permit c = 1 → permit d = 1 → i = j.
Proof.
  intros Hx Hi Hj Hc Hd. destruct (decide (i = j)) as [|Hne]; [done|]. exfalso.
  pose proof (pp_nonneg _ (oo_pool _ Hx)). pose proof (oo_permits _ Hx).
  unshelve epose proof (map_sum_two permit (calls x) i j c d _ Hi Hj Hne); [|lia].
  intros k [] _; simpl; lia.
Qed.

(** While a call runs its closure nobody else has. *)
Lemma runs_zero x i : once_ok x → calls x !! i = Some Running → runs x = 0.
Proof.
  intros Hx Hi. destruct (oo_open _ Hx (oo_running _ Hx i Hi)) as [[? _]|[_ [j Hj]]]; [done|].
  pose proof (one_holder x i j _ _ Hx Hi Hj eq_refl eq_refl). congruence.
Qed.

(** A step of the call that counts down: the transition to zero, another attempt, or the wake-up. *)
Definition finish_outcome x i (o : Obs) (d' : Latch) : Prop :=
  (∃ n cnt, threads (done x) !! i = Some (Decrement n cnt) ∧ decremented o = Some true ∧ count d' = 0 ∧
     threads d' = <[i:=WakeAll]> (threads (done x))) ∨
  (∃ n cnt c', threads (done x) !! i = Some (Decrement n cnt) ∧ decremented o = None ∧ count d' = count (done x) ∧
     threads d' = <[i:=Decrement n c']> (threads (done x))) ∨
  (threads (done x) !! i = Some WakeAll ∧ decremented o = None ∧ count d' = count (done x) ∧
     threads d' = delete i (threads (done x))).

Lemma finish_cases x i b o d' :
  once_ok x → calls x !! i = Some Finishing → returns (arrive_step b i) (done x) o d' → finish_outcome x i o d'.
Proof.
  intros Hx Hi Hr. destruct (proj2 (oo_threads _ Hx i) Hi) as [pc Hpc].
  pose proof (lo_threads _ (oo_latch _ Hx) i pc Hpc) as Hok.
  cut (wp (arrive_step b i) (done x) (finish_outcome x i)).
  { intros H. exact (wp_returns_elim _ _ _ _ _ H Hr). }
  clear Hr o d'. unfold arrive_step. wp_auto. eapply wp_expect; [done|]. unfold finish_outcome.
  destruct pc as [n cnt|]; wp_auto; [|unfold wake_all; wp_auto; right; right; done].
  destruct (oo_amount _ Hx i n cnt Hpc) as [-> Hc]. simpl in Hok. unfold decrement_turn.
  rewrite bool_decide_eq_false_2 by lia. wp_auto. unfold cas_state. wp_auto. fold (count (done x)).
  destruct (negb b && _) eqn:E; wp_auto; [|right; left; by eexists 1, cnt, _].
  apply andb_true_iff in E as [_ E%bool_decide_eq_true]. unfold saturating_sub.
  rewrite bool_decide_eq_true_2 by lia. wp_auto. left. exists 1, cnt. unfold count. simpl. split_and!; try done. lia.
Qed.

(** Calls move without the countdown. *)
Lemma once_ok_calls x p' g :
  once_ok x → pp_ok p' → pp_free p' + map_sum permit g <= 1 →
  (∀ i, g !! i = Some Finishing ↔ calls x !! i = Some Finishing) →
  (∀ i, g !! i = Some Running → count (done x) = 1) → once_ok (mkOnce (done x) p' g (runs x)).
Proof.
  intros [_ _ Hl Ht Ha Hc Ho Hcl Hr] Hp Hf Hg Hrun. split; simpl; try done.
  - intros i. by rewrite Hg.
  - intros E. destruct (Ho E) as [[? Hn]|[? [i Hi]]]; [left|right]; (split; [done|]).
    + intros i. rewrite Hg. apply Hn.
    + exists i. by apply Hg.
Qed.

(** Giving the permit back. *)
Lemma release_ok x x' i c :
  once_ok x → calls x !! i = Some c → permit c = 1 → c ≠ Finishing → release i x x' → once_ok x'.
Proof.
  intros Hx Hi Hc Hnf (p' & Hg & ->). pose proof (oo_permits _ Hx) as Hp.
  destruct (pp_give_spec _ _ _ (oo_pool _ Hx) Hg) as [Hp' Hf]. apply once_ok_calls; try done.
  - rewrite (map_sum_delete _ _ _ c) by done. lia.
  - intros j. rewrite lookup_delete. case_decide; [subst; split; congruence|done].
  - intros j [_ Hj]%lookup_delete_Some. by apply (oo_running _ Hx j).
Qed.

Lemma call_step_ok x x' i :
  once_ok x → call_once i x x' ∨ acquire i x x' ∨ recheck i x x' ∨ cancel i x x' → once_ok x'.
Proof.
  intros Hx Hs. pose proof (oo_permits _ Hx) as Hp. pose proof (oo_pool _ Hx) as Hpool.
  destruct Hs as [(Hi & _ & ->)|[(Hi & p' & Ht & ->)|[[Hi Hs]|[[Hi ->]|[Hi Hs]]]]].
  - apply once_ok_calls; try done; [by rewrite map_sum_insert|..].
    + intros j. rewrite lookup_insert. case_decide; [subst; split; congruence|done].
    + intros j [[_ ?]|[_ Hj]]%lookup_insert_Some; [done|by apply (oo_running _ Hx j)].
  - destruct (pp_take_spec _ _ _ Hpool Ht) as [Hp' Hf]. apply once_ok_calls; try done.
    + rewrite (map_sum_update _ _ _ Acquiring) by done. simpl. lia.
    + intros j. rewrite lookup_insert. case_decide; [subst; split; congruence|done].
    + intros j [[_ ?]|[_ Hj]]%lookup_insert_Some; [done|by apply (oo_running _ Hx j)].
  - rewrite is_completed_spec in Hs. case_bool_decide as E; [by eapply release_ok|]. subst x'.
    apply once_ok_calls; try done.
    + rewrite (map_sum_update _ _ _ Checking) by done. simpl. lia.
    + intros j. rewrite lookup_insert. case_decide; [subst; split; congruence|done].
    + intros j _. by destruct (oo_count _ Hx).
  - apply once_ok_calls; try done; [rewrite (map_sum_delete _ _ _ Acquiring) by done; simpl; lia|..].
    + intros j. rewrite lookup_delete. case_decide; [subst; split; congruence|done].
    + intros j [_ Hj]%lookup_delete_Some. by apply (oo_running _ Hx j).
  - by eapply release_ok.
Qed.

Lemma closure_done_ok x x' i : once_ok x → closure_done i x x' → once_ok x'.
Proof.
  intros Hx (Hi & o & d' & Hr & ->). pose proof (runs_zero x i Hx Hi) as Hz. pose proof (oo_running _ Hx i Hi) as Hc.
  assert (threads (done x) !! i = None) as Hn.
  { apply eq_None_not_Some. intros H%(oo_threads _ Hx). congruence. }
  assert (enabled (CountDown i) (done x) = true) as He by (by apply bool_decide_eq_true).
  pose proof (wp_returns_elim _ _ _ _ _ (latch_exec_ok (CountDown i) _ (oo_latch _ Hx) He) Hr) as [Hl' _ _ _ _ _ _].
  assert (d' = set_threads (<[i:=Decrement 1 (count (done x))]> (threads (done x))) (done x)) as -> by (by injection Hr as _ <-).
  destruct Hx as [Hp Hf Hl Ht Ha Hco Ho Hcl Hrun].
  split; simpl; change (count (set_threads _ _)) with (count (done x)) in *; try done.
  - rewrite (map_sum_update _ _ _ Running) by done. simpl. lia.
  - intros j. rewrite !lookup_insert. case_decide; [|by apply Ht]. by split; [|eauto].
  - intros j n cnt [[_ [= <- <-]]|[_ Hj]]%lookup_insert_Some; [done|by apply (Ha j n cnt)].
  - intros _. right. split; [lia|]. exists i. apply lookup_insert_eq.
  - lia.
Qed.

Lemma finish_step_ok x x' i : once_ok x → finish_step i x x' → once_ok x'.
Proof.
  intros Hx (Hi & b & o & d' & Hr & Hs).
  assert (is_Some (threads (done x) !! i)) as Hth by (by apply (oo_threads _ Hx)).
  assert (enabled (Step b i) (done x) = true) as He by (by apply bool_decide_eq_true).
  pose proof (wp_returns_elim _ _ _ _ _ (latch_exec_ok (Step b i) _ (oo_latch _ Hx) He) Hr) as [Hl' _ _ _ _ _ _].
  pose proof (finish_cases x i b o d' Hx Hi Hr) as Hc. destruct Hx as [Hp Hf Hl Ht Ha Hco Ho Hcl Hrun].
  assert (∀ j, j ≠ i → threads (done x) !! j = None) as Honly.
  { intros j Hne. apply eq_None_not_Some. intros Hj%Ht. apply Hne.
    by apply (one_holder x j i Finishing Finishing ltac:(by split) Hj Hi). }
  destruct Hc as [(n & cnt & Hd & Hdec & Hz & Et)|[(n & cnt & c' & Hd & Hdec & Ec & Et)|(Hd & Hdec & Ec & Et)]].
  - rewrite decide_True in Hs by (rewrite Et, lookup_insert_eq; by eauto). subst x'. destruct (Ha i n cnt Hd) as [-> Hc1].
    split; simpl; rewrite ?Et, ?Hz; try done.
    + intros j. rewrite lookup_insert. case_decide; [subst; split; [done|by eauto]|apply Ht].
    + intros j m cnt' [[_ ?]|[Hne Hj]]%lookup_insert_Some; [done|]. rewrite Honly in Hj by done. done.
    + by left.
    + intros _. destruct (Ho Hc1) as [[_ Hno]|[? _]]; [by destruct (Hno i)|done].
    + intros j Hj. by pose proof (one_holder x j i Running Finishing ltac:(by split) Hj Hi eq_refl eq_refl); congruence.
  - rewrite decide_True in Hs by (rewrite Et, lookup_insert_eq; by eauto). subst x'.
    split; simpl; rewrite ?Et, ?Ec; try done.
    + intros j. rewrite lookup_insert. case_decide; [subst; split; [done|by eauto]|apply Ht].
    + intros j m cnt' [[<- [= <- <-]]|[Hne Hj]]%lookup_insert_Some; [by apply (Ha i n cnt)|by apply (Ha j m cnt')].
  - rewrite decide_False in Hs by (rewrite Et, lookup_delete_eq; by intros []). destruct Hs as (p' & Hg & ->). simpl in *.
    destruct (pp_give_spec _ _ _ Hp Hg) as [Hp' Hf']. pose proof (lo_threads _ Hl i _ Hd) as Hz. simpl in Hz.
    split; simpl; rewrite ?Et, ?Ec; try done; try lia.
    + rewrite (map_sum_delete _ _ _ Finishing) by done. simpl. lia.
    + intros j. rewrite !lookup_delete. case_decide; [split; [by intros []|done]|apply Ht].
    + intros j m cnt' [_ Hj]%lookup_delete_Some. by apply (Ha j m cnt').
    + intros j [_ Hj]%lookup_delete_Some. by apply (Hrun j).
Qed.

Lemma once_step_ok x x' : once_ok x → step x x' → once_ok x'.
Proof.
  intros Hx Hs. destruct Hs as [i x x' H|i x x' H|i x x' H|i x x' H|i x x' H|i x x' H|x x' H|x p' H].
  - eapply call_step_ok; by eauto.
  - eapply call_step_ok; by eauto.
  - eapply call_step_ok; by eauto.
  - by eapply closure_done_ok.
  - by eapply finish_step_ok.
  - eapply call_step_ok; by eauto.
  - destruct H as (l & o & d' & Hl & He & Hr & ->).
    pose proof (wp_returns_elim _ _ _ _ _ (latch_exec_ok l _ (oo_latch _ Hx) He) Hr) as [Hl' _ _ Hq _ _ _].
    destruct (Hq Hl) as [Et Ec]. destruct Hx. split; simpl; rewrite ?Et, ?Ec; done.
  - destruct (pp_internal_spec _ _ (oo_pool _ Hx) H) as [Hp' Hf]. apply once_ok_calls; try done.
    + pose proof (oo_permits _ Hx). lia.
    + by apply (oo_running _ Hx).
Qed.

Lemma once_reachable_ok p x : pp_ok p → pp_free p = 1 → rtc step (once_new p) x → once_ok x.
Proof.
  intros Hp Hf. apply (rtc_ind_r once_ok).
  - split; simpl; try done; try (unfold count; simpl; lia).
    + rewrite map_sum_empty. lia.
    + by apply latch_init_ok.
    + intros i. rewrite lookup_empty. split; [by intros []|done].
    + intros _. left. split; [done|]. intros i. by rewrite lookup_empty.
  - intros y z _ Hyz Hy. by eapply once_step_ok.
Qed.

(** C35: the closure of a [Once] runs at most once to completion, at most one call runs its closure
    at a time, the [Once] is completed exactly when a closure has run and its call has counted
    down, and the decrement of that call always reports the transition, so that the [unreachable!]
    behind it is never reached; cancelled calls leave the [Once] open for another one. *)
Theorem once_runs_once p x i j :
  pp_ok p → pp_free p = 1 → rtc step (once_new p) x →
  0 <= runs x <= 1 ∧
  (calls x !! i = Some Running → calls x !! j = Some Running → i = j) ∧
  (is_completed x = true → runs x = 1 ∧ calls x !! i ≠ Some Running) ∧
  (∀ b o d', calls x !! i = Some Finishing → returns (arrive_step b i) (done x) o d' → decremented o ≠ Some false).
Proof.
  intros Hp Hf Hr. pose proof (once_reachable_ok p x Hp Hf Hr) as Hx. split_and!.
  - destruct (oo_count _ Hx) as [E|E]; [rewrite (oo_closed _ Hx E); lia|]. destruct (oo_open _ Hx E) as [[-> _]|[-> _]]; lia.
  - destruct (oo_count _ Hx) as [E|E]; [rewrite (oo_closed _ Hx E); lia|]. destruct (oo_open _ Hx E) as [[-> _]|[-> _]]; lia.
  - intros Hi Hj. by apply (one_holder x i j Running Running Hx Hi Hj).
  - rewrite is_completed_spec. intros E%bool_decide_eq_true. split; [by apply (oo_closed _ Hx)|].
    intros Hi%(oo_running _ Hx). lia.
  - intros b o d' Hi Hs.
    destruct (finish_cases x i b o d' Hx Hi Hs) as [(?&?&_&->&_)|[(?&?&?&_&->&_)|(_&->&_)]]; done.
Qed.
End once.

(** A call over a counter pool that has run its closure and is about to count down. *)
Definition counting : Once Z :=
  mkOnce (mkLatch (Countdown.new 1) ∅ {[0%nat := Decrement 1 1]}) 0 {[0%nat := Finishing]} 1.

Lemma counting_reachable : rtc step (once_new 1) counting.
Proof.
  eapply rtc_l; [apply (step_call 0); split_and!; [done|done|reflexivity]|].
  eapply rtc_l; [apply (step_acquire 0); split; [apply lookup_insert_eq|]; exists 0; split; [by split|reflexivity]|].
  eapply rtc_l; [apply (step_recheck 0); split; [apply lookup_insert_eq|reflexivity]|].
  eapply rtc_l; [apply (step_closure 0); split; [apply lookup_insert_eq|]; by eexists _, _|].
  apply rtc_refl.
Qed.

Lemma once_runs_once_witness :
  calls counting !! 0%nat = Some Finishing ∧ 0 <= runs counting <= 1 ∧
  (calls counting !! 0%nat = Some Running → calls counting !! 0%nat = Some Running → 0%nat = 0%nat) ∧
  (is_completed counting = true → runs counting = 1 ∧ calls counting !! 0%nat ≠ Some Running) ∧
  (∀ b o d', calls counting !! 0%nat = Some Finishing → returns (arrive_step b 0) (done counting) o d' →
    decremented o ≠ Some false).
Proof. split; [done|]. apply (once_runs_once 1 counting 0 0); [done|done|apply counting_reachable]. Defined.
