(* ===== verification/PoolState.v ===== *)
(** * The state of an object pool

    [asyncband/src/pool/state.rs] and [pool/common.rs]: the idle objects with their statuses and the
    number of objects that belong to the pool.  [retain] filters the idle objects in place; the
    file shows that it keeps and removes exactly what one pass over the objects would, also when
    the predicate changes the objects or panics. *)
From S2P Require Import Prelude.

(** [Instant] is a reading of the clock; the readings of [Instant::now] are arguments. *)
Abbreviation Instant := Z (only parsing).

Record ObjectStatus : Type := mkStatus {
  created : Instant;
  last_returned : option Instant;
  recycle_count : Z;
}.

Definition status_default (now : Instant) : ObjectStatus := mkStatus now None 0.
Definition last_used (s : ObjectStatus) : Instant := default (created s) (last_returned s).
Definition mark_recycled {S : Type} (s : ObjectStatus) : M S ObjectStatus :=
  n ← add_int usize_max (recycle_count s) 1;
  mret (mkStatus (created s) (last_returned s) n).
Definition mark_returned (now : Instant) (s : ObjectStatus) : ObjectStatus :=
  mkStatus (created s) (Some now) (recycle_count s).

Inductive QueueStrategy : Type := Fifo | Lifo.
Inductive RecycleCancelledStrategy : Type := Detach | ReturnToPool.

Record ObjectState (T : Type) : Type := mkObject {
  o : T;
  status : ObjectStatus;
}.
Arguments mkObject {T}.
Arguments o {T}.
Arguments status {T}.

Record PoolState (T : Type) : Type := mkPool {
  idle : list (ObjectState T);
  current_size : Z;
}.
Arguments mkPool {T}.
Arguments idle {T}.
Arguments current_size {T}.

Record RetainResult (T : Type) : Type := mkRetain {
  retained : nat;
  removed : list T;
}.
Arguments mkRetain {T}.
Arguments retained {T}.
Arguments removed {T}.

Section operations.
Context {T : Type}.
Implicit Types (p : PoolState T) (s : ObjectState T).

Definition object_new (now : Instant) (t : T) : ObjectState T := mkObject t (status_default now).
Definition pool_new : PoolState T := mkPool [] 0.
Definition idle_count p : Z := Z.of_nat (length (idle p)).

Definition set_idle (l : list (ObjectState T)) p : PoolState T := mkPool l (current_size p).
Definition set_size (n : Z) p : PoolState T := mkPool (idle p) n.

Definition pop (strategy : QueueStrategy) : M (PoolState T) (option (ObjectState T)) :=
  p ← get;
  match strategy with
  | Fifo =>
      match idle p with
      | [] => mret None
      | s :: l => put (set_idle l p);; mret (Some s)
      end
  | Lifo =>
      match last (idle p) with
      | None => mret None
      | Some s => put (set_idle (removelast (idle p)) p);; mret (Some s)
      end
  end.

Definition add_active : M (PoolState T) unit :=
  p ← get;
  n ← add_int usize_max (current_size p) 1;
  put (set_size n p).

Definition return_idle s : M (PoolState T) unit := modify (λ p, set_idle (idle p ++ [s]) p).

Definition add_idle s : M (PoolState T) unit := add_active;; return_idle s.

Definition detach : M (PoolState T) unit :=
  p ← get;
  n ← expect (checked_sub (current_size p) 1) "detached object must belong to the pool";
  put (set_size n p).

(** ** Specifications *)
Lemma return_idle_spec s p :
  wp (return_idle s) p (λ _ p', idle_count p' = idle_count p + 1 ∧ current_size p' = current_size p).
Proof. unfold return_idle. wp_auto. unfold idle_count. simpl. rewrite length_app. simpl. lia. Qed.

Lemma detach_spec p :
  1 <= current_size p → wp detach p (λ _ p', idle_count p' = idle_count p ∧ current_size p' = current_size p - 1).
Proof.
  intros H. unfold detach. wp_auto. eapply wp_expect; [unfold checked_sub; by rewrite decide_True by lia|]. by wp_auto.
Qed.

Lemma add_active_spec p :
  current_size p + 1 <= usize_max → wp add_active p (λ _ p', idle_count p' = idle_count p ∧ current_size p' = current_size p + 1).
Proof. intros H. unfold add_active. wp_auto. apply wp_add_int; [done|]. by wp_auto. Qed.

Lemma add_idle_spec s p :
  current_size p + 1 <= usize_max → wp (add_idle s) p (λ _ p', idle_count p' = idle_count p + 1 ∧ current_size p' = current_size p + 1).
Proof.
  intros H. unfold add_idle. wp_auto. wp_apply add_active_spec; [done|]. intros _ p' [E1 E2]. wp_apply return_idle_spec.
  intros _ p'' [E3 E4]. lia.
Qed.

Lemma idle_pop_spec strategy p :
  wp (pop strategy) p (λ r p', current_size p' = current_size p ∧
    match r with None => idle_count p = 0 ∧ p' = p | Some s => idle_count p' = idle_count p - 1 ∧ s ∈ idle p end).
Proof.
  unfold pop. wp_auto. unfold idle_count. destruct strategy.
  - destruct (idle p) as [|s l] eqn:E; wp_auto; simpl; [done|]. split_and!; [done|lia|set_solver].
  - destruct (last (idle p)) as [s|] eqn:E; wp_auto.
    + apply last_Some in E as [l E]. simpl. rewrite E, removelast_last, length_app. simpl. split_and!; [done|lia|set_solver].
    + apply last_None in E. by rewrite E.
Qed.

(** ** [retain]

    The predicate is a closure with a state [F]: it may change the object, and it may panic. *)
Context {F : Type} (f : F → T → ObjectStatus → F * T * option bool).

(** One call of the predicate, on the object at an index. *)
Definition visit (i : nat) : M (F * PoolState T) bool :=
  '(c, p) ← get;
  s ← expect (idle p !! i) "Out of bounds access";
  let '(c', t, r) := f c (o s) (status s) in
  put (c', set_idle (<[i := mkObject t (status s)]> (idle p)) p);;
  expect r "panic of the predicate".

(** The loop up to the first object to remove, *)
Fixpoint find_first (fuel len current retained : nat) : M (F * PoolState T) (nat * nat) :=
  match fuel with
  | O => panic "loop did not terminate"
  | S fuel =>
      if bool_decide (current < len)%nat then
        keep ← visit current;
        if (keep : bool) then find_first fuel len (S current) (S retained) else mret (S current, retained)
      else mret (current, retained)
  end.

(** [VecDeque::swap], *)
Definition swap (i j : nat) : M (F * PoolState T) unit :=
  '(c, p) ← get;
  a ← expect (idle p !! i) "assertion failed: i < self.len()";
  b ← expect (idle p !! j) "assertion failed: j < self.len()";
  put (c, set_idle (<[i := b]> (<[j := a]> (idle p))) p).

(** and the loop that compacts the objects to keep. *)
Fixpoint compact (fuel len current retained : nat) : M (F * PoolState T) (nat * nat) :=
  match fuel with
  | O => panic "loop did not terminate"
  | S fuel =>
      if bool_decide (current < len)%nat then
        keep ← visit current;
        if (keep : bool) then
          swap retained current;;
          compact fuel len (S current) (S retained)
        else compact fuel len (S current) retained
      else mret (current, retained)
  end.

Definition retain : M (F * PoolState T) (RetainResult T) :=
  '(_, p) ← get;
  let len := length (idle p) in
  '(current, kept) ← find_first (S len) len 0 0;
  '(current, kept) ← compact (S len) len current kept;
  '(c, p) ← get;
  gone ← (if bool_decide (current = kept) then mret []
          else put (c, set_idle (take kept (idle p)) p);; mret (o <$> drop kept (idle p)));
  '(c, p) ← get;
  n ← sub_int (current_size p) (Z.of_nat (length gone));
  put (c, set_size n p);;
  mret (mkRetain kept gone).

(** ** The reference: one pass

    The objects after the calls of the predicate, with its verdicts; [None] marks the object it
    panicked on and the ones it was not called for. *)
Fixpoint judge (c : F) (l : list (ObjectState T)) : F * list (ObjectState T * option bool) :=
  match l with
  | [] => (c, [])
  | s :: l =>
      let '(c', t, r) := f c (o s) (status s) in
      let s' := mkObject t (status s) in
      match r with
      | None => (c', (s', None) :: ((λ s, (s, None)) <$> l))
      | Some _ => let (c'', vs) := judge c' l in (c'', (s', r) :: vs)
      end
  end.

Definition with_verdict (r : option bool) (vs : list (ObjectState T * option bool)) : list (ObjectState T) :=
  (filter (λ v, v.2 = r) vs).*1.
Abbreviation kept_of := (with_verdict (Some true)).
Abbreviation gone_of := (with_verdict (Some false)).

Lemma with_verdict_app r vs ws : with_verdict r (vs ++ ws) = with_verdict r vs ++ with_verdict r ws.
Proof. unfold with_verdict. by rewrite filter_app, fmap_app. Qed.

Lemma with_verdict_cons r s v vs :
  with_verdict r ((s, v) :: vs) = (if decide (v = r) then [s] else []) ++ with_verdict r vs.
Proof. unfold with_verdict. case_decide as E; [by rewrite filter_cons_True|by rewrite filter_cons_False]. Qed.

Lemma visit_eq c K s l n :
  visit (length K) (c, mkPool (K ++ s :: l) n) =
    let '(c', t, r) := f c (o s) (status s) in
    let p' := mkPool (K ++ mkObject t (status s) :: l) n in
    match r with Some b => Ret b (c', p') | None => Panic "panic of the predicate" (c', p') end.
Proof.
  unfold visit, mbind, M_bind, get, put, expect, mret, M_ret, panic. simpl. rewrite list_lookup_middle by done. simpl.
  destruct (f c (o s) (status s)) as [[c' t] r]. unfold set_idle. simpl.
  rewrite insert_app_r_alt, Nat.sub_diag by lia. simpl. by destruct r.
Qed.

(** Swapping the first object to remove with an object to keep. *)
Lemma swap_eq c K R s l n :
  ∃ R', R' ≡ₚ R ∧ swap (length K) (length (K ++ R)) (c, mkPool ((K ++ R) ++ s :: l) n) =
    Ret tt (c, mkPool ((K ++ [s]) ++ R' ++ l) n).
Proof.
  unfold swap, mbind, M_bind, get, put, expect, mret, M_ret. simpl.
  rewrite (list_lookup_middle (K ++ R) l s (length (K ++ R)) eq_refl).
  destruct R as [|r R].
  - exists []. split; [done|]. rewrite app_nil_r, list_lookup_middle by done. simpl. unfold set_idle. simpl.
    rewrite !insert_app_r_alt, Nat.sub_diag by lia. simpl. by rewrite <-app_assoc.
  - exists (R ++ [r]). split; [by rewrite Permutation_app_comm|]. rewrite <-!app_assoc. simpl.
    rewrite list_lookup_middle by done. simpl. unfold set_idle. simpl. do 3 f_equal.
    rewrite (insert_app_r_alt K) by (rewrite length_app; lia). rewrite length_app. simpl.
    replace (length K + S (length R) - length K)%nat with (S (length R)) by lia. simpl.
    rewrite (insert_app_r_alt R), Nat.sub_diag by lia. simpl. rewrite insert_app_r_alt, Nat.sub_diag by lia. done.
Qed.

Lemma judge_length c l : length (judge c l).2 = length l.
Proof.
  revert c. induction l as [|s l IH]; intros c; simpl; [done|]. destruct (f c (o s) (status s)) as [[c1 t] r].
  destruct r; simpl; [|by rewrite length_fmap]. specialize (IH c1). destruct (judge c1 l). simpl in *. lia.
Qed.

Lemma verdicts_length (vs : list (ObjectState T * option bool)) :
  Forall (λ v, is_Some v.2) vs → length vs = (length (kept_of vs) + length (gone_of vs))%nat.
Proof.
  induction 1 as [|[s r] vs [b Hb] _ IH]; [done|]. simpl in Hb. subst r. rewrite !with_verdict_cons, !length_app.
  destruct b; simpl; lia.
Qed.

(** What the loops establish from [K] (kept so far), [R] (to remove) and the objects left. *)
Definition loop_post (K R rest : list (ObjectState T)) (c : F) (n : Z) (len : nat)
    (out : outcome (F * PoolState T) (nat * nat)) : Prop :=
  let (c', vs) := judge c rest in
  match out with
  | Ret r (c'', p) => c'' = c' ∧ Forall (λ v, is_Some v.2) vs ∧ r = (len, length (K ++ kept_of vs)) ∧ current_size p = n ∧
      ∃ R', idle p = (K ++ kept_of vs) ++ R' ∧ R' ≡ₚ R ++ gone_of vs
  | Panic _ (c'', p) => c'' = c' ∧ ¬ Forall (λ v, is_Some v.2) vs ∧ current_size p = n ∧ idle p ≡ₚ K ++ R ++ vs.*1
  end.

(** The first call decides how the post-condition of the rest carries over. *)
Lemma loop_post_call K R R1 s rest c n len out c' t (b : bool) :
  f c (o s) (status s) = (c', t, Some b) → R1 ≡ₚ R →
  loop_post (if b then K ++ [mkObject t (status s)] else K) (if b then R1 else R1 ++ [mkObject t (status s)]) rest c' n len out →
  loop_post K R (s :: rest) c n len out.
Proof.
  intros Ef HR. unfold loop_post. simpl. rewrite Ef. destruct (judge c' rest) as [c2 vs]. set (s' := mkObject t (status s)).
  destruct out as [r [c3 p]|e [c3 p]]; rewrite ?with_verdict_cons; [intros (-> & Hvs & -> & Hn & R' & Hi & HR')|intros (-> & Hvs & Hn & Hi)].
  - split_and!; [done|by constructor| |done|].
    + destruct b; simpl; [by rewrite <-app_assoc|done].
    + exists R'. destruct b; simpl in *; rewrite ?app_nil_l.
      * split; [by rewrite Hi, <-!app_assoc|by rewrite HR', HR].
      * split; [done|]. by rewrite HR', HR, <-app_assoc.
  - split_and!; [done|by intros [_ ?]%Forall_cons|done|]. rewrite Hi. csimpl. destruct b; rewrite HR; solve_Permutation.
Qed.

Lemma loop_post_panic K R s rest c n len c' t p e :
  f c (o s) (status s) = (c', t, None) → current_size p = n → idle p ≡ₚ K ++ R ++ mkObject t (status s) :: rest →
  loop_post K R (s :: rest) c n len (Panic e (c', p)).
Proof.
  intros Ef Hn Hi. unfold loop_post. simpl. rewrite Ef. split_and!; [done| |done|].
  - intros [Hs _]%Forall_cons. by destruct Hs.
  - rewrite Hi. csimpl. rewrite <-list_fmap_compose. unfold compose. simpl. by rewrite list_fmap_id.
Qed.

Lemma compact_spec fuel K R rest c n len :
  (length rest < fuel)%nat → len = length ((K ++ R) ++ rest) →
  loop_post K R rest c n len (compact fuel len (length (K ++ R)) (length K) (c, mkPool ((K ++ R) ++ rest) n)).
Proof.
  revert K R rest c. induction fuel as [|fuel IH]; intros K R rest c Hf Hl; [lia|]. simpl.
  destruct rest as [|s rest].
  - rewrite bool_decide_false by (rewrite Hl, !length_app; simpl; lia). unfold loop_post, mret, M_ret. simpl.
    split_and!; [done|done|by rewrite Hl, !app_nil_r|done|]. exists R. by rewrite !app_nil_r.
  - rewrite bool_decide_true by (rewrite Hl, !length_app; simpl; lia). unfold mbind, M_bind at 1. rewrite visit_eq.
    destruct (f c (o s) (status s)) as [[c' t] [[]|]] eqn:Ef.
    + destruct (swap_eq c' K R (mkObject t (status s)) rest n) as (R' & HR & Esw).
      unfold M_bind. rewrite Esw. eapply (loop_post_call K R R' s rest c n len _ c' t true Ef HR).
      replace (S (length (K ++ R))) with (length ((K ++ [mkObject t (status s)]) ++ R')) by (rewrite !length_app, HR; simpl; lia).
      replace (S (length K)) with (length (K ++ [mkObject t (status s)])) by (rewrite length_app; simpl; lia).
      rewrite app_assoc. apply IH; [simpl in Hf; lia|]. rewrite Hl, !length_app, HR. simpl. lia.
    + eapply (loop_post_call K R R s rest c n len _ c' t false Ef); [done|].
      replace (S (length (K ++ R))) with (length (K ++ R ++ [mkObject t (status s)])) by (rewrite !length_app; simpl; lia).
      replace ((K ++ R) ++ mkObject t (status s) :: rest) with ((K ++ R ++ [mkObject t (status s)]) ++ rest) by (by rewrite <-!app_assoc).
      apply IH; [simpl in Hf; lia|]. rewrite Hl, !length_app. simpl. lia.
    + apply loop_post_panic with (1 := Ef); [done|]. simpl. by rewrite <-app_assoc.
Qed.

Lemma loops_spec fuel fuel' K rest c n len :
  (length rest < fuel)%nat → (length rest < fuel')%nat → len = length (K ++ rest) →
  loop_post K [] rest c n len
    (('(current, kept) ← find_first fuel len (length K) (length K); compact fuel' len current kept) (c, mkPool (K ++ rest) n)).
Proof.
  revert K rest c. induction fuel as [|fuel IH]; intros K rest c Hf Hf' Hl; [lia|]. simpl.
  destruct rest as [|s rest].
  - rewrite bool_decide_false by (rewrite Hl, !length_app; simpl; lia).
    change ((M_bind _ _ _ _ _) _) with (compact fuel' len (length K) (length K) (c, mkPool (K ++ []) n)).
    pose proof (compact_spec fuel' K [] [] c n len Hf') as H. rewrite !app_nil_r in *. by apply H.
  - rewrite bool_decide_true by (rewrite Hl, !length_app; simpl; lia). unfold mbind, M_bind. rewrite visit_eq.
    destruct (f c (o s) (status s)) as [[c' t] [[]|]] eqn:Ef; simpl in Hf, Hf'.
    + eapply (loop_post_call K [] [] s rest c n len _ c' t true Ef); [done|].
      replace (S (length K)) with (length (K ++ [mkObject t (status s)])) by (rewrite length_app; simpl; lia).
      replace (K ++ mkObject t (status s) :: rest) with ((K ++ [mkObject t (status s)]) ++ rest) by (by rewrite <-!app_assoc).
      apply IH; [lia|lia|]. rewrite Hl, !length_app. simpl. lia.
    + eapply (loop_post_call K [] [] s rest c n len _ c' t false Ef); [done|]. simpl. unfold mret, M_ret.
      replace (S (length K)) with (length (K ++ [mkObject t (status s)])) by (rewrite length_app; simpl; lia).
      replace (K ++ mkObject t (status s) :: rest) with ((K ++ [mkObject t (status s)]) ++ rest) by (by rewrite <-!app_assoc).
      apply compact_spec; [lia|]. rewrite Hl, !length_app. simpl. lia.
    + apply loop_post_panic with (1 := Ef); [done|]. done.
Qed.

Lemma retain_spec c p :
  Z.of_nat (length (idle p)) <= current_size p →
  let (c', vs) := judge c (idle p) in
  match retain (c, p) with
  | Ret r (c'', p') => c'' = c' ∧ Forall (λ v, is_Some v.2) vs ∧ idle p' = kept_of vs ∧ retained r = length (kept_of vs) ∧
      removed r ≡ₚ o <$> gone_of vs ∧ current_size p' = current_size p - Z.of_nat (length (gone_of vs))
  | Panic _ (c'', p') => c'' = c' ∧ ¬ Forall (λ v, is_Some v.2) vs ∧ idle p' ≡ₚ vs.*1 ∧ current_size p' = current_size p
  end.
Proof.
  intros Hsz. destruct p as [l n]. simpl in *. pose proof (loops_spec (S (length l)) (S (length l)) [] l c n (length l)) as Hloop.
  unfold loop_post in Hloop. cbn [app length] in Hloop. specialize (Hloop ltac:(lia) ltac:(lia) eq_refl).
  destruct (judge c l) as [c' vs] eqn:Ej. unfold retain, mbind, M_bind, get in *. cbn [idle length].
  destruct (find_first (S (length l)) (length l) 0 0 (c, mkPool l n)) as [[cur kept] s1|e [c1 p1]]; [|naive_solver].
  destruct (compact (S (length l)) (length l) cur kept s1) as [[cur' kept'] [c2 p2]|e [c2 p2]]; [|naive_solver].
  destruct Hloop as (-> & Hvs & [= -> ->] & Hn & R & Hi & HR). destruct p2 as [l2 n2]. simpl in *. subst l2 n2.
  assert (length l = length (kept_of vs) + length R)%nat as Elen.
  { rewrite HR, <-verdicts_length by done. by rewrite <-(judge_length c l), Ej. }
  assert (length R = length (gone_of vs)) as ER by (by rewrite HR).
  unfold put, sub_int, expect, checked_sub, mret, M_ret, set_idle, set_size. destruct (bool_decide_reflect (length l = length (kept_of vs))) as [E|E]; simpl.
  - assert (R = []) as -> by (apply length_zero_iff_nil; lia). rewrite decide_True by (simpl; lia). simpl.
    split_and!; try done; rewrite ?app_nil_r; [done| |simpl in ER; lia]. symmetry in ER. apply length_zero_iff_nil in ER. by rewrite ER.
  - rewrite take_app_length, drop_app_length, length_fmap. rewrite decide_True by lia. simpl.
    split_and!; try done; [by rewrite HR|by rewrite ER].
Qed.

(** Objects enter and leave the count of the pool together with the idle ones. *)
Lemma retain_counts c p c' p' :
  Z.of_nat (length (idle p)) <= current_size p →
  (∃ r, retain (c, p) = Ret r (c', p')) ∨ (∃ e, retain (c, p) = Panic e (c', p')) →
  (length (idle p') <= length (idle p))%nat ∧ current_size p' - idle_count p' = current_size p - idle_count p.
Proof.
  intros Hsz Hr. pose proof (retain_spec c p Hsz) as Hs. pose proof (judge_length c (idle p)) as Hl.
  destruct (judge c (idle p)) as [c1 vs]. simpl in Hl. unfold idle_count. destruct Hr as [[r Hr]|[e Hr]]; rewrite Hr in Hs.
  - destruct Hs as (_ & Hvs & Hi & _ & _ & Hn). pose proof (verdicts_length vs Hvs). rewrite Hi, Hn. lia.
  - destruct Hs as (_ & _ & Hi & Hn). rewrite Hi, Hn, length_fmap. lia.
Qed.

Lemma retain_removed c p r c' p' :
  Z.of_nat (length (idle p)) <= current_size p → retain (c, p) = Ret r (c', p') →
  current_size p' = current_size p - Z.of_nat (length (removed r)).
Proof.
  intros Hsz Hr. pose proof (retain_spec c p Hsz) as Hs. destruct (judge c (idle p)) as [c1 vs]. rewrite Hr in Hs.
  destruct Hs as (_ & _ & _ & _ & Hrm & ->). by rewrite Hrm, length_fmap.
Qed.

Lemma retain_panic c p e c' p' :
  Z.of_nat (length (idle p)) <= current_size p → retain (c, p) = Panic e (c', p') → current_size p' = current_size p.
Proof.
  intros Hsz Hr. pose proof (retain_spec c p Hsz) as Hs. destruct (judge c (idle p)) as [c1 vs]. rewrite Hr in Hs. apply Hs.
Qed.

(** C20: [retain] is one pass over the idle objects.  If the predicate returns for every object, the
    ones it accepts stay, in order and with the changes it made, the others are handed out, and
    the size of the pool shrinks by their number; if it panics, no object has left the pool and
    its size is unchanged. *)
Theorem retain_is_one_pass c p :
  Z.of_nat (length (idle p)) <= current_size p →
  let (c', vs) := judge c (idle p) in
  match retain (c, p) with
  | Ret r (c'', p') => c'' = c' ∧ Forall (λ v, is_Some v.2) vs ∧ idle p' = kept_of vs ∧ retained r = length (kept_of vs) ∧
      removed r ≡ₚ o <$> gone_of vs ∧ current_size p' = current_size p - Z.of_nat (length (gone_of vs))
  | Panic _ (c'', p') => c'' = c' ∧ ¬ Forall (λ v, is_Some v.2) vs ∧ idle p' ≡ₚ vs.*1 ∧ current_size p' = current_size p
  end.
Proof. apply retain_spec. Qed.
End operations.

(** Even numbers stay; the closure counts its calls and doubles what it keeps. *)
Definition keep_even (calls : nat) (t : nat) (_ : ObjectStatus) : nat * nat * option bool :=
  if Nat.even t then (S calls, (2 * t)%nat, Some true) else (S calls, t, Some false).
Definition three_idle : PoolState nat := mkPool (object_new 0 <$> [1; 2; 3; 4]%nat) 6.

Lemma retain_is_one_pass_witness :
  retain keep_even (0%nat, three_idle) =
    Ret (mkRetain 2 [3; 1]%nat) (4%nat, mkPool (object_new 0 <$> [4; 8]%nat) 4) ∧
  let (c', vs) := judge keep_even 0%nat (idle three_idle) in
  match retain keep_even (0%nat, three_idle) with
  | Ret r (c'', p') => c'' = c' ∧ Forall (λ v, is_Some v.2) vs ∧ idle p' = with_verdict (Some true) vs ∧
      retained r = length (with_verdict (Some true) vs) ∧ removed r ≡ₚ o <$> with_verdict (Some false) vs ∧
      current_size p' = current_size three_idle - Z.of_nat (length (with_verdict (Some false) vs))
  | Panic _ (c'', p') => c'' = c' ∧ ¬ Forall (λ v, is_Some v.2) vs ∧ idle p' ≡ₚ vs.*1 ∧ current_size p' = current_size three_idle
  end.
Proof.
  split; [vm_compute; reflexivity|]. apply (retain_is_one_pass keep_even 0%nat three_idle). vm_compute. discriminate.
Defined.
