(* ===== verification/Pool.v ===== *)
(** * The bounded object pool

    [asyncband/src/pool/bounded.rs]: a permit of the semaphore for every object in use, idle objects
    without a permit.  A [get] takes a permit, then an idle object or a new one; a replenishment
    drains permits and turns some of them into idle objects.  The objects in use hold weak references: the
    pool may be dropped before them, and they are then dropped or detached without it, though their
    permits are still given back.  The manager's methods are the environment: they return, fail, change
    the object they are given, panic, or are cancelled at any await.  The semaphore is any permit pool. *)
From S2P Require Import Prelude PermitPool PoolState.

(** The points of a [get]: waiting for the permit; at the top of the loop; creating an object;
    asking whether an idle object can be used again; about to drop the permit. *)
Inductive Get (T : Type) : Type :=
| GAcquiring
| GPopping
| GCreating
| GRecycling (s : ObjectState T)
| GReleasing.
Arguments GAcquiring {T}.
Arguments GPopping {T}.
Arguments GCreating {T}.
Arguments GRecycling {T} s.
Arguments GReleasing {T}.

(** The points of a replenishment and the permits of its reservation: [k] drained for a target of
    idle objects; [n] to give back and [c] to use; [c] objects to create; the permit of the object
    just added to give back; the rest to give back at the end. *)
Inductive Replenish : Type :=
| RReserved (k target : Z)
| RSurplus (n c : Z)
| RMaking (c : Z)
| RAdded (c : Z)
| RDropping (c : Z).

(** An object in use is [Some]; [None] is one that is gone and whose permit is about to follow. *)
Record Pool (P T : Type) : Type := mkSys {
  slots : PoolState T;
  permits : P;
  gets : gmap nat (Get T);
  objects : gmap nat (option (ObjectState T));
  reservations : gmap nat Replenish;
  (** The handles of the pool have not all been dropped. *)
  alive : bool;
}.
Arguments mkSys {P T}.
Arguments slots {P T}.
Arguments permits {P T}.
Arguments gets {P T}.
Arguments objects {P T}.
Arguments reservations {P T}.
Arguments alive {P T}.

Section pool.
Context {P T : Type} `{!PermitPool P}.
Context (max_size : Z) (queue_strategy : QueueStrategy) (recycle_cancelled_strategy : RecycleCancelledStrategy).
Implicit Types (x : Pool P T) (p : PoolState T) (s : ObjectState T) (t : T) (now : Instant) (g h i : nat).

Definition new (ps : P) : Pool P T := mkSys pool_new ps ∅ ∅ ∅ true.

(** ** Operations on the slots *)
Definition check_size p : M (PoolState T) unit :=
  assert_true (bool_decide (current_size p <= max_size)) "invariant broken: current_size <= max_size".

Definition restore_idle s : M (PoolState T) unit :=
  p ← get;
  check_size p;;
  return_idle s.

Definition return_object now s : M (PoolState T) unit := restore_idle (mkObject (o s) (mark_returned now (status s))).

Definition detach_object : M (PoolState T) unit :=
  p ← get;
  check_size p;;
  detach.

(** [UnreadyObject::drop]; the manager may have changed the object to [t]. *)
Definition unready_drop s t : M (PoolState T) unit :=
  match recycle_cancelled_strategy with
  | Detach => detach_object
  | ReturnToPool => restore_idle (mkObject t (status s))
  end.

(** The locked section of [replenish_to]: what to give back and what to create, given the count of
    permits read. *)
Definition plan (k target available : Z) : M (PoolState T) (Z * Z) :=
  p ← get;
  uncommitted ← expect (checked_add usize_max available k) "invariant broken: semaphore capacity must not overflow";
  let available_slots := saturating_sub uncommitted (idle_count p) in
  let to_create := Z.min (Z.min (saturating_sub target (idle_count p)) k) available_slots in
  surplus ← sub_int k to_create;
  mret (surplus, to_create).

(** ** Steps *)
Definition set_gets (q : gmap nat (Get T)) x : Pool P T := mkSys (slots x) (permits x) q (objects x) (reservations x) (alive x).
Definition set_objects (q : gmap nat (option (ObjectState T))) x : Pool P T :=
  mkSys (slots x) (permits x) (gets x) q (reservations x) (alive x).
Definition set_reservations (q : gmap nat Replenish) x : Pool P T := mkSys (slots x) (permits x) (gets x) (objects x) q (alive x).
Definition set_slots p x : Pool P T := mkSys p (permits x) (gets x) (objects x) (reservations x) (alive x).
Definition set_permits (ps : P) x : Pool P T := mkSys (slots x) ps (gets x) (objects x) (reservations x) (alive x).

(** [Semaphore::release]; zero permits change nothing. *)
Definition release (n : Z) (ps ps' : P) : Prop := (n = 0 ∧ ps' = ps) ∨ pp_give n ps ps'.

(** [get], up to the permit, *)
Definition get_start g x x' : Prop := alive x = true ∧ gets x !! g = None ∧ x' = set_gets (<[g:=GAcquiring]> (gets x)) x.
Definition get_acquire g x x' : Prop :=
  gets x !! g = Some GAcquiring ∧ ∃ ps, pp_take 1 (permits x) ps ∧ x' = set_permits ps (set_gets (<[g:=GPopping]> (gets x)) x).
(** the top of its loop, *)
Definition get_pop g x x' : Prop :=
  gets x !! g = Some GPopping ∧ ∃ r p, returns (pop queue_strategy) (slots x) r p ∧
    x' = set_slots p (set_gets (<[g:=match r with None => GCreating | Some s => GRecycling s end]> (gets x)) x).
(** a new object, *)
Definition get_created g h t now x x' : Prop :=
  gets x !! g = Some GCreating ∧ objects x !! h = None ∧ ∃ p, returns add_active (slots x) tt p ∧
    x' = set_slots p (set_objects (<[h:=Some (object_new now t)]> (objects x)) (set_gets (delete g (gets x)) x)).
Definition get_create_failed g x x' : Prop :=
  gets x !! g = Some GCreating ∧ x' = set_gets (<[g:=GReleasing]> (gets x)) x.
(** an idle one, as the manager left it, *)
Definition get_recycled g h t x x' : Prop :=
  ∃ s st p, gets x !! g = Some (GRecycling s) ∧ objects x !! h = None ∧ returns (mark_recycled (status s)) (slots x) st p ∧
    x' = set_slots p (set_objects (<[h:=Some (mkObject t st)]> (objects x)) (set_gets (delete g (gets x)) x)).
Definition get_unfit g x x' : Prop :=
  ∃ s p (unwinds : bool), gets x !! g = Some (GRecycling s) ∧ returns detach_object (slots x) tt p ∧
    x' = set_slots p (set_gets (<[g:=if unwinds then GReleasing else GPopping]> (gets x)) x).
(** (a panic of the manager's [on_detached] ends the call,) a cancellation at one of its awaits, and the end of its permit. *)
Definition get_cancel g t x x' : Prop :=
  (gets x !! g = Some GAcquiring ∧ x' = set_gets (delete g (gets x)) x) ∨
  (gets x !! g = Some GCreating ∧ x' = set_gets (<[g:=GReleasing]> (gets x)) x) ∨
  (∃ s p, gets x !! g = Some (GRecycling s) ∧ returns (unready_drop s t) (slots x) tt p ∧
    x' = set_slots p (set_gets (<[g:=GReleasing]> (gets x)) x)).
Definition get_release g x x' : Prop :=
  gets x !! g = Some GReleasing ∧ ∃ ps, pp_give 1 (permits x) ps ∧ x' = set_permits ps (set_gets (delete g (gets x)) x).

(** An object in use: writes, with the pool as long as it can be upgraded [Object::drop], [Object::detach], the permit that is dropped after them. *)
Definition object_write h t x x' : Prop :=
  ∃ s, objects x !! h = Some (Some s) ∧ x' = set_objects (<[h:=Some (mkObject t (status s))]> (objects x)) x.
Definition with_pool (m : M (PoolState T) unit) x : M (PoolState T) unit := if alive x then m else mret tt.
Definition object_drop h now x x' : Prop :=
  ∃ s p, objects x !! h = Some (Some s) ∧ returns (with_pool (return_object now s) x) (slots x) tt p ∧
    x' = set_slots p (set_objects (<[h:=None]> (objects x)) x).
Definition object_detach h x x' : Prop :=
  ∃ s p, objects x !! h = Some (Some s) ∧ returns (with_pool detach_object x) (slots x) tt p ∧
    x' = set_slots p (set_objects (<[h:=None]> (objects x)) x).
Definition object_release h x x' : Prop :=
  objects x !! h = Some None ∧ ∃ ps, pp_give 1 (permits x) ps ∧ x' = set_permits ps (set_objects (delete h (objects x)) x).

(** [replenish_to]: the reservation, *)
Definition replenish_start i (target k : Z) x x' : Prop :=
  alive x = true ∧ reservations x !! i = None ∧ 0 < k <= Z.min target max_size ∧ ∃ ps, pp_take k (permits x) ps ∧
    x' = set_permits ps (set_reservations (<[i:=RReserved k (Z.min target max_size)]> (reservations x)) x).
(** the locked section, *)
Definition replenish_plan i x x' : Prop :=
  ∃ k target n c p, reservations x !! i = Some (RReserved k target) ∧
    returns (plan k target (pp_available (permits x))) (slots x) (n, c) p ∧
    x' = set_slots p (set_reservations (<[i:=RSurplus n c]> (reservations x)) x).
Definition replenish_surplus i x x' : Prop :=
  ∃ n c ps, reservations x !! i = Some (RSurplus n c) ∧ release n (permits x) ps ∧
    x' = set_permits ps (set_reservations (<[i:=RMaking c]> (reservations x)) x).
(** the loop, *)
Definition replenish_created i t now x x' : Prop :=
  ∃ c p, reservations x !! i = Some (RMaking c) ∧ 0 < c ∧ returns (add_idle (object_new now t)) (slots x) tt p ∧
    x' = set_slots p (set_reservations (<[i:=RAdded c]> (reservations x)) x).
Definition replenish_release i x x' : Prop :=
  ∃ c ps, reservations x !! i = Some (RAdded c) ∧ release 1 (permits x) ps ∧
    x' = set_permits ps (set_reservations (<[i:=RMaking (c - 1)]> (reservations x)) x).
(** its end, by success, an error of the manager or a cancellation, *)
Definition replenish_end i x x' : Prop :=
  ∃ c, reservations x !! i = Some (RMaking c) ∧ x' = set_reservations (<[i:=RDropping c]> (reservations x)) x.
(** and the drop of the reservation. *)
Definition replenish_drop i x x' : Prop :=
  ∃ c ps, reservations x !! i = Some (RDropping c) ∧ release c (permits x) ps ∧
    x' = set_permits ps (set_reservations (delete i (reservations x)) x).

(** [Pool::retain] with any predicate, which may panic. *)
Definition pool_retain x x' : Prop :=
  alive x = true ∧ ∃ (F : Type) (f : F → T → ObjectStatus → F * T * option bool) c c' p,
    ((∃ r, retain f (c, slots x) = Ret r (c', p)) ∨ (∃ e, retain f (c, slots x) = Panic e (c', p))) ∧ x' = set_slots p x.

(** The last handle is dropped, which no call borrows any more: the idle objects go with the pool. *)
Definition pool_drop x x' : Prop :=
  alive x = true ∧ gets x = ∅ ∧ reservations x = ∅ ∧ x' = mkSys pool_new (permits x) ∅ (objects x) ∅ false.

Inductive step : Pool P T → Pool P T → Prop :=
| step_get_start g x x' : get_start g x x' → step x x'
| step_get_acquire g x x' : get_acquire g x x' → step x x'
| step_get_pop g x x' : get_pop g x x' → step x x'
| step_get_created g h t now x x' : get_created g h t now x x' → step x x'
| step_get_create_failed g x x' : get_create_failed g x x' → step x x'
| step_get_recycled g h t x x' : get_recycled g h t x x' → step x x'
| step_get_unfit g x x' : get_unfit g x x' → step x x'
| step_get_cancel g t x x' : get_cancel g t x x' → step x x'
| step_get_release g x x' : get_release g x x' → step x x'
| step_object_write h t x x' : object_write h t x x' → step x x'
| step_object_drop h now x x' : object_drop h now x x' → step x x'
| step_object_detach h x x' : object_detach h x x' → step x x'
| step_object_release h x x' : object_release h x x' → step x x'
| step_replenish_start i target k x x' : replenish_start i target k x x' → step x x'
| step_replenish_plan i x x' : replenish_plan i x x' → step x x'
| step_replenish_surplus i x x' : replenish_surplus i x x' → step x x'
| step_replenish_created i t now x x' : replenish_created i t now x x' → step x x'
| step_replenish_release i x x' : replenish_release i x x' → step x x'
| step_replenish_end i x x' : replenish_end i x x' → step x x'
| step_replenish_drop i x x' : replenish_drop i x x' → step x x'
| step_retain x x' : pool_retain x x' → step x x'
| step_pool_drop x x' : pool_drop x x' → step x x'
| step_internal x ps : pp_internal (permits x) ps → step x (set_permits ps x).

(** ** Invariant *)

(** The permit a [get] holds, the object it holds, and the room it has claimed. *)
Definition get_permit (a : Get T) : Z := match a with GAcquiring => 0 | _ => 1 end.
Definition get_object (a : Get T) : Z := match a with GRecycling _ => 1 | _ => 0 end.
Definition get_claim (a : Get T) : Z := match a with GCreating => 1 | _ => 0 end.

(** An entry of [objects] holds a permit; it holds an object while it is [Some]. *)
Definition object_permit (a : option (ObjectState T)) : Z := 1.
Definition object_live (a : option (ObjectState T)) : Z := match a with Some _ => 1 | None => 0 end.

(** The permits of a reservation and the room it has claimed. *)
Definition reserved (a : Replenish) : Z :=
  match a with RReserved k _ => k | RSurplus n c => n + c | RMaking c | RAdded c | RDropping c => c end.
Definition reserved_claim (a : Replenish) : Z :=
  match a with RReserved _ _ => 0 | RSurplus _ c | RMaking c => c | RAdded c => c - 1 | RDropping _ => 0 end.
Definition reservation_ok (a : Replenish) : Prop :=
  match a with
  | RReserved k target => 0 < k ∧ 0 <= target
  | RSurplus n c => 0 <= n ∧ 0 <= c
  | RMaking c | RDropping c => 0 <= c
  | RAdded c => 0 < c
  end.

Definition live x : Z := map_sum get_object (gets x) + map_sum object_live (objects x).
Definition claimed x : Z := map_sum get_claim (gets x) + map_sum reserved_claim (reservations x).
Definition held x : Z :=
  map_sum get_permit (gets x) + map_sum object_permit (objects x) + map_sum reserved (reservations x).

Record pool_ok x : Prop := {
  po_pool : pp_ok (permits x);
  po_permits : pp_free (permits x) + held x <= max_size;
  po_size : alive x = true → current_size (slots x) = idle_count (slots x) + live x;
  po_room : current_size (slots x) + claimed x <= max_size;
  po_reservations : ∀ i a, reservations x !! i = Some a → reservation_ok a;
  po_dead : alive x = false → slots x = pool_new ∧ gets x = ∅ ∧ reservations x = ∅;
}.

Lemma live_nonneg x : 0 <= live x.
Proof.
  assert (0 <= map_sum get_object (gets x)) by (apply map_sum_nonneg; intros k [] _; simpl; lia).
  assert (0 <= map_sum object_live (objects x)) by (apply map_sum_nonneg; intros k [] _; simpl; lia). unfold live. lia.
Qed.

Lemma claimed_nonneg x : pool_ok x → 0 <= claimed x.
Proof.
  intros Hx. assert (0 <= map_sum get_claim (gets x)) by (apply map_sum_nonneg; intros k [] _; simpl; lia).
  assert (0 <= map_sum reserved_claim (reservations x)); [|unfold claimed; lia].
  apply map_sum_nonneg. intros k a Ha. apply (po_reservations _ Hx) in Ha. destruct a; simpl in *; lia.
Qed.

(** Objects and claims are backed by permits, but for the surplus of one entry. *)
Lemma backed x g i :
  pool_ok x → live x + claimed x +
    from_option (λ a, get_permit a - get_object a - get_claim a) 0 (gets x !! g) +
    from_option (λ a, reserved a - reserved_claim a) 0 (reservations x !! i) <= held x.
Proof.
  intros Hx. unfold live, claimed, held.
  assert (∀ m : gmap nat (Get T), map_sum (λ a, get_object a + get_claim a) m = map_sum get_object m + map_sum get_claim m) as Hadd.
  { intros m. induction m as [|k a m Hk IH] using map_ind; [done|]. rewrite !map_sum_insert by done. lia. }
  pose proof (map_sum_le_at (λ a, get_object a + get_claim a) get_permit (gets x) g) as H1. rewrite Hadd in H1.
  pose proof (map_sum_le_at object_live object_permit (objects x) 0%nat) as H2.
  pose proof (map_sum_le_at reserved_claim reserved (reservations x) i) as H3.
  assert (from_option object_live 0 (objects x !! 0%nat) <= from_option object_permit 0 (objects x !! 0%nat))
    by (destruct (objects x !! 0%nat) as [[]|]; simpl; unfold object_permit; lia).
  assert (∀ j a, reservations x !! j = Some a → reserved_claim a <= reserved a) as Hr.
  { intros j a Ha. apply (po_reservations _ Hx) in Ha. destruct a; simpl in *; lia. }
  specialize (H3 Hr). assert (∀ j a, gets x !! j = Some a → get_object a + get_claim a <= get_permit a) as Hg by (intros j [] _; simpl; lia).
  specialize (H1 Hg). assert (∀ j a, objects x !! j = Some a → object_live a <= object_permit a) as Ho by (intros j [] _; simpl; unfold object_permit; lia).
  specialize (H2 Ho). destruct (gets x !! g), (reservations x !! i); simpl in *; lia.
Qed.

(** ** The operations on the slots do not panic *)
Definition slots_ok p : Prop := idle_count p <= current_size p <= max_size.

Lemma pool_slots_ok x : pool_ok x → alive x = true → slots_ok (slots x).
Proof.
  intros Hx Ha. pose proof (live_nonneg x). pose proof (claimed_nonneg x Hx). pose proof (po_size _ Hx Ha). pose proof (po_room _ Hx).
  unfold slots_ok. lia.
Qed.

Lemma restore_idle_spec s p :
  current_size p <= max_size → wp (restore_idle s) p (λ _ p', idle_count p' = idle_count p + 1 ∧ current_size p' = current_size p).
Proof.
  intros H. unfold restore_idle, check_size. wp_auto. apply wp_assert; [by apply bool_decide_eq_true|].
  apply return_idle_spec.
Qed.

Lemma detach_object_spec p :
  1 <= current_size p <= max_size →
  wp detach_object p (λ _ p', idle_count p' = idle_count p ∧ current_size p' = current_size p - 1).
Proof.
  intros H. unfold detach_object, check_size. wp_auto. apply wp_assert; [apply bool_decide_eq_true; lia|].
  apply detach_spec. lia.
Qed.

Lemma plan_spec k target a p :
  0 < k → 0 <= target → 0 <= a → a + k <= usize_max →
  wp (plan k target a) p (λ r p', p' = p ∧ 0 <= r.1 ∧ 0 <= r.2 ∧ r.1 + r.2 = k ∧
    (0 < r.2 → idle_count p + r.2 <= a + k ∧ idle_count p + r.2 <= target)).
Proof.
  intros Hk Ht Ha Hmax. unfold plan, saturating_sub. wp_auto. eapply wp_expect; [unfold checked_add; by rewrite decide_True by lia|]. wp_auto.
  assert (0 <= idle_count p) by (unfold idle_count; lia). apply wp_sub_int; [lia|]. wp_auto. simpl. split_and!; [done|lia..].
Qed.

(** ** Preservation *)
Hypothesis max_fits : max_size <= usize_max.

(** An object that is out can be taken off the pool. *)
Lemma gets_alive x g a : pool_ok x → gets x !! g = Some a → alive x = true.
Proof. intros Hx Hg. destruct (alive x) eqn:Ha; [done|]. destruct (po_dead _ Hx Ha) as (_ & E & _). by rewrite E, lookup_empty in Hg. Qed.

Lemma reservation_alive x i a : pool_ok x → reservations x !! i = Some a → alive x = true.
Proof. intros Hx Hi. destruct (alive x) eqn:Ha; [done|]. destruct (po_dead _ Hx Ha) as (_ & _ & E). by rewrite E, lookup_empty in Hi. Qed.

Lemma live_size x : pool_ok x → alive x = true →
  (∃ g s, gets x !! g = Some (GRecycling s)) ∨ (∃ h s, objects x !! h = Some (Some s)) → 1 <= current_size (slots x) <= max_size.
Proof.
  intros Hx Ha Hl. pose proof (pool_slots_ok x Hx Ha) as [_ ?]. pose proof (po_size _ Hx Ha) as Hs.
  assert (0 <= idle_count (slots x)) by (unfold idle_count; lia). assert (1 <= live x); [|lia]. unfold live.
  assert (0 <= map_sum get_object (gets x)) by (apply map_sum_nonneg; intros k [] _; simpl; lia).
  assert (0 <= map_sum object_live (objects x)) by (apply map_sum_nonneg; intros k [] _; simpl; lia).
  destruct Hl as [(g & s & Hg)|(h & s & Hh)].
  - pose proof (map_sum_elem get_object (gets x) g _ ltac:(intros k [] _; simpl; lia) Hg) as He. simpl in He. lia.
  - pose proof (map_sum_elem object_live (objects x) h _ ltac:(intros k [] _; simpl; lia) Hh) as He. simpl in He. lia.
Qed.

(** Creating what was claimed fits. *)
Lemma claim_size x : pool_ok x →
  (∃ g, gets x !! g = Some GCreating) ∨ (∃ i c, reservations x !! i = Some (RMaking c) ∧ 0 < c) →
  current_size (slots x) + 1 <= max_size.
Proof.
  intros Hx Hl. pose proof (po_room _ Hx). unfold claimed in *.
  assert (0 <= map_sum get_claim (gets x)) by (apply map_sum_nonneg; intros k [] _; simpl; lia).
  assert (∀ j a, reservations x !! j = Some a → 0 <= reserved_claim a) as Hr.
  { intros k a Ha. apply (po_reservations _ Hx) in Ha. destruct a; simpl in *; lia. }
  pose proof (map_sum_nonneg reserved_claim _ Hr). destruct Hl as [(g & Hg)|(i & c & Hi & Hc)].
  - pose proof (map_sum_elem get_claim (gets x) g _ ltac:(intros k [] _; simpl; lia) Hg) as He. simpl in He. lia.
  - pose proof (map_sum_elem reserved_claim (reservations x) i _ Hr Hi) as He. simpl in He. lia.
Qed.

Ltac sums := unfold held, live, claimed, idle_count, object_permit in *; simpl in *;
  rewrite ?map_sum_put, ?map_sum_del;
  repeat match goal with H : ?m !! ?k = _ |- context [?m !! ?k] => rewrite H end; simpl in *; try lia.

Ltac reservations_ok Hx :=
  let j := fresh "j" in let a := fresh "a" in let Ha := fresh "Ha" in
  intros j a Ha; simpl in Ha;
  first [by eapply (po_reservations _ Hx)
        |apply lookup_delete_Some in Ha as [_ Ha]; by eapply (po_reservations _ Hx)
        |apply lookup_insert_Some in Ha as [[_ <-]|[_ Ha]]; [|by eapply (po_reservations _ Hx)]].

(** A state in which the pool is still there. *)
Lemma pool_ok_alive x :
  alive x = true → pp_ok (permits x) → pp_free (permits x) + held x <= max_size → current_size (slots x) = idle_count (slots x) + live x →
  current_size (slots x) + claimed x <= max_size → (∀ i a, reservations x !! i = Some a → reservation_ok a) → pool_ok x.
Proof. intros Ha H1 H2 H3 H4 H5. split; [done..|]. congruence. Qed.

Lemma get_step_ok g x x' :
  pool_ok x → get_start g x x' ∨ get_acquire g x x' ∨ get_create_failed g x x' ∨ get_release g x x' ∨ get_pop g x x' → pool_ok x'.
Proof.
  intros Hx Hs. pose proof Hx as [Hp Hpm Hsz Hrm Hrs Hdd]. pose proof (backed x g 0 Hx) as Hb.
  assert (0 <= from_option (λ a, reserved a - reserved_claim a) 0 (reservations x !! 0%nat)) as Hr0.
  { destruct (reservations x !! 0%nat) as [a|] eqn:E; simpl; [|done]. apply Hrs in E. destruct a; simpl in *; lia. }
  pose proof (pp_nonneg _ Hp).
  assert (alive x = true) as Ha by (destruct Hs as [(Ha & _)|[(Hg & _)|[(Hg & _)|[(Hg & _)|(Hg & _)]]]]; [done|by eapply gets_alive..]). specialize (Hsz Ha).
  destruct Hs as [(_ & Hg & ->)|[(Hg & ps & Ht & ->)|[(Hg & ->)|[(Hg & ps & Ht & ->)|(Hg & r & p & Hr & ->)]]]].
  - apply pool_ok_alive; simpl; try done; sums.
  - destruct (pp_take_spec _ _ _ Hp Ht) as [Hp' Hf]. apply pool_ok_alive; simpl; try done; sums.
  - apply pool_ok_alive; simpl; try done; sums.
  - destruct (pp_give_spec _ _ _ Hp Ht) as [Hp' Hf]. apply pool_ok_alive; simpl; try done; sums.
  - apply (wp_returns_elim _ _ _ _ _ (idle_pop_spec queue_strategy (slots x))) in Hr as [Hc Hr]. rewrite Hg in Hb. simpl in Hb.
    destruct r as [s|]; [destruct Hr as [Hr _]; apply pool_ok_alive; simpl; try done; sums|]. destruct Hr as [Hi ->]. apply pool_ok_alive; simpl; try done; sums.
Qed.

Lemma get_object_ok g x x' :
  pool_ok x → (∃ h t now, get_created g h t now x x') ∨ (∃ h t, get_recycled g h t x x') ∨ get_unfit g x x' ∨ (∃ t, get_cancel g t x x') →
  pool_ok x'.
Proof.
  intros Hx Hs. pose proof Hx as [Hp Hpm Hsz Hrm Hrs Hdd].
  assert (∃ a, gets x !! g = Some a) as [a0 Ha0] by (destruct Hs as [(h & t & now & Hg & _)|[(h & t & s & st & p & Hg & _)|[(s & p & u & Hg & _)|
    (t & [(Hg & _)|[(Hg & _)|(s & p & Hg & _)]])]]]; eauto). pose proof (gets_alive x g a0 Hx Ha0) as Ha. specialize (Hsz Ha). clear a0 Ha0.
  destruct Hs as [(h & t & now & Hg & Hh & p & Hr & ->)|[(h & t & s & st & p & Hg & Hh & Hr & ->)|[(s & p & u & Hg & Hr & ->)|
    (t & [(Hg & ->)|[(Hg & ->)|(s & p & Hg & Hr & ->)]])]]].
  - pose proof (claim_size x Hx (or_introl (ex_intro _ g Hg))).
    apply (wp_returns_elim _ _ _ _ _ (add_active_spec (slots x) ltac:(lia))) in Hr as [Hi Hc]. apply pool_ok_alive; simpl; try done; sums.
  - assert (p = slots x) as ->.
    { unfold returns, mark_recycled, mbind, M_bind, add_int, expect in Hr. destruct (checked_add _ _ _); [|done]. by injection Hr. }
    apply pool_ok_alive; simpl; try done; sums.
  - pose proof (live_size x Hx Ha (or_introl (ex_intro _ g (ex_intro _ s Hg)))) as Hl.
    apply (wp_returns_elim _ _ _ _ _ (detach_object_spec _ Hl)) in Hr as [Hi Hc]. destruct u; apply pool_ok_alive; simpl; try done; sums.
  - apply pool_ok_alive; simpl; try done; sums.
  - apply pool_ok_alive; simpl; try done; sums.
  - pose proof (live_size x Hx Ha (or_introl (ex_intro _ g (ex_intro _ s Hg)))) as Hl. unfold unready_drop in Hr.
    destruct recycle_cancelled_strategy.
    + apply (wp_returns_elim _ _ _ _ _ (detach_object_spec _ Hl)) in Hr as [Hi Hc]. apply pool_ok_alive; simpl; try done; sums.
    + apply (wp_returns_elim _ _ _ _ _ (restore_idle_spec _ _ (proj2 Hl))) in Hr as [Hi Hc]. apply pool_ok_alive; simpl; try done; sums.
Qed.

(** Without the pool, objects are dropped on their own and give back their permits. *)
Lemma dead_object_ok h x x' :
  pool_ok x → alive x = false →
  (∃ t, object_write h t x x') ∨ (∃ now, object_drop h now x x') ∨ object_detach h x x' ∨ object_release h x x' → pool_ok x'.
Proof.
  intros Hx Ha Hs. pose proof Hx as [Hp Hpm Hsz Hrm Hrs Hdd]. unfold object_drop, object_detach, with_pool in Hs. rewrite Ha in Hs.
  assert (∀ q ps, pp_ok ps → pp_free ps + held (set_objects q x) <= max_size → pool_ok (set_permits ps (set_objects q x))) as Hq
    by (intros q ps H1 H2; split; simpl; try done; congruence).
  assert (∀ y, set_permits (permits y) y = y) as Hsame by (by intros []).
  destruct Hs as [(t & s & Hh & ->)|[(now & s & p & Hh & [= <-] & ->)|[(s & p & Hh & [= <-] & ->)|(Hh & ps & Ht & ->)]]];
    try (match goal with |- pool_ok ?y => rewrite <-(Hsame y) end); try (apply Hq; [done|sums]).
  destruct (pp_give_spec _ _ _ Hp Ht) as [Hp' Hf]. apply Hq; [done|]. sums.
Qed.

Lemma object_step_ok h x x' :
  pool_ok x → (∃ t, object_write h t x x') ∨ (∃ now, object_drop h now x x') ∨ object_detach h x x' ∨ object_release h x x' → pool_ok x'.
Proof.
  intros Hx Hs. pose proof Hx as [Hp Hpm Hsz Hrm Hrs Hdd].
  destruct (decide (alive x = true)) as [Ha|Hno]; [specialize (Hsz Ha)|].
  2: { eapply dead_object_ok; [done|by destruct (alive x)|done]. }
  destruct Hs as [(t & s & Hh & ->)|[(now & s & p & Hh & Hr & ->)|[(s & p & Hh & Hr & ->)|(Hh & ps & Ht & ->)]]];
    unfold with_pool in *; try rewrite Ha in Hr.
  - apply pool_ok_alive; simpl; try done; sums.
  - pose proof (live_size x Hx Ha (or_intror (ex_intro _ h (ex_intro _ s Hh)))) as Hl.
    apply (wp_returns_elim _ _ _ _ _ (restore_idle_spec _ _ (proj2 Hl))) in Hr as [Hi Hc]. apply pool_ok_alive; simpl; try done; sums.
  - pose proof (live_size x Hx Ha (or_intror (ex_intro _ h (ex_intro _ s Hh)))) as Hl.
    apply (wp_returns_elim _ _ _ _ _ (detach_object_spec _ Hl)) in Hr as [Hi Hc]. apply pool_ok_alive; simpl; try done; sums.
  - destruct (pp_give_spec _ _ _ Hp Ht) as [Hp' Hf]. apply pool_ok_alive; simpl; try done; sums.
Qed.

Lemma pool_release_spec n (ps ps' : P) : pp_ok ps → release n ps ps' → pp_ok ps' ∧ pp_free ps' = pp_free ps + n.
Proof. intros Hp [[-> ->]|Hg]; [split; [done|lia]|by apply pp_give_spec]. Qed.

Lemma replenish_step_ok i x x' :
  pool_ok x → (∃ target k, replenish_start i target k x x') ∨ replenish_plan i x x' ∨ replenish_surplus i x x' ∨
    (∃ t now, replenish_created i t now x x') ∨ replenish_release i x x' ∨ replenish_end i x x' ∨ replenish_drop i x x' → pool_ok x'.
Proof.
  intros Hx Hs. pose proof Hx as [Hp Hpm Hsz Hrm Hrs Hdd]. pose proof (backed x 0 i Hx) as Hb. pose proof (pp_available_spec _ Hp) as Hav.
  assert (0 <= from_option (λ a, get_permit a - get_object a - get_claim a) 0 (gets x !! 0%nat)) as Hg0
    by (destruct (gets x !! 0%nat) as [[]|]; simpl; lia).
  assert (0 <= held x) by (pose proof (live_nonneg x); pose proof (claimed_nonneg x Hx); destruct (reservations x !! i) as [a|] eqn:E;
    [apply Hrs in E; destruct a|]; simpl in *; lia).
  assert (alive x = true) as Ha.
  { destruct Hs as [(tg & k & Ha & _)|[(k & tg & n & c & p & Hi & _)|[(n & c & ps & Hi & _)|[(t & now & c & p & Hi & _)|[(c & ps & Hi & _)|[(c & Hi & _)|(c & ps & Hi & _)]]]]]];
      [done|by eapply reservation_alive..]. }
  specialize (Hsz Ha).
  destruct Hs as [(tg & k & _ & Hi & Hk & ps & Ht & ->)|[(k & tg & n & c & p & Hi & Hr & ->)|[(n & c & ps & Hi & Ht & ->)|
    [(t & now & c & p & Hi & Hc & Hr & ->)|[(c & ps & Hi & Ht & ->)|[(c & Hi & ->)|(c & ps & Hi & Ht & ->)]]]]]].
  - destruct (pp_take_spec _ _ _ Hp Ht) as [Hp' Hf]. apply pool_ok_alive; simpl; try done; [sums..|]. reservations_ok Hx. simpl. lia.
  - pose proof (Hrs _ _ Hi) as [Hk Htg]. rewrite Hi in Hb. simpl in Hb.
    assert (k <= held x) by (pose proof (live_nonneg x); pose proof (claimed_nonneg x Hx); lia).
    apply (wp_returns_elim _ _ _ _ _ (plan_spec k tg _ (slots x) Hk Htg (proj1 Hav) ltac:(lia))) in Hr as (-> & Hn & Hc & E & Hroom).
    simpl in *. apply pool_ok_alive; simpl; try done; [sums..| |reservations_ok Hx; simpl; lia].
    destruct (decide (0 < c)) as [Hpos|Hpos]; [destruct (Hroom Hpos)|]; sums.
  - pose proof (Hrs _ _ Hi) as [Hn Hc]. destruct (pool_release_spec _ _ _ Hp Ht) as [Hp' Hf].
    apply pool_ok_alive; simpl; try done; [sums..|]. reservations_ok Hx. simpl. lia.
  - pose proof (claim_size x Hx (or_intror (ex_intro _ i (ex_intro _ c (conj Hi Hc))))).
    apply (wp_returns_elim _ _ _ _ _ (add_idle_spec _ (slots x) ltac:(lia))) in Hr as [Hic Hcs].
    apply pool_ok_alive; simpl; try done; [sums..|]. reservations_ok Hx. simpl. lia.
  - pose proof (Hrs _ _ Hi) as Hc. simpl in Hc. destruct (pool_release_spec _ _ _ Hp Ht) as [Hp' Hf].
    apply pool_ok_alive; simpl; try done; [sums..|]. reservations_ok Hx. simpl. lia.
  - pose proof (Hrs _ _ Hi) as Hc. simpl in Hc. apply pool_ok_alive; simpl; try done; [sums..|]. reservations_ok Hx. simpl. lia.
  - pose proof (Hrs _ _ Hi) as Hc. simpl in Hc. destruct (pool_release_spec _ _ _ Hp Ht) as [Hp' Hf].
    apply pool_ok_alive; simpl; try done; [sums..|]. reservations_ok Hx.
Qed.

Lemma pool_step_ok x x' : pool_ok x → step x x' → pool_ok x'.
Proof.
  intros Hx Hs. destruct Hs.
  1, 2, 3, 5, 9: eapply get_step_ok; by eauto 8.
  1, 2, 3, 4: eapply get_object_ok; by eauto 8.
  1, 2, 3, 4: eapply object_step_ok; by eauto 8.
  1, 2, 3, 4, 5, 6, 7: eapply replenish_step_ok; by eauto 12.
  - destruct H as (Ha & F & f & c & c' & p & Hr & ->). pose proof (pool_slots_ok x Hx Ha) as [Hi _].
    destruct (retain_counts f c (slots x) c' p Hi Hr) as [Hle Hd]. destruct Hx as [Hp Hpm Hsz Hrm Hrs _]. specialize (Hsz Ha).
    unfold live, claimed, held, idle_count in *. apply pool_ok_alive; simpl; unfold live, claimed, held, idle_count; simpl; try done; lia.
  - destruct H as (Ha & Hg & Hr & ->). destruct Hx as [Hp Hpm Hsz Hrm Hrs _]. unfold held, claimed in *. rewrite Hg, Hr in *.
    split; simpl; try done. unfold claimed. simpl. pose proof (pp_nonneg _ Hp).
    assert (0 <= map_sum object_permit (objects x)) by (apply map_sum_nonneg; intros; unfold object_permit; lia).
    rewrite !map_sum_empty in *. lia.
  - destruct (pp_internal_spec _ _ (po_pool _ Hx) H) as [Hp' Hf]. destruct Hx as [Hp Hpm Hsz Hrm Hrs Hdd]. split; simpl; try done.
    unfold held in *. simpl. lia.
Qed.

Lemma pool_reachable_ok ps x : 0 <= max_size → pp_ok ps → pp_free ps <= max_size → rtc step (new ps) x → pool_ok x.
Proof.
  intros Hm Hp Hf. apply (rtc_ind_r pool_ok); [|intros y z _ Hyz Hy; by eapply pool_step_ok].
  split; simpl; try done; unfold held, live, claimed, idle_count; simpl; rewrite !map_sum_empty; lia.
Qed.

(** ** Properties *)

(** C21: the pool never owns more objects than its maximum: in every reachable state, with gets,
    recyclings, replenishments and cancellations interleaved in any way, the size is the number of
    idle objects plus the number of objects in use or being checked as long as the pool is there, it is
    at most the maximum together with every object a get or a replenishment is still creating, and objects
    are in use only under permits, also those that outlive the pool. *)
Theorem pool_bounded ps x :
  0 <= max_size → pp_ok ps → pp_free ps <= max_size → rtc step (new ps) x →
  (alive x = true → current_size (slots x) = idle_count (slots x) + live x) ∧
  0 <= current_size (slots x) ∧ current_size (slots x) + map_sum get_claim (gets x) + map_sum reserved_claim (reservations x) <= max_size ∧
  live x + pp_free (permits x) <= max_size.
Proof.
  intros Hm Hp Hf Hr. pose proof (pool_reachable_ok ps x Hm Hp Hf Hr) as Hx. pose proof Hx as [Hpp Hpm Hsz Hrm Hrs Hdd].
  assert (0 <= idle_count (slots x)) by (unfold idle_count; lia).
  assert (0 <= current_size (slots x)) as Hc.
  { destruct (decide (alive x = true)) as [Ha|Ha]; [pose proof (live_nonneg x); specialize (Hsz Ha); lia|].
    destruct Hdd as (-> & _); [by destruct (alive x)|done]. }
  assert (0 <= map_sum reserved_claim (reservations x)) as Hrc.
  { apply map_sum_nonneg. intros k a Ha. apply Hrs in Ha. destruct a; simpl in *; lia. }
  unfold claimed in Hrm. split_and!; [done|lia|lia|].
  pose proof (backed x (fresh (dom (gets x))) (fresh (dom (reservations x))) Hx) as Hb.
  rewrite !(proj1 (not_elem_of_dom _ _)) in Hb by apply is_fresh. simpl in Hb. pose proof (claimed_nonneg x Hx). lia.
Qed.

(** The pool's own checks never fail: in every reachable state the assertion on its size, the
    checked subtraction of a detachment and the additions of its counters succeed for whichever
    operation may come next. *)
Theorem pool_never_panics ps x g h i s t now :
  0 <= max_size → pp_ok ps → pp_free ps <= max_size → rtc step (new ps) x →
  (gets x !! g = Some GCreating → wp add_active (slots x) (λ _ _, True)) ∧
  (gets x !! g = Some (GRecycling s) → wp detach_object (slots x) (λ _ _, True) ∧ wp (unready_drop s t) (slots x) (λ _ _, True)) ∧
  (objects x !! h = Some (Some s) →
    wp (with_pool (return_object now s) x) (slots x) (λ _ _, True) ∧ wp (with_pool detach_object x) (slots x) (λ _ _, True)) ∧
  (∀ k target, reservations x !! i = Some (RReserved k target) →
    wp (plan k target (pp_available (permits x))) (slots x) (λ r _, r.1 <= k)) ∧
  (∀ c, reservations x !! i = Some (RMaking c) → 0 < c → wp (add_idle (object_new now t)) (slots x) (λ _ _, True)).
Proof.
  intros Hm Hp Hf Hr. pose proof (pool_reachable_ok ps x Hm Hp Hf Hr) as Hx. split_and!.
  - intros Hg. pose proof (claim_size x Hx (or_introl (ex_intro _ g Hg))). by wp_apply add_active_spec; [lia|].
  - intros Hg. pose proof (live_size x Hx (gets_alive x g _ Hx Hg) (or_introl (ex_intro _ g (ex_intro _ s Hg)))) as Hl.
    split; [by wp_apply detach_object_spec|]. unfold unready_drop.
    destruct recycle_cancelled_strategy; [by wp_apply detach_object_spec|by wp_apply restore_idle_spec; [lia|]].
  - intros Hh. unfold with_pool. destruct (alive x) eqn:Ha; [|done]. pose proof (live_size x Hx Ha (or_intror (ex_intro _ h (ex_intro _ s Hh)))) as Hl.
    split; [by wp_apply restore_idle_spec; [lia|]|by wp_apply detach_object_spec].
  - intros k tg Hi. pose proof (po_reservations _ Hx _ _ Hi) as [Hk Htg]. pose proof (pp_available_spec _ (po_pool _ Hx)) as Hav.
    pose proof (backed x (fresh (dom (gets x))) i Hx) as Hb. rewrite (proj1 (not_elem_of_dom (gets x) _)), Hi in Hb by apply is_fresh.
    simpl in Hb. pose proof (live_nonneg x). pose proof (claimed_nonneg x Hx). pose proof (po_permits _ Hx).
    wp_apply plan_spec; [done|done|lia|lia|]. intros r p' (_ & _ & ? & ? & _). lia.
  - intros c Hi Hc. pose proof (claim_size x Hx (or_intror (ex_intro _ i (ex_intro _ c (conj Hi Hc))))).
    by wp_apply add_idle_spec; [lia|].
Qed.
End pool.

(** Three permits: one object in use, another being created by a get, a third by a replenishment. *)
Definition busy : Pool Z nat :=
  mkSys (mkPool [] 1) 0 {[1%nat := GCreating]} {[0%nat := Some (object_new 5 7%nat)]} {[0%nat := RMaking 1]} true.

Lemma busy_reachable : rtc (step 3 Fifo Detach) (new 3) busy.
Proof.
  eapply rtc_l; [apply (step_get_start _ _ _ 0); split_and!; [done|done|reflexivity]|].
  eapply rtc_l; [apply (step_get_acquire _ _ _ 0); split; [apply lookup_insert_eq|]; exists 2; split; [by split|reflexivity]|].
  eapply rtc_l; [apply (step_get_pop _ _ _ 0); split; [apply lookup_insert_eq|]; eexists None, _; split; reflexivity|].
  eapply rtc_l; [apply (step_get_created _ _ _ 0 0 7%nat 5); split; [apply lookup_insert_eq|]; split; [done|];
    eexists; split; [vm_compute; reflexivity|reflexivity]|].
  eapply rtc_l; [apply (step_get_start _ _ _ 1); split_and!; [done|done|reflexivity]|].
  eapply rtc_l; [apply (step_get_acquire _ _ _ 1); split; [apply lookup_insert_eq|]; exists 1; split; [by split|reflexivity]|].
  eapply rtc_l; [apply (step_get_pop _ _ _ 1); split; [apply lookup_insert_eq|]; eexists None, _; split; reflexivity|].
  eapply rtc_l; [apply (step_replenish_start _ _ _ 0 1 1); split_and!; [done|done|done|done|]; exists 0; split; [by split|reflexivity]|].
  eapply rtc_l; [apply (step_replenish_plan _ _ _ 0); eexists 1, 1, 0, 1, _; split_and!; [apply lookup_insert_eq|vm_compute; reflexivity|reflexivity]|].
  eapply rtc_l; [apply (step_replenish_surplus _ _ _ 0); eexists 0, 1, _; split_and!; [apply lookup_insert_eq|by left|reflexivity]|].
  apply rtc_refl.
Qed.

Lemma pool_bounded_witness :
  live busy = 1 ∧ map_sum reserved_claim (reservations busy) = 1 ∧ (alive busy = true → current_size (slots busy) = idle_count (slots busy) + live busy) ∧
  0 <= current_size (slots busy) ∧ current_size (slots busy) + map_sum get_claim (gets busy) + map_sum reserved_claim (reservations busy) <= 3 ∧
  live busy + pp_free (permits busy) <= 3.
Proof.
  do 2 (split; [vm_compute; reflexivity|]). apply (pool_bounded 3 Fifo Detach ltac:(vm_compute; discriminate) 3 busy);
    [lia|vm_compute; discriminate|vm_compute; discriminate|apply busy_reachable].
Defined.

Lemma pool_never_panics_witness :
  wp add_active (slots busy) (λ _ _, True) ∧
  wp (with_pool (return_object 3 9 (object_new 5 7%nat)) busy) (slots busy) (λ _ _, True).
Proof.
  assert (3 <= usize_max) as H2 by (vm_compute; discriminate). assert (0 <= 3) as H0 by lia.
  assert (pp_ok 3) as Hp by (vm_compute; discriminate). assert (pp_free 3 <= 3) as Hf by (vm_compute; discriminate).
  split.
  - apply (pool_never_panics 3 Fifo Detach H2 3 busy 1 0 0 (object_new 5 7%nat) 7%nat 9 H0 Hp Hf busy_reachable). reflexivity.
  - apply (pool_never_panics 3 Fifo Detach H2 3 busy 1 0 0 (object_new 5 7%nat) 7%nat 9 H0 Hp Hf busy_reachable). reflexivity.
Defined.
