(* ===== verification/PoolUnbounded.v ===== *)
(** * The unbounded object pool

    [asyncband/src/pool/unbounded.rs]: the slots of PoolState behind a lock, without permits.  Objects
    come from the manager, from a closure or from the caller ([extend]); the pool with its calls of
    [get] and the objects in use is a labelled system.  The objects in use hold weak references: the pool may
    be dropped before them, and they are then dropped or detached without it.  The manager's methods are the
    environment: they return, fail, change the object they are given, panic, or are cancelled at any await; the calls of
    [on_detached] that [retain] makes return. *)
From S2P Require Import Prelude PoolState.

(** A [get] (or a [get_or_create]) that waits for a new object, and a [get] that waits for the verdict
    on an idle one. *)
Inductive Get (T : Type) : Type :=
| Popping
| Creating
| Recycling (s : ObjectState T).
Arguments Popping {T}.
Arguments Creating {T}.
Arguments Recycling {T} s.

Record Pool (T : Type) : Type := mkSys {
  slots : PoolState T;
  gets : gmap nat (Get T);
  objects : gmap nat (ObjectState T);
  (** The handles of the pool have not all been dropped. *)
  alive : bool;
}.
Arguments mkSys {T}.
Arguments alive {T}.
Arguments slots {T}.
Arguments gets {T}.
Arguments objects {T}.

Inductive Label (T : Type) : Type :=
| GetStart (g : nat)
| GetPop (g : nat)
| GetCreated (g h : nat) (t : T) (now : Instant)
| GetFailed (g : nat)
| GetRecycled (g h : nat) (t : T)
| GetUnfit (g : nat) (t : T) (unwinds : bool)
| GetCancel (g : nat) (t : T)
| TryGet (h : nat)
| GetOrCreate (g h : nat)
| Extend (ts : list T) (now : Instant)
| Retain (f : T → ObjectStatus → T * option bool)
| ObjectWrite (h : nat) (t : T)
| ObjectDrop (h : nat) (now : Instant)
| ObjectDetach (h : nat)
| PoolDrop.
Arguments GetStart {T} g.
Arguments GetPop {T} g.
Arguments GetCreated {T} g h t now.
Arguments GetFailed {T} g.
Arguments GetRecycled {T} g h t.
Arguments GetUnfit {T} g t unwinds.
Arguments GetCancel {T} g t.
Arguments TryGet {T} h.
Arguments GetOrCreate {T} g h.
Arguments Extend {T} ts now.
Arguments Retain {T} f.
Arguments ObjectWrite {T} h t.
Arguments ObjectDrop {T} h now.
Arguments ObjectDetach {T} h.
Arguments PoolDrop {T}.

(** Objects that joined the pool, objects that left it, and those passed to [on_detached]. *)
Record Obs (T : Type) : Type := mkObs {
  joined : Z;
  left_pool : Z;
  on_detached : list T;
}.
Arguments mkObs {T}.
Arguments joined {T}.
Arguments left_pool {T}.
Arguments on_detached {T}.
Definition silent {T : Type} : Obs T := mkObs 0 0 [].

Section pool.
Context {T : Type} (queue_strategy : QueueStrategy) (recycle_cancelled_strategy : RecycleCancelledStrategy).
Implicit Types (x : Pool T) (l : Label T) (g h : nat) (t : T) (now : Instant) (s : ObjectState T).

Definition new : Pool T := mkSys pool_new ∅ ∅ true.

Definition set_slots (p : PoolState T) x : Pool T := mkSys p (gets x) (objects x) (alive x).
Definition set_gets (q : gmap nat (Get T)) x : Pool T := mkSys (slots x) q (objects x) (alive x).
Definition set_objects (q : gmap nat (ObjectState T)) x : Pool T := mkSys (slots x) (gets x) q (alive x).
Definition in_slots {A : Type} (m : M (PoolState T) A) : M (Pool T) A := zoom slots set_slots m.

Definition restore_idle s : M (PoolState T) unit := return_idle s.
Definition return_object now s : M (PoolState T) unit := restore_idle (mkObject (o s) (mark_returned now (status s))).
(** [detach_object]: the manager is told after the slots are unlocked. *)
Definition detach_object t : M (Pool T) (Obs T) := in_slots detach;; mret (mkObs 0 1 [t]).

(** The top of the loop of [get]. *)
Definition get_pop g : M (Pool T) (Obs T) :=
  x ← get;
  r ← in_slots (pop queue_strategy);
  modify (set_gets (<[g:=match r with None => Creating | Some s => Recycling s end]> (gets x)));;
  mret silent.

(** A new object, counted when it is there. *)
Definition get_created g h t now : M (Pool T) (Obs T) :=
  x ← get;
  in_slots add_active;;
  modify (λ y, mkSys (slots y) (delete g (gets x)) (<[h:=object_new now t]> (objects x)) (alive x));;
  mret (mkObs 1 0 []).

(** An idle object that can be used again, as the manager left it. *)
Definition hand_out h t s : M (Pool T) unit :=
  st ← mark_recycled (status s);
  modify (λ y, set_objects (<[h:=mkObject t st]> (objects y)) y).

Definition recycling g : M (Pool T) (ObjectState T) :=
  x ← get;
  match gets x !! g with
  | Some (Recycling s) => mret s
  | _ => panic "no object to recycle"
  end.

(** [UnreadyObject::drop]. *)
Definition unready_drop s t : M (Pool T) (Obs T) :=
  match recycle_cancelled_strategy with
  | Detach => detach_object t
  | ReturnToPool => in_slots (restore_idle (mkObject t (status s)));; mret silent
  end.

Definition try_get h : M (Pool T) (option unit) :=
  r ← in_slots (pop queue_strategy);
  match r with
  | None => mret None
  | Some s => hand_out h (o s) s;; mret (Some tt)
  end.

Definition get_or_create g h : M (Pool T) (Obs T) :=
  r ← try_get h;
  match r with
  | Some _ => mret silent
  | None => modify (λ y, set_gets (<[g:=Creating]> (gets y)) y);; mret silent
  end.

Fixpoint extend (ts : list T) now : M (PoolState T) unit :=
  match ts with
  | [] => mret tt
  | t :: ts => add_idle (object_new now t);; extend ts now
  end.

(** [Pool::retain]; a panic of the predicate leaves every object in the pool. *)
Definition pool_retain (f : T → ObjectStatus → T * option bool) : M (Pool T) (Obs T) := λ x,
  match retain (λ (_ : unit) t st, let (t, r) := f t st in (tt, t, r)) (tt, slots x) with
  | Ret r (_, p) => Ret (mkObs 0 (Z.of_nat (length (removed r))) (removed r)) (set_slots p x)
  | Panic _ (_, p) => Ret silent (set_slots p x)
  end.

Definition enabled l x : bool :=
  match l with
  | GetStart g => alive x && bool_decide (gets x !! g = None)
  | GetPop g => match gets x !! g with Some Popping => true | _ => false end
  | GetCreated g h _ _ =>
      match gets x !! g with Some Creating => bool_decide (objects x !! h = None ∧ current_size (slots x) < usize_max) | _ => false end
  | GetFailed g => match gets x !! g with Some Creating => true | _ => false end
  | GetRecycled g h _ =>
      match gets x !! g with
      | Some (Recycling s) => bool_decide (objects x !! h = None ∧ recycle_count (status s) < usize_max)
      | _ => false
      end
  | GetUnfit g _ _ => match gets x !! g with Some (Recycling _) => true | _ => false end
  | GetCancel g _ => match gets x !! g with Some (Creating | Recycling _) => true | _ => false end
  | TryGet h => alive x && bool_decide (objects x !! h = None) && bool_decide (Forall (λ s, recycle_count (status s) < usize_max) (idle (slots x)))
  | GetOrCreate g h =>
      alive x && bool_decide (objects x !! h = None ∧ gets x !! g = None) &&
      bool_decide (Forall (λ s, recycle_count (status s) < usize_max) (idle (slots x)))
  | Extend ts _ => alive x && bool_decide (current_size (slots x) + Z.of_nat (length ts) <= usize_max)
  | Retain _ => alive x
  | ObjectWrite h _ | ObjectDrop h _ | ObjectDetach h => bool_decide (is_Some (objects x !! h))
  | PoolDrop => alive x && bool_decide (gets x = ∅)
  end.

Definition exec l : M (Pool T) (Obs T) :=
  x ← get;
  match l with
  | GetStart g => put (set_gets (<[g:=Popping]> (gets x)) x);; mret silent
  | GetPop g => get_pop g
  | GetCreated g h t now => get_created g h t now
  | GetFailed g => put (set_gets (delete g (gets x)) x);; mret silent
  | GetRecycled g h t =>
      s ← recycling g;
      hand_out h t s;;
      modify (λ y, set_gets (delete g (gets y)) y);;
      mret silent
  | GetUnfit g t unwinds =>
      ob ← detach_object t;
      modify (λ y, set_gets (if (unwinds : bool) then delete g (gets y) else <[g:=Popping]> (gets y)) y);;
      mret ob
  | GetCancel g t =>
      ob ← match gets x !! g with
           | Some (Recycling s) => unready_drop s t
           | _ => mret silent
           end;
      modify (λ y, set_gets (delete g (gets y)) y);;
      mret ob
  | TryGet h => try_get h;; mret silent
  | GetOrCreate g h => get_or_create g h
  | Extend ts now => in_slots (extend ts now);; mret (mkObs (Z.of_nat (length ts)) 0 [])
  | Retain f => pool_retain f
  | ObjectWrite h t =>
      s ← expect (objects x !! h) "no such object";
      put (set_objects (<[h:=mkObject t (status s)]> (objects x)) x);;
      mret silent
  | ObjectDrop h now =>
      s ← expect (objects x !! h) "no such object";
      (if alive x then in_slots (return_object now s) else mret tt);;
      modify (λ y, set_objects (delete h (objects y)) y);;
      mret silent
  | ObjectDetach h =>
      s ← expect (objects x !! h) "no such object";
      ob ← (if alive x then detach_object (o s) else mret silent);
      modify (λ y, set_objects (delete h (objects y)) y);;
      mret ob
  | PoolDrop => put (mkSys pool_new ∅ (objects x) false);; mret (mkObs 0 (current_size (slots x)) [])
  end.
End pool.

#[export] Hint Unfold in_slots : band_zoom.

(** ** Invariant *)
Section invariant.
Context {T : Type} (queue_strategy : QueueStrategy) (recycle_cancelled_strategy : RecycleCancelledStrategy).
Implicit Types (x : Pool T) (l : Label T) (g h : nat) (t : T) (now : Instant) (s : ObjectState T).

Definition checked (a : Get T) : Z := match a with Recycling _ => 1 | _ => 0 end.

(** The objects in use or being checked. *)
Definition out x : Z := map_sum checked (gets x) + map_sum (λ _, 1) (objects x).

Record pool_ok x : Prop := {
  po_size : alive x = true → current_size (slots x) = idle_count (slots x) + out x;
  po_max : current_size (slots x) <= usize_max;
  po_dead : alive x = false → current_size (slots x) = 0 ∧ gets x = ∅;
}.

Definition moves x (ob : Obs T) x' : Prop :=
  pool_ok x' ∧ current_size (slots x') = current_size (slots x) + joined ob - left_pool ob ∧
  (alive x' = true → alive x = true ∧ left_pool ob = Z.of_nat (length (on_detached ob))).

Lemma out_nonneg x : 0 <= out x.
Proof.
  assert (0 <= map_sum checked (gets x)) by (apply map_sum_nonneg; intros k [] _; simpl; lia).
  assert (0 <= map_sum (λ _ : ObjectState T, 1) (objects x)) by (apply map_sum_nonneg; intros; simpl; lia). unfold out. lia.
Qed.

Lemma out_pos x : pool_ok x → alive x = true → (∃ g s, gets x !! g = Some (Recycling s)) ∨ (∃ h, is_Some (objects x !! h)) → 1 <= current_size (slots x).
Proof.
  intros Hx Ha Hl. rewrite (po_size _ Hx Ha). assert (0 <= idle_count (slots x)) by (unfold idle_count; lia). unfold out.
  assert (0 <= map_sum checked (gets x)) by (apply map_sum_nonneg; intros k [] _; simpl; lia).
  assert (0 <= map_sum (λ _ : ObjectState T, 1) (objects x)) by (apply map_sum_nonneg; intros; simpl; lia).
  destruct Hl as [(g & s & Hg)|(h & s & Hh)].
  - pose proof (map_sum_elem checked (gets x) g _ ltac:(intros k [] _; simpl; lia) Hg) as He. simpl in He. lia.
  - pose proof (map_sum_elem (λ _ : ObjectState T, 1) (objects x) h _ ltac:(intros; simpl; lia) Hh) as He. simpl in He. lia.
Qed.

Lemma unbounded_gets_alive x g a : pool_ok x → gets x !! g = Some a → alive x = true.
Proof. intros Hx Hg. destruct (alive x) eqn:Ha; [done|]. destruct (po_dead _ Hx Ha) as [_ E]. by rewrite E, lookup_empty in Hg. Qed.

(** The state after a step of a pool that is alive: the sums that change. *)
Lemma alive_moves x ob x' :
  alive x = true → alive x' = true → current_size (slots x') = idle_count (slots x') + out x' → current_size (slots x') <= usize_max →
  current_size (slots x') = current_size (slots x) + joined ob - left_pool ob → left_pool ob = Z.of_nat (length (on_detached ob)) → moves x ob x'.
Proof. intros Ha Ha' H1 H2 H3 H4. split_and!; [split; [done|done|congruence]|done|done]. Qed.

Ltac sums := apply alive_moves; unfold out, idle_count in *; simpl in *; try done; try congruence;
  rewrite ?map_sum_put, ?map_sum_del;
  repeat match goal with H : ?m !! ?k = _ |- context [?m !! ?k] => rewrite H end; simpl in *; try lia.

Lemma extend_spec ts now (p : PoolState T) :
  current_size p + Z.of_nat (length ts) <= usize_max →
  wp (extend ts now) p (λ _ p', idle_count p' = idle_count p + Z.of_nat (length ts) ∧
    current_size p' = current_size p + Z.of_nat (length ts)).
Proof.
  revert p. induction ts as [|t ts IH]; intros p Hp; simpl in *; wp_auto; [lia|].
  wp_apply add_idle_spec; [lia|]. intros _ p' [E1 E2]. wp_apply IH; [lia|]. intros _ p'' [E3 E4]. lia.
Qed.

Lemma hand_out_spec h t s x :
  recycle_count (status s) < usize_max →
  wp (hand_out h t s) x (λ _ x', ∃ st, x' = set_objects (<[h:=mkObject t st]> (objects x)) x).
Proof. intros H. unfold hand_out, mark_recycled. wp_auto. apply wp_add_int; [lia|]. wp_auto. by eexists. Qed.

(** [try_get] takes an idle object if there is one. *)
Lemma try_get_spec h x :
  pool_ok x → alive x = true → objects x !! h = None → Forall (λ s, recycle_count (status s) < usize_max) (idle (slots x)) →
  wp (try_get queue_strategy h) x (λ r x', moves x silent x' ∧ gets x' = gets x ∧
    match r with Some _ => idle_count (slots x') = idle_count (slots x) - 1 | None => idle_count (slots x) = 0 ∧ x' = x end).
Proof.
  intros [Hsz Hmax _] Ha Hh Hall. specialize (Hsz Ha). unfold try_get. wp_auto. wp_apply idle_pop_spec. intros r p [Hc Hr]. destruct r as [s|]; wp_auto.
  - destruct Hr as [Hi Hs]. rewrite Forall_forall in Hall. wp_apply hand_out_spec; [by apply Hall|]. intros _ x' [st ->]. wp_auto.
    split_and!; [|done|done]. sums.
  - destruct Hr as [Hi ->]. assert (set_slots (slots x) x = x) as -> by (by destruct x). split_and!; [|done|done|done]. sums.
Qed.

(** The steps of a [get] that is under way. *)
Lemma get_exec_ok l x :
  match l with GetPop _ | GetCreated _ _ _ _ | GetFailed _ | GetRecycled _ _ _ | GetUnfit _ _ _ | GetCancel _ _ => True | _ => False end →
  pool_ok x → enabled l x = true → wp (exec queue_strategy recycle_cancelled_strategy l) x (moves x).
Proof.
  intros Hl Hx He. pose proof (out_nonneg x). pose proof Hx as [Hsz Hmax _].
  assert (∃ g a, gets x !! g = Some a) as (g0 & a0 & Hg0).
  { destruct l as [|g|g|g|g|g|g| | | | | | | |]; try done; simpl in He; destruct (gets x !! g) eqn:E; try done; eauto. }
  pose proof (unbounded_gets_alive x g0 a0 Hx Hg0) as Ha. clear g0 a0 Hg0. specialize (Hsz Ha). pose proof (out_pos x Hx Ha) as Hpos. unfold exec. wp_auto.
  destruct l as [|g|g h t now|g|g h t|g t unwinds|g t| | | | | | | |]; try done; simpl in He; destruct (gets x !! g) as [[| |s]|] eqn:Hg; try done.
  - unfold get_pop. wp_auto. wp_apply idle_pop_spec. intros r p [Hc Hr]. wp_auto.
    destruct r as [s|]; [destruct Hr as [Hr _]|destruct Hr as [Hr ->]]; sums.
  - apply bool_decide_eq_true in He as [Hh Hlt]. unfold get_created. wp_auto.
    wp_apply add_active_spec; [lia|]. intros _ p [Hi Hc]. wp_auto. sums.
  - wp_auto. sums.
  - apply bool_decide_eq_true in He as [Hh Hlt]. unfold recycling. wp_auto. rewrite Hg. wp_auto.
    wp_apply hand_out_spec; [done|]. intros _ x' [st ->]. wp_auto. sums.
  - unfold detach_object. wp_auto. wp_apply detach_spec; [apply Hpos; eauto|]. intros _ p [Hi Hc]. wp_auto. destruct unwinds; sums.
  - wp_auto. sums.
  - unfold unready_drop, detach_object. wp_auto. destruct recycle_cancelled_strategy; wp_auto.
    + wp_apply detach_spec; [apply Hpos; eauto|]. intros _ p [Hi Hc]. wp_auto. sums.
    + wp_apply return_idle_spec. intros _ p [Hi Hc]. wp_auto. sums.
Qed.

(** The objects in use, with the pool or without it, and the end of the pool. *)
Lemma object_exec_ok l x :
  match l with ObjectWrite _ _ | ObjectDrop _ _ | ObjectDetach _ | PoolDrop => True | _ => False end →
  pool_ok x → enabled l x = true → wp (exec queue_strategy recycle_cancelled_strategy l) x (moves x).
Proof.
  intros Hl Hx He. pose proof (out_nonneg x). pose proof (out_pos x Hx) as Hpos. pose proof Hx as [Hsz Hmax Hd]. unfold exec. wp_auto.
  assert (∀ q, alive x = false → moves x silent (set_objects q x)) as Hdead.
  { intros q Ha. split_and!; [split; simpl; [congruence|done|done]|simpl; lia|done]. }
  destruct l as [| | | | | | | | | | |h t|h now|h|]; try done; simpl in He; [apply bool_decide_eq_true in He as [s Hs]; wp_auto; (eapply wp_expect; [done|]); wp_auto..|].
  - destruct (alive x) eqn:Ha; [specialize (Hsz eq_refl); sums|by apply Hdead].
  - destruct (alive x) eqn:Ha; wp_auto; [|by apply Hdead]. specialize (Hsz eq_refl). wp_apply return_idle_spec. intros _ p [Hi Hc]. wp_auto. sums.
  - destruct (alive x) eqn:Ha; wp_auto; [|by apply Hdead]. specialize (Hsz eq_refl). unfold detach_object. wp_auto.
    wp_apply detach_spec; [apply Hpos; eauto|]. intros _ p [Hi Hc]. wp_auto. sums.
  - apply andb_true_iff in He as [Ha _]. wp_auto. split_and!; [split; simpl; [done|unfold usize_max; lia|done]|simpl; lia|simpl; congruence].
Qed.

Lemma unbounded_exec_ok l x :
  pool_ok x → enabled l x = true → wp (exec queue_strategy recycle_cancelled_strategy l) x (moves x).
Proof.
  intros Hx He. pose proof (out_nonneg x). pose proof Hx as [Hsz Hmax _].
  destruct l as [g|g|g h t now|g|g h t|g t unwinds|g t|h|g h|ts now|f|h t|h now|h|]; try (by apply get_exec_ok); try (by apply object_exec_ok); simpl in He;
    unfold exec; wp_auto.
  - apply andb_true_iff in He as [Ha He%bool_decide_eq_true]. specialize (Hsz Ha). wp_auto. sums.
  - apply andb_true_iff in He as [[Ha Hh%bool_decide_eq_true]%andb_true_iff Hall%bool_decide_eq_true].
    wp_auto. wp_apply try_get_spec; [done..|]. intros r x' [Hm _]. by wp_auto.
  - apply andb_true_iff in He as [[Ha [Hh Hg]%bool_decide_eq_true]%andb_true_iff Hall%bool_decide_eq_true]. specialize (Hsz Ha).
    unfold get_or_create. wp_auto. wp_apply try_get_spec; [done..|]. intros r x' (Hm & Eg & Hr).
    destruct r; wp_auto; [done|]. destruct Hr as [_ ->]. clear Hm. sums.
  - apply andb_true_iff in He as [Ha He%bool_decide_eq_true]. specialize (Hsz Ha). wp_auto. wp_apply extend_spec; [done|]. intros _ p [Hi Hc]. wp_auto. sums.
  - specialize (Hsz He). unfold wp, pool_retain. set (F := λ (_ : unit) (t : T) st, _).
    assert (Z.of_nat (length (idle (slots x))) <= current_size (slots x)) as Hle by (unfold idle_count in *; lia).
    pose proof (retain_counts F tt (slots x)) as Hcnt. destruct (retain F (tt, slots x)) as [r [[] p]|e [[] p]] eqn:Er.
    + destruct (Hcnt tt p Hle) as [Hl Hd]; [left; by eexists|]. pose proof (retain_removed F tt (slots x) r tt p Hle Er) as Hrm. sums.
    + destruct (Hcnt tt p Hle) as [Hl Hd]; [right; by eexists|].
      pose proof (retain_panic F tt (slots x) e tt p Hle Er) as Hrm. sums.
Qed.
End invariant.

(** ** Properties *)
Section properties.
Context {T : Type} (queue_strategy : QueueStrategy) (recycle_cancelled_strategy : RecycleCancelledStrategy).
Implicit Types (x : Pool T) (l : Label T).

(** What a run added to the pool, less what it took out of it. *)
Definition balance (tr : list (Label T * Obs T)) : Z := foldr (λ e a, joined e.2 - left_pool e.2 + a) 0 tr.

(** What left the pool, and what the manager was told about. *)
Definition departures (tr : list (Label T * Obs T)) : Z := foldr (λ e a, left_pool e.2 + a) 0 tr.
Definition told (tr : list (Label T * Obs T)) : list T := concat ((λ e, on_detached e.2) <$> tr).

Lemma pool_balance_snoc tr e : balance (tr ++ [e]) = balance tr + (joined e.2 - left_pool e.2).
Proof. unfold balance. rewrite foldr_app. simpl. induction tr as [|e' tr IH]; simpl in *; lia. Qed.

Lemma departures_snoc tr e : departures (tr ++ [e]) = departures tr + left_pool e.2.
Proof. unfold departures. rewrite foldr_app. simpl. induction tr as [|e' tr IH]; simpl in *; lia. Qed.

Lemma unbounded_new_ok : pool_ok (new : Pool T).
Proof. split; simpl; [|unfold usize_max; lia|done]. intros _. unfold out, idle_count. simpl. rewrite !map_sum_empty. done. Qed.

Lemma unbounded_run_ok ls tr x :
  returns (run enabled (exec queue_strategy recycle_cancelled_strategy) ls) new tr x →
  pool_ok x ∧ current_size (slots x) = balance tr ∧ (alive x = true → departures tr = Z.of_nat (length (told tr))).
Proof.
  intros Hr. change tr with ([] ++ tr).
  eapply (run_trace_invariant enabled (exec queue_strategy recycle_cancelled_strategy)
    (λ tr x, pool_ok x ∧ current_size (slots x) = balance tr ∧ (alive x = true → departures tr = Z.of_nat (length (told tr)))));
    [|split_and!; [apply unbounded_new_ok|done|done]|exact Hr].
  intros tr' y l (Hy & Hb & Ht) He. eapply wp_mono; [by apply unbounded_exec_ok|]. intros ob y' (Hy' & Hs & Ha). split_and!; [done|rewrite pool_balance_snoc; simpl; lia|].
  intros [Hal Hl]%Ha. unfold told. rewrite departures_snoc, fmap_app, concat_app, length_app. simpl. rewrite app_nil_r. specialize (Ht Hal). unfold told in Ht. lia.
Qed.

(** The unbounded pool counts its objects exactly: after any run of gets, creations, recyclings,
    cancellations, returns, detachments, extensions and retentions, its size is what was added less
    what left it; as long as the pool is there, every object it counts is idle, in use or being
    checked, and the manager was told of every object that left; no operation panics, also not the drop
    of an object that outlives its pool. *)
Theorem unbounded_pool_exact ls tr x :
  returns (run enabled (exec queue_strategy recycle_cancelled_strategy) ls) new tr x →
  no_panic enabled (exec queue_strategy recycle_cancelled_strategy) x ∧ current_size (slots x) = balance tr ∧
  (alive x = true → current_size (slots x) = idle_count (slots x) + out x ∧ departures tr = Z.of_nat (length (told tr))).
Proof.
  intros (Hx & Hb & Ht)%unbounded_run_ok. split_and!; [|done|].
  - apply (no_panic_wp _ _ _ _ (λ l, unbounded_exec_ok queue_strategy recycle_cancelled_strategy l x Hx)).
  - intros Ha. split; [by apply po_size|by apply Ht].
Qed.
End properties.

Definition lend_and_return : list (Label nat) :=
  [Extend [7%nat; 8%nat] 3; GetStart 0; GetPop 0; GetRecycled 0 0 7%nat; ObjectWrite 0 9%nat; TryGet 1; GetStart 1;
   GetPop 1; GetCreated 1 2 5%nat 6; ObjectDetach 1; ObjectDrop 0 11; GetStart 2; GetPop 2; GetCancel 2 9%nat;
   Retain (λ t _, (t, Some false))].

Lemma unbounded_pool_exact_witness :
  ∃ tr x, returns (run enabled (exec Fifo ReturnToPool) lend_and_return) new tr x ∧ told tr = [8; 9]%nat ∧
    no_panic enabled (exec Fifo ReturnToPool) x ∧ current_size (slots x) = balance tr ∧
    (alive x = true → current_size (slots x) = idle_count (slots x) + out x ∧ departures tr = Z.of_nat (length (told tr))).
Proof.
  eexists _, _. split; [vm_compute; reflexivity|]. split; [reflexivity|].
  eapply (unbounded_pool_exact Fifo ReturnToPool lend_and_return). vm_compute. reflexivity.
Defined.

(** An object that outlives its pool. *)
Example outlives_pool :
  ∃ tr x, returns (run enabled (exec Fifo Detach) [Extend [7%nat] 3; TryGet 0; PoolDrop; ObjectDetach 0]) new tr x ∧
    told tr = [] ∧ current_size (slots x) = 0.
Proof. eexists _, _. split; [vm_compute; reflexivity|]. done. Qed.
