(* ===== verification/OnceCell.v ===== *)
(** * Value cells and once cells

    [asyncband/src/internal/value_cell.rs]: possibly uninitialised storage behind a flag.
    [asyncband/src/once/once_cell/mod.rs]: a value cell filled under the only permit of a semaphore,
    which is any permit pool.  The initialisers are the environment: they return a value, fail or are
    cancelled.  Reading uninitialised storage is a panic of the model. *)
From S2P Require Import Prelude PermitPool.

Module ValueCell.
Record ValueCell (T : Type) : Type := mkCell {
  initialized : bool;
  slot : option T;
}.
Arguments mkCell {T}.
Arguments initialized {T}.
Arguments slot {T}.

Section cell.
Context {T : Type}.
Implicit Types (c : ValueCell T) (v : T).

Definition new : ValueCell T := mkCell false None.
Definition from_value v : ValueCell T := mkCell true (Some v).
Definition is_initialized c : bool := initialized c.

Definition get_unchecked : M (ValueCell T) T :=
  c ← get;
  assert_true (initialized c) "debug_assert!(self.is_initialized())";;
  expect (slot c) "read of an uninitialised value".

(** Also the value [get_mut] gives access to; [get_mut_with] is a write through it. *)
Definition get_value : M (ValueCell T) (option T) :=
  c ← get;
  if initialized c then v ← get_unchecked; mret (Some v) else mret None.

Definition get_mut_with (f : T → T) : M (ValueCell T) (option T) :=
  r ← get_value;
  match r with
  | Some v => modify (λ c, mkCell (initialized c) (Some (f v)));; mret (Some (f v))
  | None => mret None
  end.

Definition take : M (ValueCell T) (option T) :=
  c ← get;
  if initialized c then
    put (mkCell false (slot c));;
    v ← expect (slot c) "read of an uninitialised value";
    put (mkCell false None);;
    mret (Some v)
  else mret None.

Definition into_inner : M (ValueCell T) (option T) := take.

(** [set] up to and after the store that publishes the value. *)
Definition set_write v : M (ValueCell T) unit :=
  c ← get;
  assert_true (negb (initialized c)) "debug_assert!(!self.is_initialized())";;
  put (mkCell (initialized c) (Some v)).

Definition set_publish : M (ValueCell T) T :=
  modify (λ c, mkCell true (slot c));;
  get_unchecked.

Definition set_mut v : M (ValueCell T) T :=
  c ← get;
  assert_true (negb (initialized c)) "debug_assert!(!self.is_initialized_mut())";;
  put (mkCell true (Some v));;
  mret v.

(** [drop]: the value dropped in place. *)
Definition drop_cell : M (ValueCell T) (option T) :=
  c ← get;
  if initialized c then v ← expect (slot c) "drop of an uninitialised value"; mret (Some v) else mret None.

(** A published value is there. *)
Definition cell_ok c : Prop := initialized c = true → is_Some (slot c).

Definition content c : option T := if initialized c then slot c else None.

Lemma get_value_spec c : cell_ok c → wp get_value c (λ r c', r = content c ∧ c' = c).
Proof.
  intros Hc. destruct c as [[] s]; [|done]. destruct (Hc eq_refl) as [v Hv]. simpl in Hv. by rewrite Hv.
Qed.

Lemma set_write_returns c v c' : initialized c = false → returns (set_write v) c tt c' → c' = mkCell false (Some v).
Proof. destruct c as [[] s]; [done|]. intros _ H. by injection H as <-. Qed.
Lemma set_publish_returns c w v c' : slot c = Some w → returns set_publish c v c' → v = w ∧ c' = mkCell true (Some w).
Proof. destruct c as [b s]. simpl. intros -> H. by injection H as <- <-. Qed.
Lemma set_mut_returns c v w c' : initialized c = false → returns (set_mut v) c w c' → c' = mkCell true (Some v).
Proof. destruct c as [[] s]; [done|]. intros _ H. by injection H as _ <-. Qed.
End cell.
End ValueCell.
Import ValueCell.

(** ** The once cell *)

(** A call of [get_or_try_init], with the value to insert if it comes from [try_insert] or [set]:
    waiting for the permit, holding it before the second check, running its closure, between the
    write of the value and its publication, and about to drop the permit. *)
Inductive Call (T : Type) : Type :=
| Acquiring (k : option T)
| Checking (k : option T)
| Running (k : option T)
| Publishing (k : option T)
| Releasing.
Arguments Acquiring {T} k.
Arguments Checking {T} k.
Arguments Running {T} k.
Arguments Publishing {T} k.
Arguments Releasing {T}.

(** What calls returned: a reference to the value; that it was inserted; that it was there already and
    the value to insert is given back. *)
Inductive Answer (T : Type) : Type :=
| Got (v : T)
| Inserted (v : T)
| Rejected (v w : T).
Arguments Got {T} v.
Arguments Inserted {T} v.
Arguments Rejected {T} v w.

(** The answers since the cell was last accessed exclusively. *)
Record OnceCell (P T : Type) : Type := mkOnceCell {
  value : ValueCell T;
  semaphore : P;
  calls : gmap nat (Call T);
  answers : list (Answer T);
}.
Arguments mkOnceCell {P T}.
Arguments value {P T}.
Arguments semaphore {P T}.
Arguments calls {P T}.
Arguments answers {P T}.

Section once_cell.
Context {P T : Type} `{!PermitPool P}.
Implicit Types (x : OnceCell P T) (i : nat) (v : T) (k : option T).

Definition once_cell_new (p : P) : OnceCell P T := mkOnceCell ValueCell.new p ∅ [].
Definition once_cell_from_value (p : P) v : OnceCell P T := mkOnceCell (from_value v) p ∅ [].

Definition set_calls (g : gmap nat (Call T)) x : OnceCell P T := mkOnceCell (value x) (semaphore x) g (answers x).
Definition set_semaphore (p : P) x : OnceCell P T := mkOnceCell (value x) p (calls x) (answers x).
Definition set_value (c : ValueCell T) x : OnceCell P T := mkOnceCell c (semaphore x) (calls x) (answers x).
Definition answer (a : Answer T) x : OnceCell P T := mkOnceCell (value x) (semaphore x) (calls x) (answers x ++ [a]).

(** The answer of a call that found the value. *)
Definition found k v : Answer T := match k with None => Got v | Some w => Rejected v w end.
(** The answer of a call whose closure made it. *)
Definition made k v : Answer T := match k with None => Got v | Some _ => Inserted v end.

(** [get_or_try_init] up to the permit, *)
Definition call_start i k x x' : Prop :=
  calls x !! i = None ∧ ∃ r c, returns get_value (value x) r c ∧
    x' = match r with
         | Some v => answer (found k v) x
         | None => set_calls (<[i:=Acquiring k]> (calls x)) x
         end.
Definition acquire i x x' : Prop :=
  ∃ k p, calls x !! i = Some (Acquiring k) ∧ pp_take 1 (semaphore x) p ∧
    x' = set_semaphore p (set_calls (<[i:=Checking k]> (calls x)) x).
(** the second check, *)
Definition recheck i x x' : Prop :=
  ∃ k r c, calls x !! i = Some (Checking k) ∧ returns get_value (value x) r c ∧
    x' = match r with
         | Some v => answer (found k v) (set_calls (<[i:=Releasing]> (calls x)) x)
         | None => set_calls (<[i:=Running k]> (calls x)) x
         end.
(** the closure; the one of [try_insert] returns its value, *)
Definition init_done i v x x' : Prop :=
  ∃ k c, calls x !! i = Some (Running k) ∧ default v k = v ∧ returns (set_write v) (value x) tt c ∧
    x' = set_value c (set_calls (<[i:=Publishing k]> (calls x)) x).
Definition publish i x x' : Prop :=
  ∃ k v c, calls x !! i = Some (Publishing k) ∧ returns set_publish (value x) v c ∧
    x' = answer (made k v) (set_value c (set_calls (<[i:=Releasing]> (calls x)) x)).
(** its failure, a cancellation, *)
Definition init_failed i x x' : Prop :=
  calls x !! i = Some (Running None) ∧ x' = set_calls (<[i:=Releasing]> (calls x)) x.
Definition cancel i x x' : Prop :=
  ∃ k, calls x !! i = Some (Acquiring k) ∧ x' = set_calls (delete i (calls x)) x.
(** and the end of the permit. *)
Definition release i x x' : Prop :=
  calls x !! i = Some Releasing ∧ ∃ p, pp_give 1 (semaphore x) p ∧
    x' = set_semaphore p (set_calls (delete i (calls x)) x).

(** [get]. *)
Definition get_step x x' : Prop :=
  ∃ v c, returns get_value (value x) (Some v) c ∧ x' = answer (Got v) x.

(** Exclusive access, while no call is under way: [get_mut] with a write, [take], and
    [get_mut_or_try_init], whose closure returned [v]. *)
Definition exclusive (c : ValueCell T) x : OnceCell P T := mkOnceCell c (semaphore x) (calls x) [].
Definition get_mut_step f x x' : Prop :=
  calls x = ∅ ∧ ∃ r c, returns (get_mut_with f) (value x) r c ∧ x' = exclusive c x.
Definition take_step x x' : Prop :=
  calls x = ∅ ∧ ∃ r c, returns take (value x) r c ∧ x' = exclusive c x.
Definition get_mut_or_try_init v x x' : Prop :=
  calls x = ∅ ∧ is_initialized (value x) = false ∧ ∃ c, returns (set_mut v) (value x) v c ∧ x' = exclusive c x.

Inductive step : OnceCell P T → OnceCell P T → Prop :=
| step_call i k x x' : call_start i k x x' → step x x'
| step_acquire i x x' : acquire i x x' → step x x'
| step_recheck i x x' : recheck i x x' → step x x'
| step_init i v x x' : init_done i v x x' → step x x'
| step_publish i x x' : publish i x x' → step x x'
| step_failed i x x' : init_failed i x x' → step x x'
| step_cancel i x x' : cancel i x x' → step x x'
| step_release i x x' : release i x x' → step x x'
| step_get x x' : get_step x x' → step x x'
| step_get_mut f x x' : get_mut_step f x x' → step x x'
| step_take x x' : take_step x x' → step x x'
| step_init_mut v x x' : get_mut_or_try_init v x x' → step x x'
| step_pool x p : pp_internal (semaphore x) p → step x (set_semaphore p x).

(** ** Invariant *)
Definition permit (c : Call T) : Z := match c with Acquiring _ => 0 | _ => 1 end.
Definition answered (a : Answer T) : T := match a with Got v | Inserted v | Rejected v _ => v end.
Definition is_inserted (a : Answer T) : bool := match a with Inserted _ => true | _ => false end.
Definition insertions x : nat := length (filter (λ a, is_inserted a = true) (answers x)).

(** What the value owes to a call: an initialiser runs, or is about to publish, on an empty cell. *)
Definition call_ok (c : ValueCell T) (a : Call T) : Prop :=
  match a with
  | Running _ => initialized c = false
  | Publishing k => initialized c = false ∧ ∃ v, slot c = Some v ∧ default v k = v
  | _ => True
  end.

Record once_cell_ok x : Prop := {
  ce_cell : cell_ok (value x);
  ce_pool : pp_ok (semaphore x);
  ce_permits : pp_free (semaphore x) + map_sum permit (calls x) <= 1;
  ce_calls : ∀ i a, calls x !! i = Some a → call_ok (value x) a;
  ce_answers : ∀ a, a ∈ answers x → content (value x) = Some (answered a);
  ce_inserted : (insertions x ≤ 1)%nat;
}.

Lemma once_cell_holder x i j a b :
  once_cell_ok x → calls x !! i = Some a → calls x !! j = Some b → permit a = 1 → permit b = 1 → i = j.
Proof.
  intros Hx Hi Hj Ha Hb. destruct (decide (i = j)) as [|Hne]; [done|]. exfalso.
  pose proof (pp_nonneg _ (ce_pool _ Hx)). pose proof (ce_permits _ Hx).
  unshelve epose proof (map_sum_two permit (calls x) i j a b _ Hi Hj Hne); [|lia]. intros k [] _; simpl; lia.
Qed.

(** A call moves on without touching the value. *)
Lemma once_cell_call_ok x p g :
  once_cell_ok x → pp_ok p → pp_free p + map_sum permit g <= 1 → (∀ i a, g !! i = Some a → call_ok (value x) a) →
  once_cell_ok (set_semaphore p (set_calls g x)).
Proof. intros [Hc _ _ _ Ha Hi] Hp Hf Hg. by split. Qed.

Lemma once_cell_calls_ok x g :
  once_cell_ok x → map_sum permit g <= map_sum permit (calls x) → (∀ i a, g !! i = Some a → call_ok (value x) a) →
  once_cell_ok (set_calls g x).
Proof. intros [Hc Hp Hf _ Ha Hi] Hm Hg. split; try done. simpl. lia. Qed.

Lemma once_cell_answer_ok x a :
  once_cell_ok x → content (value x) = Some (answered a) → is_inserted a = false ∨ answers x = [] → once_cell_ok (answer a x).
Proof.
  intros [Hc Hp Hf Hg Ha Hi] Hv Hn. split; try done.
  - simpl. intros b [Hb| ->%list_elem_of_singleton]%elem_of_app; [by apply Ha|done].
  - unfold insertions in *. simpl. rewrite filter_app, length_app. destruct Hn as [Hn| ->].
    + rewrite (filter_cons_False _ a) by (by rewrite Hn). simpl. lia.
    + rewrite filter_cons. case_decide; simpl; lia.
Qed.

Lemma get_value_returns (c c' : ValueCell T) r : cell_ok c → returns get_value c r c' → r = content c ∧ c' = c.
Proof. intros Hc. apply (wp_returns_elim _ _ _ _ _ (get_value_spec c Hc)). Qed.

(** The steps before the closure and after the answer. *)
Lemma once_cell_move_ok x x' i :
  once_cell_ok x →
  (∃ k, call_start i k x x') ∨ acquire i x x' ∨ recheck i x x' ∨ init_failed i x x' ∨ cancel i x x' ∨ release i x x' →
  once_cell_ok x'.
Proof.
  intros Hx Hs. pose proof Hx as [Hc Hp Hf Hg Ha Hi].
  assert (∀ a b g, calls x !! i = Some a → g = <[i:=b]> (calls x) → call_ok (value x) b →
    ∀ j c, g !! j = Some c → call_ok (value x) c) as Hput.
  { intros a b g Hai -> Hb j c [[_ <-]|[_ Hj]]%lookup_insert_Some; [done|by eapply Hg]. }
  destruct Hs as [(k & Hn & r & c & Hr & ->)|[(k & p & Hk & Ht & ->)|[(k & r & c & Hk & Hr & ->)|[(Hk & ->)|[(k & Hk & ->)|(Hk & p & Ht & ->)]]]]].
  - destruct (get_value_returns _ _ _ Hc Hr) as [-> ->]. destruct (content (value x)) as [v|] eqn:Ev.
    + apply once_cell_answer_ok; [done| |]; destruct k; simpl; auto.
    + apply once_cell_calls_ok; [done|by rewrite map_sum_insert|].
      intros j a [[_ <-]|[_ Hj]]%lookup_insert_Some; [done|by eapply Hg].
  - destruct (pp_take_spec _ _ _ Hp Ht) as [Hp' Ef]. apply once_cell_call_ok; [done|done| |by eapply Hput].
    rewrite (map_sum_update _ _ _ _ _ Hk). simpl. lia.
  - destruct (get_value_returns _ _ _ Hc Hr) as [-> ->].
    assert (∀ b, permit b = 1 → call_ok (value x) b → once_cell_ok (set_calls (<[i:=b]> (calls x)) x)) as Hmv.
    { intros b Hb Hok. apply once_cell_calls_ok; [done| |by eapply Hput].
      rewrite (map_sum_update _ _ _ _ _ Hk). simpl. lia. }
    destruct (content (value x)) as [v|] eqn:Ev.
    + apply once_cell_answer_ok; [by apply Hmv|..]; destruct k; simpl; auto.
    + apply Hmv; [done|]. simpl. unfold content in Ev. destruct (initialized (value x)) eqn:E; [|done].
      destruct (Hc E) as [v Hv]. congruence.
  - apply once_cell_calls_ok; [done| |by eapply Hput]. rewrite (map_sum_update _ _ _ _ _ Hk). simpl. lia.
  - apply once_cell_calls_ok; [done| |intros j a [_ Hj]%lookup_delete_Some; by eapply Hg].
    rewrite (map_sum_delete _ _ _ _ Hk). simpl. lia.
  - destruct (pp_give_spec _ _ _ Hp Ht) as [Hp' Ef].
    apply once_cell_call_ok; [done|done| |intros j a [_ Hj]%lookup_delete_Some; by eapply Hg].
    rewrite (map_sum_delete _ _ _ _ Hk). simpl. lia.
Qed.

Lemma once_cell_empty x : once_cell_ok x → initialized (value x) = false → answers x = [].
Proof.
  intros Hx E. destruct (answers x) as [|a l] eqn:El; [done|]. pose proof (ce_answers _ Hx a) as Ha.
  rewrite El in Ha. unfold content in Ha. rewrite E in Ha. by discriminate Ha; set_solver.
Qed.

(** The two steps that fill the cell. *)
Lemma once_cell_fill_ok x x' i : once_cell_ok x → (∃ v, init_done i v x x') ∨ publish i x x' → once_cell_ok x'.
Proof.
  intros Hx Hs. pose proof Hx as [Hc Hp Hf Hg Ha Hi].
  assert (∀ a b c, calls x !! i = Some a → permit a = 1 → call_ok c b →
    ∀ j d, <[i:=b]> (calls x) !! j = Some d → call_ok c d) as Hput.
  { intros a b c Hai Hpa Hb j d [[_ <-]|[Hne Hj]]%lookup_insert_Some; [done|]. destruct d; try done;
      by destruct Hne; apply (once_cell_holder x i j a _ Hx Hai Hj). }
  destruct Hs as [(v & k & c & Hk & Hd & Hr & ->)|(k & v & c & Hk & Hr & ->)].
  - pose proof (Hg i _ Hk) as E. simpl in E. apply set_write_returns in Hr as ->; [|done].
    split; simpl; [done|done| | | |done].
    + rewrite (map_sum_update _ _ _ _ _ Hk). simpl. lia.
    + eapply Hput; [done|done|]. split; [done|]. by exists v.
    + rewrite (once_cell_empty x Hx E). set_solver.
  - pose proof (Hg i _ Hk) as (E & w & Hw & Hd). destruct (set_publish_returns _ _ _ _ Hw Hr) as [-> ->].
    apply once_cell_answer_ok; [|simpl; by destruct k|right; simpl; by apply once_cell_empty].
    split; simpl; [by eexists|done| | | |done].
    + rewrite (map_sum_update _ _ _ _ _ Hk). simpl. lia.
    + by eapply Hput.
    + rewrite (once_cell_empty x Hx E). set_solver.
Qed.

(** Exclusive access starts a new account of answers. *)
Lemma once_cell_exclusive_ok x c : once_cell_ok x → calls x = ∅ → cell_ok c → once_cell_ok (exclusive c x).
Proof.
  intros [Hc Hp Hf Hg Ha Hi] He Hc'. split; simpl; [done|done|done| | |unfold insertions; simpl; lia].
  - rewrite He. by intros i a Hi'%lookup_empty_Some.
  - set_solver.
Qed.

Lemma once_cell_step_ok x x' : once_cell_ok x → step x x' → once_cell_ok x'.
Proof.
  intros Hx Hs. pose proof (ce_cell _ Hx) as Hc.
  destruct Hs as [i k x x' H|i x x' H|i x x' H|i v x x' H|i x x' H|i x x' H|i x x' H|i x x' H|x x' H|f x x' H|x x' H|v x x' H|x p H].
  1, 2, 3, 6, 7, 8: eapply once_cell_move_ok; by eauto 10.
  1, 2: eapply once_cell_fill_ok; by eauto.
  - destruct H as (v & c & Hr & ->). destruct (get_value_returns _ _ _ Hc Hr) as [Ev _]. apply once_cell_answer_ok; auto.
  - destruct H as (He & r & c & Hr & ->). apply once_cell_exclusive_ok; [done|done|]. destruct (value x) as [[] s]; simpl in *.
    + destruct (Hc eq_refl) as [v Hv]. simpl in Hv. rewrite Hv in Hr. injection Hr as _ <-. by intros _; eexists.
    + injection Hr as _ <-. done.
  - destruct H as (He & r & c & Hr & ->). apply once_cell_exclusive_ok; [done|done|]. destruct (value x) as [[] s]; simpl in *.
    + destruct (Hc eq_refl) as [v Hv]. simpl in Hv. rewrite Hv in Hr. by injection Hr as _ <-.
    + injection Hr as _ <-. done.
  - destruct H as (He & E & c & Hr & ->). apply once_cell_exclusive_ok; [done|done|]. apply set_mut_returns in Hr as ->; [|done].
    by intros _; eexists.
  - destruct (pp_internal_spec _ _ (ce_pool _ Hx) H) as [Hp' Ef]. pose proof (ce_permits _ Hx).
    apply (once_cell_call_ok x p (calls x)); [done|done|lia|]. by apply (ce_calls _ Hx).
Qed.

Lemma once_cell_new_ok p : pp_ok p → pp_free p <= 1 → once_cell_ok (once_cell_new p).
Proof.
  intros Hp Hf. split; simpl; [done|done|rewrite map_sum_empty; lia| |set_solver|unfold insertions; simpl; lia].
  by intros i a Hi%lookup_empty_Some.
Qed.

Lemma once_cell_reachable_ok p x : pp_ok p → pp_free p <= 1 → rtc step (once_cell_new p) x → once_cell_ok x.
Proof.
  intros Hp Hf. apply (rtc_ind_r once_cell_ok); [by apply once_cell_new_ok|]. intros y z _ Hyz Hy. by eapply once_cell_step_ok.
Qed.

(** C23: a once cell is filled at most once: in every reachable state all the answers given since the
    last exclusive access show the one value of the cell, at most one insertion succeeded, at most
    one initialiser runs and only on an empty cell, and neither a read nor a publication touches
    uninitialised storage or fails a debug assertion; failed and cancelled initialisers included. *)
Theorem once_cell_agrees p x i j :
  pp_ok p → pp_free p <= 1 → rtc step (once_cell_new p) x →
  (∀ a, a ∈ answers x → content (value x) = Some (answered a)) ∧ (insertions x ≤ 1)%nat ∧
  (∀ k l, calls x !! i = Some (Running k) → calls x !! j = Some (Running l) → i = j ∧ content (value x) = None) ∧
  wp get_value (value x) (λ r c, r = content (value x) ∧ c = value x) ∧
  (∀ k v, calls x !! i = Some (Running k) → wp (set_write v) (value x) (λ _ _, True)) ∧
  (∀ k, calls x !! i = Some (Publishing k) → wp set_publish (value x) (λ v c, content c = Some v)).
Proof.
  intros Hp Hf Hr. pose proof (once_cell_reachable_ok p x Hp Hf Hr) as Hx. pose proof Hx as [Hc _ _ Hg Ha Hi]. split_and!; try done.
  - intros k l Hk Hl. split; [by eapply once_cell_holder|]. unfold content. by rewrite (Hg i _ Hk).
  - by apply get_value_spec.
  - intros k v Hk. apply Hg in Hk. destruct (value x) as [[] s]; [done|]. done.
  - intros k Hk. apply Hg in Hk as (_ & v & Hv & _). destruct (value x) as [b s]. simpl in Hv. by rewrite Hv.
Qed.
End once_cell.

(** A value inserted by one call, and another insertion rejected. *)
Definition inserted_once : OnceCell Z nat :=
  mkOnceCell (mkCell true (Some 7%nat)) 0 {[0%nat := Releasing]} [Inserted 7%nat; Rejected 7%nat 8%nat].

Lemma inserted_once_reachable : rtc step (once_cell_new 1) inserted_once.
Proof.
  eapply rtc_l; [apply (step_call 0 (Some 7%nat)); split; [done|]; eexists _, _; split; reflexivity|].
  eapply rtc_l; [apply (step_acquire 0); exists (Some 7%nat), 0; split; [apply lookup_insert_eq|]; split; [by split|reflexivity]|].
  eapply rtc_l; [apply (step_recheck 0); exists (Some 7%nat); eexists _, _; split; [apply lookup_insert_eq|]; split; reflexivity|].
  eapply rtc_l; [apply (step_init 0 7%nat); exists (Some 7%nat); eexists; split; [apply lookup_insert_eq|]; split; [done|]; split; reflexivity|].
  eapply rtc_l; [apply (step_publish 0); exists (Some 7%nat), 7%nat; eexists; split; [apply lookup_insert_eq|]; split; reflexivity|].
  eapply rtc_l; [apply (step_call 1 (Some 8%nat)); split; [done|]; eexists _, _; split; reflexivity|].
  apply rtc_refl.
Qed.

Lemma once_cell_agrees_witness :
  (∀ a, a ∈ answers inserted_once → content (value inserted_once) = Some (answered a)) ∧ (insertions inserted_once ≤ 1)%nat.
Proof.
  split; eapply (once_cell_agrees 1 inserted_once 0 0); try done; apply inserted_once_reachable.
Defined.
