(* ===== verification/LazyCell.v ===== *)
(** * The lazy cell

    [asyncband/src/once/lazy_cell/mod.rs]: a value cell filled by the attempt of an initialiser that
    runs at most once.  The attempt is stored in the cell, so that a cancelled call leaves it to the
    next one; a panic poisons the cell.  The guards that poison it ask whether their thread is
    panicking, so that an attempt which is driven while the thread already unwinds from another panic
    poisons the cell even if it goes well, and the cell may then get a value all the same.  The mutex of
    the attempt is any permit pool; the initialiser and its future are the environment. *)
From S2P Require Import Prelude PermitPool OnceCell.
Import OnceCell.ValueCell.

(** [Initializer] tells whether the closure is still there. *)
Inductive State : Type :=
| Initializer (present : bool)
| Attempt
| Complete.

(** A poll of the attempt by its environment: pending, ready with a value and whether the drop of the
    future returns, or a panic. *)
Inductive Polled (T : Type) : Type :=
| PolledPending
| PolledReady (v : T) (dropped : bool)
| PolledPanic.
Arguments PolledPending {T}.
Arguments PolledReady {T} v dropped.
Arguments PolledPanic {T}.

Inductive Driven (T : Type) : Type :=
| StillPending
| Finished (v : T)
| Unwinds.
Arguments StillPending {T}.
Arguments Finished {T} v.
Arguments Unwinds {T}.

Record Lazy (T : Type) : Type := mkLazy {
  value : ValueCell T;
  state : State;
  poisoned : bool;
}.
Arguments mkLazy {T}.
Arguments value {T}.
Arguments state {T}.
Arguments poisoned {T}.

Section lazy.
Context {T : Type}.
Implicit Types (z : Lazy T) (v : T).

Definition lazy_new : Lazy T := mkLazy ValueCell.new (Initializer true) false.
Definition lazy_from_future : Lazy T := mkLazy ValueCell.new Attempt false.
Definition lazy_from_value v : Lazy T := mkLazy (from_value v) Complete false.

Definition set_state (s : State) z : Lazy T := mkLazy (value z) s (poisoned z).
Definition set_value (c : ValueCell T) z : Lazy T := mkLazy c (state z) (poisoned z).
(** [PoisonOnPanic::drop]; [panicking] is the answer of [thread::panicking]. *)
Definition poison (panicking : bool) z : Lazy T := mkLazy (value z) (state z) (poisoned z || panicking).

(** The start of [drive_pinned_attempt]; [unwinding] tells whether the thread is panicking already,
    [starts] whether the initialiser returns its future. *)
Definition begin_attempt (unwinding starts : bool) : M (Lazy T) bool :=
  z ← get;
  match state z with
  | Initializer true =>
      put (set_state (Initializer false) z);;
      modify (poison (unwinding || negb starts));;
      if starts then modify (set_state Attempt);; mret true else mret false
  | Initializer false => panic "LazyCell initializer missing while uninitialized"
  | Attempt => mret true
  | Complete => panic "LazyCell state complete while value is uninitialized"
  end.

(** A poll of the attempt and, once it is ready, the end of [drive_pinned_attempt]. *)
Definition poll_attempt (unwinding : bool) (r : Polled T) : M (Lazy T) (Driven T) :=
  z ← get;
  match state z with
  | Attempt =>
      modify (poison (unwinding || match r with PolledPanic => true | _ => false end));;
      match r with
      | PolledPending => mret StillPending
      | PolledPanic => mret Unwinds
      | PolledReady v dropped =>
          modify (set_state Complete);;
          modify (poison (unwinding || negb dropped));;
          if (dropped : bool) then mret (Finished v) else mret Unwinds
      end
  | Initializer _ => panic "LazyCell attempt missing while initializing"
  | Complete => panic "LazyCell state complete while value is uninitialized"
  end.
End lazy.

(** ** The cell and its calls *)

(** The points of [force_pin] and, with exclusive access ([m]), of [force_pin_mut]: between the first
    checks, waiting for the mutex, holding it, driving the attempt, storing the value, publishing it,
    about to give the mutex back. *)
Inductive Call (T : Type) : Type :=
| Probed
| Locking
| Locked
| Beginning (m : bool)
| Polling (m : bool)
| Storing (m : bool) (v : T)
| Publishing (m : bool)
| Unlocking.
Arguments Probed {T}.
Arguments Locking {T}.
Arguments Locked {T}.
Arguments Beginning {T} m.
Arguments Polling {T} m.
Arguments Storing {T} m v.
Arguments Publishing {T} m.
Arguments Unlocking {T}.

(** [answers] are the references given since the last exclusive access, [starts] counts the calls of
    the initialiser, [nested] tells whether the attempt was driven on a thread that was panicking
    already. *)
Record LazyCell (P T : Type) : Type := mkSys {
  cell : Lazy T;
  mutex : P;
  calls : gmap nat (Call T);
  answers : list T;
  starts : Z;
  nested : bool;
}.
Arguments mkSys {P T}.
Arguments cell {P T}.
Arguments mutex {P T}.
Arguments calls {P T}.
Arguments answers {P T}.
Arguments starts {P T}.
Arguments nested {P T}.

Section system.
Context {P T : Type} `{!PermitPool P}.
Implicit Types (x : LazyCell P T) (i : nat) (v : T) (m : bool) (z : Lazy T).

Definition new (p : P) : LazyCell P T := mkSys lazy_new p ∅ [] 0 false.

Definition set_calls (g : gmap nat (Call T)) x : LazyCell P T := mkSys (cell x) (mutex x) g (answers x) (starts x) (nested x).
Definition set_cell z x : LazyCell P T := mkSys z (mutex x) (calls x) (answers x) (starts x) (nested x).
Definition set_mutex (p : P) x : LazyCell P T := mkSys (cell x) p (calls x) (answers x) (starts x) (nested x).
Definition answer v x : LazyCell P T := mkSys (cell x) (mutex x) (calls x) (answers x ++ [v]) (starts x) (nested x).

(** A call under exclusive access ends without a mutex to give back. *)
Definition leave m i x : LazyCell P T :=
  set_calls (if m then delete i (calls x) else <[i:=Unlocking]> (calls x)) x.

Definition is_exclusive (a : Call T) : bool :=
  match a with Beginning m | Polling m | Storing m _ | Publishing m => m | _ => false end.
Definition shared x : Prop := ∀ i a, calls x !! i = Some a → is_exclusive a = false.

(** [force_pin]: the first look at the value, *)
Definition force_start i x x' : Prop :=
  calls x !! i = None ∧ shared x ∧ ∃ r c, returns get_value (value (cell x)) r c ∧
    x' = match r with Some v => answer v x | None => set_calls (<[i:=Probed]> (calls x)) x end.
(** [assert_unpoisoned], *)
Definition force_probe i x x' : Prop :=
  calls x !! i = Some Probed ∧
  x' = if poisoned (cell x) then set_calls (delete i (calls x)) x else set_calls (<[i:=Locking]> (calls x)) x.
(** the mutex and the second checks, *)
Definition force_lock i x x' : Prop :=
  calls x !! i = Some Locking ∧ ∃ p, pp_take 1 (mutex x) p ∧ x' = set_mutex p (set_calls (<[i:=Locked]> (calls x)) x).
Definition force_check i x x' : Prop :=
  calls x !! i = Some Locked ∧ ∃ r c, returns get_value (value (cell x)) r c ∧
    x' = match r with
         | Some v => answer v (leave false i x)
         | None => if poisoned (cell x) then leave false i x else set_calls (<[i:=Beginning false]> (calls x)) x
         end.
(** the initialiser, if it has not run, *)
Definition force_begin i (u b : bool) x x' : Prop :=
  ∃ m r z, calls x !! i = Some (Beginning m) ∧ returns (begin_attempt u b) (cell x) r z ∧
    x' = let y := mkSys z (mutex x) (calls x) (answers x)
                    (starts x + match state (cell x) with Initializer true => 1 | _ => 0 end) (nested x || u) in
         if r then set_calls (<[i:=Polling m]> (calls x)) y else leave m i y.
(** the polls of the attempt, *)
Definition force_poll i (u : bool) (r : Polled T) x x' : Prop :=
  ∃ m d z, calls x !! i = Some (Polling m) ∧ returns (poll_attempt u r) (cell x) d z ∧
    x' = let y := mkSys z (mutex x) (calls x) (answers x) (starts x) (nested x || u) in
         match d with
         | StillPending => y
         | Finished v => set_calls (<[i:=Storing m v]> (calls x)) y
         | Unwinds => leave m i y
         end.
(** the value stored and published, *)
Definition force_store i x x' : Prop :=
  ∃ m v c, calls x !! i = Some (Storing m v) ∧ returns (set_write v) (value (cell x)) tt c ∧
    x' = set_calls (<[i:=Publishing m]> (calls x)) (set_cell (set_value c (cell x)) x).
Definition force_publish i x x' : Prop :=
  ∃ m v c, calls x !! i = Some (Publishing m) ∧ returns set_publish (value (cell x)) v c ∧
    x' = answer v (leave m i (set_cell (set_value c (cell x)) x)).
Definition force_unlock i x x' : Prop :=
  calls x !! i = Some Unlocking ∧ ∃ p, pp_give 1 (mutex x) p ∧ x' = set_mutex p (set_calls (delete i (calls x)) x).
(** and a cancellation, which leaves the attempt in the cell. *)
Definition force_cancel i x x' : Prop :=
  (calls x !! i = Some Locking ∧ x' = set_calls (delete i (calls x)) x) ∨
  (∃ m, calls x !! i = Some (Polling m) ∧ x' = leave m i x).

(** [force_pin_mut], while no other call is under way, and a write through [get_mut]. *)
Definition exclusive x : LazyCell P T := mkSys (cell x) (mutex x) (calls x) [] (starts x) (nested x).
Definition force_mut_start i x x' : Prop :=
  calls x = ∅ ∧ x' = if is_initialized (value (cell x)) then exclusive x
                     else if poisoned (cell x) then exclusive x
                     else set_calls (<[i:=Beginning true]> (calls x)) (exclusive x).
Definition get_mut_step f x x' : Prop :=
  calls x = ∅ ∧ ∃ r c, returns (get_mut_with f) (value (cell x)) r c ∧ x' = exclusive (set_cell (set_value c (cell x)) x).

Inductive step : LazyCell P T → LazyCell P T → Prop :=
| step_start i x x' : force_start i x x' → step x x'
| step_probe i x x' : force_probe i x x' → step x x'
| step_lock i x x' : force_lock i x x' → step x x'
| step_check i x x' : force_check i x x' → step x x'
| step_begin i u b x x' : force_begin i u b x x' → step x x'
| step_poll i u r x x' : force_poll i u r x x' → step x x'
| step_store i x x' : force_store i x x' → step x x'
| step_publish i x x' : force_publish i x x' → step x x'
| step_unlock i x x' : force_unlock i x x' → step x x'
| step_cancel i x x' : force_cancel i x x' → step x x'
| step_mut i x x' : force_mut_start i x x' → step x x'
| step_get_mut f x x' : get_mut_step f x x' → step x x'
| step_pool x p : pp_internal (mutex x) p → step x (set_mutex p x).

(** ** Invariant *)

Definition permit (a : Call T) : Z :=
  match a with
  | Probed | Locking => 0
  | Beginning m | Polling m | Storing m _ | Publishing m => if m then 0 else 1
  | Locked | Unlocking => 1
  end.

(** The calls that own the attempt: through the mutex or through exclusive access. *)
Definition engaged (a : Call T) : Prop := permit a = 1 ∨ is_exclusive a = true.
Definition filling (a : Call T) : Prop := match a with Storing _ _ | Publishing _ => True | _ => False end.

Definition call_ok z (n : bool) (a : Call T) : Prop :=
  let open := initialized (value z) = false ∧ (n = false → poisoned z = false) in
  match a with
  | Beginning _ => open ∧ (state z = Initializer true ∨ state z = Attempt)
  | Polling _ => open ∧ state z = Attempt
  | Storing _ _ => open ∧ state z = Complete
  | Publishing _ => open ∧ state z = Complete ∧ is_Some (slot (value z))
  | _ => True
  end.

(** The initialiser has run unless it is still there; a complete attempt left a value, a panic, or a
    call that is about to store the value. *)
Definition state_ok z (n : Z) (fill : Prop) : Prop :=
  match state z with
  | Initializer true => n = 0
  | Initializer false => n = 1 ∧ poisoned z = true
  | Attempt => n = 1
  | Complete => n = 1 ∧ (initialized (value z) = true ∨ poisoned z = true ∨ fill)
  end.

Record lazy_ok x : Prop := {
  lz_cell : cell_ok (value (cell x));
  lz_pool : pp_ok (mutex x);
  lz_permits : pp_free (mutex x) + map_sum permit (calls x) <= 1;
  lz_alone : ∀ i a, calls x !! i = Some a → is_exclusive a = true → calls x = {[i:=a]};
  lz_calls : ∀ i a, calls x !! i = Some a → call_ok (cell x) (nested x) a;
  lz_state : state_ok (cell x) (starts x) (∃ i a, calls x !! i = Some a ∧ filling a);
  lz_poisoned : poisoned (cell x) = true → nested x = false → initialized (value (cell x)) = false;
  lz_answers : ∀ v, v ∈ answers x → content (value (cell x)) = Some v;
}.

Lemma lazy_one x i j a b :
  lazy_ok x → calls x !! i = Some a → calls x !! j = Some b → engaged a → engaged b → i = j.
Proof.
  intros Hx Hi Hj Ha Hb. destruct (decide (i = j)) as [|Hne]; [done|]. exfalso.
  assert (∀ k l c d, calls x !! k = Some c → calls x !! l = Some d → is_exclusive c = true → k = l) as Hex.
  { intros k l c d Hk Hl Hc. rewrite (lz_alone _ Hx k c Hk Hc) in Hl. by apply lookup_singleton_Some in Hl as [-> _]. }
  destruct Ha as [Ha|Ha]; [|by apply Hne, (Hex i j a b)]. destruct Hb as [Hb|Hb]; [|by apply Hne; symmetry; apply (Hex j i b a)].
  pose proof (pp_nonneg _ (lz_pool _ Hx)). pose proof (lz_permits _ Hx).
  unshelve epose proof (map_sum_two permit (calls x) i j a b _ Hi Hj Hne); [|lia]. intros k [| | |[]|[]|[]|[]|] _; simpl; lia.
Qed.

(** The calls after the call [i] moved to [b], or ended. *)
Definition moved i (b : option (Call T)) (g : gmap nat (Call T)) : gmap nat (Call T) :=
  match b with Some c => <[i:=c]> g | None => delete i g end.

Lemma moved_lookup i b g j : j ≠ i → moved i b g !! j = g !! j.
Proof. intros Hne. destruct b; simpl; [by rewrite lookup_insert_ne|by rewrite lookup_delete_ne]. Qed.
Lemma moved_self i b g : moved i b g !! i = b.
Proof. destruct b; simpl; [apply lookup_insert_eq|apply lookup_delete_eq]. Qed.
Lemma moved_sum i a b g : g !! i = Some a → map_sum permit (moved i b g) = map_sum permit g - permit a + from_option permit 0 b.
Proof.
  intros Hi. destruct b; simpl; [by rewrite (map_sum_update _ _ _ _ _ Hi)|]. rewrite (map_sum_delete _ _ _ _ Hi). lia.
Qed.

(** A step of the call that owns the attempt. *)
Lemma lazy_drive_ok x x' i a b :
  lazy_ok x → calls x !! i = Some a → engaged a → cell_ok (value (cell x')) →
  mutex x' = mutex x → calls x' = moved i b (calls x) → from_option permit 0 b = permit a →
  (∀ c, b = Some c → (is_exclusive c = true → is_exclusive a = true) ∧ call_ok (cell x') (nested x') c) →
  state_ok (cell x') (starts x') (from_option filling False b) →
  (poisoned (cell x') = true → nested x' = false → initialized (value (cell x')) = false) →
  (∀ v, v ∈ answers x' → content (value (cell x')) = Some v) → lazy_ok x'.
Proof.
  intros Hx Hi Ha Hc Em Eg Ep Hb Hs Hp Hans. pose proof Hx as [_ Hpool Hperm Hal Hg _ _ _].
  assert (∀ j c, j ≠ i → calls x !! j = Some c → permit c = 0 ∧ is_exclusive c = false) as Hoth.
  { intros j c Hne Hj. destruct (is_exclusive c) eqn:E; [by destruct Hne; eapply (lazy_one x j i c a); eauto; right|].
    destruct (decide (permit c = 1)); [by destruct Hne; eapply (lazy_one x j i c a); eauto; left|].
    split; [|done]. by destruct c as [| | |[]|[]|[]|[]|]. }
  split; rewrite ?Em; try done.
  - rewrite Eg, (moved_sum i a b) by done. lia.
  - intros j c Hj He. destruct (decide (j = i)) as [->|Hne].
    + rewrite Eg, moved_self in Hj. destruct (Hb c Hj) as [Hex _]. rewrite Eg, (Hal i a Hi (Hex He)), Hj. simpl.
      apply map_eq. intros k. destruct (decide (k = i)) as [->|]; by rewrite ?lookup_insert_eq, ?lookup_singleton_eq, ?lookup_insert_ne, ?lookup_singleton_ne.
    + rewrite Eg, moved_lookup in Hj by done. destruct (Hoth j c Hne Hj). congruence.
  - intros j c Hj. rewrite Eg in Hj. destruct (decide (j = i)) as [->|Hne].
    + rewrite moved_self in Hj. by apply Hb.
    + rewrite moved_lookup in Hj by done. destruct (Hoth j c Hne Hj) as [H0 Hex]. by destruct c as [| | |[]|[]|[]|[]|].
  - unfold state_ok in *. destruct (state (cell x')) as [[]| |]; try done. destruct Hs as [? [?|[?|Hf]]]; split; auto.
    right. right. destruct b as [c|]; [|done]. exists i, c. by rewrite Eg, moved_self.
Qed.

(** Calls that do not own the attempt move, or one that did is over. *)
Lemma lazy_passive_ok x x' p g :
  x' = mkSys (cell x) p g (answers x) (starts x) (nested x) → lazy_ok x → shared x → pp_ok p → pp_free p + map_sum permit g <= 1 →
  (∀ j a, g !! j = Some a → calls x !! j = Some a ∨ a = Probed ∨ a = Locking ∨ a = Locked) →
  (∀ j a, calls x !! j = Some a → filling a → g !! j = Some a) →
  lazy_ok x'.
Proof.
  intros -> [Hc _ _ Hal Hg Hs Hp Ha] Hsh Hpool Hf Hsub Hfill. split; simpl; try done.
  - intros i a Hi He. destruct (Hsub i a Hi) as [Hi'|[->|[->| ->]]]; try done. by rewrite (Hsh i a Hi') in He.
  - intros i a Hi. destruct (Hsub i a Hi) as [Hi'|[->|[->| ->]]]; try done. by apply (Hg i).
  - unfold state_ok in *. destruct (state (cell x)) as [[]| |]; try done. destruct Hs as [? [?|[?|(i & a & Hi & Hf')]]]; split; auto.
    right. right. exists i, a. split; [by apply Hfill|done].
Qed.

Lemma lazy_shared x i a : lazy_ok x → calls x !! i = Some a → is_exclusive a = false → shared x.
Proof.
  intros Hx Hi Ha j b Hj. destruct (is_exclusive b) eqn:E; [|done]. rewrite (lz_alone _ Hx j b Hj E) in Hi.
  apply lookup_singleton_Some in Hi as [_ <-]. congruence.
Qed.

Lemma lazy_answer_ok x v : lazy_ok x → content (value (cell x)) = Some v → lazy_ok (answer v x).
Proof.
  intros [Hc Hpool Hperm Hal Hg Hs Hp Ha] Hv. split; try done. simpl.
  intros w [Hw| ->%list_elem_of_singleton]%elem_of_app; [by apply Ha|done].
Qed.

Lemma lazy_get x r c : lazy_ok x → returns get_value (value (cell x)) r c → r = content (value (cell x)).
Proof. intros Hx Hr. by apply (wp_returns_elim _ _ _ _ _ (get_value_spec _ (lz_cell _ Hx)) Hr). Qed.

Lemma lazy_empty x : lazy_ok x → initialized (value (cell x)) = false → answers x = [].
Proof.
  intros Hx E. destruct (answers x) as [|a l] eqn:El; [done|]. pose proof (lz_answers _ Hx a) as Ha.
  rewrite El in Ha. unfold content in Ha. rewrite E in Ha. by discriminate Ha; set_solver.
Qed.

(** The steps of a call up to the mutex, its cancellation there, and the end of the mutex. *)
Lemma lazy_outside_ok x x' i :
  lazy_ok x → force_start i x x' ∨ force_probe i x x' ∨ force_lock i x x' ∨ force_unlock i x x' ∨
    (calls x !! i = Some Locking ∧ x' = set_calls (delete i (calls x)) x) → lazy_ok x'.
Proof.
  intros Hx Hs. pose proof Hx as [_ Hpool Hperm _ _ _ _ _].
  assert (∀ y a b p, y = mkSys (cell x) p (moved i b (calls x)) (answers x) (starts x) (nested x) → calls x !! i = Some a → is_exclusive a = false → ¬ filling a →
    (∀ c, b = Some c → c = Probed ∨ c = Locking ∨ c = Locked) → pp_ok p →
    pp_free p + map_sum permit (moved i b (calls x)) <= 1 → lazy_ok y) as Hmv.
  { intros y a b p Hy Hi Hex Hnf Hb Hp Hf. apply (lazy_passive_ok x y p (moved i b (calls x))); try done; [by eapply lazy_shared|..].
    - intros j c Hj. destruct (decide (j = i)) as [->|Hne]; [rewrite moved_self in Hj; right; by apply Hb|].
      left. by rewrite moved_lookup in Hj.
    - intros j c Hj Hc. rewrite moved_lookup; [done|]. intros ->. congruence. }
  destruct Hs as [(Hi & Hsh & r & c & Hr & ->)|[(Hi & ->)|[(Hi & p & Ht & ->)|[(Hi & p & Ht & ->)|(Hi & ->)]]]].
  - rewrite (lazy_get _ _ _ Hx Hr). destruct (content (value (cell x))) as [v|] eqn:Ev; [by apply lazy_answer_ok|].
    apply (lazy_passive_ok x _ (mutex x) (<[i:=Probed]> (calls x))); try done; [by rewrite map_sum_insert|..].
    + intros j a [[_ <-]|[_ Hj]]%lookup_insert_Some; [by right; left|by left].
    + intros j a Hj _. rewrite lookup_insert_ne; [done|]. intros <-. congruence.
  - destruct (poisoned (cell x)).
    + apply (Hmv _ _ None (mutex x) eq_refl Hi); try done; [by intros []|]. rewrite (moved_sum _ _ _ _ Hi). simpl. lia.
    + apply (Hmv _ _ (Some Locking) (mutex x) eq_refl Hi); try done; [by intros []|intros c [= <-]; auto|].
      rewrite (moved_sum _ _ _ _ Hi). simpl. lia.
  - destruct (pp_take_spec _ _ _ Hpool Ht) as [Hp' Ef]. apply (Hmv _ _ (Some Locked) p eq_refl Hi); try done; [by intros []|intros c [= <-]; auto|].
    rewrite (moved_sum _ _ _ _ Hi). simpl. lia.
  - destruct (pp_give_spec _ _ _ Hpool Ht) as [Hp' Ef]. apply (Hmv _ _ None p eq_refl Hi); try done; [by intros []|].
    rewrite (moved_sum _ _ _ _ Hi). simpl. lia.
  - apply (Hmv _ _ None (mutex x) eq_refl Hi); try done; [by intros []|]. rewrite (moved_sum _ _ _ _ Hi). simpl. lia.
Qed.

(** A call that leaves. *)
Lemma lazy_leave_ok x i a m z n u :
  lazy_ok x → calls x !! i = Some a → engaged a → permit a = (if m then 0 else 1) → cell_ok (value z) →
  state_ok z n False → (poisoned z = true → u = false → initialized (value z) = false) →
  (∀ v, v ∈ answers x → content (value z) = Some v) →
  lazy_ok (leave m i (mkSys z (mutex x) (calls x) (answers x) n u)).
Proof.
  intros Hx Hi Ha Hp Hc Hs Hpo Hans.
  eapply (lazy_drive_ok x _ i a (if m then None else Some Unlocking)); try done.
  - by destruct m.
  - by destruct m.
  - destruct m; [done|]. by intros c [= <-].
  - by destruct m.
Qed.

Lemma lazy_check_ok x x' i : lazy_ok x → force_check i x x' → lazy_ok x'.
Proof.
  intros Hx (Hi & r & c & Hr & ->). pose proof Hx as [Hc _ _ _ _ Hs Hp Ha]. rewrite (lazy_get _ _ _ Hx Hr).
  assert (state_ok (cell x) (starts x) False) as Hs'.
  { unfold state_ok in *. destruct (state (cell x)) as [[]| |]; try done. destruct Hs as [? [?|[?|(j & a & Hj & Hf)]]]; split; auto.
    exfalso. assert (engaged a) as He by (destruct a as [| | |[]|[]|[]|[]|]; try done; by (left + right)).
    pose proof (lazy_one x i j _ a Hx Hi Hj ltac:(by left) He) as <-. rewrite Hi in Hj. by injection Hj as <-. }
  assert (lazy_ok (leave false i x)) as Hl.
  { assert (x = mkSys (cell x) (mutex x) (calls x) (answers x) (starts x) (nested x)) as -> by (by destruct x).
    by eapply lazy_leave_ok; try done; left. }
  destruct (content (value (cell x))) as [v|] eqn:Ev; [by apply lazy_answer_ok|].
  destruct (poisoned (cell x)) eqn:Epo; [done|].
  assert (initialized (value (cell x)) = false) as Ein.
  { unfold content in Ev. destruct (initialized (value (cell x))) eqn:E; [|done]. destruct (Hc E) as [v Hv]. congruence. }
  eapply (lazy_drive_ok x _ i _ (Some (Beginning false))); try done; [by left| |].
  - intros d [= <-]. split; [done|]. split; [done|]. unfold state_ok in Hs'. simpl in *.
    destruct (state (cell x)) as [[]| |]; naive_solver congruence.
  - simpl. by rewrite Ev.
Qed.

(** The call that owns the attempt, and what is left of it outside. *)
Lemma driver_engaged (a : Call T) m :
  (a = Beginning m ∨ a = Polling m ∨ (∃ v, a = Storing m v) ∨ a = Publishing m) →
  engaged a ∧ permit a = (if m then 0 else 1) ∧ is_exclusive a = m.
Proof. intros [->|[->|[[v ->]| ->]]]; unfold engaged; simpl; destruct m; auto. Qed.

Lemma lazy_begin_ok x x' i u b : lazy_ok x → force_begin i u b x x' → lazy_ok x'.
Proof.
  intros Hx (m & r & z & Hi & Hr & ->). pose proof Hx as [Hc _ _ _ Hg Hs _ _].
  pose proof (driver_engaged (Beginning m) m ltac:(auto)) as (He & Hp & Hex).
  pose proof (Hg i _ Hi) as [[Ein Epo] Est]. pose proof (lazy_empty x Hx Ein) as Eans. unfold state_ok in Hs.
  assert (∀ y, value (cell y) = value (cell x) → state (cell y) = Attempt → (nested y = false → poisoned (cell y) = false) →
    mutex y = mutex x → calls y = <[i:=Polling m]> (calls x) → answers y = [] → starts y = 1 → lazy_ok y) as Hgo.
  { intros y E1 E2 E3 E4 E5 E6 E7. eapply (lazy_drive_ok x y i _ (Some (Polling m))); try done; rewrite ?E1, ?E6, ?E7; try done.
    - intros c [= <-]. split; [done|]. split; [split; [by rewrite E1|done]|done].
    - unfold state_ok. by rewrite E2.
    - set_solver. }
  destruct x as [[vc st po] mu g ans n ne]. unfold returns, begin_attempt in Hr. simpl in *.
  destruct Est as [->| ->]; simpl in Hr.
  - destruct b; simpl in Hr; injection Hr as <- <-; simpl; rewrite Hs.
    + apply Hgo; try done. simpl. intros [-> ->]%orb_false_iff. by rewrite Epo.
    + eapply (lazy_leave_ok _ i _ m _ _ _ Hx Hi); try done; [unfold state_ok; simpl; split; [done|destruct po, u; done]|]. simpl. rewrite Eans. set_solver.
  - injection Hr as <- <-. simpl. rewrite Hs. apply Hgo; try done. simpl. intros [-> _]%orb_false_iff. by apply Epo.
Qed.

Lemma lazy_poll_ok x x' i u r : lazy_ok x → force_poll i u r x x' → lazy_ok x'.
Proof.
  intros Hx (m & d & z & Hi & Hr & ->). pose proof Hx as [Hc _ _ _ Hg Hs _ _].
  pose proof (driver_engaged (Polling m) m ltac:(auto)) as (He & Hp & Hex).
  pose proof (Hg i _ Hi) as [[Ein Epo] Est]. pose proof (lazy_empty x Hx Ein) as Eans. unfold state_ok in Hs.
  destruct x as [[vc st po] mu g ans n ne]. unfold returns, poll_attempt in Hr. simpl in *. subst st ans. simpl in Hr.
  destruct r as [|v dr|]; simpl in Hr.
  - injection Hr as <- <-. eapply (lazy_drive_ok _ _ i _ (Some (Polling m)) Hx Hi); try done; simpl; [by rewrite insert_id| |set_solver].
    intros c [= <-]. split; [done|]. split; [split; [done|]|done]. intros [-> ->]%orb_false_iff. simpl. by rewrite Epo.
  - destruct dr; injection Hr as <- <-.
    + eapply (lazy_drive_ok _ _ i _ (Some (Storing m v)) Hx Hi); try done; simpl.
      * intros c [= <-]. split; [done|]. split; [split; [done|]|done]. intros [-> ->]%orb_false_iff. simpl. by rewrite Epo.
      * unfold state_ok. simpl. auto.
      * set_solver.
    + eapply (lazy_leave_ok _ i _ m _ n _ Hx Hi); try done; [|simpl; set_solver]. unfold state_ok. simpl. split; [done|]. right. left.
      by destruct po, u.
  - injection Hr as <- <-. eapply (lazy_leave_ok _ i _ m _ n _ Hx Hi); try done. simpl. set_solver.
Qed.

Lemma lazy_fill_ok x x' i : lazy_ok x → force_store i x x' ∨ force_publish i x x' → lazy_ok x'.
Proof.
  intros Hx Hs. pose proof Hx as [Hc _ _ _ Hg Hst _ _].
  destruct Hs as [(m & v & c & Hi & Hr & ->)|(m & v & c & Hi & Hr & ->)].
  - pose proof (driver_engaged (Storing m v) m ltac:(eauto)) as (He & Hp & Hex).
    pose proof (Hg i _ Hi) as [[Ein Epo] Est]. apply set_write_returns in Hr as ->; [|done].
    eapply (lazy_drive_ok x _ i _ (Some (Publishing m)) Hx Hi); try done; simpl.
    + intros d [= <-]. split; [done|]. split_and!; [done|done|done|by eexists].
    + unfold state_ok in *. simpl. rewrite Est in *. naive_solver.
    + rewrite (lazy_empty x Hx Ein). set_solver.
  - pose proof (driver_engaged (Publishing m) m ltac:(auto)) as (He & Hp & Hex).
    pose proof (Hg i _ Hi) as ([Ein Epo] & Est & w & Hw). destruct (set_publish_returns _ _ _ _ Hw Hr) as [-> ->].
    apply lazy_answer_ok; [|done]. eapply (lazy_leave_ok x i _ m _ _ _ Hx Hi); try done; simpl.
    + by intros _; eexists.
    + unfold state_ok in *. simpl. rewrite Est in *. naive_solver.
    + intros Hpo Hn. rewrite (Epo Hn) in Hpo. done.
    + rewrite (lazy_empty x Hx Ein). set_solver.
Qed.

Lemma lazy_cancel_ok x x' i m : lazy_ok x → calls x !! i = Some (Polling m) → x' = leave m i x → lazy_ok x'.
Proof.
  intros Hx Hi ->. pose proof Hx as [Hc _ _ _ Hg Hs Hpo Ha]. pose proof (driver_engaged (Polling m) m ltac:(auto)) as (He & Hp & Hex).
  pose proof (Hg i _ Hi) as [_ Est]. unfold state_ok in Hs. rewrite Est in Hs.
  assert (x = mkSys (cell x) (mutex x) (calls x) (answers x) (starts x) (nested x)) as -> by (by destruct x).
  eapply (lazy_leave_ok x); try done. unfold state_ok. by rewrite Est.
Qed.

Lemma lazy_exclusive_ok x : lazy_ok x → lazy_ok (exclusive x).
Proof. intros [Hc Hpool Hperm Hal Hg Hs Hp Ha]. split; try done. simpl. set_solver. Qed.

Lemma lazy_mut_ok x x' i : lazy_ok x → force_mut_start i x x' → lazy_ok x'.
Proof.
  intros Hx (He & ->). destruct (is_initialized _) eqn:Ein; [by apply lazy_exclusive_ok|].
  destruct (poisoned (cell x)) eqn:Epo; [by apply lazy_exclusive_ok|]. destruct Hx as [Hc Hpool Hperm Hal Hg Hs Hp Ha].
  unfold state_ok in Hs. rewrite He in *. split; simpl; try done.
  - by rewrite map_sum_insert by done.
  - intros j a [[<- <-]|[_ Hj]]%lookup_insert_Some _; [done|by apply lookup_empty_Some in Hj].
  - intros j a [[<- <-]|[_ Hj]]%lookup_insert_Some; [|by apply lookup_empty_Some in Hj].
    split; [done|]. destruct (state (cell x)) as [[]| |]; auto; [naive_solver congruence|].
    destruct Hs as [_ [?|[?|(j & a & Hj%lookup_empty_Some & _)]]]; [unfold is_initialized in Ein; congruence|congruence|done].
  - unfold state_ok. destruct (state (cell x)) as [[]| |]; try done. destruct Hs as [? [?|[?|(j & a & Hj%lookup_empty_Some & _)]]]; auto.
  - set_solver.
Qed.

Lemma lazy_get_mut_ok x x' f : lazy_ok x → get_mut_step f x x' → lazy_ok x'.
Proof.
  intros [Hc Hpool Hperm Hal Hg Hs Hp _] (He & r & c & Hr & ->).
  assert (initialized c = initialized (value (cell x)) ∧ cell_ok c) as [Ei Hc'].
  { destruct (value (cell x)) as [[] s]; simpl in *; [|by injection Hr as _ <-].
    destruct (Hc eq_refl) as [v Hv]. simpl in Hv. rewrite Hv in Hr. injection Hr as _ <-. split; [done|]. by intros _; eexists. }
  split; simpl; try done.
  - rewrite He. by intros i a Hi%lookup_empty_Some.
  - unfold state_ok in *. simpl. by rewrite Ei.
  - by rewrite Ei.
  - set_solver.
Qed.

Lemma lazy_step_ok x x' : lazy_ok x → step x x' → lazy_ok x'.
Proof.
  intros Hx Hs.
  destruct Hs as [i x x' H|i x x' H|i x x' H|i x x' H|i u b x x' H|i u r x x' H|i x x' H|i x x' H|i x x' H|i x x' H|i x x' H|f x x' H|x p H].
  1, 2, 3, 9: eapply lazy_outside_ok; by eauto 10.
  - by eapply lazy_check_ok.
  - by eapply lazy_begin_ok.
  - by eapply lazy_poll_ok.
  - eapply lazy_fill_ok; by eauto.
  - eapply lazy_fill_ok; by eauto.
  - destruct H as [H|(m & Hi & ->)]; [eapply lazy_outside_ok; by eauto 10|by eapply lazy_cancel_ok].
  - by eapply lazy_mut_ok.
  - by eapply lazy_get_mut_ok.
  - destruct (pp_internal_spec _ _ (lz_pool _ Hx) H) as [Hp' Ef]. destruct Hx. split; try done. simpl. lia.
Qed.

Lemma lazy_reachable_ok p x : pp_ok p → pp_free p <= 1 → rtc step (new p) x → lazy_ok x.
Proof.
  intros Hp Hf. apply (rtc_ind_r lazy_ok); [|intros y z _ Hyz Hy; by eapply lazy_step_ok].
  split; simpl; try done; try (by intros i a Hi%lookup_empty_Some); [rewrite map_sum_empty; lia|set_solver].
Qed.

(** ** Poisoning is for good *)

(** No call drives the attempt or stores its value. *)
Definition driving (a : Call T) : bool := match a with Beginning _ | Polling _ | Storing _ _ | Publishing _ => true | _ => false end.
Definition undriven x : Prop := ∀ i a, calls x !! i = Some a → driving a = false.

Definition dead x : Prop := poisoned (cell x) = true ∧ initialized (value (cell x)) = false ∧ undriven x.

Lemma undriven_insert x i b : undriven x → driving b = false → undriven (set_calls (<[i:=b]> (calls x)) x).
Proof. intros Hu Hb j a Hj. simpl in Hj. apply lookup_insert_Some in Hj as [[_ <-]|[_ Hj]]; [done|by eapply Hu]. Qed.
Lemma undriven_delete x i : undriven x → undriven (set_calls (delete i (calls x)) x).
Proof. intros Hu j a Hj. simpl in Hj. apply lookup_delete_Some in Hj as [_ Hj]. by eapply Hu. Qed.

Lemma lazy_stays_dead x x' : lazy_ok x → dead x → step x x' → dead x'.
Proof.
  intros Hx (Hp & Hi & Hu) Hs. assert (content (value (cell x)) = None) as Hc by (unfold content; by rewrite Hi).
  assert (∀ k a, calls x !! k = Some a → driving a = true → False) as Hno by (intros k a Hk Ha; by rewrite (Hu k a Hk) in Ha).
  destruct Hs as [i x x' H|i x x' H|i x x' H|i x x' H|i u b x x' H|i u r x x' H|i x x' H|i x x' H|i x x' H|i x x' H|i x x' H|f x x' H|x p H].
  - destruct H as (_ & _ & r & c & Hr & ->). rewrite (lazy_get _ _ _ Hx Hr), Hc. split_and!; [done|done|by apply undriven_insert].
  - destruct H as (_ & ->). rewrite Hp. split_and!; [done|done|by apply undriven_delete].
  - destruct H as (_ & p & _ & ->). split_and!; [done|done|]. by apply (undriven_insert x i Locked).
  - destruct H as (_ & r & c & Hr & ->). rewrite (lazy_get _ _ _ Hx Hr), Hc, Hp. split_and!; [done|done|by apply undriven_insert].
  - destruct H as (m & r & z & Hk & _). by destruct (Hno _ _ Hk).
  - destruct H as (m & d & z & Hk & _). by destruct (Hno _ _ Hk).
  - destruct H as (m & v & c & Hk & _). by destruct (Hno _ _ Hk).
  - destruct H as (m & v & c & Hk & _). by destruct (Hno _ _ Hk).
  - destruct H as (_ & p & _ & ->). split_and!; [done|done|]. by apply (undriven_delete x i).
  - destruct H as [(_ & ->)|(m & Hk & _)]; [split_and!; [done|done|by apply undriven_delete]|by destruct (Hno _ _ Hk)].
  - destruct H as (_ & ->). unfold is_initialized. rewrite Hi, Hp. by split_and!.
  - destruct H as (_ & r & c & Hr & ->). destruct (value (cell x)) as [b s] eqn:Ev. simpl in Hi. subst b. unfold returns, get_mut_with in Hr. simpl in Hr.
    injection Hr as _ <-. by split_and!.
  - by split_and!.
Qed.

Lemma lazy_dead_forever x x' : lazy_ok x → dead x → rtc step x x' → dead x'.
Proof.
  intros Hx Hd Hr. revert Hx Hd. induction Hr as [|x y z Hs _ IH]; [done|]. intros Hx Hd. apply IH; [by eapply lazy_step_ok|by eapply lazy_stays_dead].
Qed.

(** ** Theorem *)

(** C24: a lazy cell runs its initialiser at most once: in every reachable state, with calls that are
    cancelled, resume the attempt of another one, panic, run on a thread that is panicking already or have
    exclusive access, the initialiser was called at most once; every answer since the last exclusive
    access is the value of the cell; a poisoned cell has no value, unless its attempt was driven on a
    thread that was panicking already; a poisoned cell without a value that no call drives will never have
    one; one call at a time owns the attempt; and the panics that tell of a missing initialiser, a missing
    attempt or a complete one, and the assertion of the value cell, are never reached. *)
Theorem lazy_cell_starts_once p x i j :
  pp_ok p → pp_free p <= 1 → rtc step (new p) x →
  0 <= starts x <= 1 ∧ (∀ v, v ∈ answers x → content (value (cell x)) = Some v) ∧
  (poisoned (cell x) = true → nested x = false → content (value (cell x)) = None) ∧
  (poisoned (cell x) = true → content (value (cell x)) = None → undriven x → ∀ x', rtc step x x' → content (value (cell x')) = None) ∧
  (∀ a b, calls x !! i = Some a → calls x !! j = Some b → engaged a → engaged b → i = j) ∧
  (∀ m u b, calls x !! i = Some (Beginning m) → wp (begin_attempt u b) (cell x) (λ _ _, True)) ∧
  (∀ m u r, calls x !! i = Some (Polling m) → wp (poll_attempt u r) (cell x) (λ _ _, True)) ∧
  (∀ m v, calls x !! i = Some (Storing m v) → wp (set_write v) (value (cell x)) (λ _ _, True)).
Proof.
  intros Hp Hf Hr. pose proof (lazy_reachable_ok p x Hp Hf Hr) as Hx. pose proof Hx as [Hc _ _ _ Hg Hs Hpo Ha].
  split; [unfold state_ok in Hs; destruct (state (cell x)) as [[]| |]; lia|]. split_and!.
  - done.
  - intros E En. unfold content. by rewrite Hpo.
  - intros E Ec Hu x' Hr'. destruct (lazy_dead_forever x x' Hx) as (_ & E' & _); [|done|unfold content; by rewrite E'].
    split_and!; [done| |done]. unfold content in Ec. destruct (initialized (value (cell x))) eqn:Ei; [|done]. destruct (Hc Ei). congruence.
  - intros a b. apply (lazy_one x i j a b Hx).
  - intros m u b Hi. apply Hg in Hi as [_ Est]. destruct (cell x) as [c st po]. simpl in Est. by destruct Est as [->| ->]; destruct b.
  - intros m u r Hi. apply Hg in Hi as [_ Est]. destruct (cell x) as [c st po]. simpl in Est. subst st. by destruct r as [|v []|].
  - intros m v Hi. apply Hg in Hi as [[Ein _] _]. destruct (value (cell x)) as [[] s]; [done|]. done.
Qed.
End system.

(** The first call is cancelled after it started the attempt; the second one finishes it. *)
Definition resumed : LazyCell Z nat :=
  mkSys (mkLazy (mkCell true (Some 7%nat)) Complete false) 0 {[1%nat := Unlocking]} [7%nat] 1 false.

Definition abandoned : LazyCell Z nat := mkSys (mkLazy ValueCell.new Attempt false) 1 ∅ [] 1 false.

Lemma abandoned_reachable : rtc step (new 1) abandoned.
Proof.
  eapply rtc_l; [apply (step_start 0); split; [done|]; split; [by intros ? ? ?|]; eexists _, _; split; reflexivity|].
  eapply rtc_l; [apply (step_probe 0); split; [apply lookup_insert_eq|reflexivity]|].
  eapply rtc_l; [apply (step_lock 0); split; [apply lookup_insert_eq|]; exists 0; split; [by split|reflexivity]|].
  eapply rtc_l; [apply (step_check 0); split; [apply lookup_insert_eq|]; eexists _, _; split; reflexivity|].
  eapply rtc_l; [apply (step_begin 0 false true); exists false; eexists _, _; split; [apply lookup_insert_eq|]; split; reflexivity|].
  eapply rtc_l; [apply (step_poll 0 false PolledPending); exists false; eexists _, _; split; [apply lookup_insert_eq|]; split; reflexivity|].
  eapply rtc_l; [apply (step_cancel 0); right; exists false; split; [apply lookup_insert_eq|reflexivity]|].
  eapply rtc_l; [apply (step_unlock 0); split; [apply lookup_insert_eq|]; exists 1; split; [by split|reflexivity]|].
  apply rtc_refl.
Qed.

Lemma resumed_reachable : rtc step abandoned resumed.
Proof.
  eapply rtc_l; [apply (step_start 1); split; [done|]; split; [by intros ? ? ?|]; eexists _, _; split; reflexivity|].
  eapply rtc_l; [apply (step_probe 1); split; [apply lookup_insert_eq|reflexivity]|].
  eapply rtc_l; [apply (step_lock 1); split; [apply lookup_insert_eq|]; exists 0; split; [by split|reflexivity]|].
  eapply rtc_l; [apply (step_check 1); split; [apply lookup_insert_eq|]; eexists _, _; split; reflexivity|].
  eapply rtc_l; [apply (step_begin 1 false true); exists false; eexists _, _; split; [apply lookup_insert_eq|]; split; reflexivity|].
  eapply rtc_l; [apply (step_poll 1 false (PolledReady 7%nat true)); exists false; eexists _, _; split; [apply lookup_insert_eq|]; split; reflexivity|].
  eapply rtc_l; [apply (step_store 1); exists false, 7%nat; eexists; split; [apply lookup_insert_eq|]; split; reflexivity|].
  eapply rtc_l; [apply (step_publish 1); exists false, 7%nat; eexists; split; [apply lookup_insert_eq|]; split; reflexivity|].
  apply rtc_refl.
Qed.

Lemma lazy_cell_starts_once_witness :
  0 <= starts resumed <= 1 ∧ (∀ v, v ∈ answers resumed → content (value (cell resumed)) = Some v).
Proof.
  destruct (lazy_cell_starts_once 1 resumed 0 0) as (H & H' & _); [simpl; lia|simpl; lia| |split; [exact H|exact H']].
  etrans; [exact abandoned_reachable|exact resumed_reachable].
Defined.

(** An attempt that goes well on a thread that is panicking already leaves a poisoned cell with a value. *)
Definition filled_and_poisoned : LazyCell Z nat :=
  mkSys (mkLazy (mkCell true (Some 7%nat)) Complete true) 0 {[1%nat := Unlocking]} [7%nat] 1 true.

Lemma filled_and_poisoned_reachable : rtc step (new 1) filled_and_poisoned.
Proof.
  etrans; [exact abandoned_reachable|].
  eapply rtc_l; [apply (step_start 1); split; [done|]; split; [by intros ? ? ?|]; eexists _, _; split; reflexivity|].
  eapply rtc_l; [apply (step_probe 1); split; [apply lookup_insert_eq|reflexivity]|].
  eapply rtc_l; [apply (step_lock 1); split; [apply lookup_insert_eq|]; exists 0; split; [by split|reflexivity]|].
  eapply rtc_l; [apply (step_check 1); split; [apply lookup_insert_eq|]; eexists _, _; split; reflexivity|].
  eapply rtc_l; [apply (step_begin 1 true true); exists false; eexists _, _; split; [apply lookup_insert_eq|]; split; reflexivity|].
  eapply rtc_l; [apply (step_poll 1 true (PolledReady 7%nat true)); exists false; eexists _, _; split; [apply lookup_insert_eq|]; split; reflexivity|].
  eapply rtc_l; [apply (step_store 1); exists false, 7%nat; eexists; split; [apply lookup_insert_eq|]; split; reflexivity|].
  eapply rtc_l; [apply (step_publish 1); exists false, 7%nat; eexists; split; [apply lookup_insert_eq|]; split; reflexivity|].
  apply rtc_refl.
Qed.
