(* ===== verification/EntryTable.v ===== *)
(** * Shared entries of a keyed table

    What [asyncband/src/once/once_map/mod.rs] and [asyncband/src/singleflight/mod.rs] have in common:
    reference-counted entries, each with its key and its cell, a table of the current ones, and the
    guards of the callers that use an entry.  An entry whose callers give up is removed by the last
    of them.  The hash table is the list of its entries, searched by key; hashes are functions of
    the keys and are left out.  The class [InitCell] states what the cells promise; the once cell
    is its instance. *)
From S2P Require Import Prelude PermitPool OnceCell.
Import OnceCell.ValueCell.

(** ** The interface of cells *)
Class InitCell (C V : Type) : Type := {
  ic_ok : C → Prop;
  ic_value : C → option V;
  (** The call [i] is between its start and its end; it runs its initialiser; some call has stored a
      value, published or not. *)
  ic_active : nat → C → Prop;
  ic_running : nat → C → Prop;
  ic_filled : C → Prop;
  (** A step of the call [i] other than the return of its initialiser, and that return. *)
  ic_move : nat → C → C → Prop;
  ic_fill : nat → V → C → C → Prop;

  ic_one i j c : ic_ok c → ic_running i c → ic_running j c → i = j;
  ic_empty c : ic_ok c → ¬ ic_filled c → ic_value c = None;
  ic_move_ok i c c' : ic_ok c → ic_move i c c' → ic_ok c' ∧ (ic_filled c' → ic_filled c);
  ic_fill_ok i v c c' : ic_ok c → ic_fill i v c c' → ic_ok c' ∧ ic_running i c;
  ic_move_value i v c c' : ic_ok c → ic_move i c c' → ic_value c = Some v → ic_value c' = Some v;
  ic_fill_value i v w c c' : ic_ok c → ic_fill i w c c' → ic_value c = Some v → ic_value c' = Some v;
}.

(** ** Once cells *)
Section instance.
Context {P V : Type} `{!PermitPool P}.
Implicit Types (c : OnceCell P V) (i : nat).

Definition cell_move i c c' : Prop :=
  call_start i None c c' ∨ acquire i c c' ∨ recheck i c c' ∨ publish i c c' ∨ init_failed i c c' ∨ cancel i c c' ∨
  release i c c' ∨ ∃ p, pp_internal (semaphore c) p ∧ c' = set_semaphore p c.

Definition cell_filled c : Prop := initialized (value c) = true ∨ ∃ i k, calls c !! i = Some (Publishing k).

Lemma cell_move_step i c c' : cell_move i c c' → step c c'.
Proof.
  intros [H|[H|[H|[H|[H|[H|[H|(p & H & ->)]]]]]]]; [by eapply step_call|by eapply step_acquire|by eapply step_recheck|
    by eapply step_publish|by eapply step_failed|by eapply step_cancel|by eapply step_release|by apply step_pool].
Qed.

(** A step of the relation keeps the value unless it has exclusive access. *)
Lemma cell_value_kept v c c' :
  once_cell_ok c → content (value c) = Some v →
  (value c' = value c ∨ (initialized (value c) = false)) → content (value c') = Some v.
Proof. intros Hc Hv [->|E]; [done|]. unfold content in Hv. by rewrite E in Hv. Qed.

Lemma call_shape i c c' : cell_move i c c' → value c' = value c ∨ ∃ k, calls c !! i = Some (Publishing k).
Proof.
  intros [(Hn & r & d & Hr & ->)|[(k & p & Hk & Ht & ->)|[(k & r & d & Hk & Hr & ->)|[(k & v & d & Hk & Hr & ->)|[(Hk & ->)|[(k & Hk & ->)|
    [(Hk & p & Ht & ->)|(p & H & ->)]]]]]]]; eauto; left; by destruct r.
Qed.

Lemma cell_move_filled i c c' : once_cell_ok c → cell_move i c c' → cell_filled c' → cell_filled c.
Proof.
  intros Hc Hm. destruct (call_shape i c c' Hm) as [E|(k & Hk)]; [|intros _; right; eauto].
  intros [Hf|(j & k & Hj)]; [left; by rewrite <-E|]. right. exists j, k.
  destruct Hm as [(Hn & r & d & Hr & ->)|[(k' & p & Hk & Ht & ->)|[(k' & r & d & Hk & Hr & ->)|[(k' & v & d & Hk & Hr & ->)|[(Hk & ->)|[(k' & Hk & ->)|
    [(Hk & p & Ht & ->)|(p & H & ->)]]]]]]]; try (destruct r); simpl in Hj; try done;
    try (apply lookup_insert_Some in Hj as [[_ ?]|[_ Hj]]; [congruence|done]);
    apply lookup_delete_Some in Hj as [_ Hj]; done.
Qed.

#[global] Program Instance once_cell_init : InitCell (OnceCell P V) V := {|
  ic_ok := once_cell_ok;
  ic_value c := content (value c);
  ic_active i c := is_Some (calls c !! i);
  ic_running i c := ∃ k, calls c !! i = Some (Running k);
  ic_filled := cell_filled;
  ic_move := cell_move;
  ic_fill i v c c' := init_done i v c c';
|}.
Next Obligation. intros i j c Hc [k Hi] [l Hj]. by eapply once_cell_holder. Qed.
Next Obligation.
  intros c Hc Hn. unfold content. destruct (initialized (value c)) eqn:E; [|done]. destruct Hn. by left.
Qed.
Next Obligation.
  intros i c c' Hc Hm. split; [by eapply once_cell_step_ok, cell_move_step|by eapply cell_move_filled].
Qed.
Next Obligation.
  intros i v c c' Hc Hf. split; [eapply once_cell_step_ok; [done|by eapply step_init]|]. destruct Hf as (k & d & Hk & _). by exists k.
Qed.
Next Obligation.
  intros i v c c' Hc Hm Hv. eapply cell_value_kept; [done..|]. destruct (call_shape i c c' Hm) as [?|(k & Hk)]; [by left|right].
  by destruct (ce_calls _ Hc i _ Hk).
Qed.
Next Obligation.
  intros i v w c c' Hc (k & d & Hk & _) Hv. eapply cell_value_kept; [done..|right]. by apply (ce_calls _ Hc i _ Hk).
Qed.
End instance.

(** ** The table *)
Record Entry (K C : Type) : Type := mkEntry {
  key : K;
  cell : C;
}.
Arguments mkEntry {K C}.
Arguments key {K C}.
Arguments cell {K C}.

(** Entries by address, those in the table, and the callers' guards with the entry each owns. *)
Record Table (K C : Type) : Type := mkTable {
  heap : gmap nat (Entry K C);
  entries : list nat;
  guards : gmap nat nat;
}.
Arguments mkTable {K C}.
Arguments heap {K C}.
Arguments entries {K C}.
Arguments guards {K C}.

Section table.
Context {K C V : Type} `{!EqDecision K} `{!InitCell C V}.
Implicit Types (x : Table K C) (e g : nat) (k : K) (c : C).

Definition set_heap h x : Table K C := mkTable h (entries x) (guards x).
Definition set_entries l x : Table K C := mkTable (heap x) l (guards x).
Definition set_guards gs x : Table K C := mkTable (heap x) (entries x) gs.

Definition key_of x e : option K := key <$> heap x !! e.

(** [HashTable::find] by key. *)
Definition find k x : option nat := snd <$> list_find (λ e, key_of x e = Some k) (entries x).

(** [Arc::strong_count]: the references of the table and of the guards. *)
Definition strong_count e x : nat :=
  (length (filter (λ e', e' = e) (entries x)) + size (filter (λ p : nat * nat, p.2 = e) (guards x)))%nat.

(** A caller's lookup: the entry of the key, a new one if there is none; the caller owns a reference. *)
Definition get_or_insert c0 g k x : nat * Table K C :=
  match find k x with
  | Some e => (e, set_guards (<[g:=e]> (guards x)) x)
  | None =>
      let e := fresh (dom (heap x)) in
      (e, mkTable (<[e:=mkEntry k c0]> (heap x)) (e :: entries x) (<[g:=e]> (guards x)))
  end.

(** The removal of an entry by key and by address. *)
Definition remove_entry k x : option nat * Table K C :=
  match find k x with
  | Some e => (Some e, set_entries (filter (λ e', e' ≠ e) (entries x)) x)
  | None => (None, x)
  end.
Definition remove_if_current e x : Table K C := set_entries (filter (λ e', e' ≠ e) (entries x)) x.

(** The guard [g] of [e] is dropped: [cleanup_abandoned_entry]. *)
Definition cleanup_abandoned_entry g e (initialized : bool) x : Table K C :=
  if bool_decide (e ∈ entries x) then
    if bool_decide (strong_count e x = 2%nat) && negb initialized
    then set_guards (delete g (guards x)) (remove_if_current e x)
    else set_guards (delete g (guards x)) x
  else set_guards (delete g (guards x)) x.

(** [dismiss]: the reference is dropped without a look at the table. *)
Definition dismiss g x : Table K C := set_guards (delete g (guards x)) x.

Definition set_cell e c x : Table K C :=
  match heap x !! e with
  | Some en => set_heap (<[e:=mkEntry (key en) c]> (heap x)) x
  | None => x
  end.

(** ** Invariant *)

(** The entry [e] is used by a caller. *)
Definition used e x : Prop := ∃ g, guards x !! g = Some e.

Record table_ok x : Prop := {
  tb_nodup : NoDup (entries x);
  tb_entries : ∀ e, e ∈ entries x → is_Some (heap x !! e);
  tb_guards : ∀ g e, guards x !! g = Some e → is_Some (heap x !! e);
  tb_keys : ∀ e e' k, e ∈ entries x → e' ∈ entries x → key_of x e = Some k → key_of x e' = Some k → e = e';
  tb_cells : ∀ e en, heap x !! e = Some en → ic_ok (cell en);
  (** Nobody leaves an empty entry behind. *)
  tb_used : ∀ e en, e ∈ entries x → heap x !! e = Some en → ic_value (V:=V) (cell en) = None → used e x;
}.

Lemma find_some k x e : find k x = Some e → e ∈ entries x ∧ key_of x e = Some k.
Proof.
  unfold find. intros ([i e'] & Hl & ->)%fmap_Some. apply list_find_Some in Hl as (Hi & Hk & _). split; [by eapply list_elem_of_lookup_2|done].
Qed.
Lemma find_none k x e : find k x = None → e ∈ entries x → key_of x e ≠ Some k.
Proof. unfold find. intros Hn%fmap_None. rewrite list_find_None, Forall_forall in Hn. apply Hn. Qed.

Lemma table_fewer x l gs :
  table_ok x → NoDup l → (∀ e, e ∈ l → e ∈ entries x) → (∀ g e, gs !! g = Some e → is_Some (heap x !! e)) →
  (∀ e en, e ∈ l → heap x !! e = Some en → ic_value (V:=V) (cell en) = None → used e x → ∃ g, gs !! g = Some e) →
  table_ok (mkTable (heap x) l gs).
Proof.
  intros [Hnd He Hg Hk Hc Hu] Hl Hsub Hgs Hus. split; simpl; try done.
  - intros e Hin. by apply He, Hsub.
  - intros e e' k Hin Hin'. apply Hk; by apply Hsub.
  - intros e en Hin Hen Hv. eapply Hus; [done..|]. by eapply Hu; [apply Hsub|..].
Qed.

Lemma get_or_insert_ok c0 g k x :
  table_ok x → ic_ok c0 → guards x !! g = None → table_ok (get_or_insert c0 g k x).2.
Proof.
  intros Hx Hc0 Hg. pose proof Hx as [Hnd He Hgs Hk Hc Hu]. unfold get_or_insert. destruct (find k x) as [e|] eqn:Ef; simpl.
  - apply find_some in Ef as [Hin _]. apply (table_fewer x); [done|done|done| |].
    + intros g' e' [[_ <-]|[_ Hg']]%lookup_insert_Some; [by apply He|by eapply Hgs].
    + intros e' en _ _ _ [g' Hg']. exists g'. rewrite lookup_insert_ne; [done|]. intros <-. congruence.
  - set (e := fresh (dom (heap x))). assert (heap x !! e = None) as Hn by (apply not_elem_of_dom, is_fresh).
    assert (e ∉ entries x) as Hni by (intros [? ?]%He; congruence).
    assert (∀ e', e' ∈ entries x → key_of (mkTable (<[e:=mkEntry k c0]> (heap x)) (e :: entries x) (<[g:=e]> (guards x))) e' = key_of x e') as Hkey.
    { intros e' Hin. unfold key_of. simpl. rewrite lookup_insert_ne; [done|]. intros <-. done. }
    split; simpl.
    + by apply NoDup_cons.
    + intros e' [->|Hin]%elem_of_cons; [rewrite lookup_insert_eq; by eexists|]. rewrite lookup_insert_is_Some'. auto.
    + intros g' e' [[_ <-]|[_ Hg']]%lookup_insert_Some; rewrite lookup_insert_is_Some'; eauto.
    + assert (∀ e', e' ∈ entries x → key_of x e' ≠ Some k) as Hnk by (intros; by apply find_none).
      intros e1 e2 k' H1 H2 K1 K2. apply elem_of_cons in H1 as [->|H1]; apply elem_of_cons in H2 as [->|H2]; [done|..].
      * unfold key_of in K1. simpl in K1. rewrite lookup_insert_eq in K1. injection K1 as <-. rewrite Hkey in K2 by done. by destruct (Hnk e2).
      * unfold key_of in K2. simpl in K2. rewrite lookup_insert_eq in K2. injection K2 as <-. rewrite Hkey in K1 by done. by destruct (Hnk e1).
      * rewrite Hkey in K1, K2 by done. by eapply Hk.
    + intros e' en [[_ <-]|[_ Hen]]%lookup_insert_Some; [done|by eapply Hc].
    + intros e' en Hin [[<- <-]|[Hne Hen]]%lookup_insert_Some Hv; [exists g; apply lookup_insert_eq|].
      apply elem_of_cons in Hin as [->|Hin]; [done|]. destruct (Hu e' en Hin Hen Hv) as [g' Hg']. exists g'. simpl.
      rewrite lookup_insert_ne; [done|]. intros <-. congruence.
Qed.

(** A removal from the table. *)
Lemma remove_if_current_ok e x : table_ok x → table_ok (remove_if_current e x).
Proof.
  intros Hx. pose proof Hx as [Hnd He Hgs Hk Hc Hu]. apply (table_fewer x); [done|by apply NoDup_filter| |done|by intros].
  intros e' [_ Hin]%list_elem_of_filter. done.
Qed.

Lemma filter_one (e : nat) (l : list nat) : NoDup l → e ∈ l → length (filter (λ e', e' = e) l) = 1%nat.
Proof.
  intros Hnd (l1 & l2 & ->)%list_elem_of_split. apply NoDup_middle in Hnd as (H1 & H2 & _).
  assert (∀ l : list nat, e ∉ l → filter (λ e', e' = e) l = []) as Hnil.
  { clear. induction l as [|a l IH]; intros Hl; [done|]. apply not_elem_of_cons in Hl as [Hne Hl].
    rewrite filter_cons_False by congruence. by apply IH. }
  rewrite filter_app, filter_cons_True by done. by rewrite !Hnil.
Qed.

(** Another caller of an entry that is not counted twice. *)
Lemma strong_count_other g e x :
  table_ok x → e ∈ entries x → guards x !! g = Some e → strong_count e x ≠ 2%nat → ∃ g', g' ≠ g ∧ guards x !! g' = Some e.
Proof.
  intros [Hnd _ _ _ _ _] Hin Hg Hne. unfold strong_count in Hne. rewrite filter_one in Hne by done.
  set (F := filter (λ p : nat * nat, p.2 = e) (guards x)) in *.
  assert (F !! g = Some e) as HF by (by apply map_lookup_filter_Some).
  pose proof (map_size_pos _ _ _ HF). destruct (map_choose (delete g F)) as (g' & e' & Hg').
  { intros Hempty. assert (size (delete g F) = 0%nat) as Hz by (rewrite Hempty; apply map_size_empty).
    rewrite map_size_delete_Some in Hz by eauto. lia. }
  apply lookup_delete_Some in Hg' as [Hne' Hg']. apply map_lookup_filter_Some in Hg' as [Hg' Ee]. simpl in Ee. subst e'.
  exists g'. by split.
Qed.

(** No other caller of an entry that is counted twice. *)
Lemma strong_count_last g g' e x :
  table_ok x → e ∈ entries x → strong_count e x = 2%nat → guards x !! g = Some e → guards x !! g' = Some e → g' = g.
Proof.
  intros [Hnd _ _ _ _ _] Hin Hs Hg Hg'. unfold strong_count in Hs. rewrite filter_one in Hs by done.
  set (F := filter (λ p : nat * nat, p.2 = e) (guards x)) in *.
  assert (F !! g = Some e) as HF by (by apply map_lookup_filter_Some).
  assert (F !! g' = Some e) as HF' by (by apply map_lookup_filter_Some).
  destruct (decide (g' = g)) as [|Hne]; [done|]. exfalso.
  pose proof (map_size_pos (delete g F) g' e ltac:(by rewrite lookup_delete_ne)) as Hp.
  rewrite map_size_delete_Some in Hp by eauto. lia.
Qed.

Lemma find_iff k e x : table_ok x → find k x = Some e ↔ e ∈ entries x ∧ key_of x e = Some k.
Proof.
  intros Hx. split; [apply find_some|]. intros [Hin Hk]. destruct (find k x) as [e'|] eqn:Ef.
  - apply find_some in Ef as [Hin' Hk']. f_equal. by eapply tb_keys.
  - by destruct (find_none k x e Ef Hin).
Qed.

Lemma cleanup_ok g e en b x :
  table_ok x → guards x !! g = Some e → heap x !! e = Some en → b = bool_decide (is_Some (ic_value (V:=V) (cell en))) →
  table_ok (cleanup_abandoned_entry g e b x).
Proof.
  intros Hx Hg Hen ->. pose proof Hx as [Hnd He Hgs Hk Hc Hu].
  assert (∀ g' e', delete g (guards x) !! g' = Some e' → is_Some (heap x !! e')) as Hsub.
  { intros g' e' [_ Hg']%lookup_delete_Some. by eapply Hgs. }
  assert (∀ e', e' ≠ e → used e' x → ∃ g', delete g (guards x) !! g' = Some e') as Hoth.
  { intros e' Hne [g' Hg']. exists g'. rewrite lookup_delete_ne; [done|]. intros <-. congruence. }
  unfold cleanup_abandoned_entry. case_bool_decide as Hin; [destruct (bool_decide (strong_count e x = 2%nat) && _) eqn:Eb|].
  - unfold remove_if_current. apply (table_fewer x); simpl; [done|by apply NoDup_filter| |exact Hsub|].
    + intros e' [_ ?]%list_elem_of_filter. done.
    + intros e' en' [Hne _]%list_elem_of_filter _ _. by apply Hoth.
  - apply (table_fewer x); [done..|]. intros e' en' Hin' Hen' Hv Hus. destruct (decide (e' = e)) as [->|Hne]; [|by apply Hoth].
    rewrite Hen in Hen'. injection Hen' as <-. rewrite Hv in Eb. rewrite (bool_decide_eq_false_2 (is_Some None)) in Eb by (by intros []).
    rewrite andb_true_r in Eb. apply bool_decide_eq_false in Eb.
    destruct (strong_count_other g e x Hx Hin Hg Eb) as (g' & Hne & Hg'). exists g'. by rewrite lookup_delete_ne.
  - apply (table_fewer x); [done..|]. intros e' en' Hin' _ _. apply Hoth. by intros ->.
Qed.

Lemma dismiss_ok g e en x :
  table_ok x → guards x !! g = Some e → heap x !! e = Some en → is_Some (ic_value (V:=V) (cell en)) → table_ok (dismiss g x).
Proof.
  intros Hx Hg Hen [v Hv]. pose proof Hx as [Hnd He Hgs Hk Hc Hu]. apply (table_fewer x); [done..| |].
  - intros g' e' [_ Hg']%lookup_delete_Some. by eapply Hgs.
  - intros e' en' _ Hen' Hv' [g' Hg']. exists g'. rewrite lookup_delete_ne; [done|]. intros <-. congruence.
Qed.

(** A cell moves on; a value that is there stays. *)
Lemma set_cell_ok e en c x :
  table_ok x → heap x !! e = Some en → ic_ok c → (∀ v, ic_value (cell en) = Some v → ic_value c = Some v) →
  table_ok (set_cell e c x).
Proof.
  intros Hx Hen Hc Hv. pose proof Hx as [Hnd He Hgs Hk Hcs Hu]. unfold set_cell. rewrite Hen.
  assert (∀ e', key_of (set_heap (<[e:=mkEntry (key en) c]> (heap x)) x) e' = key_of x e') as Hkey.
  { intros e'. unfold key_of. simpl. destruct (decide (e' = e)) as [->|]; [by rewrite lookup_insert_eq, Hen|by rewrite lookup_insert_ne]. }
  split; simpl; try done.
  - intros e' Hin. rewrite lookup_insert_is_Some'. auto.
  - intros g e' Hg. rewrite lookup_insert_is_Some'. eauto.
  - intros e1 e2 k H1 H2. rewrite !Hkey. by apply Hk.
  - intros e' en' [[_ <-]|[_ Hen']]%lookup_insert_Some; [done|by eapply Hcs].
  - intros e' en' Hin [[<- <-]|[Hne Hen']]%lookup_insert_Some Hv'; [|by eapply Hu].
    eapply (Hu e en); [done..|]. simpl in Hv'. destruct (ic_value (cell en)) as [v|] eqn:Ev; [|done]. by rewrite (Hv v) in Hv'.
Qed.

(** ** Values and keys across steps *)
Implicit Types (t : Table K C) (v : V).

(** [OnceCell::get] and [OnceCell::initialized] of an entry. *)
Definition entry_value e t : option V := heap t !! e ≫= λ en, ic_value (cell en).
Definition initialized e t : bool := bool_decide (is_Some (entry_value e t)).

(** What every step keeps: the values of the entries and their keys. *)
Definition grows t t' : Prop :=
  (∀ e v, entry_value e t = Some v → entry_value e t' = Some v) ∧ (∀ e k, key_of t e = Some k → key_of t' e = Some k).

Lemma grows_heap t t' : heap t' = heap t → grows t t'.
Proof. intros E. unfold grows, entry_value, key_of. by rewrite E. Qed.

Lemma grows_insert t t' e en : heap t' = <[e:=en]> (heap t) → heap t !! e = None → grows t t'.
Proof.
  intros E Hn. unfold grows, entry_value, key_of. rewrite E. split; intros e' u Hu; (rewrite lookup_insert_ne; [done|]);
    intros <-; by rewrite Hn in Hu.
Qed.

Lemma grows_cell t e en c :
  heap t !! e = Some en → (∀ v, ic_value (cell en) = Some v → ic_value c = Some v) → grows t (set_cell e c t).
Proof.
  intros Hen Hv. unfold grows, entry_value, key_of, set_cell. rewrite Hen. simpl.
  split; intros e' u Hu; (destruct (decide (e' = e)) as [->|Hne]; [rewrite lookup_insert_eq; rewrite Hen in Hu; simpl in *; auto|by rewrite lookup_insert_ne]).
Qed.

Lemma get_or_insert_grows c0 g k t : grows t (get_or_insert c0 g k t).2.
Proof.
  unfold get_or_insert. destruct (find k t) as [e|]; simpl; [by apply grows_heap|].
  eapply grows_insert; [reflexivity|]. apply not_elem_of_dom, is_fresh.
Qed.

(** A caller leaves, or arrives. *)
Lemma phases_delete {A : Type} (p : gmap nat A) (gs gs' : gmap nat nat) g :
  (∀ j, is_Some (p !! j) ↔ is_Some (gs !! j)) → gs' = delete g gs → ∀ j, is_Some (delete g p !! j) ↔ is_Some (gs' !! j).
Proof. intros H -> j. destruct (decide (j = g)) as [->|]; [rewrite !lookup_delete_eq; split; by intros []|by rewrite !lookup_delete_ne]. Qed.
Lemma phases_insert {A : Type} (p : gmap nat A) (gs gs' : gmap nat nat) g (a : A) e :
  (∀ j, is_Some (p !! j) ↔ is_Some (gs !! j)) → gs' = <[g:=e]> gs → ∀ j, is_Some (<[g:=a]> p !! j) ↔ is_Some (gs' !! j).
Proof. intros H -> j. destruct (decide (j = g)) as [->|]; [rewrite !lookup_insert_eq; split; by eexists|by rewrite !lookup_insert_ne]. Qed.

Lemma cleanup_guards g e b t : guards (cleanup_abandoned_entry g e b t) = delete g (guards t) ∧ heap (cleanup_abandoned_entry g e b t) = heap t.
Proof. unfold cleanup_abandoned_entry. by repeat case_match. Qed.

Lemma remove_entry_ok k t : table_ok t → table_ok (remove_entry k t).2 ∧ heap (remove_entry k t).2 = heap t ∧ guards (remove_entry k t).2 = guards t.
Proof. intros Ht. unfold remove_entry. destruct (find k t) as [e|]; simpl; [|done]. split_and!; [by apply remove_if_current_ok|done|done]. Qed.

Lemma entry_value_spec e en t : heap t !! e = Some en → entry_value e t = ic_value (cell en).
Proof. intros H. unfold entry_value. by rewrite H. Qed.
End table.
