(* ===== verification/OnceMap.v ===== *)
(** * The once map

    [asyncband/src/once/once_map/mod.rs]: at most one computation per key, whose callers share an
    entry of the table of EntryTable.  The cells are any instance of [InitCell]; the computations
    are the environment. *)
From S2P Require Import Prelude PermitPool OnceCell EntryTable.

(** A call of [compute] or [try_compute]: it found its entry; it holds the cleanup guard and uses the
    cell. *)
Inductive Phase : Type :=
| Found
| Computing.

(** [answers] are the values given to callers, with the entry they come from. *)
Record OnceMap (K C V : Type) : Type := mkMap {
  table : Table K C;
  phases : gmap nat Phase;
  answers : list (nat * V);
}.
Arguments mkMap {K C V}.
Arguments table {K C V}.
Arguments phases {K C V}.
Arguments answers {K C V}.

Section once_map.
Context {K C V : Type} `{!EqDecision K} `{!InitCell C V}.
(** [OnceCell::new] and [OnceCell::from_value]. *)
Context (cell_new : C) (cell_from_value : V → C).
Context (cell_new_ok : ic_ok cell_new).
Context (cell_from_ok : ∀ v, ic_ok (cell_from_value v) ∧ ic_value (cell_from_value v) = Some v).
Implicit Types (x : OnceMap K C V) (t : Table K C) (g e : nat) (k : K) (v : V).

Definition new : OnceMap K C V := mkMap (mkTable ∅ [] ∅) ∅ [].

(** [get_or_insert] under the lock, *)
Definition lookup_entry g k x x' : Prop :=
  phases x !! g = None ∧ x' = mkMap (get_or_insert cell_new g k (table x)).2 (<[g:=Found]> (phases x)) (answers x).
(** and [classify]. *)
Definition classify g x x' : Prop :=
  ∃ e, phases x !! g = Some Found ∧ guards (table x) !! g = Some e ∧
    x' = match entry_value e (table x) with
         | Some v => mkMap (dismiss g (table x)) (delete g (phases x)) (answers x ++ [(e, v)])
         | None => mkMap (table x) (<[g:=Computing]> (phases x)) (answers x)
         end.

(** A step of [get_or_init] or [get_or_try_init] on the cell of the entry. *)
Definition compute_step g x x' : Prop :=
  ∃ e en c, phases x !! g = Some Computing ∧ guards (table x) !! g = Some e ∧ heap (table x) !! e = Some en ∧
    (ic_move g (cell en) c ∨ ∃ v, ic_fill g v (cell en) c) ∧ x' = mkMap (set_cell e c (table x)) (phases x) (answers x).

(** The call on the cell is over: with the value, which is cloned before the guard is dismissed, *)
Definition compute_done g x x' : Prop :=
  ∃ e en v, phases x !! g = Some Computing ∧ guards (table x) !! g = Some e ∧ heap (table x) !! e = Some en ∧
    ¬ ic_active g (cell en) ∧ entry_value e (table x) = Some v ∧
    x' = mkMap (dismiss g (table x)) (delete g (phases x)) (answers x ++ [(e, v)]).
(** or by an error or a cancellation, after which the guard is dropped. *)
Definition compute_abandon g x x' : Prop :=
  ∃ e en, phases x !! g = Some Computing ∧ guards (table x) !! g = Some e ∧ heap (table x) !! e = Some en ∧
    ¬ ic_active g (cell en) ∧
    x' = mkMap (cleanup_abandoned_entry g e (initialized e (table x)) (table x)) (delete g (phases x)) (answers x).

(** [get], through [get_value] and [find_entry]. *)
Definition get_value k x x' : Prop :=
  ∃ e v, find k (table x) = Some e ∧ entry_value e (table x) = Some v ∧
    x' = mkMap (table x) (phases x) (answers x ++ [(e, v)]).

(** [discard] and [remove]. *)
Definition discard k x x' : Prop := x' = mkMap (remove_entry k (table x)).2 (phases x) (answers x).
Definition remove k x x' : Prop :=
  x' = mkMap (remove_entry k (table x)).2 (phases x)
         (answers x ++ match (remove_entry k (table x)).1 with
                       | Some e => match entry_value e (table x) with Some v => [(e, v)] | None => [] end
                       | None => []
                       end).

(** [insert], with exclusive access. *)
Definition insert k v x x' : Prop :=
  phases x = ∅ ∧
  let t := (remove_entry k (table x)).2 in
  let e := fresh (dom (heap t)) in
  x' = mkMap (mkTable (<[e:=mkEntry k (cell_from_value v)]> (heap t)) (e :: entries t) (guards t)) (phases x) (answers x).

(** A step, with the key whose entry it removes or replaces, if any. *)
Inductive step : option K → OnceMap K C V → OnceMap K C V → Prop :=
| step_lookup g k x x' : lookup_entry g k x x' → step None x x'
| step_classify g x x' : classify g x x' → step None x x'
| step_compute g x x' : compute_step g x x' → step None x x'
| step_done g x x' : compute_done g x x' → step None x x'
| step_abandon g x x' : compute_abandon g x x' → step None x x'
| step_get k x x' : get_value k x x' → step None x x'
| step_discard k x x' : discard k x x' → step (Some k) x x'
| step_remove k x x' : remove k x x' → step (Some k) x x'
| step_insert k v x x' : insert k v x x' → step (Some k) x x'.

(** ** Invariant *)
Record map_ok x : Prop := {
  mp_table : table_ok (table x);
  mp_phases : ∀ g, is_Some (phases x !! g) ↔ is_Some (guards (table x) !! g);
  mp_answers : ∀ e v, (e, v) ∈ answers x → entry_value e (table x) = Some v;
}.

Lemma map_ok_step x x' :
  map_ok x → table_ok (table x') → grows (table x) (table x') →
  (∀ g, is_Some (phases x' !! g) ↔ is_Some (guards (table x') !! g)) →
  (∀ e v, (e, v) ∈ answers x' → (e, v) ∈ answers x ∨ entry_value e (table x) = Some v) → map_ok x'.
Proof.
  intros [Ht Hp Ha] Ht' [Hv _] Hp' Ha'. split; [done|done|]. intros e v [He|He]%Ha'; apply Hv; [by apply Ha|done].
Qed.

Lemma map_insert_ok k v x x' : map_ok x → insert k v x x' → map_ok x' ∧ grows (table x) (table x').
Proof.
  intros Hx (Hp & ->). destruct (remove_entry_ok k (table x) (mp_table _ Hx)) as (Ht & Eh & Eg).
  set (t := (remove_entry k (table x)).2) in *. set (e := fresh (dom (heap t))).
  assert (heap t !! e = None) as Hn by (apply not_elem_of_dom, is_fresh).
  assert (∀ e', e' ∈ entries t → key_of t e' ≠ Some k) as Hnk.
  { intros e' Hin Hk. subst t. unfold remove_entry in Hin, Hk. destruct (find k (table x)) as [e0|] eqn:Ef; simpl in *.
    - apply list_elem_of_filter in Hin as [Hne Hin]. apply find_some in Ef as [Hin0 Hk0]. by destruct Hne; apply (tb_keys _ (mp_table _ Hx) e' e0 k).
    - by eapply find_none. }
  pose proof Ht as [Hnd He Hgs Hk Hc Hu].
  assert (e ∉ entries t) as Hni by (intros [? ?]%He; congruence).
  assert (guards t = ∅) as Hge.
  { rewrite Eg. apply map_eq. intros g. rewrite lookup_empty. apply eq_None_not_Some. intros Hg%(mp_phases _ Hx). rewrite Hp in Hg. by destruct Hg. }
  set (t' := mkTable _ _ _).
  assert (∀ e', e' ∈ entries t → key_of t' e' = key_of t e') as Hkey.
  { intros e' Hin. unfold key_of. simpl. rewrite lookup_insert_ne; [done|]. intros <-. done. }
  assert (grows (table x) t') as Hgr.
  { destruct (grows_heap (table x) t Eh) as [G1 G2]. destruct (grows_insert t t' e _ eq_refl Hn) as [G3 G4]. split; auto. }
  split; [|done]. apply (map_ok_step x); simpl; [done| |done|by rewrite Eg; apply (mp_phases _ Hx)|auto].
  split; simpl.
  - by apply NoDup_cons.
  - intros e' [->|Hin]%elem_of_cons; [rewrite lookup_insert_eq; by eexists|]. rewrite lookup_insert_is_Some'. auto.
  - rewrite Hge. by intros g e' Hg%lookup_empty_Some.
  - intros e1 e2 k' H1 H2 K1 K2. apply elem_of_cons in H1 as [->|H1]; apply elem_of_cons in H2 as [->|H2]; [done|..].
    + unfold key_of in K1. simpl in K1. rewrite lookup_insert_eq in K1. injection K1 as <-. rewrite Hkey in K2 by done. by destruct (Hnk e2).
    + unfold key_of in K2. simpl in K2. rewrite lookup_insert_eq in K2. injection K2 as <-. rewrite Hkey in K1 by done. by destruct (Hnk e1).
    + rewrite Hkey in K1, K2 by done. by eapply Hk.
  - intros e' en [[_ <-]|[_ Hen]]%lookup_insert_Some; [by apply cell_from_ok|by eapply Hc].
  - intros e' en Hin [[<- <-]|[Hne Hen]]%lookup_insert_Some Hv; [|apply elem_of_cons in Hin as [->|Hin]; [done|by eapply Hu]].
    simpl in Hv. by rewrite (proj2 (cell_from_ok v)) in Hv.
Qed.

Lemma map_step_ok r x x' : map_ok x → step r x x' → map_ok x' ∧ grows (table x) (table x').
Proof.
  intros Hx Hs. pose proof Hx as [Ht Hp Ha].
  destruct Hs as [g k x x' (Hn & ->)|g x x' (e & Hf & Hg & ->)|g x x' (e & en & c & Hf & Hg & Hen & Hm & ->)|g x x' (e & en & v & Hf & Hg & Hen & _ & Hv & ->)
    |g x x' (e & en & Hf & Hg & Hen & _ & ->)|k x x' (e & v & Hf & Hv & ->)|k x x' ->|k x x' ->|k v x x' H].
  - assert (guards (table x) !! g = None) as Hgn by (apply eq_None_not_Some; intros H%Hp; by rewrite Hn in H; destruct H).
    pose proof (get_or_insert_grows cell_new g k (table x)) as Hgr. split; [|done]. apply (map_ok_step x); simpl; [done| |done| |auto].
    + by apply get_or_insert_ok.
    + unfold get_or_insert. destruct (find k (table x)); simpl; by eapply phases_insert.
  - destruct (entry_value e (table x)) as [v|] eqn:Ev.
    + destruct (tb_guards _ Ht g e Hg) as [en Hen]. pose proof (grows_heap (table x) (dismiss g (table x)) eq_refl) as Hgr.
      split; [|done]. apply (map_ok_step x); simpl; [done| |done|by eapply phases_delete|].
      * eapply dismiss_ok; [done..|]. rewrite (entry_value_spec _ _ _ Hen) in Ev. by rewrite Ev.
      * intros e' v' [?|[= -> ->]%list_elem_of_singleton]%elem_of_app; auto.
    + split; [|by apply grows_heap]. apply (map_ok_step x); simpl; [done|done|by apply grows_heap| |auto].
      intros j. destruct (decide (j = g)) as [->|]; [rewrite lookup_insert_eq, Hg; split; by eexists|by rewrite lookup_insert_ne].
  - assert (ic_ok c ∧ ∀ v, ic_value (cell en) = Some v → ic_value c = Some v) as [Hc Hv].
    { pose proof (tb_cells _ Ht e en Hen) as Hok. destruct Hm as [Hm|[w Hm]].
      - split; [by eapply ic_move_ok|]. intros v. by eapply ic_move_value.
      - split; [by eapply ic_fill_ok|]. intros v. by eapply ic_fill_value. }
    pose proof (grows_cell (table x) e en c Hen Hv) as Hgr. split; [|done].
    apply (map_ok_step x); simpl; [done|by eapply set_cell_ok|done| |auto]. unfold set_cell. by rewrite Hen.
  - pose proof (grows_heap (table x) (dismiss g (table x)) eq_refl) as Hgr. split; [|done].
    apply (map_ok_step x); simpl; [done| |done|by eapply phases_delete|].
    + eapply dismiss_ok; [done..|]. rewrite (entry_value_spec _ _ _ Hen) in Hv. by rewrite Hv.
    + intros e' v' [?|[= -> ->]%list_elem_of_singleton]%elem_of_app; auto.
  - destruct (cleanup_guards g e (initialized e (table x)) (table x)) as [Eg Eh].
    pose proof (grows_heap (table x) _ Eh) as Hgr. split; [|done]. apply (map_ok_step x); simpl; [done| |done|by eapply phases_delete|auto].
    eapply cleanup_ok; [done..|]. unfold initialized. by rewrite (entry_value_spec _ _ _ Hen).
  - split; [|by apply grows_heap]. apply (map_ok_step x); simpl; [done|done|by apply grows_heap|done|].
    intros e' v' [?|[= -> ->]%list_elem_of_singleton]%elem_of_app; auto.
  - destruct (remove_entry_ok k (table x) Ht) as (Ht' & Eh & Eg). pose proof (grows_heap (table x) _ Eh) as Hgr.
    split; [|done]. apply (map_ok_step x); simpl; [done|done|done|by rewrite Eg|auto].
  - destruct (remove_entry_ok k (table x) Ht) as (Ht' & Eh & Eg). pose proof (grows_heap (table x) _ Eh) as Hgr.
    split; [|done]. apply (map_ok_step x); simpl; [done|done|done|by rewrite Eg|].
    intros e' v' [?|Hin]%elem_of_app; [by left|right]. destruct (remove_entry k (table x)).1 as [e|]; [|set_solver].
    destruct (entry_value e (table x)) as [v|] eqn:Ev; [|set_solver]. by apply list_elem_of_singleton in Hin as [= -> ->].
  - by apply map_insert_ok in H.
Qed.

Lemma map_reachable_ok x : rtc (λ x x', ∃ r, step r x x') new x → map_ok x.
Proof.
  apply (rtc_ind_r map_ok); [|intros y z _ [r Hyz] Hy; by eapply map_step_ok].
  split; simpl; [|intros g; by rewrite !lookup_empty|set_solver].
  split; simpl; try set_solver. constructor.
Qed.

(** ** Theorems *)

(** C25: callers of a key share one computation: in every reachable state the table has at most one
    entry per key, every value given for an entry is the value of that entry, so that the callers
    that share it agree, an entry runs at most one initialiser, and an entry without a value is in
    the table only as long as a caller uses it, so that abandoned computations leave nothing behind. *)
Theorem once_map_shares x e e' k en i j :
  rtc (λ x x', ∃ r, step r x x') new x →
  (e ∈ entries (table x) → e' ∈ entries (table x) → key_of (table x) e = Some k → key_of (table x) e' = Some k → e = e') ∧
  (∀ v, (e, v) ∈ answers x → entry_value e (table x) = Some v) ∧
  (heap (table x) !! e = Some en → ic_running i (cell en) → ic_running j (cell en) → i = j) ∧
  (e ∈ entries (table x) → entry_value e (table x) = None → used e (table x)).
Proof.
  intros Hr. destruct (map_reachable_ok x Hr) as [Ht _ Ha]. split_and!.
  - apply (tb_keys _ Ht).
  - intros v. apply Ha.
  - intros Hen. apply ic_one. by eapply tb_cells.
  - intros Hin Hv. destruct (tb_entries _ Ht e Hin) as [en' Hen]. eapply tb_used; [done..|]. by rewrite <-(entry_value_spec e en' (table x) Hen).
Qed.

(** The entry of a key stays: a step that is not an explicit removal of the key leaves its entry
    in the table, so that later callers join it, unless the entry has no value and its last caller
    has just given up; a value, once there, is never taken back by computations. *)
Theorem once_map_keeps_entry x x' r k e :
  rtc (λ x x', ∃ r, step r x x') new x → step r x x' → find k (table x) = Some e → r ≠ Some k →
  (find k (table x') = Some e ∨ (entry_value e (table x) = None ∧ ¬ used e (table x'))) ∧
  (∀ v, entry_value e (table x) = Some v → entry_value e (table x') = Some v).
Proof.
  intros Hr Hs Hf Hne. pose proof (map_reachable_ok x Hr) as Hx. destruct (map_step_ok r x x' Hx Hs) as [Hx' [Hgv Hgk]].
  pose proof Hx as [Ht _ _]. split; [|intros v; apply Hgv]. rewrite find_iff in Hf by done. destruct Hf as [Hin Hk].
  assert (e ∈ entries (table x') ∨ (entry_value e (table x) = None ∧ ¬ used e (table x'))) as [Hin'|H]; [|left|by right].
  { clear Hx' Hgv Hgk.
    assert (∀ k', k' ≠ k → e ∈ entries (remove_entry k' (table x)).2) as Hrm.
    { intros k' Hk'. unfold remove_entry. destruct (find k' (table x)) as [e'|] eqn:Ef; simpl; [|done].
      apply find_some in Ef as [_ Ek']. apply list_elem_of_filter. split; [|done]. intros ->. congruence. }
    destruct Hs as [g k' x x' (Hn & ->)|g x x' (e' & Hf & Hg & ->)|g x x' (e' & en & c & Hf & Hg & Hen & Hm & ->)|g x x' (e' & en & v & Hf & Hg & Hen & _ & Hv & ->)
      |g x x' (e' & en & Hf & Hg & Hen & _ & ->)|k' x x' (e' & v & Hf & Hv & ->)|k' x x' ->|k' x x' ->|k' v x x' (Hph & ->)]; simpl.
    - left. unfold get_or_insert. destruct (find k' (table x)); simpl; set_solver.
    - left. by destruct (entry_value e' (table x)).
    - left. unfold set_cell. by rewrite Hen.
    - by left.
    - unfold cleanup_abandoned_entry. case_bool_decide as Hin'; [|by left].
      destruct (bool_decide (strong_count e' (table x) = 2%nat) && _) eqn:Eb; [|by left].
      destruct (decide (e = e')) as [<-|Hne']; [right|left; simpl; by apply list_elem_of_filter].
      apply andb_true_iff in Eb as [Hs%bool_decide_eq_true Hi]. split.
      + unfold initialized in Hi. case_bool_decide as Hv; [done|]. by apply eq_None_not_Some.
      + intros [g' Hg']. simpl in Hg'. apply lookup_delete_Some in Hg' as [Hg'' Hg'].
        by apply Hg''; symmetry; eapply (strong_count_last g g' e).
    - by left.
    - left. apply Hrm. congruence.
    - left. apply Hrm. congruence.
    - left. apply elem_of_cons. right. apply Hrm. congruence. }
  apply find_iff; [by apply mp_table|]. split; [done|by apply Hgk].
Qed.
End once_map.

(** Two callers of a key over once cells on counter pools. *)
Definition cell0 : OnceCell Z nat := once_cell_new 1.
Definition cell_of (v : nat) : OnceCell Z nat := once_cell_from_value 1 v.

Lemma cell0_ok : ic_ok cell0.
Proof. apply (once_cell_new_ok (1 : Z)); simpl; lia. Qed.
Lemma cell_of_ok v : ic_ok (cell_of v) ∧ ic_value (cell_of v) = Some v.
Proof.
  split; [|done]. split; simpl; [by eexists|lia|done|by intros i a Hi%lookup_empty_Some|set_solver|unfold insertions; simpl; lia].
Qed.

Definition two_callers : OnceMap nat (OnceCell Z nat) nat :=
  mkMap (get_or_insert cell0 1 5%nat (get_or_insert cell0 0 5%nat (mkTable ∅ [] ∅)).2).2 (<[1%nat:=Found]> (<[0%nat:=Found]> ∅)) [].

Lemma two_callers_reachable : rtc (λ x x', ∃ r, step cell0 cell_of r x x') new two_callers.
Proof.
  eapply rtc_l; [exists None; apply (step_lookup _ _ 0 5%nat); split; [done|reflexivity]|].
  eapply rtc_l; [exists None; apply (step_lookup _ _ 1 5%nat); split; [done|reflexivity]|]. apply rtc_refl.
Qed.

Lemma once_map_shares_witness : used 0 (table two_callers) ∧ find 5%nat (table two_callers) = Some 0%nat.
Proof.
  split; [|vm_compute; reflexivity].
  eapply (once_map_shares cell0 cell_of cell0_ok cell_of_ok two_callers 0 0 5%nat (mkEntry 5%nat cell0) 0 1); [apply two_callers_reachable| |done].
  apply (bool_decide_unpack _). vm_compute. exact I.
Defined.

(** One of the two callers is classified. *)
Lemma once_map_keeps_entry_witness :
  ∃ x', step cell0 cell_of None two_callers x' ∧
    (find 5%nat (table x') = Some 0%nat ∨ (entry_value 0 (table two_callers) = None ∧ ¬ used 0 (table x'))).
Proof.
  eexists. assert (step cell0 cell_of None two_callers (mkMap (table two_callers) (<[0%nat:=Computing]> (phases two_callers)) [])) as Hs.
  { apply (step_classify _ _ 0). exists 0%nat. by split_and!. }
  split; [exact Hs|].
  eapply (once_map_keeps_entry cell0 cell_of cell0_ok cell_of_ok two_callers _ None 5%nat 0); [apply two_callers_reachable|exact Hs|vm_compute; reflexivity|done].
Defined.
