(* ===== verification/Singleflight.v ===== *)
(** * Single flight

    [asyncband/src/singleflight/mod.rs]: concurrent callers of a key share one call of the work
    function.  The entries are those of EntryTable; an entry leaves the table before its value is
    stored, so that results are shared but not kept.  The work functions are the environment. *)
From S2P Require Import Prelude PermitPool OnceCell EntryTable.

(** A call of [work] or [try_work]: using the cell of its entry; between the removal of the entry by
    its work function, which returned [v], and the store of the value. *)
Inductive Phase (V : Type) : Type :=
| Working
| Removed (v : V).
Arguments Working {V}.
Arguments Removed {V} v.

Record Group (K C V : Type) : Type := mkGroup {
  table : Table K C;
  phases : gmap nat (Phase V);
  answers : list (nat * V);
}.
Arguments mkGroup {K C V}.
Arguments table {K C V}.
Arguments phases {K C V}.
Arguments answers {K C V}.

Section group.
Context {K C V : Type} `{!EqDecision K} `{!InitCell C V}.
Context (cell_new : C) (cell_new_ok : ic_ok cell_new) (cell_new_empty : ¬ ic_filled cell_new).
Implicit Types (x : Group K C V) (t : Table K C) (g e : nat) (k : K) (v : V).

Definition new : Group K C V := mkGroup (mkTable ∅ [] ∅) ∅ [].

Definition get_or_insert_step g k x x' : Prop :=
  phases x !! g = None ∧ x' = mkGroup (get_or_insert cell_new g k (table x)).2 (<[g:=Working]> (phases x)) (answers x).

(** A step of the call of the cell, up to or after the return of the closure. *)
Definition work_step g x x' : Prop :=
  ∃ e en c, phases x !! g = Some Working ∧ guards (table x) !! g = Some e ∧ heap (table x) !! e = Some en ∧
    ic_move g (cell en) c ∧ x' = mkGroup (set_cell e c (table x)) (phases x) (answers x).

(** The closure: the work function has returned, the entry is removed, *)
Definition work_returned g v x x' : Prop :=
  ∃ e en, phases x !! g = Some Working ∧ guards (table x) !! g = Some e ∧ heap (table x) !! e = Some en ∧
    ic_running g (cell en) ∧ x' = mkGroup (remove_if_current e (table x)) (<[g:=Removed v]> (phases x)) (answers x).
(** and the closure returns. *)
Definition closure_returned g x x' : Prop :=
  ∃ e en v c, phases x !! g = Some (Removed v) ∧ guards (table x) !! g = Some e ∧ heap (table x) !! e = Some en ∧
    ic_fill g v (cell en) c ∧ x' = mkGroup (set_cell e c (table x)) (<[g:=Working]> (phases x)) (answers x).

(** The call of the cell is over, with the value, *)
Definition work_done g x x' : Prop :=
  ∃ e en v, phases x !! g = Some Working ∧ guards (table x) !! g = Some e ∧ heap (table x) !! e = Some en ∧
    ¬ ic_active g (cell en) ∧ entry_value e (table x) = Some v ∧
    x' = mkGroup (dismiss g (table x)) (delete g (phases x)) (answers x ++ [(e, v)]).
(** or by an error or a cancellation. *)
Definition work_abandon g x x' : Prop :=
  ∃ e en, phases x !! g = Some Working ∧ guards (table x) !! g = Some e ∧ heap (table x) !! e = Some en ∧
    ¬ ic_active g (cell en) ∧
    x' = mkGroup (cleanup_abandoned_entry g e (initialized e (table x)) (table x)) (delete g (phases x)) (answers x).

Definition forget k x x' : Prop := x' = mkGroup (remove_entry k (table x)).2 (phases x) (answers x).

Inductive step : Group K C V → Group K C V → Prop :=
| step_lookup g k x x' : get_or_insert_step g k x x' → step x x'
| step_work g x x' : work_step g x x' → step x x'
| step_returned g v x x' : work_returned g v x x' → step x x'
| step_closure g x x' : closure_returned g x x' → step x x'
| step_done g x x' : work_done g x x' → step x x'
| step_abandon g x x' : work_abandon g x x' → step x x'
| step_forget k x x' : forget k x x' → step x x'.

(** ** Invariant *)
Definition filled_at e t : Prop := ∃ en, heap t !! e = Some en ∧ ic_filled (cell en).

Record flight_ok x : Prop := {
  fl_table : table_ok (table x);
  fl_phases : ∀ g, is_Some (phases x !! g) ↔ is_Some (guards (table x) !! g);
  fl_answers : ∀ e v, (e, v) ∈ answers x → entry_value e (table x) = Some v;
  (** An entry with a stored value, or about to get one, is no longer in the table. *)
  fl_fresh : ∀ e, e ∈ entries (table x) → ¬ filled_at e (table x);
  fl_removed : ∀ g v e, phases x !! g = Some (Removed v) → guards (table x) !! g = Some e → e ∉ entries (table x);
}.

Lemma flight_step_gen x x' :
  flight_ok x → table_ok (table x') → grows (table x) (table x') →
  (∀ g, is_Some (phases x' !! g) ↔ is_Some (guards (table x') !! g)) →
  (∀ e v, (e, v) ∈ answers x' → (e, v) ∈ answers x ∨ entry_value e (table x) = Some v) →
  (∀ e, e ∈ entries (table x') → ¬ filled_at e (table x')) →
  (∀ g v e, phases x' !! g = Some (Removed v) → guards (table x') !! g = Some e → e ∉ entries (table x')) → flight_ok x'.
Proof.
  intros [Ht Hp Ha _ _] Ht' [Hv _] Hp' Ha' Hf Hr. split; try done. intros e v [He|He]%Ha'; apply Hv; [by apply Ha|done].
Qed.

(** The table shrinks and a caller may leave. *)
Lemma flight_fewer x t p ans :
  flight_ok x → table_ok t → heap t = heap (table x) → (∀ e, e ∈ entries t → e ∈ entries (table x)) →
  (∀ g, is_Some (p !! g) ↔ is_Some (guards t !! g)) →
  (∀ e v, (e, v) ∈ ans → (e, v) ∈ answers x ∨ entry_value e (table x) = Some v) →
  (∀ g v e, p !! g = Some (Removed v) → guards t !! g = Some e → phases x !! g = Some (Removed v) ∧ guards (table x) !! g = Some e ∨ e ∉ entries t) →
  flight_ok (mkGroup t p ans).
Proof.
  intros Hx Ht Eh Hsub Hp Ha Hr. apply (flight_step_gen x); simpl; [done|done|by apply grows_heap|done|done|..].
  - intros e Hin%Hsub. unfold filled_at. rewrite Eh. by apply (fl_fresh _ Hx).
  - intros g v e Hg He. destruct (Hr g v e Hg He) as [[H1 H2]|?]; [|done]. intros Hin%Hsub. by eapply fl_removed.
Qed.

(** A caller leaves with its guard. *)
Lemma flight_leave x t g e ans :
  flight_ok x → table_ok t → heap t = heap (table x) → (∀ e, e ∈ entries t → e ∈ entries (table x)) →
  guards t = delete g (guards (table x)) →
  (∀ e v, (e, v) ∈ ans → (e, v) ∈ answers x ∨ entry_value e (table x) = Some v) →
  guards (table x) !! g = Some e → flight_ok (mkGroup t (delete g (phases x)) ans).
Proof.
  intros Hx Ht Eh Hsub Eg Ha Hg. eapply (flight_fewer x); try done; [by eapply phases_delete; [apply Hx|]|].
  intros j v e' [_ Hj]%lookup_delete_Some Hj'. left. split; [done|]. rewrite Eg in Hj'. by apply lookup_delete_Some in Hj' as [_ ?].
Qed.

(** The cell of an entry moves on. *)
Lemma flight_cell x e en c p :
  flight_ok x → heap (table x) !! e = Some en → ic_ok c → (∀ v, ic_value (cell en) = Some v → ic_value c = Some v) →
  (e ∈ entries (table x) → ¬ ic_filled c) → (∀ g, is_Some (p !! g) ↔ is_Some (phases x !! g)) →
  (∀ g v, p !! g = Some (Removed v) → phases x !! g = Some (Removed v)) →
  flight_ok (mkGroup (set_cell e c (table x)) p (answers x)).
Proof.
  intros Hx Hen Hc Hv Hf Hp Hr. pose proof Hx as [Ht Hph Ha Hfr Hrm].
  assert (entries (set_cell e c (table x)) = entries (table x) ∧ guards (set_cell e c (table x)) = guards (table x)) as [Ee Eg]
    by (unfold set_cell; by rewrite Hen).
  apply (flight_step_gen x); simpl; [done|by eapply set_cell_ok|by eapply grows_cell|by intros; rewrite Eg, Hp|auto|..]; rewrite Ee.
  - intros e' Hin (en' & Hen' & Hfl). unfold set_cell in Hen'. rewrite Hen in Hen'. simpl in Hen'.
    apply lookup_insert_Some in Hen' as [[<- <-]|[_ Hen']]; [by apply Hf|]. apply (Hfr e' Hin). by exists en'.
  - intros g v e' Hg. rewrite Eg. by eapply Hrm, Hr.
Qed.

Lemma flight_step_ok x x' : flight_ok x → step x x' → flight_ok x'.
Proof.
  intros Hx Hs. pose proof Hx as [Ht Hp Ha Hfr Hrm].
  destruct Hs as [g k x x' (Hn & ->)|g x x' (e & en & c & Hf & Hg & Hen & Hm & ->)|g v x x' (e & en & Hf & Hg & Hen & Hrun & ->)
    |g x x' (e & en & v & c & Hf & Hg & Hen & Hm & ->)|g x x' (e & en & v & Hf & Hg & Hen & _ & Hv & ->)|g x x' (e & en & Hf & Hg & Hen & _ & ->)|k x x' ->].
  - assert (guards (table x) !! g = None) as Hgn by (apply eq_None_not_Some; intros H%Hp; by rewrite Hn in H; destruct H).
    apply (flight_step_gen x); simpl; [done|by apply get_or_insert_ok|apply get_or_insert_grows| |auto|..];
      unfold get_or_insert; destruct (find k (table x)) as [e|] eqn:Ef; simpl; try (by eapply phases_insert).
    + done.
    + set (e := fresh (dom (heap (table x)))). assert (heap (table x) !! e = None) as Hne by (apply not_elem_of_dom, is_fresh).
      intros e' [->|Hin]%elem_of_cons (en' & Hen' & Hfl); simpl in Hen'.
      * rewrite lookup_insert_eq in Hen'. injection Hen' as <-. done.
      * apply (Hfr e' Hin). exists en'. split; [|done]. apply lookup_insert_Some in Hen' as [[<- _]|[_ ?]]; [|done].
        apply (tb_entries _ Ht) in Hin as [? ?]. congruence.
    + intros g' v e' [[_ ?]|[Hne Hg']]%lookup_insert_Some; [done|]. rewrite lookup_insert_ne by done. by eapply Hrm.
    + intros g' v e' [[_ ?]|[Hne Hg']]%lookup_insert_Some; [done|]. rewrite lookup_insert_ne by done. intros He' Hin.
      apply elem_of_cons in Hin as [->|Hin]; [|by eapply Hrm]. apply (tb_guards _ Ht) in He' as [? He']. pose proof (is_fresh (dom (heap (table x)))) as Hfresh.
      apply Hfresh, elem_of_dom. by eexists.
  - pose proof (tb_cells _ Ht e en Hen) as Hok. destruct (ic_move_ok g _ _ Hok Hm) as [Hc Hfl].
    apply (flight_cell x e en); try done; [intros v; by eapply ic_move_value|]. intros Hin Hf'%Hfl. apply (Hfr e Hin). by exists en.
  - assert (table_ok (remove_if_current e (table x))) as Ht' by (by apply remove_if_current_ok).
    apply (flight_fewer x); try done; simpl.
    + by intros e' [_ ?]%list_elem_of_filter.
    + intros j. destruct (decide (j = g)) as [->|]; [rewrite lookup_insert_eq, Hg; split; by eexists|by rewrite lookup_insert_ne].
    + auto.
    + intros j w e' [[<- [= <-]]|[_ Hj]]%lookup_insert_Some Hj'; [|by left]. right. rewrite Hg in Hj'. injection Hj' as <-.
      by intros [? _]%list_elem_of_filter.
  - pose proof (tb_cells _ Ht e en Hen) as Hok. destruct (ic_fill_ok g _ _ _ Hok Hm) as [Hc _].
    apply (flight_cell x e en); try done; [intros w; by eapply ic_fill_value|intros Hin; by destruct (Hrm g v e)|..].
    + intros j. destruct (decide (j = g)) as [->|]; [rewrite lookup_insert_eq, Hf; split; by eexists|by rewrite lookup_insert_ne].
    + by intros j w [[_ ?]|[_ ?]]%lookup_insert_Some.
  - eapply (flight_leave x _ g e); try done.
    + eapply dismiss_ok; [done..|]. rewrite (entry_value_spec _ _ _ Hen) in Hv. by rewrite Hv.
    + intros e' v' [?|[= -> ->]%list_elem_of_singleton]%elem_of_app; auto.
  - destruct (cleanup_guards g e (initialized e (table x)) (table x)) as [Eg Eh]. eapply (flight_leave x _ g e); try done; [|auto..].
    + eapply cleanup_ok; [done..|]. unfold initialized. by rewrite (entry_value_spec _ _ _ Hen).
    + unfold cleanup_abandoned_entry. repeat case_match; simpl; try done. by intros e' [_ ?]%list_elem_of_filter.
  - destruct (remove_entry_ok k (table x) Ht) as (Ht' & Eh & Eg). apply (flight_fewer x); try done; [|by rewrite Eg|auto|rewrite Eg; auto].
    unfold remove_entry. destruct (find k (table x)); simpl; [|done]. by intros e' [_ ?]%list_elem_of_filter.
Qed.

Lemma flight_reachable_ok x : rtc step new x → flight_ok x.
Proof.
  apply (rtc_ind_r flight_ok); [|intros y z _ Hyz Hy; by eapply flight_step_ok].
  split; simpl; [|intros g; by rewrite !lookup_empty|set_solver|set_solver|by intros g v e Hg%lookup_empty_Some].
  split; simpl; try set_solver. constructor.
Qed.

(** C27: callers of a key share one flight and results are not kept: in every reachable state a key
    has at most one entry in the table, an entry in the table has no value and at least one caller,
    so that a call made after a flight starts a new one and abandoned flights leave nothing behind;
    an entry runs at most one work function at a time, and everybody who shares it gets the value
    it stored. *)
Theorem singleflight_shares x e e' k en i j :
  rtc step new x →
  (e ∈ entries (table x) → e' ∈ entries (table x) → key_of (table x) e = Some k → key_of (table x) e' = Some k → e = e') ∧
  (e ∈ entries (table x) → entry_value e (table x) = None ∧ used e (table x)) ∧
  (heap (table x) !! e = Some en → ic_running i (cell en) → ic_running j (cell en) → i = j) ∧
  (∀ v, (e, v) ∈ answers x → entry_value e (table x) = Some v).
Proof.
  intros Hr. destruct (flight_reachable_ok x Hr) as [Ht _ Ha Hfr _]. split_and!.
  - apply (tb_keys _ Ht).
  - intros Hin. destruct (tb_entries _ Ht e Hin) as [en' Hen]. assert (ic_value (V:=V) (cell en') = None) as Hv.
    { apply ic_empty; [by eapply tb_cells|]. intros Hf. apply (Hfr e Hin). by exists en'. }
    split; [by rewrite (entry_value_spec e en' _ Hen)|by eapply tb_used].
  - intros Hen. apply ic_one. by eapply tb_cells.
  - intros v. apply Ha.
Qed.
End group.

(** Two callers of a key over once cells. *)
Definition flight_cell0 : OnceCell Z nat := once_cell_new 1.

Lemma flight_cell0_ok : ic_ok flight_cell0 ∧ ¬ ic_filled flight_cell0.
Proof.
  split; [apply (once_cell_new_ok (1 : Z)); simpl; lia|]. intros [?|(i & k & Hi)]; [done|]. done.
Qed.

Definition joined_flight : Group nat (OnceCell Z nat) nat :=
  mkGroup (get_or_insert flight_cell0 1 5%nat (get_or_insert flight_cell0 0 5%nat (mkTable ∅ [] ∅)).2).2
    (<[1%nat:=Working]> (<[0%nat:=Working]> ∅)) [].

Lemma joined_flight_reachable : rtc (step flight_cell0) new joined_flight.
Proof.
  eapply rtc_l; [apply (step_lookup _ 0 5%nat); split; [done|reflexivity]|].
  eapply rtc_l; [apply (step_lookup _ 1 5%nat); split; [done|reflexivity]|]. apply rtc_refl.
Qed.

Lemma singleflight_shares_witness :
  find 5%nat (table joined_flight) = Some 0%nat ∧ entry_value 0 (table joined_flight) = None ∧ used 0 (table joined_flight).
Proof.
  split; [vm_compute; reflexivity|].
  eapply (singleflight_shares flight_cell0 (proj1 flight_cell0_ok) (proj2 flight_cell0_ok) joined_flight 0 0 5%nat (mkEntry 5%nat flight_cell0) 0 1);
    [apply joined_flight_reachable|]. apply (bool_decide_unpack _). vm_compute. exact I.
Defined.
