(* ===== verification/Parker.v ===== *)
(** * The blocking executor and its parker

    [asyncband/src/blocking/]: [block_on] and [wait_timeout] poll a future on the calling thread and
    park the thread while it is pending ([executor.rs]); the waker they hand out unparks the thread
    through an atomic state, a lock and a condition variable ([parker.rs]).  Every atomic access,
    acquisition and release of the lock, and sleep is a step of its own, taken by the parked thread or
    by one of any number of notifying threads; the condition variable may wake its sleeper for no
    reason, and time passes in steps of its own. *)
From S2P Require Import Prelude.

Definition EMPTY : Z := 0.
Definition PARKED : Z := 1.
Definition NOTIFIED : Z := 2.

(** Where the thread that polls is: inside [park] after its fast path, before and after the yield,
    before the lock, at the accesses made under the lock, in the condition variable. *)
Inductive Point : Type :=
| Idle
| Polling
| Fast (timeout : option Z)
| Yielded
| Locking (timeout : option Z)
| Publishing (timeout : option Z)
| Swapping
| Waiting (timeout : option Z)
| Sleeping (timeout : option Z)
| Relocking (timeout : option Z)
| Checking (timeout : option Z)
| Unlocking.

(** Where a thread that unparks is. *)
Inductive Notifier : Type :=
| Announcing
| Acquiring
| Releasing
| Signalling.

Inductive Holder : Type := ByThread | ByNotifier (k : nat).

#[export] Instance Point_eq_dec : EqDecision Point.
Proof. solve_decision. Defined.
#[export] Instance Notifier_eq_dec : EqDecision Notifier.
Proof. solve_decision. Defined.
#[export] Instance Holder_eq_dec : EqDecision Holder.
Proof. solve_decision. Defined.

Record Sys : Type := mkSys {
  state : Z;
  lock : option Holder;
  point : Point;
  notifiers : gmap nat Notifier;
  (** The deadline of the call, and the clock. *)
  deadline : option Z;
  now : Z;
}.

Definition set_state n x : Sys := mkSys n (lock x) (point x) (notifiers x) (deadline x) (now x).
Definition set_lock h x : Sys := mkSys (state x) h (point x) (notifiers x) (deadline x) (now x).
Definition set_point p x : Sys := mkSys (state x) (lock x) p (notifiers x) (deadline x) (now x).
Definition set_notifiers g x : Sys := mkSys (state x) (lock x) (point x) g (deadline x) (now x).
Definition set_deadline d x : Sys := mkSys (state x) (lock x) (point x) (notifiers x) d (now x).
Definition set_now t x : Sys := mkSys (state x) (lock x) (point x) (notifiers x) (deadline x) t.

Definition new (t : Z) : Sys := mkSys EMPTY None Idle ∅ None t.

(** [compare_exchange] and [swap] on the state. *)
Definition compare_exchange (current value : Z) : M Sys (result Z Z) :=
  x ← get;
  if bool_decide (state x = current) then put (set_state value x);; mret (Ok (state x)) else mret (Err (state x)).
Definition swap (value : Z) : M Sys Z := x ← get; put (set_state value x);; mret (state x).

Definition goto p : M Sys unit := modify (set_point p).

(** The next access of [ParkerState::park]; [Polling] is its return to the loop of the executor. *)
Definition park_step : M Sys unit :=
  x ← get;
  match point x with
  | Fast timeout =>
      r ← compare_exchange NOTIFIED EMPTY;
      match r with
      | Ok _ => goto Polling
      | Err _ =>
          if bool_decide (timeout = Some 0) then goto Polling
          else if bool_decide (timeout = None) then goto Yielded
          else goto (Locking timeout)
      end
  | Yielded =>
      r ← compare_exchange NOTIFIED EMPTY;
      match r with Ok _ => goto Polling | Err _ => goto (Locking None) end
  | Locking timeout => modify (set_lock (Some ByThread));; goto (Publishing timeout)
  | Publishing timeout =>
      r ← compare_exchange EMPTY PARKED;
      match r with
      | Ok _ => goto (Waiting timeout)
      | Err s => if bool_decide (s = NOTIFIED) then goto Swapping else panic "inconsistent park state"
      end
  | Swapping =>
      previous ← swap EMPTY;
      assert_true (bool_decide (previous = NOTIFIED)) "park state changed unexpectedly";;
      goto Unlocking
  | Waiting timeout => modify (set_lock None);; goto (Sleeping timeout)
  | Relocking timeout => modify (set_lock (Some ByThread));; goto (Checking timeout)
  | Checking None =>
      r ← compare_exchange NOTIFIED EMPTY;
      match r with Ok _ => goto Unlocking | Err _ => goto (Waiting None) end
  | Checking (Some _) =>
      s ← swap EMPTY;
      if bool_decide (s = NOTIFIED ∨ s = PARKED) then goto Unlocking else panic "inconsistent timed park state"
  | Unlocking => modify (set_lock None);; goto Polling
  | Idle | Polling | Sleeping _ => panic "not a step of park"
  end.

(** The next access of [ParkerState::unpark] by the notifier [k]. *)
Definition unpark_step (k : nat) : M Sys unit :=
  x ← get;
  n ← expect (notifiers x !! k) "no such notifier";
  match n with
  | Announcing =>
      previous ← swap NOTIFIED;
      if bool_decide (previous = EMPTY ∨ previous = NOTIFIED) then modify (set_notifiers (delete k (notifiers x)))
      else if bool_decide (previous = PARKED) then modify (set_notifiers (<[k:=Acquiring]> (notifiers x)))
      else panic "inconsistent unpark state"
  | Acquiring => modify (set_lock (Some (ByNotifier k)));; modify (set_notifiers (<[k:=Releasing]> (notifiers x)))
  | Releasing => modify (set_lock None);; modify (set_notifiers (<[k:=Signalling]> (notifiers x)))
  | Signalling =>
      modify (set_notifiers (delete k (notifiers x)));;
      match point x with
      | Sleeping timeout => goto (Relocking timeout)
      | _ => mret tt
      end
  end.

(** ** The executor *)
Inductive Outcome : Type := Output | TimedOut.

(** The latest instant of the clock is [instant_max]. *)
Section executor.
Context (instant_max : Z).
Implicit Types x : Sys.

(** [wait_timeout]: the deadline, unless it is out of range; [block_on] has none. *)
Definition start (timeout : option Z) : M Sys unit :=
  x ← get;
  put (set_point Polling (set_deadline (timeout ≫= λ t, checked_add instant_max (now x) t) x)).

(** A poll returns [Ready] and the call its output, or [Pending] and the thread parks for what is
    left of its time. *)
Definition poll_returns (ready : bool) : M Sys (option Outcome) :=
  x ← get;
  if ready then goto Idle;; mret (Some Output)
  else
    match deadline x with
    | None => goto (Fast None);; mret None
    | Some d =>
        if bool_decide (d <= now x) then goto Idle;; mret (Some TimedOut)
        else goto (Fast (Some (saturating_sub d (now x))));; mret None
    end.

Inductive Label : Type :=
| Start (timeout : option Z)
| PollReturns (ready : bool)
| ParkStep
| Wakes
| Unpark (k : nat)
| UnparkStep (k : nat)
| Tick (t : Z).

(** The lock must be free for the steps that take it. *)
Definition enabled (l : Label) x : bool :=
  match l with
  | Start timeout => bool_decide (point x = Idle) && bool_decide (0 <= default 0 timeout)
  | PollReturns _ => bool_decide (point x = Polling)
  | ParkStep =>
      match point x with
      | Idle | Polling | Sleeping _ => false
      | Locking _ | Relocking _ => bool_decide (lock x = None)
      | _ => true
      end
  | Wakes => match point x with Sleeping _ => true | _ => false end
  | Unpark k => bool_decide (notifiers x !! k = None)
  | UnparkStep k =>
      match notifiers x !! k with
      | None => false
      | Some Acquiring => bool_decide (lock x = None)
      | Some _ => true
      end
  | Tick t => bool_decide (now x <= t <= instant_max)
  end.

(** [Wakes] is the end of a sleep for no reason or by its timeout. *)
Definition exec (l : Label) : M Sys (option Outcome) :=
  match l with
  | Start timeout => start timeout;; mret None
  | PollReturns ready => poll_returns ready
  | ParkStep => park_step;; mret None
  | Wakes =>
      x ← get;
      match point x with
      | Sleeping timeout => goto (Relocking timeout);; mret None
      | _ => mret None
      end
  | Unpark k => modify (λ x, set_notifiers (<[k:=Announcing]> (notifiers x)) x);; mret None
  | UnparkStep k => unpark_step k;; mret None
  | Tick t => modify (set_now t);; mret None
  end.
End executor.

(** ** Invariant *)
Section invariant.
Implicit Types (x : Sys) (p : Point) (k : nat).

(** The thread has published that it is parked. *)
Definition published p : bool :=
  match p with Waiting _ | Sleeping _ | Relocking _ | Checking _ => true | _ => false end.
Definition holds_lock p : bool :=
  match p with Publishing _ | Swapping | Waiting _ | Checking _ | Unlocking => true | _ => false end.

Record parker_ok x : Prop := {
  po_state : state x = NOTIFIED ∨ state x = if published (point x) then PARKED else EMPTY;
  po_swap : point x = Swapping → state x = NOTIFIED;
  po_thread : lock x = Some ByThread ↔ holds_lock (point x) = true;
  po_notifier : ∀ k, lock x = Some (ByNotifier k) ↔ notifiers x !! k = Some Releasing;
  (** A notification that finds the thread parked is on its way to it. *)
  po_waiting : ∀ t, point x = Waiting t → state x = NOTIFIED → ∃ k, notifiers x !! k = Some Acquiring;
  po_sleeping : ∀ t, point x = Sleeping t → state x = NOTIFIED → ∃ k n, notifiers x !! k = Some n ∧ n ≠ Announcing;
}.

Definition in_park p : bool := match p with Idle | Polling => false | _ => true end.

(** The thread is to poll again: a notification is stored, or has been consumed. *)
Definition due x : Prop := in_park (point x) = true ∧ (state x = NOTIFIED ∨ point x = Unlocking).

Definition point_rank p : Z :=
  match p with
  | Idle | Polling => 0
  | Unlocking => 1
  | Swapping | Checking _ => 2
  | Relocking _ => 3
  | Sleeping _ => 4
  | Waiting _ => 5
  | Publishing _ => 6
  | Locking _ => 7
  | Yielded => 8
  | Fast _ => 9
  end.
Definition notifier_rank (n : Notifier) : Z :=
  match n with Announcing => 4 | Acquiring => 3 | Releasing => 2 | Signalling => 1 end.
Definition measure x : Z := point_rank (point x) + map_sum notifier_rank (notifiers x).

(** The steps of the threads already at work. *)
Definition own (l : Label) : bool := match l with ParkStep | Wakes | UnparkStep _ => true | _ => false end.

Definition step_effect (l : Label) x x' : Prop :=
  parker_ok x' ∧ (own l = true → due x → point x' = Polling ∨ (due x' ∧ measure x' < measure x)).

(** Steps of the thread.  The other fields follow from the points before and after. *)
Lemma thread_ok x st' lk p' :
  parker_ok x →
  (st' = NOTIFIED ∨ st' = if published p' then PARKED else EMPTY) → (p' = Swapping → st' = NOTIFIED) →
  (lk = Some ByThread ↔ holds_lock p' = true) → (∀ k, lk = Some (ByNotifier k) ↔ lock x = Some (ByNotifier k)) →
  (∀ t, p' = Waiting t → st' ≠ NOTIFIED) → (∀ t, p' = Sleeping t → point x = Waiting t ∧ st' = state x) →
  parker_ok (mkSys st' lk p' (notifiers x) (deadline x) (now x)).
Proof.
  intros [H1 H2 H3 H4 H5 H6] Hs Hsw Hl Hk Hw Hsl. split; simpl; try done.
  - intros k. by rewrite Hk, H4.
  - intros t Ht Hn. by destruct (Hw t Ht).
  - intros t Ht Hn. destruct (Hsl t Ht) as [Hp ->]. destruct (H5 t Hp Hn) as [k Hk']. by exists k, Acquiring.
Qed.

(** Closes the side conditions of [thread_ok] and the account of a step of the thread. *)
Ltac thread_step x Ep :=
  split;
  [ match goal with |- parker_ok ?y => apply (thread_ok x (state y) (lock y) (point y)) end; simpl; try done;
    try (intros; congruence); try (rewrite Ep; naive_solver); try (unfold EMPTY, PARKED, NOTIFIED in *; naive_solver)
  | intros _ [_ Hdue]; rewrite Ep in Hdue; unfold due, measure; simpl; rewrite ?Ep; simpl;
    try (by left); try (right; split; [split; [done|naive_solver]|lia]); try (exfalso; unfold EMPTY, PARKED, NOTIFIED in *; destruct Hdue; congruence) ].

Lemma wp_cas current value x Q :
  (state x = current → Q (Ok current) (set_state value x)) → (state x ≠ current → Q (Err (state x)) x) →
  wp (compare_exchange current value) x Q.
Proof. intros H1 H2. unfold compare_exchange. wp_auto. case_bool_decide as Es; wp_auto; [|auto]. rewrite Es. auto. Qed.

Lemma wp_swap value x Q : Q (state x) (set_state value x) → wp (swap value) x Q.
Proof. intros H. unfold swap. by wp_auto. Qed.

Lemma park_step_ok x :
  parker_ok x → enabled 0 ParkStep x = true → wp park_step x (λ _ x', step_effect ParkStep x x').
Proof.
  intros Hx He. pose proof Hx as [H1 H2 H3 H4 H5 H6]. unfold park_step, goto. wp_auto. simpl in He.
  destruct (point x) as [| |t| |t|t| |t|t|t|t|] eqn:Ep; try done; simpl in *; wp_auto.
  - apply wp_cas; intros Es; wp_auto; [thread_step x Ep|]. case_bool_decide; wp_auto; [thread_step x Ep|].
    case_bool_decide; wp_auto; thread_step x Ep.
  - apply wp_cas; intros Es; wp_auto; thread_step x Ep.
  - apply bool_decide_eq_true in He. thread_step x Ep.
  - apply wp_cas; intros Es; wp_auto; [thread_step x Ep|]. destruct H1 as [H1|H1]; [|done]. rewrite H1. simpl. wp_auto. thread_step x Ep.
  - apply wp_swap. wp_auto. apply wp_assert; [by rewrite H2|]. wp_auto. thread_step x Ep.
  - thread_step x Ep.
  - apply bool_decide_eq_true in He. thread_step x Ep.
  - destruct t as [t|]; wp_auto.
    + apply wp_swap. wp_auto. rewrite bool_decide_eq_true_2 by naive_solver. wp_auto. thread_step x Ep.
    + apply wp_cas; intros Es; wp_auto; thread_step x Ep.
  - thread_step x Ep.
Qed.

(** Steps of the others. *)
Lemma others_ok x st' lk p' g d t :
  parker_ok x → st' = state x ∨ st' = NOTIFIED → p' = point x ∨ (∃ t, point x = Sleeping t ∧ p' = Relocking t) →
  (lk = Some ByThread ↔ lock x = Some ByThread) → (∀ k, lk = Some (ByNotifier k) ↔ g !! k = Some Releasing) →
  (∀ t, p' = Waiting t → st' = NOTIFIED → ∃ k, g !! k = Some Acquiring) →
  (∀ t, p' = Sleeping t → st' = NOTIFIED → ∃ k n, g !! k = Some n ∧ n ≠ Announcing) →
  parker_ok (mkSys st' lk p' g d t).
Proof.
  intros [H1 H2 H3 H4 H5 H6] Hs Hp Hl Hk Hw Hsl.
  assert (published p' = published (point x) ∧ holds_lock p' = holds_lock (point x) ∧ (p' = Swapping → point x = Swapping)) as (E1 & E2 & E3).
  { destruct Hp as [-> |(t' & Ep & ->)]; [done|]. by rewrite Ep. }
  split; simpl; try done; [rewrite E1; naive_solver|naive_solver|by rewrite E2, Hl].
Qed.

(** The account of a step of a notifier. *)
Lemma notifier_due x k n g p' st' lk d t :
  notifiers x !! k = Some n →
  g = delete k (notifiers x) ∨ (∃ n', g = <[k:=n']> (notifiers x) ∧ notifier_rank n' < notifier_rank n) →
  st' = state x ∨ st' = NOTIFIED → p' = point x ∨ (∃ t, point x = Sleeping t ∧ p' = Relocking t) →
  due x → due (mkSys st' lk p' g d t) ∧ measure (mkSys st' lk p' g d t) < measure x.
Proof.
  intros Hk Hg Hs Hp [Hip Hd]. assert (in_park p' = true ∧ point_rank p' <= point_rank (point x) ∧ (point x = Unlocking → p' = Unlocking)) as (E1 & E2 & E3).
  { destruct Hp as [-> |(t' & Ep & ->)]; [done|]. by rewrite Ep. }
  split; [split; simpl; naive_solver|]. unfold measure. simpl.
  destruct Hg as [-> |(n' & -> & Hn)]; [rewrite (map_sum_delete _ _ _ n) by done|rewrite (map_sum_update _ _ _ n) by done; lia].
  assert (0 < notifier_rank n) by (by destruct n). lia.
Qed.

Lemma announce_ok k x :
  parker_ok x → notifiers x !! k = Some Announcing →
  parker_ok (mkSys NOTIFIED (lock x) (point x)
    (if bool_decide (state x = PARKED) then <[k:=Acquiring]> (notifiers x) else delete k (notifiers x)) (deadline x) (now x)).
Proof.
  intros Hx Hk. pose proof Hx as [H1 H2 H3 H4 H5 H6]. apply (others_ok x); auto; case_bool_decide as Es.
  - intros j. rewrite H4, lookup_insert. case_decide; naive_solver.
  - intros j. rewrite H4, lookup_delete. case_decide; naive_solver.
  - intros t _ _. exists k. apply lookup_insert_eq.
  - intros t Ht _. rewrite Ht in H1. simpl in H1. destruct (H5 t Ht) as [j Hj]; [naive_solver|]. exists j. rewrite lookup_delete_ne; [done|congruence].
  - intros t _ _. exists k, Acquiring. by rewrite lookup_insert_eq.
  - intros t Ht _. rewrite Ht in H1. simpl in H1. destruct (H6 t Ht) as (j & n & Hj & Hn); [naive_solver|]. exists j, n. rewrite lookup_delete_ne; [done|congruence].
Qed.

Lemma unpark_acquire_ok k x :
  parker_ok x → notifiers x !! k = Some Acquiring → lock x = None →
  parker_ok (mkSys (state x) (Some (ByNotifier k)) (point x) (<[k:=Releasing]> (notifiers x)) (deadline x) (now x)).
Proof.
  intros Hx Hk El. pose proof Hx as [H1 H2 H3 H4 H5 H6]. apply (others_ok x); auto.
  - by rewrite El.
  - intros j. rewrite lookup_insert. case_decide as Hj; [naive_solver|]. rewrite <-H4, El. naive_solver.
  - intros t Ht _. rewrite El, Ht in H3. simpl in H3. destruct H3 as [_ H3]. by specialize (H3 eq_refl).
  - intros t Ht Hn. destruct (H6 t Ht Hn) as (j & n & Hj & Hne). destruct (decide (j = k)) as [-> |Hjk].
    + exists k, Releasing. by rewrite lookup_insert_eq.
    + exists j, n. by rewrite lookup_insert_ne.
Qed.

Lemma unpark_release_ok k x :
  parker_ok x → notifiers x !! k = Some Releasing →
  parker_ok (mkSys (state x) None (point x) (<[k:=Signalling]> (notifiers x)) (deadline x) (now x)).
Proof.
  intros Hx Hk. pose proof Hx as [H1 H2 H3 H4 H5 H6]. apply H4 in Hk as El. apply (others_ok x); auto.
  - by rewrite El.
  - intros j. rewrite lookup_insert. case_decide as Hj; [done|]. rewrite <-H4, El. naive_solver.
  - intros t Ht _. rewrite El, Ht in H3. simpl in H3. destruct H3 as [_ H3]. by specialize (H3 eq_refl).
  - intros t Ht Hn. exists k, Signalling. by rewrite lookup_insert_eq.
Qed.

Lemma signal_ok k x :
  parker_ok x → notifiers x !! k = Some Signalling →
  parker_ok (mkSys (state x) (lock x) (match point x with Sleeping t => Relocking t | p => p end) (delete k (notifiers x)) (deadline x) (now x)).
Proof.
  intros Hx Hk. pose proof Hx as [H1 H2 H3 H4 H5 H6]. apply (others_ok x); auto.
  - destruct (point x); eauto.
  - intros j. rewrite H4, lookup_delete. case_decide; naive_solver.
  - intros t Ht Hn. destruct (H5 t) as [j Hj]; [by destruct (point x)|done|]. exists j. rewrite lookup_delete_ne; [done|congruence].
  - intros t Ht _. by destruct (point x).
Qed.

Lemma unpark_step_ok k x :
  parker_ok x → enabled 0 (UnparkStep k) x = true → wp (unpark_step k) x (λ _ x', step_effect (UnparkStep k) x x').
Proof.
  intros Hx He. pose proof Hx as [H1 H2 H3 H4 H5 H6]. unfold unpark_step, goto. wp_auto. simpl in He.
  destruct (notifiers x !! k) as [n|] eqn:Ek; [|done]. eapply wp_expect; [done|]. destruct n; wp_auto.
  - apply wp_swap. wp_auto. pose proof (announce_ok k x Hx Ek) as Hok.
    assert (state x = NOTIFIED ∨ state x = PARKED ∨ state x = EMPTY) as Hst by (destruct (published (point x)); naive_solver).
    destruct Hst as [Es|[Es|Es]]; rewrite Es in Hok |- *; simpl; wp_auto; (split; [exact Hok|intros _ Hd; right; eapply notifier_due; eauto; right; by eexists]).
  - apply bool_decide_eq_true in He. split; [exact (unpark_acquire_ok k x Hx Ek He)|]. intros _ Hd. right. eapply notifier_due; eauto. right. by eexists.
  - split; [exact (unpark_release_ok k x Hx Ek)|]. intros _ Hd. right. eapply notifier_due; eauto. right. by eexists.
  - pose proof (signal_ok k x Hx Ek) as Hok. destruct (point x) eqn:Ep; wp_auto; simpl;
      (split; [rewrite <-?Ep in Hok; exact Hok|intros _ Hd; right; eapply notifier_due; eauto]).
Qed.

Lemma parker_exec_ok mx l x :
  parker_ok x → enabled mx l x = true → wp (exec mx l) x (λ _ x', step_effect l x x').
Proof.
  intros Hx He. pose proof Hx as [H1 H2 H3 H4 H5 H6].
  assert (∀ p d, in_park (point x) = false → published p = false → holds_lock p = false → p ≠ Swapping →
    parker_ok (mkSys (state x) (lock x) p (notifiers x) d (now x))) as Hout.
  { intros p d Hp Ep El Es. split; simpl; try done; [by destruct (point x); rewrite ?Ep|rewrite El, H3; by destruct (point x)|..];
      intros t Ht; by rewrite Ht in Ep. }
  destruct l as [timeout|ready| | |k|k|t]; simpl in He |- *.
  - apply andb_true_iff in He as [Ep%bool_decide_eq_true _]. unfold start. wp_auto. split; [apply Hout; by rewrite ?Ep|done].
  - apply bool_decide_eq_true in He. unfold poll_returns, goto. wp_auto. destruct ready; wp_auto; [split; [apply Hout; by rewrite ?He|done]|].
    destruct (deadline x); wp_auto; [case_bool_decide; wp_auto|]; (split; [apply Hout; by rewrite ?He|done]).
  - wp_auto. eapply wp_mono; [by apply park_step_ok|]. intros ? x' H. by wp_auto.
  - unfold goto. wp_auto. destruct (point x) as [| | | | | | | |t| | |] eqn:Ep; try done. wp_auto.
    split; [apply (others_ok x); eauto; done|]. intros _ [_ Hd]. rewrite Ep in Hd. right. unfold due, measure. simpl. rewrite Ep. simpl.
    split; [naive_solver|lia].
  - apply bool_decide_eq_true in He. wp_auto. split; [|done]. apply (others_ok x); auto.
    + intros j. rewrite H4, lookup_insert. case_decide; naive_solver.
    + intros t Ht Hn. destruct (H5 t Ht Hn) as [j Hj]. exists j. rewrite lookup_insert_ne; [done|congruence].
    + intros t Ht Hn. destruct (H6 t Ht Hn) as (j & n & Hj & ?). exists j, n. rewrite lookup_insert_ne; [done|congruence].
  - wp_auto. eapply wp_mono; [by apply unpark_step_ok|]. intros ? x' H. by wp_auto.
  - wp_auto. split; [|done]. by apply (others_ok x); auto.
Qed.

Lemma parker_new_ok t : parker_ok (new t).
Proof. split; simpl; try done. by right. Qed.

Lemma parker_reachable mx t ls tr x : returns (run (enabled mx) (exec mx) ls) (new t) tr x → parker_ok x.
Proof.
  apply (run_invariant (enabled mx) (exec mx) parker_ok); [|apply parker_new_ok].
  intros y l Hy He. eapply wp_mono; [by apply parker_exec_ok|]. by intros _ y' [? _].
Qed.

(** Notifiers do not disturb a poll. *)
Lemma polling_stays mx l x o x' :
  own l = true → point x = Polling → enabled mx l x = true → returns (exec mx l) x o x' → point x' = Polling.
Proof.
  intros Hl Hp He Hx. destruct l as [| | | | |k|]; try done; simpl in He; rewrite ?Hp in He; try done.
  apply returns_bind in Hx as ([] & x1 & Hx & [= <- <-]). destruct (notifiers x !! k) as [n|] eqn:Ek; [|done].
  unfold returns, unpark_step, mbind, M_bind, get, swap, modify, put, mret, M_ret, goto in Hx. rewrite Ek in Hx. simpl in Hx.
  destruct n; simpl in Hx; rewrite ?Hp in Hx; unfold mret, M_ret in Hx; repeat case_bool_decide; simplify_eq; done.
Qed.

(** A thread that is to poll again is never stuck: it, or a notifier that holds what it waits for, can
    take a step. *)
Lemma due_progress mx x : parker_ok x → due x → ∃ l, own l = true ∧ l ≠ Wakes ∧ enabled mx l x = true.
Proof.
  intros [H1 H2 H3 H4 H5 H6] [Hp Hd].
  assert (∀ k, lock x = Some (ByNotifier k) → ∃ l, own l = true ∧ l ≠ Wakes ∧ enabled mx l x = true) as Hrel.
  { intros k Hk. exists (UnparkStep k). apply H4 in Hk. simpl. by rewrite Hk. }
  destruct (lock x) as [[|k]|] eqn:El; [|by eapply Hrel|].
  - exists ParkStep. simpl. destruct (point x); try done; by destruct H3 as [H3 _]; specialize (H3 eq_refl).
  - destruct (point x) as [| |t| |t|t| |t|t|t|t|] eqn:Ep; try (exists ParkStep; simpl; by rewrite ?Ep, ?El); try done.
    destruct Hd as [Hn|]; [|done]. destruct (H6 t eq_refl Hn) as (k & n & Hk & Hne). exists (UnparkStep k). simpl. rewrite Hk, El. by destruct n.
Qed.
End invariant.

(** ** Polls are paid for by wake-ups *)
Section polls.
Implicit Types (x : Sys) (p : Point) (l : Label).

Definition count (f : Label → bool) (ls : list Label) : Z := Z.of_nat (length (filter (λ l, f l = true) ls)).
Definition is_poll l : bool := match l with PollReturns _ => true | _ => false end.
Definition is_start l : bool := match l with Start _ => true | _ => false end.
Definition is_unpark l : bool := match l with Unpark _ => true | _ => false end.
Definition is_block_on l : bool := match l with Start (Some _) => false | _ => true end.

Definition untimed p : bool :=
  match p with
  | Fast t | Locking t | Publishing t | Waiting t | Sleeping t | Relocking t | Checking t => bool_decide (t = None)
  | _ => true
  end.

(** The polls that are already paid for. *)
Definition credit x : Z :=
  (match point x with Polling | Unlocking => 1 | _ => 0 end) + (if bool_decide (state x = NOTIFIED) then 1 else 0)
  + map_sum (λ n, match n with Announcing => 1 | _ => 0 end) (notifiers x).

Definition paid l x x' : Prop :=
  deadline x' = None ∧ untimed (point x') = true ∧
  credit x' + (if is_poll l then 1 else 0) <= credit x + (if is_start l then 1 else 0) + (if is_unpark l then 1 else 0).

Ltac pay Ep := unfold paid, credit, EMPTY, PARKED, NOTIFIED in *; simpl; rewrite ?Ep; simpl; split_and!; try done; repeat case_bool_decide; try congruence; try lia.

Lemma park_step_paid x :
  parker_ok x → enabled 0 ParkStep x = true → deadline x = None → untimed (point x) = true → wp park_step x (λ _ x', paid ParkStep x x').
Proof.
  intros [H1 H2 _ _ _ _] He Hd Hu. unfold park_step, goto. wp_auto. simpl in He.
  destruct (point x) as [| |t| |t|t| |t|t|t|t|] eqn:Ep; try done; simpl in *; try (apply bool_decide_eq_true in Hu; subst t); wp_auto.
  - apply wp_cas; intros Es; wp_auto; [pay Ep|]. rewrite bool_decide_eq_false_2, bool_decide_eq_true_2 by done. wp_auto. pay Ep.
  - apply wp_cas; intros Es; wp_auto; pay Ep.
  - pay Ep.
  - apply wp_cas; intros Es; wp_auto; [pay Ep|]. destruct H1 as [H1|H1]; [|done]. rewrite H1. simpl. wp_auto. pay Ep.
  - apply wp_swap. wp_auto. apply wp_assert; [by rewrite H2|]. wp_auto. specialize (H2 eq_refl). pay Ep.
  - pay Ep.
  - pay Ep.
  - apply wp_cas; intros Es; wp_auto; pay Ep.
  - pay Ep.
Qed.

Lemma unpark_step_paid k x :
  parker_ok x → enabled 0 (UnparkStep k) x = true → deadline x = None → untimed (point x) = true →
  wp (unpark_step k) x (λ _ x', paid (UnparkStep k) x x').
Proof.
  intros [H1 _ _ _ _ _] He Hd Hu. unfold unpark_step, goto. wp_auto. simpl in He.
  destruct (notifiers x !! k) as [n|] eqn:Ek; [|done]. eapply wp_expect; [done|]. destruct n; wp_auto.
  - apply wp_swap. wp_auto. assert (state x = NOTIFIED ∨ state x = PARKED ∨ state x = EMPTY) as Hst by (destruct (published (point x)); naive_solver).
    unfold paid, credit. destruct Hst as [Es|[Es|Es]]; rewrite Es; simpl; wp_auto; simpl;
      rewrite ?(map_sum_delete _ _ _ Announcing), ?(map_sum_update _ _ _ Announcing) by done; split_and!; try done; simpl; lia.
  - unfold paid, credit. simpl. rewrite (map_sum_update _ _ _ Acquiring) by done. split_and!; try done. lia.
  - unfold paid, credit. simpl. rewrite (map_sum_update _ _ _ Releasing) by done. split_and!; try done. lia.
  - destruct (point x) eqn:Ep; wp_auto; unfold paid, credit; simpl; rewrite (map_sum_delete _ _ _ Signalling), ?Ep by done; split_and!; try done; simpl; lia.
Qed.

Lemma parker_exec_paid mx l x :
  parker_ok x → enabled mx l x = true → is_block_on l = true → deadline x = None → untimed (point x) = true →
  wp (exec mx l) x (λ _ x', paid l x x').
Proof.
  intros Hx He Hb Hd Hu. destruct l as [timeout|ready| | |k|k|t]; simpl in He |- *.
  - destruct timeout; [done|]. apply andb_true_iff in He as [Ep%bool_decide_eq_true _]. unfold start. wp_auto. pay Ep.
  - apply bool_decide_eq_true in He. unfold poll_returns, goto. wp_auto. destruct ready; wp_auto; [pay He|]. rewrite Hd. wp_auto. pay He.
  - wp_auto. eapply wp_mono; [by apply park_step_paid|]. intros ? x' H. by wp_auto.
  - unfold goto. wp_auto. destruct (point x) as [| | | | | | | |t| | |] eqn:Ep; try done. wp_auto. pay Ep.
  - apply bool_decide_eq_true in He. wp_auto. unfold paid, credit. simpl. rewrite map_sum_insert by done. split_and!; try done. lia.
  - wp_auto. eapply wp_mono; [by apply unpark_step_paid|]. intros ? x' H. by wp_auto.
  - wp_auto. pay Hd.
Qed.
End polls.

(** ** Properties *)
Section properties.
Context (instant_max : Z).
Implicit Types (x : Sys) (l : Label).

(** C34: no wake-up of a blocked thread is lost: once a notification is stored while the thread is
    inside [park], at most [measure] further steps of the threads at work pass before the thread polls
    again, in whatever order they are taken, and until then one of them can always be taken. *)
Theorem parker_no_lost_wakeup t ls tr x ls' tr' x' :
  returns (run (enabled instant_max) (exec instant_max) ls) (new t) tr x → due x →
  Forall (λ l, own l = true) ls' → returns (run (enabled instant_max) (exec instant_max) ls') x tr' x' →
  point x' = Polling ∨
  (due x' ∧ measure x' + Z.of_nat (length ls') <= measure x ∧
    ∃ l o x'', own l = true ∧ l ≠ Wakes ∧ enabled instant_max l x' = true ∧ returns (exec instant_max l) x' o x'').
Proof.
  intros Hok%parker_reachable Hd. revert x tr' Hok Hd. induction ls' as [|l ls' IH]; intros x tr' Hok Hd Hls Hr.
  - injection Hr as <- <-. right. split_and!; [done|simpl; lia|].
    destruct (due_progress instant_max x Hok Hd) as (l & Hl & Hw & He).
    pose proof (parker_exec_ok instant_max l x Hok He) as (o & x'' & Hx & _)%wp_returns. by exists l, o, x''.
  - apply Forall_cons in Hls as [Hl Hls]. apply run_cons_inv in Hr as (He & o & x1 & tr1 & Hx & Hr & ->).
    apply (wp_returns_elim _ _ _ _ _ (parker_exec_ok instant_max l x Hok He)) in Hx as [Hok1 Hstep].
    destruct (Hstep Hl Hd) as [Hp|[Hd1 Hm]].
    + left. clear -Hr Hp Hls. revert x1 tr1 Hp Hr. induction ls' as [|l ls' IH]; intros x1 tr1 Hp Hr; [by injection Hr as _ <-|].
      apply Forall_cons in Hls as [Hl Hls]. apply run_cons_inv in Hr as (He & o & x2 & tr2 & Hx & Hr & _). eapply (IH Hls); [|exact Hr].
      by eapply polling_stays.
    + destruct (IH x1 tr1 Hok1 Hd1 Hls Hr) as [?|(? & ? & ?)]; [by left|right]. split_and!; [done|simpl; lia|done].
Qed.

Lemma count_app f ls ls' : count f (ls ++ ls') = count f ls + count f ls'.
Proof. unfold count. rewrite filter_app, length_app. lia. Qed.

Lemma count_one f l : count f [l] = if f l then 1 else 0.
Proof. unfold count. rewrite filter_cons. destruct (f l); by case_decide. Qed.

(** A thread in [block_on] does not spin: over every run it polls at most once per call and once
    per wake-up, whatever the condition variable does. *)
Theorem block_on_polls_only_when_woken t ls tr x :
  Forall (λ l, is_block_on l = true) ls → returns (run (enabled instant_max) (exec instant_max) ls) (new t) tr x →
  count is_poll ls <= count is_start ls + count is_unpark ls.
Proof.
  intros Hls Hr. pose proof (run_labels _ _ _ _ _ _ Hr) as El. apply (run_restrict _ _ is_block_on) in Hr; [|done].
  set (I := λ (tr : list (Label * option Outcome)) x, parker_ok x ∧ deadline x = None ∧ untimed (point x) = true ∧
    count is_poll tr.*1 + credit x <= count is_start tr.*1 + count is_unpark tr.*1).
  assert (I ([] ++ tr) x) as (_ & _ & _ & Hc).
  { refine (run_trace_invariant _ (exec instant_max) I ls (new t) tr x _ [] _ Hr); [|by split_and!; try apply parker_new_ok].
    clear. intros tr x l (Hok & Hd & Hu & Hc) [Hb He]%andb_true_iff.
    eapply wp_mono; [apply wp_and; [by apply (parker_exec_ok instant_max l)|by apply parker_exec_paid]|].
    intros o x' [[Hok' _] (Hd' & Hu' & Hc')]. split_and!; try done. rewrite !fmap_app, !count_app. simpl. rewrite !count_one. lia. }
  rewrite app_nil_l, El in Hc. assert (0 <= credit x); [|lia].
  unfold credit. assert (0 <= map_sum (λ n, match n with Announcing => 1 | _ => 0 end) (notifiers x)) by (apply map_sum_nonneg; by intros k []).
  destruct (point x); case_bool_decide; lia.
Qed.

(** Only a call sets the deadline, the clock does not go back, and only a pending poll at or past the
    deadline gives up. *)
Lemma exec_keeps l x o x' :
  is_start l = false → enabled instant_max l x = true → returns (exec instant_max l) x o x' →
  deadline x' = deadline x ∧ now x <= now x' ∧ (o = Some TimedOut → l = PollReturns false ∧ ∃ e, deadline x = Some e ∧ e <= now x).
Proof.
  intros Hl He Hx. destruct l as [timeout|ready| | |k|k|t]; try done; simpl in He;
    unfold returns, exec, poll_returns, park_step, unpark_step, compare_exchange, swap, goto, expect, assert_true, panic, mbind, M_bind, get, put, modify, mret, M_ret in Hx;
    simpl in Hx; simplify_eq/=; repeat (case_match; simplify_eq/=); split_and!; try done; try lia.
  - intros _. split; [done|]. eexists. split; [done|]. by eapply bool_decide_eq_true_1.
  - apply bool_decide_eq_true in He. lia.
Qed.

(** [wait_timeout] gives up only after a poll that returned pending and not before its time. *)
Theorem wait_timeout_not_early timeout x ls tr x' :
  point x = Idle → 0 <= timeout → Forall (λ l, is_start l = false) ls →
  returns (run (enabled instant_max) (exec instant_max) (Start (Some timeout) :: ls)) x tr x' →
  Exists (λ e, e.2 = Some TimedOut) tr → PollReturns false ∈ ls ∧ now x + timeout <= now x'.
Proof.
  intros Hp Ht Hls Hr Hex. apply run_cons_inv in Hr as (He & o & x1 & tr1 & Hx & Hr & ->). injection Hx as <- <-.
  apply Exists_cons in Hex as [?|Hex]; [done|].
  cut (∀ ls x1 tr, Forall (λ l, is_start l = false) ls → returns (run (enabled instant_max) (exec instant_max) ls) x1 tr x' →
    now x1 <= now x' ∧ (Exists (λ e, e.2 = Some TimedOut) tr → PollReturns false ∈ ls ∧ ∃ e, deadline x1 = Some e ∧ e <= now x')).
  { intros Hgo. destruct (Hgo ls _ tr1 Hls Hr) as [_ Ha]. destruct (Ha Hex) as [Hin (e & Hd & Hle)]. split; [done|].
    simpl in Hd. unfold checked_add in Hd. case_decide; [|done]. injection Hd as <-. done. }
  clear. intros ls. induction ls as [|l ls IH]; intros x1 tr Hls Hr.
  { injection Hr as <- <-. split; [done|]. by intros ?%Exists_nil. }
  apply Forall_cons in Hls as [Hl Hls]. apply run_cons_inv in Hr as (He & o & x2 & tr' & Hx & Hr & ->).
  destruct (exec_keeps _ _ _ _ Hl He Hx) as (Ed & Hn & Ho). destruct (IH x2 tr' Hls Hr) as [Hn' Hrest]. split; [lia|].
  intros [Hto|Hex]%Exists_cons.
  - destruct (Ho Hto) as (-> & e & Hd & Hle). split; [set_solver|]. exists e. split; [done|lia].
  - destruct (Hrest Hex) as (Hin & e & Hd & Hle). split; [set_solver|]. exists e. split; [congruence|done].
Qed.
End properties.

(** The thread falls asleep, is notified, and runs again. *)
Definition asleep_run : list Label :=
  [Start None; PollReturns false; ParkStep; ParkStep; ParkStep; ParkStep; ParkStep; Unpark 7; UnparkStep 7].
Definition resume_run : list Label := [UnparkStep 7; UnparkStep 7; UnparkStep 7; ParkStep; ParkStep; ParkStep].

Lemma parker_no_lost_wakeup_witness :
  ∃ tr x tr' x', returns (run (enabled 1000) (exec 1000) asleep_run) (new 0) tr x ∧ point x = Sleeping None ∧
    returns (run (enabled 1000) (exec 1000) resume_run) x tr' x' ∧
    (point x' = Polling ∨ (due x' ∧ measure x' + Z.of_nat (length resume_run) <= measure x ∧
      ∃ l o x'', own l = true ∧ l ≠ Wakes ∧ enabled 1000 l x' = true ∧ returns (exec 1000 l) x' o x'')).
Proof.
  eexists _, _, _, _. split; [vm_compute; reflexivity|]. split; [reflexivity|]. split; [vm_compute; reflexivity|].
  eapply (parker_no_lost_wakeup 1000 0 asleep_run _ _ resume_run);
    [vm_compute; reflexivity|split; [done|by left]|by repeat constructor|vm_compute; reflexivity].
Defined.

Lemma block_on_polls_only_when_woken_witness :
  ∃ tr x, returns (run (enabled 1000) (exec 1000) (asleep_run ++ resume_run ++ [PollReturns true])) (new 0) tr x ∧
    count is_poll (asleep_run ++ resume_run ++ [PollReturns true]) <=
    count is_start (asleep_run ++ resume_run ++ [PollReturns true]) + count is_unpark (asleep_run ++ resume_run ++ [PollReturns true]).
Proof.
  eexists _, _. split; [vm_compute; reflexivity|].
  eapply (block_on_polls_only_when_woken 1000 0); [by repeat constructor|vm_compute; reflexivity].
Defined.

Lemma wait_timeout_not_early_witness :
  ∃ tr x', returns (run (enabled 1000) (exec 1000) [Start (Some 5); PollReturns false; ParkStep; ParkStep; ParkStep; ParkStep; Tick 9; Wakes;
      ParkStep; ParkStep; ParkStep; PollReturns false]) (new 2) tr x' ∧
    PollReturns false ∈ [PollReturns false; ParkStep; ParkStep; ParkStep; ParkStep; Tick 9; Wakes; ParkStep; ParkStep; ParkStep; PollReturns false] ∧
    2 + 5 <= now x'.
Proof.
  eexists _, _. split; [vm_compute; reflexivity|].
  eapply (wait_timeout_not_early 1000 5 (new 2)); [done|done|by repeat constructor|vm_compute; reflexivity|].
  by repeat first [apply Exists_cons_hd; reflexivity|apply Exists_cons_tl].
Defined.

(** ** The parker of a call

    [with_parker]: a thread keeps one parker for its calls; a call made while a future is polled,
    which finds the cache borrowed, makes a parker of its own. *)
Module Cache.
Inductive ParkerId : Type := Cached | Fresh (n : nat).

(** The calls in progress on the thread, innermost first. *)
Record Thread : Type := mkThread {
  borrowed : bool;
  made : nat;
  calls : list ParkerId;
}.

Definition new : Thread := mkThread false 0 [].

(** [try_borrow_mut] succeeds, or the call makes a fresh pair. *)
Definition enter (x : Thread) : Thread :=
  if borrowed x then mkThread true (S (made x)) (Fresh (made x) :: calls x)
  else mkThread true (made x) (Cached :: calls x).

(** The innermost call returns and drops what it holds. *)
Definition leave (x : Thread) : Thread :=
  match calls x with
  | Cached :: rest => mkThread false (made x) rest
  | Fresh _ :: rest => mkThread (borrowed x) (made x) rest
  | [] => x
  end.

Definition run (es : list bool) : Thread := foldl (λ x e, if (e : bool) then enter x else leave x) new es.

Record thread_ok (x : Thread) : Prop := {
  to_cached : borrowed x = true ↔ Cached ∈ calls x;
  to_fresh : ∀ n, Fresh n ∈ calls x → (n < made x)%nat;
  to_nodup : NoDup (calls x);
}.

Lemma enter_ok x : thread_ok x → thread_ok (enter x).
Proof.
  intros [H1 H2 H3]. unfold enter. destruct (borrowed x) eqn:Eb; split; simpl.
  - set_solver.
  - intros n [[= ->]|Hn%H2]%elem_of_cons; lia.
  - apply NoDup_cons. split; [|done]. intros Hn%H2. lia.
  - set_solver.
  - intros n [?|?]%elem_of_cons; [done|auto].
  - apply NoDup_cons. split; [|done]. intros Hn%H1. done.
Qed.

Lemma leave_ok x : thread_ok x → thread_ok (leave x).
Proof.
  intros [H1 H2 H3]. unfold leave. destruct (calls x) as [|[|n] rest] eqn:Ec; [by split; rewrite ?Ec|..];
    apply NoDup_cons in H3 as [Hni Hnd]; split; simpl; try set_solver.
Qed.

(** The calls in progress on one thread never share a parker, so none consumes the notification of
    another. *)
Theorem nested_calls_own_parkers es : NoDup (calls (run es)).
Proof.
  cut (∀ x, thread_ok x → thread_ok (foldl (λ x e, if (e : bool) then enter x else leave x) x es)).
  { intros H. apply H. split; simpl; [set_solver|set_solver|constructor]. }
  induction es as [|[] es IH]; intros x Hx; simpl; auto using enter_ok, leave_ok.
Qed.
End Cache.
