(* ===== verification/Xtask.v ===== *)
(** * The build tasks

    [xtask/src/main.rs]: the tool that runs the benchmarks, the builds, the feature matrix, the lints,
    Miri, the tests and the check of a release against the last one that was published.  A task is a
    computation on the machine it runs on; what other programs and services do (the programs that are
    installed, the exit status of a command, the metadata of the workspace, the answer of the registry)
    and the version numbers of the semver crate are the parameters of the model.  The theorems say what the
    tool itself decides: how a release is classified, when the release check passes, which commands the
    feature matrix consists of and that a task stops at the first command that fails. *)
From stdpp Require Import sorting.
From S2P Require Import Prelude.

(** ** Programs and services *)
Record Cmd : Type := mkCmd {
  program : string;
  args : list string;
  envs : list (string * string);
  current_dir : string;
}.

(** [ExitStatus]: the code is missing when a signal ended the process. *)
Record ExitStatus : Type := mkStatus { code : option Z }.
Definition success (st : ExitStatus) : bool := bool_decide (code st = Some 0).

Record Package : Type := mkPackage { name : string; features : list string }.

Record CratesIoCrate : Type := mkCrate {
  max_version : string;
  max_stable_version : option string;
}.

(** [ureq::Error]: an HTTP status, or anything else. *)
Inductive HttpError : Type := StatusCode (n : Z) | OtherError.

Class World : Type := {
  Machine : Type;
  Body : Type;
  Version : Type;
  major : Version → Z;
  minor : Version → Z;
  patch : Version → Z;
  cmp_precedence : Version → Version → comparison;
  version_parse : string → option Version;
  version_display : Version → string;
  which : string → Machine → option string;
  cmd_status : Cmd → Machine → option ExitStatus * Machine;
  metadata : string → Machine → option (list Package);
  http_get : string → Machine → result Body HttpError;
  read_json : Body → option CratesIoCrate;
  workspace_dir : string;
}.

(** Precedence compares the first of major, minor and patch numbers that differ. *)
Class PrecedenceLaws (E : World) : Prop := {
  precedence_major b r : major b ≠ major r → cmp_precedence b r = (major b ?= major r);
  precedence_minor b r : major b = major r → minor b ≠ minor r → cmp_precedence b r = (minor b ?= minor r);
  precedence_patch b r :
    major b = major r → minor b = minor r → patch b ≠ patch r → cmp_precedence b r = (patch b ?= patch r);
}.

Definition PACKAGE_NAME : string := "asyncband".
Definition SEMVER_VIOLATIONS_EXIT_CODE : Z := 100.

Inductive SemverReleaseType : Type := Major | Minor | Patch.
#[export] Instance SemverReleaseType_eq_dec : EqDecision SemverReleaseType.
Proof. solve_decision. Defined.

Definition as_str (t : SemverReleaseType) : string :=
  match t with Major => "major" | Minor => "minor" | Patch => "patch" end.

Definition audit_release_type (t : SemverReleaseType) : SemverReleaseType :=
  match t with Major => Minor | t => t end.

(** A command as [Command] builds it up. *)
Definition cmd_args (l : list string) (c : Cmd) : Cmd := mkCmd (program c) (args c ++ l) (envs c) (current_dir c).
Definition cmd_env (k v : string) (c : Cmd) : Cmd := mkCmd (program c) (args c) (envs c ++ [(k, v)]) (current_dir c).

Section xtask.
Context {E : World}.

(** What the tool prints. *)
Inductive Line : Type :=
| LCommand (c : Cmd)
| LUnpublished
| LChecking (release baseline : Version) (t : SemverReleaseType)
| LAuditing
| LAcknowledged (release : Version).

Record Tool : Type := mkTool { machine : Machine; stdout : list Line }.

Definition println (l : Line) : M Tool unit := modify (λ x, mkTool (machine x) (stdout x ++ [l])).

Definition find_command (cmd : string) : M Tool Cmd :=
  x ← get;
  match which cmd (machine x) with
  | Some exe => mret (mkCmd exe [] [] workspace_dir)
  | None => panic "not found"
  end.

Definition command_status (cmd : Cmd) : M Tool ExitStatus :=
  println (LCommand cmd);;
  x ← get;
  let (st, m) := cmd_status cmd (machine x) in
  put (mkTool m (stdout x));;
  expect st "failed to execute process".

Definition run_command (cmd : Cmd) : M Tool unit :=
  st ← command_status cmd;
  assert_true (success st) "command failed".

Definition ensure_installed (bin crate_name : string) : M Tool unit :=
  x ← get;
  match which bin (machine x) with
  | Some _ => mret tt
  | None => cmd ← find_command "cargo"; run_command (cmd_args ["install"; crate_name] cmd)
  end.

(** ** The commands *)
Definition feature_args (fs : list string) : list string := fs ≫= (λ f, ["--features"; f]).

Definition make_bench_cmd (no_run : bool) (bench : option string) (l : list string) : M Tool Cmd :=
  cmd ← find_command "cargo";
  let cmd := cmd_args ["bench"; "--workspace"; "--all-features"; "--bench"; default "*" bench] cmd in
  let cmd := if no_run then cmd_args ["--no-run"] cmd else cmd in
  mret (if bool_decide (l ≠ []) then cmd_args l (cmd_args ["--"] cmd) else cmd).

Definition make_build_cmd (locked : bool) : M Tool Cmd :=
  cmd ← find_command "cargo";
  let cmd := cmd_args ["build"; "--workspace"; "--all-features"; "--tests"; "--examples"; "--benches"; "--bins"] cmd in
  mret (if locked then cmd_args ["--locked"] cmd else cmd).

Definition make_test_cmd (no_capture : bool) (fs : list string) : M Tool Cmd :=
  cmd ← find_command "cargo";
  let cmd := cmd_args (feature_args fs) (cmd_args ["test"; "--workspace"; "--no-default-features"] cmd) in
  mret (if no_capture then cmd_args ["--"; "--nocapture"] cmd else cmd).

Definition check_args (fs : list string) : list string :=
  ["+nightly"; "check"; "--package"; PACKAGE_NAME; "--all-targets"; "--no-default-features"] ++ feature_args fs.
Definition make_check_cmd (fs : list string) : M Tool Cmd :=
  cmd ← find_command "cargo";
  mret (cmd_args (check_args fs) (cmd_env "RUSTFLAGS" "-Dwarnings" cmd)).

Definition make_miri_cmd (package : string) (target : list string) : M Tool Cmd :=
  cmd ← find_command "cargo";
  mret (cmd_args target (cmd_args ["+nightly"; "miri"; "test"; "--package"; package] cmd)).

Definition make_format_cmd (apply_fix : bool) : M Tool Cmd :=
  cmd ← find_command "cargo";
  let cmd := cmd_args ["+nightly"; "fmt"; "--all"] cmd in
  mret (if apply_fix then cmd else cmd_args ["--check"] cmd).

Definition make_clippy_cmd (apply_fix : bool) : M Tool Cmd :=
  cmd ← find_command "cargo";
  let cmd := cmd_args ["+nightly"; "clippy"; "--tests"; "--all-features"; "--all-targets"; "--workspace"] cmd in
  mret (cmd_args (if apply_fix then ["--allow-staged"; "--allow-dirty"; "--fix"] else ["--"; "-D"; "warnings"]) cmd).

Definition make_doc_cmd : M Tool Cmd :=
  cmd ← find_command "cargo";
  mret (cmd_args ["+nightly"; "doc"; "--workspace"; "--all-features"; "--no-deps"]
    (cmd_env "RUSTDOCFLAGS" "-D warnings --cfg docsrs" cmd)).

Definition semver_args (baseline : Version) (t : SemverReleaseType) : list string :=
  ["+stable"; "semver-checks"; "check-release"; "--package"; PACKAGE_NAME; "--all-features"; "--baseline-version"] ++
  [version_display baseline] ++ ["--release-type"; as_str t].
Definition make_semver_check_cmd (baseline : Version) (t : SemverReleaseType) : M Tool Cmd :=
  ensure_installed "cargo-semver-checks" "cargo-semver-checks";;
  cmd ← find_command "cargo";
  mret (cmd_args (semver_args baseline t) cmd).

Definition make_hawkeye_cmd (apply_fix : bool) : M Tool Cmd :=
  ensure_installed "hawkeye" "hawkeye";;
  cmd ← find_command "hawkeye";
  mret (cmd_args [if apply_fix then "format" else "check"] cmd).

Definition make_typos_cmd : M Tool Cmd :=
  ensure_installed "typos" "typos-cli";;
  find_command "typos".

Definition make_taplo_cmd (apply_fix : bool) : M Tool Cmd :=
  ensure_installed "taplo" "taplo-cli";;
  cmd ← find_command "taplo";
  mret (cmd_args (if apply_fix then ["format"] else ["format"; "--check"]) cmd).

(** ** The tasks *)
Definition asyncband_features : M Tool (list string) :=
  x ← get;
  packages ← expect (metadata (workspace_dir +:+ "/Cargo.toml") (machine x)) "failed to get cargo metadata";
  package ← expect (List.find (λ p, bool_decide (name p = PACKAGE_NAME)) packages) "failed to find asyncband package";
  mret (merge_sort (λ a b, String.leb a b) (filter (λ f, f ≠ "default") (features package))).

(** A command is built, then run. *)
Definition run_made (cmd : M Tool Cmd) : M Tool unit := c ← cmd; run_command c.

Fixpoint run_each (l : list (M Tool Cmd)) : M Tool unit :=
  match l with
  | [] => mret tt
  | cmd :: l => run_made cmd;; run_each l
  end.

Definition run_check : M Tool unit :=
  fs ← asyncband_features;
  run_made (make_check_cmd []);;
  run_each ((λ f, make_check_cmd [f]) <$> fs);;
  run_made (make_check_cmd fs).

Definition run_miri : M Tool unit :=
  run_each (make_miri_cmd PACKAGE_NAME ["--lib"; "--all-features"] ::
    ((λ t, make_miri_cmd "tests-integration" ["--test"; t]) <$>
      ["oneshot_test"; "unsafe_paths_test"; "upgradable_rwlock_test"; "mpsc_test"; "mpmc_test"; "spmc_test";
       "broadcast_test"; "phaser_test"; "semaphore_ordering_test"])).

Definition run_lint (apply_fix : bool) : M Tool unit :=
  run_each [make_clippy_cmd apply_fix; make_format_cmd apply_fix; make_taplo_cmd apply_fix; make_typos_cmd; make_hawkeye_cmd apply_fix; make_doc_cmd].

Definition run_bench (no_run : bool) (bench : option string) (l : list string) : M Tool unit := run_made (make_bench_cmd no_run bench l).
Definition run_build (locked : bool) : M Tool unit := run_made (make_build_cmd locked).
Definition run_test (no_capture : bool) : M Tool unit := fs ← asyncband_features; run_made (make_test_cmd no_capture fs).

(** *** The release check *)
Definition find_latest_release : M Tool (option Version) :=
  x ← get;
  match http_get ("https://crates.io/api/v1/crates/" +:+ PACKAGE_NAME) (machine x) with
  | Err (StatusCode 404) => mret None
  | Err _ => panic "failed to query crates.io"
  | Ok response =>
      crate ← expect (read_json response) "failed to decode crates.io response";
      v ← expect (version_parse (default (max_version crate) (max_stable_version crate))) "crates.io returned invalid version";
      mret (Some v)
  end.

Definition classify_release_type (baseline release : Version) : M Tool SemverReleaseType :=
  assert_true (match cmp_precedence baseline release with Lt => true | _ => false end)
    "release version must be greater than baseline";;
  if bool_decide (major baseline ≠ major release) then mret Major
  else if bool_decide (minor baseline ≠ minor release) then
    (if bool_decide (major release = 0) then mret Major else mret Minor)
  else if bool_decide (patch baseline ≠ patch release) then
    mret (if bool_decide (major release = 0) then (if bool_decide (minor release = 0) then Major else Minor) else Patch)
  else mret Major.

Record CommandSemver : Type := mkSemver {
  release_version : Version;
  acknowledge_breaking_changes : bool;
}.

(** The part of the task after the classification. *)
Definition audit (c : CommandSemver) (baseline : Version) (release_type : SemverReleaseType) : M Tool unit :=
  cmd ← make_semver_check_cmd baseline (audit_release_type release_type);
  st ← command_status cmd;
  if success st then mret tt
  else if bool_decide (release_type = Major) && bool_decide (code st = Some SEMVER_VIOLATIONS_EXIT_CODE) then
    assert_true (acknowledge_breaking_changes c) "breaking API changes were reported";;
    println (LAcknowledged (release_version c))
  else panic "command failed".

Definition run_semver (c : CommandSemver) : M Tool unit :=
  latest ← find_latest_release;
  match latest with
  | None => println LUnpublished
  | Some baseline =>
      release_type ← classify_release_type baseline (release_version c);
      assert_true (bool_decide (release_type = Major) || negb (acknowledge_breaking_changes c))
        "--acknowledge-breaking-changes is only valid for a semver-major release";;
      println (LChecking (release_version c) baseline release_type);;
      (if bool_decide (audit_release_type release_type ≠ release_type) then println LAuditing else mret tt);;
      audit c baseline release_type
  end.

(** ** [Command::run] *)
Inductive SubCommand : Type :=
| Bench (no_run : bool) (bench : option string) (l : list string)
| Build (locked : bool)
| CheckFeatures
| Lint (apply_fix : bool)
| Miri
| Semver (c : CommandSemver)
| TestAll (no_capture : bool).

Definition command_run (sub : SubCommand) : M Tool unit :=
  match sub with
  | Bench no_run bench l => run_bench no_run bench l
  | Build locked => run_build locked
  | CheckFeatures => run_check
  | Lint apply_fix => run_lint apply_fix
  | Miri => run_miri
  | Semver c => run_semver c
  | TestAll no_capture => run_test no_capture
  end.

(** ** Classification *)
Definition numbers (v : Version) : Z * Z * Z := (major v, minor v, patch v).

(** The numbers Cargo takes to identify a line of compatible releases: up to the first that is not zero. *)
Definition release_line (v : Version) : Z * Z * Z :=
  if bool_decide (major v ≠ 0) then (major v, 0, 0)
  else if bool_decide (minor v ≠ 0) then (0, minor v, 0)
  else (0, 0, patch v).

(** A major release belongs to another line than its baseline, or has the same three numbers (a pre-release
    tag differs then); a patch, from 1.0 on, changes the patch number and nothing before it. *)
Definition is_major (b r : Version) : Prop := release_line b ≠ release_line r ∨ numbers b = numbers r.
Definition is_patch (b r : Version) : Prop :=
  major r ≠ 0 ∧ major b = major r ∧ minor b = minor r ∧ patch b ≠ patch r.

Lemma classify_total baseline release x :
  match cmp_precedence baseline release with
  | Lt => ∃ t, returns (classify_release_type baseline release) x t x
  | _ => ∃ msg, classify_release_type baseline release x = Panic msg x
  end.
Proof.
  unfold classify_release_type, returns, mbind, M_bind, assert_true. destruct (cmp_precedence _ _); [by eexists| |by eexists]. simpl. repeat case_bool_decide; by eexists.
Qed.

Lemma classify_spec baseline release x t x' :
  returns (classify_release_type baseline release) x t x' →
  x' = x ∧ cmp_precedence baseline release = Lt ∧
  (t = Major ↔ is_major baseline release) ∧ (t = Patch ↔ is_patch baseline release).
Proof.
  unfold is_major, is_patch, classify_release_type, returns, mbind, M_bind, assert_true, release_line, numbers. destruct (cmp_precedence _ _) eqn:Hc; [done| |done]. simpl.
  case_bool_decide as H1; [|case_bool_decide as H2; [case_bool_decide as H3|case_bool_decide as H3; [case_bool_decide as H4; [case_bool_decide as H5|]|]]];
    intros [= <- <-]; (split_and!; [done|done|..]); repeat case_bool_decide; naive_solver (congruence || lia).
Qed.

(** ** The release check *)
Definition violations_acknowledged (c : CommandSemver) (t : SemverReleaseType) (st : ExitStatus) : Prop :=
  t = Major ∧ code st = Some SEMVER_VIOLATIONS_EXIT_CODE ∧ acknowledge_breaking_changes c = true.

Lemma command_status_eq cmd x :
  command_status cmd x =
    match (cmd_status cmd (machine x)).1 with
    | Some st => Ret st (mkTool (cmd_status cmd (machine x)).2 (stdout x ++ [LCommand cmd]))
    | None => Panic "failed to execute process" (mkTool (cmd_status cmd (machine x)).2 (stdout x ++ [LCommand cmd]))
    end.
Proof. unfold command_status, mbind, M_bind. simpl. destruct (cmd_status _ _) as [[st|] m]; done. Qed.

Lemma make_semver_eq baseline t exe exe' x :
  which "cargo" (machine x) = Some exe → which "cargo-semver-checks" (machine x) = Some exe' →
  make_semver_check_cmd baseline t x = Ret (mkCmd exe (semver_args baseline t) [] workspace_dir) x.
Proof.
  intros Hc Hs. unfold make_semver_check_cmd, ensure_installed, find_command, mbind, M_bind. simpl. rewrite Hs. simpl. by rewrite Hc.
Qed.

Lemma audit_verdict c baseline t exe exe' x :
  which "cargo" (machine x) = Some exe → which "cargo-semver-checks" (machine x) = Some exe' →
  (∃ x', returns (audit c baseline t) x tt x') ↔
  ∃ st, (cmd_status (mkCmd exe (semver_args baseline (audit_release_type t)) [] workspace_dir) (machine x)).1 = Some st ∧
    (success st = true ∨ violations_acknowledged c t st).
Proof.
  intros Hc Hs. unfold audit, returns, mbind, M_bind, violations_acknowledged. rewrite (make_semver_eq _ _ _ _ _ Hc Hs), command_status_eq.
  destruct (cmd_status _ _) as [[st|] m]; simpl; [|split; [by intros [? ?]|by intros (? & ? & _)]].
  trans (success st = true ∨ t = Major ∧ code st = Some SEMVER_VIOLATIONS_EXIT_CODE ∧ acknowledge_breaking_changes c = true).
  - destruct (success st); [split; [by left|by eexists]|]. destruct (bool_decide_reflect (t = Major)), (bool_decide_reflect (code st = Some SEMVER_VIOLATIONS_EXIT_CODE)), (acknowledge_breaking_changes c);
      simpl; (split; [intros [? ?]|intros [?|(? & ? & ?)]; try done; by eexists]); first [done|by right].
  - split; [intros H; by exists st|]. by intros (? & [= <-] & H).
Qed.

(** What the registry says of the crate: nothing is published, or the version it names, the last stable one
    if there is one. *)
Definition registry_answers (m : Machine) (latest : option Version) : Prop :=
  let answer := http_get "https://crates.io/api/v1/crates/asyncband" m in
  match latest with
  | None => answer = Err (StatusCode 404)
  | Some v => ∃ body crate, answer = Ok body ∧ read_json body = Some crate ∧
      version_parse (match max_stable_version crate with Some s => s | None => max_version crate end) = Some v
  end.

(** The compatibility check a release needs. *)
Definition compatibility_check (cargo : string) (baseline release : Version) : Cmd :=
  mkCmd cargo
    ["+stable"; "semver-checks"; "check-release"; "--package"; "asyncband"; "--all-features"; "--baseline-version";
     version_display baseline; "--release-type"; if bool_decide (is_patch baseline release) then "patch" else "minor"]
    [] workspace_dir.

Lemma registry_spec x latest : registry_answers (machine x) latest → find_latest_release x = Ret latest x.
Proof.
  unfold registry_answers, find_latest_release, mbind, M_bind. cbv zeta. cbn [get].
  change ("https://crates.io/api/v1/crates/" +:+ PACKAGE_NAME) with "https://crates.io/api/v1/crates/asyncband".
  destruct latest as [v|]; [|by intros ->].
  intros (body & crate & -> & Hjson & Hv). simpl. rewrite Hjson. simpl. by destruct (max_stable_version crate); simpl; rewrite Hv.
Qed.

Lemma success_spec st : success st = true ↔ code st = Some 0.
Proof. apply bool_decide_eq_true. Qed.

Lemma compatibility_check_spec cargo baseline release t :
  (t = Patch ↔ is_patch baseline release) →
  mkCmd cargo (semver_args baseline (audit_release_type t)) [] workspace_dir = compatibility_check cargo baseline release.
Proof. intros HP. unfold compatibility_check. rewrite <-(bool_decide_ext _ _ HP). by destruct t. Qed.

(** With a published version, the task classifies the release, looks at the acknowledgement and audits. *)
Lemma run_semver_published c x baseline cargo checker :
  which "cargo" (machine x) = Some cargo → which "cargo-semver-checks" (machine x) = Some checker →
  find_latest_release x = Ret (Some baseline) x →
  (∃ x', returns (run_semver c) x tt x') ↔
  ∃ t, returns (classify_release_type baseline (release_version c)) x t x ∧
    (acknowledge_breaking_changes c = true → t = Major) ∧ ∃ x', returns (audit c baseline t) x tt x'.
Proof.
  intros Hcargo Htool Hlatest. unfold run_semver. unfold returns at 1. unfold mbind at 1, M_bind. rewrite Hlatest.
  pose proof (classify_total baseline (release_version c) x) as Ht.
  destruct (cmp_precedence baseline (release_version c)); [destruct Ht as [msg Ht]|destruct Ht as [t Ht]|destruct Ht as [msg Ht]];
    unfold mbind, M_bind, returns in *; rewrite Ht; [split; [by intros [? ?]|by intros (? & ? & _)]| |split; [by intros [? ?]|by intros (? & ? & _)]].
  assert (∀ y, machine y = machine x → (∃ x', audit c baseline t y = Ret tt x') ↔ ∃ x', audit c baseline t x = Ret tt x') as Hv.
  { intros y Hy. pose proof (audit_verdict c baseline t cargo checker) as Hav. unfold returns in Hav. by rewrite !Hav; rewrite ?Hy. }
  trans ((acknowledge_breaking_changes c = true → t = Major) ∧ ∃ x', audit c baseline t x = Ret tt x');
    [|split; [by exists t|by intros (? & [= <-] & ?)]].
  unfold assert_true. destruct (bool_decide_reflect (t = Major)) as [Hm|Hm], (acknowledge_breaking_changes c); simpl;
    try (destruct (bool_decide (audit_release_type t ≠ t)); simpl; rewrite Hv by done); try (split; [by split|by intros [_ ?]]).
  split; [by intros [? ?]|]. intros [Hack _]. by destruct (Hm (Hack eq_refl)).
Qed.

(** ** Tasks stop at the first failure *)

(** What happens when commands are run one after the other until one fails: whether all succeeded, the
    commands that were run, the machine afterwards. *)
Fixpoint run_until (cmds : list Cmd) (m : Machine) : bool * list Cmd * Machine :=
  match cmds with
  | [] => (true, [], m)
  | c :: cmds =>
      let (st, m) := cmd_status c m in
      if match st with Some st => success st | None => false end
      then let '(ok, ran, m) := run_until cmds m in (ok, c :: ran, m)
      else (false, [c], m)
  end.

Definition stops_at_failure (task : M Tool unit) (cmds : list Cmd) (x : Tool) : Prop :=
  let '(ok, ran, m) := run_until cmds (machine x) in
  let x' := mkTool m (stdout x ++ (LCommand <$> ran)) in
  if (ok : bool) then returns task x tt x' else ∃ msg, task x = Panic msg x'.

Lemma run_made_eq (mk : M Tool Cmd) c x : mk x = Ret c x → stops_at_failure (run_made mk) [c] x.
Proof.
  intros Hmk. unfold stops_at_failure, run_made, run_command, returns, mbind, M_bind. rewrite Hmk, command_status_eq. simpl.
  destruct (cmd_status c (machine x)) as [[st|] m]; simpl; [|by eexists]. unfold assert_true. destruct (success st); [done|by eexists].
Qed.

Lemma run_until_app cs ds m :
  run_until (cs ++ ds) m =
    let '(ok, ran, m) := run_until cs m in
    if (ok : bool) then let '(ok, ran', m) := run_until ds m in (ok, ran ++ ran', m) else (false, ran, m).
Proof.
  revert m. induction cs as [|c cs IH]; intros m; simpl; [by destruct (run_until ds m) as [[??]?]|].
  destruct (cmd_status c m) as [st m1]. destruct (match st with Some st => success st | None => false end); [|done].
  rewrite IH. destruct (run_until cs m1) as [[[] ran] m2]; [|done]. by destruct (run_until ds m2) as [[??]?].
Qed.

Lemma stops_bind (t1 t2 : M Tool unit) cs ds x :
  stops_at_failure t1 cs x → (∀ x, stops_at_failure t2 ds x) → stops_at_failure (t1;; t2) (cs ++ ds) x.
Proof.
  unfold stops_at_failure, returns, mbind, M_bind. rewrite run_until_app. destruct (run_until cs (machine x)) as [[[] ran] m]; [|by intros [msg ->]; eauto].
  intros -> H2. specialize (H2 (mkTool m (stdout x ++ (LCommand <$> ran)))). simpl in H2. destruct (run_until ds m) as [[ok ran'] m'].
  rewrite <-(assoc_L (++)), <-fmap_app in H2. done.
Qed.

Lemma run_each_eq {A} (mk : A → M Tool Cmd) (c : A → Cmd) l x :
  (∀ a x, mk a x = Ret (c a) x) → stops_at_failure (run_each (mk <$> l)) (c <$> l) x.
Proof.
  intros Hmk. revert x. induction l as [|a l IH]; intros x.
  - unfold stops_at_failure. simpl. rewrite app_nil_r. by destruct x.
  - apply (stops_bind _ _ [c a]); [by apply run_made_eq|exact IH].
Qed.

(** The classification of a release: it is refused exactly when the release does not come after the one
    published; it is major exactly when the two belong to different lines of compatible releases (the leading
    numbers up to the first that is not zero differ), or differ only in a pre-release tag; it is a patch exactly
    when the line is at 1.0 or later and only the patch number grew. *)
Theorem release_classified `{!PrecedenceLaws E} baseline release x :
  match cmp_precedence baseline release with
  | Lt => ∃ t, returns (classify_release_type baseline release) x t x ∧
      (t = Major ↔ release_line baseline ≠ release_line release ∨ numbers baseline = numbers release) ∧
      (t = Patch ↔ major release ≠ 0 ∧ major baseline = major release ∧ minor baseline = minor release ∧ patch baseline < patch release)
  | _ => ∃ msg, classify_release_type baseline release x = Panic msg x
  end.
Proof.
  pose proof (classify_total baseline release x) as Ht. destruct (cmp_precedence baseline release) eqn:Hc; [done| |done]. destruct Ht as [t Ht].
  destruct (classify_spec _ _ _ _ _ Ht) as (_ & _ & HM & HP). exists t. split_and!; [done|done|]. rewrite HP. split; intros (? & H1 & H2 & ?); split_and!; try done; [|lia].
  rewrite (precedence_patch _ _ H1 H2) in Hc by done. by apply Z.compare_lt_iff.
Qed.

(** C40: the verdict of the release check, in terms of the two versions, the answer of the registry and the exit
    code of the compatibility check.  With cargo and the checker installed and a registry that answers, the task
    succeeds exactly when the crate has not been published, or the release has a higher precedence than the
    published version, breaking changes are acknowledged only for a major release (one of another line of
    compatible releases, or with the same three numbers), and the checker, asked for the rules of a patch if only the patch number of
    a release from 1.0 on changed and for those of a minor release otherwise, exits with 0, or with 100 (violations)
    for a major release whose breaking changes are acknowledged. *)
Theorem release_check_verdict (c : CommandSemver) x cargo checker latest :
  which "cargo" (machine x) = Some cargo → which "cargo-semver-checks" (machine x) = Some checker →
  registry_answers (machine x) latest →
  (∃ x', returns (run_semver c) x tt x') ↔
  match latest with
  | None => True
  | Some baseline =>
      cmp_precedence baseline (release_version c) = Lt ∧
      (acknowledge_breaking_changes c = true → is_major baseline (release_version c)) ∧
      ∃ st, (cmd_status (compatibility_check cargo baseline (release_version c)) (machine x)).1 = Some st ∧
        (code st = Some 0 ∨
         is_major baseline (release_version c) ∧ code st = Some 100 ∧ acknowledge_breaking_changes c = true)
  end.
Proof.
  intros Hcargo Htool Hlatest. apply registry_spec in Hlatest.
  destruct latest as [baseline|]; [|split; [done|intros _; eexists; unfold run_semver, returns, mbind, M_bind; by rewrite Hlatest]].
  rewrite (run_semver_published c x baseline cargo checker Hcargo Htool Hlatest).
  split.
  - intros (t & Ht & Hack & Ha). destruct (classify_spec _ _ _ _ _ Ht) as (_ & Hlt & HM & HP).
    apply (audit_verdict _ _ _ _ _ _ Hcargo Htool) in Ha as (st & Hst & Hok). rewrite (compatibility_check_spec _ _ _ t) in Hst by done.
    split_and!; [done|by rewrite <-HM|]. exists st. rewrite <-HM, <-success_spec. done.
  - intros (Hlt & Hack & st & Hst & Hok). pose proof (classify_total baseline (release_version c) x) as Ht. rewrite Hlt in Ht.
    destruct Ht as [t Ht]. destruct (classify_spec _ _ _ _ _ Ht) as (_ & _ & HM & HP). exists t. split_and!; [done|by rewrite HM|].
    apply (audit_verdict _ _ _ _ _ _ Hcargo Htool). exists st. rewrite (compatibility_check_spec _ _ _ t), success_spec by done.
    rewrite <-HM in Hok. done.
Qed.

(** The command for a set of features. *)
Definition check_cmd (exe : string) (fs : list string) : Cmd :=
  mkCmd exe (check_args fs) [("RUSTFLAGS", "-Dwarnings")] workspace_dir.

(** The feature matrix.  The task checks the crate without features, with each feature alone and with all of
    them, warnings denied, in this order and up to the first command that fails; it succeeds exactly when every
    command does.  The features are all those of the crate but the default one, sorted. *)
Theorem feature_matrix x exe packages package :
  (∀ m, which "cargo" m = Some exe) →
  metadata (workspace_dir +:+ "/Cargo.toml") (machine x) = Some packages →
  List.find (λ p, bool_decide (name p = PACKAGE_NAME)) packages = Some package →
  ∃ fs, stops_at_failure run_check (check_cmd exe [] :: ((λ f, check_cmd exe [f]) <$> fs) ++ [check_cmd exe fs]) x ∧
    Sorted (λ a b, String.leb a b) fs ∧ ∀ f, f ∈ fs ↔ f ∈ features package ∧ f ≠ "default".
Proof.
  intros Hcargo Hmeta Hfind. exists (merge_sort (λ a b, String.leb a b) (filter (λ f, f ≠ "default") (features package))). split_and!.
  - set (fs := merge_sort _ _). assert (∀ gs y, make_check_cmd gs y = Ret (check_cmd exe gs) y) as Hmk.
    { intros gs y. unfold make_check_cmd, find_command, mbind, M_bind. simpl. by rewrite Hcargo. }
    assert (asyncband_features x = Ret fs x) as Hfs.
    { unfold asyncband_features, mbind, M_bind. simpl. rewrite Hmeta. simpl. by rewrite Hfind. }
    assert (∀ cmds k, (stops_at_failure (k fs) cmds x) → stops_at_failure (asyncband_features ≫= k) cmds x) as Hbind.
    { intros cmds k. unfold stops_at_failure, returns, mbind, M_bind. by rewrite Hfs. }
    apply Hbind. apply (stops_bind _ _ [check_cmd exe []]); [by apply run_made_eq|]. intros y.
    apply stops_bind; [by apply run_each_eq|]. intros z. by apply run_made_eq.
  - apply Sorted_merge_sort. intros a b. destruct (String.leb_total a b) as [H|H]; [left|right]; by rewrite H.
  - intros f. rewrite merge_sort_Permutation, list_elem_of_filter. tauto.
Qed.
End xtask.

(** ** A machine *)

(** Programs that are installed are found under their names; the compatibility check reports violations. *)
Definition toy_compare (b r : Z * Z * Z * bool) : comparison :=
  let '(bm, bn, bp, bx) := b in
  let '(rm, rn, rp, rx) := r in
  match bm ?= rm with
  | Eq => match bn ?= rn with
          | Eq => match bp ?= rp with Eq => if bx && negb rx then Lt else if negb bx && rx then Gt else Eq | c => c end
          | c => c
          end
  | c => c
  end.

#[local] Instance toy_world : World := {|
  Machine := list string;
  Body := CratesIoCrate;
  Version := Z * Z * Z * bool;
  major v := v.1.1.1;
  minor v := v.1.1.2;
  patch v := v.1.2;
  cmp_precedence := toy_compare;
  version_parse s := if bool_decide (s = "0.6.5") then Some (0, 6, 5, false) else None;
  version_display _ := "0.6.5";
  which s m := if bool_decide (s ∈ "cargo" :: m) then Some s else None;
  cmd_status c m := (Some (mkStatus (Some (if bool_decide ("semver-checks" ∈ args c) then 100 else 0))), m);
  metadata _ _ := Some [mkPackage "asyncband" ["mutex"; "default"; "barrier"]];
  http_get _ _ := Ok (mkCrate "0.7.0-rc.1" (Some "0.6.5"));
  read_json b := Some b;
  workspace_dir := "/w";
|}.

#[local] Instance toy_laws : PrecedenceLaws toy_world.
Proof.
  split; intros [[[bm bn] bp] bx] [[[rm rn] rp] rx]; simpl.
  - intros H. destruct (Z.compare_spec bm rm); done.
  - intros <- H. rewrite Z.compare_refl. destruct (Z.compare_spec bn rn); done.
  - intros <- <- H. rewrite !Z.compare_refl. destruct (Z.compare_spec bp rp); done.
Qed.

Definition toy_tool : Tool := mkTool (E := toy_world) ["cargo-semver-checks"] [].

Lemma release_classified_witness :
  ∃ t, returns (classify_release_type (0, 6, 5, false) (0, 7, 0, false)) toy_tool t toy_tool ∧
    (t = Major ↔ release_line (0, 6, 5, false) ≠ release_line (0, 7, 0, false) ∨ numbers (0, 6, 5, false) = numbers (0, 7, 0, false)) ∧
    (t = Patch ↔ 0 ≠ 0 ∧ 0 = 0 ∧ 6 = 7 ∧ 5 < 0).
Proof. exact (release_classified (0, 6, 5, false) (0, 7, 0, false) toy_tool). Defined.

(** An acknowledged breaking release passes, the same release without the acknowledgement does not. *)
Lemma release_check_verdict_witness :
  (∃ x', returns (run_semver (mkSemver (E := toy_world) (0, 7, 0, false) true)) toy_tool tt x') ∧
  ¬ (∃ x', returns (run_semver (mkSemver (E := toy_world) (0, 7, 0, false) false)) toy_tool tt x').
Proof.
  assert (registry_answers (machine toy_tool) (Some (0, 6, 5, false))) as Hr by (eexists _, _; split_and!; [reflexivity..|vm_compute; reflexivity]).
  split.
  - apply (release_check_verdict (mkSemver (E := toy_world) (0, 7, 0, false) true) toy_tool "cargo" "cargo-semver-checks" (Some (0, 6, 5, false)));
      [vm_compute; reflexivity..|done|].
    split_and!; [reflexivity|by left|]. exists (mkStatus (Some 100)). split; [vm_compute; reflexivity|]. right. by split; [left|].
  - intros H. apply (release_check_verdict (mkSemver (E := toy_world) (0, 7, 0, false) false) toy_tool "cargo" "cargo-semver-checks" (Some (0, 6, 5, false))) in H;
      [|vm_compute; reflexivity..|done].
    destruct H as (_ & _ & st & Hst & [Hs|(_ & _ & ?)]); [|done]. vm_compute in Hst. injection Hst as <-. done.
Defined.

Lemma feature_matrix_witness :
  ∃ fs, stops_at_failure run_check (check_cmd "cargo" [] :: ((λ f, check_cmd "cargo" [f]) <$> fs) ++ [check_cmd "cargo" fs]) toy_tool ∧
    Sorted (λ a b, String.leb a b) fs ∧ ∀ f, f ∈ fs ↔ f ∈ ["mutex"; "default"; "barrier"] ∧ f ≠ "default".
Proof.
  apply (feature_matrix toy_tool "cargo" [mkPackage "asyncband" ["mutex"; "default"; "barrier"]] (mkPackage "asyncband" ["mutex"; "default"; "barrier"]));
    [done|vm_compute; reflexivity|vm_compute; reflexivity].
Defined.
